(* ===== verification/_CoqProject ===== *)
-Q . S2P
Prelude.v
GoIO.v
Wire.v
Requests.v
RequestSpec.v
Responses.v
ResponseSpec.v
RecordBatch.v
GoStrings.v
OSFile.v
LogIndex.v
LogSegment.v
SegmentSpec.v
SegmentFaults.v
LogStore.v
StoreInterface.v
Retention.v
OffsetRecords.v
FetchPatch.v
BrokerStore.v
BrokerSpec.v
BrokerRetention.v
Metrics.v
Handler.v
ConnSpec.v
HandlerSpec.v
CatalogueSpec.v
CommitSpec.v
Commits.v
GoText.v
Config.v
ConfigSpec.v
Daemon.v
DaemonSpec.v
AppendOnly.v
Prog.v
Concurrent.v
ConcurrentSpec.v
Acknowledged.v
Crash.v
CleanerRace.v
LogCleaner.v
MetricsServer.v
Connections.v
ConnectionsSpec.v
