(* ===== verification/Prelude.v ===== *)
(** * Kage: a verification library for the broker

    Kage (src/) is a single-node, Kafka-compatible message broker in Go. Its
    parts, from the bottom up:

    - internal/protocol: the wire codec. [Decoder] reads big-endian integers,
      strings and byte runs from a connection, [Encoder] builds response
      frames, messages.go holds one parser per request and one encoder per
      response, record_batch.go checks a record batch (magic byte, length,
      CRC-32C).
    - internal/storage: the log. A segment is an append-only file of
      length-prefixed records with a sparse index; a partition store owns the
      active segment and rolls over to a new one when it is full; the broker
      store maps topic-partitions to partition stores.
    - internal/server: the request handlers on top of both, internal/config,
      internal/metrics, and cmd/kaged, the process.

    A byte is [Byte.byte], a Go string a list of bytes, a fixed-width integer
    a [Z] that conversions and arithmetic bring back to its width ([i32],
    [u64], ...). A call that returns [(T, error)] is a state-passing function
    into [result]: [Ok], [Err] with the error value and its wrapping, or
    [Panic] for the run-time panics the code can raise. The state left behind
    is part of the result on every path.

    ** Files

    - [Prelude]: bytes, machine integers, big-endian coding, slices.
    - [GoIO]: errors ([fmt.Errorf], [errors.Is]), results, the state monad with
      its weakest preconditions, [io.Reader], connections.
    - [Wire]: decoder.go and encoder.go, and what it means for a parser to
      read a byte layout, to reject its truncations and to be streaming.
    - [Requests], [RequestSpec]: the request structs and parsers of
      messages.go; the layouts its comments document, as independent
      serialisers. The parsers invert the layouts, reject every truncation
      with the end of the stream's error, and panic or not depending on how
      they treat element counts.
    - [Responses], [ResponseSpec]: the response structs and encoders, with
      [WriteFetchResponse]; client-side decoders, and the theorems that what a
      client decodes from a frame is what the broker encoded.
    - [RecordBatch]: [ValidateRecordBatch] and CRC-32C; that the batches it
      accepts are those of the documented layout, that every single-byte corruption of the body is detected, and
      that the base offset is outside the check.
    - [GoStrings]: the parts of strconv, strings, fmt and path/filepath that
      the storage layer uses, with the injectivity of segment file names.
    - [OSFile]: the operating system as the storage layer sees it: files,
      directories, a clock, and a schedule of outcomes for the coming system
      calls, so that every theorem about failures quantifies over all of them;
      [bufio.Writer] on top. [appends], [touches] and [quiet] say what a call
      leaves alone.
    - [LogIndex]: index.go. [Lookup]'s binary search (by well-founded
      recursion) against a linear reference; the file mirrors the entries.
    - [LogSegment], [SegmentSpec]: segment.go; the specification of each
      method under an arbitrary fault schedule, then the abstract log with a
      refinement theorem over sequences of calls, reading back, fail-stop
      after a failed write, restart, and the density of the sparse index.
    - [SegmentFaults]: a segment under any schedule of failing system calls
      refines a log that can fail; no success it reports is wrong.
    - [LogStore]: store.go; the abstract partition log with roll-over, the
      partition as one sequence of bytes, and the refinement theorems; what
      happens to offsets on roll-over and restart.
    - [Retention]: [CleanOldSegments]; which files it may delete and which it
      must.
    - [OffsetRecords], [FetchPatch]: the records of __consumer_offsets, and the
      rewriting of base offsets in served batches (handler.go).
    - [BrokerStore], [BrokerSpec]: broker_store.go. The order in which [range]
      visits a map is the class [MapOrder], of which only that it is a
      permutation is known. A broker is refined to a map of abstract partition
      logs; opening it after a close gives the same map back; [Topics] is
      complete.
    - [BrokerRetention]: a tick of the log cleaner over all partitions keeps the
      broker.
    - [StoreInterface]: the interfaces [AppendStore], [FetchStore] and [Store]
      as classes with the class [StoreOk] of their laws for Append, Read and, as
      long as a log has one segment, Size; clients are verified against the
      laws, [PartitionStore] and a log in memory are instances.
    - [Metrics]: metrics.go over an interface to the Prometheus collectors
      (class [Prometheus] with its laws [PrometheusOk]).
    - [Handler]: handler.go, all of it: [Handle], [dispatch] and the handlers,
      the state being the handler, the connection and the operating system.
    - [ConnSpec]: [serve] against a request-by-request reference, and its
      termination. [HandlerSpec]: produce and fetch against the abstract broker
      [abroker] (the logs and the committed offsets), their composition, and
      their errors. [CatalogueSpec]: metadata and list offsets. [CommitSpec]:
      commits; requests served one after the other keep the cache what a
      handler that loads the log of commits gets, also after a restart. [Commits]: concurrent commits as a step
      relation.
    - [GoText]: strings.TrimSpace, bufio.Scanner on lines and
      time.ParseDuration (with the binary64 arithmetic of [SpecFloat]).
    - [Config], [ConfigSpec]: config.go; which source decides each field, the
      bounds of a loaded configuration, and the round trip through a file.
    - [Daemon], [DaemonSpec]: main.go. [startup] is the sequence up to the
      accept loop; [dstep] is the transition system of the accept loop, the
      pool of handlers and the shutdown, one event per operation on the
      semaphore, the wait group, the listener and the contexts; a panic of a
      handler runs its deferred calls before it ends the process. Invariants
      are by induction on its steps; [work_left] bounds a shutdown, which [main]
      can end by its own steps;
      [stop_then_start] composes a stop with the next start.
    - [AppendOnly]: what serving a connection can do to files: append.
    - [Prog]: programs of atomic calls, pools of them that run interleaved,
      their termination, and the simulation and rely-guarantee principles the
      concurrency theorems use.
    - [Concurrent], [ConcurrentSpec]: the six data requests as programs, one
      call per locked section of the code; run alone they are the handlers of
      [Handler]; interleaved in any way they refine interleaved steps on the
      abstract broker, closed segment files included. [Acknowledged]: what has
      been acknowledged is in the files or buffers of its partition under every
      interleaving.
    - [Connections], [ConnectionsSpec]: the goroutine of a connection as a
      program, [Handle] when run alone. Any number of clients with streams of
      requests, and with what is not a request after them, served
      concurrently: the frames they receive are the abstract broker's answers,
      and every connection is served to its end.
    - [Crash]: the process dies and its store is opened again: what is lost is
      exactly what was buffered, and never what a reader has been served.
    - [CleanerRace]: [CleanOldSegments] as the sequence of its unlocked calls,
      interleaved with appends, reads, other sweeps and the clock.
    - [LogCleaner]: the goroutine [runLogCleaner] with its ticker and context,
      beside the clients of the store: it is invisible to them, and expired
      segments go.
    - [MetricsServer]: the HTTP endpoint of metrics.go: the routes with the
      matching of [http.ServeMux], and the life of the server and of its
      connections from [ListenAndServe] to [Shutdown]; the process with both
      servers.

    ** Bounds and fuel

    Loops with a bound in the data are structural. [load_loop] takes the
    length of the index file plus one as fuel, and every round but the last
    consumes an entry. [bufio_fill] takes three rounds: one flushes a partly
    filled buffer, one writes a large rest directly, one leaves; the lemma
    [bufio_fill_spec] shows that the remainder then fits the buffer. Sizes and
    offsets stay below 2^62 in the storage theorems, so that the additions of
    the code do not wrap; the wire theorems state the width of each field.
    [serve] and [serve_program] take the number of unread bytes plus one, and every round reads a
    header; [load_offsets], [patch_loop], [trim] and [parse_components] take
    the length of their input, of which every round consumes a part
    ([Handle_terminates], [patch_loop_fuel], [parse_components_fuel]).

    ** Not modelled

    Log messages, but for those of the metrics server that report errors.
    Power loss: [fsync] is a call that can fail, the model has no page cache; a
    crash of the process is in [Crash]. What the Prometheus and pprof handlers
    write; [http.Server] below its documented behaviour (the states of its
    connections are those of [http.ConnState]). Mutexes are not objects of the model: a section of
    code under a lock is one call of a program, and a method that holds its
    lock for its whole body is one call. Prometheus, the environment and the
    order of map iteration are parameters. *)

From Stdlib Require Import ZArith Lia.
From Stdlib.Strings Require Import Byte.
From stdpp Require Import base tactics list numbers gmap strings.

#[local] Open Scope Z_scope.
#[global] Set Default Goal Selector "!".

(** ** Bytes *)

Abbreviation byte := Byte.byte.

(** The unsigned value of a byte. *)
Definition byteZ (b : byte) : Z := Z.of_N (Byte.to_N b).

(** Go's [byte(z)]: the low eight bits. *)
Definition Zbyte (z : Z) : byte :=
  match Byte.of_N (Z.to_N (z mod 256)) with Some b => b | None => Byte.x00 end.

Lemma byteZ_range b : 0 <= byteZ b < 256.
Proof. unfold byteZ. pose proof (Byte.to_N_bounded b). lia. Qed.

Lemma byteZ_Zbyte z : byteZ (Zbyte z) = z mod 256.
Proof.
  unfold byteZ, Zbyte.
  pose proof (Z.mod_pos_bound z 256 ltac:(lia)) as Hm.
  destruct (Byte.of_N (Z.to_N (z mod 256))) as [b|] eqn:E.
  - apply Byte.to_of_N in E. rewrite E. lia.
  - apply Byte.of_N_None_iff in E. lia.
Qed.

Lemma byteZ_inj b1 b2 : byteZ b1 = byteZ b2 -> b1 = b2.
Proof.
  unfold byteZ. intros H. apply N2Z.inj in H.
  pose proof (Byte.of_to_N b1) as H1. pose proof (Byte.of_to_N b2) as H2.
  rewrite H in H1. congruence.
Qed.

Lemma Zbyte_byteZ b : Zbyte (byteZ b) = b.
Proof.
  apply byteZ_inj. rewrite byteZ_Zbyte. apply Z.mod_small, byteZ_range.
Qed.

Lemma Zbyte_mod z k : 8 <= k -> Zbyte (z mod 2 ^ k) = Zbyte z.
Proof.
  intros Hk. apply byteZ_inj. rewrite !byteZ_Zbyte. change 256 with (2 ^ 8).
  replace k with (8 + (k - 8)) by lia.
  rewrite Z.pow_add_r by lia. rewrite Z.rem_mul_r by lia.
  rewrite (Z.mul_comm (2 ^ 8)), Z_mod_plus_full. apply Z.mod_mod. lia.
Qed.

#[global] Instance byte_eq_dec : EqDecision byte := Byte.byte_eq_dec.

#[global] Program Instance byte_countable : Countable byte :=
  {| encode b := N.succ_pos (Byte.to_N b);
     decode p := Byte.of_N (N.pred (N.pos p)) |}.
Next Obligation.
  intros b. destruct b; reflexivity.
Qed.

(** A Go string is its sequence of bytes; [gos] writes a literal. *)
Abbreviation gostring := (list byte).
Definition gos (s : string) : gostring := String.list_byte_of_string s.

(** ** Machine integers

    Go's fixed-width integers are [Z] values; a conversion or an arithmetic
    result is brought back to its width by [uwrap] (unsigned) or [swrap]
    (two's complement). *)

Definition uwrap (w z : Z) : Z := z mod 2 ^ w.
Definition swrap (w z : Z) : Z := (z + 2 ^ (w - 1)) mod 2 ^ w - 2 ^ (w - 1).

Definition u8 : Z -> Z := uwrap 8.
Definition u16 : Z -> Z := uwrap 16.
Definition u32 : Z -> Z := uwrap 32.
Definition u64 : Z -> Z := uwrap 64.
Definition i8 : Z -> Z := swrap 8.
Definition i16 : Z -> Z := swrap 16.
Definition i32 : Z -> Z := swrap 32.
Definition i64 : Z -> Z := swrap 64.

(** Range of a [w]-bit integer, unsigned and signed. *)
Definition ufits (w z : Z) : Prop := 0 <= z < 2 ^ w.
Definition sfits (w z : Z) : Prop := - 2 ^ (w - 1) <= z < 2 ^ (w - 1).

#[global] Instance ufits_dec w z : Decision (ufits w z).
Proof. unfold ufits. apply _. Defined.
#[global] Instance sfits_dec w z : Decision (sfits w z).
Proof. unfold sfits. apply _. Defined.

Lemma pow2_split w : 0 < w -> 2 ^ w = 2 ^ (w - 1) + 2 ^ (w - 1).
Proof.
  intros. replace w with ((w - 1) + 1) at 1 by lia.
  rewrite Z.pow_add_r by lia. lia.
Qed.

Lemma uwrap_id w z : ufits w z -> uwrap w z = z.
Proof. unfold ufits, uwrap. intros. by apply Z.mod_small. Qed.

Lemma uwrap_fits w z : 0 <= w -> ufits w (uwrap w z).
Proof. intros. apply Z.mod_pos_bound, Z.pow_pos_nonneg; lia. Qed.

Lemma swrap_id w z : 0 < w -> sfits w z -> swrap w z = z.
Proof.
  unfold sfits, swrap. intros Hw Hz. pose proof (pow2_split w Hw).
  rewrite Z.mod_small; lia.
Qed.

(** A sum that overflows comes out negative. *)
Lemma swrap_over w z : 0 < w -> 2 ^ (w - 1) <= z < 2 ^ w -> swrap w z = z - 2 ^ w.
Proof.
  intros Hw Hz. unfold swrap. pose proof (pow2_split w Hw).
  rewrite <- (Z.mod_unique (z + 2 ^ (w - 1)) (2 ^ w) 1 (z + 2 ^ (w - 1) - 2 ^ w)); lia.
Qed.

Lemma swrap_fits w z : 0 < w -> sfits w (swrap w z).
Proof.
  unfold sfits, swrap. intros Hw. pose proof (pow2_split w Hw).
  pose proof (Z.mod_pos_bound (z + 2 ^ (w - 1)) (2 ^ w)
                ltac:(apply Z.pow_pos_nonneg; lia)). lia.
Qed.

Lemma swrap_uwrap w z : swrap w (uwrap w z) = swrap w z.
Proof. unfold swrap, uwrap. by rewrite Zplus_mod_idemp_l. Qed.

Lemma uwrap_swrap w z : uwrap w (swrap w z) = uwrap w z.
Proof.
  unfold swrap, uwrap. rewrite Zminus_mod_idemp_l. f_equal. lia.
Qed.

Lemma swrap_add_l w a b : swrap w (swrap w a + b) = swrap w (a + b).
Proof.
  unfold swrap. f_equal.
  replace ((a + 2 ^ (w - 1)) mod 2 ^ w - 2 ^ (w - 1) + b + 2 ^ (w - 1))
    with ((a + 2 ^ (w - 1)) mod 2 ^ w + b) by lia.
  rewrite Zplus_mod_idemp_l. f_equal. lia.
Qed.

Lemma swrap_add_r w a b : swrap w (a + swrap w b) = swrap w (a + b).
Proof. by rewrite Z.add_comm, swrap_add_l, Z.add_comm. Qed.

Lemma uwrap_add_l w a b : uwrap w (uwrap w a + b) = uwrap w (a + b).
Proof. apply Zplus_mod_idemp_l. Qed.
Lemma uwrap_add_r w a b : uwrap w (a + uwrap w b) = uwrap w (a + b).
Proof. apply Zplus_mod_idemp_r. Qed.
Lemma uwrap_sub_l w a b : uwrap w (uwrap w a - b) = uwrap w (a - b).
Proof. apply Zminus_mod_idemp_l. Qed.
Lemma uwrap_sub_r w a b : uwrap w (a - uwrap w b) = uwrap w (a - b).
Proof. apply Zminus_mod_idemp_r. Qed.

Lemma swrap_uwrap_id w z : 0 < w -> sfits w z -> swrap w (uwrap w z) = z.
Proof. intros. rewrite swrap_uwrap. by apply swrap_id. Qed.

Lemma uwrap_uwrap w z : uwrap w (uwrap w z) = uwrap w z.
Proof. unfold uwrap. by rewrite Zmod_mod. Qed.

Create Rewrite HintDb wrap.
#[export] Hint Rewrite uwrap_add_l uwrap_add_r uwrap_sub_l uwrap_sub_r uwrap_uwrap swrap_uwrap
  swrap_add_l swrap_add_r : wrap.

(** Unfold every width so that [lia] sees the constants. *)
Ltac fits := unfold ufits, sfits in *; cbn -[Z.modulo Z.add] in *; lia.

(** ** Big-endian encoding ([encoding/binary]) *)

(** [PutUint8n]: the [n] low bytes of [z], most significant first. *)
Fixpoint be_put (n : nat) (z : Z) : list byte :=
  match n with
  | O => []
  | S k => Zbyte (Z.shiftr z (8 * Z.of_nat k)) :: be_put k z
  end.

(** [Uint8n]: the unsigned value of a byte sequence. *)
Definition be_get (l : list byte) : Z :=
  fold_left (fun acc b => acc * 256 + byteZ b) l 0.

Lemma length_be_put n z : length (be_put n z) = n.
Proof. induction n; simpl; lia. Qed.

Lemma be_get_acc l acc :
  fold_left (fun a b => a * 256 + byteZ b) l acc =
  acc * 256 ^ Z.of_nat (length l) + be_get l.
Proof.
  unfold be_get. revert acc. induction l as [|b l IH]; intros acc.
  - simpl. lia.
  - cbn [fold_left length]. rewrite IH, (IH (0 * 256 + byteZ b)).
    rewrite Nat2Z.inj_succ, Z.pow_succ_r by lia. lia.
Qed.

Lemma be_get_nil : be_get [] = 0.
Proof. reflexivity. Qed.

Lemma be_get_cons b l :
  be_get (b :: l) = byteZ b * 256 ^ Z.of_nat (length l) + be_get l.
Proof. unfold be_get at 1. cbn [fold_left]. rewrite be_get_acc. lia. Qed.

Lemma be_get_range l : 0 <= be_get l < 256 ^ Z.of_nat (length l).
Proof.
  induction l as [|b l IH]; [rewrite be_get_nil; simpl; lia|].
  rewrite be_get_cons. cbn [length]. rewrite Nat2Z.inj_succ, Z.pow_succ_r by lia.
  pose proof (byteZ_range b). nia.
Qed.

Lemma pow256 n : 256 ^ Z.of_nat n = 2 ^ (8 * Z.of_nat n).
Proof. rewrite Z.pow_mul_r by lia. reflexivity. Qed.

Lemma be_get_put n z : be_get (be_put n z) = z mod 2 ^ (8 * Z.of_nat n).
Proof.
  induction n as [|n IH]; [by rewrite Z.mod_1_r|].
  cbn [be_put]. rewrite be_get_cons, length_be_put, IH, byteZ_Zbyte, pow256.
  rewrite Z.shiftr_div_pow2 by lia.
  replace (8 * Z.of_nat (S n)) with (8 * Z.of_nat n + 8) by lia.
  rewrite Z.pow_add_r by lia.
  rewrite Z.rem_mul_r by (try apply Z.pow_nonzero; lia).
  change (2 ^ 8) with 256. lia.
Qed.

Lemma be_put_mod n m z :
  (n <= m)%nat -> be_put n (z mod 2 ^ (8 * Z.of_nat m)) = be_put n z.
Proof.
  intros Hn. induction n as [|n IH]; [done|]. cbn [be_put].
  rewrite IH by lia. f_equal. rewrite !Z.shiftr_div_pow2 by lia.
  rewrite <- (Zbyte_mod (z / _) (8 * Z.of_nat m - 8 * Z.of_nat n)) by lia.
  replace (8 * Z.of_nat m) with (8 * Z.of_nat n + (8 * Z.of_nat m - 8 * Z.of_nat n))
    at 1 by lia.
  rewrite Z.pow_add_r by lia.
  rewrite Z.rem_mul_r by (try apply Z.pow_nonzero; try apply Z.pow_pos_nonneg; lia).
  rewrite Z.add_comm, Z.mul_comm, Z.div_add_l by (apply Z.pow_nonzero; lia).
  rewrite (Z.div_small (z mod _)) by (apply Z.mod_pos_bound, Z.pow_pos_nonneg; lia).
  by rewrite Z.add_0_r.
Qed.

Lemma be_put_get l : be_put (length l) (be_get l) = l.
Proof.
  induction l as [|b l IH]; [done|]. cbn [length be_put]. f_equal.
  - rewrite be_get_cons, Z.shiftr_div_pow2, <- pow256 by lia.
    rewrite Z.div_add_l by (apply Z.pow_nonzero; lia).
    rewrite Z.div_small by apply be_get_range. rewrite Z.add_0_r.
    apply Zbyte_byteZ.
  - rewrite <- (be_put_mod _ (length l)) by lia.
    rewrite be_get_cons, pow256, Z.add_comm, Z_mod_plus_full.
    rewrite be_put_mod by lia. exact IH.
Qed.

Lemma be_get_inj l1 l2 :
  length l1 = length l2 -> be_get l1 = be_get l2 -> l1 = l2.
Proof.
  intros Hl Hg. rewrite <- (be_put_get l1), <- (be_put_get l2). congruence.
Qed.

Lemma be_put_1 z : be_put 1 z = [Zbyte z].
Proof. unfold be_put. by rewrite Z.shiftr_0_r. Qed.

Lemma be_put_4 z :
  be_put 4 z = [Zbyte (Z.shiftr z 24); Zbyte (Z.shiftr z 16); Zbyte (Z.shiftr z 8); Zbyte z].
Proof. unfold be_put. by rewrite Z.shiftr_0_r. Qed.

#[global] Opaque be_put be_get.

(** ** Slices

    [zlen] is Go's [len] on a byte slice, [slice lo hi] is [l[lo:hi]] for
    indices in range, [splice] overwrites the bytes from a position on, as
    [copy(l[pos:], new)] does for a [new] that fits. *)

Definition zlen {A} (l : list A) : Z := Z.of_nat (length l).

Definition slice {A} (lo hi : Z) (l : list A) : list A :=
  take (Z.to_nat (hi - lo)) (drop (Z.to_nat lo) l).

Definition splice {A} (pos : Z) (new l : list A) : list A :=
  take (Z.to_nat pos) l ++ new ++ drop (Z.to_nat pos + length new) l.

Lemma zlen_nonneg {A} (l : list A) : 0 <= zlen l.
Proof. unfold zlen. lia. Qed.

Lemma zlen_nil {A} : zlen (@nil A) = 0.
Proof. reflexivity. Qed.

Lemma zlen_cons {A} (x : A) l : zlen (x :: l) = 1 + zlen l.
Proof. unfold zlen. simpl. lia. Qed.

Lemma zlen_app {A} (l1 l2 : list A) : zlen (l1 ++ l2) = zlen l1 + zlen l2.
Proof. unfold zlen. rewrite length_app. lia. Qed.

Lemma zlen_take {A} n (l : list A) :
  0 <= n <= zlen l -> zlen (take (Z.to_nat n) l) = n.
Proof. unfold zlen. rewrite length_take. lia. Qed.

Lemma zlen_drop {A} n (l : list A) :
  0 <= n <= zlen l -> zlen (drop (Z.to_nat n) l) = zlen l - n.
Proof. unfold zlen. rewrite length_drop. lia. Qed.

Lemma zlen_be_put n z : zlen (be_put n z) = Z.of_nat n.
Proof. unfold zlen. by rewrite length_be_put. Qed.

Lemma zlen_nil_inv {A} (l : list A) : zlen l <= 0 -> l = [].
Proof. destruct l; unfold zlen; simpl; [done|lia]. Qed.

Lemma zlen_slice {A} lo hi (l : list A) :
  0 <= lo <= hi -> hi <= zlen l -> zlen (slice lo hi l) = hi - lo.
Proof. unfold zlen, slice. rewrite length_take, length_drop. lia. Qed.

Lemma zlen_splice {A} pos (new l : list A) :
  0 <= pos -> pos + zlen new <= zlen l -> zlen (splice pos new l) = zlen l.
Proof.
  unfold zlen, splice. rewrite !length_app, length_take, length_drop. lia.
Qed.

(** Slices of a concatenation, when the cut falls on its boundary. *)
Lemma slice_app_l {A} lo hi (l1 l2 : list A) :
  0 <= lo -> hi <= zlen l1 -> slice lo hi (l1 ++ l2) = slice lo hi l1.
Proof.
  unfold slice, zlen. intros. destruct (decide (lo <= hi)).
  - rewrite drop_app_le by lia. rewrite take_app_le; [done|].
    rewrite length_drop. lia.
  - replace (Z.to_nat (hi - lo)) with 0%nat by lia. done.
Qed.

Lemma slice_app_r {A} lo hi (l1 l2 : list A) :
  zlen l1 <= lo ->
  slice lo hi (l1 ++ l2) = slice (lo - zlen l1) (hi - zlen l1) l2.
Proof.
  unfold slice, zlen. intros. rewrite drop_app_ge by lia. do 2 f_equal; lia.
Qed.

Lemma slice_full {A} (l : list A) : slice 0 (zlen l) l = l.
Proof. unfold slice, zlen. rewrite drop_0. apply take_ge. lia. Qed.

Lemma slice_full' {A} n (l : list A) : zlen l = n -> slice 0 n l = l.
Proof. intros <-. apply slice_full. Qed.

Lemma slice_mid {A} (l1 m l2 : list A) :
  slice (zlen l1) (zlen l1 + zlen m) (l1 ++ m ++ l2) = m.
Proof.
  rewrite slice_app_r by lia. replace (zlen l1 - zlen l1) with 0 by lia.
  replace (zlen l1 + zlen m - zlen l1) with (zlen m) by lia.
  rewrite slice_app_l by lia. apply slice_full.
Qed.

Lemma slice_split {A} (lo hi : Z) (l : list A) :
  0 <= lo <= hi -> hi <= zlen l ->
  l = take (Z.to_nat lo) l ++ slice lo hi l ++ drop (Z.to_nat hi) l.
Proof.
  intros. unfold slice. rewrite <- (take_drop (Z.to_nat lo) l) at 1. f_equal.
  rewrite <- (take_drop (Z.to_nat (hi - lo)) (drop (Z.to_nat lo) l)) at 1.
  f_equal. rewrite drop_drop. f_equal. lia.
Qed.

(** A slice away from the overwritten bytes is unchanged. *)
Lemma slice_splice_after {A} lo hi pos (new l : list A) :
  0 <= pos -> pos + zlen new <= lo -> pos + zlen new <= zlen l ->
  slice lo hi (splice pos new l) = slice lo hi l.
Proof.
  unfold slice, splice, zlen. intros. f_equal.
  rewrite app_assoc. rewrite drop_app_ge by (rewrite length_app, length_take; lia).
  rewrite drop_drop. f_equal. rewrite length_app, length_take. lia.
Qed.

Lemma slice_splice_before {A} lo hi pos (new l : list A) :
  0 <= lo -> 0 <= pos -> hi <= pos -> pos <= zlen l ->
  slice lo hi (splice pos new l) = slice lo hi l.
Proof.
  intros. unfold splice.
  rewrite slice_app_l by (rewrite ?zlen_take; lia).
  rewrite <- (take_drop (Z.to_nat pos) l) at 2.
  rewrite slice_app_l by (rewrite ?zlen_take; lia). done.
Qed.

Lemma slice_splice_at {A} pos (new l : list A) :
  0 <= pos -> pos <= zlen l -> slice pos (pos + zlen new) (splice pos new l) = new.
Proof.
  intros. unfold splice.
  rewrite <- (zlen_take pos l) at 1 2 by lia. apply slice_mid.
Qed.

Create Rewrite HintDb zlen.
#[export] Hint Rewrite @zlen_nil @zlen_cons @zlen_app zlen_be_put : zlen.

(** Lengths of concatenations and fixed-width encodings, then [lia]. *)
Ltac zlen_lia := autorewrite with zlen in *; try lia.

(** ** Folds *)

Lemma fold_left_ext {A B} (f g : B -> A -> B) l b :
  (forall b x, f b x = g b x) -> fold_left f l b = fold_left g l b.
Proof. intros Hfg. revert b. induction l; intros; simpl; [done|]. by rewrite Hfg. Qed.

(** ** Concrete instances *)

(** Discharges conjunctions and [Forall]s of decidable facts on closed terms. *)
Ltac concrete :=
  repeat match goal with
         | |- _ /\ _ => split
         | |- Forall _ [] => apply Forall_nil_2
         | |- Forall _ (_ :: _) => apply Forall_cons_2
         | |- Forall _ _ => progress cbn
         end;
  try (apply (bool_decide_unpack _); vm_compute; exact I); try done.
