(* ===== verification/GoIO.v ===== *)
(** * Go's errors, readers and connections

    The part of the Go language and standard library that every component
    uses: error values with wrapping ([fmt.Errorf] with [%w], [errors.Is]),
    results with the run-time panics the code can raise, [io.Reader] with
    [io.ReadFull], and a network connection. *)

From S2P Require Import Prelude.
From stdpp Require Import base tactics list numbers gmap strings.
From Stdlib Require Import ZArith Lia.
#[local] Open Scope Z_scope.

(** ** Errors *)

(** An argument of a format verb. *)
Inductive farg := DInt (z : Z) | DStr (s : gostring).

(** The sentinel errors of the program and of the library calls it makes, and
    the two forms of [fmt.Errorf]: without and with [%w]. *)
Inductive goerr :=
  | EOF | ErrUnexpectedEOF | ErrNetClosed | ErrConn
  | ErrOS | ErrNotExist | ErrFileClosed | ErrShortWrite
  | ErrSegmentFull | ErrInvalidOffset | ErrInvalidSize | ErrOffsetNotFound
  | ErrInvalidMagicByte | ErrCRCMismatch
  | Errorf (fmt : string) (args : list farg)
  | Wrapf (fmt : string) (args : list farg) (cause : goerr).

#[global] Instance farg_eq_dec : EqDecision farg.
Proof. solve_decision. Defined.
#[global] Instance goerr_eq_dec : EqDecision goerr.
Proof. solve_decision. Defined.

(** [errors.Is]: the error or one it wraps is [target]. *)
Fixpoint errors_is (e target : goerr) : bool :=
  if decide (e = target) then true
  else match e with Wrapf _ _ c => errors_is c target | _ => false end.

Lemma errors_is_wrap fmt args e t :
  errors_is e t = true -> errors_is (Wrapf fmt args e) t = true.
Proof. intros H. cbn [errors_is]. by case_decide. Qed.

Lemma errors_is_refl e : errors_is e e = true.
Proof. destruct e; cbn [errors_is]; by rewrite decide_True. Qed.

(** ** Results *)

(** The run-time panics the modelled code can raise: [make] with a negative
    capacity, a slice expression out of bounds, an array index out of bounds
    and a Prometheus counter asked to decrease. *)
Inductive panic := MakeSliceCap | SliceBounds | IndexRange | CounterDecrease.

(** A Go call that returns [(T, error)] and may panic. *)
Inductive result (A : Type) :=
  | Ok (a : A)
  | Err (e : goerr)
  | Panic (p : panic).
Arguments Ok {A} a.
Arguments Err {A} e.
Arguments Panic {A} p.

#[global] Instance panic_eq_dec : EqDecision panic.
Proof. solve_decision. Defined.
#[global] Instance result_eq_dec {A} `{EqDecision A} : EqDecision (result A).
Proof. solve_decision. Defined.

Definition is_ok {A} (r : result A) : bool :=
  match r with Ok _ => true | _ => false end.

(** ** Stateful calls

    A call on an object of state [S]: it returns a result and the new state,
    also when it fails. *)

Definition st (S A : Type) : Type := S -> result A * S.

#[global] Instance st_ret {S} : MRet (st S) := fun A a s => (Ok a, s).

#[global] Instance st_bind {S} : MBind (st S) := fun A B k m s =>
  match m s with
  | (Ok a, s') => k a s'
  | (Err e, s') => (Err e, s')
  | (Panic p, s') => (Panic p, s')
  end.

Definition sfail {S A} (e : goerr) : st S A := fun s => (Err e, s).
Definition spanic {S A} (p : panic) : st S A := fun s => (Panic p, s).

(** A computed result as a call that leaves the state alone. *)
Definition lift_result {S A} (r : result A) : st S A := fun s => (r, s).

(** [if err != nil { return ..., fmt.Errorf("...: %w", err) }] *)
Definition wrapf {S A} (fmt : string) (args : list farg) (m : st S A) : st S A :=
  fun s => match m s with
           | (Err e, s') => (Err (Wrapf fmt args e), s')
           | x => x
           end.

(** A call whose error the caller handles. *)
Definition try_st {S A} (m : st S A) : st S (A + goerr) := fun s =>
  match m s with
  | (Ok a, s') => (Ok (inl a), s')
  | (Err e, s') => (Ok (inr e), s')
  | (Panic p, s') => (Panic p, s')
  end.

(** [for _, x := range xs { ... }] with an early return on an error. *)
Fixpoint range_st {S A} (body : A -> st S unit) (xs : list A) : st S unit :=
  match xs with
  | [] => mret tt
  | x :: xs => _ ← body x; range_st body xs
  end.

(** ** Weakest preconditions

    [wp m Q s]: the result of the call [m] in state [s] and the state it
    leaves satisfy [Q]. Calls are total, so this is a statement about the one
    outcome there is. *)

Definition wp {S A} (m : st S A) (Q : result A -> S -> Prop) (s : S) : Prop :=
  Q (m s).1 (m s).2.

Definition wrap_result {A} (fmt : string) (args : list farg) (r : result A) : result A :=
  match r with Err e => Err (Wrapf fmt args e) | r => r end.

Lemma wp_ret {S A} (a : A) Q (s : S) : Q (Ok a) s -> wp (mret a) Q s.
Proof. done. Qed.

Lemma wp_bind {S A B} (m : st S A) (k : A -> st S B) Q s :
  wp m (fun r s' => match r with
                    | Ok a => wp (k a) Q s'
                    | Err e => Q (Err e) s'
                    | Panic p => Q (Panic p) s'
                    end) s ->
  wp (m ≫= k) Q s.
Proof. unfold wp, mbind, st_bind. by destruct (m s) as [[] ?]. Qed.

Lemma wp_wrapf {S A} fmt args (m : st S A) Q s :
  wp m (fun r s' => Q (wrap_result fmt args r) s') s -> wp (wrapf fmt args m) Q s.
Proof. unfold wp, wrapf. by destruct (m s) as [[] ?]. Qed.

Lemma wp_mono {S A} (m : st S A) (P Q : result A -> S -> Prop) s :
  wp m P s -> (forall r s', P r s' -> Q r s') -> wp m Q s.
Proof. unfold wp. auto. Qed.

Lemma wp_and {S A} (m : st S A) (P Q : result A -> S -> Prop) s :
  wp m P s -> wp m Q s -> wp m (fun r s' => P r s' /\ Q r s') s.
Proof. done. Qed.

Lemma wp_elim {S A} (m : st S A) Q s r s' : wp m Q s -> m s = (r, s') -> Q r s'.
Proof. unfold wp. intros H E. by rewrite E in H. Qed.

(** ** Readers *)

(** An [io.Reader]: the bytes it still delivers and the error it reports
    once they are exhausted. *)
Record reader := Rd { rd_data : list byte; rd_err : goerr }.

(** [io.ReadFull(r, buf)] for a buffer of [n] bytes: all [n], or the reader's
    error, where an end of file after at least one byte is
    [ErrUnexpectedEOF]. What was read is consumed in both cases. *)
Definition ReadFull (n : Z) : st reader (list byte) := fun r =>
  let d := rd_data r in
  if n <=? zlen d then
    (Ok (take (Z.to_nat n) d), Rd (drop (Z.to_nat n) d) (rd_err r))
  else
    (Err (match d with
          | [] => rd_err r
          | _ => if decide (rd_err r = EOF) then ErrUnexpectedEOF else rd_err r
          end), Rd [] (rd_err r)).

(** ** Connections *)

(** A [net.Conn]: what the peer sends, what was written to it, and how many
    more bytes the connection accepts before a write fails ([None]: all). *)
Record conn := Conn { c_in : reader; c_out : list byte; c_cap : option nat }.

(** [conn.Write(p)]: everything, or the part that fits and an error. *)
Definition conn_Write (p : list byte) : st conn unit := fun c =>
  match c_cap c with
  | None => (Ok tt, Conn (c_in c) (c_out c ++ p) None)
  | Some k =>
      if decide (length p <= k)%nat then
        (Ok tt, Conn (c_in c) (c_out c ++ p) (Some (k - length p)%nat))
      else (Err ErrConn, Conn (c_in c) (c_out c ++ take k p) (Some 0%nat))
  end.

(** [conn.Close()]: reads and writes fail from then on. *)
Definition conn_Close (c : conn) : conn := Conn (Rd [] ErrNetClosed) (c_out c) (Some 0%nat).

(** [io.Copy(conn, r)]: the reader's bytes, then its error unless it is the
    end of file. *)
Definition io_Copy (r : reader) : st conn unit :=
  _ ← conn_Write (rd_data r);
  if decide (rd_err r = EOF) then mret tt else sfail (rd_err r).
