(* ===== verification/Wire.v ===== *)
(** * The wire codec: [Decoder] and [Encoder]

    Models src/internal/protocol/decoder.go and encoder.go. A [Decoder] reads
    from an [io.Reader] with sticky error handling at every call site, so a
    parser is a state-and-error computation over the reader; an [Encoder] is
    the byte buffer it has accumulated.

    Two predicates carry all later proofs about parsers. [reads m a c]: from
    any stream that starts with the bytes [c], [m] returns [a] and leaves
    exactly what follows. [streaming m]: whatever [m] accepts, it accepted
    because of a prefix it consumed, and any shorter stream makes it fail
    with the stream's own end error. *)

From S2P Require Import Prelude GoIO.
From stdpp Require Import base tactics list numbers gmap strings.
From Stdlib Require Import ZArith Lia.
#[local] Open Scope Z_scope.

(** ** The decoder monad *)

Abbreviation decoder := (st reader).

Definition dfail {A} (e : goerr) : decoder A := sfail e.
Definition dpanic {A} (p : panic) : decoder A := spanic p.

(** [make([]T, 0, cap)]: panics on a negative capacity. *)
Definition make_cap (cap : Z) : decoder unit :=
  if cap <? 0 then dpanic MakeSliceCap else mret tt.

(** [for i := int32(0); i < n; i++ { ...; xs = append(xs, x) }] with the item
    read at index [i]. *)
Fixpoint read_loop {A} (item : Z -> decoder A) (n : nat) (i : Z) : decoder (list A) :=
  match n with
  | O => mret []
  | S k => x ← item i; xs ← read_loop item k (i + 1); mret (x :: xs)
  end.

Definition read_array {A} (count : Z) (item : Z -> decoder A) : decoder (list A) :=
  read_loop item (Z.to_nat count) 0.

(** ** Decoder methods *)

Definition ReadInt8 : decoder Z := bs ← ReadFull 1; mret (i8 (be_get bs)).
Definition ReadInt16 : decoder Z := bs ← ReadFull 2; mret (i16 (be_get bs)).
Definition ReadInt32 : decoder Z := bs ← ReadFull 4; mret (i32 (be_get bs)).
Definition ReadInt64 : decoder Z := bs ← ReadFull 8; mret (i64 (be_get bs)).

Definition ReadBytes (n : Z) : decoder (list byte) :=
  if n <=? 0 then mret [] else ReadFull n.

Definition ReadBool : decoder bool :=
  bs ← ReadFull 1; mret (negb (i8 (be_get bs) =? 0)).

Definition ReadString : decoder gostring :=
  length ← ReadInt16;
  if length <=? 0 then mret [] else ReadBytes length.

(** ** Encoder *)

Record Encoder := { buffer : list byte }.

Definition NewEncoder : Encoder := {| buffer := [] |}.

(** [e.buffer.Write(p)] *)
Definition emit (p : list byte) (e : Encoder) : Encoder :=
  {| buffer := buffer e ++ p |}.

Definition WriteInt32 (value : Z) (e : Encoder) : Encoder := emit (be_put 4 (u32 value)) e.
Definition WriteInt16 (value : Z) (e : Encoder) : Encoder := emit (be_put 2 (u16 value)) e.
Definition WriteInt64 (value : Z) (e : Encoder) : Encoder := emit (be_put 8 (u64 value)) e.
Definition WriteInt8 (value : Z) (e : Encoder) : Encoder := emit [Zbyte value] e.

Definition WriteString (value : gostring) (e : Encoder) : Encoder :=
  emit value (WriteInt16 (i16 (zlen value)) e).

Definition WriteNullableString (value : option gostring) (e : Encoder) : Encoder :=
  match value with
  | None => WriteInt16 (-1) e
  | Some s => WriteString s e
  end.

Definition WriteBytes (value : list byte) (e : Encoder) : Encoder := emit value e.

Definition Bytes (e : Encoder) : list byte := buffer e.

Definition FullMessage (e : Encoder) : list byte :=
  be_put 4 (u32 (zlen (buffer e))) ++ buffer e.

(** [for _, x := range xs { ... }] over an encoder. *)
Definition range_enc {A} (body : A -> Encoder -> Encoder) (xs : list A) (e : Encoder)
  : Encoder := fold_left (fun e x => body x e) xs e.

(** ** What a decoder reads *)

Definition reads {A} (m : decoder A) (a : A) (c : list byte) : Prop :=
  forall d e, m (Rd (c ++ d) e) = (Ok a, Rd d e).

(** The error of a stream that ends too early: the stream's end error, or
    [ErrUnexpectedEOF] for an end of file inside an item. *)
Definition truncated (err end_err : goerr) : Prop :=
  errors_is err end_err = true \/
  (end_err = EOF /\ errors_is err ErrUnexpectedEOF = true).

Definition fails_short {A} (m : decoder A) (c : list byte) : Prop :=
  forall p s e, c = p ++ s -> s <> [] ->
    exists err r, m (Rd p e) = (Err err, r) /\ truncated err e.

Definition streaming {A} (m : decoder A) : Prop :=
  forall d e a r, m (Rd d e) = (Ok a, r) ->
    exists c, d = c ++ rd_data r /\ rd_err r = e /\ reads m a c /\ fails_short m c.

Lemma truncated_wrap fmt args err e :
  truncated err e -> truncated (Wrapf fmt args err) e.
Proof.
  intros [H|[-> H]]; [left|right; split; [done|]]; by apply errors_is_wrap.
Qed.

Create HintDb reads.

Lemma reads_ret {A} (a : A) : reads (mret a) a [].
Proof. by intros d e. Qed.

Lemma reads_bind {A B} (m : decoder A) (k : A -> decoder B) a b c1 c2 :
  reads m a c1 -> reads (k a) b c2 -> reads (m ≫= k) b (c1 ++ c2).
Proof.
  intros Hm Hk d e. unfold mbind, st_bind. by rewrite <- app_assoc, Hm, Hk.
Qed.

(** The form used when the second part reads nothing, or the encoding is
    already split. *)
Lemma reads_bind' {A B} (m : decoder A) (k : A -> decoder B) a b c c1 c2 :
  c = c1 ++ c2 -> reads m a c1 -> reads (k a) b c2 -> reads (m ≫= k) b c.
Proof. intros ->. apply reads_bind. Qed.

Lemma reads_wrapf {A} fmt args (m : decoder A) a c :
  reads m a c -> reads (wrapf fmt args m) a c.
Proof. intros Hm d e. unfold wrapf. by rewrite Hm. Qed.

Lemma reads_make_cap n : 0 <= n -> reads (make_cap n) tt [].
Proof. intros Hn d e. unfold make_cap. by rewrite (proj2 (Z.ltb_ge n 0)) by lia. Qed.

Lemma reads_if_false {A} (b : bool) (m1 m2 : decoder A) a c :
  b = false -> reads m2 a c -> reads (if b then m1 else m2) a c.
Proof. by intros ->. Qed.

Lemma reads_loop {A} (item : Z -> decoder A) (enc : A -> list byte) xs i :
  (forall j x, x ∈ xs -> reads (item j) x (enc x)) ->
  reads (read_loop item (length xs) i) xs (concat (enc <$> xs)).
Proof.
  revert i. induction xs as [|x xs IH]; intros i Hx; simpl.
  - apply reads_ret.
  - eapply reads_bind; [apply Hx; set_solver|].
    rewrite <- (app_nil_r (concat _)).
    eapply reads_bind; [apply IH; set_solver|apply reads_ret].
Qed.

Lemma reads_array {A} n (item : Z -> decoder A) (enc : A -> list byte) xs :
  n = zlen xs ->
  (forall j x, x ∈ xs -> reads (item j) x (enc x)) ->
  reads (read_array n item) xs (concat (enc <$> xs)).
Proof.
  intros ->. unfold read_array, zlen. rewrite Nat2Z.id. apply reads_loop.
Qed.

Lemma reads_ReadFull c : reads (ReadFull (zlen c)) c c.
Proof.
  intros d e. unfold ReadFull. cbn [rd_data rd_err].
  pose proof (zlen_nonneg d).
  rewrite (proj2 (Z.leb_le _ _)) by (rewrite zlen_app; lia).
  unfold zlen. rewrite Nat2Z.id, take_app_length, drop_app_length. done.
Qed.

Lemma reads_int (w : Z) (n : nat) (m : decoder Z) v :
  0 < w -> w = 8 * Z.of_nat n ->
  m = (bs ← ReadFull (Z.of_nat n); mret (swrap w (be_get bs))) ->
  sfits w v -> reads m v (be_put n (uwrap w v)).
Proof.
  intros Hw Hn -> Hv.
  rewrite <- (app_nil_r (be_put _ _)).
  eapply (reads_bind _ _ (be_put n (uwrap w v))).
  - rewrite <- (zlen_be_put n (uwrap w v)). apply reads_ReadFull.
  - rewrite be_get_put, <- Hn. fold (uwrap w (uwrap w v)).
    rewrite uwrap_uwrap, swrap_uwrap_id by done. apply reads_ret.
Qed.

Lemma reads_ReadInt16 v : sfits 16 v -> reads ReadInt16 v (be_put 2 (u16 v)).
Proof. by apply (reads_int 16 2). Qed.
Lemma reads_ReadInt32 v : sfits 32 v -> reads ReadInt32 v (be_put 4 (u32 v)).
Proof. by apply (reads_int 32 4). Qed.
Lemma reads_ReadInt64 v : sfits 64 v -> reads ReadInt64 v (be_put 8 (u64 v)).
Proof. by apply (reads_int 64 8). Qed.
Lemma reads_ReadInt8 v : sfits 8 v -> reads ReadInt8 v [Zbyte v].
Proof.
  intros Hv. replace [Zbyte v] with (be_put 1 (uwrap 8 v)); [by apply (reads_int 8 1)|].
  rewrite be_put_1. f_equal. by apply Zbyte_mod.
Qed.

Lemma reads_ReadBytes c : reads (ReadBytes (zlen c)) c c.
Proof.
  unfold ReadBytes. destruct (Z.leb_spec (zlen c) 0).
  - rewrite (zlen_nil_inv c) by done. apply reads_ret.
  - apply reads_ReadFull.
Qed.

(** The encoding of a string. *)
Definition enc_string (s : gostring) : list byte := be_put 2 (u16 (i16 (zlen s))) ++ s.

(** A string whose length fits the [int16] length field. *)
Definition short (s : gostring) : Prop := zlen s < 2 ^ 15.

#[global] Instance short_dec s : Decision (short s).
Proof. unfold short. apply _. Defined.

Lemma reads_ReadString s : short s -> reads ReadString s (enc_string s).
Proof.
  unfold short. intros Hs. pose proof (zlen_nonneg s).
  unfold ReadString, enc_string. apply (reads_bind _ _ (zlen s)).
  - replace (i16 (zlen s)) with (zlen s) by (symmetry; apply swrap_id; fits).
    apply reads_ReadInt16. fits.
  - destruct (Z.leb_spec (zlen s) 0).
    + rewrite (zlen_nil_inv s) by done. apply reads_ret.
    + apply reads_ReadBytes.
Qed.

(** ** Streaming decoders *)

Create HintDb streaming.

Lemma streaming_ret {A} (a : A) : streaming (mret a).
Proof.
  intros d e a' r [= <- <-]. exists []. split_and!; try done.
  intros p s e' Hc Hs. by destruct p, s.
Qed.

Lemma streaming_fail {A} err : streaming (@dfail A err).
Proof. by intros d e a r [=]. Qed.

Lemma streaming_panic {A} p : streaming (@dpanic A p).
Proof. by intros d e a r [=]. Qed.

Lemma fails_short_bind {A B} (m : decoder A) (k : A -> decoder B) a c1 c2 :
  reads m a c1 -> fails_short m c1 -> fails_short (k a) c2 ->
  fails_short (m ≫= k) (c1 ++ c2).
Proof.
  intros Hr H1 H2 p s e Hc Hs. unfold mbind, st_bind.
  apply app_eq_app in Hc as (l & [[-> ->]|[-> ->]]).
  - destruct l as [|x l].
    + rewrite app_nil_r in *. rewrite <- (app_nil_r p), Hr.
      by apply (H2 [] c2 e).
    + destruct (H1 p (x :: l) e) as (err & r & -> & Ht); eauto.
  - rewrite Hr. by apply (H2 l s e).
Qed.

Lemma streaming_bind {A B} (m : decoder A) (k : A -> decoder B) :
  streaming m -> (forall a, streaming (k a)) -> streaming (m ≫= k).
Proof.
  intros Hm Hk d e b r H. unfold mbind, st_bind in H.
  destruct (m (Rd d e)) as [[a|?|?] r1] eqn:E; try done.
  destruct (Hm _ _ _ _ E) as (c1 & -> & <- & Hr1 & Hf1).
  destruct r1 as [d1 e1]. simpl in *.
  destruct (Hk a _ _ _ _ H) as (c2 & -> & He & Hr2 & Hf2).
  exists (c1 ++ c2). split_and!.
  - by rewrite app_assoc.
  - done.
  - by eapply reads_bind.
  - by eapply fails_short_bind.
Qed.

Lemma streaming_wrapf {A} fmt args (m : decoder A) :
  streaming m -> streaming (wrapf fmt args m).
Proof.
  intros Hm d e a r H. unfold wrapf in H.
  destruct (m (Rd d e)) as [[a'|?|?] r1] eqn:E; simplify_eq.
  destruct (Hm _ _ _ _ E) as (c & Hd & He & Hr & Hf).
  exists c. split_and!; [done..|by apply reads_wrapf|].
  intros p s e' Hc Hs. destruct (Hf p s e' Hc Hs) as (err & r' & Hp & Ht).
  unfold wrapf. rewrite Hp. do 2 eexists. split; [done|]. by apply truncated_wrap.
Qed.

Lemma streaming_if {A} (b : bool) (m1 m2 : decoder A) :
  streaming m1 -> streaming m2 -> streaming (if b then m1 else m2).
Proof. by destruct b. Qed.

Lemma streaming_loop {A} (item : Z -> decoder A) n i :
  (forall j, streaming (item j)) -> streaming (read_loop item n i).
Proof.
  intros Hi. revert i. induction n as [|n IH]; intros i; simpl.
  - apply streaming_ret.
  - apply streaming_bind; [done|]. intros x. apply streaming_bind; [done|].
    intros xs. apply streaming_ret.
Qed.

Lemma streaming_ReadFull n : streaming (ReadFull n).
Proof.
  intros d e a r H. unfold ReadFull in H. simpl in H.
  destruct (Z.leb_spec n (zlen d)) as [Hn|Hn]; simplify_eq.
  exists (take (Z.to_nat n) d). simpl. split_and!; [by rewrite take_drop|done|..].
  - intros d' e'. unfold ReadFull. cbn [rd_data rd_err].
    destruct (decide (n <= 0)).
    + replace (Z.to_nat n) with 0%nat by lia. rewrite take_0, drop_0.
      rewrite (proj2 (Z.leb_le _ _)); [done|]. pose proof (zlen_nonneg ([] ++ d')). lia.
    + rewrite (proj2 (Z.leb_le _ _)).
      * rewrite take_app_le, drop_app_ge by (rewrite length_take; unfold zlen in *; lia).
        rewrite take_take, length_take.
        replace (_ `min` _)%nat with (Z.to_nat n) by (unfold zlen in *; lia).
        replace (Z.to_nat n - _)%nat with 0%nat by (unfold zlen in *; lia). done.
      * pose proof (zlen_nonneg d'). rewrite zlen_app, zlen_take by lia. lia.
  - intros p s e' Hc Hs. unfold ReadFull. cbn [rd_data rd_err].
    assert (Hl : (length p + length s = length (take (Z.to_nat n) d))%nat)
      by (rewrite Hc, length_app; lia).
    rewrite length_take in Hl.
    destruct s as [|x s]; [done|]. simpl in Hl.
    rewrite (proj2 (Z.leb_gt _ _)) by (unfold zlen in *; lia).
    do 2 eexists. split; [done|]. unfold truncated.
    destruct p; [left; apply errors_is_refl|]. case_decide as HE.
    + right. split; [done|]. apply errors_is_refl.
    + left. apply errors_is_refl.
Qed.

#[export] Hint Resolve streaming_ret streaming_fail streaming_panic streaming_bind
  streaming_wrapf streaming_if streaming_loop streaming_ReadFull : streaming.

Lemma streaming_make_cap n : streaming (make_cap n).
Proof. unfold make_cap. auto with streaming. Qed.

Lemma streaming_array {A} n (item : Z -> decoder A) :
  (forall j, streaming (item j)) -> streaming (read_array n item).
Proof. unfold read_array. auto with streaming. Qed.

Lemma streaming_ReadInt8 : streaming ReadInt8.
Proof. unfold ReadInt8. auto with streaming. Qed.
Lemma streaming_ReadInt16 : streaming ReadInt16.
Proof. unfold ReadInt16. auto with streaming. Qed.
Lemma streaming_ReadInt32 : streaming ReadInt32.
Proof. unfold ReadInt32. auto with streaming. Qed.
Lemma streaming_ReadInt64 : streaming ReadInt64.
Proof. unfold ReadInt64. auto with streaming. Qed.
Lemma streaming_ReadBool : streaming ReadBool.
Proof. unfold ReadBool. auto with streaming. Qed.
Lemma streaming_ReadBytes n : streaming (ReadBytes n).
Proof. unfold ReadBytes. auto with streaming. Qed.

#[export] Hint Resolve streaming_make_cap streaming_array streaming_ReadInt8
  streaming_ReadInt16 streaming_ReadInt32 streaming_ReadInt64 streaming_ReadBool
  streaming_ReadBytes : streaming.

Lemma streaming_ReadString : streaming ReadString.
Proof. unfold ReadString. auto with streaming. Qed.
#[export] Hint Resolve streaming_ReadString : streaming.

(** Closes [streaming] goals of parsers written with the combinators. *)
Ltac streaming := repeat (intros; (apply streaming_bind || apply streaming_wrapf
  || apply streaming_if || apply streaming_array)); intros; auto with streaming.

(** ** Encoders as appended bytes *)

Create Rewrite HintDb emit.

Lemma emit_emit p q e : emit q (emit p e) = emit (p ++ q) e.
Proof. unfold emit. simpl. by rewrite app_assoc. Qed.

Lemma emit_WriteString s e : WriteString s e = emit (enc_string s) e.
Proof. unfold WriteString, WriteInt16, enc_string. apply emit_emit. Qed.

Definition enc_nullable (s : option gostring) : list byte :=
  match s with None => be_put 2 (u16 (-1)) | Some s => enc_string s end.

Lemma emit_WriteNullableString s e :
  WriteNullableString s e = emit (enc_nullable s) e.
Proof. destruct s; simpl; [apply emit_WriteString|done]. Qed.

Lemma emit_WriteInt32 v e : WriteInt32 v e = emit (be_put 4 (u32 v)) e.
Proof. reflexivity. Qed.
Lemma emit_WriteInt16 v e : WriteInt16 v e = emit (be_put 2 (u16 v)) e.
Proof. reflexivity. Qed.
Lemma emit_WriteInt64 v e : WriteInt64 v e = emit (be_put 8 (u64 v)) e.
Proof. reflexivity. Qed.
Lemma emit_WriteInt8 v e : WriteInt8 v e = emit [Zbyte v] e.
Proof. reflexivity. Qed.
Lemma emit_WriteBytes p e : WriteBytes p e = emit p e.
Proof. reflexivity. Qed.

#[export] Hint Rewrite emit_WriteString emit_WriteNullableString emit_WriteInt32
  emit_WriteInt16 emit_WriteInt64 emit_WriteInt8 emit_WriteBytes emit_emit : emit.

(** A loop whose body appends [enc x] appends the concatenation. *)
Lemma emit_range {A} (body : A -> Encoder -> Encoder) (enc : A -> list byte) xs e :
  (forall x e, body x e = emit (enc x) e) ->
  range_enc body xs e = emit (concat (enc <$> xs)) e.
Proof.
  intros Hb. unfold range_enc. revert e.
  induction xs as [|x xs IH]; intros e; simpl.
  - destruct e. unfold emit. simpl. by rewrite app_nil_r.
  - by rewrite Hb, IH, emit_emit.
Qed.

Lemma buffer_emit p e : buffer (emit p e) = buffer e ++ p.
Proof. reflexivity. Qed.

(** ** Properties of the codec *)

(** Names a request can carry are short: [ReadString] never returns a string
    that [WriteString] would encode with a truncated length. *)
Lemma ReadInt16_fits d e n r : ReadInt16 (Rd d e) = (Ok n, r) -> sfits 16 n.
Proof.
  unfold ReadInt16, mbind, st_bind, mret, st_ret. intros H.
  destruct (ReadFull 2 (Rd d e)) as [[bs|?|?] ?]; simplify_eq.
  apply swrap_fits. lia.
Qed.

Lemma ReadFull_len n d e bs r :
  0 <= n -> ReadFull n (Rd d e) = (Ok bs, r) -> zlen bs = n.
Proof.
  unfold ReadFull. cbn [rd_data rd_err]. intros Hn H.
  destruct (Z.leb_spec n (zlen d)); simplify_eq. by apply zlen_take.
Qed.

Lemma ReadString_short d e s r : ReadString (Rd d e) = (Ok s, r) -> short s.
Proof.
  unfold ReadString, mbind, st_bind, mret, st_ret. intros H.
  destruct (ReadInt16 (Rd d e)) as [[n|?|?] [d1 e1]] eqn:E; try done.
  apply ReadInt16_fits in E. unfold ReadBytes, mret, st_ret in H.
  destruct (Z.leb_spec n 0). { injection H as <- <-. by vm_compute. }
  apply ReadFull_len in H; [|lia]. unfold short. fits.
Qed.
