(* ===== verification/Requests.v ===== *)
(** * Request messages and their parsers

    Models the request half of src/internal/protocol/messages.go: the message
    structs, [ParseRequestHeader] and the twelve [Parse*Request] methods of
    the decoder, with their error contexts, their range checks and the slice
    allocations that panic on a negative count. *)

From S2P Require Import Prelude GoIO Wire.
From stdpp Require Import base tactics list numbers gmap strings.
From Stdlib Require Import ZArith Lia.
#[local] Open Scope Z_scope.

(** ** API keys *)

Definition ApiKeyProduce : Z := 0.
Definition ApiKeyFetch : Z := 1.
Definition ApiKeyListOffsets : Z := 2.
Definition ApiKeyMetadata : Z := 3.
Definition ApiKeyOffsetCommit : Z := 8.
Definition ApiKeyOffsetFetch : Z := 9.
Definition ApiKeyFindCoordinator : Z := 10.
Definition ApiKeyJoinGroup : Z := 11.
Definition ApiKeyHeartbeat : Z := 12.
Definition ApiKeyLeaveGroup : Z := 13.
Definition ApiKeySyncGroup : Z := 14.
Definition ApiKeyApiVersions : Z := 18.

Definition ConsumerOffsetsTopic : gostring := gos "__consumer_offsets".
Definition OffsetUnknown : Z := -1.
Definition AcksNone : Z := 0.
Definition AcksLeader : Z := 1.
Definition AcksAll : Z := -1.
Definition TimestampEarliest : Z := -2.
Definition TimestampLatest : Z := -1.

(** ** Request header *)

Record RequestHeader := {
  rh_Size : Z;
  rh_ApiKey : Z;
  rh_ApiVersion : Z;
  rh_CorrelationID : Z;
  rh_ClientID : gostring }.

Definition ParseRequestHeader : decoder RequestHeader :=
  size ← ReadInt32;
  apiKey ← ReadInt16;
  apiVersion ← ReadInt16;
  correlationID ← ReadInt32;
  clientID ← ReadString;
  mret {| rh_Size := size; rh_ApiKey := apiKey; rh_ApiVersion := apiVersion;
          rh_CorrelationID := correlationID; rh_ClientID := clientID |}.

(** ** Metadata (ApiKey 3) *)

Record MetadataRequest := {
  mr_Header : RequestHeader;
  mr_Topics : list gostring }.

Definition ParseMetadataRequest (header : RequestHeader) : decoder MetadataRequest :=
  count ← wrapf "metadata request: failed to read topics array length: %w" [] ReadInt32;
  _ ← make_cap count;
  topics ← read_array count (fun i =>
    wrapf "metadata request: failed to read topic name at index %d: %w" [DInt i] ReadString);
  _ ← (if 4 <=? rh_ApiVersion header then
         wrapf "metadata request: failed to read allow_auto_topic_creation: %w" [] ReadBool
       else mret false);
  mret {| mr_Header := header; mr_Topics := topics |}.

(** ** Produce (ApiKey 0) *)

Record ProducePartitionData := {
  ppd_RecordBatch : list byte;
  ppd_Partition : Z }.

Record ProduceTopicData := {
  ptd_TopicName : gostring;
  ptd_Partitions : list ProducePartitionData }.

Record ProduceRequest := {
  pr_Topics : list ProduceTopicData;
  pr_Header : RequestHeader;
  pr_TimeoutMs : Z;
  pr_Acks : Z }.

(** v3+: the transactional id, read and discarded. *)
Definition skip_transactional_id (header : RequestHeader) : decoder unit :=
  if 3 <=? rh_ApiVersion header then
    txnLen ← wrapf "produce request: read transactional_id length: %w" [] ReadInt16;
    if 0 <? txnLen then
      _ ← wrapf "produce request: read transactional_id: %w" [] (ReadBytes txnLen);
      mret tt
    else mret tt
  else mret tt.

Definition parse_produce_partition (i j : Z) : decoder ProducePartitionData :=
  partition ← wrapf "produce request: topic[%d] partition[%d] index: %w" [DInt i; DInt j] ReadInt32;
  batchSize ← wrapf "produce request: topic[%d] partition[%d] batch size: %w" [DInt i; DInt j] ReadInt32;
  if batchSize <? 0 then
    dfail (Errorf "produce request: topic[%d] partition[%d] negative batch size %d"
             [DInt i; DInt j; DInt batchSize])
  else
    batch ← wrapf "produce request: topic[%d] partition[%d] batch: %w" [DInt i; DInt j]
              (ReadBytes batchSize);
    mret {| ppd_Partition := partition; ppd_RecordBatch := batch |}.

Definition parse_produce_topic (i : Z) : decoder ProduceTopicData :=
  topicName ← wrapf "produce request: topic[%d] name: %w" [DInt i] ReadString;
  partCount ← wrapf "produce request: topic[%d] partition count: %w" [DInt i] ReadInt32;
  if (partCount <? 0) || (1024 <? partCount) then
    dfail (Errorf "produce request: topic[%d] invalid partition count %d" [DInt i; DInt partCount])
  else
    _ ← make_cap partCount;
    partitions ← read_array partCount (parse_produce_partition i);
    mret {| ptd_TopicName := topicName; ptd_Partitions := partitions |}.

Definition ParseProduceRequest (header : RequestHeader) : decoder ProduceRequest :=
  _ ← skip_transactional_id header;
  acks ← wrapf "produce request: read acks: %w" [] ReadInt16;
  timeoutMs ← wrapf "produce request: read timeout_ms: %w" [] ReadInt32;
  topicCount ← wrapf "produce request: read topic count: %w" [] ReadInt32;
  if (topicCount <? 0) || (1024 <? topicCount) then
    dfail (Errorf "produce request: invalid topic count %d" [DInt topicCount])
  else
    _ ← make_cap topicCount;
    topics ← read_array topicCount parse_produce_topic;
    mret {| pr_Header := header; pr_Acks := acks; pr_TimeoutMs := timeoutMs;
            pr_Topics := topics |}.

(** ** Fetch (ApiKey 1) *)

Record FetchPartitionData := {
  fpd_FetchOffset : Z;
  fpd_Partition : Z;
  fpd_PartitionMaxBytes : Z }.

Record FetchTopicData := {
  ftd_TopicName : gostring;
  ftd_Partitions : list FetchPartitionData }.

Record FetchRequest := {
  fr_Topics : list FetchTopicData;
  fr_Header : RequestHeader;
  fr_ReplicaID : Z;
  fr_MaxWaitMs : Z;
  fr_MinBytes : Z;
  fr_MaxBytes : Z;
  fr_IsolationLevel : Z }.

Definition parse_fetch_partition (i j : Z) : decoder FetchPartitionData :=
  partition ← wrapf "fetch request: topic[%d] partition[%d] index: %w" [DInt i; DInt j] ReadInt32;
  fetchOffset ← wrapf "fetch request: topic[%d] partition[%d] fetch_offset: %w" [DInt i; DInt j] ReadInt64;
  partMaxBytes ← wrapf "fetch request: topic[%d] partition[%d] partition_max_bytes: %w"
                   [DInt i; DInt j] ReadInt32;
  mret {| fpd_Partition := partition; fpd_FetchOffset := fetchOffset;
          fpd_PartitionMaxBytes := partMaxBytes |}.

Definition parse_fetch_topic (i : Z) : decoder FetchTopicData :=
  topicName ← wrapf "fetch request: topic[%d] name: %w" [DInt i] ReadString;
  partCount ← wrapf "fetch request: topic[%d] partition count: %w" [DInt i] ReadInt32;
  _ ← make_cap partCount;
  partitions ← read_array partCount (parse_fetch_partition i);
  mret {| ftd_TopicName := topicName; ftd_Partitions := partitions |}.

Definition ParseFetchRequest (header : RequestHeader) : decoder FetchRequest :=
  replicaID ← wrapf "fetch request: read replica_id: %w" [] ReadInt32;
  maxWaitMs ← wrapf "fetch request: read max_wait_ms: %w" [] ReadInt32;
  minBytes ← wrapf "fetch request: read min_bytes: %w" [] ReadInt32;
  maxBytes ← wrapf "fetch request: read max_bytes: %w" [] ReadInt32;
  isolationLevel ← wrapf "fetch request: read isolation_level: %w" [] ReadInt8;
  topicCount ← wrapf "fetch request: read topic count: %w" [] ReadInt32;
  _ ← make_cap topicCount;
  topics ← read_array topicCount parse_fetch_topic;
  mret {| fr_Header := header; fr_ReplicaID := replicaID; fr_MaxWaitMs := maxWaitMs;
          fr_MinBytes := minBytes; fr_MaxBytes := maxBytes;
          fr_IsolationLevel := isolationLevel; fr_Topics := topics |}.

(** ** OffsetCommit (ApiKey 8) *)

Record OffsetCommitPartition := {
  ocp_CommittedOffset : Z;
  ocp_CommittedMetadata : gostring;
  ocp_Partition : Z }.

Record OffsetCommitTopic := {
  oct_TopicName : gostring;
  oct_Partitions : list OffsetCommitPartition }.

Record OffsetCommitRequest := {
  oc_Topics : list OffsetCommitTopic;
  oc_GroupID : gostring;
  oc_MemberID : gostring;
  oc_RetentionTimeMs : Z;
  oc_GenerationID : Z }.

Definition parse_commit_partition (i j : Z) : decoder OffsetCommitPartition :=
  partition ← wrapf "offset commit: topic[%d] partition[%d] index: %w" [DInt i; DInt j] ReadInt32;
  committedOffset ← wrapf "offset commit: topic[%d] partition[%d] offset: %w" [DInt i; DInt j] ReadInt64;
  committedMetadata ← wrapf "offset commit: topic[%d] partition[%d] metadata: %w"
                        [DInt i; DInt j] ReadString;
  mret {| ocp_Partition := partition; ocp_CommittedOffset := committedOffset;
          ocp_CommittedMetadata := committedMetadata |}.

Definition parse_commit_topic (i : Z) : decoder OffsetCommitTopic :=
  topicName ← wrapf "offset commit: topic[%d] name: %w" [DInt i] ReadString;
  partCount ← wrapf "offset commit: topic[%d] partition count: %w" [DInt i] ReadInt32;
  _ ← make_cap partCount;
  partitions ← read_array partCount (parse_commit_partition i);
  mret {| oct_TopicName := topicName; oct_Partitions := partitions |}.

Definition ParseOffsetCommitRequest (header : RequestHeader) : decoder OffsetCommitRequest :=
  groupID ← wrapf "offset commit: read group_id: %w" [] ReadString;
  generationID ← wrapf "offset commit: read generation_id: %w" [] ReadInt32;
  memberID ← wrapf "offset commit: read member_id: %w" [] ReadString;
  retentionTimeMs ← wrapf "offset commit: read retention_time_ms: %w" [] ReadInt64;
  topicCount ← wrapf "offset commit: read topic count: %w" [] ReadInt32;
  _ ← make_cap topicCount;
  topics ← read_array topicCount parse_commit_topic;
  mret {| oc_GroupID := groupID; oc_GenerationID := generationID; oc_MemberID := memberID;
          oc_RetentionTimeMs := retentionTimeMs; oc_Topics := topics |}.

(** ** OffsetFetch (ApiKey 9) *)

Record OffsetFetchPartition := { ofp_Partition : Z }.

Record OffsetFetchTopic := {
  oft_TopicName : gostring;
  oft_Partitions : list OffsetFetchPartition }.

Record OffsetFetchRequest := {
  of_Topics : list OffsetFetchTopic;
  of_GroupID : gostring }.

Definition parse_offset_fetch_partition (i j : Z) : decoder OffsetFetchPartition :=
  partition ← wrapf "offset fetch: topic[%d] partition[%d] index: %w" [DInt i; DInt j] ReadInt32;
  mret {| ofp_Partition := partition |}.

Definition parse_offset_fetch_topic (i : Z) : decoder OffsetFetchTopic :=
  topicName ← wrapf "offset fetch: topic[%d] name: %w" [DInt i] ReadString;
  partCount ← wrapf "offset fetch: topic[%d] partition count: %w" [DInt i] ReadInt32;
  _ ← make_cap partCount;
  partitions ← read_array partCount (parse_offset_fetch_partition i);
  mret {| oft_TopicName := topicName; oft_Partitions := partitions |}.

Definition ParseOffsetFetchRequest (header : RequestHeader) : decoder OffsetFetchRequest :=
  groupID ← wrapf "offset fetch: read group_id: %w" [] ReadString;
  topicCount ← wrapf "offset fetch: read topic count: %w" [] ReadInt32;
  _ ← make_cap topicCount;
  topics ← read_array topicCount parse_offset_fetch_topic;
  mret {| of_GroupID := groupID; of_Topics := topics |}.

(** ** ListOffsets (ApiKey 2) *)

Record ListOffsetsPartitionRequest := {
  lop_Partition : Z;
  lop_Timestamp : Z }.

Record ListOffsetsTopicRequest := {
  lot_TopicName : gostring;
  lot_Partitions : list ListOffsetsPartitionRequest }.

Record ListOffsetsRequest := {
  lo_Header : RequestHeader;
  lo_ReplicaID : Z;
  lo_Topics : list ListOffsetsTopicRequest }.

Definition parse_list_offsets_partition (i j : Z) : decoder ListOffsetsPartitionRequest :=
  partition ← wrapf "list offsets request: topic[%d] partition[%d] index: %w" [DInt i; DInt j] ReadInt32;
  timestamp ← wrapf "list offsets request: topic[%d] partition[%d] timestamp: %w" [DInt i; DInt j] ReadInt64;
  mret {| lop_Partition := partition; lop_Timestamp := timestamp |}.

Definition parse_list_offsets_topic (i : Z) : decoder ListOffsetsTopicRequest :=
  topicName ← wrapf "list offsets request: topic[%d] name: %w" [DInt i] ReadString;
  partCount ← wrapf "list offsets request: topic[%d] partition count: %w" [DInt i] ReadInt32;
  if (partCount <? 0) || (1024 <? partCount) then
    dfail (Errorf "list offsets request: topic[%d] invalid partition count %d"
             [DInt i; DInt partCount])
  else
    _ ← make_cap partCount;
    partitions ← read_array partCount (parse_list_offsets_partition i);
    mret {| lot_TopicName := topicName; lot_Partitions := partitions |}.

Definition ParseListOffsetsRequest (header : RequestHeader) : decoder ListOffsetsRequest :=
  replicaID ← wrapf "list offsets request: read replica_id: %w" [] ReadInt32;
  topicCount ← wrapf "list offsets request: read topic count: %w" [] ReadInt32;
  if (topicCount <? 0) || (1024 <? topicCount) then
    dfail (Errorf "list offsets request: invalid topic count %d" [DInt topicCount])
  else
    _ ← make_cap topicCount;
    topics ← read_array topicCount parse_list_offsets_topic;
    mret {| lo_Header := header; lo_ReplicaID := replicaID; lo_Topics := topics |}.

(** ** Group coordination (ApiKeys 10 to 14) *)

Record FindCoordinatorRequest := { fc_Key : gostring }.

Definition ParseFindCoordinatorRequest (header : RequestHeader)
  : decoder FindCoordinatorRequest :=
  key ← wrapf "find coordinator: read key: %w" [] ReadString;
  mret {| fc_Key := key |}.

Record JoinGroupProtocol := {
  jgp_Name : gostring;
  jgp_Metadata : list byte }.

Record JoinGroupRequest := {
  jg_Protocols : list JoinGroupProtocol;
  jg_GroupID : gostring;
  jg_MemberID : gostring;
  jg_ProtocolType : gostring;
  jg_SessionTimeoutMs : Z;
  jg_RebalanceTimeoutMs : Z }.

Definition parse_join_protocol (i : Z) : decoder JoinGroupProtocol :=
  name ← wrapf "join group: protocol[%d] name: %w" [DInt i] ReadString;
  metaLen ← wrapf "join group: protocol[%d] metadata length: %w" [DInt i] ReadInt32;
  metadata ← (if 0 <? metaLen then
                wrapf "join group: protocol[%d] metadata: %w" [DInt i] (ReadBytes metaLen)
              else mret []);
  mret {| jgp_Name := name; jgp_Metadata := metadata |}.

Definition ParseJoinGroupRequest (header : RequestHeader) : decoder JoinGroupRequest :=
  groupID ← wrapf "join group: read group_id: %w" [] ReadString;
  sessionTimeoutMs ← wrapf "join group: read session_timeout_ms: %w" [] ReadInt32;
  rebalanceTimeoutMs ← wrapf "join group: read rebalance_timeout_ms: %w" [] ReadInt32;
  memberID ← wrapf "join group: read member_id: %w" [] ReadString;
  protocolType ← wrapf "join group: read protocol_type: %w" [] ReadString;
  protoCount ← wrapf "join group: read protocol count: %w" [] ReadInt32;
  _ ← make_cap protoCount;
  protocols ← read_array protoCount parse_join_protocol;
  mret {| jg_GroupID := groupID; jg_SessionTimeoutMs := sessionTimeoutMs;
          jg_RebalanceTimeoutMs := rebalanceTimeoutMs; jg_MemberID := memberID;
          jg_ProtocolType := protocolType; jg_Protocols := protocols |}.

Record HeartbeatRequest := {
  hb_GroupID : gostring;
  hb_MemberID : gostring;
  hb_GenerationID : Z }.

Definition ParseHeartbeatRequest (header : RequestHeader) : decoder HeartbeatRequest :=
  groupID ← wrapf "heartbeat: read group_id: %w" [] ReadString;
  generationID ← wrapf "heartbeat: read generation_id: %w" [] ReadInt32;
  memberID ← wrapf "heartbeat: read member_id: %w" [] ReadString;
  mret {| hb_GroupID := groupID; hb_GenerationID := generationID; hb_MemberID := memberID |}.

Record LeaveGroupRequest := {
  lg_GroupID : gostring;
  lg_MemberID : gostring }.

Definition ParseLeaveGroupRequest (header : RequestHeader) : decoder LeaveGroupRequest :=
  groupID ← wrapf "leave group: read group_id: %w" [] ReadString;
  memberID ← wrapf "leave group: read member_id: %w" [] ReadString;
  mret {| lg_GroupID := groupID; lg_MemberID := memberID |}.

Record SyncGroupAssignment := {
  sga_MemberID : gostring;
  sga_Assignment : list byte }.

Record SyncGroupRequest := {
  sg_Assignments : list SyncGroupAssignment;
  sg_GroupID : gostring;
  sg_MemberID : gostring;
  sg_GenerationID : Z }.

Definition parse_sync_assignment (i : Z) : decoder SyncGroupAssignment :=
  mid ← wrapf "sync group: assignment[%d] member_id: %w" [DInt i] ReadString;
  assignLen ← wrapf "sync group: assignment[%d] length: %w" [DInt i] ReadInt32;
  assign ← (if 0 <? assignLen then
              wrapf "sync group: assignment[%d] data: %w" [DInt i] (ReadBytes assignLen)
            else mret []);
  mret {| sga_MemberID := mid; sga_Assignment := assign |}.

Definition ParseSyncGroupRequest (header : RequestHeader) : decoder SyncGroupRequest :=
  groupID ← wrapf "sync group: read group_id: %w" [] ReadString;
  generationID ← wrapf "sync group: read generation_id: %w" [] ReadInt32;
  memberID ← wrapf "sync group: read member_id: %w" [] ReadString;
  assignCount ← wrapf "sync group: read assignment count: %w" [] ReadInt32;
  _ ← make_cap assignCount;
  assignments ← read_array assignCount parse_sync_assignment;
  mret {| sg_GroupID := groupID; sg_GenerationID := generationID; sg_MemberID := memberID;
          sg_Assignments := assignments |}.
