(* ===== verification/RequestSpec.v ===== *)
(** * The request wire format and the parsers that implement it

    An independent statement of the byte layouts that messages.go documents
    above each request struct, as serialisers, and the theorems that tie the
    parsers of [Requests] to them: each parser inverts its layout and stops
    exactly at its end, fails on every truncation with the stream's end
    error, and panics or not depending on how it treats element counts. *)

From S2P Require Import Prelude GoIO Wire Requests.
From stdpp Require Import base tactics list numbers gmap strings.
From Stdlib Require Import ZArith Lia.
#[local] Open Scope Z_scope.

(** ** Layout combinators *)

(** An array: [int32] count, then the elements. *)
Definition enc_array {A} (enc : A -> list byte) (xs : list A) : list byte :=
  be_put 4 (u32 (zlen xs)) ++ concat (enc <$> xs).

(** Bytes with an [int32] length. *)
Definition enc_bytes (b : list byte) : list byte := be_put 4 (u32 (zlen b)) ++ b.

Definition enc_i8 (v : Z) : list byte := [Zbyte v].
#[global] Arguments enc_i8 : simpl never.
Definition enc_i16 (v : Z) : list byte := be_put 2 (u16 v).
Definition enc_i32 (v : Z) : list byte := be_put 4 (u32 v).
Definition enc_i64 (v : Z) : list byte := be_put 8 (u64 v).

(** Lengths that fit an [int32] count. *)
Definition counted {A} (xs : list A) : Prop := zlen xs < 2 ^ 31.

(** ** Layouts, struct by struct *)

Definition enc_header (h : RequestHeader) : list byte :=
  enc_i32 (rh_Size h) ++ enc_i16 (rh_ApiKey h) ++ enc_i16 (rh_ApiVersion h) ++
  enc_i32 (rh_CorrelationID h) ++ enc_string (rh_ClientID h).

Definition wf_header (h : RequestHeader) : Prop :=
  sfits 32 (rh_Size h) /\ sfits 16 (rh_ApiKey h) /\ sfits 16 (rh_ApiVersion h) /\
  sfits 32 (rh_CorrelationID h) /\ short (rh_ClientID h).

(** v4+ carries [allow_auto_topic_creation]. *)
Definition enc_metadata (auto : bool) (q : MetadataRequest) : list byte :=
  enc_array enc_string (mr_Topics q) ++
  if 4 <=? rh_ApiVersion (mr_Header q) then enc_i8 (if auto then 1 else 0) else [].

Definition wf_metadata (q : MetadataRequest) : Prop :=
  counted (mr_Topics q) /\ Forall short (mr_Topics q).

Definition enc_produce_partition (p : ProducePartitionData) : list byte :=
  enc_i32 (ppd_Partition p) ++ enc_bytes (ppd_RecordBatch p).
Definition enc_produce_topic (t : ProduceTopicData) : list byte :=
  enc_string (ptd_TopicName t) ++ enc_array enc_produce_partition (ptd_Partitions t).
Definition enc_produce (txn : option gostring) (q : ProduceRequest) : list byte :=
  (if 3 <=? rh_ApiVersion (pr_Header q) then enc_nullable txn else []) ++
  enc_i16 (pr_Acks q) ++ enc_i32 (pr_TimeoutMs q) ++
  enc_array enc_produce_topic (pr_Topics q).

Definition wf_produce_partition (p : ProducePartitionData) : Prop :=
  sfits 32 (ppd_Partition p) /\ counted (ppd_RecordBatch p).
Definition wf_produce_topic (t : ProduceTopicData) : Prop :=
  short (ptd_TopicName t) /\ zlen (ptd_Partitions t) <= 1024 /\
  Forall wf_produce_partition (ptd_Partitions t).
Definition wf_produce (q : ProduceRequest) : Prop :=
  sfits 16 (pr_Acks q) /\ sfits 32 (pr_TimeoutMs q) /\
  zlen (pr_Topics q) <= 1024 /\ Forall wf_produce_topic (pr_Topics q).

Definition enc_fetch_partition (p : FetchPartitionData) : list byte :=
  enc_i32 (fpd_Partition p) ++ enc_i64 (fpd_FetchOffset p) ++ enc_i32 (fpd_PartitionMaxBytes p).
Definition enc_fetch_topic (t : FetchTopicData) : list byte :=
  enc_string (ftd_TopicName t) ++ enc_array enc_fetch_partition (ftd_Partitions t).
Definition enc_fetch (q : FetchRequest) : list byte :=
  enc_i32 (fr_ReplicaID q) ++ enc_i32 (fr_MaxWaitMs q) ++ enc_i32 (fr_MinBytes q) ++
  enc_i32 (fr_MaxBytes q) ++ enc_i8 (fr_IsolationLevel q) ++
  enc_array enc_fetch_topic (fr_Topics q).

Definition wf_fetch_partition (p : FetchPartitionData) : Prop :=
  sfits 32 (fpd_Partition p) /\ sfits 64 (fpd_FetchOffset p) /\
  sfits 32 (fpd_PartitionMaxBytes p).
Definition wf_fetch_topic (t : FetchTopicData) : Prop :=
  short (ftd_TopicName t) /\ counted (ftd_Partitions t) /\
  Forall wf_fetch_partition (ftd_Partitions t).
Definition wf_fetch (q : FetchRequest) : Prop :=
  sfits 32 (fr_ReplicaID q) /\ sfits 32 (fr_MaxWaitMs q) /\ sfits 32 (fr_MinBytes q) /\
  sfits 32 (fr_MaxBytes q) /\ sfits 8 (fr_IsolationLevel q) /\
  counted (fr_Topics q) /\ Forall wf_fetch_topic (fr_Topics q).

Definition enc_commit_partition (p : OffsetCommitPartition) : list byte :=
  enc_i32 (ocp_Partition p) ++ enc_i64 (ocp_CommittedOffset p) ++
  enc_string (ocp_CommittedMetadata p).
Definition enc_commit_topic (t : OffsetCommitTopic) : list byte :=
  enc_string (oct_TopicName t) ++ enc_array enc_commit_partition (oct_Partitions t).
Definition enc_commit (q : OffsetCommitRequest) : list byte :=
  enc_string (oc_GroupID q) ++ enc_i32 (oc_GenerationID q) ++ enc_string (oc_MemberID q) ++
  enc_i64 (oc_RetentionTimeMs q) ++ enc_array enc_commit_topic (oc_Topics q).

Definition wf_commit_partition (p : OffsetCommitPartition) : Prop :=
  sfits 32 (ocp_Partition p) /\ sfits 64 (ocp_CommittedOffset p) /\
  short (ocp_CommittedMetadata p).
Definition wf_commit_topic (t : OffsetCommitTopic) : Prop :=
  short (oct_TopicName t) /\ counted (oct_Partitions t) /\
  Forall wf_commit_partition (oct_Partitions t).
Definition wf_commit (q : OffsetCommitRequest) : Prop :=
  short (oc_GroupID q) /\ sfits 32 (oc_GenerationID q) /\ short (oc_MemberID q) /\
  sfits 64 (oc_RetentionTimeMs q) /\ counted (oc_Topics q) /\
  Forall wf_commit_topic (oc_Topics q).

Definition enc_offset_fetch_partition (p : OffsetFetchPartition) : list byte :=
  enc_i32 (ofp_Partition p).
Definition enc_offset_fetch_topic (t : OffsetFetchTopic) : list byte :=
  enc_string (oft_TopicName t) ++ enc_array enc_offset_fetch_partition (oft_Partitions t).
Definition enc_offset_fetch (q : OffsetFetchRequest) : list byte :=
  enc_string (of_GroupID q) ++ enc_array enc_offset_fetch_topic (of_Topics q).

Definition wf_offset_fetch_topic (t : OffsetFetchTopic) : Prop :=
  short (oft_TopicName t) /\ counted (oft_Partitions t) /\
  Forall (fun p => sfits 32 (ofp_Partition p)) (oft_Partitions t).
Definition wf_offset_fetch (q : OffsetFetchRequest) : Prop :=
  short (of_GroupID q) /\ counted (of_Topics q) /\
  Forall wf_offset_fetch_topic (of_Topics q).

Definition enc_list_offsets_partition (p : ListOffsetsPartitionRequest) : list byte :=
  enc_i32 (lop_Partition p) ++ enc_i64 (lop_Timestamp p).
Definition enc_list_offsets_topic (t : ListOffsetsTopicRequest) : list byte :=
  enc_string (lot_TopicName t) ++ enc_array enc_list_offsets_partition (lot_Partitions t).
Definition enc_list_offsets (q : ListOffsetsRequest) : list byte :=
  enc_i32 (lo_ReplicaID q) ++ enc_array enc_list_offsets_topic (lo_Topics q).

Definition wf_list_offsets_topic (t : ListOffsetsTopicRequest) : Prop :=
  short (lot_TopicName t) /\ zlen (lot_Partitions t) <= 1024 /\
  Forall (fun p => sfits 32 (lop_Partition p) /\ sfits 64 (lop_Timestamp p))
    (lot_Partitions t).
Definition wf_list_offsets (q : ListOffsetsRequest) : Prop :=
  sfits 32 (lo_ReplicaID q) /\ zlen (lo_Topics q) <= 1024 /\
  Forall wf_list_offsets_topic (lo_Topics q).

Definition enc_join_protocol (p : JoinGroupProtocol) : list byte :=
  enc_string (jgp_Name p) ++ enc_bytes (jgp_Metadata p).
Definition enc_join (q : JoinGroupRequest) : list byte :=
  enc_string (jg_GroupID q) ++ enc_i32 (jg_SessionTimeoutMs q) ++
  enc_i32 (jg_RebalanceTimeoutMs q) ++ enc_string (jg_MemberID q) ++
  enc_string (jg_ProtocolType q) ++ enc_array enc_join_protocol (jg_Protocols q).

Definition wf_join (q : JoinGroupRequest) : Prop :=
  short (jg_GroupID q) /\ sfits 32 (jg_SessionTimeoutMs q) /\
  sfits 32 (jg_RebalanceTimeoutMs q) /\ short (jg_MemberID q) /\
  short (jg_ProtocolType q) /\ counted (jg_Protocols q) /\
  Forall (fun p => short (jgp_Name p) /\ counted (jgp_Metadata p)) (jg_Protocols q).

Definition enc_heartbeat (q : HeartbeatRequest) : list byte :=
  enc_string (hb_GroupID q) ++ enc_i32 (hb_GenerationID q) ++ enc_string (hb_MemberID q).

Definition enc_leave (q : LeaveGroupRequest) : list byte :=
  enc_string (lg_GroupID q) ++ enc_string (lg_MemberID q).

Definition enc_sync_assignment (a : SyncGroupAssignment) : list byte :=
  enc_string (sga_MemberID a) ++ enc_bytes (sga_Assignment a).
Definition enc_sync (q : SyncGroupRequest) : list byte :=
  enc_string (sg_GroupID q) ++ enc_i32 (sg_GenerationID q) ++ enc_string (sg_MemberID q) ++
  enc_array enc_sync_assignment (sg_Assignments q).

Definition wf_sync (q : SyncGroupRequest) : Prop :=
  short (sg_GroupID q) /\ sfits 32 (sg_GenerationID q) /\ short (sg_MemberID q) /\
  counted (sg_Assignments q) /\
  Forall (fun a => short (sga_MemberID a) /\ counted (sga_Assignment a)) (sg_Assignments q).

(** ** All request bodies *)

Inductive Request :=
  | RProduce (q : ProduceRequest)
  | RFetch (q : FetchRequest)
  | RListOffsets (q : ListOffsetsRequest)
  | RMetadata (q : MetadataRequest)
  | ROffsetCommit (q : OffsetCommitRequest)
  | ROffsetFetch (q : OffsetFetchRequest)
  | RFindCoordinator (q : FindCoordinatorRequest)
  | RJoinGroup (q : JoinGroupRequest)
  | RHeartbeat (q : HeartbeatRequest)
  | RLeaveGroup (q : LeaveGroupRequest)
  | RSyncGroup (q : SyncGroupRequest)
  | RApiVersions.

(** The body parser each API key selects (the choice made by
    [Handler.dispatch]); ApiVersions has no body. *)
Definition parse_body (h : RequestHeader) : option (decoder Request) :=
  let k := rh_ApiKey h in
  if k =? ApiKeyProduce then Some (q ← ParseProduceRequest h; mret (RProduce q))
  else if k =? ApiKeyFetch then Some (q ← ParseFetchRequest h; mret (RFetch q))
  else if k =? ApiKeyListOffsets then Some (q ← ParseListOffsetsRequest h; mret (RListOffsets q))
  else if k =? ApiKeyMetadata then Some (q ← ParseMetadataRequest h; mret (RMetadata q))
  else if k =? ApiKeyOffsetCommit then Some (q ← ParseOffsetCommitRequest h; mret (ROffsetCommit q))
  else if k =? ApiKeyOffsetFetch then Some (q ← ParseOffsetFetchRequest h; mret (ROffsetFetch q))
  else if k =? ApiKeyFindCoordinator then
    Some (q ← ParseFindCoordinatorRequest h; mret (RFindCoordinator q))
  else if k =? ApiKeyJoinGroup then Some (q ← ParseJoinGroupRequest h; mret (RJoinGroup q))
  else if k =? ApiKeyHeartbeat then Some (q ← ParseHeartbeatRequest h; mret (RHeartbeat q))
  else if k =? ApiKeyLeaveGroup then Some (q ← ParseLeaveGroupRequest h; mret (RLeaveGroup q))
  else if k =? ApiKeySyncGroup then Some (q ← ParseSyncGroupRequest h; mret (RSyncGroup q))
  else if k =? ApiKeyApiVersions then Some (mret RApiVersions)
  else None.

Definition api_key (q : Request) : Z :=
  match q with
  | RProduce _ => ApiKeyProduce | RFetch _ => ApiKeyFetch
  | RListOffsets _ => ApiKeyListOffsets | RMetadata _ => ApiKeyMetadata
  | ROffsetCommit _ => ApiKeyOffsetCommit | ROffsetFetch _ => ApiKeyOffsetFetch
  | RFindCoordinator _ => ApiKeyFindCoordinator | RJoinGroup _ => ApiKeyJoinGroup
  | RHeartbeat _ => ApiKeyHeartbeat | RLeaveGroup _ => ApiKeyLeaveGroup
  | RSyncGroup _ => ApiKeySyncGroup | RApiVersions => ApiKeyApiVersions
  end.

(** A request body that belongs to header [h] and fits its layout. *)
Definition wf_request (h : RequestHeader) (q : Request) : Prop :=
  rh_ApiKey h = api_key q /\
  match q with
  | RProduce q => pr_Header q = h /\ wf_produce q
  | RFetch q => fr_Header q = h /\ wf_fetch q
  | RListOffsets q => lo_Header q = h /\ wf_list_offsets q
  | RMetadata q => mr_Header q = h /\ wf_metadata q
  | ROffsetCommit q => wf_commit q
  | ROffsetFetch q => wf_offset_fetch q
  | RFindCoordinator q => short (fc_Key q)
  | RJoinGroup q => wf_join q
  | RHeartbeat q => short (hb_GroupID q) /\ sfits 32 (hb_GenerationID q) /\ short (hb_MemberID q)
  | RLeaveGroup q => short (lg_GroupID q) /\ short (lg_MemberID q)
  | RSyncGroup q => wf_sync q
  | RApiVersions => True
  end.

(** The bytes of a body; [txn] and [auto] are the two fields the broker reads
    and drops. *)
Definition enc_request (txn : option gostring) (auto : bool) (q : Request) : list byte :=
  match q with
  | RProduce q => enc_produce txn q
  | RFetch q => enc_fetch q
  | RListOffsets q => enc_list_offsets q
  | RMetadata q => enc_metadata auto q
  | ROffsetCommit q => enc_commit q
  | ROffsetFetch q => enc_offset_fetch q
  | RFindCoordinator q => enc_string (fc_Key q)
  | RJoinGroup q => enc_join q
  | RHeartbeat q => enc_heartbeat q
  | RLeaveGroup q => enc_leave q
  | RSyncGroup q => enc_sync q
  | RApiVersions => []
  end.

(** ** Proof automation for layouts *)

Lemma reads_bind_ret {A B} (m : decoder A) (f : A -> B) a b c :
  reads m a c -> b = f a -> reads (m ≫= (fun x => mret (f x))) b c.
Proof.
  intros Hm ->. rewrite <- (app_nil_r c). eapply reads_bind; [done|apply reads_ret].
Qed.

Lemma reads_skip {A B} (m : decoder A) (k : A -> decoder B) a b c :
  reads m a [] -> reads (k a) b c -> reads (m ≫= k) b c.
Proof. intros Hm Hk. change c with ([] ++ c). by eapply reads_bind. Qed.

Lemma reads_opt_bytes fmt args c :
  reads (if 0 <? zlen c then wrapf fmt args (ReadBytes (zlen c)) else mret []) c c.
Proof.
  destruct (Z.ltb_spec 0 (zlen c)).
  - apply reads_wrapf, reads_ReadBytes.
  - rewrite (zlen_nil_inv c) by done. apply reads_ret.
Qed.

Lemma reads_nonneg_guard {A B} (xs : list B) e (m : decoder A) a c :
  reads m a c -> reads (if zlen xs <? 0 then dfail e else m) a c.
Proof.
  apply reads_if_false. apply Z.ltb_ge, zlen_nonneg.
Qed.

Lemma reads_1024_guard {A B} (xs : list B) e (m : decoder A) a c :
  zlen xs <= 1024 -> reads m a c ->
  reads (if (zlen xs <? 0) || (1024 <? zlen xs) then dfail e else m) a c.
Proof.
  intros Hx. apply reads_if_false. pose proof (zlen_nonneg xs).
  apply orb_false_iff. split; apply Z.ltb_ge; lia.
Qed.

Lemma counted_fits {A} (xs : list A) : counted xs -> sfits 32 (zlen xs).
Proof. unfold counted. pose proof (zlen_nonneg xs). fits. Qed.

Lemma le1024_fits {A} (xs : list A) : zlen xs <= 1024 -> sfits 32 (zlen xs).
Proof. pose proof (zlen_nonneg xs). fits. Qed.

Lemma reads_i8 v : sfits 8 v -> reads ReadInt8 v (enc_i8 v).
Proof. apply reads_ReadInt8. Qed.

#[export] Hint Resolve counted_fits le1024_fits zlen_nonneg reads_i8 reads_ReadInt16
  reads_ReadInt32 reads_ReadInt64 reads_ReadString reads_ReadBytes reads_ret
  reads_opt_bytes : reads.

(** Walks a parser and its layout in step; leaves the element lemmas. *)
Ltac reads_go :=
  cbv beta;
  lazymatch goal with
  | |- reads (wrapf _ _ _) _ _ => apply reads_wrapf; reads_go
  | |- reads (if _ <? 0 then _ else _) _ _ => apply reads_nonneg_guard; reads_go
  | |- reads (if (_ || _)%bool then _ else _) _ _ =>
      apply reads_1024_guard; [assumption|reads_go]
  | |- reads (make_cap _ ≫= _) _ _ =>
      eapply reads_skip; [apply reads_make_cap, zlen_nonneg|reads_go]
  | |- reads (_ ≫= _) _ (_ ++ _) => eapply reads_bind; [reads_go|reads_go]
  | |- reads (_ ≫= _) _ _ => eapply reads_bind_ret; [reads_go|reflexivity]
  | |- reads (read_array _ _) _ _ => apply reads_array; [reflexivity|]
  | |- _ => eauto with reads
  end.

Ltac layout q :=
  destruct q; cbn -[be_put zlen] in *; destruct_and?;
  unfold enc_array, enc_bytes, enc_i16, enc_i32, enc_i64;
  rewrite <- ?app_assoc.

(** Turns a [Forall] over the elements into the membership form. *)
Ltac elements :=
  match goal with H : Forall _ _ |- _ => rewrite Forall_forall in H end;
  intros ? ? ?; eauto with reads.

Lemma reads_header h : wf_header h -> reads ParseRequestHeader h (enc_header h).
Proof. intros H. unfold wf_header in H. unfold ParseRequestHeader, enc_header. layout h. reads_go. Qed.

Lemma reads_produce_partition i j p :
  wf_produce_partition p -> reads (parse_produce_partition i j) p (enc_produce_partition p).
Proof.
  intros H. unfold wf_produce_partition in H.
  unfold parse_produce_partition, enc_produce_partition. layout p. reads_go.
Qed.
#[export] Hint Resolve reads_produce_partition : reads.

Lemma reads_produce_topic i t :
  wf_produce_topic t -> reads (parse_produce_topic i) t (enc_produce_topic t).
Proof.
  intros H. unfold wf_produce_topic in H.
  unfold parse_produce_topic, enc_produce_topic. layout t. reads_go. elements.
Qed.
#[export] Hint Resolve reads_produce_topic : reads.

Lemma reads_skip_txn h txn :
  from_option short True txn ->
  reads (skip_transactional_id h) tt
    (if 3 <=? rh_ApiVersion h then enc_nullable txn else []).
Proof.
  intros Ht. unfold skip_transactional_id.
  destruct (3 <=? rh_ApiVersion h); [|apply reads_ret].
  destruct txn as [s|]; simpl in *.
  - unfold short in Ht. pose proof (zlen_nonneg s). unfold enc_string.
    replace (i16 (zlen s)) with (zlen s) by (symmetry; apply swrap_id; fits).
    eapply reads_bind; [apply reads_wrapf, reads_ReadInt16; fits|].
    destruct (Z.ltb_spec 0 (zlen s)).
    + eapply reads_bind_ret; [apply reads_wrapf, reads_ReadBytes|done].
    + rewrite (zlen_nil_inv s) by done. apply reads_ret.
  - rewrite <- (app_nil_r (be_put 2 _)).
    eapply reads_bind; [apply reads_wrapf, reads_ReadInt16; fits|]. apply reads_ret.
Qed.

Lemma reads_produce h txn q :
  from_option short True txn -> pr_Header q = h -> wf_produce q ->
  reads (ParseProduceRequest h) q (enc_produce txn q).
Proof.
  intros Ht Hh H. unfold ParseProduceRequest, enc_produce, wf_produce in *. subst h.
  eapply reads_bind; [by apply reads_skip_txn|]. layout q. reads_go. elements.
Qed.

Lemma reads_fetch_partition i j p :
  wf_fetch_partition p -> reads (parse_fetch_partition i j) p (enc_fetch_partition p).
Proof.
  intros H. unfold wf_fetch_partition in H.
  unfold parse_fetch_partition, enc_fetch_partition. layout p. reads_go.
Qed.
#[export] Hint Resolve reads_fetch_partition : reads.

Lemma reads_fetch_topic i t :
  wf_fetch_topic t -> reads (parse_fetch_topic i) t (enc_fetch_topic t).
Proof.
  intros H. unfold wf_fetch_topic in H.
  unfold parse_fetch_topic, enc_fetch_topic. layout t. reads_go. elements.
Qed.
#[export] Hint Resolve reads_fetch_topic : reads.

Lemma reads_fetch h q :
  fr_Header q = h -> wf_fetch q -> reads (ParseFetchRequest h) q (enc_fetch q).
Proof.
  intros <- H. unfold ParseFetchRequest, enc_fetch, wf_fetch in *.
  layout q. reads_go. elements.
Qed.

Lemma reads_commit_partition i j p :
  wf_commit_partition p -> reads (parse_commit_partition i j) p (enc_commit_partition p).
Proof.
  intros H. unfold wf_commit_partition in H.
  unfold parse_commit_partition, enc_commit_partition. layout p. reads_go.
Qed.
#[export] Hint Resolve reads_commit_partition : reads.

Lemma reads_commit_topic i t :
  wf_commit_topic t -> reads (parse_commit_topic i) t (enc_commit_topic t).
Proof.
  intros H. unfold wf_commit_topic in H.
  unfold parse_commit_topic, enc_commit_topic. layout t. reads_go. elements.
Qed.
#[export] Hint Resolve reads_commit_topic : reads.

Lemma reads_commit h q :
  wf_commit q -> reads (ParseOffsetCommitRequest h) q (enc_commit q).
Proof.
  intros H. unfold ParseOffsetCommitRequest, enc_commit, wf_commit in *.
  layout q. reads_go. elements.
Qed.

Lemma reads_offset_fetch_partition i j p :
  sfits 32 (ofp_Partition p) ->
  reads (parse_offset_fetch_partition i j) p (enc_offset_fetch_partition p).
Proof.
  intros H. unfold parse_offset_fetch_partition, enc_offset_fetch_partition.
  layout p. reads_go.
Qed.
#[export] Hint Resolve reads_offset_fetch_partition : reads.

Lemma reads_offset_fetch_topic i t :
  wf_offset_fetch_topic t -> reads (parse_offset_fetch_topic i) t (enc_offset_fetch_topic t).
Proof.
  intros H. unfold wf_offset_fetch_topic in H.
  unfold parse_offset_fetch_topic, enc_offset_fetch_topic. layout t. reads_go. elements.
Qed.
#[export] Hint Resolve reads_offset_fetch_topic : reads.

Lemma reads_offset_fetch h q :
  wf_offset_fetch q -> reads (ParseOffsetFetchRequest h) q (enc_offset_fetch q).
Proof.
  intros H. unfold ParseOffsetFetchRequest, enc_offset_fetch, wf_offset_fetch in *.
  layout q. reads_go. elements.
Qed.

Lemma reads_list_offsets_partition i j p :
  sfits 32 (lop_Partition p) /\ sfits 64 (lop_Timestamp p) ->
  reads (parse_list_offsets_partition i j) p (enc_list_offsets_partition p).
Proof.
  intros H. unfold parse_list_offsets_partition, enc_list_offsets_partition.
  layout p. reads_go.
Qed.
#[export] Hint Resolve reads_list_offsets_partition : reads.

Lemma reads_list_offsets_topic i t :
  wf_list_offsets_topic t -> reads (parse_list_offsets_topic i) t (enc_list_offsets_topic t).
Proof.
  intros H. unfold wf_list_offsets_topic in H.
  unfold parse_list_offsets_topic, enc_list_offsets_topic. layout t. reads_go. elements.
Qed.
#[export] Hint Resolve reads_list_offsets_topic : reads.

Lemma reads_list_offsets h q :
  lo_Header q = h -> wf_list_offsets q ->
  reads (ParseListOffsetsRequest h) q (enc_list_offsets q).
Proof.
  intros <- H. unfold ParseListOffsetsRequest, enc_list_offsets, wf_list_offsets in *.
  layout q. reads_go. elements.
Qed.

Lemma reads_ReadBool (b : bool) : reads ReadBool b (enc_i8 (if b then 1 else 0)).
Proof.
  unfold ReadBool. eapply reads_bind_ret; [apply (reads_ReadFull (enc_i8 _))|].
  by destruct b.
Qed.

Lemma reads_metadata h auto q :
  mr_Header q = h -> wf_metadata q ->
  reads (ParseMetadataRequest h) q (enc_metadata auto q).
Proof.
  intros <- H. unfold ParseMetadataRequest, enc_metadata, wf_metadata in *.
  destruct H as [Hc Hs]. unfold enc_array. rewrite <- app_assoc.
  eapply reads_bind; [apply reads_wrapf, reads_ReadInt32; auto with reads|].
  eapply reads_skip; [apply reads_make_cap, zlen_nonneg|].
  eapply reads_bind.
  - apply reads_array; [done|]. rewrite Forall_forall in Hs.
    intros. apply reads_wrapf, reads_ReadString; eauto.
  - destruct (4 <=? _); (eapply reads_bind_ret; [|by destruct q]).
    + apply reads_wrapf, reads_ReadBool.
    + apply reads_ret.
Qed.

Lemma reads_join_protocol i p :
  short (jgp_Name p) /\ counted (jgp_Metadata p) ->
  reads (parse_join_protocol i) p (enc_join_protocol p).
Proof.
  intros H. unfold parse_join_protocol, enc_join_protocol. layout p. reads_go.
Qed.
#[export] Hint Resolve reads_join_protocol : reads.

Lemma reads_join h q : wf_join q -> reads (ParseJoinGroupRequest h) q (enc_join q).
Proof.
  intros H. unfold ParseJoinGroupRequest, enc_join, wf_join in *.
  layout q. reads_go. elements.
Qed.

Lemma reads_sync_assignment i a :
  short (sga_MemberID a) /\ counted (sga_Assignment a) ->
  reads (parse_sync_assignment i) a (enc_sync_assignment a).
Proof.
  intros H. unfold parse_sync_assignment, enc_sync_assignment. layout a. reads_go.
Qed.
#[export] Hint Resolve reads_sync_assignment : reads.

Lemma reads_sync h q : wf_sync q -> reads (ParseSyncGroupRequest h) q (enc_sync q).
Proof.
  intros H. unfold ParseSyncGroupRequest, enc_sync, wf_sync in *.
  layout q. reads_go. elements.
Qed.

Lemma reads_heartbeat h q :
  short (hb_GroupID q) /\ sfits 32 (hb_GenerationID q) /\ short (hb_MemberID q) ->
  reads (ParseHeartbeatRequest h) q (enc_heartbeat q).
Proof.
  intros H. unfold ParseHeartbeatRequest, enc_heartbeat. layout q. reads_go.
Qed.

Lemma reads_leave h q :
  short (lg_GroupID q) /\ short (lg_MemberID q) ->
  reads (ParseLeaveGroupRequest h) q (enc_leave q).
Proof.
  intros H. unfold ParseLeaveGroupRequest, enc_leave. layout q. reads_go.
Qed.

(** ** The parsers invert the documented layouts *)

(** C11: Every well-formed request of every API: the frame's header is parsed back,
    the body parser its key selects returns the request, and the decoder is
    left exactly at the end of the frame. *)
Theorem request_roundtrip (h : RequestHeader) (q : Request) (txn : option gostring)
    (auto : bool) (rest : list byte) (e : goerr) :
  wf_header h -> wf_request h q -> from_option short True txn ->
  exists m, parse_body h = Some m /\
    ParseRequestHeader (Rd (enc_header h ++ enc_request txn auto q ++ rest) e) =
      (Ok h, Rd (enc_request txn auto q ++ rest) e) /\
    m (Rd (enc_request txn auto q ++ rest) e) = (Ok q, Rd rest e).
Proof.
  intros Hh [Hk Hq] Ht. unfold parse_body. rewrite Hk.
  destruct q as [q|q|q|q|q|q|q|q|q|q|q|]; simpl in Hq; destruct_and?;
    (eexists; split; [reflexivity|split; [by apply reads_header|]]);
    revert rest e; change (forall d e, ?m (Rd (?c ++ d) e) = (Ok ?a, Rd d e)) with (reads m a c);
    try (eapply reads_bind_ret; [|reflexivity]); simpl;
    eauto using reads_produce, reads_fetch, reads_list_offsets, reads_metadata, reads_commit,
      reads_offset_fetch, reads_join, reads_heartbeat, reads_leave, reads_sync with reads.
  unfold ParseFindCoordinatorRequest. destruct q. simpl in *.
  eapply reads_bind_ret; [apply reads_wrapf|reflexivity]. auto with reads.
Qed.

(** ** Truncated frames *)

Lemma streaming_header : streaming ParseRequestHeader.
Proof. unfold ParseRequestHeader. streaming. Qed.

Lemma streaming_produce h : streaming (ParseProduceRequest h).
Proof.
  unfold ParseProduceRequest, skip_transactional_id, parse_produce_topic,
    parse_produce_partition. streaming.
Qed.

Lemma streaming_fetch h : streaming (ParseFetchRequest h).
Proof. unfold ParseFetchRequest, parse_fetch_topic, parse_fetch_partition. streaming. Qed.

Lemma streaming_commit h : streaming (ParseOffsetCommitRequest h).
Proof. unfold ParseOffsetCommitRequest, parse_commit_topic, parse_commit_partition. streaming. Qed.

Lemma streaming_offset_fetch h : streaming (ParseOffsetFetchRequest h).
Proof.
  unfold ParseOffsetFetchRequest, parse_offset_fetch_topic, parse_offset_fetch_partition.
  streaming.
Qed.

Lemma streaming_list_offsets h : streaming (ParseListOffsetsRequest h).
Proof.
  unfold ParseListOffsetsRequest, parse_list_offsets_topic, parse_list_offsets_partition.
  streaming.
Qed.

Lemma streaming_metadata h : streaming (ParseMetadataRequest h).
Proof. unfold ParseMetadataRequest. streaming. Qed.
Lemma streaming_find h : streaming (ParseFindCoordinatorRequest h).
Proof. unfold ParseFindCoordinatorRequest. streaming. Qed.
Lemma streaming_join h : streaming (ParseJoinGroupRequest h).
Proof. unfold ParseJoinGroupRequest, parse_join_protocol. streaming. Qed.
Lemma streaming_heartbeat h : streaming (ParseHeartbeatRequest h).
Proof. unfold ParseHeartbeatRequest. streaming. Qed.
Lemma streaming_leave h : streaming (ParseLeaveGroupRequest h).
Proof. unfold ParseLeaveGroupRequest. streaming. Qed.
Lemma streaming_sync h : streaming (ParseSyncGroupRequest h).
Proof. unfold ParseSyncGroupRequest, parse_sync_assignment. streaming. Qed.

#[export] Hint Resolve streaming_header streaming_produce streaming_fetch streaming_commit
  streaming_offset_fetch streaming_list_offsets streaming_metadata streaming_find
  streaming_join streaming_heartbeat streaming_leave streaming_sync : streaming.

Lemma streaming_parse_body h m : parse_body h = Some m -> streaming m.
Proof.
  unfold parse_body. intros H.
  repeat (destruct (_ =? _); [injection H as <-; streaming|]). done.
Qed.

(** A version 3 produce request with one topic and two partitions. *)
Definition sample_header : RequestHeader :=
  {| rh_Size := 70; rh_ApiKey := ApiKeyProduce; rh_ApiVersion := 3; rh_CorrelationID := 7;
     rh_ClientID := gos "client" |}.
Definition sample_produce : ProduceRequest :=
  {| pr_Header := sample_header; pr_Acks := -1; pr_TimeoutMs := 1000;
     pr_Topics := [ {| ptd_TopicName := gos "sensor-data";
                       ptd_Partitions := [ {| ppd_Partition := 0; ppd_RecordBatch := gos "batch" |};
                                           {| ppd_Partition := 1; ppd_RecordBatch := [] |} ] |} ] |}.

Lemma request_roundtrip_witness :
  exists m, parse_body sample_header = Some m /\
    ParseRequestHeader (Rd (enc_header sample_header ++
        enc_request (Some (gos "tx")) false (RProduce sample_produce) ++ gos "next") EOF) =
      (Ok sample_header,
       Rd (enc_request (Some (gos "tx")) false (RProduce sample_produce) ++ gos "next") EOF) /\
    m (Rd (enc_request (Some (gos "tx")) false (RProduce sample_produce) ++ gos "next") EOF) =
      (Ok (RProduce sample_produce), Rd (gos "next") EOF).
Proof.
  apply (request_roundtrip sample_header (RProduce sample_produce) (Some (gos "tx")) false).
  - unfold wf_header. concrete.
  - unfold wf_request, wf_produce, wf_produce_topic, wf_produce_partition, counted. concrete.
  - concrete.
Defined.

Definition sample_coordinator : RequestHeader :=
  {| rh_Size := 20; rh_ApiKey := ApiKeyFindCoordinator; rh_ApiVersion := 0;
     rh_CorrelationID := 8; rh_ClientID := [] |}.

(** C34: A parser that accepts a stream consumed a prefix [c] of it, returns the same
    value for any continuation of [c], and rejects every proper prefix of [c]
    with the error of the stream's end. *)
Theorem request_truncation (h : RequestHeader) (m : decoder Request) (d : list byte)
    (e : goerr) (q : Request) (r : reader) :
  parse_body h = Some m -> m (Rd d e) = (Ok q, r) ->
  exists c, d = c ++ rd_data r /\
    (forall d' e', m (Rd (c ++ d') e') = (Ok q, Rd d' e')) /\
    (forall p s e', c = p ++ s -> s <> [] ->
       exists err r', m (Rd p e') = (Err err, r') /\ truncated err e').
Proof.
  intros Hm Hq. destruct (streaming_parse_body h m Hm _ _ _ _ Hq) as (c & Hd & _ & Hr & Hf).
  exists c. split_and!; [done|exact Hr|exact Hf].
Qed.

Lemma request_truncation_witness :
  exists c, be_put 2 3 ++ gos "key" ++ gos "more" = c ++ gos "more" /\
    (forall d' e', (q ← ParseFindCoordinatorRequest sample_coordinator; mret (RFindCoordinator q))
       (Rd (c ++ d') e') = (Ok (RFindCoordinator {| fc_Key := gos "key" |}), Rd d' e')) /\
    (forall p s e', c = p ++ s -> s <> [] ->
       exists err r', (q ← ParseFindCoordinatorRequest sample_coordinator;
                       mret (RFindCoordinator q)) (Rd p e') = (Err err, r') /\ truncated err e').
Proof.
  apply (request_truncation sample_coordinator _ (be_put 2 3 ++ gos "key" ++ gos "more") EOF
           (RFindCoordinator {| fc_Key := gos "key" |}) (Rd (gos "more") EOF)).
  - reflexivity.
  - vm_compute. reflexivity.
Defined.

(** ** Element counts and panics *)

Definition no_panic {A} (m : decoder A) : Prop :=
  forall r p r', m r <> (Panic p, r').

Create HintDb no_panic.

Lemma no_panic_ret {A} (a : A) : no_panic (mret a).
Proof. by intros r p r'. Qed.
Lemma no_panic_fail {A} e : no_panic (@dfail A e).
Proof. by intros r p r'. Qed.
Lemma no_panic_bind {A B} (m : decoder A) (k : A -> decoder B) :
  no_panic m -> (forall a, no_panic (k a)) -> no_panic (m ≫= k).
Proof.
  intros Hm Hk r p r'. unfold mbind, st_bind.
  destruct (m r) as [[a|e|p'] r1] eqn:E; [apply Hk|done|].
  intros [= -> ->]. by apply (Hm r p r').
Qed.
Lemma no_panic_wrapf {A} fmt args (m : decoder A) : no_panic m -> no_panic (wrapf fmt args m).
Proof.
  intros Hm r p r'. unfold wrapf. specialize (Hm r p r').
  by destruct (m r) as [[?|?|?] ?].
Qed.
Lemma no_panic_ReadFull n : no_panic (ReadFull n).
Proof. intros r p r'. unfold ReadFull. by destruct (n <=? _). Qed.
Lemma no_panic_if {A} (b : bool) (m1 m2 : decoder A) :
  no_panic m1 -> no_panic m2 -> no_panic (if b then m1 else m2).
Proof. by destruct b. Qed.

(** A range check in front of [make] keeps the capacity non-negative. *)
Lemma no_panic_guarded {A} n b e (k : decoder A) :
  no_panic k ->
  no_panic (if (n <? 0) || b then dfail e else (_ ← make_cap n; k)).
Proof.
  intros Hk r p r'. destruct (Z.ltb_spec n 0); simpl; [done|].
  destruct b; [done|]. unfold make_cap. rewrite (proj2 (Z.ltb_ge n 0)) by lia.
  apply Hk.
Qed.

Lemma no_panic_array {A} n (item : Z -> decoder A) :
  (forall j, no_panic (item j)) -> no_panic (read_array n item).
Proof.
  intros Hi. unfold read_array. generalize 0. induction (Z.to_nat n) as [|k IH]; intros i; simpl.
  - apply no_panic_ret.
  - apply no_panic_bind; [done|]. intros x. apply no_panic_bind; [done|].
    intros xs. apply no_panic_ret.
Qed.

Lemma no_panic_ReadInt16 : no_panic ReadInt16.
Proof. apply no_panic_bind; [apply no_panic_ReadFull|intros; apply no_panic_ret]. Qed.
Lemma no_panic_ReadInt32 : no_panic ReadInt32.
Proof. apply no_panic_bind; [apply no_panic_ReadFull|intros; apply no_panic_ret]. Qed.
Lemma no_panic_ReadInt64 : no_panic ReadInt64.
Proof. apply no_panic_bind; [apply no_panic_ReadFull|intros; apply no_panic_ret]. Qed.
Lemma no_panic_ReadBytes n : no_panic (ReadBytes n).
Proof. apply no_panic_if; [apply no_panic_ret|apply no_panic_ReadFull]. Qed.
Lemma no_panic_ReadString : no_panic ReadString.
Proof.
  apply no_panic_bind; [apply no_panic_ReadInt16|]. intros n.
  apply no_panic_if; [apply no_panic_ret|apply no_panic_ReadBytes].
Qed.

#[export] Hint Resolve no_panic_ret no_panic_fail no_panic_ReadFull no_panic_ReadInt16 no_panic_ReadInt32
  no_panic_ReadInt64 no_panic_ReadBytes no_panic_ReadString : no_panic.

Ltac no_panic := repeat (intros; (apply no_panic_guarded || apply no_panic_bind ||
  apply no_panic_wrapf || apply no_panic_if || apply no_panic_array)); intros;
  auto with no_panic.

(** The parsers whose counts are range-checked, or that have no array, return a
    request or an error on every input stream. *)
Theorem guarded_parsers_never_panic (h : RequestHeader) :
  no_panic ParseRequestHeader /\ no_panic (ParseProduceRequest h) /\
  no_panic (ParseListOffsetsRequest h) /\ no_panic (ParseFindCoordinatorRequest h) /\
  no_panic (ParseHeartbeatRequest h) /\ no_panic (ParseLeaveGroupRequest h).
Proof.
  unfold ParseRequestHeader, ParseProduceRequest, skip_transactional_id, parse_produce_topic,
    parse_produce_partition, ParseListOffsetsRequest, parse_list_offsets_topic,
    parse_list_offsets_partition, ParseFindCoordinatorRequest, ParseHeartbeatRequest,
    ParseLeaveGroupRequest.
  split_and!; no_panic.
Qed.

(** A count that is read and passed to [make] unchecked. *)
Lemma unchecked_count_panics {A B} fmt args (item : Z -> decoder A) (k : list A -> decoder B) n d e :
  sfits 32 n -> n < 0 ->
  (c ← wrapf fmt args ReadInt32; _ ← make_cap c; xs ← read_array c item; k xs)
    (Rd (enc_i32 n ++ d) e) = (Panic MakeSliceCap, Rd d e).
Proof.
  intros Hn Hneg. unfold mbind, st_bind at 1, wrapf.
  rewrite (reads_ReadInt32 n Hn). unfold st_bind, make_cap.
  by rewrite (proj2 (Z.ltb_lt n 0)).
Qed.

(** The prefix that each unchecked parser reads before its first count. *)
Definition before_count (h : RequestHeader) (g s t : gostring) (a b c m : Z) : list byte :=
  let k := rh_ApiKey h in
  if k =? ApiKeyMetadata then []
  else if k =? ApiKeyFetch then enc_i32 a ++ enc_i32 b ++ enc_i32 c ++ enc_i32 m ++ enc_i8 0
  else if k =? ApiKeyOffsetCommit then enc_string g ++ enc_i32 a ++ enc_string s ++ enc_i64 b
  else if k =? ApiKeyOffsetFetch then enc_string g
  else if k =? ApiKeyJoinGroup then
    enc_string g ++ enc_i32 a ++ enc_i32 b ++ enc_string s ++ enc_string t
  else enc_string g ++ enc_i32 a ++ enc_string s.

Lemma reads_step {A B} (m : decoder A) (k : A -> decoder B) a c d e x :
  reads m a c -> k a (Rd d e) = x -> (m ≫= k) (Rd (c ++ d) e) = x.
Proof. intros Hm <-. unfold mbind, st_bind. by rewrite Hm. Qed.

Lemma bind_panic {A B} (m : decoder A) (k : A -> decoder B) r p r' :
  m r = (Panic p, r') -> (m ≫= k) r = (Panic p, r').
Proof. intros Hm. unfold mbind, st_bind. by rewrite Hm. Qed.

(** Reads the fields before the count, then applies the lemma. *)
Ltac count_panics :=
  cbv beta;
  lazymatch goal with
  | |- (_ ≫= (fun c => make_cap c ≫= _)) _ = _ => apply unchecked_count_panics; [done|lia]
  | |- _ => eapply reads_step; [apply reads_wrapf; solve [eauto with reads]|count_panics]
  end.

(** The six parsers that pass the count on unchecked panic on every negative
    count (in particular on the -1 that encodes a null array). *)
Theorem negative_count_panics (h : RequestHeader) (n : Z) (g s t : gostring) (a b c m : Z)
    (d : list byte) (e : goerr) :
  rh_ApiKey h ∈ [ApiKeyMetadata; ApiKeyFetch; ApiKeyOffsetCommit; ApiKeyOffsetFetch;
                 ApiKeyJoinGroup; ApiKeySyncGroup] ->
  -2 ^ 31 <= n < 0 -> short g -> short s -> short t ->
  sfits 32 a -> sfits 32 b -> sfits 32 c -> sfits 32 m ->
  exists p, parse_body h = Some p /\
    p (Rd (before_count h g s t a b c m ++ enc_i32 n ++ d) e) = (Panic MakeSliceCap, Rd d e).
Proof.
  intros Hk Hn Hg Hs Ht Ha Hb Hc Hm.
  assert (Hn32 : sfits 32 n) by fits. assert (Hb64 : sfits 64 b) by fits.
  assert (H8 : sfits 8 0) by fits.
  unfold parse_body, before_count. set_unfold in Hk.
  destruct_or! Hk; try done; rewrite Hk;
    (eexists; split; [reflexivity|apply bind_panic]);
    unfold ApiKeyMetadata, ApiKeyFetch, ApiKeyOffsetCommit, ApiKeyOffsetFetch,
      ApiKeyJoinGroup, ApiKeySyncGroup; cbn [Z.eqb Pos.eqb app]; rewrite <- ?app_assoc;
    unfold ParseMetadataRequest, ParseFetchRequest, ParseOffsetCommitRequest,
      ParseOffsetFetchRequest, ParseJoinGroupRequest, ParseSyncGroupRequest, enc_i32, enc_i64;
    count_panics.
Qed.

Definition sample_join : RequestHeader :=
  {| rh_Size := 40; rh_ApiKey := ApiKeyJoinGroup; rh_ApiVersion := 2;
     rh_CorrelationID := 9; rh_ClientID := [] |}.

Lemma negative_count_panics_witness :
  exists p, parse_body sample_join = Some p /\
    p (Rd (before_count sample_join (gos "g") (gos "m") (gos "consumer") 1 2 3 4 ++
           enc_i32 (-1) ++ []) EOF) = (Panic MakeSliceCap, Rd [] EOF).
Proof.
  apply (negative_count_panics sample_join (-1) (gos "g") (gos "m") (gos "consumer") 1 2 3 4 [] EOF);
    try concrete; try lia.
Defined.
