(* ===== verification/Responses.v ===== *)
(** * Response messages and their encoders

    Models the response half of src/internal/protocol/messages.go: the
    response structs, the [Encode*Response] methods of the encoder, the
    version-dependent metadata layout, the capability table, and
    [WriteFetchResponse], which streams a length-prefixed frame whose size it
    computes in [int32] arithmetic beforehand. *)

From S2P Require Import Prelude GoIO Wire Requests.
From stdpp Require Import base tactics list numbers gmap strings.
From Stdlib Require Import ZArith Lia.
#[local] Open Scope Z_scope.

(** ** Error codes *)

Definition ErrCodeNone : Z := 0.
Definition ErrCodeOffsetOutOfRange : Z := 1.
Definition ErrCodeCorruptMessage : Z := 2.
Definition ErrCodeUnknownTopicOrPartition : Z := 3.

(** ** Produce *)

Record ProducePartitionResponse := {
  ppr_BaseOffset : Z;
  ppr_Partition : Z;
  ppr_ErrorCode : Z }.

Record ProduceTopicResponse := {
  ptr_TopicName : gostring;
  ptr_Partitions : list ProducePartitionResponse }.

Record ProduceResponse := { prs_Topics : list ProduceTopicResponse }.

Definition EncodeProduceResponse (correlationID : Z) (resp : ProduceResponse)
  (e : Encoder) : Encoder :=
  let e := WriteInt32 correlationID e in
  let e := WriteInt32 (i32 (zlen (prs_Topics resp))) e in
  let e := range_enc (fun t e =>
    let e := WriteString (ptr_TopicName t) e in
    let e := WriteInt32 (i32 (zlen (ptr_Partitions t))) e in
    range_enc (fun p e =>
      let e := WriteInt32 (ppr_Partition p) e in
      let e := WriteInt16 (ppr_ErrorCode p) e in
      let e := WriteInt64 (ppr_BaseOffset p) e in
      WriteInt64 (-1) e) (ptr_Partitions t) e) (prs_Topics resp) e in
  WriteInt32 0 e.

(** ** Fetch *)

(** [fpr_RecordBatch] is the [io.Reader] over the batch, [None] for nil. *)
Record FetchPartitionResponse := {
  fpr_RecordBatch : option reader;
  fpr_HighWatermark : Z;
  fpr_BatchSize : Z;
  fpr_Partition : Z;
  fpr_ErrorCode : Z }.

Record FetchTopicResponse := {
  ftr_TopicName : gostring;
  ftr_Partitions : list FetchPartitionResponse }.

Record FetchResponse := {
  frs_Topics : list FetchTopicResponse;
  frs_ThrottleTimeMs : Z }.

Definition partitionFixedBytes : Z := 30.

(** The size computation, every addition at [int32] width. *)
Definition fetch_total_payload (resp : FetchResponse) : Z :=
  fold_left (fun total t =>
    fold_left (fun total p =>
        let total := i32 (total + partitionFixedBytes) in
        if 0 <? fpr_BatchSize p then i32 (total + fpr_BatchSize p) else total)
      (ftr_Partitions t)
      (i32 (total + i32 (2 + zlen (ftr_TopicName t) + 4))))
    (frs_Topics resp) (i32 12).

Definition fetch_size_prefix (totalPayload : Z) : list byte :=
  [Zbyte (Z.shiftr totalPayload 24); Zbyte (Z.shiftr totalPayload 16);
   Zbyte (Z.shiftr totalPayload 8); Zbyte totalPayload].

Definition write_fetch_partition (p : FetchPartitionResponse) : st conn unit :=
  let partEnc := NewEncoder in
  let partEnc := WriteInt32 (fpr_Partition p) partEnc in
  let partEnc := WriteInt16 (fpr_ErrorCode p) partEnc in
  let partEnc := WriteInt64 (fpr_HighWatermark p) partEnc in
  let partEnc := WriteInt64 (fpr_HighWatermark p) partEnc in
  let partEnc := WriteInt32 0 partEnc in
  let partEnc := WriteInt32 (fpr_BatchSize p) partEnc in
  _ ← conn_Write (buffer partEnc);
  match fpr_RecordBatch p with
  | Some r => if 0 <? fpr_BatchSize p then io_Copy r else mret tt
  | None => mret tt
  end.

Definition write_fetch_topic (t : FetchTopicResponse) : st conn unit :=
  let topicEnc := NewEncoder in
  let topicEnc := WriteString (ftr_TopicName t) topicEnc in
  let topicEnc := WriteInt32 (i32 (zlen (ftr_Partitions t))) topicEnc in
  _ ← conn_Write (buffer topicEnc);
  range_st write_fetch_partition (ftr_Partitions t).

Definition WriteFetchResponse (correlationID : Z) (resp : FetchResponse) : st conn unit :=
  _ ← conn_Write (fetch_size_prefix (fetch_total_payload resp));
  let hdr := NewEncoder in
  let hdr := WriteInt32 correlationID hdr in
  let hdr := WriteInt32 (frs_ThrottleTimeMs resp) hdr in
  let hdr := WriteInt32 (i32 (zlen (frs_Topics resp))) hdr in
  _ ← conn_Write (buffer hdr);
  range_st write_fetch_topic (frs_Topics resp).

(** ** OffsetCommit, OffsetFetch, ListOffsets *)

Record OffsetCommitPartitionResponse := {
  ocpr_Partition : Z;
  ocpr_ErrorCode : Z }.

Record OffsetCommitTopicResponse := {
  octr_TopicName : gostring;
  octr_Partitions : list OffsetCommitPartitionResponse }.

Record OffsetCommitResponse := { ocr_Topics : list OffsetCommitTopicResponse }.

Definition EncodeOffsetCommitResponse (correlationID : Z) (resp : OffsetCommitResponse)
  (e : Encoder) : Encoder :=
  let e := WriteInt32 correlationID e in
  let e := WriteInt32 (i32 (zlen (ocr_Topics resp))) e in
  range_enc (fun t e =>
    let e := WriteString (octr_TopicName t) e in
    let e := WriteInt32 (i32 (zlen (octr_Partitions t))) e in
    range_enc (fun p e =>
      let e := WriteInt32 (ocpr_Partition p) e in
      WriteInt16 (ocpr_ErrorCode p) e) (octr_Partitions t) e) (ocr_Topics resp) e.

Record OffsetFetchPartitionResponse := {
  ofpr_CommittedOffset : Z;
  ofpr_CommittedMetadata : gostring;
  ofpr_Partition : Z;
  ofpr_ErrorCode : Z }.

Record OffsetFetchTopicResponse := {
  oftr_TopicName : gostring;
  oftr_Partitions : list OffsetFetchPartitionResponse }.

Record OffsetFetchResponse := { ofr_Topics : list OffsetFetchTopicResponse }.

Definition EncodeOffsetFetchResponse (correlationID : Z) (resp : OffsetFetchResponse)
  (e : Encoder) : Encoder :=
  let e := WriteInt32 correlationID e in
  let e := WriteInt32 (i32 (zlen (ofr_Topics resp))) e in
  range_enc (fun t e =>
    let e := WriteString (oftr_TopicName t) e in
    let e := WriteInt32 (i32 (zlen (oftr_Partitions t))) e in
    range_enc (fun p e =>
      let e := WriteInt32 (ofpr_Partition p) e in
      let e := WriteInt64 (ofpr_CommittedOffset p) e in
      let e := WriteString (ofpr_CommittedMetadata p) e in
      WriteInt16 (ofpr_ErrorCode p) e) (oftr_Partitions t) e) (ofr_Topics resp) e.

Record ListOffsetsPartitionResponse := {
  lopr_Partition : Z;
  lopr_ErrorCode : Z;
  lopr_Timestamp : Z;
  lopr_Offset : Z }.

Record ListOffsetsTopicResponse := {
  lotr_TopicName : gostring;
  lotr_Partitions : list ListOffsetsPartitionResponse }.

Record ListOffsetsResponse := { lor_Topics : list ListOffsetsTopicResponse }.

Definition EncodeListOffsetsResponse (correlationID : Z) (resp : ListOffsetsResponse)
  (e : Encoder) : Encoder :=
  let e := WriteInt32 correlationID e in
  let e := WriteInt32 (i32 (zlen (lor_Topics resp))) e in
  range_enc (fun t e =>
    let e := WriteString (lotr_TopicName t) e in
    let e := WriteInt32 (i32 (zlen (lotr_Partitions t))) e in
    range_enc (fun p e =>
      let e := WriteInt32 (lopr_Partition p) e in
      let e := WriteInt16 (lopr_ErrorCode p) e in
      let e := WriteInt64 (lopr_Timestamp p) e in
      WriteInt64 (lopr_Offset p) e) (lotr_Partitions t) e) (lor_Topics resp) e.

(** ** ApiVersions *)

Record apiVersion := {
  av_Key : Z;
  av_MinVersion : Z;
  av_MaxVersion : Z }.

Definition supportedAPIVersions : list apiVersion := [
  {| av_Key := ApiKeyProduce; av_MinVersion := 0; av_MaxVersion := 3 |};
  {| av_Key := ApiKeyFetch; av_MinVersion := 0; av_MaxVersion := 4 |};
  {| av_Key := ApiKeyListOffsets; av_MinVersion := 0; av_MaxVersion := 1 |};
  {| av_Key := ApiKeyMetadata; av_MinVersion := 0; av_MaxVersion := 9 |};
  {| av_Key := ApiKeyOffsetCommit; av_MinVersion := 0; av_MaxVersion := 2 |};
  {| av_Key := ApiKeyOffsetFetch; av_MinVersion := 0; av_MaxVersion := 1 |};
  {| av_Key := ApiKeyFindCoordinator; av_MinVersion := 0; av_MaxVersion := 0 |};
  {| av_Key := ApiKeyJoinGroup; av_MinVersion := 0; av_MaxVersion := 1 |};
  {| av_Key := ApiKeyHeartbeat; av_MinVersion := 0; av_MaxVersion := 0 |};
  {| av_Key := ApiKeyLeaveGroup; av_MinVersion := 0; av_MaxVersion := 0 |};
  {| av_Key := ApiKeySyncGroup; av_MinVersion := 0; av_MaxVersion := 0 |};
  {| av_Key := ApiKeyApiVersions; av_MinVersion := 0; av_MaxVersion := 2 |} ].

Definition EncodeApiVersionsResponse (correlationID : Z) (e : Encoder) : Encoder :=
  let e := WriteInt32 correlationID e in
  let e := WriteInt16 ErrCodeNone e in
  let e := WriteInt32 (i32 (zlen supportedAPIVersions)) e in
  let e := range_enc (fun v e =>
    let e := WriteInt16 (av_Key v) e in
    let e := WriteInt16 (av_MinVersion v) e in
    WriteInt16 (av_MaxVersion v) e) supportedAPIVersions e in
  WriteInt32 0 e.

(** ** Group coordination *)

Definition EncodeFindCoordinatorResponse (correlationID nodeID : Z) (host : gostring)
  (port : Z) (e : Encoder) : Encoder :=
  let e := WriteInt32 correlationID e in
  let e := WriteInt16 ErrCodeNone e in
  let e := WriteInt32 nodeID e in
  let e := WriteString host e in
  WriteInt32 port e.

Record JoinGroupMember := {
  jgm_MemberID : gostring;
  jgm_Metadata : list byte }.

Definition EncodeJoinGroupResponse (correlationID generationID : Z)
  (protocolName leader memberID : gostring) (members : list JoinGroupMember)
  (e : Encoder) : Encoder :=
  let e := WriteInt32 correlationID e in
  let e := WriteInt16 ErrCodeNone e in
  let e := WriteInt32 generationID e in
  let e := WriteString protocolName e in
  let e := WriteString leader e in
  let e := WriteString memberID e in
  let e := WriteInt32 (i32 (zlen members)) e in
  range_enc (fun m e =>
    let e := WriteString (jgm_MemberID m) e in
    let e := WriteInt32 (i32 (zlen (jgm_Metadata m))) e in
    WriteBytes (jgm_Metadata m) e) members e.

Definition EncodeHeartbeatResponse (correlationID : Z) (e : Encoder) : Encoder :=
  WriteInt16 ErrCodeNone (WriteInt32 correlationID e).

Definition EncodeLeaveGroupResponse (correlationID : Z) (e : Encoder) : Encoder :=
  WriteInt16 ErrCodeNone (WriteInt32 correlationID e).

Definition EncodeSyncGroupResponse (correlationID : Z) (assignment : list byte)
  (e : Encoder) : Encoder :=
  let e := WriteInt32 correlationID e in
  let e := WriteInt16 ErrCodeNone e in
  let e := WriteInt32 (i32 (zlen assignment)) e in
  WriteBytes assignment e.

(** ** Metadata *)

Record PartitionMetadata := {
  pm_Replicas : list Z;
  pm_Isr : list Z;
  pm_OfflineReplicas : list Z;
  pm_Partition : Z;
  pm_Leader : Z;
  pm_ErrorCode : Z }.

Record TopicMetadata := {
  tm_Partitions : list PartitionMetadata;
  tm_Name : gostring;
  tm_ErrorCode : Z;
  tm_IsInternal : bool }.

Record Broker := {
  br_Host : gostring;
  br_Rack : option gostring;
  br_NodeID : Z;
  br_Port : Z }.

Record MetadataResponse := {
  mrs_ClusterID : option gostring;
  mrs_Brokers : list Broker;
  mrs_Topics : list TopicMetadata;
  mrs_ControllerID : Z }.

Definition encode_broker (version : Z) (b : Broker) (e : Encoder) : Encoder :=
  let e := WriteInt32 (br_NodeID b) e in
  let e := WriteString (br_Host b) e in
  let e := WriteInt32 (br_Port b) e in
  if 1 <=? version then WriteNullableString (br_Rack b) e else e.

Definition encode_partition_metadata (version : Z) (p : PartitionMetadata) (e : Encoder)
  : Encoder :=
  let e := WriteInt16 (pm_ErrorCode p) e in
  let e := WriteInt32 (pm_Partition p) e in
  let e := WriteInt32 (pm_Leader p) e in
  let e := WriteInt32 (i32 (zlen (pm_Replicas p))) e in
  let e := range_enc WriteInt32 (pm_Replicas p) e in
  let e := WriteInt32 (i32 (zlen (pm_Isr p))) e in
  let e := range_enc WriteInt32 (pm_Isr p) e in
  if 5 <=? version then
    let e := WriteInt32 (i32 (zlen (pm_OfflineReplicas p))) e in
    range_enc WriteInt32 (pm_OfflineReplicas p) e
  else e.

Definition encode_topic_metadata (version : Z) (t : TopicMetadata) (e : Encoder) : Encoder :=
  let e := WriteInt16 (tm_ErrorCode t) e in
  let e := WriteString (tm_Name t) e in
  let e := (if 1 <=? version then
              WriteInt8 (if tm_IsInternal t then 1 else 0) e
            else e) in
  let e := WriteInt32 (i32 (zlen (tm_Partitions t))) e in
  range_enc (encode_partition_metadata version) (tm_Partitions t) e.

Definition EncodeMetadataResponse (correlationID version : Z) (resp : MetadataResponse)
  (e : Encoder) : Encoder :=
  let e := WriteInt32 correlationID e in
  let e := (if 3 <=? version then WriteInt32 0 e else e) in
  let e := WriteInt32 (i32 (zlen (mrs_Brokers resp))) e in
  let e := range_enc (encode_broker version) (mrs_Brokers resp) e in
  let e := (if 2 <=? version then WriteNullableString (mrs_ClusterID resp) e else e) in
  let e := (if 1 <=? version then WriteInt32 (mrs_ControllerID resp) e else e) in
  let e := WriteInt32 (i32 (zlen (mrs_Topics resp))) e in
  range_enc (encode_topic_metadata version) (mrs_Topics resp) e.
