(* ===== verification/ResponseSpec.v ===== *)
(** * The response wire format, as a client reads it

    Layouts of the response structs as the comments of messages.go document
    them, a decoder for each (what a client does), and the theorems that the
    broker's encoders produce frames a client decodes to the same response,
    with a length prefix that is exact. *)

From S2P Require Import Prelude GoIO Wire Requests RequestSpec Responses.
From stdpp Require Import base tactics list numbers gmap strings.
From Stdlib Require Import ZArith Lia.
#[local] Open Scope Z_scope.

(** ** Layouts *)

Definition lay_produce_partition (p : ProducePartitionResponse) : list byte :=
  enc_i32 (ppr_Partition p) ++ enc_i16 (ppr_ErrorCode p) ++ enc_i64 (ppr_BaseOffset p) ++
  enc_i64 (-1).
Definition lay_produce_topic (t : ProduceTopicResponse) : list byte :=
  enc_string (ptr_TopicName t) ++ enc_array lay_produce_partition (ptr_Partitions t).
Definition lay_produce (c : Z) (r : ProduceResponse) : list byte :=
  enc_i32 c ++ enc_array lay_produce_topic (prs_Topics r) ++ enc_i32 0.

Definition lay_commit_partition (p : OffsetCommitPartitionResponse) : list byte :=
  enc_i32 (ocpr_Partition p) ++ enc_i16 (ocpr_ErrorCode p).
Definition lay_commit_topic (t : OffsetCommitTopicResponse) : list byte :=
  enc_string (octr_TopicName t) ++ enc_array lay_commit_partition (octr_Partitions t).
Definition lay_commit (c : Z) (r : OffsetCommitResponse) : list byte :=
  enc_i32 c ++ enc_array lay_commit_topic (ocr_Topics r).

Definition lay_offset_fetch_partition (p : OffsetFetchPartitionResponse) : list byte :=
  enc_i32 (ofpr_Partition p) ++ enc_i64 (ofpr_CommittedOffset p) ++
  enc_string (ofpr_CommittedMetadata p) ++ enc_i16 (ofpr_ErrorCode p).
Definition lay_offset_fetch_topic (t : OffsetFetchTopicResponse) : list byte :=
  enc_string (oftr_TopicName t) ++ enc_array lay_offset_fetch_partition (oftr_Partitions t).
Definition lay_offset_fetch (c : Z) (r : OffsetFetchResponse) : list byte :=
  enc_i32 c ++ enc_array lay_offset_fetch_topic (ofr_Topics r).

Definition lay_list_offsets_partition (p : ListOffsetsPartitionResponse) : list byte :=
  enc_i32 (lopr_Partition p) ++ enc_i16 (lopr_ErrorCode p) ++ enc_i64 (lopr_Timestamp p) ++
  enc_i64 (lopr_Offset p).
Definition lay_list_offsets_topic (t : ListOffsetsTopicResponse) : list byte :=
  enc_string (lotr_TopicName t) ++ enc_array lay_list_offsets_partition (lotr_Partitions t).
Definition lay_list_offsets (c : Z) (r : ListOffsetsResponse) : list byte :=
  enc_i32 c ++ enc_array lay_list_offsets_topic (lor_Topics r).

Definition lay_api_version (v : apiVersion) : list byte :=
  enc_i16 (av_Key v) ++ enc_i16 (av_MinVersion v) ++ enc_i16 (av_MaxVersion v).
Definition lay_api_versions (c : Z) (vs : list apiVersion) : list byte :=
  enc_i32 c ++ enc_i16 ErrCodeNone ++ enc_array lay_api_version vs ++ enc_i32 0.

Definition lay_join_member (m : JoinGroupMember) : list byte :=
  enc_string (jgm_MemberID m) ++ enc_bytes (jgm_Metadata m).

(** ** Metadata, by version *)

Definition lay_when {A} (b : bool) (enc : A -> list byte) (x : A) : list byte :=
  if b then enc x else [].

Definition lay_broker (v : Z) (b : Broker) : list byte :=
  enc_i32 (br_NodeID b) ++ enc_string (br_Host b) ++ enc_i32 (br_Port b) ++
  lay_when (1 <=? v) enc_nullable (br_Rack b).
Definition lay_partition_metadata (v : Z) (p : PartitionMetadata) : list byte :=
  enc_i16 (pm_ErrorCode p) ++ enc_i32 (pm_Partition p) ++ enc_i32 (pm_Leader p) ++
  enc_array enc_i32 (pm_Replicas p) ++ enc_array enc_i32 (pm_Isr p) ++
  lay_when (5 <=? v) (enc_array enc_i32) (pm_OfflineReplicas p).
Definition lay_topic_metadata (v : Z) (t : TopicMetadata) : list byte :=
  enc_i16 (tm_ErrorCode t) ++ enc_string (tm_Name t) ++
  lay_when (1 <=? v) (fun b : bool => enc_i8 (if b then 1 else 0)) (tm_IsInternal t) ++
  enc_array (lay_partition_metadata v) (tm_Partitions t).
Definition lay_metadata (c v : Z) (r : MetadataResponse) : list byte :=
  enc_i32 c ++ lay_when (3 <=? v) enc_i32 0 ++
  enc_array (lay_broker v) (mrs_Brokers r) ++
  lay_when (2 <=? v) enc_nullable (mrs_ClusterID r) ++
  lay_when (1 <=? v) enc_i32 (mrs_ControllerID r) ++
  enc_array (lay_topic_metadata v) (mrs_Topics r).

(** ** The encoders emit the layouts *)

Lemma u32_i32 z : u32 (i32 z) = u32 z.
Proof. apply uwrap_swrap. Qed.

Lemma emit_count_range {A} (body : A -> Encoder -> Encoder) (enc : A -> list byte) xs e :
  (forall x e, body x e = emit (enc x) e) ->
  range_enc body xs (WriteInt32 (i32 (zlen xs)) e) = emit (enc_array enc xs) e.
Proof.
  intros Hb. rewrite (emit_range body enc) by done.
  by rewrite emit_WriteInt32, emit_emit, u32_i32.
Qed.

Lemma emit_nil e : emit [] e = e.
Proof. destruct e. unfold emit. simpl. by rewrite app_nil_r. Qed.

Lemma emit_when {A} (b : bool) (w : A -> Encoder -> Encoder) (enc : A -> list byte) x e :
  (forall e, w x e = emit (enc x) e) ->
  (if b then w x e else e) = emit (lay_when b enc x) e.
Proof. intros Hw. destruct b; simpl; [apply Hw|by rewrite emit_nil]. Qed.

(** Rewrites a straight-line encoder body into one [emit]. *)
Ltac emit_go := intros; autorewrite with emit; unfold enc_i8, enc_i16, enc_i32, enc_i64;
  rewrite <- ?app_assoc; reflexivity.

Lemma emit_produce c r e : EncodeProduceResponse c r e = emit (lay_produce c r) e.
Proof.
  unfold EncodeProduceResponse. cbv zeta.
  rewrite (emit_count_range _ lay_produce_topic); [emit_go|]. intros t e'.
  rewrite (emit_count_range _ lay_produce_partition) by emit_go. emit_go.
Qed.

Lemma emit_commit c r e : EncodeOffsetCommitResponse c r e = emit (lay_commit c r) e.
Proof.
  unfold EncodeOffsetCommitResponse. cbv zeta.
  rewrite (emit_count_range _ lay_commit_topic); [emit_go|]. intros t e'.
  rewrite (emit_count_range _ lay_commit_partition) by emit_go. emit_go.
Qed.

Lemma emit_offset_fetch c r e :
  EncodeOffsetFetchResponse c r e = emit (lay_offset_fetch c r) e.
Proof.
  unfold EncodeOffsetFetchResponse. cbv zeta.
  rewrite (emit_count_range _ lay_offset_fetch_topic); [emit_go|]. intros t e'.
  rewrite (emit_count_range _ lay_offset_fetch_partition) by emit_go. emit_go.
Qed.

Lemma emit_list_offsets c r e :
  EncodeListOffsetsResponse c r e = emit (lay_list_offsets c r) e.
Proof.
  unfold EncodeListOffsetsResponse. cbv zeta.
  rewrite (emit_count_range _ lay_list_offsets_topic); [emit_go|]. intros t e'.
  rewrite (emit_count_range _ lay_list_offsets_partition) by emit_go. emit_go.
Qed.

Lemma emit_api_versions c e :
  EncodeApiVersionsResponse c e = emit (lay_api_versions c supportedAPIVersions) e.
Proof.
  unfold EncodeApiVersionsResponse. cbv zeta.
  rewrite (emit_count_range _ lay_api_version) by emit_go. emit_go.
Qed.

Definition lay_find (c node : Z) (host : gostring) (port : Z) : list byte :=
  enc_i32 c ++ enc_i16 ErrCodeNone ++ enc_i32 node ++ enc_string host ++ enc_i32 port.

Lemma emit_find c node host port e :
  EncodeFindCoordinatorResponse c node host port e = emit (lay_find c node host port) e.
Proof. unfold EncodeFindCoordinatorResponse. cbv zeta. emit_go. Qed.

Definition lay_join (c gen : Z) (name leader member : gostring) (ms : list JoinGroupMember)
  : list byte :=
  enc_i32 c ++ enc_i16 ErrCodeNone ++ enc_i32 gen ++ enc_string name ++ enc_string leader ++
  enc_string member ++ enc_array lay_join_member ms.

Lemma emit_join c gen name leader member ms e :
  EncodeJoinGroupResponse c gen name leader member ms e =
  emit (lay_join c gen name leader member ms) e.
Proof.
  unfold EncodeJoinGroupResponse. cbv zeta.
  rewrite (emit_count_range _ lay_join_member); [emit_go|]. intros m e'.
  autorewrite with emit. rewrite u32_i32. unfold lay_join_member, enc_bytes.
  by rewrite <- ?app_assoc.
Qed.

Definition lay_sync (c : Z) (a : list byte) : list byte :=
  enc_i32 c ++ enc_i16 ErrCodeNone ++ enc_bytes a.

Lemma emit_sync c a e : EncodeSyncGroupResponse c a e = emit (lay_sync c a) e.
Proof.
  unfold EncodeSyncGroupResponse. cbv zeta. autorewrite with emit. rewrite u32_i32.
  unfold lay_sync, enc_bytes. by rewrite <- ?app_assoc.
Qed.

Definition lay_ack (c : Z) : list byte := enc_i32 c ++ enc_i16 ErrCodeNone.

Lemma emit_heartbeat c e : EncodeHeartbeatResponse c e = emit (lay_ack c) e.
Proof. unfold EncodeHeartbeatResponse. emit_go. Qed.
Lemma emit_leave c e : EncodeLeaveGroupResponse c e = emit (lay_ack c) e.
Proof. unfold EncodeLeaveGroupResponse. emit_go. Qed.

Lemma emit_broker v b e : encode_broker v b e = emit (lay_broker v b) e.
Proof.
  unfold encode_broker. cbv zeta.
  rewrite (emit_when _ WriteNullableString enc_nullable) by emit_go. emit_go.
Qed.

Lemma emit_ints xs e :
  range_enc WriteInt32 xs (WriteInt32 (i32 (zlen xs)) e) = emit (enc_array enc_i32 xs) e.
Proof. by apply emit_count_range. Qed.

Lemma emit_partition_metadata v p e :
  encode_partition_metadata v p e = emit (lay_partition_metadata v p) e.
Proof.
  unfold encode_partition_metadata. cbv zeta.
  rewrite (emit_when _ (fun xs e => range_enc WriteInt32 xs (WriteInt32 (i32 (zlen xs)) e))
             (enc_array enc_i32)) by (intros; apply emit_ints).
  rewrite !emit_ints. emit_go.
Qed.

Lemma emit_topic_metadata v t e :
  encode_topic_metadata v t e = emit (lay_topic_metadata v t) e.
Proof.
  unfold encode_topic_metadata. cbv zeta.
  rewrite (emit_count_range _ (lay_partition_metadata v)) by apply emit_partition_metadata.
  rewrite (emit_when _ (fun (b : bool) => WriteInt8 (if b then 1 else 0))
             (fun b : bool => enc_i8 (if b then 1 else 0))) by emit_go.
  emit_go.
Qed.

Lemma emit_metadata c v r e : EncodeMetadataResponse c v r e = emit (lay_metadata c v r) e.
Proof.
  unfold EncodeMetadataResponse. cbv zeta.
  rewrite (emit_count_range _ (lay_topic_metadata v)) by apply emit_topic_metadata.
  rewrite (emit_when _ WriteInt32 enc_i32) by emit_go.
  rewrite (emit_when _ WriteNullableString enc_nullable) by emit_go.
  rewrite (emit_count_range _ (lay_broker v)) by apply emit_broker.
  rewrite (emit_when _ WriteInt32 enc_i32) by emit_go.
  emit_go.
Qed.

(** ** A client's decoders *)

Definition read_list {A} (item : decoder A) : decoder (list A) :=
  n ← ReadInt32; _ ← make_cap n; read_array n (fun _ => item).

(** A field with a fixed value. *)
Definition expect (m : decoder Z) (v : Z) : decoder unit :=
  x ← m; if decide (x = v) then mret tt else dfail (Errorf "unexpected value %d" [DInt x]).

Definition read_nullable : decoder (option gostring) :=
  n ← ReadInt16; if n <? 0 then mret None else s ← ReadBytes n; mret (Some s).

Definition read_when {A} (b : bool) (m : decoder A) (default : A) : decoder A :=
  if b then m else mret default.

Definition dec_produce : decoder (Z * ProduceResponse) :=
  c ← ReadInt32;
  ts ← read_list (name ← ReadString;
    ps ← read_list (part ← ReadInt32; code ← ReadInt16; off ← ReadInt64;
      _ ← expect ReadInt64 (-1);
      mret {| ppr_BaseOffset := off; ppr_Partition := part; ppr_ErrorCode := code |});
    mret {| ptr_TopicName := name; ptr_Partitions := ps |});
  _ ← expect ReadInt32 0;
  mret (c, {| prs_Topics := ts |}).

Definition dec_commit : decoder (Z * OffsetCommitResponse) :=
  c ← ReadInt32;
  ts ← read_list (name ← ReadString;
    ps ← read_list (part ← ReadInt32; code ← ReadInt16;
      mret {| ocpr_Partition := part; ocpr_ErrorCode := code |});
    mret {| octr_TopicName := name; octr_Partitions := ps |});
  mret (c, {| ocr_Topics := ts |}).

Definition dec_offset_fetch : decoder (Z * OffsetFetchResponse) :=
  c ← ReadInt32;
  ts ← read_list (name ← ReadString;
    ps ← read_list (part ← ReadInt32; off ← ReadInt64; meta ← ReadString; code ← ReadInt16;
      mret {| ofpr_CommittedOffset := off; ofpr_CommittedMetadata := meta;
              ofpr_Partition := part; ofpr_ErrorCode := code |});
    mret {| oftr_TopicName := name; oftr_Partitions := ps |});
  mret (c, {| ofr_Topics := ts |}).

Definition dec_list_offsets : decoder (Z * ListOffsetsResponse) :=
  c ← ReadInt32;
  ts ← read_list (name ← ReadString;
    ps ← read_list (part ← ReadInt32; code ← ReadInt16; ts ← ReadInt64; off ← ReadInt64;
      mret {| lopr_Partition := part; lopr_ErrorCode := code; lopr_Timestamp := ts;
              lopr_Offset := off |});
    mret {| lotr_TopicName := name; lotr_Partitions := ps |});
  mret (c, {| lor_Topics := ts |}).

Definition dec_api_versions : decoder (Z * list apiVersion) :=
  c ← ReadInt32; _ ← expect ReadInt16 ErrCodeNone;
  vs ← read_list (k ← ReadInt16; lo ← ReadInt16; hi ← ReadInt16;
    mret {| av_Key := k; av_MinVersion := lo; av_MaxVersion := hi |});
  _ ← expect ReadInt32 0;
  mret (c, vs).

Definition dec_partition_metadata (v : Z) : decoder PartitionMetadata :=
  code ← ReadInt16; part ← ReadInt32; leader ← ReadInt32;
  reps ← read_list ReadInt32; isr ← read_list ReadInt32;
  off ← read_when (5 <=? v) (read_list ReadInt32) [];
  mret {| pm_Replicas := reps; pm_Isr := isr; pm_OfflineReplicas := off;
          pm_Partition := part; pm_Leader := leader; pm_ErrorCode := code |}.

Definition dec_metadata (v : Z) : decoder (Z * MetadataResponse) :=
  c ← ReadInt32;
  _ ← read_when (3 <=? v) (expect ReadInt32 0) tt;
  bs ← read_list (node ← ReadInt32; host ← ReadString; port ← ReadInt32;
    rack ← read_when (1 <=? v) read_nullable None;
    mret {| br_Host := host; br_Rack := rack; br_NodeID := node; br_Port := port |});
  cluster ← read_when (2 <=? v) read_nullable None;
  ctrl ← read_when (1 <=? v) ReadInt32 0;
  ts ← read_list (code ← ReadInt16; name ← ReadString;
    int ← read_when (1 <=? v) ReadBool false;
    ps ← read_list (dec_partition_metadata v);
    mret {| tm_Partitions := ps; tm_Name := name; tm_ErrorCode := code;
            tm_IsInternal := int |});
  mret (c, {| mrs_ClusterID := cluster; mrs_Brokers := bs; mrs_Topics := ts;
              mrs_ControllerID := ctrl |}).

(** What version [v] of the layout carries of a metadata response. *)
Definition view_broker (v : Z) (b : Broker) : Broker :=
  {| br_Host := br_Host b; br_Rack := if 1 <=? v then br_Rack b else None;
     br_NodeID := br_NodeID b; br_Port := br_Port b |}.
Definition view_partition (v : Z) (p : PartitionMetadata) : PartitionMetadata :=
  {| pm_Replicas := pm_Replicas p; pm_Isr := pm_Isr p;
     pm_OfflineReplicas := if 5 <=? v then pm_OfflineReplicas p else [];
     pm_Partition := pm_Partition p; pm_Leader := pm_Leader p;
     pm_ErrorCode := pm_ErrorCode p |}.
Definition view_topic (v : Z) (t : TopicMetadata) : TopicMetadata :=
  {| tm_Partitions := view_partition v <$> tm_Partitions t; tm_Name := tm_Name t;
     tm_ErrorCode := tm_ErrorCode t;
     tm_IsInternal := if 1 <=? v then tm_IsInternal t else false |}.
Definition view_metadata (v : Z) (r : MetadataResponse) : MetadataResponse :=
  {| mrs_ClusterID := if 2 <=? v then mrs_ClusterID r else None;
     mrs_Brokers := view_broker v <$> mrs_Brokers r;
     mrs_Topics := view_topic v <$> mrs_Topics r;
     mrs_ControllerID := if 1 <=? v then mrs_ControllerID r else 0 |}.

(** ** Responses whose fields fit the layout *)

Definition wf_produce_resp (r : ProduceResponse) : Prop :=
  counted (prs_Topics r) /\
  Forall (fun t => short (ptr_TopicName t) /\ counted (ptr_Partitions t) /\
    Forall (fun p => sfits 32 (ppr_Partition p) /\ sfits 16 (ppr_ErrorCode p) /\
                     sfits 64 (ppr_BaseOffset p)) (ptr_Partitions t)) (prs_Topics r).

Definition wf_commit_resp (r : OffsetCommitResponse) : Prop :=
  counted (ocr_Topics r) /\
  Forall (fun t => short (octr_TopicName t) /\ counted (octr_Partitions t) /\
    Forall (fun p => sfits 32 (ocpr_Partition p) /\ sfits 16 (ocpr_ErrorCode p))
      (octr_Partitions t)) (ocr_Topics r).

Definition wf_offset_fetch_resp (r : OffsetFetchResponse) : Prop :=
  counted (ofr_Topics r) /\
  Forall (fun t => short (oftr_TopicName t) /\ counted (oftr_Partitions t) /\
    Forall (fun p => sfits 32 (ofpr_Partition p) /\ sfits 64 (ofpr_CommittedOffset p) /\
                     short (ofpr_CommittedMetadata p) /\ sfits 16 (ofpr_ErrorCode p))
      (oftr_Partitions t)) (ofr_Topics r).

Definition wf_list_offsets_resp (r : ListOffsetsResponse) : Prop :=
  counted (lor_Topics r) /\
  Forall (fun t => short (lotr_TopicName t) /\ counted (lotr_Partitions t) /\
    Forall (fun p => sfits 32 (lopr_Partition p) /\ sfits 16 (lopr_ErrorCode p) /\
                     sfits 64 (lopr_Timestamp p) /\ sfits 64 (lopr_Offset p))
      (lotr_Partitions t)) (lor_Topics r).

Definition wf_partition_metadata (p : PartitionMetadata) : Prop :=
  sfits 16 (pm_ErrorCode p) /\ sfits 32 (pm_Partition p) /\ sfits 32 (pm_Leader p) /\
  counted (pm_Replicas p) /\ Forall (sfits 32) (pm_Replicas p) /\
  counted (pm_Isr p) /\ Forall (sfits 32) (pm_Isr p) /\
  counted (pm_OfflineReplicas p) /\ Forall (sfits 32) (pm_OfflineReplicas p).

Definition wf_broker (b : Broker) : Prop :=
  sfits 32 (br_NodeID b) /\ short (br_Host b) /\ sfits 32 (br_Port b) /\
  from_option short True (br_Rack b).

Definition wf_topic_metadata (t : TopicMetadata) : Prop :=
  sfits 16 (tm_ErrorCode t) /\ short (tm_Name t) /\ counted (tm_Partitions t) /\
  Forall wf_partition_metadata (tm_Partitions t).

Definition wf_metadata_resp (r : MetadataResponse) : Prop :=
  counted (mrs_Brokers r) /\ Forall wf_broker (mrs_Brokers r) /\
  from_option short True (mrs_ClusterID r) /\ sfits 32 (mrs_ControllerID r) /\
  counted (mrs_Topics r) /\ Forall wf_topic_metadata (mrs_Topics r).

(** ** Round trips *)

(** Lists, where the decoded element may be a view of the encoded one. *)
Lemma reads_loop_view {A B} (item : Z -> decoder B) (enc : A -> list byte) (f : A -> B) xs i :
  (forall j x, x ∈ xs -> reads (item j) (f x) (enc x)) ->
  reads (read_loop item (length xs) i) (f <$> xs) (concat (enc <$> xs)).
Proof.
  revert i. induction xs as [|x xs IH]; intros i Hx; simpl.
  - apply reads_ret.
  - eapply reads_bind; [apply Hx; set_solver|].
    rewrite <- (app_nil_r (concat _)).
    eapply reads_bind; [apply IH; set_solver|apply reads_ret].
Qed.

Lemma reads_list_view {A B} (item : decoder B) (enc : A -> list byte) (f : A -> B) xs :
  counted xs -> (forall x, x ∈ xs -> reads item (f x) (enc x)) ->
  reads (read_list item) (f <$> xs) (enc_array enc xs).
Proof.
  intros Hc Hx. unfold read_list, enc_array.
  eapply reads_bind; [by apply reads_ReadInt32, counted_fits|].
  eapply reads_skip; [apply reads_make_cap, zlen_nonneg|].
  unfold read_array, zlen. rewrite Nat2Z.id. apply reads_loop_view. auto.
Qed.

Lemma reads_list {A} (item : decoder A) (enc : A -> list byte) xs :
  counted xs -> (forall x, x ∈ xs -> reads item x (enc x)) ->
  reads (read_list item) xs (enc_array enc xs).
Proof. intros Hc Hx. rewrite <- (list_fmap_id xs) at 1. by apply reads_list_view. Qed.

Lemma reads_expect m v c : reads m v c -> reads (expect m v) tt c.
Proof.
  intros Hm. unfold expect. rewrite <- (app_nil_r c). eapply reads_bind; [done|].
  rewrite decide_True by done. apply reads_ret.
Qed.

Lemma reads_nullable s : from_option short True s -> reads read_nullable s (enc_nullable s).
Proof.
  unfold read_nullable, enc_nullable. destruct s as [s|]; simpl; intros Hs.
  - unfold short in Hs. pose proof (zlen_nonneg s). unfold enc_string.
    replace (i16 (zlen s)) with (zlen s) by (symmetry; apply swrap_id; fits).
    eapply reads_bind; [apply reads_ReadInt16; fits|].
    rewrite (proj2 (Z.ltb_ge _ _)) by done.
    eapply reads_bind_ret; [apply reads_ReadBytes|done].
  - rewrite <- (app_nil_r (be_put 2 _)).
    eapply reads_bind; [apply reads_ReadInt16; fits|apply reads_ret].
Qed.

Lemma reads_read_when {A} (b : bool) (m : decoder A) (x d : A) enc :
  reads m x (enc x) -> reads (read_when b m d) (if b then x else d) (lay_when b enc x).
Proof. destruct b; simpl; [done|intros; apply reads_ret]. Qed.

Lemma sfits_m1 : sfits 64 (-1).
Proof. fits. Qed.
Lemma sfits_32_0 : sfits 32 0.
Proof. fits. Qed.
Lemma sfits_16_0 : sfits 16 ErrCodeNone.
Proof. unfold ErrCodeNone. fits. Qed.

#[export] Hint Resolve sfits_m1 sfits_32_0 sfits_16_0 reads_expect reads_nullable
  reads_ReadBool reads_bind_ret : reads.

(** A struct rebuilt from its own fields. *)
Ltac rebuilt := first [reflexivity
  | lazymatch goal with
    | |- (_, ?x) = _ => destruct x; reflexivity
    | |- ?x = _ => destruct x; reflexivity
    end].

(** One step of a client decoder against its layout. *)
Ltac client_go :=
  cbv beta;
  lazymatch goal with
  | |- reads (_ ≫= _) _ (_ ++ _) => eapply reads_bind; [client_go|client_go]
  | |- reads (_ ≫= _) _ _ => eapply reads_bind_ret; [client_go|try rebuilt]
  | |- reads (read_list _) _ _ => apply reads_list; [assumption|]
  | |- reads (expect _ _) _ _ => apply reads_expect; client_go
  | |- reads (read_when _ _ _) _ _ => apply reads_read_when; client_go
  | |- _ => unfold enc_i16, enc_i32, enc_i64; eauto with reads
  end.

(** Introduces an element of a list together with its well-formedness. *)
Ltac client_elem :=
  let x := fresh "x" in let Hx := fresh "Hx" in
  intros x Hx;
  match goal with
  | H : Forall _ ?l, Hx : x ∈ ?l |- _ =>
      rewrite Forall_forall in H; apply H in Hx; clear H
  end; cbv beta in *; destruct_and?.

Lemma reads_dec_produce c r :
  sfits 32 c -> wf_produce_resp r -> reads dec_produce (c, r) (lay_produce c r).
Proof.
  intros Hc [Hn Ht]. unfold dec_produce, lay_produce. client_go.
  client_elem. unfold lay_produce_topic. client_go.
  client_elem. unfold lay_produce_partition. client_go.
Qed.

Lemma reads_dec_commit c r :
  sfits 32 c -> wf_commit_resp r -> reads dec_commit (c, r) (lay_commit c r).
Proof.
  intros Hc [Hn Ht]. unfold dec_commit, lay_commit. client_go.
  client_elem. unfold lay_commit_topic. client_go.
  client_elem. unfold lay_commit_partition. client_go.
Qed.

Lemma reads_dec_offset_fetch c r :
  sfits 32 c -> wf_offset_fetch_resp r ->
  reads dec_offset_fetch (c, r) (lay_offset_fetch c r).
Proof.
  intros Hc [Hn Ht]. unfold dec_offset_fetch, lay_offset_fetch. client_go.
  client_elem. unfold lay_offset_fetch_topic. client_go.
  client_elem. unfold lay_offset_fetch_partition. client_go.
Qed.

Lemma reads_dec_list_offsets c r :
  sfits 32 c -> wf_list_offsets_resp r ->
  reads dec_list_offsets (c, r) (lay_list_offsets c r).
Proof.
  intros Hc [Hn Ht]. unfold dec_list_offsets, lay_list_offsets. client_go.
  client_elem. unfold lay_list_offsets_topic. client_go.
  client_elem. unfold lay_list_offsets_partition. client_go.
Qed.

Lemma counted_supported : counted supportedAPIVersions.
Proof. by vm_compute. Qed.

Lemma supported_fit :
  Forall (fun v => sfits 16 (av_Key v) /\ sfits 16 (av_MinVersion v) /\
                   sfits 16 (av_MaxVersion v)) supportedAPIVersions.
Proof. by apply (bool_decide_unpack _); vm_compute. Qed.

Lemma reads_dec_api_versions c :
  sfits 32 c ->
  reads dec_api_versions (c, supportedAPIVersions) (lay_api_versions c supportedAPIVersions).
Proof.
  intros Hc. pose proof counted_supported as Hn. pose proof supported_fit as Ht.
  unfold dec_api_versions, lay_api_versions. client_go.
  client_elem. unfold lay_api_version. client_go.
Qed.

Lemma reads_ints xs :
  counted xs -> Forall (sfits 32) xs -> reads (read_list ReadInt32) xs (enc_array enc_i32 xs).
Proof.
  intros Hc Hx. apply reads_list; [done|]. rewrite Forall_forall in Hx.
  intros x Hin. by apply reads_ReadInt32, Hx.
Qed.

Lemma reads_dec_partition_metadata v p :
  wf_partition_metadata p ->
  reads (dec_partition_metadata v) (view_partition v p) (lay_partition_metadata v p).
Proof.
  intros H. unfold wf_partition_metadata in H. destruct_and?.
  unfold dec_partition_metadata, lay_partition_metadata.
  do 3 (eapply reads_bind; [client_go|]).
  do 2 (eapply reads_bind; [by apply reads_ints|]).
  eapply reads_bind_ret; [|reflexivity].
  apply reads_read_when. by apply reads_ints.
Qed.

Lemma reads_dec_metadata c v r :
  sfits 32 c -> wf_metadata_resp r ->
  reads (dec_metadata v) (c, view_metadata v r) (lay_metadata c v r).
Proof.
  intros Hc H. unfold wf_metadata_resp in H. destruct_and?.
  unfold dec_metadata, lay_metadata.
  eapply reads_bind; [client_go|]. eapply reads_bind.
  { instantiate (1 := tt). destruct (3 <=? v); simpl;
      [by apply reads_expect, reads_ReadInt32, sfits_32_0|apply reads_ret]. }
  eapply reads_bind.
  { apply (reads_list_view _ _ (view_broker v)); [done|]. client_elem.
    unfold wf_broker in *. destruct_and?. unfold lay_broker.
    do 3 (eapply reads_bind; [client_go|]).
    eapply reads_bind_ret; [by apply reads_read_when, reads_nullable|reflexivity]. }
  eapply reads_bind; [by apply reads_read_when, reads_nullable|].
  eapply reads_bind; [by apply reads_read_when, reads_ReadInt32|].
  eapply reads_bind_ret; [|reflexivity].
  apply (reads_list_view _ _ (view_topic v)); [done|]. client_elem.
  unfold wf_topic_metadata in *. destruct_and?. unfold lay_topic_metadata.
  do 2 (eapply reads_bind; [client_go|]).
  eapply reads_bind; [apply (reads_read_when (1 <=? v) ReadBool (tm_IsInternal _) false
    (fun b : bool => enc_i8 (if b then 1 else 0))), reads_ReadBool|].
  eapply reads_bind_ret; [|reflexivity].
  apply (reads_list_view _ _ (view_partition v)); [done|]. client_elem.
  by apply reads_dec_partition_metadata.
Qed.

(** ** All responses framed by [FullMessage] *)

#[global] Instance apiVersion_eq_dec : EqDecision apiVersion.
Proof. solve_decision. Defined.

Inductive Response :=
  | SProduce (r : ProduceResponse)
  | SListOffsets (r : ListOffsetsResponse)
  | SMetadata (version : Z) (r : MetadataResponse)
  | SOffsetCommit (r : OffsetCommitResponse)
  | SOffsetFetch (r : OffsetFetchResponse)
  | SFindCoordinator (nodeID : Z) (host : gostring) (port : Z)
  | SJoinGroup (generation : Z) (name leader member : gostring) (ms : list JoinGroupMember)
  | SHeartbeat
  | SLeaveGroup
  | SSyncGroup (assignment : list byte)
  | SApiVersions.

Definition encode_response (c : Z) (s : Response) : Encoder -> Encoder :=
  match s with
  | SProduce r => EncodeProduceResponse c r
  | SListOffsets r => EncodeListOffsetsResponse c r
  | SMetadata v r => EncodeMetadataResponse c v r
  | SOffsetCommit r => EncodeOffsetCommitResponse c r
  | SOffsetFetch r => EncodeOffsetFetchResponse c r
  | SFindCoordinator n h p => EncodeFindCoordinatorResponse c n h p
  | SJoinGroup g n l m ms => EncodeJoinGroupResponse c g n l m ms
  | SHeartbeat => EncodeHeartbeatResponse c
  | SLeaveGroup => EncodeLeaveGroupResponse c
  | SSyncGroup a => EncodeSyncGroupResponse c a
  | SApiVersions => EncodeApiVersionsResponse c
  end.

Definition wf_response (s : Response) : Prop :=
  match s with
  | SProduce r => wf_produce_resp r
  | SListOffsets r => wf_list_offsets_resp r
  | SMetadata v r => wf_metadata_resp r
  | SOffsetCommit r => wf_commit_resp r
  | SOffsetFetch r => wf_offset_fetch_resp r
  | SFindCoordinator n h p => sfits 32 n /\ short h /\ sfits 32 p
  | SJoinGroup g n l m ms => sfits 32 g /\ short n /\ short l /\ short m /\ counted ms /\
      Forall (fun m => short (jgm_MemberID m) /\ counted (jgm_Metadata m)) ms
  | SHeartbeat | SLeaveGroup | SApiVersions => True
  | SSyncGroup a => counted a
  end.

(** What a client that sent the matching request decodes. *)
Definition client_decode (s : Response) : decoder (Z * Response) :=
  match s with
  | SProduce _ => x ← dec_produce; mret (x.1, SProduce x.2)
  | SListOffsets _ => x ← dec_list_offsets; mret (x.1, SListOffsets x.2)
  | SMetadata v _ => x ← dec_metadata v; mret (x.1, SMetadata v x.2)
  | SOffsetCommit _ => x ← dec_commit; mret (x.1, SOffsetCommit x.2)
  | SOffsetFetch _ => x ← dec_offset_fetch; mret (x.1, SOffsetFetch x.2)
  | SFindCoordinator _ _ _ =>
      c ← ReadInt32; _ ← expect ReadInt16 ErrCodeNone; n ← ReadInt32; h ← ReadString;
      p ← ReadInt32; mret (c, SFindCoordinator n h p)
  | SJoinGroup _ _ _ _ _ =>
      c ← ReadInt32; _ ← expect ReadInt16 ErrCodeNone; g ← ReadInt32; n ← ReadString;
      l ← ReadString; m ← ReadString;
      ms ← read_list (i ← ReadString; k ← ReadInt32; b ← ReadBytes k;
        mret {| jgm_MemberID := i; jgm_Metadata := b |});
      mret (c, SJoinGroup g n l m ms)
  | SHeartbeat => c ← ReadInt32; _ ← expect ReadInt16 ErrCodeNone; mret (c, SHeartbeat)
  | SLeaveGroup => c ← ReadInt32; _ ← expect ReadInt16 ErrCodeNone; mret (c, SLeaveGroup)
  | SSyncGroup _ =>
      c ← ReadInt32; _ ← expect ReadInt16 ErrCodeNone; k ← ReadInt32; a ← ReadBytes k;
      mret (c, SSyncGroup a)
  | SApiVersions => x ← dec_api_versions;
      if decide (x.2 = supportedAPIVersions) then mret (x.1, SApiVersions)
      else dfail (Errorf "api versions" [])
  end.

Definition client_view (s : Response) : Response :=
  match s with SMetadata v r => SMetadata v (view_metadata v r) | _ => s end.

Lemma client_reads c s :
  sfits 32 c -> wf_response s ->
  exists lay, (forall e, encode_response c s e = emit lay e) /\
              reads (client_decode s) (c, client_view s) lay.
Proof.
  intros Hc Hs.
  destruct s; simpl in Hs; destruct_and?; eexists;
    (split; [intros e; simpl; eauto using emit_produce, emit_list_offsets, emit_metadata,
        emit_commit, emit_offset_fetch, emit_find, emit_join, emit_heartbeat, emit_leave,
        emit_sync, emit_api_versions|]); simpl;
    try (eapply reads_bind_ret; [eauto using reads_dec_produce, reads_dec_commit,
        reads_dec_offset_fetch, reads_dec_list_offsets, reads_dec_metadata|reflexivity]);
    unfold lay_find, lay_join, lay_ack, lay_sync, enc_bytes.
  - client_go.
  - client_go. client_elem. unfold lay_join_member, enc_bytes. client_go.
  - client_go.
  - client_go.
  - client_go.
  - rewrite <- (app_nil_r (lay_api_versions _ _)).
    eapply reads_bind; [by apply reads_dec_api_versions|].
    rewrite decide_True by done. apply reads_ret.
Qed.

(** A client reads the size prefix, then exactly that many bytes, and decodes
    them to their end. *)
Definition client_read_frame (s : Response) : decoder (Z * Response) :=
  n ← ReadInt32; payload ← ReadBytes n;
  match client_decode s (Rd payload EOF) with
  | (Ok x, Rd [] _) => mret x
  | _ => dfail (Errorf "bad frame" [])
  end.

(** C12: For every response the broker frames with [FullMessage]: a client that reads
    the size prefix and then that many bytes decodes the correlation id and the
    response the handler built, and is left at the end of the frame. *)
Theorem response_roundtrip (c : Z) (s : Response) :
  sfits 32 c -> wf_response s -> counted (buffer (encode_response c s NewEncoder)) ->
  reads (client_read_frame s) (c, client_view s)
    (FullMessage (encode_response c s NewEncoder)).
Proof.
  intros Hc Hs Hn. destruct (client_reads c s Hc Hs) as (lay & He & Hr).
  rewrite He in *. unfold FullMessage. rewrite buffer_emit in *. simpl in *.
  eapply reads_bind; [by apply reads_ReadInt32, counted_fits|].
  rewrite <- (app_nil_r lay) at 2.
  eapply reads_bind; [apply reads_ReadBytes|].
  rewrite <- (app_nil_r lay), Hr. apply reads_ret.
Qed.

(** ** The streamed fetch response *)

Definition batch_bytes (p : FetchPartitionResponse) : list byte :=
  match fpr_RecordBatch p with
  | Some r => if 0 <? fpr_BatchSize p then rd_data r else []
  | None => []
  end.

Definition lay_fetch_partition (p : FetchPartitionResponse) : list byte :=
  enc_i32 (fpr_Partition p) ++ enc_i16 (fpr_ErrorCode p) ++ enc_i64 (fpr_HighWatermark p) ++
  enc_i64 (fpr_HighWatermark p) ++ enc_i32 0 ++ enc_i32 (fpr_BatchSize p) ++ batch_bytes p.
Definition lay_fetch_topic (t : FetchTopicResponse) : list byte :=
  enc_string (ftr_TopicName t) ++ enc_array lay_fetch_partition (ftr_Partitions t).
Definition lay_fetch (c : Z) (r : FetchResponse) : list byte :=
  enc_i32 c ++ enc_i32 (frs_ThrottleTimeMs r) ++ enc_array lay_fetch_topic (frs_Topics r).

(** The declared batch size is what the reader delivers. *)
Definition consistent_partition (p : FetchPartitionResponse) : Prop :=
  0 < fpr_BatchSize p ->
  exists data, fpr_RecordBatch p = Some (Rd data EOF) /\ zlen data = fpr_BatchSize p.

Definition consistent (r : FetchResponse) : Prop :=
  Forall (fun t => Forall consistent_partition (ftr_Partitions t)) (frs_Topics r).

Definition partition_size (p : FetchPartitionResponse) : Z :=
  partitionFixedBytes + Z.max 0 (fpr_BatchSize p).
Definition sumZ {A} (f : A -> Z) (l : list A) : Z := foldr (fun x a => f x + a) 0 l.
Definition topic_size (t : FetchTopicResponse) : Z :=
  6 + zlen (ftr_TopicName t) + sumZ partition_size (ftr_Partitions t).

Lemma i32_add a b : i32 (i32 a + i32 b) = i32 (a + b).
Proof. unfold i32. by rewrite swrap_add_l, swrap_add_r. Qed.

Lemma fold_partition_sizes ps a :
  fold_left (fun total p =>
        let total := i32 (total + partitionFixedBytes) in
        if 0 <? fpr_BatchSize p then i32 (total + fpr_BatchSize p) else total) ps (i32 a) =
  i32 (a + sumZ partition_size ps).
Proof.
  revert a. induction ps as [|p ps IH]; intros a; simpl; [by rewrite Z.add_0_r|].
  unfold i32 in *. unfold partition_size at 1.
  destruct (Z.ltb_spec 0 (fpr_BatchSize p)).
  - rewrite swrap_add_l, <- Z.add_assoc, swrap_add_l, IH. f_equal. lia.
  - rewrite swrap_add_l, IH. f_equal. lia.
Qed.

(** The size computation is the true size modulo 2{^32}. *)
Lemma fetch_total_payload_eq r :
  fetch_total_payload r = i32 (12 + sumZ topic_size (frs_Topics r)).
Proof.
  unfold fetch_total_payload. generalize 12.
  induction (frs_Topics r) as [|t ts IH]; intros a; simpl; [by rewrite Z.add_0_r|].
  rewrite i32_add, fold_partition_sizes, IH. f_equal. unfold topic_size. lia.
Qed.

Lemma fetch_size_prefix_be z : fetch_size_prefix z = be_put 4 z.
Proof. by rewrite be_put_4. Qed.

Lemma batch_bytes_size p : consistent_partition p -> zlen (batch_bytes p) = Z.max 0 (fpr_BatchSize p).
Proof.
  unfold consistent_partition, batch_bytes. intros Hp.
  destruct (Z.ltb_spec 0 (fpr_BatchSize p)) as [H|H].
  - destruct (Hp H) as (data & -> & Hd). simpl. lia.
  - destruct (fpr_RecordBatch p); rewrite zlen_nil; lia.
Qed.

Lemma zlen_enc_array {A} (enc : A -> list byte) (f : A -> Z) xs :
  (forall x, x ∈ xs -> zlen (enc x) = f x) -> zlen (enc_array enc xs) = 4 + sumZ f xs.
Proof.
  intros Hx. unfold enc_array. rewrite zlen_app, zlen_be_put. f_equal.
  induction xs as [|x xs IH]; [done|]. rewrite fmap_cons. cbn [concat].
  rewrite zlen_app, Hx by set_solver. rewrite IH by set_solver. done.
Qed.

Lemma zlen_lay_fetch c r :
  consistent r -> zlen (lay_fetch c r) = 12 + sumZ topic_size (frs_Topics r).
Proof.
  unfold consistent, lay_fetch, enc_i32. intros Hr. autorewrite with zlen.
  rewrite (zlen_enc_array _ topic_size); [lia|]. intros t Ht.
  rewrite Forall_forall in Hr. specialize (Hr t Ht). unfold lay_fetch_topic, enc_string.
  autorewrite with zlen. rewrite (zlen_enc_array _ partition_size); [unfold topic_size; lia|].
  intros p Hp. rewrite Forall_forall in Hr. specialize (Hr p Hp).
  unfold lay_fetch_partition, enc_i16, enc_i32, enc_i64. autorewrite with zlen.
  rewrite batch_bytes_size by done. unfold partition_size, partitionFixedBytes. lia.
Qed.

(** Writes that the connection accepts in full. *)
Definition writes (m : st conn unit) (p : list byte) : Prop :=
  forall i o, m (Conn i o None) = (Ok tt, Conn i (o ++ p) None).

Lemma writes_bind m (k : unit -> st conn unit) p q :
  writes m p -> writes (k tt) q -> writes (m ≫= k) (p ++ q).
Proof. intros Hm Hk i o. unfold mbind, st_bind. by rewrite Hm, Hk, app_assoc. Qed.

Lemma writes_conn_Write p : writes (conn_Write p) p.
Proof. done. Qed.

Lemma writes_ret : writes (mret tt) [].
Proof. intros i o. by rewrite app_nil_r. Qed.

Lemma writes_range {A} (body : A -> st conn unit) (enc : A -> list byte) xs :
  (forall x, x ∈ xs -> writes (body x) (enc x)) ->
  writes (range_st body xs) (concat (enc <$> xs)).
Proof.
  induction xs as [|x xs IH]; intros Hx; simpl; [apply writes_ret|].
  apply writes_bind; [apply Hx; set_solver|apply IH; set_solver].
Qed.

(** A buffer written out, then the rest of the layout. *)
Lemma writes_then p q r (k : unit -> st conn unit) :
  r = p ++ q -> writes (k tt) q -> writes (conn_Write p ≫= k) r.
Proof. intros ->. by apply writes_bind. Qed.

Ltac layout_eq := cbn [buffer NewEncoder app]; rewrite ?u32_i32, <- ?app_assoc; reflexivity.

Lemma writes_fetch_partition p :
  consistent_partition p -> writes (write_fetch_partition p) (lay_fetch_partition p).
Proof.
  intros Hp. unfold write_fetch_partition. cbv zeta.
  autorewrite with emit. rewrite buffer_emit.
  apply (writes_then _ (batch_bytes p)); [layout_eq|].
  unfold batch_bytes, consistent_partition in *.
  destruct (fpr_RecordBatch p) as [r|]; [|apply writes_ret].
  destruct (Z.ltb_spec 0 (fpr_BatchSize p)) as [H|H]; [|apply writes_ret].
  destruct (Hp H) as (data & [= ->] & _).
  apply (writes_then _ []); [by rewrite app_nil_r|apply writes_ret].
Qed.

Lemma writes_fetch_topic t :
  Forall consistent_partition (ftr_Partitions t) ->
  writes (write_fetch_topic t) (lay_fetch_topic t).
Proof.
  intros Ht. unfold write_fetch_topic. cbv zeta.
  autorewrite with emit. rewrite buffer_emit.
  apply (writes_then _ (concat (lay_fetch_partition <$> ftr_Partitions t))); [layout_eq|].
  apply writes_range. rewrite Forall_forall in Ht.
  intros p Hp. by apply writes_fetch_partition, Ht.
Qed.

(** The frame of a fetch response: the computed size, then the layout. *)
Lemma writes_fetch_response c r :
  consistent r ->
  writes (WriteFetchResponse c r) (fetch_size_prefix (fetch_total_payload r) ++ lay_fetch c r).
Proof.
  intros Hr. unfold WriteFetchResponse. cbv zeta. apply (writes_then _ (lay_fetch c r)); [done|].
  autorewrite with emit. rewrite buffer_emit.
  apply (writes_then _ (concat (lay_fetch_topic <$> frs_Topics r))); [layout_eq|].
  apply writes_range. unfold consistent in Hr. rewrite Forall_forall in Hr.
  intros t Ht. by apply writes_fetch_topic, Hr.
Qed.

(** C33: [WriteFetchResponse] on a connection that accepts its writes, for a response
    whose batch sizes match its readers: the frame is the size prefix followed by
    the documented layout, and the prefix is the payload's exact length as long
    as that fits an [int32]. *)
Theorem fetch_response_frame (c : Z) (r : FetchResponse) (i : reader) (out : list byte) :
  consistent r -> zlen (lay_fetch c r) < 2 ^ 31 ->
  WriteFetchResponse c r (Conn i out None) =
    (Ok tt, Conn i (out ++ be_put 4 (u32 (zlen (lay_fetch c r))) ++ lay_fetch c r) None).
Proof.
  intros Hr Hn. pose proof (zlen_nonneg (lay_fetch c r)).
  assert (Hsz : fetch_total_payload r = zlen (lay_fetch c r)).
  { rewrite fetch_total_payload_eq, <- (zlen_lay_fetch c) by done. apply swrap_id; fits. }
  rewrite (writes_fetch_response c r Hr), Hsz, fetch_size_prefix_be. unfold u32.
  by rewrite uwrap_id by fits.
Qed.

(** ** Instances *)

Definition sample_produce_response : Response :=
  SProduce {| prs_Topics := [ {| ptr_TopicName := gos "sensor-data";
    ptr_Partitions := [ {| ppr_BaseOffset := 4096; ppr_Partition := 0; ppr_ErrorCode := 0 |} ] |} ] |}.

Lemma response_roundtrip_witness :
  reads (client_read_frame sample_produce_response) (7, client_view sample_produce_response)
    (FullMessage (encode_response 7 sample_produce_response NewEncoder)).
Proof.
  apply (response_roundtrip 7 sample_produce_response).
  - concrete.
  - simpl. unfold wf_produce_resp, counted. concrete.
  - unfold counted. concrete.
Defined.

Definition sample_fetch_response : FetchResponse :=
  {| frs_ThrottleTimeMs := 0; frs_Topics := [ {| ftr_TopicName := gos "t";
       ftr_Partitions := [ {| fpr_RecordBatch := Some (Rd (gos "batch") EOF);
                              fpr_HighWatermark := 9; fpr_BatchSize := 5; fpr_Partition := 0;
                              fpr_ErrorCode := 0 |};
                           {| fpr_RecordBatch := None; fpr_HighWatermark := 0; fpr_BatchSize := 0;
                              fpr_Partition := 1; fpr_ErrorCode := 1 |} ] |} ] |}.

Lemma fetch_response_frame_witness :
  WriteFetchResponse 3 sample_fetch_response (Conn (Rd [] EOF) [] None) =
    (Ok tt, Conn (Rd [] EOF) ([] ++ be_put 4 (u32 (zlen (lay_fetch 3 sample_fetch_response))) ++
                              lay_fetch 3 sample_fetch_response) None).
Proof.
  apply (fetch_response_frame 3 sample_fetch_response (Rd [] EOF) []).
  - repeat constructor; simpl; [exists (gos "batch"); done|unfold consistent_partition; simpl; lia].
  - concrete.
Defined.
