(* ===== verification/RecordBatch.v ===== *)
(** * Record batch validation

    Models src/internal/protocol/record_batch.go: the header offsets of a Kafka
    v2 record batch and [ValidateRecordBatch], with the CRC-32C of
    [hash/crc32] (table driven, Castagnoli polynomial) written out. The slice
    expression that selects the checksummed bytes is bounds-checked as in Go,
    so a length field below 9 is a panic and not an error. *)

From S2P Require Import Prelude GoIO.
From stdpp Require Import base tactics list numbers gmap strings.
From Stdlib Require Import ZArith Lia.
#[local] Open Scope Z_scope.

Definition rbOffsetBaseOffset : Z := 0.
Definition rbOffsetLength : Z := 8.
Definition rbOffsetMagic : Z := 16.
Definition rbOffsetCRC : Z := 17.
Definition rbOffsetCRCBody : Z := 21.
Definition rbOffsetRecordsCount : Z := 57.
Definition rbMinBytes : Z := 61.

(** ** [hash/crc32] *)

Definition Castagnoli : Z := 0x82F63B78.

Definition crc_shift (c : Z) : Z :=
  if Z.odd c then Z.lxor (Z.shiftr c 1) Castagnoli else Z.shiftr c 1.

(** [crc32.MakeTable]: eight shifts of each byte value. *)
Definition crc32cTable : list Z := (fun i => Nat.iter 8 crc_shift i) <$> seqZ 0 256.

(** [crc = tab[byte(crc)^v] ^ (crc >> 8)] *)
Definition crc_update (crc : Z) (v : byte) : Z :=
  Z.lxor (nth (Z.to_nat (Z.lxor (Z.land crc 255) (byteZ v))) crc32cTable 0)
         (Z.shiftr crc 8).

Definition Checksum (data : list byte) : Z :=
  Z.lxor (fold_left crc_update data 0xFFFFFFFF) 0xFFFFFFFF.

(** ** [ValidateRecordBatch] *)

(** [batch[i]] as an unsigned value; the callers check the length first. *)
Definition at_byte (i : Z) (batch : list byte) : Z :=
  byteZ (nth (Z.to_nat i) batch Byte.x00).

Definition Uint32_at (i : Z) (batch : list byte) : Z := be_get (slice i (i + 4) batch).

Definition ValidateRecordBatch (batch : list byte) : result Z :=
  if zlen batch <? rbMinBytes then
    Err (Errorf "record batch: too short (%d bytes, need at least %d)"
           [DInt (zlen batch); DInt rbMinBytes])
  else if negb (at_byte rbOffsetMagic batch =? 2) then
    Err (Wrapf "%w: got %d" [DInt (at_byte rbOffsetMagic batch)] ErrInvalidMagicByte)
  else
    let batchLength := Uint32_at rbOffsetLength batch in
    let expectedTotal := batchLength + 12 in
    if zlen batch <? expectedTotal then
      Err (Errorf "record batch: batch length field (%d) exceeds buffer size (%d)"
             [DInt expectedTotal; DInt (zlen batch)])
    else
      let storedCRC := Uint32_at rbOffsetCRC batch in
      (* batch[rbOffsetCRCBody:expectedTotal] *)
      if expectedTotal <? rbOffsetCRCBody then Panic SliceBounds
      else
        let computedCRC := Checksum (slice rbOffsetCRCBody expectedTotal batch) in
        if negb (storedCRC =? computedCRC) then
          Err (Wrapf "%w: stored=0x%08x computed=0x%08x" [DInt storedCRC; DInt computedCRC]
                 ErrCRCMismatch)
        else Ok (i32 (Uint32_at rbOffsetRecordsCount batch)).

(** The published check value of CRC-32C, and the checksum of no bytes. *)
Example crc32c_check_value : Checksum (gos "123456789") = 0xE3069283.
Proof. by vm_compute. Qed.
Example crc32c_empty : Checksum [] = 0.
Proof. by vm_compute. Qed.

(** ** What is accepted *)

(** The bytes the header declares, up to [Length]+12. *)
Definition declared_total (batch : list byte) : Z := Uint32_at 8 batch + 12.

(** A batch that the table at the top of record_batch.go describes: the fields
    at their documented offsets, and a declared length that reaches at least the
    end of the checksum field. *)
Definition valid_batch (batch : list byte) : Prop :=
  61 <= zlen batch /\
  at_byte 16 batch = 2 /\
  21 <= declared_total batch <= zlen batch /\
  Uint32_at 17 batch = Checksum (slice 21 (declared_total batch) batch).

#[global] Instance valid_batch_dec batch : Decision (valid_batch batch).
Proof. unfold valid_batch. apply _. Defined.

Lemma validate_accepts_fields (batch : list byte) (n : Z) :
  ValidateRecordBatch batch = Ok n <-> valid_batch batch /\ n = i32 (Uint32_at 57 batch).
Proof.
  unfold ValidateRecordBatch, valid_batch, declared_total. cbv zeta.
  change 61 with rbMinBytes. change 16 with rbOffsetMagic. change (Uint32_at 8 batch) with (Uint32_at rbOffsetLength batch).
  change 21 with rbOffsetCRCBody. change 17 with rbOffsetCRC. change 57 with rbOffsetRecordsCount.
  destruct (Z.ltb_spec (zlen batch) rbMinBytes); [intuition (lia || congruence)|].
  destruct (Z.eqb_spec (at_byte rbOffsetMagic batch) 2); cbn [negb]; [|intuition congruence].
  destruct (Z.ltb_spec (zlen batch) (Uint32_at rbOffsetLength batch + 12));
    [intuition (lia || congruence)|].
  destruct (Z.ltb_spec (Uint32_at rbOffsetLength batch + 12) rbOffsetCRCBody);
    [intuition (lia || congruence)|].
  destruct (Z.eqb_spec (Uint32_at rbOffsetCRC batch)
    (Checksum (slice rbOffsetCRCBody (Uint32_at rbOffsetLength batch + 12) batch)));
    cbn [negb]; intuition congruence.
Qed.

(** It panics on exactly the batches of full header size and right magic whose
    length field is below 9, the number of bytes between the length field and
    the checksummed body. *)
Theorem validate_panics_iff (batch : list byte) :
  ValidateRecordBatch batch = Panic SliceBounds <->
  rbMinBytes <= zlen batch /\ at_byte rbOffsetMagic batch = 2 /\
  Uint32_at rbOffsetLength batch < 9.
Proof.
  unfold ValidateRecordBatch, rbMinBytes, rbOffsetCRCBody in *. cbv zeta.
  destruct (Z.ltb_spec (zlen batch) 61); [intuition (lia || congruence)|].
  destruct (Z.eqb_spec (at_byte rbOffsetMagic batch) 2); cbn [negb]; [|intuition congruence].
  destruct (Z.ltb_spec (zlen batch) (Uint32_at rbOffsetLength batch + 12));
    [intuition (lia || congruence)|].
  destruct (Z.ltb_spec (Uint32_at rbOffsetLength batch + 12) 21);
    [intuition (lia || congruence)|].
  destruct (negb _); intuition (lia || congruence).
Qed.

(** ** The base offset is outside the checksum *)

Lemma at_byte_splice_before i new batch :
  zlen new <= i -> zlen new <= zlen batch ->
  at_byte i (splice 0 new batch) = at_byte i batch.
Proof.
  intros Hi Hn. unfold at_byte, splice, zlen in *. f_equal. simpl.
  rewrite app_nth2 by lia. rewrite nth_skipn. f_equal. lia.
Qed.

Lemma validate_splice_base (new batch : list byte) :
  zlen new = 8 -> rbMinBytes <= zlen batch ->
  ValidateRecordBatch (splice rbOffsetBaseOffset new batch) = ValidateRecordBatch batch.
Proof.
  intros Hn Hb. unfold rbOffsetBaseOffset, rbMinBytes in *.
  assert (Hs : forall lo hi, 8 <= lo ->
    slice lo hi (splice 0 new batch) = slice lo hi batch)
    by (intros; apply slice_splice_after; lia).
  unfold ValidateRecordBatch, Uint32_at, rbOffsetMagic, rbOffsetLength, rbOffsetCRC,
    rbOffsetCRCBody, rbOffsetRecordsCount.
  rewrite zlen_splice, at_byte_splice_before, !Hs by lia. done.
Qed.

(** Overwriting the eight base-offset bytes, as the fetch path does, changes
    nothing that validation looks at. *)
Theorem validate_ignores_base_offset (new batch : list byte) :
  zlen new = 8 -> rbMinBytes <= zlen batch ->
  ValidateRecordBatch (splice rbOffsetBaseOffset new batch) = ValidateRecordBatch batch.
Proof. apply validate_splice_base. Qed.

(** ** Single-byte corruption is detected *)

Definition crc_ok (c : Z) : Prop := 0 <= c < 2 ^ 32.

(** The high bytes of the table entries are pairwise distinct. *)
Lemma crc_table_high_inj :
  NoDup ((fun t => Z.shiftr t 24) <$> crc32cTable) /\
  Forall (fun t => 0 <= t < 2 ^ 32) crc32cTable.
Proof. split; apply (bool_decide_unpack _); by vm_compute. Qed.

Lemma length_crc_table : length crc32cTable = 256%nat.
Proof. by vm_compute. Qed.

Lemma crc_entry_lookup i :
  (i < 256)%nat -> crc32cTable !! i = Some (nth i crc32cTable 0).
Proof.
  intros Hi.
  destruct (lookup_lt_is_Some_2 crc32cTable i) as [x Hx]; [by rewrite length_crc_table|].
  by rewrite Hx, (nth_lookup_Some _ _ _ _ Hx).
Qed.

Lemma crc_entry_range i : 0 <= nth i crc32cTable 0 < 2 ^ 32.
Proof.
  destruct (decide (i < 256)%nat) as [H|H].
  - eapply (Forall_lookup_1 (fun t => 0 <= t < 2 ^ 32)); [apply crc_table_high_inj|].
    by apply crc_entry_lookup.
  - rewrite nth_overflow by (rewrite length_crc_table; lia). lia.
Qed.

Lemma crc_entry_high_inj i j :
  (i < 256)%nat -> (j < 256)%nat ->
  Z.shiftr (nth i crc32cTable 0) 24 = Z.shiftr (nth j crc32cTable 0) 24 -> i = j.
Proof.
  intros Hi Hj H. destruct crc_table_high_inj as [Hd _].
  assert (Hl : forall k, (k < 256)%nat ->
    ((fun t => Z.shiftr t 24) <$> crc32cTable) !! k = Some (Z.shiftr (nth k crc32cTable 0) 24)).
  { intros k Hk. by rewrite list_lookup_fmap, crc_entry_lookup. }
  eapply (NoDup_lookup _ i j); [exact Hd|by apply Hl|]. rewrite H. by apply Hl.
Qed.

Lemma land255 c : Z.land c 255 = c mod 256.
Proof. change 255 with (Z.ones 8). by rewrite Z.land_ones by lia. Qed.

Lemma lxor_bound n a b :
  0 <= n -> 0 <= a < 2 ^ n -> 0 <= b < 2 ^ n -> 0 <= Z.lxor a b < 2 ^ n.
Proof.
  intros Hn Ha Hb. split; [apply Z.lxor_nonneg; lia|].
  assert (E : Z.lxor a b = Z.lxor a b mod 2 ^ n).
  { apply Z.bits_inj'. intros k Hk. destruct (decide (k < n)).
    - by rewrite Z.mod_pow2_bits_low by lia.
    - rewrite Z.mod_pow2_bits_high, Z.lxor_spec by lia.
      rewrite <- (Z.mod_small a (2 ^ n)), <- (Z.mod_small b (2 ^ n)) by lia.
      by rewrite !Z.mod_pow2_bits_high by lia. }
  rewrite E. apply Z.mod_pos_bound. lia.
Qed.

(** The table index of a state and a byte. *)
Definition crc_index (c : Z) (v : byte) : nat :=
  Z.to_nat (Z.lxor (Z.land c 255) (byteZ v)).

Lemma crc_index_range c v : 0 <= Z.lxor (Z.land c 255) (byteZ v) < 256.
Proof.
  rewrite land255. apply (lxor_bound 8); [lia| |apply byteZ_range].
  apply Z.mod_pos_bound. lia.
Qed.

Lemma crc_update_ok c v : crc_ok c -> crc_ok (crc_update c v).
Proof.
  unfold crc_ok, crc_update. intros Hc. apply lxor_bound; [lia|apply crc_entry_range|].
  rewrite Z.shiftr_div_pow2 by lia. split; [apply Z.div_pos; lia|].
  apply Z.div_lt_upper_bound; lia.
Qed.

(** The high byte of the new state identifies the table entry. *)
Lemma crc_update_high c v :
  crc_ok c -> Z.shiftr (crc_update c v) 24 = Z.shiftr (nth (crc_index c v) crc32cTable 0) 24.
Proof.
  unfold crc_ok, crc_update. intros Hc. rewrite Z.shiftr_lxor, Z.shiftr_shiftr by lia.
  rewrite (Z.shiftr_div_pow2 c) by lia. rewrite (Z.div_small c) by (simpl; lia).
  apply Z.lxor_0_r.
Qed.

Lemma crc_update_same c1 c2 v1 v2 :
  crc_ok c1 -> crc_ok c2 -> crc_update c1 v1 = crc_update c2 v2 ->
  Z.lxor (Z.land c1 255) (byteZ v1) = Z.lxor (Z.land c2 255) (byteZ v2) /\
  Z.shiftr c1 8 = Z.shiftr c2 8.
Proof.
  intros H1 H2 H.
  assert (Hi : crc_index c1 v1 = crc_index c2 v2).
  { pose proof (crc_index_range c1 v1). pose proof (crc_index_range c2 v2).
    apply crc_entry_high_inj; [unfold crc_index; lia..|].
    by rewrite <- !crc_update_high, H. }
  split.
  - pose proof (crc_index_range c1 v1). pose proof (crc_index_range c2 v2).
    unfold crc_index in Hi. lia.
  - unfold crc_update in H. fold (crc_index c1 v1) (crc_index c2 v2) in H.
    rewrite Hi in H. apply (f_equal (Z.lxor (nth (crc_index c2 v2) crc32cTable 0))) in H.
    by rewrite <- !Z.lxor_assoc, Z.lxor_nilpotent, !Z.lxor_0_l in H.
Qed.

Lemma lxor_cancel_l a b c : Z.lxor a b = Z.lxor a c -> b = c.
Proof.
  intros H. apply (f_equal (Z.lxor a)) in H.
  by rewrite <- !Z.lxor_assoc, Z.lxor_nilpotent, !Z.lxor_0_l in H.
Qed.

Lemma lxor_cancel_r a b c : Z.lxor b a = Z.lxor c a -> b = c.
Proof. rewrite (Z.lxor_comm b), (Z.lxor_comm c). apply lxor_cancel_l. Qed.

Lemma crc_update_inj_state c1 c2 v :
  crc_ok c1 -> crc_ok c2 -> crc_update c1 v = crc_update c2 v -> c1 = c2.
Proof.
  intros H1 H2 H. apply crc_update_same in H as [Hl Hh]; [|done..].
  apply lxor_cancel_r in Hl. rewrite !land255 in Hl.
  rewrite !Z.shiftr_div_pow2 in Hh by lia. change (2 ^ 8) with 256 in Hh.
  rewrite (Z.div_mod c1 256), (Z.div_mod c2 256) by lia. congruence.
Qed.

Lemma crc_update_inj_byte c v1 v2 :
  crc_ok c -> crc_update c v1 = crc_update c v2 -> v1 = v2.
Proof.
  intros Hc H. apply crc_update_same in H as [Hl _]; [|done..].
  by apply lxor_cancel_l, byteZ_inj in Hl.
Qed.

Lemma crc_fold_ok l c : crc_ok c -> crc_ok (fold_left crc_update l c).
Proof. revert c. induction l; intros c Hc; simpl; [done|]. by apply IHl, crc_update_ok. Qed.

Lemma crc_fold_inj l c1 c2 :
  crc_ok c1 -> crc_ok c2 ->
  fold_left crc_update l c1 = fold_left crc_update l c2 -> c1 = c2.
Proof.
  revert c1 c2. induction l as [|v l IH]; intros c1 c2 H1 H2 H; simpl in *; [done|].
  apply IH in H; [|by apply crc_update_ok..]. by eapply crc_update_inj_state.
Qed.

Lemma Checksum_detects_byte l1 l2 v1 v2 :
  Checksum (l1 ++ v1 :: l2) = Checksum (l1 ++ v2 :: l2) -> v1 = v2.
Proof.
  unfold Checksum. intros H. apply lxor_cancel_r in H.
  rewrite !fold_left_app in H. simpl in H.
  assert (Hc : crc_ok (fold_left crc_update l1 0xFFFFFFFF))
    by (apply crc_fold_ok; unfold crc_ok; lia).
  apply crc_fold_inj in H; [|by apply crc_update_ok..].
  by eapply crc_update_inj_byte.
Qed.

Lemma at_byte_splice_after i j v batch :
  0 <= j < i -> i < zlen batch -> at_byte j (splice i [v] batch) = at_byte j batch.
Proof.
  intros Hj Hi. unfold at_byte, splice, zlen in *. f_equal.
  rewrite app_nth1 by (rewrite length_take; lia).
  rewrite <- (take_drop (Z.to_nat i) batch) at 2.
  by rewrite app_nth1 by (rewrite length_take; lia).
Qed.

(** A slice around one byte, before and after that byte is overwritten. *)
Lemma slice_splice_byte lo hi i v (l : list byte) :
  0 <= lo <= i -> i < hi -> hi <= zlen l ->
  exists l1 w l2, slice lo hi l = l1 ++ w :: l2 /\
    slice lo hi (splice i [v] l) = l1 ++ v :: l2 /\ w = nth (Z.to_nat i) l Byte.x00.
Proof.
  intros Hlo Hi Hhi.
  pose proof (slice_split i (i + 1) l ltac:(lia) ltac:(lia)) as E.
  pose proof (zlen_slice i (i + 1) l ltac:(lia) ltac:(lia)) as Hw.
  destruct (slice i (i + 1) l) as [|w [|]] eqn:Es; unfold zlen in Hw; simpl in Hw; try lia.
  set (a := take (Z.to_nat i) l) in *. set (b := drop (Z.to_nat (i + 1)) l) in *.
  assert (Ha : zlen a = i) by (apply zlen_take; lia).
  exists (drop (Z.to_nat lo) a), w, (take (Z.to_nat (hi - i - 1)) b).
  assert (Hsl : forall x, slice lo hi (a ++ [x] ++ b) =
    drop (Z.to_nat lo) a ++ x :: take (Z.to_nat (hi - i - 1)) b).
  { intros x. unfold slice. rewrite drop_app_le by (unfold zlen in Ha; lia).
    rewrite take_app_ge by (rewrite length_drop; unfold zlen in Ha; lia).
    rewrite length_drop. f_equal.
    replace (Z.to_nat (hi - lo) - (length a - Z.to_nat lo))%nat
      with (S (Z.to_nat (hi - i - 1))) by (unfold zlen in Ha; lia). done. }
  split_and!.
  - rewrite E. apply Hsl.
  - unfold splice. fold a. simpl length.
    replace (Z.to_nat i + 1)%nat with (Z.to_nat (i + 1)) by lia. apply Hsl.
  - rewrite E. rewrite app_nth2 by (unfold zlen in Ha; lia).
    replace (Z.to_nat i - length a)%nat with 0%nat by (unfold zlen in Ha; lia). done.
Qed.

(** C31: Overwriting any one byte of the checksummed body of a valid batch with a
    different value makes validation report a CRC mismatch. *)
Theorem validate_detects_corruption (batch : list byte) (i : Z) (v : byte) :
  valid_batch batch -> rbOffsetCRCBody <= i < declared_total batch ->
  v <> nth (Z.to_nat i) batch Byte.x00 ->
  exists e, ValidateRecordBatch (splice i [v] batch) = Err e /\
            errors_is e ErrCRCMismatch = true.
Proof.
  intros (Hl & Hm & Ht & Hc) Hi Hv.
  unfold declared_total, rbOffsetCRCBody in *.
  assert (Hsame : forall lo, 0 <= lo -> lo + 4 <= 21 ->
    Uint32_at lo (splice i [v] batch) = Uint32_at lo batch).
  { intros lo H0 H1. unfold Uint32_at. by rewrite slice_splice_before by lia. }
  destruct (slice_splice_byte 21 (Uint32_at 8 batch + 12) i v batch)
    as (l1 & w & l2 & E1 & E2 & ->); [lia..|].
  unfold ValidateRecordBatch, rbMinBytes, rbOffsetCRCBody, rbOffsetMagic, rbOffsetLength, rbOffsetCRC.
  rewrite zlen_splice by (rewrite ?zlen_cons, ?zlen_nil; lia).
  rewrite at_byte_splice_after by lia.
  rewrite !Hsame by lia. cbv zeta.
  rewrite (proj2 (Z.ltb_ge (zlen batch) 61)) by lia.
  rewrite (proj2 (Z.eqb_eq _ _) Hm).
  rewrite (proj2 (Z.ltb_ge (zlen batch) _)) by lia.
  rewrite (proj2 (Z.ltb_ge _ 21)) by lia. cbn [negb]. rewrite Hc, E1, E2.
  destruct (Z.eqb_spec (Checksum (l1 ++ nth (Z.to_nat i) batch Byte.x00 :: l2))
    (Checksum (l1 ++ v :: l2))) as [He|He].
  - apply Checksum_detects_byte in He. by subst.
  - cbn [negb]. eexists. split; [reflexivity|]. apply errors_is_wrap, errors_is_refl.
Qed.

(** ** The documented layout *)

(** The batches of the table in record_batch.go: base offset, length, partition
    leader epoch, the magic byte 2, the checksum and what it covers, in at least
    the 61 bytes of the header; [Length] counts the bytes after it up to the end
    of what is checksummed, which need not be all of the header. The record count
    is the 36th to 40th byte after the checksum. *)
Definition documented_batch (batch : list byte) (count : Z) : Prop :=
  exists base epoch body rest,
    batch = base ++ be_put 4 (9 + zlen body) ++ epoch ++ [Byte.x02] ++ be_put 4 (Checksum body) ++ body ++ rest /\
    zlen base = 8 /\ zlen epoch = 4 /\ 9 + zlen body < 2 ^ 32 /\ 61 <= zlen batch /\
    count = i32 (be_get (slice 36 40 (body ++ rest))).

Lemma Checksum_range data : 0 <= Checksum data < 2 ^ 32.
Proof. unfold Checksum. apply lxor_bound; [lia|apply crc_fold_ok; unfold crc_ok; lia|lia]. Qed.

Lemma slice_cat {A} lo mid hi (l : list A) :
  0 <= lo <= mid -> mid <= hi -> slice lo hi l = slice lo mid l ++ slice mid hi l.
Proof.
  intros H1 H2. unfold slice. replace (Z.to_nat (hi - lo)) with (Z.to_nat (mid - lo) + Z.to_nat (hi - mid))%nat by lia.
  rewrite <- (take_take_drop (drop (Z.to_nat lo) l) (Z.to_nat (mid - lo))), drop_drop. do 3 f_equal. lia.
Qed.

Lemma slice_byte i (l : list byte) : 0 <= i < zlen l -> slice i (i + 1) l = [nth (Z.to_nat i) l Byte.x00].
Proof.
  intros Hi. unfold slice. replace (Z.to_nat (i + 1 - i)) with 1%nat by lia.
  destruct (drop (Z.to_nat i) l) as [|x d] eqn:E; [apply (f_equal length) in E; rewrite length_drop in E; unfold zlen in Hi; cbn in E; lia|].
  rewrite <- (take_drop (Z.to_nat i) l), E. rewrite app_nth2; rewrite length_take; unfold zlen in Hi; [|lia].
  by replace (Z.to_nat i - _)%nat with 0%nat by lia.
Qed.

Lemma slice_slice {A} a b lo hi (l : list A) :
  0 <= a <= b -> 0 <= lo -> lo + b <= hi -> slice a b (slice lo hi l) = slice (lo + a) (lo + b) l.
Proof.
  intros. unfold slice. rewrite skipn_firstn_comm, take_take, drop_drop. f_equal; [lia|]. f_equal. lia.
Qed.

(** The field of four bytes after [pre]. *)
Lemma Uint32_at_put pre z post i : zlen pre = i -> 0 <= z < 2 ^ 32 -> Uint32_at i (pre ++ be_put 4 z ++ post) = z.
Proof.
  intros <- Hz. unfold Uint32_at. change 4 with (zlen (be_put 4 z)). rewrite slice_mid, be_get_put. apply Z.mod_small. done.
Qed.

Lemma Uint32_slice i (l : list byte) : 0 <= i -> i + 4 <= zlen l -> slice i (i + 4) l = be_put 4 (Uint32_at i l).
Proof.
  intros H0 H4. unfold Uint32_at. rewrite <- (be_put_get (slice i (i + 4) l)) at 1. f_equal.
  assert (E : zlen (slice i (i + 4) l) = 4) by (rewrite zlen_slice; lia). unfold zlen in E. lia.
Qed.

(** C30: [ValidateRecordBatch] accepts exactly the batches of the documented
    layout, with magic byte 2, a length field that ends inside the buffer and
    not before the checksummed part, and the CRC-32C of that part in its field;
    it returns the record count as a signed integer. *)
Theorem validate_accepts_iff (batch : list byte) (n : Z) :
  ValidateRecordBatch batch = Ok n <-> documented_batch batch n.
Proof.
  rewrite validate_accepts_fields. split.
  - intros [(Hl & Hm & Ht & Hc) ->]. unfold declared_total in *. set (total := Uint32_at 8 batch + 12) in *.
    assert (Hz : zlen (slice 21 total batch) = total - 21) by (apply zlen_slice; lia).
    assert (E : batch = slice 0 8 batch ++ slice 8 12 batch ++ slice 12 16 batch ++ slice 16 17 batch ++ slice 17 21 batch ++
      slice 21 total batch ++ slice total (zlen batch) batch).
    { rewrite <- (slice_full batch) at 1. rewrite <- !slice_cat by lia. done. }
    exists (slice 0 8 batch), (slice 12 16 batch), (slice 21 total batch), (slice total (zlen batch) batch). split_and!.
    + rewrite Hz, <- Hc. replace (9 + (total - 21)) with (Uint32_at 8 batch) by lia.
      rewrite <- !Uint32_slice by lia. rewrite E at 1. do 3 f_equal.
      rewrite (slice_byte 16) by lia. unfold at_byte in Hm. change 2 with (byteZ Byte.x02) in Hm.
      apply byteZ_inj in Hm. by rewrite <- Hm.
    + rewrite zlen_slice; lia.
    + rewrite zlen_slice; lia.
    + rewrite Hz. pose proof (be_get_range (slice 8 (8 + 4) batch)) as Hr. fold (Uint32_at 8 batch) in Hr.
      assert (E4 : zlen (slice 8 (8 + 4) batch) = 4) by (rewrite zlen_slice; lia). unfold zlen in E4.
      rewrite E4 in Hr. lia.
    + done.
    + f_equal. unfold Uint32_at. f_equal. rewrite <- slice_cat by lia. by rewrite slice_slice by lia.
  - intros (base & epoch & body & rest & -> & Hb & He & Hlen & Hl & ->).
    pose proof (zlen_nonneg body). pose proof (zlen_nonneg rest). pose proof (Checksum_range body) as Hck.
    set (batch := base ++ _) in *. pose proof (Uint32_at_put base (9 + zlen body) (epoch ++ [Byte.x02] ++
      be_put 4 (Checksum body) ++ body ++ rest) 8 Hb ltac:(lia)) as E8. fold batch in E8.
    assert (Hpre : zlen (base ++ be_put 4 (9 + zlen body) ++ epoch ++ [Byte.x02]) = 17) by zlen_lia.
    pose proof (Uint32_at_put _ (Checksum body) (body ++ rest) 17 Hpre Hck) as E17.
    rewrite <- !app_assoc in E17. fold batch in E17.
    assert (E21 : forall lo hi, 21 <= lo -> slice lo hi batch = slice (lo - 21) (hi - 21) (body ++ rest)).
    { intros lo hi Hlo. unfold batch. rewrite !app_assoc, <- (app_assoc _ body rest).
      rewrite slice_app_r by zlen_lia. f_equal; zlen_lia. }
    assert (Hz : zlen batch = 21 + zlen body + zlen rest) by (unfold batch; zlen_lia).
    unfold valid_batch, declared_total. rewrite E8, E17, E21 by lia. replace (9 + zlen body + 12 - 21) with (zlen body) by lia.
    rewrite Z.sub_diag, slice_app_l, slice_full by lia. split_and!; try lia.
    + set (pre := base ++ be_put 4 (9 + zlen body) ++ epoch).
      assert (Eb : batch = pre ++ Byte.x02 :: be_put 4 (Checksum body) ++ body ++ rest)
        by (unfold batch, pre; by rewrite <- !app_assoc).
      assert (H16 : zlen pre = 16) by (unfold pre; zlen_lia). clearbody pre. unfold zlen in H16.
      unfold at_byte. rewrite Eb, app_nth2 by lia.
      by replace (Z.to_nat 16 - length pre)%nat with 0%nat by lia.
    + unfold Uint32_at. by rewrite E21 by lia.
Qed.


(** ** Instances *)

(** A batch around the 40 bytes from the attributes to the record count, and
    the records. *)
Definition make_batch (base : Z) (body : list byte) : list byte :=
  be_put 8 base ++ be_put 4 (9 + zlen body) ++ be_put 4 0 ++ be_put 1 2 ++
  be_put 4 (Checksum body) ++ body.

Definition sample_body : list byte := replicate 36 Byte.x00 ++ be_put 4 2 ++ gos "records".
Definition sample_batch : list byte := make_batch 0 sample_body.

Lemma validate_ignores_base_offset_witness :
  zlen (be_put 8 77) = 8 /\
  ValidateRecordBatch (splice rbOffsetBaseOffset (be_put 8 77) sample_batch) =
  ValidateRecordBatch sample_batch.
Proof.
  split; [done|]. apply (validate_ignores_base_offset (be_put 8 77) sample_batch); concrete.
Defined.

Lemma validate_detects_corruption_witness :
  exists e, ValidateRecordBatch (splice 61 [Byte.x41] sample_batch) = Err e /\
            errors_is e ErrCRCMismatch = true.
Proof.
  apply (validate_detects_corruption sample_batch 61 Byte.x41).
  - concrete.
  - concrete.
  - by vm_compute.
Defined.
