(* ===== verification/GoStrings.v ===== *)
(** * Strings, numbers and paths of the Go standard library

    What the storage layer uses of [fmt] ([%d], [%020d]), [strconv]
    ([ParseInt] in base 10), [strings] ([HasSuffix], [TrimSuffix]) and
    [path/filepath] ([Clean], [Join], [Base] on Unix), on byte strings. *)

From S2P Require Import Prelude GoIO.
From stdpp Require Import base tactics list numbers gmap strings.
From Stdlib Require Import ZArith Lia.
#[local] Open Scope Z_scope.

(** ** Decimal numbers *)

Definition digit (d : Z) : byte := Zbyte (48 + d).
Definition is_digit (b : byte) : bool := (48 <=? byteZ b) && (byteZ b <=? 57).

(** The decimal digits of [n >= 0]; [fuel] is at least their number. *)
Fixpoint digits_aux (fuel : nat) (n : Z) (acc : gostring) : gostring :=
  match fuel with
  | O => acc
  | S k =>
      let acc := digit (n mod 10) :: acc in
      if n <? 10 then acc else digits_aux k (n / 10) acc
  end.

Definition digits (n : Z) : gostring := digits_aux (S (Z.to_nat (Z.log2 n))) n [].

(** [%d] *)
Definition fmt_d (n : Z) : gostring :=
  if n <? 0 then gos "-" ++ digits (- n) else digits n.

(** [%020d] of an unsigned number. *)
Definition fmt_020d (n : Z) : gostring :=
  let ds := digits n in replicate (20 - length ds) (digit 0) ++ ds.

(** The value of a digit string. *)
Definition undigits (s : gostring) : Z :=
  fold_left (fun acc b => acc * 10 + (byteZ b - 48)) s 0.

(** [strconv.ParseInt(s, 10, bits)]: an optional sign and digits, in range;
    [None] stands for its error. *)
Definition ParseInt (s : gostring) (bits : Z) : option Z :=
  let '(neg, ds) :=
    match s with
    | b :: s' => if byteZ b =? 45 then (true, s') else if byteZ b =? 43 then (false, s')
                 else (false, s)
    | [] => (false, [])
    end in
  if bool_decide (ds = []) || negb (forallb is_digit ds) then None
  else
    let v := if neg : bool then - undigits ds else undigits ds in
    if (- 2 ^ (bits - 1) <=? v) && (v <? 2 ^ (bits - 1)) then Some v else None.

(** ** Suffixes *)

Definition HasSuffix (s suffix : gostring) : bool :=
  bool_decide (suffix `suffix_of` s).

Definition TrimSuffix (s suffix : gostring) : gostring :=
  if HasSuffix s suffix then take (length s - length suffix) s else s.

(** ** Paths *)

Definition slash : byte := Byte.x2f.
Definition dot : gostring := gos ".".
Definition dotdot : gostring := gos "..".

(** The elements between separators; empty ones included. *)
Fixpoint split_slash (s : gostring) : list gostring :=
  match s with
  | [] => [[]]
  | b :: s' =>
      if decide (b = slash) then [] :: split_slash s'
      else match split_slash s' with
           | [] => [[b]]
           | c :: cs => (b :: c) :: cs
           end
  end.

Definition join_slash (cs : list gostring) : gostring :=
  match cs with
  | [] => []
  | c :: cs => c ++ concat ((fun c => slash :: c) <$> cs)
  end.

(** One element of [filepath.Clean]: empty and [.] elements vanish, [..]
    removes the element before it where there is one. *)
Definition clean_step (rooted : bool) (out : list gostring) (c : gostring) : list gostring :=
  if decide (c = []) then out
  else if decide (c = dot) then out
  else if decide (c = dotdot) then
    match last out with
    | None => if rooted then [] else [dotdot]
    | Some l => if decide (l = dotdot) then out ++ [dotdot] else removelast out
    end
  else out ++ [c].

Definition is_rooted (s : gostring) : bool :=
  match s with b :: _ => bool_decide (b = slash) | [] => false end.

Definition clean_elems (s : gostring) : list gostring :=
  fold_left (clean_step (is_rooted s)) (split_slash s) [].

Definition Clean (s : gostring) : gostring :=
  if decide (s = []) then dot
  else if is_rooted s then slash :: join_slash (clean_elems s)
  else match clean_elems s with [] => dot | cs => join_slash cs end.

(** [filepath.Join(a, b)] *)
Definition Join (a b : gostring) : gostring :=
  if decide (a = []) then (if decide (b = []) then [] else Clean b)
  else Clean (a ++ slash :: b).

(** [filepath.Base] *)
Definition Base (s : gostring) : gostring :=
  if decide (s = []) then dot
  else match last (filter (fun c => c <> []) (split_slash s)) with
       | Some c => c
       | None => [slash]
       end.

(** The directory the kernel looks a path up in: everything before the last
    separator. *)
Definition parent (s : gostring) : gostring :=
  match removelast (split_slash s) with
  | [] => dot
  | [[]] => [slash]
  | cs => join_slash cs
  end.

Example Clean_ex :
  Clean (gos "/data/../x//./y/..") = gos "/x" /\ Join (gos "/data") (gos "../x-0") = gos "/x-0" /\
  Base (gos "/data/a-0") = gos "a-0" /\ parent (gos "/data/a-0") = gos "/data" /\
  Clean (gos "a/../../b") = gos "../b".
Proof. by vm_compute. Qed.

Example fmt_ex :
  fmt_d (-105) = gos "-105" /\ fmt_020d 4096 = gos "00000000000000004096" /\
  ParseInt (gos "-12") 32 = Some (-12) /\ ParseInt (gos "2147483648") 32 = None /\
  fmt_d 0 = gos "0" /\ ParseInt (gos "") 64 = None.
Proof. by vm_compute. Qed.

(** ** Digits denote their number *)

Lemma byteZ_digit d : 0 <= d < 10 -> byteZ (digit d) = 48 + d.
Proof. intros. unfold digit. rewrite byteZ_Zbyte. apply Z.mod_small. lia. Qed.

Lemma is_digit_digit d : 0 <= d < 10 -> is_digit (digit d) = true.
Proof.
  intros. unfold is_digit. rewrite byteZ_digit by done.
  apply andb_true_intro. split; apply Z.leb_le; lia.
Qed.

Lemma undigits_acc s a :
  fold_left (fun acc b => acc * 10 + (byteZ b - 48)) s a =
  a * 10 ^ Z.of_nat (length s) + undigits s.
Proof.
  unfold undigits. revert a. induction s as [|b s IH]; intros a; [simpl; lia|].
  cbn [fold_left length]. rewrite IH, (IH (0 * 10 + _)).
  rewrite Nat2Z.inj_succ, Z.pow_succ_r by lia. lia.
Qed.

Lemma undigits_cons b s :
  undigits (b :: s) = (byteZ b - 48) * 10 ^ Z.of_nat (length s) + undigits s.
Proof. unfold undigits at 1. cbn [fold_left]. rewrite undigits_acc. lia. Qed.

Lemma undigits_zeros n s : undigits (replicate n (digit 0) ++ s) = undigits s.
Proof.
  induction n as [|n IH]; simpl; [done|]. rewrite undigits_cons, byteZ_digit, IH by lia. lia.
Qed.

Lemma digits_aux_spec fuel n acc :
  0 <= n < 2 ^ Z.of_nat fuel -> forallb is_digit acc = true ->
  undigits (digits_aux fuel n acc) = n * 10 ^ Z.of_nat (length acc) + undigits acc /\
  forallb is_digit (digits_aux fuel n acc) = true /\
  (fuel <> 0%nat \/ acc <> [] -> digits_aux fuel n acc <> []).
Proof.
  revert n acc. induction fuel as [|k IH]; intros n acc Hn Ha.
  - simpl in *. split_and!; [lia|done|by intros [?|?]].
  - cbn [digits_aux]. cbv zeta.
    pose proof (Z.mod_pos_bound n 10 ltac:(lia)).
    assert (Hd : forallb is_digit (digit (n mod 10) :: acc) = true)
      by (simpl; by rewrite is_digit_digit by lia).
    destruct (Z.ltb_spec n 10) as [Hs|Hs].
    + split_and!; [|done|done]. rewrite Z.mod_small by lia.
      rewrite undigits_cons, byteZ_digit by lia. lia.
    + destruct (IH (n / 10) (digit (n mod 10) :: acc)) as (E & D & N).
      { rewrite Nat2Z.inj_succ, Z.pow_succ_r in Hn by lia.
        pose proof (Z.div_mod n 10 ltac:(lia)). lia. }
      { done. }
      split_and!; [|done|intros _; apply N; by right].
      rewrite E, undigits_cons, byteZ_digit by lia. cbn [length].
      rewrite Nat2Z.inj_succ, Z.pow_succ_r by lia.
      rewrite (Z.div_mod n 10) at 3 by lia. lia.
Qed.

Lemma digits_spec n :
  0 <= n ->
  undigits (digits n) = n /\ forallb is_digit (digits n) = true /\ digits n <> [].
Proof.
  intros Hn. unfold digits.
  destruct (digits_aux_spec (S (Z.to_nat (Z.log2 n))) n []) as (E & D & N).
  - split; [done|]. rewrite Nat2Z.inj_succ, Z2Nat.id by apply Z.log2_nonneg.
    destruct (decide (n = 0)) as [->|]; [done|]. apply Z.log2_spec. lia.
  - done.
  - split_and!; [|done|apply N; by left]. rewrite E. unfold undigits. simpl. lia.
Qed.

Lemma digits_inj m n : 0 <= m -> 0 <= n -> digits m = digits n -> m = n.
Proof.
  intros Hm Hn H. rewrite <- (proj1 (digits_spec m Hm)), <- (proj1 (digits_spec n Hn)).
  by rewrite H.
Qed.

Lemma fmt_020d_inj m n : 0 <= m -> 0 <= n -> fmt_020d m = fmt_020d n -> m = n.
Proof.
  intros Hm Hn H. apply (f_equal undigits) in H. unfold fmt_020d in H.
  rewrite !undigits_zeros in H.
  by rewrite (proj1 (digits_spec m Hm)), (proj1 (digits_spec n Hn)) in H.
Qed.

Lemma fmt_020d_digits n : 0 <= n -> forallb is_digit (fmt_020d n) = true /\ fmt_020d n <> [].
Proof.
  intros Hn. destruct (digits_spec n Hn) as (_ & D & N). unfold fmt_020d. split.
  - rewrite forallb_app, D, andb_true_r. generalize (20 - length (digits n))%nat.
    intros k. induction k; [done|]. cbn [replicate forallb]. by rewrite is_digit_digit by lia.
  - intros [_ ?]%app_nil. done.
Qed.

Lemma digits_head_not_sign n b s :
  0 <= n -> digits n = b :: s -> byteZ b <> 45 /\ byteZ b <> 43.
Proof.
  intros Hn E. destruct (digits_spec n Hn) as (_ & D & _). rewrite E in D. simpl in D.
  apply andb_prop in D as [D _]. unfold is_digit in D. apply andb_prop in D as [D _].
  apply Z.leb_le in D. lia.
Qed.

(** [ParseInt] reads back what [%d] prints. *)
Lemma ParseInt_digits n bits :
  0 <= n < 2 ^ (bits - 1) -> ParseInt (digits n) bits = Some n.
Proof.
  intros Hn. destruct (digits_spec n) as (U & D & N); [lia|].
  unfold ParseInt. destruct (digits n) as [|b s] eqn:E; [done|].
  destruct (digits_head_not_sign n b s) as [H1 H2]; [lia|done|].
  rewrite (proj2 (Z.eqb_neq _ _) H1), (proj2 (Z.eqb_neq _ _) H2).
  rewrite D, U. simpl.
  rewrite (proj2 (Z.leb_le _ _)), (proj2 (Z.ltb_lt _ _)) by lia. done.
Qed.

Lemma fmt_d_nonneg n : 0 <= n -> fmt_d n = digits n.
Proof. intros. unfold fmt_d. by rewrite (proj2 (Z.ltb_ge n 0)) by lia. Qed.

(** ** Joining a directory and a plain name *)

(** A name that is one path element. *)
Definition simple_name (s : gostring) : Prop :=
  s <> [] /\ s <> dot /\ s <> dotdot /\ slash ∉ s.

#[global] Instance simple_name_dec s : Decision (simple_name s).
Proof. unfold simple_name. apply _. Defined.

Lemma split_slash_nonempty s : split_slash s <> [].
Proof.
  induction s as [|b s IH]; simpl; [done|]. case_decide; [done|].
  by destruct (split_slash s).
Qed.

Lemma split_slash_app a b : split_slash (a ++ slash :: b) = split_slash a ++ split_slash b.
Proof.
  induction a as [|x a IH]; simpl.
  - done.
  - case_decide; [by rewrite IH|]. rewrite IH.
    pose proof (split_slash_nonempty a). by destruct (split_slash a).
Qed.

Lemma split_slash_simple s : slash ∉ s -> split_slash s = [s].
Proof.
  induction s as [|b s IH]; simpl; [done|]. intros Hs.
  rewrite decide_False by set_solver. by rewrite IH by set_solver.
Qed.

Lemma clean_step_simple r out c : simple_name c -> clean_step r out c = out ++ [c].
Proof. intros (? & ? & ? & _). unfold clean_step. by repeat rewrite decide_False by done. Qed.

(** What [Join] puts in front of a plain name; it depends on the directory
    only. *)
Definition dir_prefix (dir : gostring) : gostring :=
  if decide (dir = []) then []
  else (if is_rooted dir then [slash] else []) ++
       concat ((fun c => c ++ [slash]) <$> clean_elems dir).

Lemma join_slash_snoc cs c :
  join_slash (cs ++ [c]) = concat ((fun c => c ++ [slash]) <$> cs) ++ c.
Proof.
  destruct cs as [|c0 cs]; [apply app_nil_r|]. rewrite <- app_comm_cons.
  unfold join_slash. revert c0.
  induction cs as [|c1 cs IH]; intros c0.
  - simpl. rewrite !app_nil_r, <- !app_assoc. done.
  - rewrite <- app_comm_cons, !fmap_cons in *. cbn [concat].
    rewrite <- !app_assoc. f_equal. rewrite <- app_comm_cons, IH, fmap_cons. cbn [concat]. by rewrite <- !app_assoc.
Qed.

Lemma Join_simple dir name :
  simple_name name -> Join dir name = dir_prefix dir ++ name.
Proof.
  intros Hn. pose proof Hn as (H0 & _ & _ & Hs).
  assert (Hc : forall r out, fold_left (clean_step r) (split_slash name) out = out ++ [name]).
  { intros. rewrite split_slash_simple by done. simpl. by apply clean_step_simple. }
  unfold Join, dir_prefix, Clean. destruct (decide (dir = [])) as [->|Hd].
  - rewrite decide_False by done. rewrite decide_False by done.
    assert (is_rooted name = false) as Hr.
    { destruct name as [|b s]; [done|]. simpl. apply bool_decide_eq_false. set_solver. }
    unfold clean_elems. rewrite Hr, Hc. simpl. by rewrite app_nil_r.
  - rewrite decide_False by (by destruct dir).
    assert (is_rooted (dir ++ slash :: name) = is_rooted dir) as ->
      by (by destruct dir).
    unfold clean_elems.
    assert (is_rooted (dir ++ slash :: name) = is_rooted dir) as ->
      by (by destruct dir).
    rewrite split_slash_app, fold_left_app, Hc.
    destruct (is_rooted dir).
    + by rewrite join_slash_snoc, <- app_assoc.
    + rewrite app_nil_l, <- join_slash_snoc.
      by destruct (fold_left _ _ []).
Qed.

Lemma Join_inj dir n1 n2 :
  simple_name n1 -> simple_name n2 -> Join dir n1 = Join dir n2 -> n1 = n2.
Proof. intros H1 H2. rewrite !Join_simple by done. apply app_inv_head. Qed.

Lemma digits_no_slash s : forallb is_digit s = true -> slash ∉ s.
Proof.
  induction s as [|b s IH]; simpl; [set_solver|]. intros [Hb Hs]%andb_true_iff.
  assert (b <> slash) by (intros ->; vm_compute in Hb; done). set_solver.
Qed.

(** The names of segment files are plain. *)
Lemma simple_fmt_020d n suffix :
  0 <= n -> slash ∉ suffix -> simple_name (fmt_020d n ++ suffix).
Proof.
  intros Hn Hs. destruct (fmt_020d_digits n Hn) as [Hd Hne].
  pose proof (digits_no_slash _ Hd). destruct (fmt_020d n) as [|b s]; [done|].
  simpl in Hd. apply andb_true_iff in Hd as [Hb _].
  assert (b <> Byte.x2e) by (intros ->; vm_compute in Hb; done).
  rewrite <- app_comm_cons. unfold simple_name.
  change dot with [Byte.x2e]. change dotdot with [Byte.x2e; Byte.x2e].
  split_and!; [done|congruence..|].
  rewrite app_comm_cons. set_solver.
Qed.

(** ** The directory of a joined path *)

Lemma split_slash_no_slash s : Forall (fun c => slash ∉ c) (split_slash s).
Proof.
  induction s as [|b s IH]; simpl; [constructor; set_solver|].
  case_decide; [constructor; set_solver|].
  destruct (split_slash s) as [|c cs]; [repeat constructor; set_solver|].
  inversion IH; subst. constructor; set_solver.
Qed.

(** The elements of a cleaned path are not empty and have no separator. *)
Definition elem (c : gostring) : Prop := c <> [] /\ slash ∉ c.

Lemma clean_step_elems r out c :
  Forall elem out -> slash ∉ c -> Forall elem (clean_step r out c).
Proof.
  intros Ho Hc. assert (Hd : elem dotdot) by (vm_compute; set_solver).
  unfold clean_step. case_decide as H0; [done|]. case_decide; [done|].
  case_decide; [|apply Forall_app; by rewrite Forall_singleton].
  destruct (last out) as [l|]; [|destruct r; [apply Forall_nil_2|by apply Forall_singleton]].
  case_decide; [apply Forall_app; by rewrite Forall_singleton|].
  rewrite removelast_firstn_len. by apply Forall_take.
Qed.

Lemma clean_elems_elems s : Forall elem (clean_elems s).
Proof.
  unfold clean_elems. generalize (is_rooted s) as r. intros r.
  pose proof (split_slash_no_slash s) as Hs.
  pose proof (Forall_nil_2 elem) as Hout. revert Hout.
  generalize (@nil gostring) as out. induction Hs as [|c cs Hc Hcs IH]; intros out Ho; simpl; [done|].
  apply IH. by apply clean_step_elems.
Qed.

Lemma split_slash_elems cs name :
  Forall elem cs -> slash ∉ name ->
  split_slash (concat ((fun c => c ++ [slash]) <$> cs) ++ name) = cs ++ [name].
Proof.
  intros Hcs Hn. induction Hcs as [|c cs [_ Hc] Hcs IH]; [by apply split_slash_simple|].
  rewrite fmap_cons. cbn [concat]. rewrite <- !app_assoc. cbn [app].
  rewrite split_slash_app, IH, split_slash_simple by done. done.
Qed.

(** A plain name joined to a directory is looked up in that directory. *)
Lemma parent_Join dir name : simple_name name -> dir <> [] -> parent (Join dir name) = Clean dir.
Proof.
  intros Hn Hd. pose proof Hn as (_ & _ & _ & Hs). rewrite Join_simple by done.
  pose proof (clean_elems_elems dir) as Hcs.
  unfold parent, dir_prefix, Clean. rewrite !decide_False by done. destruct (is_rooted dir).
  - rewrite <- app_assoc. cbn [app split_slash]. rewrite decide_True by done.
    rewrite split_slash_elems by done. rewrite app_comm_cons, removelast_last.
    destruct (clean_elems dir) as [|c cs]; [done|]. by destruct c.
  - cbn [app]. rewrite split_slash_elems, removelast_last by done.
    destruct (clean_elems dir) as [|c cs]; [done|].
    inversion Hcs as [|? ? [Hc _] _]; subst. destruct c; [done|]. by destruct cs.
Qed.

Lemma split_Join dir name :
  simple_name name ->
  exists cs, split_slash (Join dir name) = cs ++ [name].
Proof.
  intros Hn. pose proof Hn as (_ & _ & _ & Hs). rewrite Join_simple by done.
  unfold dir_prefix. case_decide; [exists []; by apply split_slash_simple|].
  pose proof (split_slash_elems _ name (clean_elems_elems dir) Hs) as E.
  destruct (is_rooted dir); cbn [app].
  - exists ([] :: clean_elems dir). cbn [split_slash]. rewrite decide_True by done. by rewrite E.
  - by eexists.
Qed.

Lemma Base_Join dir name : simple_name name -> Base (Join dir name) = name.
Proof.
  intros Hn. destruct (split_Join dir name Hn) as [cs Hcs]. pose proof Hn as (Hne & _).
  unfold Base. rewrite decide_False.
  - rewrite Hcs, filter_app. rewrite filter_cons_True by done. by rewrite filter_nil, last_snoc.
  - intros E. rewrite E in Hcs. destruct cs as [|? []]; simpl in Hcs; congruence.
Qed.

Lemma Base_no_slash s : Base s = [slash] \/ slash ∉ Base s.
Proof.
  unfold Base. case_decide; [right; by apply (bool_decide_unpack _)|].
  destruct (last _) as [c|] eqn:E; [|by left]. right.
  apply last_Some_elem_of, list_elem_of_filter in E as [_ Hc].
  pose proof (split_slash_no_slash s) as Hs. rewrite Forall_forall in Hs. by apply Hs.
Qed.

(** A directory entry with a suffix as long as a file extension is plain. *)
Lemma simple_Base s suffix :
  HasSuffix (Base s) suffix = true -> (2 < length suffix)%nat -> simple_name (Base s).
Proof.
  intros [k Hk]%bool_decide_eq_true Hl.
  assert (Hlen : (2 < length (Base s))%nat) by (rewrite Hk, length_app; lia).
  assert (forall t, Base s = t -> (length t <= 2)%nat -> False) as Hno
    by (intros t <-; lia).
  split_and!; [intros E; eapply Hno; [exact E|simpl; lia]..|].
  destruct (Base_no_slash s) as [E|]; [|done]. exfalso. eapply Hno; [exact E|simpl; lia].
Qed.

Lemma TrimSuffix_app s suffix : HasSuffix s suffix = true -> TrimSuffix s suffix ++ suffix = s.
Proof.
  intros H. unfold TrimSuffix. rewrite H. apply bool_decide_eq_true in H as [k ->].
  rewrite length_app, Nat.add_sub. by rewrite take_app_length.
Qed.

(** ** [Clean] is idempotent *)

(** What [clean_elems] produces: no empty, [.] or inner [..] elements, and [..]
    at the start only in relative paths. *)
Definition normal (rooted : bool) (cs : list gostring) : Prop :=
  Forall (fun c => elem c /\ c <> dot) cs /\
  exists n rest, cs = replicate n dotdot ++ rest /\ Forall (fun c => c <> dotdot) rest /\
    (rooted = true -> n = 0%nat).

Lemma elem_dotdot : elem dotdot /\ dotdot <> dot.
Proof. vm_compute. set_solver. Qed.

Lemma normal_step r out c : normal r out -> slash ∉ c -> normal r (clean_step r out c).
Proof.
  intros (He & n & rest & -> & Hr & H0) Hc. unfold clean_step.
  case_decide; [by split; [|exists n, rest]|]. case_decide; [by split; [|exists n, rest]|].
  case_decide as Hdd.
  - destruct rest as [|x rest' _] using rev_ind.
    + rewrite app_nil_r in *. destruct n as [|n].
      * simpl. destruct r; (split; [repeat constructor; apply elem_dotdot|]).
        -- by exists 0%nat, [].
        -- by exists 1%nat, [].
      * rewrite replicate_S_end, last_snoc, decide_True by done.
        rewrite <- !replicate_S_end in *. split.
        -- rewrite (replicate_S_end (S n)). apply Forall_app. split; [done|].
           apply Forall_singleton, elem_dotdot.
        -- exists (S (S n)), []. rewrite app_nil_r. split_and!; [done|done|]. intros Hrt. by specialize (H0 Hrt).
    + rewrite app_assoc, last_snoc. apply Forall_app in Hr as [Hr Hx].
      rewrite Forall_singleton in Hx.
      rewrite decide_False by done. rewrite removelast_last.
      rewrite app_assoc in He. apply Forall_app in He as [He _].
      split; [done|]. by exists n, rest'.
  - split; [apply Forall_app; split; [done|]; by apply Forall_singleton|].
    exists n, (rest ++ [c]). rewrite app_assoc. split_and!; [done| |done].
    apply Forall_app. split; [done|]. by apply Forall_singleton.
Qed.

Lemma clean_elems_normal s : normal (is_rooted s) (clean_elems s).
Proof.
  unfold clean_elems. generalize (is_rooted s) as r. intros r.
  pose proof (split_slash_no_slash s) as Hs.
  assert (Hout : normal r []) by (split; [done|by exists 0%nat, []]). revert Hout.
  generalize (@nil gostring) as out. induction Hs as [|c cs Hc Hcs IH]; intros out Ho; simpl; [done|].
  apply IH. by apply normal_step.
Qed.

(** Cleaning a normal path changes nothing. *)
Lemma fold_clean_plain r cs out :
  Forall (fun c => elem c /\ c <> dot) cs -> Forall (fun c => c <> dotdot) cs ->
  fold_left (clean_step r) cs out = out ++ cs.
Proof.
  intros He. revert out. induction He as [|c cs [[H1 H2] H3] He IH]; intros out Hd; simpl;
    [by rewrite app_nil_r|].
  inversion Hd; subst. unfold clean_step at 2. rewrite !decide_False by done.
  rewrite IH by done. by rewrite <- app_assoc.
Qed.

Lemma fold_clean_dotdots n m :
  fold_left (clean_step false) (replicate n dotdot) (replicate m dotdot) = replicate (m + n) dotdot.
Proof.
  revert m. induction n as [|n IH]; intros m; simpl; [by rewrite Nat.add_0_r|].
  assert (Hs : clean_step false (replicate m dotdot) dotdot = replicate (S m) dotdot).
  { destruct m as [|m]; [done|]. unfold clean_step. rewrite !decide_False by apply elem_dotdot.
    rewrite decide_True by done. rewrite replicate_S_end, last_snoc, decide_True by done.
    by rewrite <- !replicate_S_end. }
  rewrite Hs, IH. f_equal. lia.
Qed.

Lemma fold_clean_normal r cs : normal r cs -> fold_left (clean_step r) cs [] = cs.
Proof.
  intros (He & n & rest & -> & Hr & H0). rewrite fold_left_app.
  apply Forall_app in He as [_ He]. destruct r.
  - rewrite H0 by done. by apply fold_clean_plain.
  - pose proof (fold_clean_dotdots n 0) as E. simpl in E. rewrite E. by apply fold_clean_plain.
Qed.

Lemma split_join_slash cs :
  Forall elem cs -> cs <> [] -> split_slash (join_slash cs) = cs.
Proof.
  intros He Hne. destruct cs as [|x l _] using rev_ind; [done|].
  apply Forall_app in He as [He Hx]. rewrite Forall_singleton in Hx.
  rewrite join_slash_snoc.
  apply split_slash_elems; [done|apply Hx].
Qed.

Lemma is_rooted_join cs : Forall elem cs -> is_rooted (join_slash cs) = false.
Proof.
  destruct 1 as [|c cs [Hc Hs] He]; [done|]. destruct c as [|b c]; [done|]. simpl.
  apply bool_decide_eq_false. set_solver.
Qed.

Lemma clean_elems_Clean s : s <> [] -> clean_elems (Clean s) = clean_elems s.
Proof.
  intros Hs. pose proof (clean_elems_elems s) as He. pose proof (clean_elems_normal s) as Hn.
  unfold Clean. rewrite decide_False by done. destruct (is_rooted s) eqn:Er.
  - unfold clean_elems at 1. cbn [is_rooted]. rewrite bool_decide_true by done.
    cbn [split_slash]. rewrite decide_True by done. cbn [fold_left].
    change (clean_step true [] []) with (@nil gostring).
    destruct (decide (clean_elems s = [])) as [E|E]; [by rewrite E|].
    rewrite split_join_slash by done. by apply fold_clean_normal.
  - destruct (clean_elems s) as [|c cs] eqn:E; [by vm_compute|]. rewrite <- E in *.
    unfold clean_elems at 1. rewrite is_rooted_join, split_join_slash by (done || by rewrite E).
    by apply fold_clean_normal.
Qed.

Lemma Clean_nonempty s : Clean s <> [].
Proof.
  unfold Clean. case_decide; [by vm_compute|]. destruct (is_rooted s); [done|].
  pose proof (clean_elems_elems s) as He. destruct (clean_elems s) as [|c cs]; [by vm_compute|].
  inversion He as [|? ? [Hc _] _]; subst. by destruct c.
Qed.

Lemma is_rooted_Clean s : is_rooted (Clean s) = is_rooted s.
Proof.
  unfold Clean. case_decide as Hs; [by subst|].
  destruct (is_rooted s) eqn:E; [cbn [is_rooted]; by apply bool_decide_true|].
  pose proof (clean_elems_elems s) as He. destruct (clean_elems s) as [|c cs] eqn:Ec; [done|].
  by apply is_rooted_join.
Qed.

Lemma Clean_idempotent s : Clean (Clean s) = Clean s.
Proof.
  destruct (decide (s = [])) as [->|Hs]; [by vm_compute|].
  unfold Clean at 1. rewrite decide_False by apply Clean_nonempty.
  rewrite clean_elems_Clean, is_rooted_Clean by done. unfold Clean.
  by rewrite decide_False by done.
Qed.

Lemma Clean_Join dir name : Clean (Join dir name) = Join dir name \/ Join dir name = [].
Proof.
  unfold Join. repeat case_decide; auto using Clean_idempotent.
Qed.

Lemma Join_nonempty dir name : simple_name name -> Join dir name <> [].
Proof.
  intros Hn. rewrite Join_simple by done. destruct Hn as (Hne & _).
  destruct (dir_prefix dir); [by destruct name|done].
Qed.

Lemma Clean_Join_simple dir name : simple_name name -> Clean (Join dir name) = Join dir name.
Proof. intros Hn. destruct (Clean_Join dir name); [done|]. exfalso. by apply (Join_nonempty dir name Hn). Qed.

(** A proper child is not its own directory. *)
Lemma length_join_slash cs :
  (length (join_slash cs) <= length (concat ((fun c => c ++ [slash]) <$> cs)))%nat.
Proof.
  induction cs as [|c [|c' cs] IH]; [done|simpl; rewrite !length_app; simpl; lia|].
  change (join_slash (c :: c' :: cs)) with (c ++ slash :: join_slash (c' :: cs)).
  rewrite fmap_cons. cbn [concat]. rewrite !length_app in *. cbn [length]. lia.
Qed.

Lemma Join_ne_Clean dir name : simple_name name -> dir <> [] -> Join dir name <> Clean dir.
Proof.
  intros Hn Hd E. pose proof Hn as (Hne & Hdot & _). rewrite Join_simple in E by done.
  apply (f_equal length) in E as El. revert E El. unfold dir_prefix, Clean.
  rewrite !decide_False by done.
  pose proof (length_join_slash (clean_elems dir)). assert (0 < length name)%nat by (destruct name; simpl; lia || done).
  destruct (is_rooted dir).
  - intros _. rewrite !length_app. simpl. lia.
  - rewrite app_nil_l. destruct (clean_elems dir) eqn:Ec; [done|].
    intros _. rewrite length_app. lia.
Qed.

Lemma clean_elems_Join dir name :
  simple_name name -> dir <> [] -> clean_elems (Join dir name) = clean_elems dir ++ [name].
Proof.
  intros Hn Hd. unfold Join. rewrite decide_False by done. rewrite clean_elems_Clean by (by destruct dir).
  unfold clean_elems. assert (is_rooted (dir ++ slash :: name) = is_rooted dir) as -> by (by destruct dir).
  rewrite split_slash_app, fold_left_app, (split_slash_simple name) by apply Hn. simpl. by apply clean_step_simple.
Qed.
