(* ===== verification/OSFile.v ===== *)
(** * Files and buffered writers

    The operating system as the storage layer sees it: a map from paths to
    file contents, a set of directories, a clock, and a schedule of outcomes
    for the coming system calls, so that every error path of the code can be
    exercised and every theorem can quantify over all failures. On top of it,
    [bufio.Writer] with its sticky error, as the Go library implements it.

    An open file is its path: no modelled operation renames a file, and the
    only one that unlinks files ([CleanOldSegments]) leaves the open ones
    alone. *)

From S2P Require Import Prelude GoIO GoStrings.
From stdpp Require Import base tactics list numbers gmap strings sorting.
From Stdlib Require Import ZArith Lia.
#[local] Open Scope Z_scope.

(** ** State *)

Record file := File { f_data : list byte; f_mtime : Z }.

(** [os_faults]: the outcome of the coming system calls. [None] is success,
    [Some k] a failure; a failing write has written [k] bytes. An exhausted
    schedule means success from then on. [os_dirtime] gives the modification
    times of directories, of which nothing is assumed. *)
Record os := OS {
  os_files : gmap gostring file;
  os_dirs : gset gostring;
  os_dirtime : gostring -> Z;
  os_now : Z;
  os_faults : list (option nat) }.

(** A struct together with the operating system. *)
Abbreviation stio S := (st (S * os)).

(** The outcome of the next system call. *)
Definition sys (o : os) : option nat * os :=
  match os_faults o with
  | [] => (None, o)
  | f :: fs => (f, OS (os_files o) (os_dirs o) (os_dirtime o) (os_now o) fs)
  end.

Definition set_file (p : gostring) (d : list byte) (o : os) : os :=
  OS (<[p := File d (os_now o)]> (os_files o))
     (os_dirs o) (os_dirtime o) (os_now o) (os_faults o).

(** ** [*os.File] *)

Record handle := Handle { h_path : gostring; h_open : bool }.

(** [os.OpenFile(path, O_CREATE|O_RDWR|O_APPEND, 0o644)] *)
Definition os_OpenFile (path : gostring) : st os handle := fun o =>
  let '(f, o) := sys o in
  match f with
  | Some _ => (Err ErrOS, o)
  | None =>
      if decide (path ∈ os_dirs o) then (Err ErrOS, o)
      else match os_files o !! path with
           | Some _ => (Ok (Handle path true), o)
           | None =>
               if decide (parent path ∈ os_dirs o)
               then (Ok (Handle path true), set_file path [] o)
               else (Err ErrNotExist, o)
           end
  end.

(** Calls on a closed file fail; [content] is what the path holds. *)
Definition content (p : gostring) (o : os) : list byte :=
  match os_files o !! p with Some f => f_data f | None => [] end.

(** [f.Stat()], reduced to the size. *)
Definition file_Stat (h : handle) : st os Z := fun o =>
  let '(f, o) := sys o in
  if negb (h_open h) then (Err ErrFileClosed, o)
  else match f with
       | Some _ => (Err ErrOS, o)
       | None => (Ok (zlen (content (h_path h) o)), o)
       end.

(** [f.Seek(0, io.SeekStart)] *)
Definition file_SeekStart (h : handle) : st os unit := fun o =>
  let '(f, o) := sys o in
  if negb (h_open h) then (Err ErrFileClosed, o)
  else match f with Some _ => (Err ErrOS, o) | None => (Ok tt, o) end.

(** The bytes sequential reads deliver from the start of the file; a failing
    read cuts them short with the error. *)
Definition file_reader (h : handle) : st os reader := fun o =>
  let '(f, o) := sys o in
  if negb (h_open h) then (Ok (Rd [] ErrFileClosed), o)
  else match f with
       | Some k => (Ok (Rd (take k (content (h_path h) o)) ErrOS), o)
       | None => (Ok (Rd (content (h_path h) o) EOF), o)
       end.

(** [f.Write(p)] in append mode: the number of bytes written, and an error
    when it is not all of them. *)
Definition file_Write (h : handle) (p : list byte) (o : os) : nat * option goerr * os :=
  let '(f, o) := sys o in
  if negb (h_open h) then (0%nat, Some ErrFileClosed, o)
  else match f with
       | None => (length p, None, set_file (h_path h) (content (h_path h) o ++ p) o)
       | Some k =>
           let k := Nat.min k (length p - 1) in
           (k, Some ErrOS, set_file (h_path h) (content (h_path h) o ++ take k p) o)
       end.

(** [f.Sync()] *)
Definition file_Sync (h : handle) : st os unit := file_SeekStart h.

(** [f.Close()]: the descriptor is gone also when it reports an error. *)
Definition file_Close : stio handle unit := fun '(h, o) =>
  let '(f, o) := sys o in
  if negb (h_open h) then (Err ErrFileClosed, (h, o))
  else (match f with Some _ => Err ErrOS | None => Ok tt end,
        (Handle (h_path h) false, o)).

(** [f.ReadAt(buf, off)] for a non-empty buffer of [n] bytes. *)
Definition file_ReadAt (h : handle) (off n : Z) : st os (list byte) := fun o =>
  let '(f, o) := sys o in
  if negb (h_open h) then (Err ErrFileClosed, o)
  else if off <? 0 then (Err ErrOS, o)
  else match f with
       | Some _ => (Err ErrOS, o)
       | None =>
           let d := content (h_path h) o in
           if off + n <=? zlen d then (Ok (slice off (off + n) d), o) else (Err EOF, o)
       end.

(** ** Directories *)

(** Byte-wise order of names. *)
Fixpoint name_le (a b : gostring) : bool :=
  match a, b with
  | [], _ => true
  | _, [] => false
  | x :: a, y :: b =>
      if byteZ x <? byteZ y then true
      else if byteZ y <? byteZ x then false else name_le a b
  end.

Record dirent := DirEnt { de_name : gostring; de_dir : bool; de_mtime : Z }.

Definition dirent_le (a b : dirent) : Prop := name_le (de_name a) (de_name b) = true.
#[global] Instance dirent_le_dec : RelDecision dirent_le.
Proof. intros a b. unfold dirent_le. apply _. Defined.

(** What a directory contains, by its cleaned name. *)
Definition dir_entries (dir : gostring) (o : os) : list dirent :=
  ((fun '(p, f) => DirEnt (Base p) false (f_mtime f)) <$>
     filter (fun '(p, _) => parent p = dir) (map_to_list (os_files o))) ++
  ((fun p => DirEnt (Base p) true (os_dirtime o p)) <$>
     filter (fun p => parent p = dir /\ p <> dir) (elements (os_dirs o))).

(** [os.ReadDir(dir)]: the entries sorted by name. *)
Definition os_ReadDir (dir : gostring) : st os (list dirent) := fun o =>
  let '(f, o) := sys o in
  match f with
  | Some _ => (Err ErrOS, o)
  | None =>
      let dir := Clean dir in
      if decide (dir ∈ os_dirs o) then (Ok (merge_sort dirent_le (dir_entries dir o)), o)
      else match os_files o !! dir with
           | Some _ => (Err ErrOS, o)
           | None => (Err ErrNotExist, o)
           end
  end.

(** [e.Info()], reduced to the modification time. *)
Definition dirent_Info (e : dirent) : st os Z := fun o =>
  let '(f, o) := sys o in
  match f with Some _ => (Err ErrOS, o) | None => (Ok (de_mtime e), o) end.

(** [os.Remove(path)]: a file or an empty directory. *)
Definition os_Remove (path : gostring) : st os unit := fun o =>
  let '(f, o) := sys o in
  match f with
  | Some _ => (Err ErrOS, o)
  | None =>
      match os_files o !! path with
      | Some _ =>
          (Ok tt, OS (delete path (os_files o)) (os_dirs o) (os_dirtime o) (os_now o) (os_faults o))
      | None =>
          if decide (path ∈ os_dirs o) then
            if decide (dir_entries path o = []) then
              (Ok tt, OS (os_files o) (os_dirs o ∖ {[path]}) (os_dirtime o) (os_now o) (os_faults o))
            else (Err ErrOS, o)
          else (Err ErrNotExist, o)
      end
  end.

(** The directory and its ancestors; [fuel] bounds the number of path
    elements. *)
Fixpoint ancestors (fuel : nat) (p : gostring) : list gostring :=
  match fuel with
  | O => []
  | S k => if decide (parent p = p) then [p] else ancestors k (parent p) ++ [p]
  end.

Definition add_dir (p : gostring) (o : os) : os :=
  OS (os_files o) ({[p]} ∪ os_dirs o) (os_dirtime o) (os_now o) (os_faults o).

Fixpoint mkdirs (ps : list gostring) (o : os) : result unit * os :=
  match ps with
  | [] => (Ok tt, o)
  | p :: ps =>
      match os_files o !! p with
      | Some _ => (Err ErrOS, o)
      | None => mkdirs ps (add_dir p o)
      end
  end.

(** [os.MkdirAll(path, 0o755)]: creates what is missing, from the top down;
    stops at an element that is a file. *)
Definition os_MkdirAll (path : gostring) : st os unit := fun o =>
  let '(f, o) := sys o in
  match f with
  | Some _ => (Err ErrOS, o)
  | None => mkdirs (ancestors (S (length (Clean path))) (Clean path)) o
  end.

(** ** [bufio.Writer] *)

Record bufw := Bufw { bw_buf : list byte; bw_size : Z; bw_err : option goerr }.

Definition NewWriterSize (size : Z) : bufw := Bufw [] size None.

Definition bufio_Flush (h : handle) : stio bufw unit := fun '(b, o) =>
  match bw_err b with
  | Some e => (Err e, (b, o))
  | None =>
      match bw_buf b with
      | [] => (Ok tt, (b, o))
      | buf =>
          let '(n, err, o) := file_Write h buf o in
          match err with
          | Some e => (Err e, (Bufw (drop n buf) (bw_size b) (Some e), o))
          | None => (Ok tt, (Bufw [] (bw_size b) None, o))
          end
      end
  end.

(** The loop [for len(p) > b.Available() && b.err == nil]: a large write goes
    straight to the file when the buffer is empty, otherwise the buffer is
    filled and flushed. *)
Fixpoint bufio_fill (fuel : nat) (h : handle) (p : list byte) (b : bufw) (o : os)
  : list byte * bufw * os :=
  match fuel with
  | O => (p, b, o)
  | S k =>
      let avail := bw_size b - zlen (bw_buf b) in
      if (avail <? zlen p) && bool_decide (bw_err b = None) then
        if bool_decide (bw_buf b = []) then
          let '(n, err, o) := file_Write h p o in
          bufio_fill k h (drop n p) (Bufw [] (bw_size b) err) o
        else
          let n := Z.to_nat avail in
          let '(_, (b, o)) :=
            bufio_Flush h (Bufw (bw_buf b ++ take n p) (bw_size b) None, o) in
          bufio_fill k h (drop n p) b o
      else (p, b, o)
  end.

(** At most three rounds: flush a partly filled buffer, write the rest
    directly, leave. *)
Definition bufio_Write (h : handle) (p : list byte) : stio bufw unit := fun '(b, o) =>
  let '(p, b, o) := bufio_fill 3 h p b o in
  match bw_err b with
  | Some e => (Err e, (b, o))
  | None => (Ok tt, (Bufw (bw_buf b ++ p) (bw_size b) None, o))
  end.

(** [if err != nil { f.Close(); return nil, err }] *)
Definition closing {A} (h : handle) (m : st os A) : st os A := fun o =>
  match m o with
  | (Err e, o) => let '(_, (_, o)) := file_Close (h, o) in (Err e, o)
  | x => x
  end.

(** ** Calls on a field *)

(** Runs a call on the field of a struct. *)
Definition zoom {S T A} (get : S -> T) (put : T -> S -> S) (m : stio T A) : stio S A :=
  fun '(s, o) => let '(r, (t, o)) := m (get s, o) in (r, (put t s, o)).

(** Runs a call on the operating system alone. *)
Definition on_os {S A} (m : st os A) : stio S A :=
  fun '(s, o) => let '(r, o) := m o in (r, (s, o)).

Definition get_st {S A} (f : S -> A) : stio S A := fun '(s, o) => (Ok (f s), (s, o)).
Definition put_st {S} (f : S -> S) : stio S unit := fun '(s, o) => (Ok tt, (f s, o)).

(** ** Append-only effects *)

(** From [o] to [o'] at most the file [p] changed, and only by growing. *)
Record appends (p : gostring) (o o' : os) : Prop := {
  ap_dirs : os_dirs o' = os_dirs o;
  ap_now : os_now o' = os_now o;
  ap_others : forall q, q <> p -> os_files o' !! q = os_files o !! q;
  ap_exists : is_Some (os_files o !! p) -> is_Some (os_files o' !! p);
  ap_grows : content p o `prefix_of` content p o';
  ap_faults : os_faults o = [] -> os_faults o' = [] }.

Lemma appends_refl p o : appends p o o.
Proof. by constructor. Qed.

Lemma appends_trans p o1 o2 o3 : appends p o1 o2 -> appends p o2 o3 -> appends p o1 o3.
Proof.
  intros [] []. constructor; try congruence; eauto.
  - intros q Hq. rewrite ap_others1 by done. eauto.
  - by etrans.
Qed.

#[global] Instance appends_preorder p : PreOrder (appends p).
Proof. split; [intros o; apply appends_refl|intros ???; apply appends_trans]. Qed.

Lemma content_others p q o o' : appends p o o' -> q <> p -> content q o' = content q o.
Proof. intros H Hq. unfold content. by rewrite (ap_others _ _ _ H q Hq). Qed.

Lemma sys_effect o f o' :
  sys o = (f, o') ->
  os_files o' = os_files o /\ os_dirs o' = os_dirs o /\ os_now o' = os_now o /\
  os_dirtime o' = os_dirtime o /\ (os_faults o = [] -> f = None /\ os_faults o' = []).
Proof. unfold sys. destruct (os_faults o) as [|f0 fs] eqn:E; intros [= <- <-]; naive_solver. Qed.

Lemma sys_appends p o f o' : sys o = (f, o') -> appends p o o'.
Proof.
  intros H. apply sys_effect in H as (Hf & Hd & Hn & _ & Hq).
  constructor; unfold content; rewrite ?Hf; try done. intros. by apply Hq.
Qed.

Lemma sys_no_faults o : os_faults o = [] -> sys o = (None, o).
Proof. unfold sys. by intros ->. Qed.

Lemma content_set_file p d o : content p (set_file p d o) = d.
Proof. unfold content, set_file. simpl. by rewrite lookup_insert_eq. Qed.

Lemma set_file_appends p l o : appends p o (set_file p (content p o ++ l) o).
Proof.
  constructor; simpl; try done.
  - intros q Hq. by rewrite lookup_insert_ne.
  - intros _. rewrite lookup_insert_eq. by eexists.
  - rewrite content_set_file. by apply prefix_app_r.
Qed.

(** A write appends what it reports to have written: all of it without an
    error, less than all of it with one. *)
Lemma file_Write_spec h p o n err o' :
  h_open h = true -> file_Write h p o = (n, err, o') ->
  appends (h_path h) o o' /\ content (h_path h) o' = content (h_path h) o ++ take n p /\
  is_Some (os_files o' !! h_path h) /\
  match err with
  | None => n = length p
  | Some e => os_faults o <> [] /\ (p <> [] -> (n < length p)%nat)
  end.
Proof.
  intros Ho. unfold file_Write. rewrite Ho. simpl.
  destruct (sys o) as [f o1] eqn:E. pose proof (sys_effect _ _ _ E) as (Hf & _ & _ & _ & Hq).
  assert (Hc : content (h_path h) o1 = content (h_path h) o) by (unfold content; by rewrite Hf).
  assert (Ha : forall l, appends (h_path h) o (set_file (h_path h) (content (h_path h) o1 ++ l) o1))
    by (intros; etrans; [by eapply sys_appends|apply set_file_appends]).
  destruct f as [k|]; intros [= <- <- <-]; rewrite content_set_file, <- Hc;
    (split; [apply Ha|]); simpl; rewrite lookup_insert_eq; split_and!; try done.
  - intros Hq'. by destruct (Hq Hq').
  - intros Hp. destruct p; [done|]. simpl. lia.
  - by rewrite firstn_all.
Qed.

(** ** The buffered writer *)

(** The writer is usable, and the file followed by the buffer is [log]. *)
Record bw_ok (h : handle) (b : bufw) (o : os) (log : list byte) : Prop := {
  bo_open : h_open h = true;
  bo_err : bw_err b = None;
  bo_size : 0 < bw_size b;
  bo_fits : zlen (bw_buf b) <= bw_size b;
  bo_file : is_Some (os_files o !! h_path h);
  bo_log : content (h_path h) o ++ bw_buf b = log }.

(** The writer has failed with [e], and the file holds a prefix of [log]. *)
Record bw_failed (h : handle) (b : bufw) (o : os) (log : list byte) (e : goerr) : Prop := {
  bf_err : bw_err b = Some e;
  bf_prefix : content (h_path h) o `prefix_of` log }.

(** The outcome of a call that should make the log [log]. *)
Definition bw_outcome (h : handle) (log : list byte) (o : os)
    (x : result unit * (bufw * os)) : Prop :=
  appends (h_path h) o x.2.2 /\
  match x.1 with
  | Ok _ => bw_ok h x.2.1 x.2.2 log
  | Err e => bw_failed h x.2.1 x.2.2 log e /\ os_faults o <> []
  | Panic _ => False
  end.

Lemma bufio_Flush_spec h b o log :
  bw_ok h b o log ->
  bw_outcome h log o (bufio_Flush h (b, o)) /\
  (forall b' o', bufio_Flush h (b, o) = (Ok tt, (b', o')) ->
     bw_buf b' = [] /\ bw_size b' = bw_size b /\ content (h_path h) o' = log).
Proof.
  intros []. unfold bufio_Flush, bw_outcome. rewrite bo_err0.
  destruct (bw_buf b) as [|x buf] eqn:Eb.
  - split; [split; [apply appends_refl|constructor; simpl; by rewrite ?Eb]|].
    rewrite app_nil_r in bo_log0. intros b' o' [= <- <-]. by rewrite Eb.
  - destruct (file_Write h (x :: buf) o) as [[n err] o1] eqn:Ew.
    apply file_Write_spec in Ew as (Ha & Hc & Hf & He); [|done].
    destruct err as [e|]; simpl.
    + split; [|done]. destruct He as [Hq _]. split_and!; try done.
      constructor; simpl; [done|]. rewrite Hc, <- bo_log0.
      apply prefix_app, prefix_take.
    + subst n. rewrite firstn_all in Hc.
      assert (Hl : content (h_path h) o1 = log) by congruence.
      split; [|naive_solver]. split; [done|].
      constructor; simpl; rewrite ?app_nil_r; rewrite ?zlen_nil; try done; lia.
Qed.

Lemma bufio_fill_S k h p b o :
  bufio_fill (S k) h p b o =
  let avail := bw_size b - zlen (bw_buf b) in
  if (avail <? zlen p) && bool_decide (bw_err b = None) then
    if bool_decide (bw_buf b = []) then
      let '(n, err, o) := file_Write h p o in
      bufio_fill k h (drop n p) (Bufw [] (bw_size b) err) o
    else
      let n := Z.to_nat avail in
      let '(_, (b, o)) := bufio_Flush h (Bufw (bw_buf b ++ take n p) (bw_size b) None, o) in
      bufio_fill k h (drop n p) b o
  else (p, b, o).
Proof. reflexivity. Qed.

(** The filling loop keeps file, buffer and remaining bytes in order, and ends
    with a remainder that fits; three rounds are enough. *)
Lemma bufio_fill_direct h p b o log k :
  bw_ok h b o log -> bw_buf b = [] -> (2 <= k)%nat ->
  exists p' b' o', bufio_fill k h p b o = (p', b', o') /\ appends (h_path h) o o' /\
    match bw_err b' with
    | None => exists log', bw_ok h b' o' log' /\ log' ++ p' = log ++ p /\
                bw_size b' = bw_size b /\ zlen (bw_buf b') + zlen p' <= bw_size b'
    | Some e => bw_failed h b' o' (log ++ p) e /\ os_faults o <> []
    end.
Proof.
  intros Hb Hn Hk. destruct k as [|[|k]]; [lia..|]. pose proof Hb as [].
  cbn [bufio_fill]. rewrite Hn, zlen_nil, bo_err0, Z.sub_0_r.
  rewrite !bool_decide_true by done. rewrite andb_true_r.
  destruct (Z.ltb_spec (bw_size b) (zlen p)) as [Hp|Hp].
  - destruct (file_Write h p o) as [[n err] o1] eqn:Ew.
    apply file_Write_spec in Ew as (Ha & Hc & Hf & He); [|done].
    rewrite Hn, app_nil_r in bo_log0. rewrite bo_log0 in Hc.
    destruct err as [e|]; cbn [bw_err bw_size bw_buf].
    + rewrite bool_decide_false by done. rewrite andb_false_r.
      do 3 eexists. split; [done|]. split; [done|]. simpl. split; [|naive_solver].
      constructor; simpl; [done|]. rewrite Hc. apply prefix_app, prefix_take.
    + subst n. rewrite firstn_all in Hc. rewrite drop_all, !zlen_nil.
      rewrite (proj2 (Z.ltb_ge _ 0)) by lia. simpl.
      do 3 eexists. split; [done|]. split; [done|]. simpl.
      exists (log ++ p). split_and!; [|by rewrite app_nil_r|done|unfold zlen; simpl; lia].
      constructor; simpl; rewrite ?app_nil_r; try done; unfold zlen; simpl; lia.
  - do 3 eexists. split; [done|]. split; [apply appends_refl|]. rewrite bo_err0.
    exists log. rewrite Hn, zlen_nil. split_and!; try done; lia.
Qed.

Lemma bufio_fill_spec h p b o log :
  bw_ok h b o log ->
  exists p' b' o', bufio_fill 3 h p b o = (p', b', o') /\ appends (h_path h) o o' /\
    match bw_err b' with
    | None => exists log', bw_ok h b' o' log' /\ log' ++ p' = log ++ p /\
                bw_size b' = bw_size b /\ zlen (bw_buf b') + zlen p' <= bw_size b'
    | Some e => bw_failed h b' o' (log ++ p) e /\ os_faults o <> []
    end.
Proof.
  intros Hb. destruct (decide (bw_buf b = [])) as [Hn|Hn];
    [apply bufio_fill_direct; [done..|lia]|]. pose proof Hb as [].
  rewrite bufio_fill_S, bo_err0. cbn zeta.
  rewrite (bool_decide_true (None = None)), (bool_decide_false (bw_buf b = [])) by done.
  rewrite andb_true_r.
  destruct (Z.ltb_spec (bw_size b - zlen (bw_buf b)) (zlen p)) as [Hp|Hp].
  2:{ do 3 eexists. split; [done|]. split; [apply appends_refl|]. rewrite bo_err0.
      exists log. split_and!; try done; lia. }
  set (n := Z.to_nat (bw_size b - zlen (bw_buf b))).
  assert (Hb1 : bw_ok h (Bufw (bw_buf b ++ take n p) (bw_size b) None) o (log ++ take n p)).
  { constructor; simpl; try done; [|by rewrite app_assoc, bo_log0].
    rewrite zlen_app. unfold n. rewrite zlen_take by lia. lia. }
  destruct (bufio_Flush_spec _ _ _ _ Hb1) as [Hf Hok].
  destruct (bufio_Flush _ _) as [r [b1 o1]] eqn:Ef. unfold bw_outcome in Hf. simpl in Hf.
  destruct Hf as [Ha Hr]. destruct r as [[]|e|]; [| |done].
  - destruct (Hok b1 o1 eq_refl) as (Hnil & Hsz & _). simpl in Hsz.
    destruct (bufio_fill_direct h (drop n p) b1 o1 _ 2 Hr Hnil) as (p' & b' & o' & -> & Ha' & Hm);
      [lia|].
    do 3 eexists. split; [done|]. split; [by etrans|].
    rewrite <- app_assoc, take_drop in Hm.
    destruct (bw_err b').
    + split; [apply Hm|]. intros Hq. apply Hm. by apply (ap_faults _ _ _ Ha).
    + destruct Hm as (log' & ? & ? & ? & ?). exists log'. split_and!; congruence || done.
  - destruct Hr as [[Hbe Hpre] Hq]. rewrite bufio_fill_S, Hbe. cbn zeta.
    rewrite bool_decide_false by done. rewrite andb_false_r.
    do 3 eexists. split; [done|]. split; [done|]. rewrite Hbe. split; [|done].
    constructor; [done|]. etrans; [done|]. apply prefix_app, prefix_take.
Qed.

Lemma bufio_Write_spec h p b o log :
  bw_ok h b o log -> bw_outcome h (log ++ p) o (bufio_Write h p (b, o)).
Proof.
  intros Hb. destruct (bufio_fill_spec h p b o log Hb) as (p' & b' & o' & E & Ha & Hm).
  unfold bufio_Write, bw_outcome. rewrite E. destruct (bw_err b') as [e|]; simpl.
  - done.
  - split; [done|]. destruct Hm as (log' & [] & Hl & Hs & Hz). constructor; simpl; try done.
    + by rewrite zlen_app.
    + rewrite <- Hl, <- bo_log0. by rewrite app_assoc.
Qed.

(** ** Effects of the calls *)

(** Nothing but the schedule of outcomes changed. *)
Record quiet (o o' : os) : Prop := {
  q_files : os_files o' = os_files o;
  q_dirs : os_dirs o' = os_dirs o;
  q_dirtime : os_dirtime o' = os_dirtime o;
  q_now : os_now o' = os_now o;
  q_faults : os_faults o = [] -> os_faults o' = [] }.

#[global] Instance quiet_preorder : PreOrder quiet.
Proof.
  split; [by constructor|]. intros o1 o2 o3 [] []. constructor; try congruence. auto.
Qed.

Lemma sys_quiet o f o' : sys o = (f, o') -> quiet o o' /\ (f <> None -> os_faults o <> []).
Proof.
  intros H. apply sys_effect in H as (? & ? & ? & ? & Hq). split.
  - constructor; try done. intros ?. by apply Hq.
  - intros ? ?. by destruct Hq.
Qed.

Lemma quiet_content p o o' : quiet o o' -> content p o' = content p o.
Proof. intros []. unfold content. by rewrite q_files0. Qed.

Lemma quiet_appends p o o' : quiet o o' -> appends p o o'.
Proof.
  intros H. pose proof (quiet_content p _ _ H). destruct H.
  constructor; rewrite ?q_files0; try done. by rewrite H0.
Qed.

Lemma bw_ok_quiet h b o o' log : bw_ok h b o log -> quiet o o' -> bw_ok h b o' log.
Proof.
  intros [] Hq. pose proof (quiet_content (h_path h) _ _ Hq). destruct Hq.
  constructor; try done; [by rewrite q_files0|by rewrite H].
Qed.

(** What happens to other files does not concern a writer. *)
Lemma bw_ok_frame h b o o' log q :
  bw_ok h b o log -> appends q o o' -> q <> h_path h -> bw_ok h b o' log.
Proof.
  intros [] Ha Hne. constructor; try done.
  - by rewrite (ap_others _ _ _ Ha) by done.
  - by rewrite (content_others q _ o o') by done.
Qed.

(** From [o] to [o'] at most the files [ps] changed, and only by growing. *)
Record touches (ps : list gostring) (o o' : os) : Prop := {
  to_dirs : os_dirs o' = os_dirs o;
  to_now : os_now o' = os_now o;
  to_others : forall q, q ∉ ps -> os_files o' !! q = os_files o !! q;
  to_exists : forall q, is_Some (os_files o !! q) -> is_Some (os_files o' !! q);
  to_grows : forall q, content q o `prefix_of` content q o';
  to_faults : os_faults o = [] -> os_faults o' = [] }.

#[global] Instance touches_preorder ps : PreOrder (touches ps).
Proof.
  split; [by constructor|]. intros o1 o2 o3 [] []. constructor; try congruence; auto.
  - intros q Hq. rewrite to_others1 by done. auto.
  - intros q. exact (transitivity (to_grows0 q) (to_grows1 q)).
Qed.

Lemma appends_touches p ps o o' : p ∈ ps -> appends p o o' -> touches ps o o'.
Proof.
  intros Hp Ha. pose proof Ha as []. constructor; try done.
  - intros q Hq. apply ap_others0. set_solver.
  - intros q Hq. destruct (decide (q = p)) as [->|]; [auto|]. by rewrite ap_others0.
  - intros q. destruct (decide (q = p)) as [->|]; [done|].
    by rewrite (content_others p q o o').
Qed.

Lemma quiet_touches ps o o' : quiet o o' -> touches ps o o'.
Proof.
  intros H. pose proof (fun q => quiet_content q _ _ H) as Hc. destruct H.
  constructor; rewrite ?q_files0; try done. intros q. by rewrite Hc.
Qed.

Lemma touches_weaken ps qs o o' : ps ⊆ qs -> touches ps o o' -> touches qs o o'.
Proof. intros Hs []. constructor; try done. intros q Hq. apply to_others0. set_solver. Qed.

Lemma touches_content ps q o o' : touches ps o o' -> q ∉ ps -> content q o' = content q o.
Proof. intros H Hq. unfold content. by rewrite (to_others _ _ _ H q Hq). Qed.

Lemma bw_ok_touches h b o o' log ps :
  bw_ok h b o log -> touches ps o o' -> h_path h ∉ ps -> bw_ok h b o' log.
Proof.
  intros [] Ht Hne. constructor; try done.
  - by rewrite (to_others _ _ _ Ht) by done.
  - by rewrite (touches_content ps _ o o') by done.
Qed.

(** An error of a call on an open file comes from the schedule. *)
Definition outcome {A} (o : os) (Q : A -> Prop) (r : result A) : Prop :=
  match r with
  | Ok a => Q a
  | Err _ => os_faults o <> []
  | Panic _ => False
  end.

Lemma outcome_ok_of_no_faults {A} o (Q : A -> Prop) r :
  outcome o Q r -> os_faults o = [] -> exists a, r = Ok a /\ Q a.
Proof. destruct r; simpl; naive_solver. Qed.

Ltac sys_case o f o1 Hq Hn :=
  let E := fresh in
  destruct (sys o) as [f o1] eqn:E; apply sys_quiet in E as [Hq Hn].

Lemma file_Stat_spec h o :
  h_open h = true ->
  wp (file_Stat h) (fun r o' => quiet o o' /\
    outcome o (fun n => n = zlen (content (h_path h) o)) r) o.
Proof.
  intros Ho. unfold wp, file_Stat. sys_case o f o1 Hq Hn. rewrite Ho. simpl.
  destruct f; simpl; [naive_solver|]. by rewrite (quiet_content _ _ _ Hq).
Qed.

Lemma file_SeekStart_spec h o :
  h_open h = true ->
  wp (file_SeekStart h) (fun r o' => quiet o o' /\ outcome o (fun _ => True) r) o.
Proof.
  intros Ho. unfold wp, file_SeekStart. sys_case o f o1 Hq Hn. rewrite Ho. simpl.
  destruct f; simpl; naive_solver.
Qed.

Lemma file_reader_spec h o :
  h_open h = true ->
  wp (file_reader h) (fun r o' => quiet o o' /\ exists d e, r = Ok (Rd d e) /\
    d `prefix_of` content (h_path h) o /\
    (d = content (h_path h) o /\ e = EOF \/ os_faults o <> [] /\ e = ErrOS)) o.
Proof.
  intros Ho. unfold wp, file_reader. sys_case o f o1 Hq Hn. rewrite Ho. simpl.
  destruct f; simpl; rewrite (quiet_content _ _ _ Hq); split; try done; do 2 eexists;
    (split; [done|]); (split; [done || apply prefix_take|naive_solver]).
Qed.

Lemma file_Close_spec h o :
  h_open h = true ->
  wp file_Close (fun r '(h', o') => quiet o o' /\ h' = Handle (h_path h) false /\
    outcome o (fun _ => True) r) (h, o).
Proof.
  intros Ho. unfold wp, file_Close. sys_case o f o1 Hq Hn. rewrite Ho. simpl.
  destruct f; simpl; naive_solver.
Qed.

Lemma file_ReadAt_spec h off n o :
  h_open h = true -> 0 <= off ->
  wp (file_ReadAt h off n) (fun r o' => quiet o o' /\
    match r with
    | Ok d => off + n <= zlen (content (h_path h) o) /\
              d = slice off (off + n) (content (h_path h) o)
    | Err _ => os_faults o <> [] \/ zlen (content (h_path h) o) < off + n
    | Panic _ => False
    end) o.
Proof.
  intros Ho Hoff. unfold wp, file_ReadAt. sys_case o f o1 Hq Hn. rewrite Ho. simpl.
  rewrite (proj2 (Z.ltb_ge _ _)) by lia. destruct f; simpl; [naive_solver|].
  rewrite (quiet_content _ _ _ Hq).
  destruct (Z.leb_spec (off + n) (zlen (content (h_path h) o))); simpl; auto.
Qed.

(** An existing file keeps its content, a missing one is created empty. *)
Lemma os_OpenFile_spec path o :
  wp (os_OpenFile path) (fun r o' =>
    appends path o o' /\ content path o' = content path o /\
    match r with
    | Ok h => h = Handle path true /\ is_Some (os_files o' !! path)
    | Err _ => os_faults o <> [] \/ path ∈ os_dirs o \/ parent path ∉ os_dirs o
    | Panic _ => False
    end) o.
Proof.
  unfold wp, os_OpenFile. sys_case o f o1 Hq Hn.
  pose proof (quiet_content path _ _ Hq) as Hc. pose proof (quiet_appends path _ _ Hq) as Ha.
  pose proof Hq as [Qf Qd _ _ _].
  destruct f; simpl; [naive_solver|]. case_decide; simpl; [rewrite Qd in *; naive_solver|].
  destruct (os_files o1 !! path) eqn:E; simpl; [rewrite E; naive_solver|].
  case_decide; simpl; [|rewrite Qd in *; naive_solver].
  rewrite content_set_file, lookup_insert_eq. unfold content in *. rewrite E in *.
  split_and!; [|done..]. etrans; [done|].
  pose proof (set_file_appends path [] o1) as H1. unfold content in H1. by rewrite E in H1.
Qed.

(** Every directory has a parent, and none is a file. *)
Definition os_wf (o : os) : Prop :=
  set_Forall (fun p => parent p ∈ os_dirs o /\ os_files o !! p = None) (os_dirs o).

#[global] Instance os_wf_dec o : Decision (os_wf o).
Proof. unfold os_wf. apply _. Defined.

Lemma add_dir_known p o : p ∈ os_dirs o -> add_dir p o = o.
Proof.
  intros Hp. unfold add_dir. replace ({[p]} ∪ os_dirs o) with (os_dirs o) by set_solver.
  by destruct o.
Qed.

Lemma mkdirs_known ps qs o :
  os_wf o -> Forall (fun p => p ∈ os_dirs o) ps -> mkdirs (ps ++ qs) o = mkdirs qs o.
Proof.
  intros Hwf. induction 1 as [|p ps Hp _ IH]; simpl; [done|].
  destruct (Hwf p Hp) as [_ ->]. by rewrite add_dir_known.
Qed.

Lemma ancestors_known k p o :
  os_wf o -> p ∈ os_dirs o -> Forall (fun p => p ∈ os_dirs o) (ancestors k p).
Proof.
  intros Hwf. revert p. induction k as [|k IH]; intros p Hp; simpl; [done|].
  case_decide; [by apply Forall_singleton|]. apply Forall_app. split; [|by apply Forall_singleton].
  apply IH. by apply Hwf.
Qed.

(** Creating a directory inside an existing one. *)
Lemma os_MkdirAll_child path o :
  os_wf o -> os_faults o = [] -> parent (Clean path) ∈ os_dirs o -> os_files o !! Clean path = None ->
  os_MkdirAll path o = (Ok tt, add_dir (Clean path) o).
Proof.
  intros Hwf Hf Hp Hn. unfold os_MkdirAll. rewrite sys_no_faults by done. cbn [ancestors].
  case_decide; [simpl; by rewrite Hn|]. rewrite mkdirs_known; [|done|by apply ancestors_known].
  simpl. by rewrite Hn.
Qed.

(** ** Rules for the combinators *)

Lemma wp_zoom {S T A} (get : S -> T) put (m : stio T A) Q s o :
  wp m (fun r '(t, o') => Q r (put t s, o')) (get s, o) -> wp (zoom get put m) Q (s, o).
Proof. unfold wp, zoom. by destruct (m (get s, o)) as [? []]. Qed.

Lemma wp_on_os {S A} (m : st os A) Q (s : S) o :
  wp m (fun r o' => Q r (s, o')) o -> wp (on_os m) Q (s, o).
Proof. unfold wp, on_os. by destruct (m o). Qed.

Lemma wp_get_st {S A} (f : S -> A) Q s o : Q (Ok (f s)) (s, o) -> wp (get_st f) Q (s, o).
Proof. done. Qed.

Lemma wp_put_st {S} (f : S -> S) Q s o : Q (Ok tt) (f s, o) -> wp (put_st f) Q (s, o).
Proof. done. Qed.

Lemma wp_bufio_Write h p b o log Q :
  bw_ok h b o log ->
  (forall r b' o', bw_outcome h (log ++ p) o (r, (b', o')) -> Q r (b', o')) ->
  wp (bufio_Write h p) Q (b, o).
Proof.
  intros Hb HQ. pose proof (bufio_Write_spec h p b o log Hb). unfold wp.
  destruct (bufio_Write h p (b, o)) as [r [b' o']]. by apply HQ.
Qed.

Lemma wp_bufio_Flush h b o log Q :
  bw_ok h b o log ->
  (forall r b' o', bw_outcome h log o (r, (b', o')) ->
     (r = Ok tt -> bw_buf b' = [] /\ content (h_path h) o' = log) -> Q r (b', o')) ->
  wp (bufio_Flush h) Q (b, o).
Proof.
  intros Hb HQ. destruct (bufio_Flush_spec h b o log Hb) as [H1 H2]. unfold wp.
  destruct (bufio_Flush h (b, o)) as [r [b' o']]. cbn [fst snd]. apply HQ; [done|].
  intros ->. destruct (H2 b' o' eq_refl) as (? & _ & ?). done.
Qed.

(** One step of a call: the combinators, then the state accessors. *)
Ltac wp_step :=
  first [ apply wp_bind | apply wp_wrapf | apply wp_zoom | apply wp_on_os
        | apply wp_get_st | apply wp_put_st | apply wp_ret ]; cbn beta iota.
Ltac wp_steps := repeat wp_step.
