(* ===== verification/LogIndex.v ===== *)
(** * The sparse offset index ([internal/storage/index.go])

    The index file of a segment: 12-byte entries mapping logical offsets to
    byte positions, written through a [bufio.Writer] and mirrored in memory,
    with the binary search of [Lookup]. *)

From stdpp Require Import base tactics list numbers gmap strings sorting.
From Equations Require Import Equations.
From Stdlib Require Import ZArith Lia.
From S2P Require Import Prelude GoIO GoStrings OSFile.
#[local] Open Scope Z_scope.

(** ** Data *)

Definition IndexIntervalBytes : Z := 4096.
Definition indexEntrySize : Z := 12.
Definition indexWriteBufferSize : Z := Z.shiftl 64 10.

Record entry := Entry { e_offset : Z; e_position : Z }.

Record Index := MkIndex {
  ix_file : handle;
  ix_bw : bufw;
  ix_entries : list entry;
  ix_bytesWrittenSinceLastEntry : Z }.

#[global] Instance entry_eq_dec : EqDecision entry.
Proof. solve_decision. Defined.

Definition set_ix_file (f : handle) (x : Index) : Index :=
  MkIndex f (ix_bw x) (ix_entries x) (ix_bytesWrittenSinceLastEntry x).
Definition set_ix_bw (b : bufw) (x : Index) : Index :=
  MkIndex (ix_file x) b (ix_entries x) (ix_bytesWrittenSinceLastEntry x).
Definition set_ix_count (c : Z) (x : Index) : Index :=
  MkIndex (ix_file x) (ix_bw x) (ix_entries x) c.

(** ** Opening *)

(** [PutUint64(buf[0:8], e.offset); PutUint32(buf[8:12], e.position)] *)
Definition put_entry (e : entry) : list byte :=
  be_put 8 (e_offset e) ++ be_put 4 (e_position e).

Definition get_entry (buf : list byte) : entry :=
  Entry (be_get (slice 0 8 buf)) (be_get (slice 8 12 buf)).

(** The loop of [loadEntries]: every round consumes an entry or leaves, so the
    length of the file bounds the number of rounds. *)
Fixpoint load_loop (fuel : nat) (acc : list entry) (r : reader) : result (list entry) :=
  match fuel with
  | O => Ok acc
  | S k =>
      match ReadFull indexEntrySize r with
      | (Ok buf, r') => load_loop k (acc ++ [get_entry buf]) r'
      | (Err e, _) =>
          if decide (e = EOF \/ e = ErrUnexpectedEOF) then Ok acc else Err e
      | (Panic p, _) => Panic p
      end
  end.

Definition loadEntries (f : handle) : st os (list entry) :=
  _ ← file_SeekStart f;
  _ ← file_Stat f;
  r ← file_reader f;
  lift_result (load_loop (S (length (rd_data r))) [] r).

Definition index_name (dir : gostring) (baseOffset : Z) : gostring :=
  Join dir (fmt_020d baseOffset ++ gos ".index").

Definition openIndex (dir : gostring) (baseOffset : Z) : st os Index :=
  let name := index_name dir baseOffset in
  f ← wrapf "storage: open index %q: %w" [DStr name] (os_OpenFile name);
  entries ← wrapf "storage: load index %q: %w" [DStr name] (closing f (loadEntries f));
  mret (MkIndex f (NewWriterSize indexWriteBufferSize) entries 0).

(** ** Operations *)

(** [idx.bw.Write(p)] and [idx.bw.Flush()] *)
Definition ix_write (p : list byte) : stio Index unit :=
  f ← get_st ix_file; zoom ix_bw set_ix_bw (bufio_Write f p).
Definition ix_flush : stio Index unit :=
  f ← get_st ix_file; zoom ix_bw set_ix_bw (bufio_Flush f).

Definition maybeAppend (logOffset position recordSize : Z) : stio Index unit :=
  n ← get_st ix_bytesWrittenSinceLastEntry;
  let n := i64 (n + recordSize) in
  _ ← put_st (set_ix_count n);
  if n <? IndexIntervalBytes then mret tt
  else
    let e := Entry logOffset position in
    _ ← wrapf "storage: write index entry: %w" [] (ix_write (put_entry e));
    put_st (fun x => MkIndex (ix_file x) (ix_bw x) (ix_entries x ++ [e]) 0).

(** The loop of [Lookup]: the last entry found so far is [res], or -1. The
    sum is not negative, so Go's division rounds as [Z.div] does. *)
Equations? search (es : list entry) (target lo hi res : Z) : result Z
  by wf (Z.to_nat (hi - lo + 1)) lt :=
search es target lo hi res with decide (lo <= hi) => {
  | right _ => Ok res;
  | left H with es !! Z.to_nat ((lo + hi) / 2) => {
    | None => Panic IndexRange;
    | Some e =>
        if e_offset e <=? target then search es target ((lo + hi) / 2 + 1) hi ((lo + hi) / 2)
        else search es target lo ((lo + hi) / 2 - 1) res } }.
Proof. all: pose proof (Z.div_mod (lo + hi) 2 ltac:(lia));
  pose proof (Z.mod_pos_bound (lo + hi) 2 ltac:(lia)); lia. Defined.

Definition Lookup (x : Index) (target : Z) : result Z :=
  let es := ix_entries x in
  if zlen es =? 0 then Err ErrOffsetNotFound
  else match search es target 0 (zlen es - 1) (-1) with
       | Ok res =>
           if res =? -1 then Err ErrOffsetNotFound
           else match es !! Z.to_nat res with
                | Some e => Ok (e_position e)
                | None => Panic IndexRange
                end
       | Err e => Err e
       | Panic p => Panic p
       end.

Definition Index_Len (x : Index) : Z := zlen (ix_entries x).

Definition Index_Flush : stio Index unit :=
  _ ← wrapf "storage: flush index: %w" [] ix_flush;
  f ← get_st ix_file;
  wrapf "storage: fsync index: %w" [] (on_os (file_Sync f)).

Definition Index_Close : stio Index unit :=
  _ ← wrapf "storage: flush index on close: %w" [] ix_flush;
  wrapf "storage: close index file: %w" [] (zoom ix_file set_ix_file file_Close).

(** ** The entry codec *)

Definition wf_entry (e : entry) : Prop := ufits 64 (e_offset e) /\ ufits 32 (e_position e).

#[global] Instance wf_entry_dec e : Decision (wf_entry e).
Proof. unfold wf_entry. apply _. Defined.

Definition enc_entries (es : list entry) : list byte := concat (put_entry <$> es).

Lemma zlen_put_entry e : zlen (put_entry e) = 12.
Proof. unfold put_entry. zlen_lia. Qed.

Lemma get_put_entry e : wf_entry e -> get_entry (put_entry e) = e.
Proof.
  destruct e as [off pos]. intros [Ho Hp]. unfold get_entry, put_entry. simpl in *.
  rewrite slice_app_l by (zlen_lia). rewrite slice_app_r by zlen_lia.
  rewrite !zlen_be_put, !slice_full' by (rewrite zlen_be_put; done).
  rewrite !be_get_put.
  f_equal; apply Z.mod_small; [apply Ho|apply Hp].
Qed.

Lemma enc_entries_snoc es e : enc_entries (es ++ [e]) = enc_entries es ++ put_entry e.
Proof. unfold enc_entries. rewrite fmap_app, concat_app. simpl. by rewrite app_nil_r. Qed.

Lemma enc_entries_cons e es : enc_entries (e :: es) = put_entry e ++ enc_entries es.
Proof. done. Qed.

Lemma zlen_enc_entries es : zlen (enc_entries es) = 12 * zlen es.
Proof.
  induction es as [|e es IH]; [done|].
  rewrite enc_entries_cons, zlen_app, zlen_put_entry, zlen_cons, IH. lia.
Qed.

Lemma load_loop_S k acc r :
  load_loop (S k) acc r =
  match ReadFull indexEntrySize r with
  | (Ok buf, r') => load_loop k (acc ++ [get_entry buf]) r'
  | (Err e, _) => if decide (e = EOF \/ e = ErrUnexpectedEOF) then Ok acc else Err e
  | (Panic p, _) => Panic p
  end.
Proof. reflexivity. Qed.

(** A read error is reported, however many entries were read before it. *)
Lemma load_loop_fails fuel acc d :
  (length d < fuel)%nat -> load_loop fuel acc (Rd d ErrOS) = Err ErrOS.
Proof.
  revert acc d. induction fuel as [|k IH]; intros acc d Hd; [lia|]. rewrite load_loop_S.
  unfold ReadFull, indexEntrySize. simpl rd_data. simpl rd_err.
  destruct (Z.leb_spec 12 (zlen d)) as [H|H].
  - apply IH. rewrite length_drop. unfold zlen in H. lia.
  - by destruct d.
Qed.

(** Loading gives back the written entries; an incomplete last entry is
    ignored. *)
Lemma load_loop_enc es tail acc fuel :
  Forall wf_entry es -> zlen tail < 12 -> (length es < fuel)%nat ->
  load_loop fuel acc (Rd (enc_entries es ++ tail) EOF) = Ok (acc ++ es).
Proof.
  intros Hes Ht. revert acc fuel. induction Hes as [|e es He Hes IH]; intros acc fuel Hf.
  - destruct fuel as [|fuel]; [simpl in Hf; lia|]. rewrite load_loop_S.
    unfold ReadFull, indexEntrySize. simpl rd_data.
    rewrite (proj2 (Z.leb_gt _ _)) by lia. rewrite app_nil_r.
    destruct tail; rewrite decide_True; naive_solver.
  - destruct fuel as [|fuel]; [simpl in Hf; lia|]. rewrite load_loop_S.
    unfold ReadFull, indexEntrySize. simpl rd_data. unfold enc_entries. rewrite fmap_cons.
    cbn [concat]. rewrite <- app_assoc. pose proof (zlen_put_entry e) as Hz.
    rewrite (proj2 (Z.leb_le _ _)).
    2:{ rewrite zlen_app. pose proof (zlen_nonneg (concat (put_entry <$> es) ++ tail)). lia. }
    unfold zlen in Hz. rewrite take_app_length', drop_app_length' by lia.
    rewrite get_put_entry by done. simpl rd_err. fold (enc_entries es).
    rewrite (IH (acc ++ [e]) fuel).
    + by rewrite <- app_assoc.
    + simpl in Hf. lia.
Qed.

(** ** Lookup *)

Definition entry_lt (e1 e2 : entry) : Prop := e_offset e1 < e_offset e2.

(** A reference definition of the lookup: the last entry at or below the
    target. *)
Definition lookup_ref (es : list entry) (target : Z) : result Z :=
  match last (filter (fun e => e_offset e <= target) es) with
  | Some e => Ok (e_position e)
  | None => Err ErrOffsetNotFound
  end.

Lemma sorted_lookup_lt es i j e1 e2 :
  StronglySorted entry_lt es -> (i < j)%nat ->
  es !! i = Some e1 -> es !! j = Some e2 -> e_offset e1 < e_offset e2.
Proof.
  intros Hs. revert i j. induction Hs as [|e es Hs IH He]; intros i j Hij H1 H2; [done|].
  destruct j as [|j]; [lia|]. destruct i as [|i]; simpl in *.
  - injection H1 as ->. rewrite Forall_forall in He. apply He. by eapply list_elem_of_lookup_2.
  - eapply (IH i j); [lia|done..].
Qed.

(** The binary search keeps: entries below [lo] are at or below the target,
    entries above [hi] are beyond it, and [res] is the one before [lo]. *)
Lemma search_correct es target lo hi res :
  StronglySorted entry_lt es -> 0 <= lo -> hi < zlen es -> lo <= hi + 1 -> res = lo - 1 ->
  (forall i e, es !! i = Some e -> Z.of_nat i < lo -> e_offset e <= target) ->
  (forall i e, es !! i = Some e -> hi < Z.of_nat i -> target < e_offset e) ->
  exists r, search es target lo hi res = Ok r /\ -1 <= r < zlen es /\
    (forall i e, es !! i = Some e -> Z.of_nat i <= r -> e_offset e <= target) /\
    (forall i e, es !! i = Some e -> r < Z.of_nat i -> target < e_offset e).
Proof.
  intros Hs. funelim (search es target lo hi res); intros Hlo Hhi Hlh -> Hle Hgt.
  - exists (lo - 1). split_and!; try lia; try done.
    + intros i e Hi Hr. apply (Hle i); [done|lia].
    + intros i e Hi Hr. apply (Hgt i); [done|lia].
  - clear Heqcall Heq0.
    pose proof (Z.div_mod (lo + hi) 2 ltac:(lia)). pose proof (Z.mod_pos_bound (lo + hi) 2 ltac:(lia)).
    set (mid := (lo + hi) / 2) in *. destruct (Z.leb_spec (e_offset e) target) as [Ht|Ht].
    + apply H0; try done; try lia. intros i e' Hi Hlt.
      destruct (decide (i = Z.to_nat mid)) as [->|Hne]; [naive_solver|].
      pose proof (sorted_lookup_lt es i (Z.to_nat mid) e' e Hs ltac:(lia) Hi Heq). lia.
    + apply H1; try done; try lia. intros i e' Hi Hlt.
      destruct (decide (i = Z.to_nat mid)) as [->|Hne]; [naive_solver|].
      pose proof (sorted_lookup_lt es (Z.to_nat mid) i e e' Hs ltac:(lia) Heq Hi). lia.
  - exfalso. apply lookup_ge_None_1 in Heq. unfold zlen in Hhi.
    pose proof (Z.div_mod (lo + hi) 2). pose proof (Z.mod_pos_bound (lo + hi) 2). lia.
Qed.

Lemma filter_prefix {A} (P : A -> Prop) `{!forall x, Decision (P x)} (l : list A) k :
  (forall i x, l !! i = Some x -> (i < k)%nat -> P x) ->
  (forall i x, l !! i = Some x -> (k <= i)%nat -> ~ P x) ->
  filter P l = take k l.
Proof.
  revert k. induction l as [|x l IH]; intros k Hin Hout; [by rewrite take_nil|].
  destruct k as [|k].
  - rewrite filter_cons_False by (apply (Hout 0%nat); [done|lia]). rewrite take_0.
    apply (IH 0%nat); intros i y Hi Hk; [lia|]. apply (Hout (S i)); [done|lia].
  - rewrite filter_cons_True by (apply (Hin 0%nat); [done|lia]). simpl. f_equal.
    apply IH; intros i y Hi Hk; [apply (Hin (S i))|apply (Hout (S i))]; try done; lia.
Qed.

Lemma Lookup_ref x target :
  StronglySorted entry_lt (ix_entries x) ->
  Lookup x target = lookup_ref (ix_entries x) target.
Proof.
  intros Hs. unfold Lookup, lookup_ref. set (es := ix_entries x) in *.
  destruct (Z.eqb_spec (zlen es) 0) as [H0|H0].
  { by rewrite (zlen_nil_inv es) by lia. }
  destruct (search_correct es target 0 (zlen es - 1) (-1) Hs) as (r & -> & Hr & Hle & Hgt);
    try lia.
  { pose proof (zlen_nonneg es). lia. }
  { intros i e Hi Hlt. apply lookup_lt_Some in Hi. unfold zlen in Hlt. lia. }
  rewrite (filter_prefix _ es (Z.to_nat (r + 1))).
  2:{ intros i e Hi Hk. apply (Hle i); [done|lia]. }
  2:{ intros i e Hi Hk. pose proof (Hgt i e Hi ltac:(lia)). lia. }
  destruct (Z.eqb_spec r (-1)) as [->|Hn]; [done|].
  destruct (lookup_lt_is_Some_2 es (Z.to_nat r)) as [e He]; [unfold zlen in *; lia|].
  rewrite He. replace (Z.to_nat (r + 1)) with (S (Z.to_nat r)) by lia.
  by rewrite (take_S_r _ _ e), last_snoc.
Qed.

(** C19: On entries in increasing order the binary search of
    [Lookup] returns what the linear reference does: the position of the last
    entry at or below the target, or [ErrOffsetNotFound] when there is none. *)
Theorem Lookup_refines_reference x target :
  StronglySorted entry_lt (ix_entries x) ->
  Lookup x target = lookup_ref (ix_entries x) target.
Proof. apply Lookup_ref. Qed.

(** ** Invariant *)

(** The file and the write buffer together hold the encoding of the entries
    in memory, which are in increasing order, and the byte counter is below
    the interval. *)
Record ix_ok (x : Index) (o : os) : Prop := {
  io_bw : bw_ok (ix_file x) (ix_bw x) o (enc_entries (ix_entries x));
  io_sorted : StronglySorted entry_lt (ix_entries x);
  io_wf : Forall wf_entry (ix_entries x);
  io_count : 0 <= ix_bytesWrittenSinceLastEntry x < IndexIntervalBytes }.

Abbreviation ix_path x := (h_path (ix_file x)).

Lemma ix_ok_frame x o o' q : ix_ok x o -> appends q o o' -> q <> ix_path x -> ix_ok x o'.
Proof. intros [] ??. constructor; try done. by eapply bw_ok_frame. Qed.

Lemma ix_ok_quiet x o o' : ix_ok x o -> quiet o o' -> ix_ok x o'.
Proof. intros [] ?. constructor; try done. by eapply bw_ok_quiet. Qed.

Lemma sorted_snoc es e :
  StronglySorted entry_lt es -> Forall (fun e' => entry_lt e' e) es ->
  StronglySorted entry_lt (es ++ [e]).
Proof.
  induction 1 as [|e0 es Hs IH H0]; intros Hall; simpl; [repeat constructor|].
  inversion Hall; subst. constructor; [auto|]. apply Forall_app; auto.
Qed.

(** What recording [size] bytes does to entries and counter, in the abstract. *)
Definition index_step (off pos size : Z) (es : list entry) (n : Z) : list entry * Z :=
  if n + size <? IndexIntervalBytes then (es, n + size) else (es ++ [Entry off pos], 0).

Lemma maybeAppend_spec x o off pos size :
  ix_ok x o -> wf_entry (Entry off pos) -> 0 <= size < 2 ^ 62 ->
  Forall (fun e => e_offset e < off) (ix_entries x) ->
  wp (maybeAppend off pos size) (fun r '(x', o') =>
    ix_file x' = ix_file x /\ appends (ix_path x) o o' /\
    outcome o (fun _ => ix_ok x' o' /\
      (ix_entries x', ix_bytesWrittenSinceLastEntry x') =
      index_step off pos size (ix_entries x) (ix_bytesWrittenSinceLastEntry x)) r) (x, o).
Proof.
  intros Hx He Hsz Hlt. pose proof Hx as [Hbw Hs Hwf Hc]. unfold IndexIntervalBytes in Hc.
  unfold maybeAppend, index_step. wp_steps.
  unfold i64. rewrite swrap_id by fits.
  destruct (Z.ltb_spec (ix_bytesWrittenSinceLastEntry x + size) IndexIntervalBytes) as [Hn|Hn].
  - wp_step. split_and!; [done|reflexivity|]. split; [|done].
    constructor; simpl; unfold IndexIntervalBytes in *; try done; lia.
  - unfold ix_write. wp_steps. eapply wp_bufio_Write; [exact Hbw|]. intros r b' o' [Ha Hr].
    simpl in Ha, Hr. destruct r as [[]|e|]; simpl; [|naive_solver|done].
    wp_steps. split_and!; [done..|]. split; [|done].
    constructor; simpl; [by rewrite enc_entries_snoc|by apply sorted_snoc| |].
    + apply Forall_app; auto.
    + unfold IndexIntervalBytes. lia.
Qed.

(** [Flush] makes the file hold every entry. *)
Lemma Index_Flush_spec x o :
  ix_ok x o ->
  wp Index_Flush (fun r '(x', o') =>
    ix_file x' = ix_file x /\ ix_entries x' = ix_entries x /\ appends (ix_path x) o o' /\
    outcome o (fun _ => ix_ok x' o' /\
      content (ix_path x) o' = enc_entries (ix_entries x)) r) (x, o).
Proof.
  intros [Hbw ? ? ?]. unfold Index_Flush, ix_flush. wp_steps.
  eapply wp_bufio_Flush; [exact Hbw|]. intros r b' o' [Ha Hr] Hok. simpl in Ha, Hr.
  destruct r as [[]|e|]; simpl; [|naive_solver|done]. destruct Hok as [_ Hc]; [done|].
  wp_steps. eapply wp_mono; [apply file_SeekStart_spec, (bo_open _ _ _ _ Hbw)|].
  intros r o2 [Hq Hr2]. split_and!; [done..|etrans; [done|by apply quiet_appends]|].
  destruct r; simpl in *; [|intros Hf; by apply Hr2, (ap_faults _ _ _ Ha)|done].
  rewrite (quiet_content _ _ _ Hq). split; [|done].
  constructor; simpl; try done. by eapply bw_ok_quiet.
Qed.

Lemma Index_Close_spec x o :
  ix_ok x o ->
  wp Index_Close (fun r '(x', o') =>
    appends (ix_path x) o o' /\
    outcome o (fun _ => ix_file x' = Handle (ix_path x) false /\
      content (ix_path x) o' = enc_entries (ix_entries x)) r) (x, o).
Proof.
  intros [Hbw ? ? ?]. unfold Index_Close, ix_flush. wp_steps.
  eapply wp_bufio_Flush; [exact Hbw|]. intros r b' o' [Ha Hr] Hok. simpl in Ha, Hr.
  destruct r as [[]|e|]; simpl; [|naive_solver|done]. destruct Hok as [_ Hc]; [done|].
  wp_steps. eapply wp_mono; [apply file_Close_spec, (bo_open _ _ _ _ Hbw)|].
  intros r [h2 o2] (Hq & Hh & Hr2). simpl in *.
  split; [etrans; [done|by apply quiet_appends]|].
  destruct r; simpl in *; [|intros Hf; by apply Hr2, (ap_faults _ _ _ Ha)|done].
  by rewrite (quiet_content _ _ _ Hq).
Qed.

(** ** Opening an index *)

(** Opening [p] can only fail by the schedule. *)
Definition can_open (p : gostring) (o : os) : Prop :=
  (p ∉ os_dirs o) /\ (parent p ∈ os_dirs o).

#[global] Instance can_open_dec p o : Decision (can_open p o).
Proof. unfold can_open. apply _. Defined.

Lemma can_open_appends p q o o' : can_open p o -> appends q o o' -> can_open p o'.
Proof. unfold can_open. by intros ? [-> _ _ _ _ _]. Qed.

Lemma wp_closing {A} h (m : st os A) Q o :
  h_open h = true ->
  wp m (fun r o' => match r with
                    | Err e => forall o'', quiet o' o'' -> Q (Err e) o''
                    | r => Q r o'
                    end) o ->
  wp (closing h m) Q o.
Proof.
  intros Ho. unfold wp, closing. destruct (m o) as [[|e|] o1]; cbn [fst snd]; try done.
  intros HQ. pose proof (file_Close_spec h o1 Ho) as Hc. unfold wp in Hc.
  destruct (file_Close (h, o1)) as [r [h' o2]]. simpl in *. by apply HQ, Hc.
Qed.

Lemma loadEntries_spec h o es tail :
  h_open h = true -> content (h_path h) o = enc_entries es ++ tail ->
  Forall wf_entry es -> zlen tail < 12 ->
  wp (loadEntries h) (fun r o' => quiet o o' /\ outcome o (fun es' => es' = es) r) o.
Proof.
  intros Ho Hc Hwf Ht. unfold loadEntries. wp_step.
  eapply wp_mono; [by apply file_SeekStart_spec|]. intros r1 o1 [H1 R1].
  destruct r1; simpl in R1; [|done..]. wp_step.
  eapply wp_mono; [by apply file_Stat_spec|]. intros r2 o2 [H2 R2].
  assert (H12 : quiet o o2) by (by etrans).
  destruct r2; simpl in R2; [|split; [done|simpl; intros Hf; by apply R2, H1]|done]. wp_step.
  eapply wp_mono; [by apply file_reader_spec|]. intros r3 o3 (H3 & d & e & -> & _ & Hd).
  assert (H13 : quiet o o3) by (by etrans).
  rewrite (quiet_content _ _ _ H12) in Hd. unfold wp, lift_result. cbn [fst snd rd_data].
  split; [done|]. destruct Hd as [[-> ->]|[Hf ->]].
  - rewrite Hc, load_loop_enc; [done..|]. rewrite length_app.
    pose proof (zlen_enc_entries es) as Hz. unfold zlen in Hz. lia.
  - assert (Hq : os_faults o <> []) by (intros E; by apply Hf, H12).
    rewrite load_loop_fails; [done|lia].
Qed.

Lemma openIndex_spec dir base o es tail :
  let p := index_name dir base in
  can_open p o -> content p o = enc_entries es ++ tail -> Forall wf_entry es ->
  zlen tail < 12 -> StronglySorted entry_lt es ->
  wp (openIndex dir base) (fun r o' =>
    appends p o o' /\ content p o' = content p o /\
    outcome o (fun x => ix_path x = p /\ ix_entries x = es /\
      ix_bytesWrittenSinceLastEntry x = 0 /\ (tail = [] -> ix_ok x o')) r) o.
Proof.
  intros p [Hnd Hpar] Hc Hwf Ht Hs. unfold openIndex. fold p. wp_steps.
  eapply wp_mono; [apply os_OpenFile_spec|]. intros r o1 (Ha & Hc1 & Hr).
  destruct r as [h| |]; simpl; [|naive_solver|done]. destruct Hr as [-> Hex].
  wp_steps. apply wp_closing; [done|].
  eapply wp_mono; [eapply (loadEntries_spec _ _ es tail); simpl; [done|congruence|done..]|].
  intros r2 o2 [Hq Hr2]. simpl in Hr2.
  destruct r2 as [es'|e|]; simpl in *; [| |done].
  - subst es'. wp_step.
    split_and!; [etrans; [done|by apply quiet_appends]|by rewrite (quiet_content _ _ _ Hq)|].
    simpl. split_and!; [done..|].
    intros ->. constructor; simpl; try done.
    eapply bw_ok_quiet; [|done]. by constructor; simpl; rewrite ?Hc1, ?Hc, ?app_nil_r.
  - intros o3 Hq3. assert (Hq' : quiet o1 o3) by (by etrans).
    split_and!; [etrans; [done|by apply quiet_appends]|by rewrite (quiet_content _ _ _ Hq')|].
    intros Hf. by apply Hr2, (ap_faults _ _ _ Ha).
Qed.

#[global] Opaque maybeAppend Index_Flush Index_Close openIndex.

(** ** Instances *)

Definition sample_index : Index :=
  MkIndex (Handle (gos "/d/x.index") true) (NewWriterSize indexWriteBufferSize)
    [Entry 0 0; Entry 5000 5000; Entry 9100 9100; Entry 14000 14000] 0.

Lemma Lookup_refines_reference_witness :
  Lookup sample_index 9099 = lookup_ref (ix_entries sample_index) 9099 /\
  lookup_ref (ix_entries sample_index) 9099 = Ok 5000.
Proof.
  split; [|by vm_compute]. apply (Lookup_refines_reference sample_index 9099).
  unfold sample_index, entry_lt. repeat constructor; simpl; lia.
Defined.
