(* ===== verification/LogSegment.v ===== *)
(** * Log segments ([internal/storage/segment.go])

    A segment is an append-only file of length-prefixed records with its
    sparse index. Every method holds the segment's mutex for its whole body,
    so a method is one atomic step of the model. *)

From stdpp Require Import base tactics list numbers gmap strings sorting.
From Stdlib Require Import ZArith Lia.
From S2P Require Import Prelude GoIO GoStrings OSFile LogIndex.
#[local] Open Scope Z_scope.

(** ** Data *)

Definition DefaultMaxSegmentSize : Z := Z.shiftl 1 30.
Definition recordHeaderSize : Z := 4.
Definition writeBufferSize : Z := Z.shiftl 256 10.

Record Segment := MkSegment {
  sg_file : handle;
  sg_bw : bufw;
  sg_idx : Index;
  sg_baseOffset : Z;
  sg_size : Z;
  sg_maxSize : Z }.

Record SegmentConfig := MkSegmentConfig { sc_MaxSize : Z; sc_Retention : Z }.

Definition set_sg_file (f : handle) (s : Segment) : Segment :=
  MkSegment f (sg_bw s) (sg_idx s) (sg_baseOffset s) (sg_size s) (sg_maxSize s).
Definition set_sg_bw (b : bufw) (s : Segment) : Segment :=
  MkSegment (sg_file s) b (sg_idx s) (sg_baseOffset s) (sg_size s) (sg_maxSize s).
Definition set_sg_idx (x : Index) (s : Segment) : Segment :=
  MkSegment (sg_file s) (sg_bw s) x (sg_baseOffset s) (sg_size s) (sg_maxSize s).
Definition set_sg_size (n : Z) (s : Segment) : Segment :=
  MkSegment (sg_file s) (sg_bw s) (sg_idx s) (sg_baseOffset s) n (sg_maxSize s).

(** ** Operations *)

Definition segment_name (dir : gostring) (baseOffset : Z) : gostring :=
  Join dir (fmt_020d baseOffset ++ gos ".log").

Definition OpenSegment (dir : gostring) (baseOffset : Z) (cfg : SegmentConfig) : st os Segment :=
  let maxSize := if sc_MaxSize cfg <=? 0 then DefaultMaxSegmentSize else sc_MaxSize cfg in
  let name := segment_name dir baseOffset in
  f ← wrapf "storage: open segment %q: %w" [DStr name] (os_OpenFile name);
  size ← wrapf "storage: stat segment %q: %w" [DStr name] (closing f (file_Stat f));
  idx ← closing f (openIndex dir baseOffset);
  mret (MkSegment f (NewWriterSize writeBufferSize) idx baseOffset size maxSize).

(** [s.bw.Write(p)] and [s.bw.Flush()] *)
Definition sg_write (p : list byte) : stio Segment unit :=
  f ← get_st sg_file; zoom sg_bw set_sg_bw (bufio_Write f p).
Definition sg_flush : stio Segment unit :=
  f ← get_st sg_file; zoom sg_bw set_sg_bw (bufio_Flush f).

Definition Segment_Append (payload : list byte) : stio Segment Z :=
  let recordSize := i64 (recordHeaderSize + zlen payload) in
  size ← get_st sg_size;
  maxSize ← get_st sg_maxSize;
  if maxSize <? i64 (size + recordSize) then sfail ErrSegmentFull
  else
    let offset := u64 size in
    _ ← wrapf "storage: write record header: %w" [] (sg_write (be_put 4 (u32 (zlen payload))));
    _ ← wrapf "storage: write record payload: %w" [] (sg_write payload);
    _ ← put_st (fun s => set_sg_size (i64 (sg_size s + recordSize)) s);
    _ ← wrapf "storage: update index: %w" []
          (zoom sg_idx set_sg_idx (maybeAppend offset (u32 offset) recordSize));
    mret offset.

Definition Segment_Flush : stio Segment unit :=
  _ ← wrapf "storage: flush segment: %w" [] sg_flush;
  f ← get_st sg_file;
  _ ← wrapf "storage: fsync segment: %w" [] (on_os (file_Sync f));
  zoom sg_idx set_sg_idx Index_Flush.

Definition Segment_ReadAt (offset : Z) : stio Segment (list byte) :=
  _ ← wrapf "storage: flush before read: %w" [] sg_flush;
  f ← get_st sg_file;
  hdr ← wrapf "storage: read record header at %d: %w" [DInt offset]
          (on_os (file_ReadAt f (i64 offset) recordHeaderSize));
  let length := be_get hdr in
  if length =? 0 then mret []
  else wrapf "storage: read record payload at %d: %w" [DInt offset]
         (on_os (file_ReadAt f (i64 (i64 offset + recordHeaderSize)) length)).

(** An [*io.SectionReader]: a window of a file, read when it is used. *)
Record section := MkSection { sr_file : handle; sr_off : Z; sr_n : Z }.

(** What sequential reads of the window deliver. *)
Definition section_reader (r : section) : st os reader := fun o =>
  let '(f, o) := sys o in
  if negb (h_open (sr_file r)) then (Ok (Rd [] ErrFileClosed), o)
  else if sr_off r <? 0 then (Ok (Rd [] ErrOS), o)
  else let d := slice (sr_off r) (sr_off r + sr_n r) (content (h_path (sr_file r)) o) in
       match f with
       | Some k => (Ok (Rd (take k d) ErrOS), o)
       | None => (Ok (Rd d EOF), o)
       end.

Definition Segment_Read (offset size : Z) : stio Segment section :=
  if size <=? 0 then sfail ErrInvalidSize
  else
    n ← get_st sg_size;
    if n <=? i64 offset then sfail ErrInvalidOffset
    else if n <? i64 (i64 offset + size) then sfail ErrInvalidSize
    else
      _ ← wrapf "storage: flush before read: %w" [] sg_flush;
      f ← get_st sg_file;
      mret (MkSection f (i64 offset) size).

Definition Segment_Size (s : Segment) : Z := sg_size s.
Definition Segment_BaseOffset (s : Segment) : Z := sg_baseOffset s.
Definition Segment_Index (s : Segment) : Index := sg_idx s.

Definition Segment_Close : stio Segment unit :=
  _ ← wrapf "storage: flush on close: %w" [] sg_flush;
  _ ← wrapf "storage: close segment file: %w" [] (zoom sg_file set_sg_file file_Close);
  zoom sg_idx set_sg_idx Index_Close.

(** ** Layout and invariant *)

(** A record on disk. *)
Definition frame (p : list byte) : list byte := be_put 4 (zlen p) ++ p.

Lemma zlen_frame p : zlen (frame p) = 4 + zlen p.
Proof. unfold frame. zlen_lia. Qed.

Abbreviation sg_path s := (h_path (sg_file s)).
Definition sg_paths (s : Segment) : list gostring := [sg_path s; ix_path (sg_idx s)].

(** The log file and its buffer hold [log], which [size] counts. *)
Record seg_ok (s : Segment) (o : os) (log : list byte) : Prop := {
  so_bw : bw_ok (sg_file s) (sg_bw s) o log;
  so_size : sg_size s = zlen log;
  so_bound : zlen log < 2 ^ 62;
  so_max : sg_maxSize s < 2 ^ 62;
  so_distinct : ix_path (sg_idx s) <> sg_path s }.

(** The index is intact, and its entries point into the log. *)
Record seg_ix_ok (s : Segment) (o : os) : Prop := {
  xo_ix : ix_ok (sg_idx s) o;
  xo_entries : Forall (fun e => e_offset e < sg_size s /\ e_position e = u32 (e_offset e))
                 (ix_entries (sg_idx s)) }.

(** The names and limits of a segment do not change. *)
Definition same_segment (s s' : Segment) : Prop :=
  sg_path s' = sg_path s /\ ix_path (sg_idx s') = ix_path (sg_idx s) /\
  sg_baseOffset s' = sg_baseOffset s /\ sg_maxSize s' = sg_maxSize s.

#[global] Instance same_segment_preorder : PreOrder same_segment.
Proof.
  split; [done|]. unfold same_segment.
  intros s1 s2 s3 (?&?&?&?) (?&?&?&?). split_and!; congruence.
Qed.

Lemma seg_ok_touches s o o' log ps :
  seg_ok s o log -> touches ps o o' -> sg_path s ∉ ps -> seg_ok s o' log.
Proof. intros [] ??. constructor; try done. by eapply bw_ok_touches. Qed.

Lemma seg_ix_ok_touches s o o' ps :
  seg_ix_ok s o -> touches ps o o' -> ix_path (sg_idx s) ∉ ps -> seg_ix_ok s o'.
Proof.
  intros [[] ?] ??. constructor; [|done]. constructor; try done. by eapply bw_ok_touches.
Qed.

(** ** Writing *)

Lemma appends_paths s o o' : appends (sg_path s) o o' -> touches (sg_paths s) o o'.
Proof. intros. eapply appends_touches; [|done]. set_solver. Qed.

(** Closes the branch of a write that failed, from what it touched and from
    the presence of faults. *)
Ltac append_fails Ht Hn :=
  simpl; split_and!; [unfold same_segment; simpl; split_and!; congruence|exact Ht|]; right; split_and!; [done|exact Hn|lia].

Lemma u64_id n : 0 <= n < 2 ^ 62 -> u64 n = n.
Proof. intros. apply uwrap_id. fits. Qed.
Lemma i64_id n : - 2 ^ 62 <= n < 2 ^ 62 + 2 ^ 33 -> i64 n = n.
Proof. intros. apply swrap_id; fits. Qed.

(** The outcome of [Append] on an intact segment: on success the record is at
    the end of the log, at the returned position; a full segment is left as it
    was; any other error comes from a failing write. *)
Lemma Segment_Append_spec s o log p :
  seg_ok s o log -> seg_ix_ok s o -> zlen p < 2 ^ 32 ->
  wp (Segment_Append p) (fun r '(s', o') =>
    same_segment s s' /\ touches (sg_paths s) o o' /\
    match r with
    | Ok off =>
        off = zlen log /\ zlen log + zlen (frame p) <= sg_maxSize s /\
        seg_ok s' o' (log ++ frame p) /\ seg_ix_ok s' o' /\
        (ix_entries (sg_idx s'), ix_bytesWrittenSinceLastEntry (sg_idx s')) =
        index_step off (u32 off) (zlen (frame p)) (ix_entries (sg_idx s))
          (ix_bytesWrittenSinceLastEntry (sg_idx s))
    | Err e =>
        (e = ErrSegmentFull /\ sg_maxSize s < zlen log + zlen (frame p) /\ s' = s /\ o' = o) \/
        (errors_is e ErrSegmentFull = errors_is e ErrSegmentFull /\ os_faults o <> [] /\
         zlen log + zlen (frame p) <= sg_maxSize s)
    | Panic _ => False
    end) (s, o).
Proof.
  intros Hs Hx Hp. pose proof Hs as [Hbw Hsz Hb Hm Hd]. pose proof (zlen_nonneg log).
  pose proof (zlen_nonneg p). rewrite zlen_frame.
  unfold Segment_Append, recordHeaderSize. wp_steps.
  rewrite (i64_id (4 + _)), Hsz, u64_id, i64_id by lia.
  destruct (Z.ltb_spec (sg_maxSize s) (zlen log + (4 + zlen p))) as [Hfull|Hfits].
  { split_and!; [done|reflexivity|]. left. split_and!; try done; lia. }
  assert (Hu : u32 (zlen p) = zlen p) by (apply uwrap_id; fits). rewrite Hu.
  wp_steps. eapply wp_bufio_Write; [exact Hbw|]. intros r1 b1 o1 [Ha1 Hr1]. simpl in Ha1, Hr1.
  destruct r1 as [[]|e1|]; [|append_fails (appends_paths _ _ _ Ha1) (proj2 Hr1)|done].
  wp_steps. eapply wp_bufio_Write; [exact Hr1|]. intros r2 b2 o2 [Ha2 Hr2]. simpl in Ha2, Hr2.
  pose proof (transitivity Ha1 Ha2) as Ha.
  destruct r2 as [[]|e2|];
    [|append_fails (appends_paths _ _ _ Ha) (fun H => proj2 Hr2 (ap_faults _ _ _ Ha1 H))|done].
  clear Ha1 Ha2. wp_steps. destruct Hx as [Hx Hent].
  eapply wp_mono; [apply maybeAppend_spec; simpl|].
  - by eapply ix_ok_frame.
  - split; simpl; [fits|]. by apply uwrap_fits.
  - lia.
  - eapply Forall_impl; [exact Hent|]. simpl. lia.
  - intros r3 [x3 o3] (Hf3 & Ha3 & Hr3). simpl in *.
    assert (Ht : touches (sg_paths s) o o3).
    { etrans; [by apply appends_paths|]. eapply appends_touches; [|done]. set_solver. }
    destruct r3 as [[]|e3|];
      [|append_fails Ht (fun H => Hr3 (ap_faults _ _ _ Ha H))|done].
    destruct Hr3 as [Hix Hstep]. simpl in Hstep.
    rewrite Hsz, i64_id by lia.
    assert (Hl : (log ++ be_put 4 (zlen p)) ++ p = log ++ frame p)
      by (unfold frame; by rewrite app_assoc).
    apply wp_ret. split; [unfold same_segment; simpl; split_and!; congruence|].
    split; [done|]. split_and!; try lia; [| |done].
    + constructor; simpl; try done; rewrite ?zlen_app, ?zlen_frame; try lia; [|congruence].
      rewrite <- Hl. by eapply bw_ok_frame.
    + constructor; simpl; [done|].
      apply (f_equal fst) in Hstep. simpl in Hstep. rewrite Hstep. unfold index_step.
      assert (Hold : Forall (fun e => e_offset e < zlen log + (4 + zlen p) /\
                e_position e = u32 (e_offset e)) (ix_entries (sg_idx s))).
      { eapply Forall_impl; [exact Hent|]. simpl. lia. }
      case_match; simpl; [done|]. apply Forall_app. split; [done|].
      repeat constructor; simpl; lia.
Qed.

(** ** Reading and flushing *)

Lemma sg_flush_spec s o log :
  seg_ok s o log ->
  wp sg_flush (fun r '(s', o') =>
    (exists b, s' = set_sg_bw b s) /\ appends (sg_path s) o o' /\
    outcome o (fun _ => seg_ok s' o' log /\ content (sg_path s) o' = log) r) (s, o).
Proof.
  intros [Hbw Hsz Hb Hm Hd]. unfold sg_flush. wp_steps.
  eapply wp_bufio_Flush; [exact Hbw|]. intros r b o' [Ha Hr] Hok. simpl in *.
  split; [eauto|]. split; [done|]. destruct r as [[]|e|]; simpl; [|tauto|done].
  split; [by constructor|]. by apply Hok.
Qed.
#[global] Opaque sg_flush.

(** The segment after a successful flush of its log. *)
Lemma after_flush s o log b o' :
  seg_ix_ok s o -> seg_ok s o log -> appends (sg_path s) o o' -> seg_ix_ok (set_sg_bw b s) o'.
Proof.
  intros [Hx He] [] Ha. constructor; [|done]. simpl. by eapply ix_ok_frame.
Qed.

Lemma seg_ok_quiet s o o' log : seg_ok s o log -> quiet o o' -> seg_ok s o' log.
Proof. intros [] ?. constructor; try done. by eapply bw_ok_quiet. Qed.

(** After [Flush] the files hold the log and every index entry. *)
Lemma Segment_Flush_spec s o log :
  seg_ok s o log -> seg_ix_ok s o ->
  wp Segment_Flush (fun r '(s', o') =>
    same_segment s s' /\ touches (sg_paths s) o o' /\
    outcome o (fun _ => seg_ok s' o' log /\ seg_ix_ok s' o' /\ content (sg_path s) o' = log /\
      content (ix_path (sg_idx s)) o' = enc_entries (ix_entries (sg_idx s))) r) (s, o).
Proof.
  intros Hs Hx. pose proof (so_distinct _ _ _ Hs) as Hd. unfold Segment_Flush. wp_steps.
  eapply wp_mono; [by apply sg_flush_spec|].
  intros r1 [s1 o1] ([b ->] & Ha & Hr). pose proof (appends_paths _ _ _ Ha) as Ht.
  destruct r1 as [[]|e|]; simpl in *; [|done..].
  destruct Hr as [Hs1 Hc]. pose proof (after_flush _ _ _ b _ Hx Hs Ha) as Hx1.
  wp_steps. eapply wp_mono; [apply file_SeekStart_spec, (so_bw _ _ _ Hs1)|].
  intros r2 o2 [Hq Hr2]. pose proof (quiet_touches (sg_paths s) _ _ Hq) as Hqt.
  destruct r2 as [[]|e|]; simpl in *;
    [|split_and!; [done|by etrans|]; intros Hf; by apply Hr2, (ap_faults _ _ _ Ha)|done].
  wp_steps. eapply wp_mono; [apply Index_Flush_spec; eapply ix_ok_quiet; [apply Hx1|done]|].
  intros r3 [x3 o3] (Hf3 & He3 & Ha3 & Hr3). simpl in *.
  assert (Ht3 : touches (sg_paths s) o2 o3) by (eapply appends_touches; [|done]; set_solver).
  split_and!; [by unfold same_segment; simpl; rewrite Hf3|by do 2 etrans|].
  destruct r3 as [[]|e|]; simpl in *; [|intros Hf; by apply Hr3, Hq, (ap_faults _ _ _ Ha)|done].
  destruct Hr3 as [Hix Hcx]. destruct Hx1 as [? Hent]. simpl in *. split_and!; [| | |done].
  - pose proof (seg_ok_quiet _ _ _ _ Hs1 Hq) as []. constructor; simpl in *; try done;
      [by eapply bw_ok_frame|congruence].
  - constructor; simpl; [done|]. by rewrite He3.
  - by rewrite (content_others _ _ _ _ Ha3), (quiet_content _ _ _ Hq) by done.
Qed.

(** What the bytes of a log say about the record at a position. *)
Definition log_ReadAt (off : Z) (log : list byte) : result (list byte) :=
  if zlen log <? off + 4 then Err (Wrapf "storage: read record header at %d: %w" [DInt off] EOF)
  else
    let n := be_get (slice off (off + 4) log) in
    if n =? 0 then Ok []
    else if zlen log <? off + 4 + n
    then Err (Wrapf "storage: read record payload at %d: %w" [DInt off] EOF)
    else Ok (slice (off + 4) (off + 4 + n) log).

(** The result is the specified one, unless a system call failed. *)
Definition exactly {A} (o : os) (r0 r : result A) : Prop :=
  r = r0 \/ os_faults o <> [] /\ exists e, r = Err e.

Lemma exactly_no_faults {A} o (r0 r : result A) : exactly o r0 r -> os_faults o = [] -> r = r0.
Proof. intros [->|[]]; done. Qed.

Lemma exactly_earlier {A} o o' (r0 r : result A) :
  exactly o' r0 r -> (os_faults o = [] -> os_faults o' = []) -> exactly o r0 r.
Proof. unfold exactly. naive_solver. Qed.

(** Reading part of a file whose content is known. *)
Lemma file_ReadAt_exact h off n o log :
  h_open h = true -> 0 <= off -> content (h_path h) o = log ->
  wp (file_ReadAt h off n) (fun r o' => quiet o o' /\
    exactly o (if zlen log <? off + n then Err EOF else Ok (slice off (off + n) log)) r) o.
Proof.
  intros Ho Hoff <-. unfold wp, file_ReadAt, exactly. sys_case o f o1 Hq Hn. rewrite Ho. simpl.
  rewrite (proj2 (Z.ltb_ge _ _)) by lia. destruct f; simpl; [naive_solver|].
  rewrite (quiet_content _ _ _ Hq), Z.leb_antisym.
  destruct (zlen _ <? off + n); simpl; auto.
Qed.

Lemma Segment_ReadAt_spec s o log off :
  seg_ok s o log -> seg_ix_ok s o -> 0 <= off < 2 ^ 62 ->
  wp (Segment_ReadAt off) (fun r '(s', o') =>
    same_segment s s' /\ touches (sg_paths s) o o' /\
    exactly o (log_ReadAt off log) r /\
    (os_faults o = [] -> seg_ok s' o' log /\ seg_ix_ok s' o')) (s, o).
Proof.
  intros Hs Hx Hoff. unfold Segment_ReadAt, log_ReadAt, recordHeaderSize. wp_steps.
  eapply wp_mono; [by apply sg_flush_spec|].
  intros r1 [s1 o1] ([b ->] & Ha & Hr). pose proof (appends_paths _ _ _ Ha) as Ht.
  destruct r1 as [[]|e|]; simpl in *; [|split_and!; [done..|unfold exactly; eauto|done]|done].
  destruct Hr as [Hs1 Hc]. pose proof (after_flush _ _ _ b _ Hx Hs Ha) as Hx1.
  pose proof (ap_faults _ _ _ Ha) as Hf1.
  rewrite (i64_id off), (i64_id (off + 4)) by lia.
  wp_steps. eapply wp_mono; [apply (file_ReadAt_exact _ _ _ _ log); [apply (so_bw _ _ _ Hs1)|lia|done]|].
  intros r2 o2 [Hq Hr2]. pose proof (quiet_touches (sg_paths s) _ _ Hq) as Hqt.
  assert (Hs2 := seg_ok_quiet _ _ _ _ Hs1 Hq).
  assert (Hx2 : seg_ix_ok (set_sg_bw b s) o2).
  { destruct Hx1. constructor; [|done]. by eapply ix_ok_quiet. }
  assert (Ht2 : touches (sg_paths s) o o2) by (by etrans).
  apply (exactly_earlier o) in Hr2; [|done].
  destruct Hr2 as [->|[Hf [e ->]]]; [|simpl; split_and!; try done; unfold exactly; eauto].
  destruct (Z.ltb_spec (zlen log) (off + 4)) as [H4|H4];
    [simpl; split_and!; try done; by left|].
  simpl. destruct (Z.eqb_spec (be_get (slice off (off + 4) log)) 0) as [Hz|Hz].
  { wp_step. split_and!; try done. by left. }
  wp_steps. eapply wp_mono;
    [apply (file_ReadAt_exact _ _ _ _ log); [apply (so_bw _ _ _ Hs1)|lia|]|].
  { simpl. by rewrite (quiet_content _ _ _ Hq). }
  intros r3 o3 [Hq3 Hr3]. simpl in *. apply (exactly_earlier o) in Hr3; [|intros; by apply Hq, Hf1].
  split_and!; [done|etrans; [done|by apply quiet_touches]| |].
  - destruct Hr3 as [->|[Hf [e ->]]]; [left; by case_match|right; simpl; eauto].
  - intros _. split; [by eapply seg_ok_quiet|]. destruct Hx2. constructor; [|done].
    by eapply ix_ok_quiet.
Qed.

Lemma log_ReadAt_frame pre p post :
  zlen p < 2 ^ 32 -> log_ReadAt (zlen pre) (pre ++ frame p ++ post) = Ok p.
Proof.
  intros Hp. pose proof (zlen_nonneg pre). pose proof (zlen_nonneg p).
  pose proof (zlen_nonneg post). unfold log_ReadAt.
  assert (Hhdr : slice (zlen pre) (zlen pre + 4) (pre ++ frame p ++ post) = be_put 4 (zlen p)).
  { unfold frame. rewrite <- app_assoc, <- (zlen_be_put 4 (zlen p)) at 1. apply slice_mid. }
  rewrite Hhdr, be_get_put, Z.mod_small by (simpl; lia).
  rewrite !zlen_app, zlen_frame, !(proj2 (Z.ltb_ge _ _)) by lia.
  destruct (Z.eqb_spec (zlen p) 0); [by rewrite (zlen_nil_inv p) by lia|].
  f_equal. unfold frame. rewrite <- app_assoc, app_assoc.
  replace (zlen pre + 4) with (zlen (pre ++ be_put 4 (zlen p))) by zlen_lia.
  apply slice_mid.
Qed.

Lemma section_reader_spec r o :
  h_open (sr_file r) = true -> 0 <= sr_off r -> 0 <= sr_n r ->
  sr_off r + sr_n r <= zlen (content (h_path (sr_file r)) o) -> os_faults o = [] ->
  section_reader r o =
  (Ok (Rd (slice (sr_off r) (sr_off r + sr_n r) (content (h_path (sr_file r)) o)) EOF), o).
Proof.
  intros Ho ? ? ? Hf. unfold section_reader. rewrite (sys_no_faults _ Hf), Ho. simpl.
  by rewrite (proj2 (Z.ltb_ge _ _)) by lia.
Qed.

(** [Read] on every branch: the guards in their order, then a window on
    exactly the requested bytes. *)
Lemma Segment_Read_spec s o log off n :
  seg_ok s o log -> seg_ix_ok s o -> 0 <= off < 2 ^ 62 -> n < 2 ^ 31 ->
  wp (Segment_Read off n) (fun r '(s', o') =>
    same_segment s s' /\ touches (sg_paths s) o o' /\
    if n <=? 0 then r = Err ErrInvalidSize /\ s' = s /\ o' = o
    else if zlen log <=? off then r = Err ErrInvalidOffset /\ s' = s /\ o' = o
    else if zlen log <? off + n then r = Err ErrInvalidSize /\ s' = s /\ o' = o
    else outcome o (fun w => seg_ok s' o' log /\ seg_ix_ok s' o' /\
           content (sg_path s) o' = log /\ w = MkSection (sg_file s) off n) r) (s, o).
Proof.
  intros Hs Hx Hoff Hn. unfold Segment_Read. pose proof (so_size _ _ _ Hs) as Hsz.
  destruct (Z.leb_spec n 0) as [H0|H0]; [split_and!; done|].
  wp_steps. rewrite Hsz, i64_id by lia.
  destruct (Z.leb_spec (zlen log) off) as [H1|H1]; [split_and!; done|].
  rewrite i64_id by lia.
  destruct (Z.ltb_spec (zlen log) (off + n)) as [H2|H2]; [split_and!; done|].
  wp_steps. eapply wp_mono; [by apply sg_flush_spec|].
  intros r1 [s1 o1] ([b ->] & Ha & Hr). pose proof (appends_paths _ _ _ Ha) as Ht.
  destruct r1 as [[]|e|]; simpl in *; [|done..]. destruct Hr as [Hs1 Hc].
  wp_steps. split_and!; [done..|]. simpl. split_and!; [done| |done..].
  by eapply after_flush.
Qed.

(** ** Closing and opening *)

Lemma Segment_Close_spec s o log :
  seg_ok s o log -> seg_ix_ok s o ->
  wp Segment_Close (fun r '(s', o') =>
    touches (sg_paths s) o o' /\
    outcome o (fun _ => content (sg_path s) o' = log /\
      content (ix_path (sg_idx s)) o' = enc_entries (ix_entries (sg_idx s))) r) (s, o).
Proof.
  intros Hs Hx. pose proof (so_distinct _ _ _ Hs) as Hd. unfold Segment_Close. wp_steps.
  eapply wp_mono; [by apply sg_flush_spec|].
  intros r1 [s1 o1] ([b ->] & Ha & Hr). pose proof (appends_paths _ _ _ Ha) as Ht.
  destruct r1 as [[]|e|]; simpl in *; [|done..].
  destruct Hr as [Hs1 Hc]. pose proof (after_flush _ _ _ b _ Hx Hs Ha) as Hx1.
  wp_steps. eapply wp_mono; [apply file_Close_spec, (so_bw _ _ _ Hs1)|].
  intros r2 [h2 o2] (Hq & Hh & Hr2). simpl in *.
  assert (Ht2 : touches (sg_paths s) o o2) by (etrans; [done|by apply quiet_touches]).
  destruct r2 as [[]|e|]; simpl in *;
    [|split; [done|]; intros Hf; by apply Hr2, (ap_faults _ _ _ Ha)|done].
  wp_steps. eapply wp_mono; [apply Index_Close_spec; eapply ix_ok_quiet; [apply Hx1|done]|].
  intros r3 [x3 o3] (Ha3 & Hr3). simpl in *.
  split; [etrans; [done|]; eapply appends_touches; [|done]; set_solver|].
  destruct r3 as [[]|e|]; simpl in *; [|intros Hf; by apply Hr3, (to_faults _ _ _ Ht2)|done].
  destruct Hr3 as [_ Hcx]. split; [|done].
  by rewrite (content_others _ _ _ _ Ha3), (quiet_content _ _ _ Hq) by done.
Qed.

(** ** File names *)

Lemma simple_segment_name base : 0 <= base -> simple_name (fmt_020d base ++ gos ".log").
Proof. intros. apply simple_fmt_020d; [done|]. by apply (bool_decide_unpack _). Qed.
Lemma simple_index_name base : 0 <= base -> simple_name (fmt_020d base ++ gos ".index").
Proof. intros. apply simple_fmt_020d; [done|]. by apply (bool_decide_unpack _). Qed.

Lemma segment_name_inj dir b1 b2 :
  0 <= b1 -> 0 <= b2 -> segment_name dir b1 = segment_name dir b2 -> b1 = b2.
Proof.
  intros H1 H2 H. apply Join_inj in H; [|by apply simple_segment_name..].
  apply app_inv_tail in H. by apply fmt_020d_inj.
Qed.

Lemma index_name_inj dir b1 b2 :
  0 <= b1 -> 0 <= b2 -> index_name dir b1 = index_name dir b2 -> b1 = b2.
Proof.
  intros H1 H2 H. apply Join_inj in H; [|by apply simple_index_name..].
  apply app_inv_tail in H. by apply fmt_020d_inj.
Qed.

Lemma log_index_suffix a b : a ++ gos ".index" <> b ++ gos ".log".
Proof.
  change (gos ".index") with (gos ".inde" ++ [Byte.x78]).
  change (gos ".log") with (gos ".lo" ++ [Byte.x67]).
  rewrite !app_assoc. intros H%(f_equal last). by rewrite !last_snoc in H.
Qed.

Lemma index_segment_ne dir b1 b2 :
  0 <= b1 -> 0 <= b2 -> index_name dir b1 <> segment_name dir b2.
Proof.
  intros H1 H2 H.
  apply Join_inj in H; [|by apply simple_index_name|by apply simple_segment_name].
  by apply log_index_suffix in H.
Qed.

(** The effective size limit of a configuration. *)
Definition max_size (cfg : SegmentConfig) : Z :=
  if sc_MaxSize cfg <=? 0 then DefaultMaxSegmentSize else sc_MaxSize cfg.

(** Opening a segment resumes the log that the file holds, and the entries of
    its index. *)
Lemma OpenSegment_spec dir base cfg o es tail :
  let p := segment_name dir base in
  let q := index_name dir base in
  0 <= base -> can_open p o -> can_open q o -> max_size cfg < 2 ^ 62 ->
  zlen (content p o) < 2 ^ 62 ->
  content q o = enc_entries es ++ tail -> zlen tail < 12 -> Forall wf_entry es ->
  StronglySorted entry_lt es ->
  wp (OpenSegment dir base cfg) (fun r o' =>
    touches [p; q] o o' /\ content p o' = content p o /\ content q o' = content q o /\
    outcome o (fun s =>
      sg_path s = p /\ ix_path (sg_idx s) = q /\ sg_baseOffset s = base /\
      sg_maxSize s = max_size cfg /\ ix_entries (sg_idx s) = es /\
      ix_bytesWrittenSinceLastEntry (sg_idx s) = 0 /\
      seg_ok s o' (content p o) /\
      (tail = [] -> Forall (fun e => e_offset e < zlen (content p o) /\
                                     e_position e = u32 (e_offset e)) es ->
       seg_ix_ok s o')) r) o.
Proof.
  intros p q Hb Hop Hoq Hm Hz Hcq Htl Hwf Hsort.
  assert (Hpq : q <> p) by (by apply index_segment_ne).
  unfold OpenSegment. fold p. fold (max_size cfg). wp_steps.
  eapply wp_mono; [apply os_OpenFile_spec|]. intros r o1 (Ha & Hc1 & Hr).
  assert (Ht1 : touches [p; q] o o1) by (eapply appends_touches; [|done]; set_solver).
  assert (Hq1 : content q o1 = content q o) by (by eapply content_others).
  destruct Hop as [Hnd Hpar].
  destruct r as [h|e|]; simpl; [|split_and!; try done; naive_solver|done].
  destruct Hr as [-> Hex]. wp_steps. apply wp_closing; [done|].
  eapply wp_mono; [by apply file_Stat_spec|]. intros r2 o2 [Hq2 Hr2]. simpl in Hr2.
  assert (Ht2 : touches [p; q] o o2) by (etrans; [done|by apply quiet_touches]).
  destruct r2 as [n|e|]; simpl in *; [| |done].
  2:{ intros o3 Hq3. assert (Hq : quiet o1 o3) by (by etrans).
      rewrite !(quiet_content _ _ _ Hq). split_and!; try done.
      - etrans; [done|by apply quiet_touches].
      - intros Hf. by apply Hr2, (ap_faults _ _ _ Ha). }
  subst n. wp_steps. apply wp_closing; [done|].
  eapply wp_mono; [eapply (openIndex_spec _ _ _ es tail); try done|].
  { split; rewrite (to_dirs _ _ _ Ht2); apply Hoq. }
  { fold q. by rewrite (quiet_content _ _ _ Hq2), Hq1. }
  fold q. intros r3 o3 (Ha3 & Hc3 & Hr3).
  rewrite (quiet_content _ _ _ Hq2), Hq1 in Hc3.
  assert (Ht3 : touches [p; q] o o3).
  { etrans; [exact Ht2|]. eapply appends_touches; [|done]. set_solver. }
  assert (Hp3 : content p o3 = content p o).
  { rewrite (content_others _ _ _ _ Ha3), (quiet_content _ _ _ Hq2) by done. done. }
  destruct r3 as [x|e|]; simpl in *; [| |done].
  2:{ intros o4 Hq4. rewrite !(quiet_content _ _ _ Hq4). split_and!; try done.
      - etrans; [done|by apply quiet_touches].
      - intros Hf. by apply Hr3, (to_faults _ _ _ Ht2). }
  destruct Hr3 as (Hxp & Hxe & Hxn & Hxok). wp_step.
  split_and!; try done. simpl. split_and!; try done.
  - constructor; simpl; try done; [|by rewrite Hc1|congruence].
    eapply bw_ok_frame; [|exact Ha3|done]. eapply bw_ok_quiet; [|done].
    constructor; simpl; try done. by rewrite app_nil_r.
  - intros -> Hent. constructor; simpl; [auto|]. by rewrite Hxe, Hc1.
Qed.
#[global] Opaque Segment_Append Segment_Flush Segment_ReadAt Segment_Read Segment_Close OpenSegment.
