(* ===== verification/SegmentSpec.v ===== *)
(** * What a segment promises

    The abstract log a segment implements: a byte sequence that only grows by
    whole records, with the positions handed out by [Append] as addresses. A
    refinement theorem relates every sequence of calls on a segment to the
    abstract log, and further theorems cover failing writes, restarts and the
    density of the sparse index. *)

From stdpp Require Import base tactics list numbers gmap strings sorting.
From Stdlib Require Import ZArith Lia.
From S2P Require Import Prelude GoIO GoStrings OSFile LogIndex LogSegment.
#[local] Open Scope Z_scope.

(** ** The abstract log *)

Inductive seg_op :=
  | DoAppend (p : list byte)
  | DoFlush
  | DoReadAt (off : Z)
  | DoRead (off n : Z).

Inductive seg_res :=
  | GotOffset (r : result Z)
  | GotUnit (r : result unit)
  | GotBytes (r : result (list byte)).

(** One call on the abstract log of at most [max] bytes. *)
Definition log_step (max : Z) (op : seg_op) (log : list byte) : seg_res * list byte :=
  match op with
  | DoAppend p =>
      if max <? zlen log + zlen (frame p) then (GotOffset (Err ErrSegmentFull), log)
      else (GotOffset (Ok (zlen log)), log ++ frame p)
  | DoFlush => (GotUnit (Ok tt), log)
  | DoReadAt off => (GotBytes (log_ReadAt off log), log)
  | DoRead off n =>
      (GotBytes (if n <=? 0 then Err ErrInvalidSize
                 else if zlen log <=? off then Err ErrInvalidOffset
                 else if zlen log <? off + n then Err ErrInvalidSize
                 else Ok (slice off (off + n) log)), log)
  end.

Fixpoint log_run (max : Z) (ops : list seg_op) (log : list byte) : list seg_res * list byte :=
  match ops with
  | [] => ([], log)
  | op :: ops =>
      let '(r, log) := log_step max op log in
      let '(rs, log) := log_run max ops log in (r :: rs, log)
  end.

(** ** The same calls on a segment *)

(** [Read] and then all bytes of the reader it returns. *)
Definition read_all (off n : Z) : stio Segment (list byte) :=
  w ← Segment_Read off n;
  r ← on_os (section_reader w);
  mret (rd_data r).

Definition seg_step (op : seg_op) (x : Segment * os) : seg_res * (Segment * os) :=
  match op with
  | DoAppend p => let '(r, x) := Segment_Append p x in (GotOffset r, x)
  | DoFlush => let '(r, x) := Segment_Flush x in (GotUnit r, x)
  | DoReadAt off => let '(r, x) := Segment_ReadAt off x in (GotBytes r, x)
  | DoRead off n => let '(r, x) := read_all off n x in (GotBytes r, x)
  end.

Fixpoint seg_run (ops : list seg_op) (x : Segment * os) : list seg_res * (Segment * os) :=
  match ops with
  | [] => ([], x)
  | op :: ops =>
      let '(r, x) := seg_step op x in
      let '(rs, x) := seg_run ops x in (r :: rs, x)
  end.

(** Payloads and positions the program can pass. *)
Definition wf_op (op : seg_op) : Prop :=
  match op with
  | DoAppend p => zlen p < 2 ^ 32
  | DoFlush => True
  | DoReadAt off => 0 <= off < 2 ^ 62
  | DoRead off n => 0 <= off < 2 ^ 62 /\ n < 2 ^ 31
  end.

#[global] Instance wf_op_dec op : Decision (wf_op op).
Proof. destruct op; simpl; apply _. Defined.

(** ** Refinement *)

(** The relation between a segment and the log it holds. *)
Definition holds (s : Segment) (o : os) (log : list byte) : Prop :=
  seg_ok s o log /\ seg_ix_ok s o /\ os_faults o = [].

Lemma read_all_holds s o log off n :
  holds s o log -> 0 <= off < 2 ^ 62 -> n < 2 ^ 31 ->
  wp (read_all off n) (fun r '(s', o') =>
    GotBytes r = (log_step (sg_maxSize s) (DoRead off n) log).1 /\
    same_segment s s' /\ holds s' o' log) (s, o).
Proof.
  intros (Hs & Hx & Hf) Hoff Hn. unfold read_all. wp_step.
  eapply wp_mono; [by apply Segment_Read_spec|]. intros r [s1 o1] (Hsame & Ht & Hr). simpl.
  pose proof (to_faults _ _ _ Ht Hf) as Hf1.
  destruct (Z.leb_spec n 0); [destruct Hr as (-> & -> & ->); by split_and!|].
  destruct (Z.leb_spec (zlen log) off); [destruct Hr as (-> & -> & ->); by split_and!|].
  destruct (Z.ltb_spec (zlen log) (off + n)); [destruct Hr as (-> & -> & ->); by split_and!|].
  apply outcome_ok_of_no_faults in Hr as (w & -> & Hs1 & Hx1 & Hc & ->); [|done].
  wp_steps. unfold wp. rewrite section_reader_spec; simpl; try done; try lia.
  - rewrite Hc. by split_and!.
  - apply (bo_open _ _ _ _ (so_bw _ _ _ Hs)).
  - rewrite Hc. lia.
Qed.

Lemma seg_step_refines s o log op :
  holds s o log -> wf_op op ->
  let '(r, (s', o')) := seg_step op (s, o) in
  let '(r0, log') := log_step (sg_maxSize s) op log in
  r = r0 /\ same_segment s s' /\ holds s' o' log'.
Proof.
  intros Hh Hop. pose proof Hh as (Hs & Hx & Hf). destruct op as [p| |off|off n]; simpl in *.
  - pose proof (Segment_Append_spec s o log p Hs Hx Hop) as H. unfold wp in H.
    destruct (Segment_Append p (s, o)) as [r [s' o']]. simpl in H.
    destruct H as (Hsame & Ht & Hr). pose proof (to_faults _ _ _ Ht Hf) as Hf'.
    destruct r as [off|e|]; [| |done].
    + destruct Hr as (-> & Hle & Hs' & Hx' & _). rewrite (proj2 (Z.ltb_ge _ _)) by lia.
      by split_and!.
    + destruct Hr as [(-> & Hlt & -> & ->)|(_ & Hq & _)]; [|done].
      rewrite (proj2 (Z.ltb_lt _ _)) by lia. by split_and!.
  - pose proof (Segment_Flush_spec s o log Hs Hx) as H. unfold wp in H.
    destruct (Segment_Flush (s, o)) as [r [s' o']]. simpl in H. destruct H as (Hsame & Ht & Hr).
    pose proof (to_faults _ _ _ Ht Hf) as Hf'.
    apply outcome_ok_of_no_faults in Hr as ([] & -> & Hs' & Hx' & _); [|done]. by split_and!.
  - pose proof (Segment_ReadAt_spec s o log off Hs Hx Hop) as H. unfold wp in H.
    destruct (Segment_ReadAt off (s, o)) as [r [s' o']]. simpl in H.
    destruct H as (Hsame & Ht & Hr & Hk). pose proof (to_faults _ _ _ Ht Hf) as Hf'.
    apply exactly_no_faults in Hr as ->; [|done]. destruct (Hk Hf). by split_and!.
  - pose proof (read_all_holds s o log off n Hh (proj1 Hop) (proj2 Hop)) as H. unfold wp in H.
    by destruct (read_all off n (s, o)) as [r [s' o']].
Qed.

Lemma segment_refines_log_run s o log ops :
  holds s o log -> Forall wf_op ops ->
  let '(rs, (s', o')) := seg_run ops (s, o) in
  rs = (log_run (sg_maxSize s) ops log).1 /\
  holds s' o' (log_run (sg_maxSize s) ops log).2.
Proof.
  intros Hh Hops. revert s o log Hh.
  induction Hops as [|op ops Hop Hops IH]; intros s o log Hh; simpl; [done|].
  pose proof (seg_step_refines s o log op Hh Hop) as Hst.
  destruct (seg_step op (s, o)) as [r [s1 o1]]. destruct (log_step _ op log) as [r0 log1].
  destruct Hst as (-> & Hsame & Hh1). specialize (IH s1 o1 log1 Hh1).
  destruct Hsame as (_ & _ & _ & Hmax). rewrite Hmax in IH.
  destruct (seg_run ops (s1, o1)) as [rs [s2 o2]]. destruct (log_run _ ops log1) as [rs0 log2].
  simpl in *. naive_solver.
Qed.

(** C1: Every sequence of appends, flushes and reads on an intact
    segment gives exactly the results of the abstract log, errors included,
    and leaves a segment that holds the abstract log's bytes. *)
Theorem segment_refines_log s o log ops :
  holds s o log -> Forall wf_op ops ->
  let '(rs, (s', o')) := seg_run ops (s, o) in
  rs = (log_run (sg_maxSize s) ops log).1 /\
  holds s' o' (log_run (sg_maxSize s) ops log).2.
Proof. apply segment_refines_log_run. Qed.

(** ** Reading back *)

Lemma log_run_grows max ops log : log `prefix_of` (log_run max ops log).2.
Proof.
  revert log. induction ops as [|op ops IH]; intros log; simpl; [done|].
  destruct (log_step max op log) as [r log1] eqn:E.
  destruct (log_run max ops log1) as [rs log2] eqn:E2. simpl.
  etrans; [|specialize (IH log1); rewrite E2 in IH; exact IH].
  destruct op; simpl in E; repeat case_match; simplify_eq; try done. by apply prefix_app_r.
Qed.

Lemma log_ReadAt_grows off p log log' :
  log_ReadAt off log = Ok p -> 0 <= off -> log `prefix_of` log' -> log_ReadAt off log' = Ok p.
Proof.
  intros H Hoff [k ->]. unfold log_ReadAt in *. rewrite zlen_app. pose proof (zlen_nonneg k).
  destruct (Z.ltb_spec (zlen log) (off + 4)); [done|]. rewrite (proj2 (Z.ltb_ge _ _)) by lia.
  rewrite slice_app_l by lia. case_match; [done|].
  destruct (Z.ltb_spec (zlen log) (off + 4 + be_get (slice off (off + 4) log))); [done|].
  rewrite (proj2 (Z.ltb_ge _ _)) by lia. by rewrite slice_app_l by lia.
Qed.

(** C20: A record that [Append] accepted at position [off] is what
    [ReadAt off] returns, whatever appends, flushes and reads come between. *)
Theorem append_then_ReadAt s o log p ops off s1 o1 rs s2 o2 :
  holds s o log -> zlen p < 2 ^ 32 -> Forall wf_op ops ->
  Segment_Append p (s, o) = (Ok off, (s1, o1)) ->
  seg_run ops (s1, o1) = (rs, (s2, o2)) ->
  (Segment_ReadAt off (s2, o2)).1 = Ok p.
Proof.
  intros Hh Hp Hops Ha Hrun.
  pose proof (seg_step_refines s o log (DoAppend p) Hh Hp) as H1. cbn [seg_step] in H1.
  rewrite Ha in H1. cbn [log_step] in H1.
  destruct (_ <? _); destruct H1 as (Heq & Hsame & Hh1); simplify_eq.
  pose proof (segment_refines_log_run s1 o1 _ ops Hh1 Hops) as H2. rewrite Hrun in H2.
  destruct H2 as [_ (Hs2 & Hx2 & Hf2)].
  pose proof (zlen_nonneg log). pose proof (so_bound _ _ _ (proj1 Hh)).
  pose proof (Segment_ReadAt_spec s2 o2 _ (zlen log) Hs2 Hx2 ltac:(lia)) as H3. unfold wp in H3.
  destruct (Segment_ReadAt (zlen log) (s2, o2)) as [r [s3 o3]]. cbn [fst snd] in H3. destruct H3 as (_ & _ & Hr & _).
  apply exactly_no_faults in Hr as ->; [|done]. cbn [fst].
  eapply log_ReadAt_grows; [|done|apply log_run_grows].
  pose proof (log_ReadAt_frame log p [] Hp) as E. by rewrite app_nil_r in E.
Qed.

(** ** Failing writes *)

Lemma bufio_Write_stuck h p b o e :
  bw_err b = Some e -> bufio_Write h p (b, o) = (Err e, (b, o)).
Proof.
  intros He. unfold bufio_Write. rewrite bufio_fill_S, He. cbv zeta.
  rewrite (bool_decide_false (Some e = None)) by done. by rewrite andb_false_r, He.
Qed.

Lemma bufio_Flush_stuck h b o e :
  bw_err b = Some e -> bufio_Flush h (b, o) = (Err e, (b, o)).
Proof. intros He. unfold bufio_Flush. by rewrite He. Qed.

Section failing.
Context (s : Segment) (o : os) (e : goerr) (Hfailed : bw_err (sg_bw s) = Some e).
#[local] Transparent Segment_Append Segment_Flush Segment_ReadAt Segment_Read Segment_Close sg_flush.

(** The call returns an error and changes nothing. *)
Definition refuses {A} (m : stio Segment A) : Prop :=
  wp m (fun r x => (exists err, r = Err err) /\ x = (s, o)) (s, o).

Lemma set_sg_bw_id : set_sg_bw (sg_bw s) s = s.
Proof. by destruct s. Qed.

Ltac refuse :=
  repeat (wp_step || case_match); try (by split; [eexists|]);
  unfold wp; rewrite ?(bufio_Write_stuck _ _ _ _ e), ?(bufio_Flush_stuck _ _ _ e) by done;
  simpl; rewrite ?set_sg_bw_id; by split; [eexists|].

Lemma refuses_Append p : refuses (Segment_Append p).
Proof. unfold refuses, Segment_Append. refuse. Qed.
Lemma refuses_Flush : refuses Segment_Flush.
Proof. unfold refuses, Segment_Flush. refuse. Qed.
Lemma refuses_ReadAt off : refuses (Segment_ReadAt off).
Proof. unfold refuses, Segment_ReadAt. refuse. Qed.
Lemma refuses_Read off n : refuses (Segment_Read off n).
Proof. unfold refuses, Segment_Read. refuse. Qed.
Lemma refuses_Close : refuses Segment_Close.
Proof. unfold refuses, Segment_Close. refuse. Qed.
End failing.

(** fail-stop. Once a write to the log file has failed, no call on the
    segment is acknowledged and nothing more is written: every append, flush
    and read and the close return an error, and neither the segment nor any
    file changes. *)
Theorem failed_segment_stops s o e :
  bw_err (sg_bw s) = Some e ->
  (forall p, refuses s o (Segment_Append p)) /\ refuses s o Segment_Flush /\
  (forall off, refuses s o (Segment_ReadAt off)) /\
  (forall off n, refuses s o (Segment_Read off n)) /\ refuses s o Segment_Close.
Proof.
  eauto 10 using refuses_Append, refuses_Flush, refuses_ReadAt, refuses_Read, refuses_Close.
Qed.

(** ** Restart *)

(** The segment files of [dir] and [base] can be opened under their names. *)
Definition openable (dir : gostring) (base : Z) (o : os) : Prop :=
  can_open (segment_name dir base) o /\ can_open (index_name dir base) o.

#[global] Instance openable_dec dir base o : Decision (openable dir base o).
Proof. unfold openable. apply _. Defined.

(** Opening on files that hold a log and its index entries. *)
Lemma OpenSegment_resumes dir base cfg o log es :
  0 <= base -> max_size cfg < 2 ^ 62 -> openable dir base o -> os_faults o = [] ->
  content (segment_name dir base) o = log -> zlen log < 2 ^ 62 ->
  content (index_name dir base) o = enc_entries es -> Forall wf_entry es ->
  StronglySorted entry_lt es ->
  Forall (fun e => e_offset e < zlen log /\ e_position e = u32 (e_offset e)) es ->
  exists s o', OpenSegment dir base cfg o = (Ok s, o') /\ holds s o' log /\
    sg_path s = segment_name dir base /\ ix_path (sg_idx s) = index_name dir base /\
    ix_entries (sg_idx s) = es /\ ix_bytesWrittenSinceLastEntry (sg_idx s) = 0 /\
    sg_maxSize s = max_size cfg /\ sg_baseOffset s = base /\
    touches [segment_name dir base; index_name dir base] o o' /\
    content (segment_name dir base) o' = log /\ content (index_name dir base) o' = enc_entries es.
Proof.
  intros Hb Hm [Hop Hoq] Hf Hl Hz He Hwf Hsort Hent.
  pose proof (OpenSegment_spec dir base cfg o es []) as H. cbv zeta in H. rewrite app_nil_r, Hl in H.
  specialize (H Hb Hop Hoq Hm Hz He eq_refl Hwf Hsort). unfold wp in H.
  destruct (OpenSegment dir base cfg o) as [r o']. simpl in H.
  destruct H as (Ht & Hc1 & Hc2 & Hr).
  apply outcome_ok_of_no_faults in Hr as (s & -> & ? & ? & ? & ? & ? & ? & Hok & Hx); [|done].
  exists s, o'. split; [done|]. split_and!; try congruence. split_and!; [done|auto|].
  by apply (to_faults _ _ _ Ht).
Qed.

(** Closing an intact segment and opening it again, as the same
    broker or as a later one, gives a segment with the same log, the same size
    and the same index entries. *)
Theorem restart_preserves_segment dir base cfg s o log :
  holds s o log -> 0 <= base -> max_size cfg < 2 ^ 62 -> openable dir base o ->
  sg_path s = segment_name dir base -> ix_path (sg_idx s) = index_name dir base ->
  exists s1 o1 s2 o2, Segment_Close (s, o) = (Ok tt, (s1, o1)) /\
    OpenSegment dir base cfg o1 = (Ok s2, o2) /\ holds s2 o2 log /\
    Segment_Size s2 = Segment_Size s /\
    ix_entries (Segment_Index s2) = ix_entries (Segment_Index s).
Proof.
  intros (Hs & Hx & Hf) Hb Hm Hop Hp Hq.
  pose proof (Segment_Close_spec s o log Hs Hx) as H. unfold wp in H.
  destruct (Segment_Close (s, o)) as [r [s1 o1]]. simpl in H. destruct H as (Ht & Hr).
  apply outcome_ok_of_no_faults in Hr as ([] & -> & Hc & He); [|done].
  rewrite Hp in Hc. rewrite Hq in He. destruct Hx as [[_ ? ? _] Hent].
  rewrite (so_size _ _ _ Hs) in Hent.
  destruct (OpenSegment_resumes dir base cfg o1 log (ix_entries (sg_idx s)))
    as (s2 & o2 & Ho & Hh & _ & _ & Hes & _); try done.
  - destruct Hop as [[] []]. by split; split; rewrite (to_dirs _ _ _ Ht).
  - by apply (to_faults _ _ _ Ht).
  - apply Hs.
  - exists s1, o1, s2, o2. split_and!; try done; unfold Segment_Size.
    rewrite (so_size _ _ _ (proj1 Hh)). by rewrite (so_size _ _ _ Hs).
Qed.

(** ** The sparse index *)

(** The index after appending records of the given sizes to an empty segment. *)
Fixpoint index_fold (pos : Z) (sizes : list Z) (es : list entry) (n : Z) : list entry * Z :=
  match sizes with
  | [] => (es, n)
  | sz :: sizes =>
      let '(es, n) := index_step pos (u32 pos) sz es n in
      index_fold (pos + sz) sizes es n
  end.

Definition total (sizes : list Z) : Z := foldr Z.add 0 sizes.

Lemma index_fold_app pos xs ys es n :
  index_fold pos (xs ++ ys) es n =
  let '(es, n) := index_fold pos xs es n in index_fold (pos + total xs) ys es n.
Proof.
  revert pos es n. induction xs as [|x xs IH]; intros pos es n; simpl; [by rewrite Z.add_0_r|].
  destruct (index_step pos (u32 pos) x es n) as [es1 n1]. rewrite IH.
  destruct (index_fold _ xs es1 n1). by rewrite Z.add_assoc.
Qed.

(** Where the counter of a sparse index starts counting: at the end of the
    last indexed record, or at the start of the log. *)
Definition anchored (pos : Z) (es : list entry) (n : Z) (recs : list (Z * Z)) : Prop :=
  0 <= n < IndexIntervalBytes /\
  match last es with
  | None => n = pos
  | Some e => exists sz, (e_offset e, sz) ∈ recs /\ pos - n = e_offset e + sz
  end /\
  Forall (fun e => e_offset e < pos) es.

(** Records as (position, size) pairs. *)
Fixpoint records (pos : Z) (sizes : list Z) : list (Z * Z) :=
  match sizes with
  | [] => []
  | sz :: sizes => (pos, sz) :: records (pos + sz) sizes
  end.

Lemma index_step_anchored pos sz es n recs :
  0 < sz -> anchored pos es n recs ->
  let '(es', n') := index_step pos (u32 pos) sz es n in
  anchored (pos + sz) es' n' (recs ++ [(pos, sz)]).
Proof.
  intros Hsz (Hn & Hl & Hlt). unfold index_step.
  assert (Hlt' : Forall (fun e => e_offset e < pos + sz) es)
    by (eapply Forall_impl; [exact Hlt|]; simpl; lia).
  destruct (Z.ltb_spec (n + sz) IndexIntervalBytes); split_and!; try done; try lia.
  - destruct (last es) as [e|]; [|lia]. destruct Hl as (z & Hin & Hz). exists z.
    split; [set_solver|lia].
  - rewrite last_snoc. exists sz. simpl. split; [set_solver|lia].
  - apply Forall_app. split; [done|]. repeat constructor; simpl; lia.
Qed.

Lemma index_fold_anchored pos sizes es n recs :
  Forall (fun sz => 0 < sz) sizes -> anchored pos es n recs ->
  let '(es', n') := index_fold pos sizes es n in
  anchored (pos + total sizes) es' n' (recs ++ records pos sizes).
Proof.
  intros Hpos. revert pos es n recs. induction Hpos as [|sz sizes Hsz Hsizes IH];
    intros pos es n recs Ha; simpl; [by rewrite Z.add_0_r, app_nil_r|].
  pose proof (index_step_anchored pos sz es n recs Hsz Ha) as Ha1.
  destruct (index_step pos (u32 pos) sz es n) as [es1 n1].
  specialize (IH (pos + sz) es1 n1 _ Ha1).
  destruct (index_fold (pos + sz) sizes es1 n1) as [es2 n2].
  by rewrite <- (app_assoc recs [_]), <- Z.add_assoc in IH.
Qed.

(** Later entries are for later records. *)
Lemma index_fold_extends pos sizes es n :
  Forall (fun sz => 0 < sz) sizes ->
  exists new, (index_fold pos sizes es n).1 = es ++ new /\
    Forall (fun e => pos <= e_offset e) new.
Proof.
  intros Hpos. revert pos es n. induction Hpos as [|sz sizes Hsz Hsizes IH];
    intros pos es n; simpl; [exists []; by rewrite app_nil_r|].
  unfold index_step. destruct (n + sz <? IndexIntervalBytes).
  - destruct (IH (pos + sz) es (n + sz)) as (new & -> & Hnew). exists new. split; [done|].
    eapply Forall_impl; [exact Hnew|]. simpl. lia.
  - destruct (IH (pos + sz) (es ++ [Entry pos (u32 pos)]) 0) as (new & -> & Hnew).
    exists (Entry pos (u32 pos) :: new). split; [by rewrite <- app_assoc|].
    constructor; [simpl; lia|]. eapply Forall_impl; [exact Hnew|]. simpl. lia.
Qed.

(** The bytes a reader has to skip from the looked-up entry to the record it
    looks for. *)
Definition scan_bound (t : Z) (recs : list (Z * Z)) (es : list entry) : Prop :=
  match last (filter (fun e => e_offset e <= t) es) with
  | None => t < IndexIntervalBytes
  | Some e => exists sz, (e_offset e, sz) ∈ recs /\
      (e_offset e = t \/ t - (e_offset e + sz) < IndexIntervalBytes)
  end.

Lemma filter_all_le t es :
  Forall (fun e => e_offset e <= t) es -> filter (fun e => e_offset e <= t) es = es.
Proof.
  induction 1 as [|e es He Hes IH]; [done|]. by rewrite filter_cons_True, IH.
Qed.

Lemma filter_none_le t es :
  Forall (fun e => t < e_offset e) es -> filter (fun e => e_offset e <= t) es = [].
Proof.
  induction 1 as [|e es He Hes IH]; [done|]. rewrite filter_cons_False, IH; [done|lia].
Qed.

Lemma records_app pos pre post :
  records pos (pre ++ post) = records pos pre ++ records (pos + total pre) post.
Proof.
  revert pos. induction pre as [|x pre IH]; intros pos; simpl; [by rewrite Z.add_0_r|].
  by rewrite IH, Z.add_assoc.
Qed.

Lemma index_fold_scan_bound pre sz post :
  Forall (fun sz => 0 < sz) (pre ++ sz :: post) ->
  scan_bound (total pre) (records 0 (pre ++ sz :: post))
    (index_fold 0 (pre ++ sz :: post) [] 0).1.
Proof.
  intros Hall. apply Forall_app in Hall as [Hpre Hpost]. inversion_clear Hpost as [|? ? Hsz Hp].
  rewrite index_fold_app, records_app. cbn [records].
  pose proof (index_fold_anchored 0 pre [] 0 [] Hpre) as H1.
  destruct (index_fold 0 pre [] 0) as [es1 n1]. rewrite Z.add_0_l in *.
  destruct H1 as (Hn1 & Hl1 & Hlt1); [split_and!; done|].
  assert (Hle1 : Forall (fun e => e_offset e <= total pre) es1)
    by (eapply Forall_impl; [exact Hlt1|]; simpl; lia).
  cbn [index_fold]. unfold index_step, scan_bound. destruct (n1 + sz <? IndexIntervalBytes).
  - destruct (index_fold_extends (total pre + sz) post es1 (n1 + sz) Hp) as (new & -> & Hnew).
    rewrite filter_app, filter_all_le, filter_none_le, app_nil_r; [|eapply Forall_impl; [exact Hnew|]; simpl; lia|done].
    destruct (last es1) as [e|]; [|lia]. destruct Hl1 as (z & Hin & Hz). exists z.
    split; [set_solver|lia].
  - destruct (index_fold_extends (total pre + sz) post (es1 ++ [Entry (total pre) (u32 (total pre))]) 0 Hp)
      as (new & -> & Hnew).
    rewrite filter_app, filter_all_le, filter_none_le, app_nil_r, last_snoc.
    + exists sz. simpl. split; [set_solver|lia].
    + eapply Forall_impl; [exact Hnew|]. simpl. lia.
    + apply Forall_app. split; [done|]. repeat constructor; simpl; lia.
Qed.

(** Appends of several records, stopping at the first error. *)
Fixpoint append_all (ps : list (list byte)) : stio Segment (list Z) :=
  match ps with
  | [] => mret []
  | p :: ps => off ← Segment_Append p; offs ← append_all ps; mret (off :: offs)
  end.

Abbreviation sizes_of ps := ((fun p => zlen (frame p)) <$> ps).

Lemma append_all_index ps s o log offs s' o' :
  holds s o log -> Forall (fun p => zlen p < 2 ^ 32) ps ->
  append_all ps (s, o) = (Ok offs, (s', o')) ->
  holds s' o' (log ++ concat (frame <$> ps)) /\
  offs = (records (zlen log) (sizes_of ps)).*1 /\
  (ix_entries (sg_idx s'), ix_bytesWrittenSinceLastEntry (sg_idx s')) =
  index_fold (zlen log) (sizes_of ps) (ix_entries (sg_idx s))
    (ix_bytesWrittenSinceLastEntry (sg_idx s)).
Proof.
  intros Hh Hps. revert s o log offs Hh.
  induction Hps as [|p ps Hp Hps IH]; intros s o log offs Hh Hrun.
  { injection Hrun as <- <- <-. by rewrite app_nil_r. }
  cbn [append_all] in Hrun. unfold mbind, st_bind in Hrun.
  pose proof Hh as (Hs & Hx & Hf).
  pose proof (Segment_Append_spec s o log p Hs Hx Hp) as Ha. unfold wp in Ha.
  destruct (Segment_Append p (s, o)) as [[off|e|] [s1 o1]]; [|done..]. cbn [fst snd] in Ha.
  destruct Ha as (_ & Ht & -> & _ & Hs1 & Hx1 & Hstep).
  destruct (append_all ps (s1, o1)) as [[offs1|e|] [s2 o2]] eqn:E; [|done..].
  injection Hrun as <- <- <-.
  destruct (IH s1 o1 (log ++ frame p) offs1) as (Hh2 & -> & Hidx); [|done|].
  { split_and!; [done..|]. by apply (to_faults _ _ _ Ht). }
  rewrite zlen_app in *. cbn [fmap list_fmap concat records index_fold].
  rewrite <- Hstep. split_and!; [by rewrite app_assoc|done|done].
Qed.

Lemma total_frames ps : total (sizes_of ps) = zlen (concat (frame <$> ps)).
Proof.
  induction ps as [|p ps IH]; [done|]. rewrite !fmap_cons. cbn [concat].
  rewrite zlen_app, <- IH. done.
Qed.

(** C36: bound. In a segment filled from empty, looking up the position [t] of
    any record finds the start of an indexed record at or before it such that
    fewer than 4096 bytes lie between the end of that record and [t]; when
    nothing is found, [t] itself is below 4096. *)
Theorem Lookup_scan_bound s o pre p post offs s' o' :
  holds s o [] -> ix_entries (sg_idx s) = [] -> ix_bytesWrittenSinceLastEntry (sg_idx s) = 0 ->
  Forall (fun p => zlen p < 2 ^ 32) (pre ++ p :: post) ->
  append_all (pre ++ p :: post) (s, o) = (Ok offs, (s', o')) ->
  let t := zlen (concat (frame <$> pre)) in
  match Lookup (Segment_Index s') t with
  | Ok pos => exists start sz, (start, sz) ∈ records 0 (sizes_of (pre ++ p :: post)) /\
      pos = u32 start /\ start <= t /\ (start = t \/ t - (start + sz) < IndexIntervalBytes)
  | Err e => e = ErrOffsetNotFound /\ t < IndexIntervalBytes
  | Panic _ => False
  end.
Proof.
  intros Hh He Hn Hps Hrun t.
  destruct (append_all_index _ _ _ _ _ _ _ Hh Hps Hrun) as ((_ & [Hix Hent] & _) & _ & Hidx).
  rewrite He, Hn in Hidx. apply (f_equal fst) in Hidx. simpl in Hidx.
  unfold Segment_Index. rewrite Lookup_ref by apply Hix. unfold lookup_ref.
  pose proof (index_fold_scan_bound (sizes_of pre) (zlen (frame p)) (sizes_of post)) as Hsb.
  rewrite zlen_nil, fmap_app in Hidx. cbn [fmap list_fmap] in Hidx. rewrite <- Hidx in Hsb.
  unfold scan_bound in Hsb. rewrite total_frames in Hsb. fold t in Hsb.
  assert (Hpos : Forall (fun sz => 0 < sz) (sizes_of pre ++ zlen (frame p) :: sizes_of post)).
  { change (zlen (frame p) :: sizes_of post) with (sizes_of (p :: post)). rewrite <- fmap_app.
    apply Forall_fmap, Forall_true. intros q. simpl. rewrite zlen_frame.
    pose proof (zlen_nonneg q). lia. }
  specialize (Hsb Hpos). rewrite fmap_app. cbn [fmap list_fmap].
  destruct (last _) as [e|] eqn:El; [|done].
  destruct Hsb as (sz & Hin & Hd). exists (e_offset e), sz. split; [done|].
  apply last_Some_elem_of, list_elem_of_filter in El as [Hle Hel].
  rewrite Forall_forall in Hent. destruct (Hent e Hel) as [_ ->]. done.
Qed.

(** ** Instances *)

(** An empty directory, and a segment opened in it. *)
Definition sample_os : os := OS ∅ {[gos "/"; gos "/d"]} (fun _ => 0) 100 [].
Definition sample_cfg : SegmentConfig := MkSegmentConfig 100000 0.

Definition sample_seg : Segment * os :=
  match OpenSegment (gos "/d") 0 sample_cfg sample_os with
  | (Ok s, o) => (s, o)
  | (_, o) => (MkSegment (Handle [] false) (NewWriterSize 1) sample_index 0 0 0, o)
  end.

Lemma sample_opened :
  holds sample_seg.1 sample_seg.2 [] /\
  sg_path sample_seg.1 = segment_name (gos "/d") 0 /\
  ix_path (sg_idx sample_seg.1) = index_name (gos "/d") 0 /\
  ix_entries (sg_idx sample_seg.1) = [] /\
  ix_bytesWrittenSinceLastEntry (sg_idx sample_seg.1) = 0 /\ os_dirs sample_seg.2 = os_dirs sample_os.
Proof.
  destruct (OpenSegment_resumes (gos "/d") 0 sample_cfg sample_os [] [])
    as (s & o & E & Hh & ? & ? & ? & ? & ? & ? & Ht); [first [by constructor|concrete]..|].
  unfold sample_seg. rewrite E. cbn [fst snd]. split; [exact Hh|].
  split_and!; try assumption. apply Ht.
Qed.

Definition sample_ops : list seg_op :=
  [DoAppend (gos "one"); DoRead 0 7; DoAppend []; DoFlush; DoReadAt 0; DoReadAt 7; DoReadAt 9;
   DoRead 3 100; DoRead 11 1].

Lemma segment_refines_log_witness :
  let '(rs, (s', o')) := seg_run sample_ops (sample_seg.1, sample_seg.2) in
  rs = (log_run (sg_maxSize sample_seg.1) sample_ops []).1 /\
  holds s' o' (log_run (sg_maxSize sample_seg.1) sample_ops []).2.
Proof.
  apply (segment_refines_log sample_seg.1 sample_seg.2 [] sample_ops).
  - apply sample_opened.
  - unfold sample_ops. concrete.
Defined.

Definition sample_appended : Segment * os := (Segment_Append (gos "one") sample_seg).2.

Lemma append_then_ReadAt_witness :
  (Segment_ReadAt 0 ((seg_run sample_ops sample_appended).2.1,
                     (seg_run sample_ops sample_appended).2.2)).1 = Ok (gos "one").
Proof.
  apply (append_then_ReadAt sample_seg.1 sample_seg.2 [] (gos "one") sample_ops 0
           sample_appended.1 sample_appended.2 (seg_run sample_ops sample_appended).1
           (seg_run sample_ops sample_appended).2.1 (seg_run sample_ops sample_appended).2.2).
  - apply sample_opened.
  - concrete.
  - unfold sample_ops. concrete.
  - vm_compute. reflexivity.
  - vm_compute. reflexivity.
Defined.

(** A segment whose first flush failed. *)
Definition sample_failed : Segment * os :=
  let '(s, o) := sample_appended in
  (Segment_Flush (s, OS (os_files o) (os_dirs o) (os_dirtime o) (os_now o) [Some 2%nat])).2.

Lemma failed_segment_stops_witness :
  (forall p, refuses sample_failed.1 sample_failed.2 (Segment_Append p)) /\
  refuses sample_failed.1 sample_failed.2 Segment_Flush /\
  (forall off, refuses sample_failed.1 sample_failed.2 (Segment_ReadAt off)) /\
  (forall off n, refuses sample_failed.1 sample_failed.2 (Segment_Read off n)) /\
  refuses sample_failed.1 sample_failed.2 Segment_Close.
Proof.
  apply (failed_segment_stops sample_failed.1 sample_failed.2 ErrOS). vm_compute. reflexivity.
Defined.

Lemma restart_preserves_segment_witness :
  exists s1 o1 s2 o2, Segment_Close (sample_seg.1, sample_seg.2) = (Ok tt, (s1, o1)) /\
    OpenSegment (gos "/d") 0 sample_cfg o1 = (Ok s2, o2) /\ holds s2 o2 [] /\
    Segment_Size s2 = Segment_Size sample_seg.1 /\
    ix_entries (Segment_Index s2) = ix_entries (Segment_Index sample_seg.1).
Proof.
  destruct sample_opened as (Hh & Hp & Hq & _ & _ & Hd).
  apply (restart_preserves_segment (gos "/d") 0 sample_cfg sample_seg.1 sample_seg.2 []);
    [exact Hh|done|concrete| |exact Hp|exact Hq].
  split; split; rewrite Hd; concrete.
Defined.

Definition sample_payloads : list (list byte) := [replicate 3000 Byte.x00; replicate 2000 Byte.x01].
Definition sample_filled : result (list Z) * (Segment * os) :=
  append_all (sample_payloads ++ gos "last" :: []) (sample_seg.1, sample_seg.2).

Lemma Lookup_scan_bound_witness :
  let t := zlen (concat (frame <$> sample_payloads)) in
  match Lookup (Segment_Index sample_filled.2.1) t with
  | Ok pos => exists start sz,
      (start, sz) ∈ records 0 (sizes_of (sample_payloads ++ gos "last" :: [])) /\
      pos = u32 start /\ start <= t /\ (start = t \/ t - (start + sz) < IndexIntervalBytes)
  | Err e => e = ErrOffsetNotFound /\ t < IndexIntervalBytes
  | Panic _ => False
  end.
Proof.
  destruct sample_opened as (Hh & _ & _ & He & Hn & _).
  apply (Lookup_scan_bound sample_seg.1 sample_seg.2 sample_payloads (gos "last") [] [0; 3004; 5008]
           sample_filled.2.1 sample_filled.2.2);
    [exact Hh|exact He|exact Hn|unfold sample_payloads; concrete|vm_compute; reflexivity].
Defined.
