(* ===== verification/SegmentFaults.v ===== *)
(** * Segments whose system calls fail

    What a segment promises when any of its system calls may fail: nothing it
    returns as a success is wrong. A call that fails leaves the log as it was,
    or with the whole record although the call reported an error (the index
    could not be written), or stops the segment for good. The index and the
    schedule of failures are arbitrary throughout. *)

From stdpp Require Import base tactics list numbers gmap strings sorting.
From Stdlib Require Import ZArith Lia.
From S2P Require Import Prelude GoIO GoStrings OSFile LogIndex LogSegment SegmentSpec.
#[local] Open Scope Z_scope.

(** ** The log of a segment that can fail *)

Definition failed (r : seg_res) : Prop :=
  match r with
  | GotOffset (Err _) | GotUnit (Err _) | GotBytes (Err _) => True
  | _ => False
  end.

(** One call. The state [None] is a segment that has stopped. *)
Inductive faulty_step (max : Z) : seg_op -> seg_res -> option (list byte) -> option (list byte) -> Prop :=
  | fs_done op log :
      faulty_step max op (log_step max op log).1 (Some log) (Some (log_step max op log).2)
  | fs_failed op r log :
      failed r -> faulty_step max op r (Some log) (Some log)
  | fs_kept p e log :
      zlen log + zlen (frame p) <= max ->
      faulty_step max (DoAppend p) (GotOffset (Err e)) (Some log) (Some (log ++ frame p))
  | fs_short off n d log :
      0 <= off -> off + n <= zlen log -> d `prefix_of` slice off (off + n) log ->
      faulty_step max (DoRead off n) (GotBytes (Ok d)) (Some log) (Some log)
  | fs_stop op r x :
      failed r -> faulty_step max op r x None.

Inductive faulty_run (max : Z) : list seg_op -> list seg_res -> option (list byte) -> option (list byte) -> Prop :=
  | fr_nil x : faulty_run max [] [] x x
  | fr_cons op ops r rs x y z :
      faulty_step max op r x y -> faulty_run max ops rs y z -> faulty_run max (op :: ops) (r :: rs) x z.

(** ** Calls that stay in their file *)

Lemma file_Write_appends h p o : appends (h_path h) o (file_Write h p o).2.
Proof.
  unfold file_Write. destruct (sys o) as [f o1] eqn:E. apply (sys_appends (h_path h)) in E.
  destruct (negb _); [done|]. destruct f; cbn [snd]; (etrans; [exact E|apply set_file_appends]).
Qed.

Lemma bufio_Flush_confined h x :
  appends (h_path h) x.2 (bufio_Flush h x).2.2 /\ forall e, (bufio_Flush h x).1 <> Panic e.
Proof.
  destruct x as [b o]. unfold bufio_Flush. cbn [snd]. destruct (bw_err b); [done|]. destruct (bw_buf b) as [|c buf]; [done|].
  pose proof (file_Write_appends h (c :: buf) o) as Ha. destruct (file_Write _ _ o) as [[n [e|]] o1]; done.
Qed.

Lemma bufio_fill_appends k h p b o : appends (h_path h) o (bufio_fill k h p b o).2.
Proof.
  revert p b o. induction k as [|k IH]; intros p b o; [done|]. rewrite bufio_fill_S. cbv zeta.
  destruct (_ && _); [|done]. destruct (bool_decide _).
  - pose proof (file_Write_appends h p o) as Ha. destruct (file_Write h p o) as [[n err] o1]. cbn [snd] in Ha.
    etrans; [exact Ha|apply IH].
  - pose proof (bufio_Flush_confined h
      (Bufw (bw_buf b ++ take (Z.to_nat (bw_size b - zlen (bw_buf b))) p) (bw_size b) None, o)) as [Ha _].
    destruct (bufio_Flush h _) as [r [b1 o1]]. cbn [snd] in Ha. etrans; [exact Ha|apply IH].
Qed.

Lemma bufio_Write_confined h p x :
  appends (h_path h) x.2 (bufio_Write h p x).2.2 /\ forall e, (bufio_Write h p x).1 <> Panic e.
Proof.
  destruct x as [b o]. unfold bufio_Write. pose proof (bufio_fill_appends 3 h p b o) as Ha.
  destruct (bufio_fill 3 h p b o) as [[p1 b1] o1]. cbn [snd] in *. by destruct (bw_err b1).
Qed.

(** The index touches its own file only, whatever state it is in. *)
Definition confined (x : Index) (o : os) (r : result unit) (y : Index * os) : Prop :=
  ix_path y.1 = ix_path x /\ appends (ix_path x) o y.2 /\ forall e, r <> Panic e.

Ltac stays := unfold confined; split_and!; done.

#[local] Transparent maybeAppend Index_Flush sg_flush Segment_Append Segment_Flush Segment_ReadAt Segment_Read.

Lemma maybeAppend_confined x o off pos n : wp (maybeAppend off pos n) (fun r '(x', o') => confined x o r (x', o')) (x, o).
Proof.
  unfold maybeAppend. wp_steps. cbv zeta. wp_steps. destruct (_ <? _); [wp_step; stays|].
  unfold ix_write. wp_steps. unfold wp.
  pose proof (bufio_Write_confined (ix_file x) (put_entry (Entry off pos))
    (ix_bw x, o)) as [Ha Hp]. cbn [snd ix_file ix_bw set_ix_count] in *.
  destruct (bufio_Write _ _ _) as [[[]|e|e] [b o1]]; cbn in *; [stays..|]. by destruct (Hp e).
Qed.

Lemma Index_Flush_confined x o : wp Index_Flush (fun r '(x', o') => confined x o r (x', o')) (x, o).
Proof.
  unfold Index_Flush, ix_flush. wp_steps. unfold wp at 1.
  pose proof (bufio_Flush_confined (ix_file x) (ix_bw x, o)) as [Ha Hp]. cbn [snd] in Ha.
  destruct (bufio_Flush _ _) as [[[]|e|e] [b o1]]; cbn; [|stays|by destruct (Hp e)].
  wp_steps. unfold wp, file_Sync, file_SeekStart. cbn [fst snd].
  destruct (sys o1) as [f o2] eqn:E. apply (sys_appends (ix_path x)) in E. cbn in Ha.
  assert (appends (ix_path x) o o2) by (etrans; [exact Ha|exact E]).
  destruct (negb _); [stays|]. destruct f; stays.
Qed.

#[local] Opaque maybeAppend Index_Flush.

(** ** Calls on a segment *)

Definition stopped (s : Segment) : Prop := exists e, bw_err (sg_bw s) = Some e.

(** The segment holds the log, or has stopped. *)
Definition stands (x : option (list byte)) (s : Segment) (o : os) : Prop :=
  match x with Some log => seg_ok s o log | None => stopped s end.

(** A call did one of the things it may do. *)
Definition faulty {A} (res : result A -> seg_res) (op : seg_op) (s : Segment) (x : option (list byte))
    (r : result A) (y : Segment * os) : Prop :=
  sg_maxSize y.1 = sg_maxSize s /\ exists x', faulty_step (sg_maxSize s) op (res r) x x' /\ stands x' y.1 y.2.

Lemma Append_faulty s o log p :
  seg_ok s o log -> zlen p < 2 ^ 32 ->
  wp (Segment_Append p) (fun r '(s', o') => faulty GotOffset (DoAppend p) s (Some log) r (s', o')) (s, o).
Proof.
  intros Hs Hp. pose proof Hs as [Hbw Hsz Hb Hm Hd]. pose proof (zlen_nonneg log). pose proof (zlen_nonneg p).
  pose proof (fs_done (sg_maxSize s) (DoAppend p) log) as Hdone. cbn [log_step] in Hdone. rewrite zlen_frame in Hdone.
  unfold Segment_Append, recordHeaderSize. wp_steps. rewrite (i64_id (4 + _)), Hsz, u64_id, i64_id by lia.
  destruct (Z.ltb_spec (sg_maxSize s) (zlen log + (4 + zlen p))) as [Hfull|Hfits]; [by split; [|exists (Some log)]|].
  assert (Hu : u32 (zlen p) = zlen p) by (apply uwrap_id; fits). rewrite Hu.
  assert (Hstop : forall b e err o', bw_err b = Some e ->
    faulty GotOffset (DoAppend p) s (Some log) (Err err) (set_sg_bw b s, o')).
  { intros b e err o' E. split; [done|]. exists None. split; [by apply fs_stop|by exists e]. }
  wp_steps. eapply wp_bufio_Write; [exact Hbw|]. intros r1 b1 o1 [Ha1 Hr1]. cbn [fst snd] in *.
  destruct r1 as [[]|e1|]; [|by eapply Hstop, Hr1|done].
  wp_steps. eapply wp_bufio_Write; [exact Hr1|]. intros r2 b2 o2 [Ha2 Hr2]. cbn [fst snd] in *.
  destruct r2 as [[]|e2|]; [|by eapply Hstop, Hr2|done]. clear Hstop.
  wp_steps. eapply wp_mono; [apply maybeAppend_confined|]. intros r3 [x3 o3] (Hx & Ha3 & Hnp). cbn in Hx, Ha3.
  assert (Hk : forall n, n = zlen log + (4 + zlen p) -> seg_ok (set_sg_idx x3 (set_sg_size n (set_sg_bw b2 (set_sg_bw b1 s)))) o3 (log ++ frame p)).
  { intros n ->. constructor; cbn; rewrite ?zlen_app, ?zlen_frame; try done; try lia; [|congruence].
    unfold frame. rewrite app_assoc. eapply bw_ok_frame; [exact Hr2|exact Ha3|done]. }
  destruct r3 as [[]|e3|]; [| |by destruct (Hnp p0)]; cbn [wrap_result].
  - wp_step. split; [done|]. exists (Some (log ++ frame p)). split; [done|]. apply Hk. cbn. rewrite Hsz, i64_id; lia.
  - split; [done|]. exists (Some (log ++ frame p)). split; [apply fs_kept; rewrite zlen_frame; lia|].
    apply Hk. cbn. rewrite Hsz, i64_id; lia.
Qed.

Lemma sg_flush_faulty s o log :
  seg_ok s o log ->
  wp sg_flush (fun r '(s', o') => (exists b, s' = set_sg_bw b s) /\
    match r with
    | Ok _ => seg_ok s' o' log /\ content (sg_path s) o' = log
    | Err _ => stopped s'
    | Panic _ => False
    end) (s, o).
Proof.
  intros [Hbw Hsz Hb Hm Hd]. unfold sg_flush. wp_steps.
  eapply wp_bufio_Flush; [exact Hbw|]. intros r b o' [Ha Hr] Hok. cbn [fst snd] in *. split; [eauto|].
  destruct r as [[]|e|]; [|by eexists; apply Hr|done]. split; [by constructor|by apply Hok].
Qed.
#[local] Opaque sg_flush.

(** A call that failed and left the log alone. *)
Lemma faulty_unchanged {A} (res : result A -> seg_res) op s log e s' o' :
  (forall e, failed (res (Err e))) -> sg_maxSize s' = sg_maxSize s -> seg_ok s' o' log ->
  faulty res op s (Some log) (Err e) (s', o').
Proof. intros Hres Hm Hs. split; [done|]. exists (Some log). split; [by apply fs_failed|done]. Qed.

Lemma faulty_stopped {A} (res : result A -> seg_res) op s x e s' o' :
  (forall e, failed (res (Err e))) -> sg_maxSize s' = sg_maxSize s -> stopped s' ->
  faulty res op s x (Err e) (s', o').
Proof. intros Hres Hm Hs. split; [done|]. exists None. split; [by apply fs_stop|done]. Qed.

Lemma faulty_done {A} (res : result A -> seg_res) op s log r s' o' :
  res r = (log_step (sg_maxSize s) op log).1 -> (log_step (sg_maxSize s) op log).2 = log ->
  sg_maxSize s' = sg_maxSize s -> seg_ok s' o' log -> faulty res op s (Some log) r (s', o').
Proof.
  intros Hr Hl Hm Hs. split; [done|]. exists (Some log). split; [|done]. pose proof (fs_done (sg_maxSize s) op log) as Hd.
  by rewrite Hl, <- Hr in Hd.
Qed.

Lemma Flush_faulty s o log :
  seg_ok s o log ->
  wp Segment_Flush (fun r '(s', o') => faulty GotUnit DoFlush s (Some log) r (s', o')) (s, o).
Proof.
  intros Hs. unfold Segment_Flush. wp_steps. eapply wp_mono; [by apply sg_flush_faulty|].
  intros r1 [s1 o1] ([b ->] & Hr). destruct r1 as [[]|e|]; [|by apply faulty_stopped|done]. destruct Hr as [Hs1 _].
  wp_steps. eapply wp_mono; [apply file_SeekStart_spec, (so_bw _ _ _ Hs1)|]. intros r2 o2 [Hq Hr2].
  pose proof (seg_ok_quiet _ _ _ _ Hs1 Hq) as Hs2.
  destruct r2 as [[]|e|]; [|by apply faulty_unchanged|done]. wp_steps.
  eapply wp_mono; [apply Index_Flush_confined|]. intros r3 [x3 o3] (Hx & Ha & Hnp). cbn in Hx, Ha.
  assert (Hs3 : seg_ok (set_sg_idx x3 (set_sg_bw b s)) o3 log).
  { pose proof Hs2 as [Hbw ? ? ? Hd]. constructor; cbn in *; try done; [by eapply bw_ok_frame|congruence]. }
  destruct r3 as [[]|e|]; [by apply faulty_done|by apply faulty_unchanged|by destruct (Hnp p)].
Qed.

Lemma ReadAt_faulty s o log off :
  seg_ok s o log -> 0 <= off < 2 ^ 62 ->
  wp (Segment_ReadAt off) (fun r '(s', o') => faulty GotBytes (DoReadAt off) s (Some log) r (s', o')) (s, o).
Proof.
  intros Hs Hoff. unfold Segment_ReadAt, recordHeaderSize. wp_steps. eapply wp_mono; [by apply sg_flush_faulty|].
  intros r1 [s1 o1] ([b ->] & Hr). destruct r1 as [[]|e|]; [|by apply faulty_stopped|done]. destruct Hr as [Hs1 Hc].
  rewrite (i64_id off), (i64_id (off + 4)) by lia. pose proof (bo_open _ _ _ _ (so_bw _ _ _ Hs1)) as Ho.
  pose proof (fun o' r => faulty_done GotBytes (DoReadAt off) s log r (set_sg_bw b s) o') as Hdone.
  cbn [log_step fst snd] in Hdone. unfold log_ReadAt in Hdone.
  wp_steps. eapply wp_mono; [apply (file_ReadAt_exact _ _ _ _ log); [done|lia|done]|].
  intros r2 o2 [Hq Hr2]. pose proof (seg_ok_quiet _ _ _ _ Hs1 Hq) as Hs2.
  destruct Hr2 as [->|[_ [e ->]]]; [|by apply faulty_unchanged].
  destruct (zlen log <? off + 4); [by apply Hdone|]. cbn [wrap_result].
  destruct (be_get (slice off (off + 4) log) =? 0); [wp_step; by apply Hdone|].
  wp_steps. eapply wp_mono; [apply (file_ReadAt_exact _ _ _ _ log); [done|lia|]|].
  { cbn. by rewrite (quiet_content _ _ _ Hq). }
  intros r3 o3 [Hq3 Hr3]. pose proof (seg_ok_quiet _ _ _ _ Hs2 Hq3) as Hs3.
  destruct Hr3 as [->|[_ [e ->]]]; [|by apply faulty_unchanged]. apply Hdone; try done. by destruct (_ <? _).
Qed.

Lemma Read_faulty s o log off n :
  seg_ok s o log -> 0 <= off < 2 ^ 62 -> n < 2 ^ 31 ->
  wp (read_all off n) (fun r '(s', o') => faulty GotBytes (DoRead off n) s (Some log) r (s', o')) (s, o).
Proof.
  intros Hs Hoff Hn. pose proof (so_size _ _ _ Hs) as Hsz. pose proof (so_bound _ _ _ Hs).
  pose proof (faulty_done GotBytes (DoRead off n) s log) as Hdone. cbn [log_step fst snd] in Hdone.
  unfold read_all, Segment_Read. wp_step. destruct (Z.leb_spec n 0); [by apply Hdone|].
  wp_steps. rewrite Hsz, i64_id by lia. destruct (Z.leb_spec (zlen log) off); [by apply Hdone|].
  rewrite i64_id by lia. destruct (Z.ltb_spec (zlen log) (off + n)); [by apply Hdone|].
  wp_steps. eapply wp_mono; [by apply sg_flush_faulty|].
  intros r1 [s1 o1] ([b ->] & Hr). destruct r1 as [[]|e|]; [|by apply faulty_stopped|done]. destruct Hr as [Hs1 Hc].
  wp_steps. unfold wp, section_reader. cbn [sr_file sr_off sr_n]. sys_case o1 f o2 Hq Hnf.
  pose proof (seg_ok_quiet _ _ _ _ Hs1 Hq) as Hs2. cbn in Hs2 |- *.
  rewrite (bo_open _ _ _ _ (so_bw _ _ _ Hs)), (proj2 (Z.ltb_ge off 0)) by lia. cbn [negb].
  rewrite (quiet_content _ _ _ Hq), Hc. destruct f as [k|]; [|by apply Hdone].
  split; [done|]. exists (Some log). split; [|done]. apply fs_short; [lia|lia|apply prefix_take].
Qed.

(** ** Sequences of calls *)

Lemma stopped_step s o op : stopped s -> exists r, seg_step op (s, o) = (r, (s, o)) /\ failed r.
Proof.
  intros [e He].
  assert (Hr : forall A (m : stio Segment A), refuses s o m -> exists err, m (s, o) = (Err err, (s, o))).
  { intros A m Hm. unfold refuses, wp in Hm. destruct (m (s, o)) as [r y]. cbn in Hm. destruct Hm as [[err ->] ->]. by exists err. }
  destruct op as [p| |off|off n]; cbn [seg_step].
  - destruct (Hr _ _ (refuses_Append s o e He p)) as [err ->]. by eexists.
  - destruct (Hr _ _ (refuses_Flush s o e He)) as [err ->]. by eexists.
  - destruct (Hr _ _ (refuses_ReadAt s o e He off)) as [err ->]. by eexists.
  - unfold read_all, mbind, st_bind. destruct (Hr _ _ (refuses_Read s o e He off n)) as [err ->]. by eexists.
Qed.

Lemma seg_step_faulty s o x op :
  stands x s o -> wf_op op ->
  let '(r, (s', o')) := seg_step op (s, o) in
  exists x', faulty_step (sg_maxSize s) op r x x' /\ stands x' s' o' /\ sg_maxSize s' = sg_maxSize s.
Proof.
  intros Hs Hop. destruct x as [log|].
  2:{ destruct (stopped_step s o op Hs) as (r & -> & Hr). exists None. split_and!; [by apply fs_stop|done|done]. }
  destruct op as [p| |off|off n]; cbn [seg_step stands wf_op] in *.
  - pose proof (Append_faulty s o log p Hs Hop) as Hw. unfold wp in Hw.
    destruct (Segment_Append p (s, o)) as [r [s' o']]. destruct Hw as (Hm & x' & ? & ?). by exists x'.
  - pose proof (Flush_faulty s o log Hs) as Hw. unfold wp in Hw.
    destruct (Segment_Flush (s, o)) as [r [s' o']]. destruct Hw as (Hm & x' & ? & ?). by exists x'.
  - pose proof (ReadAt_faulty s o log off Hs Hop) as Hw. unfold wp in Hw.
    destruct (Segment_ReadAt off (s, o)) as [r [s' o']]. destruct Hw as (Hm & x' & ? & ?). by exists x'.
  - destruct Hop as [Hoff Hn]. pose proof (Read_faulty s o log off n Hs Hoff Hn) as Hw. unfold wp in Hw.
    destruct (read_all off n (s, o)) as [r [s' o']]. destruct Hw as (Hm & x' & ? & ?). by exists x'.
Qed.

Lemma seg_run_faulty ops : forall s o x,
  stands x s o -> Forall wf_op ops ->
  let '(rs, (s', o')) := seg_run ops (s, o) in
  exists x', faulty_run (sg_maxSize s) ops rs x x' /\ stands x' s' o'.
Proof.
  induction ops as [|op ops IH]; intros s o x Hs Hops; cbn [seg_run]; [exists x; by split; [constructor|]|].
  apply Forall_cons in Hops as [Hop Hops]. pose proof (seg_step_faulty s o x op Hs Hop) as H1.
  destruct (seg_step op (s, o)) as [r [s1 o1]]. destruct H1 as (x1 & Hst & Hs1 & Hm).
  specialize (IH s1 o1 x1 Hs1 Hops). destruct (seg_run ops (s1, o1)) as [rs [s2 o2]]. destruct IH as (x2 & Hr & Hs2).
  exists x2. split; [|done]. rewrite Hm in Hr. by econstructor.
Qed.

(** C35: A segment never lies, whatever fails. Under any schedule of failing system calls and with the index in any state,
    every sequence of appends, flushes and reads on a segment behaves as a log that can fail: a call either does what it
    does on the abstract log, or reports an error and leaves the log alone, or reports an error although the whole record
    is in the log, or reports an error and stops the segment, after which every call reports an error; a window read that
    fails half-way has delivered a prefix of the right bytes. *)
Theorem segment_refines_faulty_log s o log ops :
  seg_ok s o log -> Forall wf_op ops ->
  let '(rs, (s', o')) := seg_run ops (s, o) in
  exists x, faulty_run (sg_maxSize s) ops rs (Some log) x /\ stands x s' o'.
Proof. apply (seg_run_faulty ops s o (Some log)). Qed.

(** What the log had it keeps. *)
Lemma faulty_run_grows max ops rs x y :
  faulty_run max ops rs x y -> forall log', y = Some log' -> exists log, x = Some log /\ log `prefix_of` log'.
Proof.
  induction 1 as [x|op ops r rs x y z Hst _ IH]; intros log' E; [by exists log'|].
  destruct (IH log' E) as (log1 & -> & Hp). inversion Hst; subst; eexists; (split; [done|]); [|done| |done].
  - etrans; [|exact Hp]. destruct op; cbn [log_step snd]; try done. destruct (_ <? _); [done|]. by apply prefix_app_r.
  - etrans; [by apply prefix_app_r|exact Hp].
Qed.

(** C39: A record that was acknowledged is never misread. Whatever system calls fail before, during and after, when
    [Append] has returned a position and, after any calls, [ReadAt] of that position returns bytes, they are the record;
    it may only report an error instead. *)
Theorem acknowledged_never_misread s o log p ops off s1 o1 rs s2 o2 :
  seg_ok s o log -> zlen p < 2 ^ 32 -> Forall wf_op ops ->
  Segment_Append p (s, o) = (Ok off, (s1, o1)) -> seg_run ops (s1, o1) = (rs, (s2, o2)) ->
  (Segment_ReadAt off (s2, o2)).1 = Ok p \/ exists e, (Segment_ReadAt off (s2, o2)).1 = Err e.
Proof.
  intros Hs Hp Hops Ea Er. pose proof (zlen_nonneg log). pose proof (so_bound _ _ _ Hs).
  pose proof (seg_step_faulty s o (Some log) (DoAppend p) Hs Hp) as H1. cbn [seg_step] in H1. rewrite Ea in H1.
  destruct H1 as (x1 & Hst & Hs1 & _). inversion Hst as [op ? Eop Eres| | | |]; subst; try done. cbn [log_step] in *.
  destruct (_ <? _); cbn [fst snd] in *; simplify_eq.
  pose proof (seg_run_faulty ops s1 o1 _ Hs1 Hops) as H2. rewrite Er in H2. destruct H2 as (x2 & Hrun & Hs2).
  pose proof (seg_step_faulty s2 o2 x2 (DoReadAt (zlen log)) Hs2 ltac:(cbn; lia)) as H3. cbn [seg_step] in H3.
  destruct (Segment_ReadAt (zlen log) (s2, o2)) as [r [s3 o3]]. destruct H3 as (x3 & Hst3 & _). cbn [fst].
  inversion Hst3 as [op log2 Eop Eres|op r' log2 Hf| |off n d log2|op r' x Hf]; subst.
  - left. cbn [log_step fst] in *. simplify_eq. destruct (faulty_run_grows _ _ _ _ _ Hrun _ eq_refl) as (log1 & [= <-] & Hpre).
    eapply log_ReadAt_grows; [|done|exact Hpre]. pose proof (log_ReadAt_frame log p [] Hp) as E. by rewrite app_nil_r in E.
  - right. destruct r; [done|by eexists|done].
  - right. destruct r; [done|by eexists|done].
Qed.

(** ** Instances *)

(** The operating system with failures to come. *)
Definition with_faults (fs : list (option nat)) (o : os) : os :=
  OS (os_files o) (os_dirs o) (os_dirtime o) (os_now o) fs.

Lemma seg_ok_with_faults fs s o log : seg_ok s o log -> seg_ok s (with_faults fs o) log.
Proof. intros [[] ? ? ? ?]. by constructor; [constructor|..]. Qed.

(** The window read is cut short, the fsync and the read of the record fail, the
    next flush writes one byte and stops the segment. *)
Definition sample_faults : list (option nat) := [None; Some 3%nat; Some 0%nat; Some 0%nat; Some 1%nat].
Definition sample_faulty : Segment * os := (sample_seg.1, with_faults sample_faults sample_seg.2).

Lemma sample_faulty_ok : seg_ok sample_faulty.1 sample_faulty.2 [].
Proof. apply seg_ok_with_faults, sample_opened. Qed.

Definition sample_faulty_ops : list seg_op :=
  [DoAppend (gos "one"); DoRead 0 7; DoFlush; DoReadAt 0; DoAppend (gos "two"); DoReadAt 0; DoReadAt 0].

(** What succeeded, by length where it is bytes. *)
Definition succeeded (r : seg_res) : option Z :=
  match r with
  | GotOffset (Ok n) => Some n
  | GotUnit (Ok _) => Some 0
  | GotBytes (Ok d) => Some (zlen d)
  | _ => None
  end.

Example sample_faulty_results :
  succeeded <$> (seg_run sample_faulty_ops sample_faulty).1 = [Some 0; Some 3; None; None; Some 7; None; None].
Proof. vm_compute. reflexivity. Qed.

Lemma segment_refines_faulty_log_witness :
  let '(rs, (s', o')) := seg_run sample_faulty_ops (sample_faulty.1, sample_faulty.2) in
  exists x, faulty_run (sg_maxSize sample_faulty.1) sample_faulty_ops rs (Some []) x /\ stands x s' o'.
Proof.
  apply (segment_refines_faulty_log sample_faulty.1 sample_faulty.2 [] sample_faulty_ops).
  - exact sample_faulty_ok.
  - unfold sample_faulty_ops. concrete.
Defined.

Definition sample_acked : Segment * os := (Segment_Append (gos "one") sample_faulty).2.
Definition sample_later : list seg_res * (Segment * os) :=
  seg_run [DoRead 0 7; DoFlush] (sample_acked.1, sample_acked.2).

Lemma acknowledged_never_misread_witness :
  (Segment_ReadAt 0 (sample_later.2.1, sample_later.2.2)).1 = Ok (gos "one") \/
  exists e, (Segment_ReadAt 0 (sample_later.2.1, sample_later.2.2)).1 = Err e.
Proof.
  apply (acknowledged_never_misread sample_faulty.1 sample_faulty.2 [] (gos "one") [DoRead 0 7; DoFlush] 0
    sample_acked.1 sample_acked.2 sample_later.1 sample_later.2.1 sample_later.2.2).
  - exact sample_faulty_ok.
  - concrete.
  - concrete.
  - vm_compute. reflexivity.
  - vm_compute. reflexivity.
Defined.

(** ** An append that fails and is stored *)

(** A segment whose index could not be flushed. *)
Definition sample_index_failed : Segment * os :=
  let '(_, (s, o)) := Segment_Append (replicate 5000 Byte.x00) sample_seg in
  (Segment_Flush (s, with_faults [None; None; Some 0%nat] o)).2.

(** After a failed write to the index every later append that is due an entry
    reports an error, but its record is already in the log: it is read back, and
    a producer that repeats its request stores it again. *)
Theorem failed_append_keeps_record :
  let p := replicate 4092 Byte.x01 in
  let '(r1, x1) := Segment_Append p sample_index_failed in
  let '(r2, x2) := Segment_Append p x1 in
  is_ok r1 = false /\ is_ok r2 = false /\
  (Segment_ReadAt 5004 x2).1 = Ok p /\ (Segment_ReadAt 9100 x2).1 = Ok p.
Proof. vm_compute. split_and!; reflexivity. Qed.
