(* ===== verification/LogStore.v ===== *)
(** * Partition stores ([internal/storage/store.go])

    A partition's log: its active segment, the roll-over to a new segment when
    a record does not fit, reads from the active segment, and the deletion of
    expired segment files. The methods hold the store's mutex for their whole
    body, so each is one step. [CleanOldSegments] gives it up before it works
    on the directory; here it is one step too, its single calls are in
    [CleanerRace]. *)

From stdpp Require Import base tactics list numbers gmap strings sorting.
From Stdlib Require Import ZArith Lia.
From S2P Require Import Prelude GoIO GoStrings OSFile LogIndex LogSegment SegmentSpec.
#[local] Open Scope Z_scope.

(** ** Data *)

Record PartitionStore := MkPartitionStore {
  ps_dir : gostring;
  ps_cfg : SegmentConfig;
  ps_active : Segment;
  ps_nextBase : Z }.

Definition set_ps_active (s : Segment) (ps : PartitionStore) : PartitionStore :=
  MkPartitionStore (ps_dir ps) (ps_cfg ps) s (ps_nextBase ps).
Definition set_ps_nextBase (n : Z) (ps : PartitionStore) : PartitionStore :=
  MkPartitionStore (ps_dir ps) (ps_cfg ps) (ps_active ps) n.

(** ** Operations *)

Definition OpenPartitionStore (dir : gostring) (cfg : SegmentConfig) : st os PartitionStore :=
  seg ← wrapf "storage: open partition store: %w" [] (OpenSegment dir 0 cfg);
  mret (MkPartitionStore dir cfg seg 0).

(** A call on the active segment. *)
Definition on_active {A} (m : stio Segment A) : stio PartitionStore A :=
  zoom ps_active set_ps_active m.

Definition rollover : stio PartitionStore unit :=
  size ← get_st (fun ps => u64 (Segment_Size (ps_active ps)));
  _ ← wrapf "storage: rollover close: %w" [] (on_active Segment_Close);
  _ ← put_st (fun ps => set_ps_nextBase (u64 (ps_nextBase ps + size)) ps);
  ps ← get_st (fun ps => ps);
  seg ← wrapf "storage: rollover open: %w" []
          (on_os (OpenSegment (ps_dir ps) (ps_nextBase ps) (ps_cfg ps)));
  put_st (set_ps_active seg).

Definition PartitionStore_Append (data : list byte) : stio PartitionStore Z := fun x =>
  match on_active (Segment_Append data) x with
  | (Err ErrSegmentFull, x) =>
      (_ ← rollover;
       wrapf "storage: partition store append: %w" [] (on_active (Segment_Append data))) x
  | (r, x) => (wrap_result "storage: partition store append: %w" [] r, x)
  end.

Definition PartitionStore_Read (fetchOffset maxBytes : Z) : stio PartitionStore (section * Z) :=
  segSize ← get_st (fun ps => Segment_Size (ps_active ps));
  if segSize <=? i64 fetchOffset then sfail ErrInvalidOffset
  else
    let available := i64 (segSize - i64 fetchOffset) in
    let maxBytes := if available <? maxBytes then i32 available else maxBytes in
    r ← on_active (Segment_Read fetchOffset maxBytes);
    mret (r, maxBytes).

Definition PartitionStore_Size (ps : PartitionStore) : Z := Segment_Size (ps_active ps).
Definition PartitionStore_Flush : stio PartitionStore unit := on_active Segment_Flush.
Definition PartitionStore_Close : stio PartitionStore unit := on_active Segment_Close.

(** [os.Remove] succeeded, or there was nothing to remove. *)
Definition removed (r : result unit) : bool :=
  match r with
  | Ok _ => true
  | Err e => bool_decide (e = ErrNotExist)
  | Panic _ => false
  end.

(** The loop body of [CleanOldSegments]: whether the entry was deleted. *)
Definition clean_entry (dir activeLogName : gostring) (cutoff : Z) (e : dirent) (o : os)
  : bool * os :=
  let name := de_name e in
  if negb (HasSuffix name (gos ".log")) || bool_decide (name = activeLogName) then (false, o)
  else
    match dirent_Info e o with
    | (Ok mtime, o) =>
        if cutoff <? mtime then (false, o)
        else
          let '(r, o) := os_Remove (Join dir name) o in
          if negb (removed r) then (false, o)
          else
            let stem := TrimSuffix name (gos ".log") in
            let '(r, o) := os_Remove (Join dir (stem ++ gos ".index")) o in
            (removed r, o)
    | (_, o) => (false, o)
    end.

Fixpoint clean_entries (dir activeLogName : gostring) (cutoff : Z) (es : list dirent)
    (deleted : Z) (o : os) : Z * os :=
  match es with
  | [] => (deleted, o)
  | e :: es =>
      let '(d, o) := clean_entry dir activeLogName cutoff e o in
      clean_entries dir activeLogName cutoff es (if d then deleted + 1 else deleted) o
  end.

Definition CleanOldSegments (retention : Z) : stio PartitionStore Z := fun '(ps, o) =>
  let activeLogName := fmt_020d (Segment_BaseOffset (ps_active ps)) ++ gos ".log" in
  let cutoff := os_now o - retention in
  match os_ReadDir (ps_dir ps) o with
  | (Ok entries, o) =>
      let '(n, o) := clean_entries (ps_dir ps) activeLogName cutoff entries 0 o in
      (Ok n, (ps, o))
  | (Err e, o) => (Err (Wrapf "storage: cleaner read dir %q: %w" [DStr (ps_dir ps)] e), (ps, o))
  | (Panic p, o) => (Panic p, (ps, o))
  end.

(** ** The abstract partition log *)

(** Closed segments with their base offsets, and the active one. *)
Record plog := PLog {
  pl_closed : list (Z * list byte);
  pl_base : Z;
  pl_active : list byte }.

(** Rolling over an empty segment opens the same file again. *)
Definition plog_roll (L : plog) : plog :=
  if zlen (pl_active L) =? 0 then L
  else PLog (pl_closed L ++ [(pl_base L, pl_active L)]) (pl_base L + zlen (pl_active L)) [].

Definition plog_append (max : Z) (p : list byte) (L : plog) : result Z * plog :=
  if zlen (pl_active L) + zlen (frame p) <=? max then
    (Ok (zlen (pl_active L)), PLog (pl_closed L) (pl_base L) (pl_active L ++ frame p))
  else
    let L := plog_roll L in
    if zlen (frame p) <=? max then (Ok 0, PLog (pl_closed L) (pl_base L) (frame p))
    else (Err (Wrapf "storage: partition store append: %w" [] ErrSegmentFull), L).

(** The bytes a read serves: from the active segment, as many as there are up
    to the limit. *)
Definition plog_read (off n : Z) (L : plog) : result (list byte * Z) :=
  let size := zlen (pl_active L) in
  if size <=? off then Err ErrInvalidOffset
  else
    let n := Z.min n (size - off) in
    if n <=? 0 then Err ErrInvalidSize
    else Ok (slice off (off + n) (pl_active L), n).

(** ** Invariant *)

(** The files of the directory around the segment of base [base]: closed
    segments hold their logs, later ones do not exist yet. *)
Record part_files (dir : gostring) (o : os) (closed : list (Z * list byte)) (base : Z) : Prop := {
  pf_base : 0 <= base;
  pf_open : forall b, 0 <= b -> openable dir b o;
  pf_closed : Forall (fun '(b, l) => 0 <= b < base /\ content (segment_name dir b) o = l) closed;
  pf_fresh : forall b, base < b ->
    content (segment_name dir b) o = [] /\ content (index_name dir b) o = [] }.

Record part_ok (ps : PartitionStore) (o : os) (L : plog) : Prop := {
  po_active : holds (ps_active ps) o (pl_active L);
  po_seg : sg_path (ps_active ps) = segment_name (ps_dir ps) (pl_base L);
  po_ix : ix_path (sg_idx (ps_active ps)) = index_name (ps_dir ps) (pl_base L);
  po_base : sg_baseOffset (ps_active ps) = pl_base L /\ ps_nextBase ps = pl_base L;
  po_max : sg_maxSize (ps_active ps) = max_size (ps_cfg ps);
  po_bound : pl_base L + zlen (pl_active L) < 2 ^ 62;
  po_files : part_files (ps_dir ps) o (pl_closed L) (pl_base L) }.

Abbreviation names dir b := [segment_name dir b; index_name dir b].

Lemma names_other dir b base :
  0 <= b -> 0 <= base -> b <> base ->
  (segment_name dir b ∉ names dir base) /\ (index_name dir b ∉ names dir base).
Proof.
  intros H0 H1 Hne. rewrite !not_elem_of_cons.
  split_and!; try apply not_elem_of_nil.
  - by intros ?%segment_name_inj.
  - intros E. symmetry in E. by apply index_segment_ne in E.
  - intros E. by apply index_segment_ne in E.
  - by intros ?%index_name_inj.
Qed.

(** From [o] to [o'] at most segment files of the directory changed. *)
Record within (dir : gostring) (o o' : os) : Prop := {
  wi_dirs : os_dirs o' = os_dirs o;
  wi_now : os_now o' = os_now o;
  wi_others : forall q, (forall b, 0 <= b -> q ∉ names dir b) -> os_files o' !! q = os_files o !! q;
  wi_faults : os_faults o = [] -> os_faults o' = [] }.

#[global] Instance within_preorder dir : PreOrder (within dir).
Proof.
  split; [by constructor|]. intros o1 o2 o3 [] []. constructor; try congruence; auto.
  intros q Hq. rewrite wi_others1 by done. auto.
Qed.

Lemma touches_within dir b o o' : 0 <= b -> touches (names dir b) o o' -> within dir o o'.
Proof. intros Hb []. constructor; auto. Qed.

Lemma part_files_touches dir o o' closed base :
  part_files dir o closed base -> touches (names dir base) o o' ->
  part_files dir o' closed base.
Proof.
  intros [] Ht.
  assert (Hother : forall b, 0 <= b -> b <> base ->
    content (segment_name dir b) o' = content (segment_name dir b) o /\
    content (index_name dir b) o' = content (index_name dir b) o).
  { intros b H0 Hne. destruct (names_other dir b base H0 pf_base0 Hne).
    split; by eapply touches_content. }
  constructor; [done|..].
  - intros b H0. destruct (pf_open0 b H0) as [[] []].
    by split; split; rewrite (to_dirs _ _ _ Ht).
  - eapply Forall_impl; [exact pf_closed0|]. intros [b l] [Hb' Hl]. split; [done|].
    destruct (Hother b) as [-> _]; [lia..|done].
  - intros b Hb'. destruct (Hother b) as [-> ->]; [lia..|auto].
Qed.

Lemma part_files_roll dir o closed base l :
  part_files dir o closed base -> content (segment_name dir base) o = l -> 0 < zlen l ->
  part_files dir o (closed ++ [(base, l)]) (base + zlen l).
Proof.
  intros [] Hc Hl. constructor; [lia|done| |intros b Hb; apply pf_fresh0; lia].
  apply Forall_app. split.
  - eapply Forall_impl; [exact pf_closed0|]. intros [b l'] [Hb ?]. split; [lia|done].
  - apply Forall_singleton. split; [lia|done].
Qed.

Lemma sg_paths_names ps L o :
  part_ok ps o L -> sg_paths (ps_active ps) = names (ps_dir ps) (pl_base L).
Proof. intros []. unfold sg_paths. by rewrite po_seg0, po_ix0. Qed.

Lemma part_ok_within ps o L o' :
  part_ok ps o L -> touches (sg_paths (ps_active ps)) o o' -> within (ps_dir ps) o o'.
Proof.
  intros Hok. rewrite (sg_paths_names _ _ _ Hok). apply touches_within. apply Hok.
Qed.

(** What a call on the active segment leaves alone. *)
Lemma part_ok_active ps o L s' o' log' :
  part_ok ps o L -> same_segment (ps_active ps) s' -> touches (sg_paths (ps_active ps)) o o' ->
  holds s' o' log' -> pl_base L + zlen log' < 2 ^ 62 ->
  part_ok (set_ps_active s' ps) o' (PLog (pl_closed L) (pl_base L) log').
Proof.
  intros Hok (Hp & Hx & Hb & Hm) Ht Hh Hz. rewrite (sg_paths_names _ _ _ Hok) in Ht.
  destruct Hok. constructor; simpl; try congruence; try done.
  by eapply part_files_touches.
Qed.

Lemma part_ok_same ps o L s' o' :
  part_ok ps o L -> same_segment (ps_active ps) s' -> touches (sg_paths (ps_active ps)) o o' ->
  holds s' o' (pl_active L) -> part_ok (set_ps_active s' ps) o' L.
Proof.
  intros Hok Hsame Ht Hh. pose proof (po_bound _ _ _ Hok) as Hz.
  pose proof (part_ok_active ps o L s' o' _ Hok Hsame Ht Hh Hz). by destruct L.
Qed.

(** ** Refinement *)

(** The files of a partition whose store is closed. *)
Record disk_ok (dir : gostring) (o : os) (L : plog) : Prop := {
  dk_files : part_files dir o (pl_closed L) (pl_base L);
  dk_log : content (segment_name dir (pl_base L)) o = pl_active L;
  dk_bound : pl_base L + zlen (pl_active L) < 2 ^ 62;
  dk_index : exists es, content (index_name dir (pl_base L)) o = enc_entries es /\
    Forall wf_entry es /\ StronglySorted entry_lt es /\
    Forall (fun e => e_offset e < zlen (pl_active L) /\ e_position e = u32 (e_offset e)) es }.

(** Opening the active segment of a closed partition resumes it. *)
Lemma open_active dir cfg o L :
  disk_ok dir o L -> max_size cfg < 2 ^ 62 -> os_faults o = [] ->
  exists s o', OpenSegment dir (pl_base L) cfg o = (Ok s, o') /\
    part_ok (MkPartitionStore dir cfg s (pl_base L)) o' L /\ within dir o o' /\ disk_ok dir o' L /\
    touches (names dir (pl_base L)) o o'.
Proof.
  intros [Hfiles Hc Hz (es & He & Hwf & Hsort & Hent)] Hm Hf. pose proof (pf_base _ _ _ _ Hfiles).
  destruct (OpenSegment_resumes dir (pl_base L) cfg o (pl_active L) es)
    as (s & o' & Ho & Hh & Hp & Hq & Hes & Hn & Hmax & Hb & Ht & Hc1 & Hc2); try done.
  { by apply (pf_open _ _ _ _ Hfiles). }
  { lia. }
  pose proof (part_files_touches _ _ _ _ _ Hfiles Ht).
  exists s, o'. split_and!; [done|by constructor|by eapply touches_within| |done].
  constructor; try done. by exists es.
Qed.

(** Closing a store leaves its log in the files. *)
Lemma PartitionStore_Close_spec ps o L :
  part_ok ps o L ->
  wp PartitionStore_Close (fun r '(ps', o') =>
    r = Ok tt /\ disk_ok (ps_dir ps) o' L /\ within (ps_dir ps) o o' /\
    exists s, ps' = set_ps_active s ps) (ps, o).
Proof.
  intros Hok. pose proof (sg_paths_names _ _ _ Hok) as Hnames.
  pose proof Hok as [(Hs & Hx & Hf) Hp Hq _ _ Hbb Hfiles].
  unfold PartitionStore_Close, on_active. wp_steps.
  eapply wp_mono; [by apply Segment_Close_spec|]. intros r [s1 o1] (Ht & Hr).
  apply outcome_ok_of_no_faults in Hr as ([] & -> & Hc & Hce); [|done].
  rewrite Hnames in Ht. rewrite Hp in Hc. rewrite Hq in Hce.
  split_and!; [done| |by eapply touches_within; [apply Hfiles|]|by eexists].
  constructor; try done; [by eapply part_files_touches|].
  destruct Hx as [[_ ? ? _] Hent]. rewrite (so_size _ _ _ Hs) in Hent. by eexists.
Qed.

(** The roll-over's new segment is empty, or the same one again. *)
Lemma disk_ok_roll dir o L : disk_ok dir o L -> disk_ok dir o (plog_roll L).
Proof.
  intros Hd. unfold plog_roll. destruct (Z.eqb_spec (zlen (pl_active L)) 0) as [Hz|Hz]; [done|].
  pose proof Hd as [Hfiles Hc Hb _]. pose proof (zlen_nonneg (pl_active L)).
  destruct (pf_fresh _ _ _ _ Hfiles (pl_base L + zlen (pl_active L))) as [Hn1 Hn2]; [lia|].
  constructor; simpl; [|done|rewrite zlen_nil; lia|].
  - apply part_files_roll; [done..|lia].
  - exists []. rewrite Hn2. split_and!; [done|constructor..].
Qed.

Lemma plog_roll_base L : pl_base (plog_roll L) = pl_base L + zlen (pl_active L).
Proof. unfold plog_roll. destruct (Z.eqb_spec (zlen (pl_active L)) 0); simpl; lia. Qed.

Lemma plog_roll_active L : pl_active (plog_roll L) = [].
Proof.
  unfold plog_roll. destruct (Z.eqb_spec (zlen (pl_active L)) 0); [|done]. apply zlen_nil_inv. lia.
Qed.

(** Rolling over closes the active segment and starts the next one. *)
Lemma rollover_refines ps o L :
  part_ok ps o L -> max_size (ps_cfg ps) < 2 ^ 62 ->
  wp rollover (fun r '(ps', o') =>
    r = Ok tt /\ part_ok ps' o' (plog_roll L) /\ ps_dir ps' = ps_dir ps /\ ps_cfg ps' = ps_cfg ps /\
    within (ps_dir ps) o o') (ps, o).
Proof.
  intros Hok Hm. pose proof Hok as [(Hs & _ & Hf) _ _ [_ Hnb] _ Hbb Hfiles].
  pose proof (zlen_nonneg (pl_active L)). pose proof (pf_base _ _ _ _ Hfiles).
  unfold rollover. fold PartitionStore_Close. apply wp_bind, wp_get_st, wp_bind, wp_wrapf.
  eapply wp_mono; [by apply PartitionStore_Close_spec|].
  intros r [ps1 o1] (-> & Hd & Hw & s1 & ->). simpl.
  unfold Segment_Size. rewrite (so_size _ _ _ Hs), (u64_id (zlen _)) by lia.
  wp_steps. simpl. rewrite Hnb, u64_id by lia. rewrite <- plog_roll_base.
  destruct (open_active _ (ps_cfg ps) o1 _ (disk_ok_roll _ _ _ Hd)) as (s & o2 & Ho & Hok2 & Hw2 & _);
    [done|by apply (wi_faults _ _ _ Hw)|].
  unfold wp. rewrite Ho. simpl. split_and!; try done. by etrans.
Qed.

(** An append to the active segment alone. *)
Lemma active_append_refines ps o L p :
  part_ok ps o L -> zlen p < 2 ^ 32 -> pl_base L + zlen (pl_active L) + zlen (frame p) < 2 ^ 62 ->
  wp (on_active (Segment_Append p)) (fun r '(ps', o') =>
    if zlen (pl_active L) + zlen (frame p) <=? max_size (ps_cfg ps) then
      r = Ok (zlen (pl_active L)) /\ ps_dir ps' = ps_dir ps /\ ps_cfg ps' = ps_cfg ps /\
      within (ps_dir ps) o o' /\
      part_ok ps' o' (PLog (pl_closed L) (pl_base L) (pl_active L ++ frame p))
    else r = Err ErrSegmentFull /\ ps' = ps /\ o' = o) (ps, o).
Proof.
  intros Hok Hp Hz. pose proof Hok as [Hh _ _ _ Hmax _ _]. unfold on_active. wp_steps.
  pose proof (seg_step_refines _ _ _ (DoAppend p) Hh Hp) as Href.
  destruct Hh as (Hs & Hx & Hf). eapply wp_mono; [by apply Segment_Append_spec|].
  intros r [s1 o1] (Hsame & Ht & Hr). rewrite Hmax in Hr.
  destruct r as [off|e|]; [| |done].
  - destruct Hr as (-> & Hle & Hs1 & Hx1 & _). rewrite (proj2 (Z.leb_le _ _)) by done.
    split_and!; try done; [by eapply part_ok_within|].
    eapply part_ok_active; try done; [|rewrite zlen_app; lia].
    split_and!; try done. by apply (to_faults _ _ _ Ht).
  - destruct Hr as [(-> & Hlt & -> & ->)|(_ & Hq & _)]; [|done].
    rewrite (proj2 (Z.leb_gt _ _)) by done. split_and!; try done. by destruct ps.
Qed.

Lemma wp_Append_full p Q ps o x :
  on_active (Segment_Append p) (ps, o) = (Err ErrSegmentFull, x) ->
  wp (_ ← rollover; wrapf "storage: partition store append: %w" [] (on_active (Segment_Append p))) Q x ->
  wp (PartitionStore_Append p) Q (ps, o).
Proof. unfold wp, PartitionStore_Append. by intros ->. Qed.

Lemma PartitionStore_Append_refines ps o L p :
  part_ok ps o L -> max_size (ps_cfg ps) < 2 ^ 62 -> zlen p < 2 ^ 32 ->
  pl_base L + zlen (pl_active L) + zlen (frame p) < 2 ^ 62 ->
  wp (PartitionStore_Append p) (fun r '(ps', o') =>
    r = (plog_append (max_size (ps_cfg ps)) p L).1 /\
    ps_dir ps' = ps_dir ps /\ ps_cfg ps' = ps_cfg ps /\ within (ps_dir ps) o o' /\
    part_ok ps' o' (plog_append (max_size (ps_cfg ps)) p L).2) (ps, o).
Proof.
  intros Hok Hm Hp Hz. pose proof (zlen_nonneg (frame p)) as Hfp.
  pose proof (active_append_refines ps o L p Hok Hp Hz) as Ha. unfold wp in Ha.
  destruct (on_active (Segment_Append p) (ps, o)) as [r [ps1 o1]] eqn:E. cbn [fst snd] in Ha.
  unfold plog_append. destruct (_ <=? _).
  { destruct Ha as (-> & ? & ? & ? & ?). unfold wp, PartitionStore_Append. rewrite E. by split_and!. }
  destruct Ha as (-> & -> & ->). apply (wp_Append_full _ _ _ _ _ E), wp_bind.
  eapply wp_mono; [by apply rollover_refines|].
  intros r [ps2 o2] (-> & Hok2 & Hd & Hc & Hw). apply wp_wrapf. cbv zeta.
  eapply wp_mono; [apply (active_append_refines ps2 o2 (plog_roll L) p Hok2 Hp)|].
  { rewrite plog_roll_active, plog_roll_base, zlen_nil. lia. }
  rewrite plog_roll_active, zlen_nil, Z.add_0_l, app_nil_l, Hc.
  intros r [ps3 o3] H3. destruct (zlen (frame p) <=? max_size (ps_cfg ps)).
  - destruct H3 as (-> & ? & ? & Hw3 & ?). rewrite Hd in Hw3. simpl.
    split_and!; [congruence..|by etrans|done].
  - destruct H3 as (-> & -> & ->). by split_and!.
Qed.

(** [Read] and then all bytes of the reader it returns. *)
Definition store_read_all (off n : Z) : stio PartitionStore (list byte * Z) :=
  x ← PartitionStore_Read off n;
  let '(w, m) := (x : section * Z) in
  r ← on_os (section_reader w);
  mret (rd_data r, m).

(** [Read] returns a window on the bytes that the log says. *)
Lemma PartitionStore_Read_refines ps o L off n :
  part_ok ps o L -> 0 <= off < 2 ^ 62 -> sfits 32 n ->
  wp (PartitionStore_Read off n) (fun r '(ps', o') =>
    match plog_read off n L with
    | Ok (d, m) => exists w, r = Ok (w, m) /\ section_reader w o' = (Ok (Rd d EOF), o')
    | Err e => r = Err e
    | Panic _ => False
    end /\ ps_dir ps' = ps_dir ps /\ ps_cfg ps' = ps_cfg ps /\
    within (ps_dir ps) o o' /\ part_ok ps' o' L) (ps, o).
Proof.
  intros Hok Hoff Hn. pose proof Hok as [(Hs & Hx & Hf) _ _ _ Hmax _ _].
  pose proof (so_bound _ _ _ Hs). pose proof (zlen_nonneg (pl_active L)).
  unfold PartitionStore_Read, plog_read. wp_steps.
  unfold Segment_Size. rewrite (so_size _ _ _ Hs), (i64_id off) by lia.
  destruct (Z.leb_spec (zlen (pl_active L)) off) as [H1|H1]; [by split_and!|].
  rewrite i64_id by lia. cbv zeta.
  set (n' := if zlen (pl_active L) - off <? n then i32 (zlen (pl_active L) - off) else n).
  assert (Hn' : n' = Z.min n (zlen (pl_active L) - off)).
  { unfold n'. destruct (Z.ltb_spec (zlen (pl_active L) - off) n); [|lia].
    unfold i32. rewrite swrap_id; [lia|lia|fits]. }
  rewrite <- Hn'. assert (n' < 2 ^ 31) by fits. unfold on_active. wp_steps.
  eapply wp_mono; [by apply Segment_Read_spec|]. intros r [s1 o1] (Hsame & Ht & Hr).
  pose proof (to_faults _ _ _ Ht Hf) as Hf1.
  destruct (Z.leb_spec n' 0) as [Hle|Hle].
  { destruct Hr as (-> & -> & ->). split_and!; try done. by destruct ps. }
  rewrite (proj2 (Z.leb_gt _ _)), (proj2 (Z.ltb_ge _ _)) in Hr by lia.
  apply outcome_ok_of_no_faults in Hr as (w & -> & Hs1 & Hx1 & Hc & ->); [|done].
  split_and!; try done; [|by eapply part_ok_within|by eapply part_ok_same].
  eexists. split; [done|]. rewrite section_reader_spec; simpl; try done; try lia.
  - by rewrite Hc.
  - apply (bo_open _ _ _ _ (so_bw _ _ _ Hs)).
  - rewrite Hc. lia.
Qed.

Lemma store_read_refines ps o L off n :
  part_ok ps o L -> 0 <= off < 2 ^ 62 -> sfits 32 n ->
  wp (store_read_all off n) (fun r '(ps', o') =>
    r = plog_read off n L /\ ps_dir ps' = ps_dir ps /\ ps_cfg ps' = ps_cfg ps /\
    within (ps_dir ps) o o' /\
    part_ok ps' o' L) (ps, o).
Proof.
  intros Hok Hoff Hn. unfold store_read_all. apply wp_bind.
  eapply wp_mono; [by apply PartitionStore_Read_refines|]. intros r [ps1 o1] (Hr & ?).
  destruct (plog_read off n L) as [[d m]|e|]; [|by subst r|done].
  destruct Hr as (w & -> & Hw). wp_steps. unfold wp. by rewrite Hw.
Qed.

(** ** Opening a new partition *)

(** A directory without files, in which no subdirectory has the name of a
    segment file. *)
Definition fresh_dir (dir : gostring) (o : os) : Prop :=
  dir <> [] /\ Clean dir ∈ os_dirs o /\
  set_Forall (fun p => parent p = Clean dir ->
    HasSuffix (Base p) (gos ".log") = false /\ HasSuffix (Base p) (gos ".index") = false)
    (os_dirs o) /\
  map_Forall (fun q _ => parent q <> Clean dir) (os_files o).

#[global] Instance fresh_dir_dec dir o : Decision (fresh_dir dir o).
Proof. unfold fresh_dir. apply _. Defined.

Lemma fresh_dir_name dir o name suffix :
  fresh_dir dir o -> simple_name (name ++ suffix) -> suffix = gos ".log" \/ suffix = gos ".index" ->
  can_open (Join dir (name ++ suffix)) o /\ content (Join dir (name ++ suffix)) o = [].
Proof.
  intros (Hne & Hin & Hd & Hf) Hs Hsuf.
  assert (Hp : parent (Join dir (name ++ suffix)) = Clean dir) by (by apply parent_Join).
  split; [split; [|by rewrite Hp]|].
  - intros Hx. destruct (Hd _ Hx Hp) as [H1 H2]. rewrite Base_Join in H1, H2 by done.
    destruct Hsuf as [->| ->]; [revert H1|revert H2];
      apply eq_true_false_abs, bool_decide_eq_true; by eexists.
  - unfold content. destruct (os_files o !! _) as [f|] eqn:E; [|done].
    by apply Hf in E.
Qed.

Lemma fresh_dir_files dir o : fresh_dir dir o -> part_files dir o [] 0.
Proof.
  intros Hf. constructor; [done| |done|].
  - intros b Hb. split; eapply fresh_dir_name; eauto using simple_segment_name, simple_index_name.
  - intros b Hb. split; eapply fresh_dir_name; eauto using simple_segment_name, simple_index_name with lia.
Qed.

(** A partition that has one segment comes back as it was closed. *)
Lemma OpenPartitionStore_resumes dir cfg o L :
  disk_ok dir o L -> pl_base L = 0 -> max_size cfg < 2 ^ 62 -> os_faults o = [] ->
  exists ps o', OpenPartitionStore dir cfg o = (Ok ps, o') /\ ps_cfg ps = cfg /\
    ps_dir ps = dir /\ part_ok ps o' L /\ within dir o o' /\ disk_ok dir o' L.
Proof.
  intros Hd Hb Hm Hf. destruct (open_active dir cfg o L Hd Hm Hf) as (s & o' & Ho & Hok & Hw & Hd' & _).
  rewrite Hb in Ho, Hok. unfold OpenPartitionStore, wrapf, mbind, st_bind. rewrite Ho.
  by do 2 eexists.
Qed.

Lemma OpenPartitionStore_fresh dir cfg o :
  fresh_dir dir o -> os_faults o = [] -> max_size cfg < 2 ^ 62 ->
  exists ps o', OpenPartitionStore dir cfg o = (Ok ps, o') /\ ps_cfg ps = cfg /\
    ps_dir ps = dir /\ part_ok ps o' (PLog [] 0 []) /\ within dir o o' /\
    disk_ok dir o' (PLog [] 0 []).
Proof.
  intros Hd Hf Hm. pose proof (fresh_dir_files dir o Hd) as Hfiles.
  assert (H0 : content (segment_name dir 0) o = [] /\ content (index_name dir 0) o = []).
  { split; eapply fresh_dir_name; eauto using simple_segment_name, simple_index_name with lia. }
  apply (OpenPartitionStore_resumes dir cfg o (PLog [] 0 [])); try done.
  constructor; try done; [apply H0|]. exists []. split_and!; [apply H0|constructor..].
Qed.

(** ** Sequences of calls *)

Inductive part_op := PAppend (p : list byte) | PRead (off n : Z) | PFlush.

Inductive part_res :=
  | PGotOffset (r : result Z)
  | PGotBytes (r : result (list byte * Z))
  | PGotUnit (r : result unit).

Definition part_step (op : part_op) (x : PartitionStore * os) : part_res * (PartitionStore * os) :=
  match op with
  | PAppend p => let '(r, x) := PartitionStore_Append p x in (PGotOffset r, x)
  | PRead off n => let '(r, x) := store_read_all off n x in (PGotBytes r, x)
  | PFlush => let '(r, x) := PartitionStore_Flush x in (PGotUnit r, x)
  end.

Definition plog_step (max : Z) (op : part_op) (L : plog) : part_res * plog :=
  match op with
  | PAppend p => let '(r, L) := plog_append max p L in (PGotOffset r, L)
  | PRead off n => (PGotBytes (plog_read off n L), L)
  | PFlush => (PGotUnit (Ok tt), L)
  end.

(** Folds a step function over a list of operations. *)
Fixpoint run {op res S} (step : op -> S -> res * S) (ops : list op) (x : S) : list res * S :=
  match ops with
  | [] => ([], x)
  | o :: ops => let '(r, x) := step o x in let '(rs, x) := run step ops x in (r :: rs, x)
  end.

Definition op_bytes (op : part_op) : Z :=
  match op with PAppend p => zlen (frame p) | _ => 0 end.

Definition wf_part_op (op : part_op) : Prop :=
  match op with
  | PAppend p => zlen p < 2 ^ 32
  | PRead off n => 0 <= off < 2 ^ 62 /\ sfits 32 n
  | PFlush => True
  end.

#[global] Instance wf_part_op_dec op : Decision (wf_part_op op).
Proof. destruct op; simpl; apply _. Defined.

(** All bytes a partition has taken in. *)
Definition pl_end (L : plog) : Z := pl_base L + zlen (pl_active L).

Lemma ops_bytes_nonneg ops : 0 <= foldr Z.add 0 (op_bytes <$> ops).
Proof.
  induction ops as [|op ops IH]; [done|]. rewrite fmap_cons. cbn [foldr].
  assert (0 <= op_bytes op) by (destruct op; simpl; [apply zlen_nonneg|lia..]). lia.
Qed.

Lemma plog_step_end max op L :
  pl_end (plog_step max op L).2 <= pl_end L + op_bytes op.
Proof.
  unfold pl_end. destruct op as [p| |]; simpl; try lia. unfold plog_append, plog_roll.
  pose proof (zlen_nonneg (pl_active L)). pose proof (zlen_nonneg (frame p)).
  destruct (_ <=? max); simpl; [rewrite zlen_app; lia|].
  destruct (Z.eqb_spec (zlen (pl_active L)) 0); destruct (_ <=? max); simpl; rewrite ?zlen_nil; lia.
Qed.

Lemma part_step_refines ps o L op :
  part_ok ps o L -> max_size (ps_cfg ps) < 2 ^ 62 -> wf_part_op op ->
  pl_end L + op_bytes op < 2 ^ 62 ->
  let '(r, (ps', o')) := part_step op (ps, o) in
  r = (plog_step (max_size (ps_cfg ps)) op L).1 /\ ps_cfg ps' = ps_cfg ps /\
  ps_dir ps' = ps_dir ps /\ within (ps_dir ps) o o' /\
  part_ok ps' o' (plog_step (max_size (ps_cfg ps)) op L).2.
Proof.
  unfold pl_end. intros Hok Hm Hop Hz. destruct op as [p|off n|]; simpl in *.
  - pose proof (PartitionStore_Append_refines ps o L p Hok Hm Hop Hz) as H. unfold wp in H.
    destruct (PartitionStore_Append p (ps, o)) as [r [ps' o']]. destruct (plog_append _ p L).
    simpl in *. destruct H as (-> & ? & ? & ? & ?). done.
  - destruct Hop as [Hoff Hn].
    pose proof (store_read_refines ps o L off n Hok Hoff Hn) as H. unfold wp in H.
    destruct (store_read_all off n (ps, o)) as [r [ps' o']]. simpl in *.
    destruct H as (-> & ? & ? & ? & ?). done.
  - pose proof (seg_step_refines _ _ _ DoFlush (po_active _ _ _ Hok) I) as H.
    pose proof (po_active _ _ _ Hok) as (Hs & Hx & Hf).
    pose proof (Segment_Flush_spec _ _ _ Hs Hx) as Ht. unfold wp in Ht. simpl in H.
    unfold PartitionStore_Flush, on_active, zoom.
    destruct (Segment_Flush (ps_active ps, o)) as [r [s' o']].
    destruct H as ([= ->] & Hsame & Hh). destruct Ht as (_ & Ht & _). simpl in *.
    split_and!; try done; [by eapply part_ok_within|by eapply part_ok_same].
Qed.

Lemma partition_refines_run ps o L ops :
  part_ok ps o L -> max_size (ps_cfg ps) < 2 ^ 62 -> Forall wf_part_op ops ->
  pl_end L + foldr Z.add 0 (op_bytes <$> ops) < 2 ^ 62 ->
  let '(rs, (ps', o')) := run part_step ops (ps, o) in
  let '(rs0, L') := run (plog_step (max_size (ps_cfg ps))) ops L in
  rs = rs0 /\ part_ok ps' o' L'.
Proof.
  intros Hok Hm Hops. revert ps o L Hok Hm.
  induction Hops as [|op ops Hop Hops IH]; intros ps o L Hok Hm Hz; simpl; [done|].
  pose proof (ops_bytes_nonneg ops). rewrite fmap_cons in Hz. cbn [foldr] in Hz.
  pose proof (part_step_refines ps o L op Hok Hm Hop ltac:(lia)) as Hst.
  pose proof (plog_step_end (max_size (ps_cfg ps)) op L) as Hend.
  destruct (part_step op (ps, o)) as [r [ps1 o1]].
  destruct (plog_step _ op L) as [r0 L1]. simpl in *. destruct Hst as (-> & Hcfg & _ & _ & Hok1).
  specialize (IH ps1 o1 L1 Hok1). rewrite Hcfg in IH. specialize (IH Hm ltac:(lia)).
  destruct (run part_step ops (ps1, o1)) as [rs [ps2 o2]].
  destruct (run (plog_step _) ops L1) as [rs0 L2]. naive_solver.
Qed.

(** Every sequence of appends, reads and flushes on an intact partition store gives
    exactly the results of the abstract partition log, roll-overs included. *)
Theorem partition_refines_plog ps o L ops :
  part_ok ps o L -> max_size (ps_cfg ps) < 2 ^ 62 -> Forall wf_part_op ops ->
  pl_end L + foldr Z.add 0 (op_bytes <$> ops) < 2 ^ 62 ->
  let '(rs, (ps', o')) := run part_step ops (ps, o) in
  let '(rs0, L') := run (plog_step (max_size (ps_cfg ps))) ops L in
  rs = rs0 /\ part_ok ps' o' L'.
Proof. apply partition_refines_run. Qed.

(** ** The partition as one sequence of bytes *)

(** All bytes that were ever appended to a partition, and where in them the
    active segment starts. *)
Record blog := BLog { bl_bytes : list byte; bl_base : Z }.

Definition bl_active (B : blog) : list byte := drop (Z.to_nat (bl_base B)) (bl_bytes B).

(** An append puts the record at the end of the bytes. Its documented result is
    its absolute offset; a record that does not fit starts a new segment, and one
    that fits nowhere is refused. *)
Definition blog_append (max : Z) (p : list byte) (B : blog) : result Z * blog :=
  let abs := zlen (bl_bytes B) in
  if abs - bl_base B + zlen (frame p) <=? max then (Ok abs, BLog (bl_bytes B ++ frame p) (bl_base B))
  else if zlen (frame p) <=? max then (Ok abs, BLog (bl_bytes B ++ frame p) abs)
  else (Err (Wrapf "storage: partition store append: %w" [] ErrSegmentFull), BLog (bl_bytes B) abs).

(** The position of a record in the segment that took it. *)
Definition in_segment (base : Z) (r : result Z) : result Z :=
  match r with Ok abs => Ok (abs - base) | r => r end.

Definition blog_step (max : Z) (op : part_op) (B : blog) : part_res * blog :=
  match op with
  | PAppend p => let '(r, B') := blog_append max p B in (PGotOffset r, B')
  | PRead off n => (PGotBytes (plog_read off n (PLog [] 0 (bl_active B))), B)
  | PFlush => (PGotUnit (Ok tt), B)
  end.

(** What a call may answer, given the answer [r0] of the bytes [B] it leaves:
    the same, except that the offset of an appended record is the one at which a
    read of the active segment finds it. As long as the partition has one
    segment that is its absolute offset. *)
Definition answers (op : part_op) (r r0 : part_res) (B : blog) : Prop :=
  match op, r, r0 with
  | PAppend p, PGotOffset (Ok off), PGotOffset (Ok abs) =>
      0 <= off /\ slice off (off + zlen (frame p)) (bl_active B) = frame p /\ (bl_base B = 0 -> off = abs)
  | _, _, _ => r = r0
  end.

Fixpoint all_answers (max : Z) (ops : list part_op) (rs : list part_res) (B : blog) : Prop :=
  match ops, rs with
  | [], [] => True
  | op :: ops, r :: rs => let '(r0, B') := blog_step max op B in answers op r r0 B' /\ all_answers max ops rs B'
  | _, _ => False
  end.

(** Closed segments one after the other, from [b] to [base]. *)
Fixpoint contiguous (b : Z) (closed : list (Z * list byte)) (base : Z) : Prop :=
  match closed with
  | [] => b = base
  | (b', l) :: closed => b' = b /\ contiguous (b + zlen l) closed base
  end.

(** The segments of a partition, in their files and for the active one in its
    buffer, are the bytes [bl_bytes B] cut at the names of the files. *)
Definition part_holds (ps : PartitionStore) (o : os) (B : blog) : Prop :=
  exists closed, part_ok ps o (PLog closed (bl_base B) (bl_active B)) /\ contiguous 0 closed (bl_base B) /\
    bl_bytes B = concat closed.*2 ++ bl_active B.

Lemma contiguous_app b closed base l :
  contiguous b closed base -> contiguous b (closed ++ [(base, l)]) (base + zlen l).
Proof.
  revert b. induction closed as [|[b' l'] closed IH]; intros b; cbn; [by intros ->|]. intros [-> Hc]. split; [done|by apply IH].
Qed.

Lemma contiguous_length b closed base : contiguous b closed base -> zlen (concat closed.*2) = base - b.
Proof.
  revert b. induction closed as [|[b' l] closed IH]; intros b; cbn; [rewrite zlen_nil; lia|].
  intros [-> Hc]. rewrite zlen_app, (IH _ Hc). lia.
Qed.

(** The partition log of the bytes. *)
Lemma blog_split B closed :
  contiguous 0 closed (bl_base B) -> bl_bytes B = concat closed.*2 ++ bl_active B ->
  zlen (bl_bytes B) = bl_base B + zlen (bl_active B).
Proof. intros Hc Hb. rewrite Hb, zlen_app, (contiguous_length _ _ _ Hc). lia. Qed.

(** The active segment starts where the closed ones end. *)
Lemma bl_active_app closed base l :
  contiguous 0 closed base -> bl_active (BLog (concat closed.*2 ++ l) base) = l.
Proof.
  intros Hc. pose proof (contiguous_length _ _ _ Hc) as Hz. unfold bl_active. cbn [bl_bytes bl_base].
  apply drop_app_length'. unfold zlen in Hz. lia.
Qed.

Lemma bl_active_end l l' : bl_active (BLog (l ++ l') (zlen l)) = l'.
Proof. unfold bl_active. cbn [bl_bytes bl_base]. apply drop_app_length'. unfold zlen. lia. Qed.

Lemma blog_append_plog max p B closed :
  contiguous 0 closed (bl_base B) -> bl_bytes B = concat closed.*2 ++ bl_active B ->
  let L := PLog closed (bl_base B) (bl_active B) in
  exists closed',
    plog_append max p L = (in_segment (bl_base (blog_append max p B).2) (blog_append max p B).1,
      PLog closed' (bl_base (blog_append max p B).2) (bl_active (blog_append max p B).2)) /\
    contiguous 0 closed' (bl_base (blog_append max p B).2) /\
    bl_bytes (blog_append max p B).2 = concat closed'.*2 ++ bl_active (blog_append max p B).2.
Proof.
  intros Hc Hb L. pose proof (blog_split B closed Hc Hb) as Hz. pose proof (zlen_nonneg (bl_active B)).
  unfold blog_append, plog_append, plog_roll. cbv zeta. unfold L. cbn [pl_active pl_closed pl_base].
  replace (zlen (bl_bytes B) - bl_base B) with (zlen (bl_active B)) by lia.
  destruct (_ <=? max); cbn [fst snd bl_base bl_bytes in_segment].
  { exists closed. rewrite Hb, <- app_assoc, (bl_active_app _ _ _ Hc). split_and!; [|done..].
    f_equal. f_equal. rewrite zlen_app, (contiguous_length _ _ _ Hc). lia. }
  assert (Hroll : exists closed', (if zlen (bl_active B) =? 0 then PLog closed (bl_base B) (bl_active B)
      else PLog (closed ++ [(bl_base B, bl_active B)]) (bl_base B + zlen (bl_active B)) []) = PLog closed' (zlen (bl_bytes B)) [] /\
    contiguous 0 closed' (zlen (bl_bytes B)) /\ bl_bytes B = concat closed'.*2).
  { destruct (Z.eqb_spec (zlen (bl_active B)) 0) as [E|E].
    - exists closed. pose proof (zlen_nil_inv (bl_active B) ltac:(lia)) as En. rewrite Hz, E, Z.add_0_r.
      split_and!; [by rewrite En|done|]. rewrite En, app_nil_r in Hb. exact Hb.
    - exists (closed ++ [(bl_base B, bl_active B)]). rewrite Hz, fmap_app, concat_app. cbn. rewrite app_nil_r.
      split_and!; [done|by apply contiguous_app|done]. }
  destruct Hroll as (closed' & -> & Hc' & Hb'). exists closed'. cbn [pl_closed pl_base pl_active].
  destruct (_ <=? max); cbn [fst snd bl_base bl_bytes in_segment].
  - rewrite bl_active_end. split_and!; [by rewrite Z.sub_diag|done|by rewrite <- Hb'].
  - pose proof (bl_active_end (bl_bytes B) []) as E. rewrite app_nil_r in E. rewrite E, app_nil_r. by split_and!.
Qed.

Lemma blog_append_answers max p B closed :
  contiguous 0 closed (bl_base B) -> bl_bytes B = concat closed.*2 ++ bl_active B ->
  let '(r, B') := blog_append max p B in
  answers (PAppend p) (PGotOffset (in_segment (bl_base B') r)) (PGotOffset r) B'.
Proof.
  intros Hc Hb. pose proof (blog_split B closed Hc Hb) as Hz. pose proof (contiguous_length _ _ _ Hc) as Hl.
  pose proof (zlen_nonneg (concat closed.*2)). pose proof (zlen_nonneg (bl_active B)).
  assert (Hsl : forall l l' : list byte, slice (zlen l) (zlen l + zlen l') (l ++ l') = l').
  { intros l l'. pose proof (slice_mid l l' []) as E. by rewrite app_nil_r in E. }
  unfold blog_append. cbv zeta. destruct (_ <=? max); [|destruct (_ <=? max)]; cbn [in_segment answers bl_base]; [..|done].
  - assert (E : bl_active (BLog (bl_bytes B ++ frame p) (bl_base B)) = bl_active B ++ frame p)
      by (rewrite Hb at 1; by rewrite <- app_assoc, (bl_active_app _ _ _ Hc)).
    rewrite E. replace (zlen (bl_bytes B) - bl_base B) with (zlen (bl_active B)) by lia. rewrite Hsl. split_and!; [lia|done|lia].
  - rewrite bl_active_end, Z.sub_diag. pose proof (Hsl [] (frame p)) as E. rewrite zlen_nil in E. split_and!; [lia|exact E|lia].
Qed.

Lemma part_step_bytes ps o B op :
  part_holds ps o B -> max_size (ps_cfg ps) < 2 ^ 62 -> wf_part_op op -> zlen (bl_bytes B) + op_bytes op < 2 ^ 62 ->
  let '(r, (ps', o')) := part_step op (ps, o) in
  let '(r0, B') := blog_step (max_size (ps_cfg ps)) op B in
  answers op r r0 B' /\ ps_cfg ps' = ps_cfg ps /\ part_holds ps' o' B'.
Proof.
  intros (closed & Hok & Hc & Hb) Hm Hop Hz. rewrite (blog_split B closed Hc Hb) in Hz.
  pose proof (part_step_refines ps o _ op Hok Hm Hop Hz) as Hst.
  destruct (part_step op (ps, o)) as [r [ps' o']]. destruct Hst as (-> & Hcfg & _ & _ & Hok').
  destruct op as [p|off n|]; cbn [plog_step blog_step fst snd] in *; [|split_and!; [done..|by exists closed]..].
  destruct (blog_append_plog (max_size (ps_cfg ps)) p B closed Hc Hb) as (closed' & E & Hc' & Hb').
  pose proof (blog_append_answers (max_size (ps_cfg ps)) p B closed Hc Hb) as Ha.
  rewrite E in Hok' |- *. destruct (blog_append _ p B) as [r B']. cbn [fst snd] in *. split_and!; [done..|]. by exists closed'.
Qed.

Lemma blog_step_end max op B : zlen (bl_bytes (blog_step max op B).2) <= zlen (bl_bytes B) + op_bytes op.
Proof.
  destruct op as [p|off n|]; cbn [blog_step op_bytes snd]; try lia. unfold blog_append. cbv zeta.
  pose proof (zlen_nonneg (frame p)). destruct (_ <=? max); [|destruct (_ <=? max)]; cbn [snd bl_bytes]; rewrite ?zlen_app; lia.
Qed.

(** C2: Every sequence of appends, reads and flushes on an intact partition store
    is a sequence of calls on one growing sequence of bytes, roll-overs included.
    An accepted record is appended to the bytes, and refused exactly when it fits
    in no segment; the segment files, cut where their names say, and what is
    buffered for the active one are always exactly the bytes; a read serves the
    bytes of the active segment. The offset returned for a record is the one at
    which a read finds it, and, as long as the partition has one segment, its
    absolute offset. *)
Theorem partition_refines_bytes ps o B ops :
  part_holds ps o B -> max_size (ps_cfg ps) < 2 ^ 62 -> Forall wf_part_op ops ->
  zlen (bl_bytes B) + foldr Z.add 0 (op_bytes <$> ops) < 2 ^ 62 ->
  let '(rs, (ps', o')) := run part_step ops (ps, o) in
  all_answers (max_size (ps_cfg ps)) ops rs B /\ part_holds ps' o' (run (blog_step (max_size (ps_cfg ps))) ops B).2.
Proof.
  intros Hok Hm Hops. revert ps o B Hok Hm.
  induction Hops as [|op ops Hop Hops IH]; intros ps o B Hok Hm Hz; simpl; [done|].
  pose proof (ops_bytes_nonneg ops). rewrite fmap_cons in Hz. cbn [foldr] in Hz.
  pose proof (part_step_bytes ps o B op Hok Hm Hop ltac:(lia)) as Hst.
  pose proof (blog_step_end (max_size (ps_cfg ps)) op B) as Hend.
  destruct (part_step op (ps, o)) as [r [ps1 o1]].
  destruct (blog_step _ op B) as [r0 B1] eqn:EB. simpl in *. destruct Hst as (Ha & Hcfg & Hok1).
  specialize (IH ps1 o1 B1 Hok1). rewrite Hcfg in IH. specialize (IH Hm ltac:(lia)).
  destruct (run part_step ops (ps1, o1)) as [rs [ps2 o2]]. cbn [all_answers]; rewrite ?EB.
  destruct (run (blog_step _) ops B1) as [rs0 B2]. naive_solver.
Qed.

(** ** Instances *)

(** A partition in an empty directory whose segments hold 16 bytes. *)
Definition sample_pcfg : SegmentConfig := MkSegmentConfig 16 0.
Definition sample_part : PartitionStore * os :=
  match OpenPartitionStore (gos "/d") sample_pcfg sample_os with
  | (Ok ps, o) => (ps, o)
  | (_, o) => (MkPartitionStore [] sample_pcfg sample_seg.1 0, o)
  end.

Lemma sample_part_opened :
  part_ok sample_part.1 sample_part.2 (PLog [] 0 []) /\ ps_cfg sample_part.1 = sample_pcfg /\
  ps_dir sample_part.1 = gos "/d".
Proof.
  destruct (OpenPartitionStore_fresh (gos "/d") sample_pcfg sample_os)
    as (ps & o & E & ? & ? & ? & _ & _); [concrete..|].
  unfold sample_part. by rewrite E.
Qed.

(** Two records fill the first segment, the third rolls over, the last one fits
    nowhere. *)
Definition sample_part_ops : list part_op :=
  [PAppend (gos "abcd"); PAppend (gos "efgh"); PRead 0 100; PAppend (gos "i"); PRead 0 100;
   PRead 8 4; PFlush; PAppend (gos "too long to fit")].

(** The bytes that run leaves, and the answers of the bytes. *)
Example sample_part_bytes :
  run (blog_step 16) sample_part_ops (BLog [] 0) =
  ([PGotOffset (Ok 0); PGotOffset (Ok 8); PGotBytes (Ok (frame (gos "abcd") ++ frame (gos "efgh"), 16));
    PGotOffset (Ok 16); PGotBytes (Ok (frame (gos "i"), 5)); PGotBytes (Err ErrInvalidOffset); PGotUnit (Ok tt);
    PGotOffset (Err (Wrapf "storage: partition store append: %w" [] ErrSegmentFull))],
   BLog (frame (gos "abcd") ++ frame (gos "efgh") ++ frame (gos "i")) 21).
Proof. vm_compute. reflexivity. Qed.

Lemma partition_refines_bytes_witness :
  let '(rs, (ps', o')) := run part_step sample_part_ops (sample_part.1, sample_part.2) in
  all_answers (max_size (ps_cfg sample_part.1)) sample_part_ops rs (BLog [] 0) /\
  part_holds ps' o' (run (blog_step (max_size (ps_cfg sample_part.1))) sample_part_ops (BLog [] 0)).2.
Proof.
  destruct sample_part_opened as (Hok & Hc & _).
  apply (partition_refines_bytes sample_part.1 sample_part.2 (BLog [] 0) sample_part_ops).
  - exists []. split_and!; [exact Hok|done|done].
  - rewrite Hc. concrete.
  - unfold sample_part_ops. concrete.
  - concrete.
Defined.

(** ** Roll-over and restart *)

(** After a roll-over positions start again at zero: the record that did not
    fit gets offset 0, the offset the first record of the partition already
    has, and the store's size is that record's. *)
Theorem rollover_restarts_offsets ps o L p r ps' o' :
  part_ok ps o L -> max_size (ps_cfg ps) < 2 ^ 62 -> zlen p < 2 ^ 32 ->
  pl_end L + zlen (frame p) < 2 ^ 62 ->
  max_size (ps_cfg ps) < zlen (pl_active L) + zlen (frame p) -> zlen (frame p) <= max_size (ps_cfg ps) ->
  PartitionStore_Append p (ps, o) = (r, (ps', o')) ->
  r = Ok 0 /\ PartitionStore_Size ps' = zlen (frame p).
Proof.
  unfold pl_end. intros Hok Hm Hp Hz Hfull Hfits E.
  pose proof (wp_elim _ _ _ _ _ (PartitionStore_Append_refines ps o L p Hok Hm Hp Hz) E)
    as (-> & _ & _ & _ & Hok').
  unfold plog_append in *. rewrite (proj2 (Z.leb_gt _ _)) in * by done.
  rewrite (proj2 (Z.leb_le _ _)) in * by done. split; [done|].
  destruct Hok' as [(Hs & _) _ _ _ _ _ _]. apply (so_size _ _ _ Hs).
Qed.

Definition sample_full : PartitionStore * os :=
  (PartitionStore_Append (gos "abcdefgh") (sample_part.1, sample_part.2)).2.

Lemma rollover_restarts_offsets_witness :
  (PartitionStore_Append (gos "second") (sample_full.1, sample_full.2)).1 = Ok 0 /\
  PartitionStore_Size (PartitionStore_Append (gos "second") (sample_full.1, sample_full.2)).2.1 =
  zlen (frame (gos "second")).
Proof.
  destruct sample_part_opened as (Hok & Hc & _).
  pose proof (partition_refines_run sample_part.1 sample_part.2 (PLog [] 0 [])
    [PAppend (gos "abcdefgh")] Hok) as H.
  rewrite Hc in H. specialize (H ltac:(concrete) ltac:(concrete) ltac:(concrete)).
  assert (Hok2 : part_ok sample_full.1 sample_full.2 (PLog [] 0 (frame (gos "abcdefgh")))).
  { unfold sample_full. cbn [run part_step] in H.
    destruct (PartitionStore_Append _ _) as [r [ps o]]. destruct H as [_ H]. exact H. }
  eapply (rollover_restarts_offsets sample_full.1 sample_full.2 _ (gos "second"));
    [exact Hok2|concrete..|]. vm_compute. reflexivity.
Defined.

(** A partition whose log has rolled over comes back after a restart with its
    oldest segment active: the records acknowledged since are not served. *)
Theorem restart_serves_oldest_segment :
  let '(_, (ps, o)) := run part_step [PAppend (gos "abcdefgh"); PAppend (gos "ijklmnop")] sample_part in
  let '(r, (_, o)) := PartitionStore_Close (ps, o) in
  match OpenPartitionStore (gos "/d") sample_pcfg o with
  | (Ok ps', o') =>
      r = Ok tt /\ (store_read_all 0 100 (ps, o)).1 <> (store_read_all 0 100 (ps', o')).1 /\
      (store_read_all 0 100 (ps', o')).1 = Ok (frame (gos "abcdefgh"), 12)
  | _ => False
  end.
Proof. vm_compute. repeat split; congruence. Qed.

(** When a roll-over closes the active segment but cannot open the next one,
    a later small append is acknowledged although the file it would go to is
    closed, and it never reaches a file: the next flush fails. *)
Theorem append_lost_after_failed_rollover :
  let '(ps, o) := sample_full in
  let o := OS (os_files o) (os_dirs o) (os_dirtime o) (os_now o) [None; None; None; Some 0%nat] in
  let '(r1, (ps, o)) := PartitionStore_Append (gos "second") (ps, o) in
  let '(r2, (ps, o)) := PartitionStore_Append [] (ps, o) in
  let '(r3, (ps, o)) := PartitionStore_Flush (ps, o) in
  is_ok r1 = false /\ r2 = Ok 12 /\ is_ok r3 = false /\
  content (segment_name (gos "/d") 0) o = frame (gos "abcdefgh").
Proof. vm_compute. repeat split; congruence. Qed.
