(* ===== verification/StoreInterface.v ===== *)
(** * The store interface ([AppendStore], [FetchStore] and [Store] in [internal/storage/store.go])

    What the server layer may ask of a partition's log, as a class of
    operations with a class of laws. Clients are verified against the laws;
    [PartitionStore] satisfies them, and so does a log in memory, so that the
    two cannot be told apart through the interface. *)

From stdpp Require Import base tactics list numbers gmap strings.
From Stdlib Require Import ZArith Lia.
From S2P Require Import Prelude GoIO GoStrings OSFile LogIndex LogSegment SegmentSpec LogStore.
#[local] Open Scope Z_scope.

(** ** Operations *)

Class AppendStore (S : Type) := Append : list byte -> stio S Z.

(** [Read] returns a reader; [deliver] is what it delivers when it is read. *)
Class FetchStore (S : Type) := {
  Reader : Type;
  deliver : Reader -> st os reader;
  Read : Z -> Z -> stio S (Reader * Z);
  Size : S -> Z }.

Class Store (S : Type) := {
  #[global] Store_AppendStore :: AppendStore S;
  #[global] Store_FetchStore :: FetchStore S }.

(** [Read] with its reader read to the end. *)
Definition read_to_end {S} `{Store S} (off n : Z) : stio S (list byte * Z) :=
  x ← Read off n;
  let '(w, m) := (x : Reader * Z) in
  r ← on_os (deliver w);
  mret (rd_data r, m).

(** ** Laws *)

(** The store holds an abstract partition log, whose segments have room for
    [capacity] bytes, and the operations are those of the log. [Size] is
    documented as the bytes written across all segments; the law holds a store
    to that as long as the log has one segment ([PartitionStore] counts the
    active segment only, see [Size_falls_on_rollover]). *)
Class StoreOk (S : Type) `{Store S} := {
  capacity : S -> Z;
  represents : S -> os -> plog -> Prop;
  Append_law s o L p :
    represents s o L -> zlen p < 2 ^ 32 -> pl_end L + zlen (frame p) < 2 ^ 62 ->
    wp (Append p) (fun r '(s', o') =>
      r = (plog_append (capacity s) p L).1 /\ capacity s' = capacity s /\
      represents s' o' (plog_append (capacity s) p L).2) (s, o);
  read_law s o L off n :
    represents s o L -> 0 <= off < 2 ^ 62 -> sfits 32 n ->
    wp (read_to_end off n) (fun r '(s', o') => r = plog_read off n L /\ capacity s' = capacity s /\ represents s' o' L) (s, o);
  Size_law s o L : represents s o L -> pl_closed L = [] -> Size s = zlen (pl_active L) }.

(** ** Clients *)

Inductive store_op := SAppend (p : list byte) | SFetch (off n : Z).

Definition store_step {S} `{Store S} (op : store_op) (x : S * os) : part_res * (S * os) :=
  match op with
  | SAppend p => let '(r, x) := Append p x in (PGotOffset r, x)
  | SFetch off n => let '(r, x) := read_to_end off n x in (PGotBytes r, x)
  end.

Definition log_step (max : Z) (op : store_op) (L : plog) : part_res * plog :=
  match op with
  | SAppend p => let '(r, L) := plog_append max p L in (PGotOffset r, L)
  | SFetch off n => (PGotBytes (plog_read off n L), L)
  end.

Definition wf_store_op (op : store_op) : Prop :=
  match op with
  | SAppend p => zlen p < 2 ^ 32
  | SFetch off n => 0 <= off < 2 ^ 62 /\ sfits 32 n
  end.

#[global] Instance wf_store_op_dec op : Decision (wf_store_op op).
Proof. destruct op; simpl; apply _. Defined.

Definition store_bytes (ops : list store_op) : Z :=
  foldr (fun op n => match op with SAppend p => zlen (frame p) | _ => 0 end + n) 0 ops.

Lemma store_bytes_nonneg ops : 0 <= store_bytes ops.
Proof.
  induction ops as [|op ops IH]; [done|]. cbn [store_bytes foldr]. fold (store_bytes ops).
  destruct op as [p|]; [pose proof (zlen_nonneg (frame p))|]; lia.
Qed.

Section clients.
Context {S : Type} `{StoreOk S}.

(** Sequences of calls on any lawful store are those of the log. *)
Lemma store_refines ops : forall s o L,
  represents s o L -> Forall wf_store_op ops -> pl_end L + store_bytes ops < 2 ^ 62 ->
  let '(rs, (s', o')) := run store_step ops (s, o) in
  let '(rs0, L') := run (log_step (capacity s)) ops L in
  rs = rs0 /\ represents s' o' L'.
Proof.
  induction ops as [|op ops IH]; intros s o L Hr Hwf Hz; cbn [run]; [done|].
  inversion Hwf as [|? ? Hop Hops]; subst. pose proof (store_bytes_nonneg ops) as Hnn.
  assert (Hstep : let '(r, (s', o')) := store_step op (s, o) in
    r = (log_step (capacity s) op L).1 /\ capacity s' = capacity s /\ represents s' o' (log_step (capacity s) op L).2 /\
    pl_end (log_step (capacity s) op L).2 + store_bytes ops < 2 ^ 62).
  { destruct op as [p|off n]; cbn [store_step log_step wf_store_op store_bytes foldr fst snd] in *; fold (store_bytes ops) in *.
    - pose proof (Append_law s o L p Hr Hop ltac:(lia)) as Ha. unfold wp in Ha. destruct (Append p (s, o)) as [r [s' o']].
      pose proof (plog_step_end (capacity s) (PAppend p) L) as He. cbn [plog_step op_bytes] in He.
      destruct (plog_append (capacity s) p L) as [r0 L']. cbn [fst snd] in *. destruct Ha as (-> & ? & ?). split_and!; try done. lia.
    - destruct Hop as [Ho Hn]. pose proof (read_law s o L off n Hr Ho Hn) as Hf. unfold wp in Hf.
      destruct (read_to_end off n (s, o)) as [r [s' o']]. cbn [fst snd] in Hf. destruct Hf as (-> & ? & ?). by split_and!. }
  destruct (store_step op (s, o)) as [r [s1 o1]]. destruct (log_step (capacity s) op L) as [r0 L1]. cbn [fst snd] in Hstep.
  destruct Hstep as (-> & Hc & Hr1 & Hz1). specialize (IH s1 o1 L1 Hr1 Hops Hz1). rewrite Hc in IH.
  destruct (run store_step ops (s1, o1)) as [rs [s2 o2]]. destruct (run (log_step (capacity s)) ops L1) as [rs0 L2].
  by destruct IH as [-> ?].
Qed.
End clients.

(** ** Implementations *)

(** [*PartitionStore]. *)
#[global] Instance PartitionStore_AppendStore : AppendStore PartitionStore := PartitionStore_Append.
#[global] Instance PartitionStore_FetchStore : FetchStore PartitionStore := {|
  Reader := section;
  deliver := section_reader;
  Read := PartitionStore_Read;
  Size := PartitionStore_Size |}.
#[global] Instance PartitionStore_Store : Store PartitionStore := {}.

#[global] Instance PartitionStore_ok : StoreOk PartitionStore.
Proof.
  refine {| capacity ps := max_size (ps_cfg ps); represents ps o L := part_ok ps o L /\ max_size (ps_cfg ps) < 2 ^ 62 |}.
  - intros ps o L p [Hok Hm] Hp Hz. eapply wp_mono; [by apply PartitionStore_Append_refines|].
    intros r [ps' o'] (-> & _ & Hc & _ & Hok'). rewrite Hc. by split_and!.
  - intros ps o L off n [Hok Hm] Hoff Hn.
    pose proof (part_step_refines ps o L (PRead off n) Hok Hm (conj Hoff Hn)) as Hr. cbn [part_step op_bytes plog_step fst snd] in Hr.
    unfold wp. change (read_to_end off n (ps, o)) with (store_read_all off n (ps, o)).
    destruct (store_read_all off n (ps, o)) as [r [ps' o']]. cbn [fst snd].
    destruct Hr as ([= ->] & -> & _ & _ & ?); [pose proof (po_bound _ _ _ Hok); unfold pl_end; lia|]. by split_and!.
  - intros ps o L [Hok _] _. destruct (po_active _ _ _ Hok) as (Hs & _). apply (so_size _ _ _ Hs).
Defined.

(** A log in memory, as a test would fake it. *)
Record memory := Memory { mem_max : Z; mem_log : plog }.

#[global] Instance memory_AppendStore : AppendStore memory := fun p '(m, o) =>
  let '(r, L) := plog_append (mem_max m) p (mem_log m) in (r, (Memory (mem_max m) L, o)).
#[global] Instance memory_FetchStore : FetchStore memory := {|
  Reader := list byte;
  deliver d o := (Ok (Rd d EOF), o);
  Read off n '(m, o) := (plog_read off n (mem_log m), (m, o));
  Size m := zlen (pl_active (mem_log m)) |}.
#[global] Instance memory_Store : Store memory := {}.

#[global] Instance memory_ok : StoreOk memory.
Proof.
  refine {| capacity := mem_max; represents m _ L := mem_log m = L |}.
  - intros m o L p <- _ _. unfold wp, Append. cbn. destruct (plog_append (mem_max m) p (mem_log m)). by split_and!.
  - intros m o L off n <- _ _. unfold wp, read_to_end, mbind, st_bind. cbn. destruct (plog_read off n (mem_log m)) as [[d k]|e|e]; by split_and!.
  - by intros m o L <- _.
Defined.

(** Clients of the store interface cannot tell implementations apart: any
    sequence of Append and Read (read to the end) on two lawful stores that
    hold the same log gives the same results and leaves them holding the same
    log. *)
Theorem stores_agree {S T} `{StoreOk S} `{StoreOk T} (s : S) (t : T) o o' L ops :
  represents s o L -> represents t o' L -> capacity s = capacity t ->
  Forall wf_store_op ops -> pl_end L + store_bytes ops < 2 ^ 62 ->
  let '(rs, (s1, o1)) := run store_step ops (s, o) in
  let '(rs', (t1, o1')) := run store_step ops (t, o') in
  rs = rs' /\ exists L', represents s1 o1 L' /\ represents t1 o1' L'.
Proof.
  intros Hs Ht Hc Hwf Hz. pose proof (store_refines ops s o L Hs Hwf Hz) as Rs. pose proof (store_refines ops t o' L Ht Hwf Hz) as Rt.
  rewrite <- Hc in Rt. destruct (run store_step ops (s, o)) as [rs [s1 o1]], (run store_step ops (t, o')) as [rs' [t1 o1']].
  destruct (run (log_step (capacity s)) ops L) as [rs0 L']. destruct Rs as [-> ?], Rt as [-> ?]. eauto.
Qed.

(** ** Instances *)

Definition sample_store_ops : list store_op :=
  [SAppend (gos "abcdefgh"); SFetch 0 100; SAppend (gos "ijklmnop"); SFetch 0 100; SFetch 12 1; SAppend (gos "a longer record")].

(** The partition store on disk and the log in memory. *)
Lemma stores_agree_witness :
  let '(rs, (s1, o1)) := run store_step sample_store_ops (sample_part.1, sample_part.2) in
  let '(rs', (t1, o1')) := run store_step sample_store_ops (Memory (max_size (ps_cfg sample_part.1)) (PLog [] 0 []), sample_os) in
  rs = rs' /\ exists L', represents s1 o1 L' /\ represents t1 o1' L'.
Proof.
  destruct sample_part_opened as (Hok & Hc & _).
  apply (stores_agree sample_part.1 (Memory (max_size (ps_cfg sample_part.1)) (PLog [] 0 [])) sample_part.2 sample_os (PLog [] 0 [])
           sample_store_ops); [split; [done|by rewrite Hc]|done|done|concrete|concrete].
Defined.

(** [Size] is documented as the bytes written across all segments; it is the
    length of the active one, and falls when a segment is rolled over. *)
Theorem Size_falls_on_rollover :
  let '(_, x1) := run store_step [SAppend (gos "abcdefgh")] (sample_part.1, sample_part.2) in
  let '(_, x2) := run store_step [SAppend (gos "ij")] x1 in
  Size x1.1 = 12 /\ Size x2.1 = 6.
Proof. vm_compute. by split. Qed.
