(* ===== verification/Retention.v ===== *)
(** * Retention ([CleanOldSegments] in [internal/storage/store.go])

    What the log cleaner deletes: expired files of closed segments, never a
    file of the active one; and without failing system calls all of them. *)

From stdpp Require Import base tactics list numbers gmap strings sorting.
From Stdlib Require Import ZArith Lia.
From S2P Require Import Prelude GoIO GoStrings OSFile LogIndex LogSegment SegmentSpec SegmentFaults LogStore.
#[local] Open Scope Z_scope.

(** ** Effects *)

(** From [o] to [o'] files and empty directories were only deleted, and only
    those in [del]. *)
Record deletes (del : gostring -> Prop) (o o' : os) : Prop := {
  dl_now : os_now o' = os_now o;
  dl_files : forall q, os_files o' !! q = os_files o !! q \/ os_files o' !! q = None /\ del q;
  dl_dirs : forall q, (q ∈ os_dirs o' -> q ∈ os_dirs o) /\ (q ∈ os_dirs o -> (q ∈ os_dirs o') \/ del q);
  dl_wf : os_wf o -> os_wf o';
  dl_faults : os_faults o = [] -> os_faults o' = [] }.

#[global] Instance deletes_preorder del : PreOrder (deletes del).
Proof.
  split; [constructor; auto|]. intros o1 o2 o3 [N1 F1 D1 W1 Q1] [N2 F2 D2 W2 Q2].
  constructor; [congruence| | |auto..].
  - intros q. destruct (F2 q) as [->|]; auto.
  - intros q. specialize (D1 q). specialize (D2 q). tauto.
Qed.

Lemma deletes_weaken (P Q : gostring -> Prop) o o' :
  (forall q, P q -> Q q) -> deletes P o o' -> deletes Q o o'.
Proof.
  intros HPQ []. constructor; try done; intros q; [destruct (dl_files0 q) as [|[]]; auto|].
  specialize (dl_dirs0 q). specialize (HPQ q). tauto.
Qed.

Lemma deletes_gone del o o' q : deletes del o o' -> os_files o !! q = None -> os_files o' !! q = None.
Proof. intros [] Hq. destruct (dl_files0 q) as [->|[]]; done. Qed.

Lemma quiet_deletes del o o' : quiet o o' -> deletes del o o'.
Proof.
  intros [Qf Qd _ Qn Qq]. constructor; try done; [intros q; left; by rewrite Qf|intros q; rewrite Qd; tauto|].
  unfold os_wf. by rewrite Qd, Qf.
Qed.

(** An empty directory is nobody's parent. *)
Lemma no_entries_no_children path o q :
  dir_entries path o = [] -> q ∈ os_dirs o -> q <> path -> parent q <> path.
Proof.
  intros E Hq Hne Hp. unfold dir_entries in E. apply app_nil in E as [_ E]. apply fmap_nil_inv in E.
  assert (K : q ∈ filter (fun p => parent p = path /\ p <> path) (elements (os_dirs o)))
    by (apply list_elem_of_filter; set_solver).
  rewrite E in K. by apply elem_of_nil in K.
Qed.

Lemma os_Remove_effect path o r o' :
  os_Remove path o = (r, o') ->
  deletes (fun q => q = path) o o' /\
  (os_faults o = [] -> is_Some (os_files o !! path) -> removed r = true /\ os_files o' !! path = None) /\
  (os_faults o = [] -> os_files o !! path = None -> (path ∉ os_dirs o) -> removed r = true).
Proof.
  unfold os_Remove. sys_case o f o1 Hq Hn. pose proof Hq as [Qf Qd _ Qn Qq].
  destruct f as [k|].
  { intros [= <- <-]. split_and!; [by apply quiet_deletes|intros Hf; by destruct Hn..]. }
  destruct (os_files o1 !! path) as [f|] eqn:E; rewrite Qf in E.
  - intros [= <- <-]. split_and!; [|by intros; simpl; rewrite lookup_delete_eq|congruence].
    constructor; simpl; [done| |intros q; rewrite Qd; tauto| |done].
    + intros q. destruct (decide (q = path)) as [->|Hne]; [right; by rewrite lookup_delete_eq|].
      left. by rewrite lookup_delete_ne, Qf.
    + unfold os_wf. simpl. rewrite Qd, Qf. intros W q Hin. destruct (W q Hin). split; [done|].
      apply lookup_delete_None. by right.
  - rewrite E. case_decide as Hd; [case_decide|]; intros [= <- <-];
      (split_and!; [|intros _ []; congruence|]);
      try (by apply quiet_deletes); try (by rewrite <- Qd in *).
    + constructor; simpl; [done|by rewrite Qf; auto|intros q; rewrite Qd| |done].
      { rewrite elem_of_difference, elem_of_singleton. destruct (decide (q = path)); tauto. }
      intros W q Hin. simpl in *. rewrite Qf, Qd in *. apply elem_of_difference in Hin as [Hin Hne].
      rewrite elem_of_singleton in Hne. destruct (W q Hin). split; [|done].
      apply elem_of_difference. split; [done|]. rewrite elem_of_singleton.
      apply (no_entries_no_children path o1); [done|by rewrite Qd|done].
Qed.

Lemma dirent_Info_effect e o r o' :
  dirent_Info e o = (r, o') ->
  quiet o o' /\ (r = Ok (de_mtime e) \/ os_faults o <> [] /\ exists err, r = Err err).
Proof.
  unfold dirent_Info. sys_case o f o1 Hq Hn.
  destruct f; intros [= <- <-]; split; try done; [right|by left].
  split; [by apply Hn|eauto].
Qed.

(** ** The loop *)

(** The entry is an expired segment file other than the active one. *)
Definition eligible (active : gostring) (cutoff : Z) (e : dirent) : Prop :=
  HasSuffix (de_name e) (gos ".log") = true /\ de_name e <> active /\ de_mtime e <= cutoff.

(** The files that go with an entry. *)
Definition files_of (dir : gostring) (e : dirent) (q : gostring) : Prop :=
  q = Join dir (de_name e) \/ q = Join dir (TrimSuffix (de_name e) (gos ".log") ++ gos ".index").

Lemma clean_entry_effect dir active cutoff e o d o' :
  clean_entry dir active cutoff e o = (d, o') ->
  deletes (fun q => eligible active cutoff e /\ files_of dir e q) o o' /\
  (os_faults o = [] -> eligible active cutoff e ->
   is_Some (os_files o !! Join dir (de_name e)) -> os_files o' !! Join dir (de_name e) = None).
Proof.
  unfold clean_entry.
  destruct (HasSuffix (de_name e) (gos ".log")) eqn:Hs; simpl;
    [|intros [= <- <-]; split; [reflexivity|intros _ (? & ? & _); congruence]].
  case_bool_decide as Ha;
    [intros [= <- <-]; split; [reflexivity|intros _ (? & ? & _); congruence]|].
  destruct (dirent_Info e o) as [r1 o1] eqn:E1. apply dirent_Info_effect in E1 as [Hq1 Hr1].
  destruct Hr1 as [->|[Hf [err ->]]];
    [|intros [= <- <-]; split; [by apply quiet_deletes|done]].
  destruct (Z.ltb_spec cutoff (de_mtime e)) as [Hm|Hm];
    [intros [= <- <-]; split; [by apply quiet_deletes|intros _ (_ & _ & ?); lia]|].
  assert (Hel : eligible active cutoff e) by (split_and!; done).
  destruct (os_Remove (Join dir (de_name e)) o1) as [r2 o2] eqn:E2.
  apply os_Remove_effect in E2 as (D2 & R2 & _).
  assert (Hd2 : deletes (fun q => eligible active cutoff e /\ files_of dir e q) o o2).
  { etrans; [by apply quiet_deletes|]. eapply deletes_weaken; [|exact D2].
    intros q ->. split; [done|by left]. }
  assert (Hgone : os_faults o = [] -> is_Some (os_files o !! Join dir (de_name e)) ->
    removed r2 = true /\ os_files o2 !! Join dir (de_name e) = None).
  { destruct Hq1 as [Qf _ _ _ Qq]. intros Hf Hex. apply R2; [auto|by rewrite Qf]. }
  destruct (removed r2) eqn:Er2; simpl;
    [|intros [= <- <-]; split; [done|intros Hf _ Hex; by destruct (Hgone Hf Hex)]].
  destruct (os_Remove (Join dir (TrimSuffix _ _ ++ _)) o2) as [r3 o3] eqn:E3.
  apply os_Remove_effect in E3 as (D3 & _ & _). intros [= <- <-]. split.
  - etrans; [exact Hd2|]. eapply deletes_weaken; [|exact D3].
    intros q ->. split; [done|by right].
  - intros Hf _ Hex. eapply deletes_gone; [exact D3|]. by apply Hgone.
Qed.

Lemma clean_entries_effect dir active cutoff es n o n' o' :
  clean_entries dir active cutoff es n o = (n', o') ->
  deletes (fun q => exists e, e ∈ es /\ eligible active cutoff e /\ files_of dir e q) o o' /\
  (os_faults o = [] -> forall e, e ∈ es -> eligible active cutoff e ->
   os_files o' !! Join dir (de_name e) = None).
Proof.
  revert n o. induction es as [|e es IH]; intros n o; simpl.
  - intros [= <- <-]. split; [reflexivity|set_solver].
  - destruct (clean_entry dir active cutoff e o) as [d o1] eqn:E1. intros E2.
    apply clean_entry_effect in E1 as [D1 G1]. apply IH in E2 as [D2 G2]. split.
    + etrans; [eapply deletes_weaken; [|exact D1]|eapply deletes_weaken; [|exact D2]];
        simpl; set_solver.
    + intros Hf e' [->|He']%elem_of_cons Hel; [|by apply G2; [apply (dl_faults _ _ _ D1)|..]].
      eapply deletes_gone; [exact D2|]. destruct (os_files o !! Join dir (de_name e)) eqn:E.
      * apply G1; [done..|by eexists].
      * by eapply deletes_gone.
Qed.

(** ** What is deleted *)

Definition active_log_name (ps : PartitionStore) : gostring :=
  fmt_020d (Segment_BaseOffset (ps_active ps)) ++ gos ".log".

(** A file that the cleaner may delete: the log file of an expired segment
    other than the active one, or its index. *)
Definition deletable (ps : PartitionStore) (retention : Z) (o : os) (q : gostring) : Prop :=
  exists e, e ∈ dir_entries (Clean (ps_dir ps)) o /\
    eligible (active_log_name ps) (os_now o - retention) e /\ files_of (ps_dir ps) e q.

Lemma CleanOldSegments_effect ps o retention r ps' o' :
  CleanOldSegments retention (ps, o) = (r, (ps', o')) ->
  ps' = ps /\ deletes (deletable ps retention o) o o' /\
  (os_faults o = [] -> Clean (ps_dir ps) ∈ os_dirs o ->
   forall e, e ∈ dir_entries (Clean (ps_dir ps)) o ->
     eligible (active_log_name ps) (os_now o - retention) e ->
     os_files o' !! Join (ps_dir ps) (de_name e) = None).
Proof.
  unfold CleanOldSegments, os_ReadDir. sys_case o f o1 Hq Hn. pose proof Hq as [Qf Qd _ Qn Qq].
  destruct f as [k|].
  { intros [= <- <- <-]. split_and!; [done|by apply quiet_deletes|].
    intros Hf. by destruct (Hn ltac:(done)). }
  case_decide as Hdir.
  2:{ destruct (os_files o1 !! Clean (ps_dir ps)); intros [= <- <- <-];
        (split_and!; [done|by apply quiet_deletes|]); by rewrite Qd in Hdir. }
  fold (active_log_name ps).
  destruct (clean_entries _ _ _ _ _ o1) as [n o2] eqn:E. intros [= <- <- <-].
  apply clean_entries_effect in E as [D G].
  assert (Hents : forall e, e ∈ merge_sort dirent_le (dir_entries (Clean (ps_dir ps)) o1) <->
    e ∈ dir_entries (Clean (ps_dir ps)) o).
  { intros e. rewrite merge_sort_Permutation. unfold dir_entries.
    assert (os_dirtime o1 = os_dirtime o) as -> by apply (q_dirtime _ _ Hq). by rewrite Qf, Qd. }
  split_and!; [done| |].
  - etrans; [by apply quiet_deletes|]. eapply deletes_weaken; [|exact D].
    intros q (e & He & Hel & Hf). exists e. by rewrite <- Hents.
  - intros Hf _ e He. apply G; [auto|by rewrite Hents].
Qed.

Lemma dir_entry_Base dir o e : e ∈ dir_entries dir o -> exists p, de_name e = Base p.
Proof.
  unfold dir_entries. rewrite elem_of_app, !list_elem_of_fmap.
  intros [([p f] & -> & _)|(p & -> & _)]; eauto.
Qed.

(** An entry the cleaner looks at is a plain name with a stem. *)
Lemma eligible_stem dir o active cutoff e :
  e ∈ dir_entries dir o -> eligible active cutoff e ->
  exists stem, de_name e = stem ++ gos ".log" /\ simple_name (de_name e) /\
    TrimSuffix (de_name e) (gos ".log") = stem.
Proof.
  intros [p Hp]%dir_entry_Base (Hs & Hne & _). exists (TrimSuffix (de_name e) (gos ".log")).
  rewrite TrimSuffix_app by done. split_and!; [done| |done].
  rewrite Hp in *. eapply simple_Base; [exact Hs|simpl; lia].
Qed.

Lemma simple_log_index stem : simple_name (stem ++ gos ".log") -> simple_name (stem ++ gos ".index").
Proof.
  intros (_ & _ & _ & Hs). split_and!.
  - by destruct stem.
  - intros E. apply (f_equal length) in E. rewrite length_app in E. simpl in E. lia.
  - intros E. apply (f_equal length) in E. rewrite length_app in E. simpl in E. lia.
  - rewrite elem_of_app in *. intros [?|?]; [tauto|].
    assert (slash ∉ gos ".index") by (by apply (bool_decide_unpack _)). done.
Qed.

(** What the cleaner may delete lies in the directory of the partition. *)
Lemma deletable_path ps retention o q :
  deletable ps retention o q -> exists name, simple_name name /\ q = Join (ps_dir ps) name.
Proof.
  intros (e & He & Hel & Hq). destruct (eligible_stem _ _ _ _ e He Hel) as (stem & Hn & Hsim & Ht).
  destruct Hq as [->| ->]; eexists; (split; [|done]); [done|].
  rewrite Ht. apply simple_log_index. by rewrite <- Hn.
Qed.

(** The names of the active segment's files are not those of another entry. *)
Lemma active_not_deletable ps retention o :
  let base := Segment_BaseOffset (ps_active ps) in
  0 <= base ->
  ~ deletable ps retention o (segment_name (ps_dir ps) base) /\
  ~ deletable ps retention o (index_name (ps_dir ps) base).
Proof.
  intros base Hb. pose proof simple_log_index as Hidx.
  assert (Hno : forall e, e ∈ dir_entries (Clean (ps_dir ps)) o ->
    eligible (active_log_name ps) (os_now o - retention) e ->
    exists stem, de_name e = stem ++ gos ".log" /\ simple_name (de_name e) /\
      TrimSuffix (de_name e) (gos ".log") = stem /\ stem <> fmt_020d base).
  { intros e He Hel. destruct (eligible_stem _ _ _ _ e He Hel) as (stem & Hn & Hsim & Ht).
    exists stem. split_and!; try done. intros ->. destruct Hel as (_ & Hne & _). by apply Hne. }
  split; intros (e & He & Hel & Hq); destruct (Hno e He Hel) as (stem & Hn & Hsim & Ht & Hne);
    destruct Hq as [Hq|Hq]; rewrite ?Ht, ?Hn in *; apply Join_inj in Hq; auto;
    try (by apply simple_segment_name); try (by apply simple_index_name).
  - by apply app_inv_tail in Hq.
  - symmetry in Hq. by apply log_index_suffix in Hq.
  - by apply log_index_suffix in Hq.
  - by apply app_inv_tail in Hq.
Qed.

(** C29: The cleaner leaves the store and the files of the active
    segment alone, so that the segment still holds its log; whatever it deletes
    is the log or the index of an expired segment other than the active one,
    whichever of its system calls fail ([fs] is the schedule of failures). *)
Theorem cleaner_spares_active ps o L fs retention r ps' o' :
  part_ok ps o L -> CleanOldSegments retention (ps, with_faults fs o) = (r, (ps', o')) ->
  ps' = ps /\ holds (ps_active ps') (with_faults [] o') (pl_active L) /\
  forall q f, os_files o !! q = Some f ->
    os_files o' !! q = Some f \/ os_files o' !! q = None /\ deletable ps retention o q.
Proof.
  intros Hok E. apply CleanOldSegments_effect in E as (-> & D & _).
  change (deletable ps retention (with_faults fs o)) with (deletable ps retention o) in D.
  pose proof Hok as [(Hs & Hx & Hf) Hp Hq [Hb _] _ _ Hfiles].
  destruct (active_not_deletable ps retention o) as [N1 N2];
    [unfold Segment_BaseOffset; rewrite Hb; apply Hfiles|].
  unfold Segment_BaseOffset in N1, N2. rewrite Hb, <- Hp in N1. rewrite Hb, <- Hq in N2.
  assert (K1 : os_files o' !! sg_path (ps_active ps) = os_files o !! sg_path (ps_active ps))
    by (destruct (dl_files _ _ _ D (sg_path (ps_active ps))) as [?|[_ ?]]; [done|exfalso; auto]).
  assert (K2 : os_files o' !! ix_path (sg_idx (ps_active ps)) =
               os_files o !! ix_path (sg_idx (ps_active ps)))
    by (destruct (dl_files _ _ _ D (ix_path (sg_idx (ps_active ps)))) as [?|[_ ?]]; [done|exfalso; auto]).
  split_and!; [done| |].
  - split_and!; [| |done].
    + destruct Hs as [[] ? ? ? ?]. constructor; try done. constructor; unfold content in *; cbn; by rewrite ?K1.
    + destruct Hx as [[[] ? ? ?] ?]. constructor; [|done]. constructor; try done.
      constructor; unfold content in *; cbn; by rewrite ?K2.
  - intros q f Hqf. destruct (dl_files _ _ _ D q) as [E|[]]; [left; by rewrite E|auto].
Qed.

(** Without failing system calls every closed segment whose file
    is older than the retention period is gone after a sweep. *)
Theorem cleaner_deletes_expired ps o L retention r ps' o' b f :
  part_ok ps o L -> ps_dir ps <> [] -> CleanOldSegments retention (ps, o) = (r, (ps', o')) ->
  0 <= b -> b <> pl_base L -> os_files o !! segment_name (ps_dir ps) b = Some f ->
  f_mtime f <= os_now o - retention ->
  os_files o' !! segment_name (ps_dir ps) b = None.
Proof.
  intros Hok Hne E Hb Hnb Hfile Hold. apply CleanOldSegments_effect in E as (-> & _ & G).
  pose proof Hok as [(_ & _ & Hf) _ _ [Hbase _] _ _ Hfiles].
  pose proof (simple_segment_name b Hb) as Hsim.
  assert (Hpar : parent (segment_name (ps_dir ps) b) = Clean (ps_dir ps)) by (by apply parent_Join).
  assert (HB : Base (segment_name (ps_dir ps) b) = fmt_020d b ++ gos ".log") by (by apply Base_Join).
  assert (Hdir : Clean (ps_dir ps) ∈ os_dirs o).
  { destruct (pf_open _ _ _ _ Hfiles b Hb) as [[_ Hd] _]. by rewrite Hpar in Hd. }
  apply (G Hf Hdir (DirEnt (fmt_020d b ++ gos ".log") false (f_mtime f))).
  - unfold dir_entries. apply elem_of_app. left. apply list_elem_of_fmap.
    exists (segment_name (ps_dir ps) b, f). rewrite HB. split; [done|].
    apply list_elem_of_filter. split; [done|]. by apply elem_of_map_to_list.
  - split_and!; simpl; [|unfold active_log_name, Segment_BaseOffset; rewrite Hbase|done].
    + apply bool_decide_eq_true. by eexists.
    + intros E2%app_inv_tail. apply fmt_020d_inj in E2; [done|done|apply Hfiles].
Qed.

(** ** Instances *)

(** A partition with one closed and one active segment. *)
Definition sample_rolled : PartitionStore * os :=
  (run part_step [PAppend (gos "abcdefgh"); PAppend (gos "ijklmnop")] (sample_part.1, sample_part.2)).2.

Lemma sample_rolled_ok :
  part_ok sample_rolled.1 sample_rolled.2 (PLog [(0, frame (gos "abcdefgh"))] 12 (frame (gos "ijklmnop"))).
Proof.
  destruct sample_part_opened as (Hok & Hc & _).
  pose proof (partition_refines_run sample_part.1 sample_part.2 (PLog [] 0 [])
    [PAppend (gos "abcdefgh"); PAppend (gos "ijklmnop")] Hok) as H.
  rewrite Hc in H. unfold sample_rolled. specialize (H ltac:(concrete) ltac:(concrete) ltac:(concrete)).
  destruct (run part_step _ _) as [rs [ps o]]. destruct H as [_ H]. exact H.
Qed.

Definition sample_swept : result Z * (PartitionStore * os) :=
  CleanOldSegments 0 (sample_rolled.1, sample_rolled.2).

(** The same sweep, in which reading the directory succeeds and the removal of
    the index file fails. *)
Definition sample_sweep_faults : list (option nat) := [None; None; None; Some 0%nat].
Definition sample_swept_badly : result Z * (PartitionStore * os) :=
  CleanOldSegments 0 (sample_rolled.1, with_faults sample_sweep_faults sample_rolled.2).

Lemma cleaner_spares_active_witness :
  sample_swept_badly.2.1 = sample_rolled.1 /\
  holds (ps_active sample_swept_badly.2.1) (with_faults [] sample_swept_badly.2.2) (frame (gos "ijklmnop")) /\
  forall q f, os_files sample_rolled.2 !! q = Some f ->
    os_files sample_swept_badly.2.2 !! q = Some f \/
    os_files sample_swept_badly.2.2 !! q = None /\ deletable sample_rolled.1 0 sample_rolled.2 q.
Proof.
  apply (cleaner_spares_active sample_rolled.1 sample_rolled.2
           (PLog [(0, frame (gos "abcdefgh"))] 12 (frame (gos "ijklmnop"))) sample_sweep_faults 0
           sample_swept_badly.1 sample_swept_badly.2.1 sample_swept_badly.2.2 sample_rolled_ok).
  vm_compute. reflexivity.
Defined.

Lemma cleaner_deletes_expired_witness :
  os_files sample_swept.2.2 !! segment_name (ps_dir sample_rolled.1) 0 = None.
Proof.
  apply (cleaner_deletes_expired sample_rolled.1 sample_rolled.2
           (PLog [(0, frame (gos "abcdefgh"))] 12 (frame (gos "ijklmnop"))) 0
           sample_swept.1 sample_swept.2.1 sample_swept.2.2 0 (File (frame (gos "abcdefgh")) 100)
           sample_rolled_ok);
    [by vm_compute|vm_compute; reflexivity|done|done|vm_compute; reflexivity|concrete].
Defined.
