(* ===== verification/OffsetRecords.v ===== *)
(** * Consumer offset records ([internal/server/handler.go])

    The records of the [__consumer_offsets] topic: how a committed offset is
    laid out, how it is parsed back when the broker starts, and that the two
    are inverse. *)

From stdpp Require Import base tactics list numbers gmap strings.
From Stdlib Require Import ZArith Lia.
From S2P Require Import Prelude GoIO.
#[local] Open Scope Z_scope.

Record offsetCacheKey := MkOffsetCacheKey {
  ck_GroupID : gostring;
  ck_Topic : gostring;
  ck_Partition : Z }.

#[global] Instance offsetCacheKey_eq_dec : EqDecision offsetCacheKey.
Proof. solve_decision. Defined.

#[global] Program Instance offsetCacheKey_countable : Countable offsetCacheKey :=
  inj_countable' (fun k => (ck_GroupID k, ck_Topic k, ck_Partition k))
    (fun '(g, t, p) => MkOffsetCacheKey g t p) _.
Next Obligation. by intros []. Qed.

(** ** Encoding

    The buffer is allocated at its exact size and filled field by field from
    the left, so it is the concatenation of the fields. *)

Definition encodeOffsetKey (groupID topic : gostring) (partition : Z) : list byte :=
  be_put 2 (u16 (zlen groupID)) ++ groupID ++ be_put 2 (u16 (zlen topic)) ++ topic ++
  be_put 4 (u32 partition).

Definition encodeOffsetRecord (key value : list byte) : list byte :=
  be_put 4 (u32 (zlen key)) ++ key ++ be_put 4 (u32 (zlen value)) ++ value.

(** ** Decoding *)

(** [binary.BigEndian.Uint16(b[pos:])] and its wider versions; the callers have
    checked that the bytes are there. *)
Definition uint_at (n : nat) (pos : Z) (b : list byte) : Z :=
  be_get (slice pos (pos + Z.of_nat n) b).

Definition decodeOffsetRecord (record : list byte) : result (offsetCacheKey * Z) :=
  let len := zlen record in
  if len <? 4 then Err (Errorf "decodeOffsetRecord: record too short (%d bytes)" [DInt len])
  else
  let pos := 0 in
  let keyLen := uint_at 4 pos record in
  let pos := pos + 4 in
  if len <? pos + keyLen then
    Err (Errorf "decodeOffsetRecord: key length %d exceeds record" [DInt keyLen])
  else
  let key := slice pos (pos + keyLen) record in
  let pos := pos + keyLen in
  if len <? pos + 4 then Err (Errorf "decodeOffsetRecord: no room for value length" [])
  else
  let valueLen := uint_at 4 pos record in
  let pos := pos + 4 in
  if len <? pos + valueLen then
    Err (Errorf "decodeOffsetRecord: value length %d exceeds record" [DInt valueLen])
  else
  let value := slice pos (pos + valueLen) record in
  let kpos := 0 in
  let klen := zlen key in
  if klen <? 2 then Err (Errorf "decodeOffsetRecord: key too short for groupID length" [])
  else
  let groupIDLen := uint_at 2 kpos key in
  let kpos := kpos + 2 in
  if klen <? kpos + groupIDLen then
    Err (Errorf "decodeOffsetRecord: groupID length %d exceeds key" [DInt groupIDLen])
  else
  let groupID := slice kpos (kpos + groupIDLen) key in
  let kpos := kpos + groupIDLen in
  if klen <? kpos + 2 then Err (Errorf "decodeOffsetRecord: key too short for topic length" [])
  else
  let topicLen := uint_at 2 kpos key in
  let kpos := kpos + 2 in
  if klen <? kpos + topicLen then
    Err (Errorf "decodeOffsetRecord: topic length %d exceeds key" [DInt topicLen])
  else
  let topic := slice kpos (kpos + topicLen) key in
  let kpos := kpos + topicLen in
  if klen <? kpos + 4 then Err (Errorf "decodeOffsetRecord: key too short for partition" [])
  else
  let partition := i32 (uint_at 4 kpos key) in
  if zlen value <? 8 then
    Err (Errorf "decodeOffsetRecord: value too short for offset (%d bytes)" [DInt (zlen value)])
  else
  let offset := i64 (uint_at 8 0 value) in
  Ok (MkOffsetCacheKey groupID topic partition, offset).

(** The record [handleOffsetCommit] appends for a committed offset. *)
Definition offset_record (k : offsetCacheKey) (offset : Z) : list byte :=
  encodeOffsetRecord (encodeOffsetKey (ck_GroupID k) (ck_Topic k) (ck_Partition k))
    (be_put 8 (u64 offset)).

(** Keys that the [uint16] and [int32] fields can represent. *)
Definition wf_cache_key (k : offsetCacheKey) : Prop :=
  zlen (ck_GroupID k) < 2 ^ 16 /\ zlen (ck_Topic k) < 2 ^ 16 /\ sfits 32 (ck_Partition k).

#[global] Instance wf_cache_key_dec k : Decision (wf_cache_key k).
Proof. unfold wf_cache_key. apply _. Defined.

(** ** Round trip *)

Lemma uint_at_app n l1 z l2 :
  uint_at n (zlen l1) (l1 ++ be_put n z ++ l2) = z mod 2 ^ (8 * Z.of_nat n).
Proof.
  unfold uint_at. rewrite <- (zlen_be_put n z) at 1. rewrite slice_mid. apply be_get_put.
Qed.

Lemma uint_at_0 n z l : uint_at n 0 (be_put n z ++ l) = z mod 2 ^ (8 * Z.of_nat n).
Proof. apply (uint_at_app n []). Qed.

Lemma slice_at {A} pos m (l1 l l2 : list A) :
  pos = zlen l1 -> m = zlen l -> slice pos (pos + m) (l1 ++ l ++ l2) = l.
Proof. intros -> ->. apply slice_mid. Qed.

(** The fields of a key, by position. *)
Lemma key_fields g t p :
  let key := encodeOffsetKey g t p in
  zlen g < 2 ^ 16 -> zlen t < 2 ^ 16 ->
  zlen key = 8 + zlen g + zlen t /\ uint_at 2 0 key = zlen g /\
  slice 2 (2 + zlen g) key = g /\ uint_at 2 (2 + zlen g) key = zlen t /\
  slice (2 + zlen g + 2) (2 + zlen g + 2 + zlen t) key = t /\
  uint_at 4 (2 + zlen g + 2 + zlen t) key = u32 p.
Proof.
  intros key Hg Ht. pose proof (zlen_nonneg g). pose proof (zlen_nonneg t).
  assert (Eg : u16 (zlen g) = zlen g) by (apply uwrap_id; fits).
  assert (Et : u16 (zlen t) = zlen t) by (apply uwrap_id; fits).
  unfold key, encodeOffsetKey. rewrite Eg, Et. split_and!.
  - zlen_lia.
  - rewrite uint_at_0. apply Z.mod_small. simpl. lia.
  - apply slice_at; [by rewrite zlen_be_put|done].
  - rewrite app_assoc. replace (2 + zlen g) with (zlen (be_put 2 (zlen g) ++ g)) by zlen_lia.
    rewrite uint_at_app. apply Z.mod_small. simpl. lia.
  - rewrite app_assoc, (app_assoc _ (be_put 2 (zlen t))). apply slice_at; [zlen_lia|done].
  - rewrite app_assoc, (app_assoc _ (be_put 2 (zlen t))), (app_assoc _ t).
    rewrite <- (app_nil_r (be_put 4 (u32 p))).
    replace (2 + zlen g + 2 + zlen t)
      with (zlen (((be_put 2 (zlen g) ++ g) ++ be_put 2 (zlen t)) ++ t)) by zlen_lia.
    rewrite uint_at_app. apply Z.mod_small, uwrap_fits. lia.
Qed.

(** The fields of a record, by position; bytes after it do not matter. *)
Lemma record_fields key value extra :
  let record := encodeOffsetRecord key value ++ extra in
  zlen key < 2 ^ 32 -> zlen value < 2 ^ 32 ->
  zlen record = 8 + zlen key + zlen value + zlen extra /\
  uint_at 4 0 record = zlen key /\ slice 4 (4 + zlen key) record = key /\
  uint_at 4 (4 + zlen key) record = zlen value /\
  slice (4 + zlen key + 4) (4 + zlen key + 4 + zlen value) record = value.
Proof.
  intros record Hk Hv. pose proof (zlen_nonneg key). pose proof (zlen_nonneg value).
  assert (Ek : u32 (zlen key) = zlen key) by (apply uwrap_id; fits).
  assert (Ev : u32 (zlen value) = zlen value) by (apply uwrap_id; fits).
  unfold record, encodeOffsetRecord. rewrite Ek, Ev, <- !app_assoc. split_and!.
  - zlen_lia.
  - rewrite uint_at_0. apply Z.mod_small. simpl. lia.
  - apply slice_at; [by rewrite zlen_be_put|done].
  - rewrite app_assoc. replace (4 + zlen key) with (zlen (be_put 4 (zlen key) ++ key)) by zlen_lia.
    rewrite uint_at_app. apply Z.mod_small. simpl. lia.
  - rewrite app_assoc, (app_assoc _ (be_put 4 (zlen value))). apply slice_at; [zlen_lia|done].
Qed.

Lemma decode_offset_record k offset extra :
  wf_cache_key k -> sfits 64 offset ->
  decodeOffsetRecord (offset_record k offset ++ extra) = Ok (k, offset).
Proof.
  destruct k as [g t p]. intros (Hg & Ht & Hp) Ho. simpl in Hg, Ht, Hp.
  pose proof (zlen_nonneg g). pose proof (zlen_nonneg t). pose proof (zlen_nonneg extra).
  unfold offset_record. simpl ck_GroupID. simpl ck_Topic. simpl ck_Partition.
  destruct (key_fields g t p Hg Ht) as (K0 & K1 & K2 & K3 & K4 & K5).
  set (key := encodeOffsetKey g t p) in *. set (value := be_put 8 (u64 offset)).
  assert (V0 : zlen value = 8) by (unfold value; zlen_lia).
  destruct (record_fields key value extra) as (R0 & R1 & R2 & R3 & R4); [lia..|].
  unfold decodeOffsetRecord. cbv zeta. rewrite !Z.add_0_l, R0, R1.
  rewrite !R2, !R3, !R4, !K0, !K1, !K2, !K3, !K4, !K5, !V0.
  repeat (rewrite (proj2 (Z.ltb_ge _ _)) by lia).
  assert (V1 : uint_at 8 0 value = u64 offset).
  { unfold value. rewrite <- (app_nil_r (be_put 8 _)), uint_at_0.
    apply Z.mod_small, uwrap_fits. lia. }
  rewrite V1. unfold i32, i64, u32, u64. by rewrite !swrap_uwrap_id by (lia || fits).
Qed.

(** Round trip: the record written for a committed offset is parsed
    back to the same group, topic, partition and offset. *)
Theorem offset_record_roundtrip k offset extra :
  wf_cache_key k -> sfits 64 offset ->
  decodeOffsetRecord (offset_record k offset ++ extra) = Ok (k, offset).
Proof. apply decode_offset_record. Qed.

Lemma offset_record_roundtrip_witness :
  decodeOffsetRecord (offset_record (MkOffsetCacheKey (gos "g") (gos "sensor") 3) (-1) ++ gos "x") =
  Ok (MkOffsetCacheKey (gos "g") (gos "sensor") 3, -1).
Proof. apply (offset_record_roundtrip (MkOffsetCacheKey (gos "g") (gos "sensor") 3)); concrete. Defined.
