(* ===== verification/FetchPatch.v ===== *)
(** * Patching base offsets on fetch ([handleFetch] in [internal/server/handler.go])

    A fetch serves stored batches with their [BaseOffset] overwritten, so that
    the offset a client asks for next is the position of the next record. *)

From stdpp Require Import base tactics list numbers gmap strings.
From Stdlib Require Import ZArith Lia.
From S2P Require Import Prelude GoIO RecordBatch OffsetRecords LogSegment.
#[local] Open Scope Z_scope.

Definition recHdr : Z := 4.
Definition rbLastOffsetDelta : Z := 23.
Definition rbMinPatchBytes : Z := 27.

(** The loop of [handleFetch]; every round advances by at least 12 bytes, so
    the length of the payload bounds the number of rounds. *)
Fixpoint patch_loop (fuel : nat) (currentPos pos : Z) (payload : list byte) : list byte :=
  match fuel with
  | O => payload
  | S k =>
      if pos + rbMinPatchBytes <=? zlen payload then
        let batchLen := uint_at 4 (pos + rbOffsetLength) payload in
        let totalBatchBytes := 12 + batchLen in
        if zlen payload <? pos + totalBatchBytes then payload
        else
          let lastOffsetDelta := i32 (uint_at 4 (pos + rbLastOffsetDelta) payload) in
          let nextPhysical := u64 (u64 (currentPos + u64 recHdr) + u64 totalBatchBytes) in
          let targetBase := u64 (u64 (nextPhysical - u64 lastOffsetDelta) - 1) in
          let payload := splice (pos + rbOffsetBaseOffset) (be_put 8 targetBase) payload in
          patch_loop k (u64 (nextPhysical - u64 recHdr)) (pos + totalBatchBytes) payload
      else payload
  end.

Definition patch_payload (fetchOffset : Z) (payload : list byte) : list byte :=
  patch_loop (S (length payload)) (u64 fetchOffset) 0 payload.

(** ** The loop ends by its own conditions *)

Lemma zlen_patch_loop fuel cur pos payload :
  0 <= pos -> zlen (patch_loop fuel cur pos payload) = zlen payload.
Proof.
  revert cur pos payload. induction fuel as [|k IH]; intros cur pos payload Hp; simpl; [done|].
  unfold rbMinPatchBytes. destruct (Z.leb_spec (pos + 27) (zlen payload)); [|done].
  case_match; [done|].
  pose proof (be_get_range (slice (pos + rbOffsetLength) (pos + rbOffsetLength + Z.of_nat 4) payload)).
  rewrite IH by (unfold uint_at; lia).
  apply zlen_splice; unfold rbOffsetBaseOffset; rewrite ?zlen_be_put; lia.
Qed.

(** More fuel than the payload has bytes changes nothing. *)
Lemma patch_loop_fuel fuel fuel' cur pos payload :
  0 <= pos -> zlen payload - pos < Z.of_nat fuel -> zlen payload - pos < Z.of_nat fuel' ->
  patch_loop fuel cur pos payload = patch_loop fuel' cur pos payload.
Proof.
  revert fuel' cur pos payload. induction fuel as [|k IH]; intros fuel' cur pos payload Hp H1 H2.
  - destruct fuel' as [|k']; [done|]. simpl. unfold rbMinPatchBytes.
    rewrite (proj2 (Z.leb_gt _ _)) by lia. done.
  - destruct fuel' as [|k']; simpl; unfold rbMinPatchBytes.
    + rewrite (proj2 (Z.leb_gt _ _)) by lia. done.
    + destruct (Z.leb_spec (pos + 27) (zlen payload)); [|done]. case_match; [done|].
      pose proof (be_get_range (slice (pos + rbOffsetLength) (pos + rbOffsetLength + Z.of_nat 4) payload)).
      apply IH; rewrite ?zlen_splice; unfold uint_at, rbOffsetBaseOffset in *;
        rewrite ?zlen_be_put; lia.
Qed.

(** ** One whole batch *)

(** The offset a client fetches next after it decoded a batch. *)
Definition next_fetch_offset (batch : list byte) : Z :=
  i64 (i64 (uint_at 8 rbOffsetBaseOffset batch) + i32 (uint_at 4 rbLastOffsetDelta batch) + 1).

Lemma patch_one off payload :
  rbMinPatchBytes <= zlen payload -> declared_total payload = zlen payload ->
  patch_payload off payload =
  splice rbOffsetBaseOffset
    (be_put 8 (off + 4 + zlen payload - i32 (uint_at 4 rbLastOffsetDelta payload) - 1)) payload.
Proof.
  unfold rbMinPatchBytes. intros Hl Ht. unfold patch_payload. cbn [patch_loop].
  assert (Htot : 12 + uint_at 4 rbOffsetLength payload = zlen payload).
  { rewrite <- Ht. unfold declared_total, Uint32_at, uint_at. apply Z.add_comm. }
  unfold rbMinPatchBytes. rewrite !Z.add_0_l, Htot, Z.ltb_irrefl.
  rewrite (proj2 (Z.leb_le _ _)) by lia. cbv zeta.
  set (lod := i32 _). set (p' := splice _ _ _).
  assert (Hz : zlen p' = zlen payload).
  { unfold p'. apply zlen_splice; unfold rbOffsetBaseOffset; rewrite ?zlen_be_put; lia. }
  assert (Hp' : p' = splice rbOffsetBaseOffset
    (be_put 8 (off + 4 + zlen payload - lod - 1)) payload).
  { unfold p'. f_equal. rewrite <- (be_put_mod 8 8 (off + _ + _ - _ - _)) by lia.
    change (_ mod 2 ^ (8 * Z.of_nat 8)) with (u64 (off + 4 + zlen payload - lod - 1)).
    unfold u64, recHdr. autorewrite with wrap.
    rewrite <- !Z.sub_add_distr, <- !Z.add_assoc. autorewrite with wrap. by rewrite <- !Z.add_sub_assoc, uwrap_add_l. }
  rewrite <- Hp'. destruct (length payload) as [|k]; [done|]. cbn [patch_loop].
  unfold rbMinPatchBytes. by rewrite (proj2 (Z.leb_gt _ _)) by lia.
Qed.

Lemma uint_at_splice n lo pos (new l : list byte) :
  0 <= pos -> pos + zlen new <= lo -> pos + zlen new <= zlen l ->
  uint_at n lo (splice pos new l) = uint_at n lo l.
Proof. intros. unfold uint_at. by rewrite slice_splice_after. Qed.

Lemma patch_whole_batch off batch :
  rbMinBytes <= zlen batch -> declared_total batch = zlen batch -> 0 <= off ->
  off + zlen (frame batch) < 2 ^ 63 ->
  next_fetch_offset (patch_payload off batch) = off + zlen (frame batch) /\
  ValidateRecordBatch (patch_payload off batch) = ValidateRecordBatch batch /\
  drop 8 (patch_payload off batch) = drop 8 batch.
Proof.
  unfold rbMinBytes. rewrite zlen_frame. intros Hl Ht Ho Hb.
  rewrite patch_one by (unfold rbMinPatchBytes; lia || done).
  set (lod := i32 (uint_at 4 rbLastOffsetDelta batch)).
  set (new := be_put 8 (off + 4 + zlen batch - lod - 1)).
  assert (Hn : zlen new = 8) by (unfold new; by rewrite zlen_be_put). split_and!.
  - unfold next_fetch_offset, rbOffsetBaseOffset.
    rewrite (uint_at_splice 4) by (unfold rbLastOffsetDelta; lia). fold lod.
    unfold uint_at. pose proof (slice_splice_at 0 new batch) as Hs.
    rewrite Hn in Hs. change (0 + Z.of_nat 8) with (0 + 8). rewrite Hs by lia.
    unfold new. rewrite be_get_put.
    change (_ mod 2 ^ (8 * Z.of_nat 8)) with (uwrap 64 (off + 4 + zlen batch - lod - 1)).
    unfold i64. autorewrite with wrap. rewrite <- Z.add_assoc. autorewrite with wrap.
    replace (off + 4 + zlen batch - lod - 1 + (lod + 1)) with (off + 4 + zlen batch) by lia.
    rewrite swrap_id; [lia|lia|fits].
  - by apply validate_splice_base.
  - unfold splice, rbOffsetBaseOffset. change (Z.to_nat 0) with 0%nat.
    rewrite take_0, app_nil_l. unfold zlen in Hn. rewrite drop_app_ge by lia.
    rewrite drop_drop. f_equal.
Qed.

(** A stored batch that is fetched whole from position [off] comes
    back with only its base offset changed, still validates as before, and the
    offset that a client computes from it for its next fetch is the position
    of the next record on disk. *)
Theorem patched_batch_points_to_next_record off batch :
  rbMinBytes <= zlen batch -> declared_total batch = zlen batch -> 0 <= off ->
  off + zlen (frame batch) < 2 ^ 63 ->
  next_fetch_offset (patch_payload off batch) = off + zlen (frame batch) /\
  ValidateRecordBatch (patch_payload off batch) = ValidateRecordBatch batch /\
  drop 8 (patch_payload off batch) = drop 8 batch.
Proof. apply patch_whole_batch. Qed.

Lemma patched_batch_points_to_next_record_witness :
  next_fetch_offset (patch_payload 500 sample_batch) = 500 + zlen (frame sample_batch) /\
  ValidateRecordBatch (patch_payload 500 sample_batch) = ValidateRecordBatch sample_batch /\
  drop 8 (patch_payload 500 sample_batch) = drop 8 sample_batch.
Proof. apply (patched_batch_points_to_next_record 500 sample_batch); concrete. Defined.

(** ** A read that spans two records *)

(** What a client decodes from a payload: batches back to back, each as long as
    its length field says. *)
Fixpoint split_batches (fuel : nat) (payload : list byte) : list (list byte) :=
  match fuel with
  | O => []
  | S k =>
      let n := declared_total payload in
      if (zlen payload <? rbMinBytes) || (zlen payload <? n) then []
      else take (Z.to_nat n) payload :: split_batches k (drop (Z.to_nat n) payload)
  end.

(** When the bytes of two stored records are fetched together, the
    four-byte frame header between them stays in the payload: a client finds
    the first batch, and what follows it does not validate as a batch, although
    both records are intact on disk. *)
Theorem fetch_of_two_records_is_not_batches :
  let payload := patch_payload 0 (drop 4 (frame sample_batch ++ frame sample_batch)) in
  match split_batches 5 payload with
  | first :: rest =>
      is_ok (ValidateRecordBatch first) = true /\ rest <> [] /\
      forallb (fun b => negb (is_ok (ValidateRecordBatch b))) rest = true
  | [] => False
  end.
Proof. vm_compute. repeat split; congruence. Qed.
