(* ===== verification/BrokerStore.v ===== *)
(** * The broker store ([internal/storage/broker_store.go])

    The map from topic-partitions to partition stores, their discovery in the
    root directory, creation on demand, and the retention sweep. The store's
    read-write lock makes each method one step; the double-checked lookup of
    [GetOrCreatePartition] is then a single lookup (in [Concurrent] its two
    sections are two calls). *)

From stdpp Require Import base tactics list numbers gmap strings sorting.
From Stdlib Require Import ZArith Lia.
From S2P Require Import Prelude GoIO GoStrings OSFile LogIndex LogSegment SegmentSpec LogStore.
#[local] Open Scope Z_scope.

(** ** Data *)

Record TopicPartition := MkTopicPartition { tp_Topic : gostring; tp_Partition : Z }.

#[global] Instance TopicPartition_eq_dec : EqDecision TopicPartition.
Proof. solve_decision. Defined.

Record BrokerStore := MkBrokerStore {
  bs_rootDir : gostring;
  bs_cfg : SegmentConfig;
  bs_stores : gmap gostring PartitionStore }.

Definition set_bs_stores (m : gmap gostring PartitionStore) (bs : BrokerStore) : BrokerStore :=
  MkBrokerStore (bs_rootDir bs) (bs_cfg bs) m.

(** The order in which [range] visits a Go map is not specified: it is a
    parameter, of which only this is known. *)
Class MapOrder := {
  map_range : forall V, gmap gostring V -> list (gostring * V);
  map_range_perm V (m : gmap gostring V) : map_range V m ≡ₚ map_to_list m }.
Arguments map_range {_ V} m.
Arguments map_range_perm {_ V} m.

(** ** Names *)

Definition dash : byte := Byte.x2d.

Definition partitionKey (topic : gostring) (partition : Z) : gostring :=
  topic ++ dash :: fmt_d partition.

Definition partitionDir (bs : BrokerStore) (topic : gostring) (partition : Z) : gostring :=
  Join (bs_rootDir bs) (partitionKey topic partition).

(** The text before and after the last dash. *)
Fixpoint cut_last_dash (s : gostring) : option (gostring * gostring) :=
  match s with
  | [] => None
  | b :: s' =>
      match cut_last_dash s' with
      | Some (l, r) => Some (b :: l, r)
      | None => if decide (b = dash) then Some ([], s') else None
      end
  end.

(** [partitionDirRe.FindStringSubmatch(name)] for [^(.+)-(\d+)$]: digits after
    the last dash, and before it at least one character, none of them a
    newline. *)
Definition FindStringSubmatch (name : gostring) : option (gostring * gostring) :=
  match cut_last_dash name with
  | Some (topic, ds) =>
      if negb (bool_decide (topic = [])) && negb (bool_decide (Byte.x0a ∈ topic)) &&
         negb (bool_decide (ds = [])) && forallb is_digit ds
      then Some (topic, ds) else None
  | None => None
  end.

(** ** Operations *)

(** The loop body of [OpenBrokerStore]. *)
Definition load_partition (rootDir : gostring) (cfg : SegmentConfig)
    (stores : gmap gostring PartitionStore) (e : dirent) : st os (gmap gostring PartitionStore) :=
  if negb (de_dir e) then mret stores
  else match FindStringSubmatch (de_name e) with
       | None => mret stores
       | Some (topic, ds) =>
           match ParseInt ds 32 with
           | None => mret stores
           | Some partNum =>
               let dir := Join rootDir (de_name e) in
               ps ← wrapf "storage: broker store load %q: %w" [DStr dir] (OpenPartitionStore dir cfg);
               mret (<[partitionKey topic (i32 partNum) := ps]> stores)
           end
       end.

Fixpoint load_partitions (rootDir : gostring) (cfg : SegmentConfig)
    (stores : gmap gostring PartitionStore) (es : list dirent)
  : st os (gmap gostring PartitionStore) :=
  match es with
  | [] => mret stores
  | e :: es => stores ← load_partition rootDir cfg stores e; load_partitions rootDir cfg stores es
  end.

Definition OpenBrokerStore (rootDir : gostring) (cfg : SegmentConfig) : st os BrokerStore :=
  entries ← wrapf "storage: broker store scan %q: %w" [DStr rootDir] (os_ReadDir rootDir);
  stores ← load_partitions rootDir cfg ∅ entries;
  mret (MkBrokerStore rootDir cfg stores).

(** The store is returned by its key, under which it stays in the map. *)
Definition GetOrCreatePartition (topic : gostring) (partition : Z) : stio BrokerStore gostring :=
  let key := partitionKey topic partition in
  bs ← get_st (fun bs => bs);
  match bs_stores bs !! key with
  | Some _ => mret key
  | None =>
      let dir := partitionDir bs topic partition in
      _ ← wrapf "storage: create partition dir %q: %w" [DStr dir] (on_os (os_MkdirAll dir));
      ps ← wrapf "storage: open partition %q/%d: %w" [DStr topic; DInt partition]
             (on_os (OpenPartitionStore dir (bs_cfg bs)));
      _ ← put_st (fun bs => set_bs_stores (<[key := ps]> (bs_stores bs)) bs);
      mret key
  end.

(** A call on the store that [GetOrCreatePartition] returned. *)
Definition on_partition {A} (key : gostring) (m : stio PartitionStore A) : stio BrokerStore A :=
  fun '(bs, o) =>
    match bs_stores bs !! key with
    | Some ps =>
        let '(r, (ps, o)) := m (ps, o) in
        (r, (set_bs_stores (<[key := ps]> (bs_stores bs)) bs, o))
    | None => (Panic IndexRange, (bs, o))
    end.

Section ordered.
Context `{MapOrder}.

Definition topic_of (ps : PartitionStore) : option TopicPartition :=
  match FindStringSubmatch (Base (ps_dir ps)) with
  | Some (topic, ds) =>
      match ParseInt ds 32 with
      | Some partNum => Some (MkTopicPartition topic (i32 partNum))
      | None => None
      end
  | None => None
  end.

Definition Topics (bs : BrokerStore) : list TopicPartition :=
  omap (fun '(_, ps) => topic_of ps) (map_range (bs_stores bs)).

(** One tick of [runLogCleaner]; a failed sweep of a partition is logged only. *)
Definition sweep_partition (tp : TopicPartition) (x : BrokerStore * os) : BrokerStore * os :=
  let key := partitionKey (tp_Topic tp) (tp_Partition tp) in
  match bs_stores x.1 !! key with
  | Some _ => (on_partition key (CleanOldSegments (sc_Retention (bs_cfg x.1))) x).2
  | None => x
  end.

Definition runLogCleaner_tick (x : BrokerStore * os) : BrokerStore * os :=
  fold_left (fun x tp => sweep_partition tp x) (Topics x.1) x.

(** [Close] closes every store and reports the first error. *)
Fixpoint close_all (keys : list gostring) (firstErr : option goerr) (x : BrokerStore * os)
  : option goerr * (BrokerStore * os) :=
  match keys with
  | [] => (firstErr, x)
  | key :: keys =>
      let '(r, x) := on_partition key PartitionStore_Close x in
      let firstErr :=
        match firstErr, r with
        | None, Err e => Some (Wrapf "storage: close partition %q: %w" [DStr key] e)
        | e, _ => e
        end in
      close_all keys firstErr x
  end.

Definition BrokerStore_Close : stio BrokerStore unit := fun x =>
  match close_all (map_range (bs_stores x.1)).*1 None x with
  | (Some e, x) => (Err e, x)
  | (None, x) => (Ok tt, x)
  end.
End ordered.

(** One possible order. *)
Definition insertion_order : MapOrder :=
  {| map_range V m := map_to_list m; map_range_perm V m := reflexivity _ |}.

(** ** Keys and directory names *)

Lemma digits_no_dash s : forallb is_digit s = true -> dash ∉ s.
Proof.
  induction s as [|b s IH]; simpl; [set_solver|]. intros [Hb Hs]%andb_true_iff.
  assert (b <> dash) by (intros ->; vm_compute in Hb; done). set_solver.
Qed.

Lemma cut_last_dash_app l r : dash ∉ r -> cut_last_dash (l ++ dash :: r) = Some (l, r).
Proof.
  intros Hr. assert (Hn : cut_last_dash r = None).
  { induction r as [|b r IH]; simpl; [done|]. rewrite IH by set_solver.
    by rewrite decide_False by set_solver. }
  induction l as [|b l IH]; simpl; [by rewrite Hn|by rewrite IH].
Qed.

Lemma cut_partitionKey t p : 0 <= p -> cut_last_dash (partitionKey t p) = Some (t, digits p).
Proof.
  intros Hp. unfold partitionKey. rewrite fmt_d_nonneg by done.
  apply cut_last_dash_app, digits_no_dash, digits_spec. done.
Qed.

Lemma partitionKey_inj_lemma t1 p1 t2 p2 :
  0 <= p1 -> 0 <= p2 -> partitionKey t1 p1 = partitionKey t2 p2 -> t1 = t2 /\ p1 = p2.
Proof.
  intros H1 H2 E. apply (f_equal cut_last_dash) in E. rewrite !cut_partitionKey in E by done.
  injection E as -> E. split; [done|]. by apply digits_inj.
Qed.

(** Partitions with non-negative numbers have stores and directories
    of their own: different topic-partitions never share a key. *)
Theorem partitionKey_injective t1 p1 t2 p2 :
  0 <= p1 -> 0 <= p2 -> partitionKey t1 p1 = partitionKey t2 p2 -> t1 = t2 /\ p1 = p2.
Proof. apply partitionKey_inj_lemma. Qed.

Lemma partitionKey_injective_witness :
  gos "a-b" = gos "a-b" /\ 10 = 10.
Proof.
  apply (partitionKey_injective (gos "a-b") 10 (gos "a-b") 10); [done|done|reflexivity].
Defined.

(** A negative partition number, which the wire format admits, can
    share its store with another topic: partition -1 of [a] and partition 1 of
    [a-] are one log. *)
Theorem negative_partitions_collide :
  partitionKey (gos "a") (-1) = partitionKey (gos "a-") 1 /\
  FindStringSubmatch (partitionKey (gos "a") (-1)) = Some (gos "a-", gos "1").
Proof. vm_compute. by split. Qed.

(** Topic names that come back from their directory. *)
Definition nameable (t : gostring) (p : Z) : Prop :=
  t <> [] /\ (Byte.x0a ∉ t) /\ (slash ∉ t) /\ 0 <= p < 2 ^ 31.

#[global] Instance nameable_dec t p : Decision (nameable t p).
Proof. unfold nameable. apply _. Defined.

Lemma FindStringSubmatch_key t p :
  nameable t p -> FindStringSubmatch (partitionKey t p) = Some (t, digits p).
Proof.
  intros (Ht & Hn & _ & Hp). unfold FindStringSubmatch. rewrite cut_partitionKey by lia.
  destruct (digits_spec p) as (_ & D & N); [lia|].
  by rewrite !bool_decide_false, D by done.
Qed.

Lemma simple_partitionKey t p : nameable t p -> simple_name (partitionKey t p).
Proof.
  intros (Ht & _ & Hs & Hp). unfold partitionKey. rewrite fmt_d_nonneg by lia.
  destruct (digits_spec p) as (_ & D & N); [lia|]. pose proof (digits_no_slash _ D).
  assert (Hd : dash <> slash) by done.
  split_and!; [by destruct t|..].
  - intros E. apply (f_equal length) in E. rewrite length_app in E. simpl in E.
    destruct t; [done|]. simpl in E. lia.
  - intros E. apply (f_equal length) in E. rewrite length_app in E. simpl in E.
    destruct t; [done|]. destruct (digits p); [done|]. simpl in E. lia.
  - set_solver.
Qed.

Lemma topic_of_key ps root t p :
  nameable t p -> ps_dir ps = Join root (partitionKey t p) ->
  topic_of ps = Some (MkTopicPartition t p).
Proof.
  intros Hn Hd. pose proof Hn as (_ & _ & _ & Hp). unfold topic_of.
  rewrite Hd, Base_Join, FindStringSubmatch_key by auto using simple_partitionKey.
  rewrite ParseInt_digits by (simpl; lia). unfold i32. by rewrite swrap_id by fits.
Qed.
