(* ===== verification/BrokerSpec.v ===== *)
(** * The broker store as independent logs

    The abstract broker is a map from topic-partitions to partition logs, each
    of its own. This file states the invariant that ties it to the stores and
    the directories of [BrokerStore], and proves that any interleaving of
    appends, reads and flushes on any partitions, with the creation of
    partitions on first use, behaves like the abstract broker: no partition
    sees another one's records. *)

From stdpp Require Import base tactics list numbers gmap strings sorting.
From Stdlib Require Import ZArith Lia.
From S2P Require Import Prelude GoIO GoStrings OSFile LogIndex LogSegment SegmentSpec LogStore BrokerStore.
#[local] Open Scope Z_scope.

(** ** Effects on one partition's directory *)

(** From [o] to [o'] the directory exists, and at most its segment files
    changed. *)
Record private (dir : gostring) (o o' : os) : Prop := {
  pv_dirs : os_dirs o' = {[dir]} ∪ os_dirs o;
  pv_files : forall q, (forall b, 0 <= b -> q ∉ names dir b) -> os_files o' !! q = os_files o !! q;
  pv_faults : os_faults o = [] -> os_faults o' = [] }.

Lemma private_trans dir o1 o2 o3 : private dir o1 o2 -> private dir o2 o3 -> private dir o1 o3.
Proof.
  intros [] []. constructor; auto.
  - rewrite pv_dirs1, pv_dirs0. set_solver.
  - intros q Hq. rewrite pv_files1 by done. auto.
Qed.

Lemma add_dir_private dir o : private dir o (add_dir dir o).
Proof. by constructor. Qed.

Lemma within_private dir o o' : dir ∈ os_dirs o -> within dir o o' -> private dir o o'.
Proof. intros Hd []. constructor; auto. rewrite wi_dirs. set_solver. Qed.

Lemma names_parent dir b q :
  dir <> [] -> 0 <= b -> q ∈ names dir b -> parent q = Clean dir.
Proof.
  rewrite !elem_of_cons, elem_of_nil. intros Hd Hb [->|[->|[]]];
    apply parent_Join; auto using simple_segment_name, simple_index_name.
Qed.

Lemma part_ok_dir ps o L :
  part_ok ps o L -> ps_dir ps <> [] -> Clean (ps_dir ps) ∈ os_dirs o.
Proof.
  intros Hok Hd. destruct (pf_open _ _ _ _ (po_files _ _ _ Hok) 0) as [[_ H] _]; [done|].
  revert H. unfold segment_name. by rewrite parent_Join by auto using simple_segment_name with lia.
Qed.

(** The segment files of a directory are as they were. *)
Record untouched (dir : gostring) (o o' : os) : Prop := {
  un_files : forall b q, 0 <= b -> q ∈ names dir b -> os_files o' !! q = os_files o !! q;
  un_open : forall b, 0 <= b -> openable dir b o -> openable dir b o';
  un_faults : os_faults o = [] -> os_faults o' = [] }.

Lemma untouched_lookup dir o o' b :
  untouched dir o o' -> 0 <= b ->
  os_files o' !! segment_name dir b = os_files o !! segment_name dir b /\
  os_files o' !! index_name dir b = os_files o !! index_name dir b.
Proof. intros [H _ _] Hb. split; apply (H b); set_solver. Qed.

Lemma untouched_content dir o o' b :
  untouched dir o o' -> 0 <= b ->
  content (segment_name dir b) o' = content (segment_name dir b) o /\
  content (index_name dir b) o' = content (index_name dir b) o.
Proof. intros H Hb. unfold content. by destruct (untouched_lookup _ _ _ _ H Hb) as [-> ->]. Qed.

(** What happens outside its files does not concern a partition. *)
Lemma part_files_frame dir o o' closed base :
  part_files dir o closed base -> untouched dir o o' -> part_files dir o' closed base.
Proof.
  intros [Hbase Hopen Hclosed Hfresh] Hu. constructor; [done|..].
  - intros b Hb. by apply (un_open _ _ _ Hu), Hopen.
  - eapply Forall_impl; [exact Hclosed|]. intros [b l] [Hb' Hl]. split; [done|].
    destruct (untouched_content _ _ _ b Hu) as [-> _]; [lia|done].
  - intros b Hb'. destruct (untouched_content _ _ _ b Hu) as [-> ->]; [lia|auto].
Qed.

Lemma disk_ok_frame dir o o' L : disk_ok dir o L -> untouched dir o o' -> disk_ok dir o' L.
Proof.
  intros [Hf Hl Hb Hx] Hu. destruct (untouched_content _ _ _ (pl_base L) Hu (pf_base _ _ _ _ Hf)) as [C1 C2].
  constructor; rewrite ?C1, ?C2; try done. by eapply part_files_frame.
Qed.

Lemma part_ok_frame ps o o' L : part_ok ps o L -> untouched (ps_dir ps) o o' -> part_ok ps o' L.
Proof.
  intros [(Hs & Hx & Hf) Hp Hq Hb Hm Hz Hfiles] Hu.
  destruct (untouched_lookup _ _ _ (pl_base L) Hu (pf_base _ _ _ _ Hfiles)) as [N1 N2].
  rewrite <- Hp in N1. rewrite <- Hq in N2. constructor; try done; [|by eapply part_files_frame].
  split_and!; [| |by apply (un_faults _ _ _ Hu)].
  - destruct Hs as [[] ? ? ? ?]. constructor; try done. constructor; unfold content in *; by rewrite ?N1.
  - destruct Hx as [[[] ? ? ?] ?]. constructor; [|done]. constructor; try done.
    constructor; unfold content in *; by rewrite ?N2.
Qed.

(** ** Invariant *)

(** A topic-partition of the abstract broker. *)
Abbreviation tpart := (gostring * Z)%type.

(** Nothing in the file system stands in the way of creating the partition. *)
Definition unused (dir : gostring) (o : os) : Prop :=
  os_files o !! dir = None /\
  map_Forall (fun q _ => parent q <> dir) (os_files o) /\
  set_Forall (fun q => parent q <> dir) (os_dirs o).

Definition partition_ok (bs : BrokerStore) (o : os) (t : gostring) (p : Z)
    (mps : option PartitionStore) (mL : option plog) : Prop :=
  match mps, mL with
  | Some ps, Some L =>
      ps_dir ps = partitionDir bs t p /\ ps_cfg ps = bs_cfg bs /\ part_ok ps o L
  | None, None => unused (partitionDir bs t p) o
  | _, _ => False
  end.

(** The subdirectories of the root that [OpenBrokerStore] takes for partitions
    are the partitions. *)
Definition tidy (root : gostring) (o : os) (M : gmap tpart plog) : Prop :=
  forall q t ds n, q ∈ os_dirs o -> parent q = Clean root -> q <> Clean root ->
    FindStringSubmatch (Base q) = Some (t, ds) -> ParseInt ds 32 = Some n ->
    exists p, is_Some (M !! (t, p)) /\ Base q = partitionKey t p.

(** The directories around the partitions [M]. *)
Record root_ok (root : gostring) (o : os) (M : gmap tpart plog) : Prop := {
  rt_dir : root <> [] /\ Clean root ∈ os_dirs o;
  rt_wf : os_wf o;
  rt_faults : os_faults o = [];
  rt_dom : map_Forall (fun '(t, p) _ => nameable t p) M;
  rt_tidy : tidy root o M }.

Record broker_ok (bs : BrokerStore) (o : os) (M : gmap tpart plog) : Prop := {
  bk_root : root_ok (bs_rootDir bs) o M;
  bk_max : max_size (bs_cfg bs) < 2 ^ 62;
  bk_keys : map_Forall (fun key _ => exists t p, nameable t p /\ key = partitionKey t p)
              (bs_stores bs);
  bk_parts : forall t p, nameable t p ->
    partition_ok bs o t p (bs_stores bs !! partitionKey t p) (M !! (t, p)) }.

Lemma partitionKey_ne t p t' p' :
  nameable t p -> nameable t' p' -> (t, p) <> (t', p') -> partitionKey t p <> partitionKey t' p'.
Proof.
  intros (_ & _ & _ & Hp) (_ & _ & _ & Hp') Hne E.
  apply partitionKey_inj_lemma in E as [-> ->]; [done|lia..].
Qed.

Lemma partitionDir_ne bs t p t' p' :
  nameable t p -> nameable t' p' -> (t, p) <> (t', p') -> partitionDir bs t p <> partitionDir bs t' p'.
Proof.
  intros H1 H2 Hne E. apply Join_inj in E; try by apply simple_partitionKey.
  by eapply partitionKey_ne in E.
Qed.

Lemma partitionDir_parent bs t p :
  nameable t p -> bs_rootDir bs <> [] ->
  parent (partitionDir bs t p) = Clean (bs_rootDir bs) /\
  Clean (partitionDir bs t p) = partitionDir bs t p /\ partitionDir bs t p <> [] /\
  partitionDir bs t p <> Clean (bs_rootDir bs).
Proof.
  intros Hn%simple_partitionKey Hr. unfold partitionDir.
  split_and!; auto using parent_Join, Clean_Join_simple, Join_nonempty, Join_ne_Clean.
Qed.

(** The segment files of a partition lie in its directory and nowhere else. *)
Lemma partition_names_parent bs t p b q :
  nameable t p -> bs_rootDir bs <> [] -> 0 <= b -> q ∈ names (partitionDir bs t p) b ->
  parent q = partitionDir bs t p.
Proof.
  intros Hn Hr Hb Hq. destruct (partitionDir_parent bs t p Hn Hr) as (_ & Hc & Hne & _).
  by rewrite (names_parent _ b q Hne Hb Hq).
Qed.

(** A partition is not concerned by what happens in another one's directory. *)
Section other_partition.
Context (bs : BrokerStore) (o o' : os) (t : gostring) (p : Z) (t' : gostring) (p' : Z).
Context (Hr : bs_rootDir bs <> []) (Hn : nameable t p) (Hn' : nameable t' p').
Context (Hne : (t, p) <> (t', p')) (Hpv : private (partitionDir bs t p) o o').

Lemma private_other_file q : parent q <> partitionDir bs t p -> os_files o' !! q = os_files o !! q.
Proof using Hr Hn Hpv.
  intros Hq. apply (pv_files _ _ _ Hpv). intros b Hb Hin. apply Hq. by eapply partition_names_parent.
Qed.

Lemma private_untouched : untouched (partitionDir bs t' p') o o'.
Proof using Hr Hn Hn' Hne Hpv.
  pose proof (partitionDir_ne bs _ _ _ _ Hn Hn' Hne) as Hdd.
  destruct (partitionDir_parent bs t p Hn Hr) as (Hp & _ & _ & Hpr).
  destruct (partitionDir_parent bs t' p' Hn' Hr) as (Hp' & _ & _ & Hpr').
  constructor; [| |apply Hpv].
  - intros b q Hb Hq. apply private_other_file.
    rewrite (partition_names_parent bs t' p' b q) by done. congruence.
  - intros b Hb [[S1 S2] [I1 I2]]. pose proof (pv_dirs _ _ _ Hpv) as Hd.
    assert (forall q, q ∈ names (partitionDir bs t' p') b -> q <> partitionDir bs t p).
    { intros q Hq ->. pose proof (partition_names_parent bs t' p' b _ Hn' Hr Hb Hq). congruence. }
    split; split; rewrite Hd; set_solver.
Qed.

Lemma private_unused : unused (partitionDir bs t' p') o -> unused (partitionDir bs t' p') o'.
Proof using Hr Hn Hn' Hne Hpv.
  pose proof (partitionDir_ne bs _ _ _ _ Hn Hn' Hne) as Hdd.
  destruct (partitionDir_parent bs t p Hn Hr) as (Hp & _ & _ & Hpr).
  destruct (partitionDir_parent bs t' p' Hn' Hr) as (Hp' & _ & _ & Hpr').
  intros (U1 & U2 & U3). split_and!.
  - rewrite private_other_file by congruence. done.
  - intros q f Hq Hpq. rewrite private_other_file in Hq by congruence. by eapply U2.
  - rewrite (pv_dirs _ _ _ Hpv). intros q Hq. rewrite elem_of_union, elem_of_singleton in Hq.
    destruct Hq as [->|Hq]; [congruence|by apply U3].
Qed.

Lemma partition_ok_private mps mL :
  partition_ok bs o t' p' mps mL -> partition_ok bs o' t' p' mps mL.
Proof using Hr Hn Hn' Hne Hpv.
  destruct mps as [ps|], mL as [L|]; simpl; try done; [|apply private_unused].
  intros (Hdir & Hcfg & Hok). split_and!; try done. eapply part_ok_frame; [done|].
  rewrite Hdir. apply private_untouched.
Qed.
End other_partition.

Lemma tidy_private bs o o' M t p L :
  bs_rootDir bs <> [] -> nameable t p -> private (partitionDir bs t p) o o' ->
  tidy (bs_rootDir bs) o M -> tidy (bs_rootDir bs) o' (<[(t, p) := L]> M).
Proof.
  intros Hr Hn Hpv Ht q t' ds n Hq Hpar Hroot Hsub Hint. rewrite (pv_dirs _ _ _ Hpv) in Hq.
  apply elem_of_union in Hq as [->%elem_of_singleton|Hq].
  - unfold partitionDir in *. rewrite Base_Join in * by (by apply simple_partitionKey).
    rewrite FindStringSubmatch_key in Hsub by done. injection Hsub as <- <-.
    exists p. by rewrite lookup_insert_eq.
  - destruct (Ht q t' ds n) as (p' & Hin & HB); try done. exists p'. split; [|done].
    apply lookup_insert_is_Some'. by right.
Qed.

Lemma os_wf_private dir o o' :
  os_wf o -> private dir o o' -> parent dir ∈ os_dirs o -> os_files o !! dir = None ->
  (forall b, 0 <= b -> openable dir b o') -> os_wf o'.
Proof.
  intros Hwf [Hd Hfiles _] Hp Hn Hopen q Hq.
  assert (Hkeep : os_files o' !! q = os_files o !! q).
  { apply Hfiles. intros b Hb. destruct (Hopen b Hb) as [[? _] [? _]]. set_solver. }
  rewrite Hkeep. rewrite Hd in Hq |- *. apply elem_of_union in Hq as [->%elem_of_singleton|Hq].
  - split; [set_solver|done].
  - destruct (Hwf q Hq). split; [set_solver|done].
Qed.

Lemma root_ok_private bs o o' M t p L :
  root_ok (bs_rootDir bs) o M -> nameable t p -> private (partitionDir bs t p) o o' ->
  os_files o !! partitionDir bs t p = None ->
  (forall b, 0 <= b -> openable (partitionDir bs t p) b o') ->
  root_ok (bs_rootDir bs) o' (<[(t, p) := L]> M).
Proof.
  intros [[Hr Hrd] Hwf Hf Hdom Htidy] Hn Hpv Hfree Hopen.
  destruct (partitionDir_parent bs t p Hn Hr) as (Hp & _). constructor.
  - split; [done|]. rewrite (pv_dirs _ _ _ Hpv). set_solver.
  - eapply os_wf_private; try done. by rewrite Hp.
  - by apply (pv_faults _ _ _ Hpv).
  - by apply map_Forall_insert_2.
  - by apply tidy_private with o.
Qed.

Lemma disk_ok_dir dir o L : disk_ok dir o L -> dir <> [] -> Clean dir ∈ os_dirs o.
Proof.
  intros Hok Hd. destruct (pf_open _ _ _ _ (dk_files _ _ _ Hok) 0) as [[_ H] _]; [done|].
  revert H. unfold segment_name. by rewrite parent_Join by auto using simple_segment_name with lia.
Qed.

(** A partition comes into being, or changes, in its own directory. *)
Lemma broker_ok_update bs o M t p ps' o' L' :
  broker_ok bs o M -> nameable t p -> private (partitionDir bs t p) o o' ->
  ps_dir ps' = partitionDir bs t p -> ps_cfg ps' = bs_cfg bs -> part_ok ps' o' L' ->
  broker_ok (set_bs_stores (<[partitionKey t p := ps']> (bs_stores bs)) bs) o' (<[(t, p) := L']> M).
Proof.
  intros [Hroot Hm Hkeys Hparts] Hn Hpv Hdir Hcfg Hok.
  pose proof (rt_dir _ _ _ Hroot) as [Hr _].
  destruct (partitionDir_parent bs t p Hn Hr) as (_ & Hc & Hne & _).
  assert (Hfree : os_files o !! partitionDir bs t p = None).
  { specialize (Hparts t p Hn). destruct (bs_stores bs !! _) as [ps|], (M !! _); try done; [|apply Hparts].
    destruct Hparts as (Hd & _ & Hok1). apply part_ok_dir in Hok1; [|congruence].
    rewrite Hd, Hc in Hok1. by apply (rt_wf _ _ _ Hroot). }
  constructor; simpl; [|done|..].
  - eapply root_ok_private; try done. rewrite <- Hdir. apply Hok.
  - apply map_Forall_insert_2; eauto.
  - intros t' p' Hn'. destruct (decide ((t, p) = (t', p'))) as [[= <- <-]|Hd].
    + by rewrite !lookup_insert_eq.
    + rewrite !lookup_insert_ne by auto using partitionKey_ne.
      apply (partition_ok_private bs o o' t p); auto.
Qed.

(** ** Creating a partition *)

Lemma unused_fresh_dir bs o M t p :
  broker_ok bs o M -> nameable t p -> unused (partitionDir bs t p) o ->
  fresh_dir (partitionDir bs t p) (add_dir (partitionDir bs t p) o).
Proof.
  intros Hbk Hn (_ & U2 & U3). pose proof (rt_dir _ _ _ (bk_root _ _ _ Hbk)) as [Hr _].
  destruct (partitionDir_parent bs t p Hn Hr) as (Hp & Hc & Hne & Hpr).
  unfold fresh_dir. rewrite Hc. split_and!; [done|simpl; set_solver| |done].
  intros q Hq Hpq. simpl in Hq. apply elem_of_union in Hq as [->%elem_of_singleton|Hq].
  - congruence.
  - by apply U3 in Hq.
Qed.

(** The abstract creation: a new partition is empty. *)
Definition log_of (M : gmap tpart plog) (tp : tpart) : plog := default (PLog [] 0 []) (M !! tp).

Lemma GetOrCreatePartition_spec bs o M t p :
  broker_ok bs o M -> nameable t p ->
  wp (GetOrCreatePartition t p) (fun r '(bs', o') =>
    r = Ok (partitionKey t p) /\ bs_rootDir bs' = bs_rootDir bs /\ bs_cfg bs' = bs_cfg bs /\
    is_Some (bs_stores bs' !! partitionKey t p) /\
    broker_ok bs' o' (<[(t, p) := log_of M (t, p)]> M)) (bs, o).
Proof.
  intros Hbk Hn. pose proof (bk_parts _ _ _ Hbk t p Hn) as Hpart.
  unfold GetOrCreatePartition. wp_steps. unfold log_of.
  destruct (bs_stores bs !! partitionKey t p) as [ps|] eqn:E, (M !! (t, p)) as [L|] eqn:EM; try done.
  - simpl. apply wp_ret. rewrite E, insert_id by done. by split_and!.
  - simpl in Hpart. pose proof (bk_root _ _ _ Hbk) as [[Hr Hrd] Hwf Hf _ _].
    destruct (partitionDir_parent bs t p Hn Hr) as (Hp & Hc & Hne & _).
    wp_steps. unfold wp at 1. rewrite os_MkdirAll_child;
      [|done|done|by rewrite Hc, Hp|rewrite Hc; apply Hpart].
    rewrite Hc. cbn [fst snd]. do 3 wp_step.
    destruct (OpenPartitionStore_fresh (partitionDir bs t p) (bs_cfg bs)
      (add_dir (partitionDir bs t p) o)) as (ps & o' & Ho & Hcfg & Hdir & Hok & Hw & _);
      [by eapply unused_fresh_dir|done|apply Hbk|].
    unfold wp. rewrite Ho. simpl. rewrite lookup_insert_eq. split_and!; try done.
    eapply broker_ok_update; try done.
    eapply private_trans; [apply add_dir_private|]. apply within_private; [simpl; set_solver|done].
Qed.

(** ** Refinement *)

Lemma wp_on_partition {A} key (m : stio PartitionStore A) Q bs o ps :
  bs_stores bs !! key = Some ps ->
  wp m (fun r '(ps', o') => Q r (set_bs_stores (<[key := ps']> (bs_stores bs)) bs, o')) (ps, o) ->
  wp (on_partition key m) Q (bs, o).
Proof. intros E. unfold wp, on_partition. rewrite E. by destruct (m (ps, o)) as [? []]. Qed.

(** A call on a partition that exists changes its log as the call's own
    contract says, and no other log. *)
Lemma on_partition_spec {A} bs o M t p (m : stio PartitionStore A)
    (Q : result A -> plog -> os -> Prop) :
  broker_ok bs o M -> nameable t p -> is_Some (bs_stores bs !! partitionKey t p) ->
  (forall ps, part_ok ps o (log_of M (t, p)) -> ps_cfg ps = bs_cfg bs ->
     ps_dir ps = partitionDir bs t p ->
     wp m (fun r '(ps', o') => exists L', Q r L' o' /\ part_ok ps' o' L' /\ ps_dir ps' = ps_dir ps /\
             ps_cfg ps' = ps_cfg ps /\ within (ps_dir ps) o o') (ps, o)) ->
  wp (on_partition (partitionKey t p) m) (fun r '(bs', o') => exists L', Q r L' o' /\
    bs_rootDir bs' = bs_rootDir bs /\ bs_cfg bs' = bs_cfg bs /\
    is_Some (bs_stores bs' !! partitionKey t p) /\
    broker_ok bs' o' (<[(t, p) := L']> M)) (bs, o).
Proof.
  intros Hbk Hn [ps E] Hm. pose proof (bk_parts _ _ _ Hbk t p Hn) as Hpart. rewrite E in Hpart.
  destruct (M !! (t, p)) as [L|] eqn:EM; [|done]. destruct Hpart as (Hdir & Hcfg & Hok).
  pose proof (rt_dir _ _ _ (bk_root _ _ _ Hbk)) as [Hr _].
  destruct (partitionDir_parent bs t p Hn Hr) as (_ & Hc & Hne & _).
  apply (wp_on_partition _ _ _ _ _ _ E). unfold log_of in Hm. rewrite EM in Hm.
  eapply wp_mono; [by apply Hm|].
  intros r [ps' o'] (L' & HQ & Hok' & Hd' & Hc' & Hw). exists L'. simpl.
  rewrite lookup_insert_eq. split_and!; try done.
  eapply broker_ok_update; try done; [|congruence..].
  rewrite Hdir in Hw. apply within_private; [|done].
  rewrite <- Hc, <- Hdir. eapply part_ok_dir; [done|congruence].
Qed.

(** One request of a client of the store: look the partition up, creating it on
    first use, and make a call on it. *)
Definition broker_op : Type := tpart * part_op.

Definition broker_step (bop : broker_op) : stio BrokerStore part_res :=
  let '((t, p), op) := bop in
  key ← GetOrCreatePartition t p;
  on_partition key (fun x => let '(r, x) := part_step op x in (Ok r, x)).

Definition logs_step (max : Z) (bop : broker_op) (M : gmap tpart plog)
  : result part_res * gmap tpart plog :=
  let '(tp, op) := bop in
  let '(r, L) := plog_step max op (log_of M tp) in (Ok r, <[tp := L]> M).

Definition wf_broker_op (bop : broker_op) : Prop :=
  let '((t, p), op) := bop in nameable t p /\ wf_part_op op.

#[global] Instance wf_broker_op_dec bop : Decision (wf_broker_op bop).
Proof. destruct bop as [[] ?]. unfold wf_broker_op. apply _. Defined.

Lemma log_of_insert M tp tp' L : log_of (<[tp := L]> M) tp' = if decide (tp = tp') then L else log_of M tp'.
Proof.
  unfold log_of. case_decide; [subst; by rewrite lookup_insert_eq|by rewrite lookup_insert_ne].
Qed.

Lemma log_of_insert_eq M tp L : log_of (<[tp := L]> M) tp = L.
Proof. rewrite log_of_insert. by rewrite decide_True. Qed.

Lemma broker_step_refines bs o M bop :
  broker_ok bs o M -> wf_broker_op bop -> pl_end (log_of M bop.1) + op_bytes bop.2 < 2 ^ 62 ->
  wp (broker_step bop) (fun r '(bs', o') =>
    r = (logs_step (max_size (bs_cfg bs)) bop M).1 /\ bs_cfg bs' = bs_cfg bs /\
    broker_ok bs' o' (logs_step (max_size (bs_cfg bs)) bop M).2) (bs, o).
Proof.
  destruct bop as [[t p] op]. intros Hbk [Hn Hop] Hz. cbn [fst snd] in Hz.
  unfold broker_step, logs_step. wp_step. eapply wp_mono; [by apply GetOrCreatePartition_spec|].
  intros r [bs1 o1] (-> & Hr1 & Hc1 & Hin & Hbk1).
  eapply wp_mono; [apply (on_partition_spec bs1 o1 _ t p _ (fun r L _ =>
    r = Ok (plog_step (max_size (bs_cfg bs)) op (log_of M (t, p))).1 /\
    L = (plog_step (max_size (bs_cfg bs)) op (log_of M (t, p))).2) Hbk1 Hn Hin)|].
  - intros ps Hok Hcfg Hdir. rewrite log_of_insert_eq in Hok.
    pose proof (part_step_refines ps o1 _ op Hok) as Hstep. rewrite Hcfg, Hc1 in Hstep.
    specialize (Hstep (bk_max _ _ _ Hbk) Hop Hz). unfold wp.
    destruct (part_step op (ps, o1)) as [r [ps' o']]. cbn [fst snd].
    destruct Hstep as (-> & ? & ? & ? & ?). eexists. by split_and!; try congruence.
  - intros r [bs2 o2] (L' & [-> ->] & _ & Hc2 & _ & Hbk2).
    rewrite insert_insert_eq in Hbk2.
    destruct (plog_step _ op _) as [r L]. simpl in *. split_and!; [done|congruence|done].
Qed.

Lemma logs_step_end max bop M tp :
  pl_end (log_of (logs_step max bop M).2 tp) <= pl_end (log_of M tp) + op_bytes bop.2.
Proof.
  destruct bop as [tp' op]. pose proof (plog_step_end max op (log_of M tp')) as H. simpl.
  destruct (plog_step max op (log_of M tp')) as [r L]. simpl in *. rewrite log_of_insert.
  assert (0 <= op_bytes op) by (destruct op; simpl; [apply zlen_nonneg|lia..]).
  case_decide; subst; lia.
Qed.

(** C3: Any interleaving of appends, reads and flushes on nameable
    topic-partitions (a non-empty topic without slash or line break, a partition
    0 <= p < 2^31), each created when it is first used, gives the results of one
    independent log per topic-partition, when no system call fails. (Two
    partitions of which one is negative can have the same directory.) *)
Theorem broker_refines_logs bs o M bops :
  broker_ok bs o M -> Forall wf_broker_op bops ->
  (forall tp, pl_end (log_of M tp) + foldr Z.add 0 (op_bytes <$> bops.*2) < 2 ^ 62) ->
  let '(rs, (bs', o')) := run broker_step bops (bs, o) in
  let '(rs0, M') := run (logs_step (max_size (bs_cfg bs))) bops M in
  rs = rs0 /\ broker_ok bs' o' M'.
Proof.
  intros Hbk Hops. revert bs o M Hbk.
  induction Hops as [|bop bops Hop Hops IH]; intros bs o M Hbk Hz; simpl; [done|].
  pose proof (ops_bytes_nonneg bops.*2). rewrite !fmap_cons in Hz. cbn [foldr] in Hz.
  pose proof (broker_step_refines bs o M bop Hbk Hop) as Hst. unfold wp in Hst.
  pose proof (logs_step_end (max_size (bs_cfg bs)) bop M) as Hend.
  destruct (broker_step bop (bs, o)) as [r [bs1 o1]].
  destruct (logs_step _ bop M) as [r0 M1]. simpl in *.
  destruct Hst as (-> & Hcfg & Hok1); [specialize (Hz bop.1); lia|].
  specialize (IH bs1 o1 M1 Hok1). rewrite Hcfg in IH.
  destruct (run broker_step bops (bs1, o1)) as [rs [bs2 o2]].
  destruct (run (logs_step _) bops M1) as [rs0 M2].
  destruct IH as [-> ?]; [intros tp; specialize (Hz tp); specialize (Hend tp); lia|done].
Qed.

(** ** Starting the broker *)

(** A broker that has opened the partitions whose keys are in [done]; all of
    them have one segment, which holds what the partition's log says. *)
Record loading (done : gset gostring) (bs : BrokerStore) (o : os) (M : gmap tpart plog) : Prop := {
  ld_root : root_ok (bs_rootDir bs) o M;
  ld_max : max_size (bs_cfg bs) < 2 ^ 62;
  ld_keys : map_Forall (fun key _ => exists t p, nameable t p /\ key = partitionKey t p)
              (bs_stores bs);
  ld_parts : forall t p, nameable t p ->
    match M !! (t, p) with
    | Some L =>
        pl_base L = 0 /\ disk_ok (partitionDir bs t p) o L /\
        match bs_stores bs !! partitionKey t p with
        | Some ps => ps_dir ps = partitionDir bs t p /\ ps_cfg ps = bs_cfg bs /\ part_ok ps o L
        | None => partitionKey t p ∉ done
        end
    | None => bs_stores bs !! partitionKey t p = None /\ unused (partitionDir bs t p) o
    end }.

(** What a broker finds when it starts. *)
Definition stored (root : gostring) (cfg : SegmentConfig) (o : os) (M : gmap tpart plog) : Prop :=
  loading ∅ (MkBrokerStore root cfg ∅) o M.

Lemma loading_update keys bs o M t p ps' o' L :
  loading keys bs o M -> nameable t p -> M !! (t, p) = Some L ->
  private (partitionDir bs t p) o o' -> ps_dir ps' = partitionDir bs t p ->
  ps_cfg ps' = bs_cfg bs -> part_ok ps' o' L -> disk_ok (partitionDir bs t p) o' L ->
  loading ({[partitionKey t p]} ∪ keys)
    (set_bs_stores (<[partitionKey t p := ps']> (bs_stores bs)) bs) o' M.
Proof.
  intros [Hroot Hm Hkeys Hparts] Hn EM Hpv Hdir Hcfg Hok Hdk.
  pose proof (rt_dir _ _ _ Hroot) as [Hr _].
  destruct (partitionDir_parent bs t p Hn Hr) as (_ & Hc & Hne & _).
  pose proof (Hparts t p Hn) as Hpart. rewrite EM in Hpart. destruct Hpart as (Hb & Hdk0 & _).
  constructor; simpl; [|done|..].
  - rewrite <- (insert_id M (t, p) L) by done. eapply root_ok_private; try done.
    + apply disk_ok_dir in Hdk0; [|done]. rewrite Hc in Hdk0. by apply (rt_wf _ _ _ Hroot).
    + apply Hdk.
  - apply map_Forall_insert_2; eauto.
  - intros t' p' Hn'. destruct (decide ((t, p) = (t', p'))) as [[= <- <-]|Hd].
    + rewrite EM, !lookup_insert_eq. done.
    + pose proof (partitionKey_ne _ _ _ _ Hn Hn' Hd).
      pose proof (private_untouched bs o o' t p t' p' Hr Hn Hn' Hd Hpv) as Hu.
      rewrite !lookup_insert_ne by done. specialize (Hparts t' p' Hn').
      destruct (M !! (t', p')) as [L'|].
      * destruct Hparts as (? & Hdk' & Hst). split_and!; [done|by eapply disk_ok_frame|].
        destruct (bs_stores bs !! _) as [ps|]; [|set_solver].
        destruct Hst as (Hd' & ? & ?). split_and!; try done. eapply part_ok_frame; [done|].
        by rewrite Hd'.
      * split; [apply Hparts|]. apply (private_unused bs o o' t p); auto. apply Hparts.
Qed.

Lemma loading_skip keys name bs o M :
  loading keys bs o M -> (forall t p, nameable t p -> name <> partitionKey t p) ->
  loading ({[name]} ∪ keys) bs o M.
Proof.
  intros [Hroot Hm Hkeys Hparts] Hname. constructor; try done. intros t p Hn.
  specialize (Hparts t p Hn). specialize (Hname t p Hn). destruct (M !! (t, p)); [|done].
  destruct Hparts as (? & ? & Hst). split_and!; try done.
  destruct (bs_stores bs !! _); [done|]. set_solver.
Qed.

Lemma ParseInt_key t p :
  nameable t p -> ParseInt (digits p) 32 = Some p /\ i32 p = p.
Proof.
  intros (_ & _ & _ & Hp). split; [by apply ParseInt_digits; simpl; lia|].
  unfold i32. by rewrite swrap_id by fits.
Qed.

(** The entry is no partition, or one of [M]. *)
Definition known_entry (M : gmap tpart plog) (e : dirent) : Prop :=
  de_dir e = true -> forall t ds n,
    FindStringSubmatch (de_name e) = Some (t, ds) -> ParseInt ds 32 = Some n ->
    exists p, is_Some (M !! (t, p)) /\ de_name e = partitionKey t p.

Definition entry_keys (es : list dirent) : gset gostring :=
  list_to_set (omap (fun e => if de_dir e then Some (de_name e) else None) es).

Lemma entry_keys_cons e es : entry_keys (e :: es) = entry_keys [e] ∪ entry_keys es.
Proof. unfold entry_keys. simpl. destruct (de_dir e); simpl; set_solver. Qed.

Lemma entry_keys_dir e : entry_keys [e] = if de_dir e then {[de_name e]} else ∅.
Proof. unfold entry_keys. simpl. destruct (de_dir e); simpl; set_solver. Qed.

Lemma load_partition_spec keys root cfg stores o M e :
  loading keys (MkBrokerStore root cfg stores) o M -> known_entry M e ->
  exists stores' o', load_partition root cfg stores e o = (Ok stores', o') /\
    loading (keys ∪ entry_keys [e]) (MkBrokerStore root cfg stores') o' M.
Proof.
  intros Hld He. rewrite entry_keys_dir. unfold load_partition, known_entry in *.
  destruct e as [name [] mt]; simpl in *; rewrite (comm_L (∪));
    [|exists stores, o; by rewrite (left_id_L ∅ (∪))].
  destruct (FindStringSubmatch name) as [[t ds]|] eqn:E1; [destruct (ParseInt ds 32) as [n|] eqn:E2|];
    [|(exists stores, o; split; [done|]; apply loading_skip; [done|];
       intros t' p' Hn' ->; rewrite FindStringSubmatch_key in E1 by done;
       destruct (ParseInt_key t' p' Hn'); congruence)..].
  destruct (He eq_refl t ds n eq_refl E2) as (p & [L EM] & ->).
  pose proof (rt_dom _ _ _ (ld_root _ _ _ _ Hld) (t, p) L EM) as Hn. simpl in Hn.
  rewrite FindStringSubmatch_key in E1 by done. injection E1 as <-.
  destruct (ParseInt_key t p Hn) as [Ep Ei]. replace n with p by congruence. rewrite Ei.
  pose proof (ld_parts _ _ _ _ Hld t p Hn) as Hpart. rewrite EM in Hpart.
  destruct Hpart as (Hb & Hdk & _). unfold partitionDir in Hdk. simpl in Hdk.
  pose proof (rt_dir _ _ _ (ld_root _ _ _ _ Hld)) as [Hr _].
  destruct (partitionDir_parent (MkBrokerStore root cfg stores) t p Hn Hr) as (_ & Hc & Hne & _).
  destruct (OpenPartitionStore_resumes (Join root (partitionKey t p)) cfg o L)
    as (ps & o' & Ho & Hcfg & Hdir & Hok & Hw & Hdk'); [done|done|apply Hld|apply Hld|].
  unfold wrapf, mbind, st_bind. rewrite Ho. do 2 eexists. split; [done|].
  apply (loading_update keys (MkBrokerStore root cfg stores) o M t p ps o' L); try done.
  apply within_private; [|done]. rewrite <- Hc. by eapply disk_ok_dir.
Qed.

Lemma load_partitions_spec es keys root cfg stores o M :
  loading keys (MkBrokerStore root cfg stores) o M -> Forall (known_entry M) es ->
  exists stores' o', load_partitions root cfg stores es o = (Ok stores', o') /\
    loading (keys ∪ entry_keys es) (MkBrokerStore root cfg stores') o' M.
Proof.
  intros Hld Hes. revert keys stores o Hld.
  induction Hes as [|e es He _ IH]; intros keys stores o Hld; simpl.
  { exists stores, o. split; [done|]. unfold entry_keys. simpl. by rewrite (right_id_L ∅ (∪)). }
  destruct (load_partition_spec _ _ _ _ _ _ _ Hld He) as (stores1 & o1 & E1 & Hld1).
  destruct (IH _ _ _ Hld1) as (stores2 & o2 & E2 & Hld2).
  unfold mbind, st_bind. rewrite E1, E2. do 2 eexists. split; [done|].
  by rewrite entry_keys_cons, (assoc_L (∪)).
Qed.

Lemma dir_entries_dir root o e :
  e ∈ dir_entries (Clean root) o -> de_dir e = true ->
  exists q, q ∈ os_dirs o /\ parent q = Clean root /\ q <> Clean root /\ Base q = de_name e.
Proof.
  unfold dir_entries. rewrite elem_of_app, !list_elem_of_fmap. intros [([q f] & -> & _)|(q & -> & Hq)] Hd.
  - done.
  - apply list_elem_of_filter in Hq as [[? ?] ?%elem_of_elements]. by exists q.
Qed.

Lemma dir_entries_known root o M : root_ok root o M -> Forall (known_entry M) (dir_entries (Clean root) o).
Proof.
  intros Hroot. apply Forall_forall. intros e He Hdir t ds n E1 E2.
  destruct (dir_entries_dir _ _ _ He Hdir) as (q & Hq & Hp & Hne & HB). rewrite <- HB in *.
  by apply (rt_tidy _ _ _ Hroot q t ds n).
Qed.

(** A partition's directory is among the entries of the root. *)
Lemma entry_keys_partition bs o M t p L :
  root_ok (bs_rootDir bs) o M -> nameable t p -> disk_ok (partitionDir bs t p) o L ->
  partitionKey t p ∈ entry_keys (dir_entries (Clean (bs_rootDir bs)) o).
Proof.
  intros [[Hr _] _ _ _ _] Hn Hdk.
  destruct (partitionDir_parent bs t p Hn Hr) as (Hp & Hc & Hne & Hpr).
  apply disk_ok_dir in Hdk; [|done]. rewrite Hc in Hdk.
  unfold entry_keys. apply elem_of_list_to_set, list_elem_of_omap.
  exists (DirEnt (partitionKey t p) true (os_dirtime o (partitionDir bs t p))). split; [|done].
  unfold dir_entries. apply elem_of_app. right. apply list_elem_of_fmap.
  exists (partitionDir bs t p). split.
  - unfold partitionDir. by rewrite Base_Join by (by apply simple_partitionKey).
  - apply list_elem_of_filter. split; [done|]. by apply elem_of_elements.
Qed.

Lemma entry_keys_perm es es' : es ≡ₚ es' -> entry_keys es = entry_keys es'.
Proof. intros E. unfold entry_keys. by rewrite E. Qed.

Lemma OpenBrokerStore_stored root cfg o M :
  stored root cfg o M ->
  exists bs o', OpenBrokerStore root cfg o = (Ok bs, o') /\ bs_rootDir bs = root /\
    bs_cfg bs = cfg /\ broker_ok bs o' M.
Proof.
  intros Hld. pose proof (ld_root _ _ _ _ Hld) as Hroot. simpl in Hroot.
  pose proof (rt_dir _ _ _ Hroot) as [Hr Hrd].
  assert (Hmerge : merge_sort dirent_le (dir_entries (Clean root) o) ≡ₚ dir_entries (Clean root) o)
    by apply merge_sort_Permutation.
  destruct (load_partitions_spec (merge_sort dirent_le (dir_entries (Clean root) o)) ∅ root cfg ∅ o M)
    as (stores & o' & E & Hld'); [done|rewrite Hmerge; by apply dir_entries_known|].
  unfold OpenBrokerStore, wrapf, mbind, st_bind, os_ReadDir.
  rewrite sys_no_faults by apply Hroot. cbn zeta. rewrite decide_True by done. simpl. rewrite E.
  do 2 eexists. split; [done|]. split; [done|]. split; [done|].
  rewrite (entry_keys_perm _ _ Hmerge), (left_id_L ∅ (∪)) in Hld'.
  constructor; [apply Hld'..|]. intros t p Hn. unfold partition_ok.
  pose proof (ld_parts _ _ _ _ Hld' t p Hn) as Hpart.
  pose proof (ld_parts _ _ _ _ Hld t p Hn) as Hpart0. simpl in *.
  destruct (M !! (t, p)) as [L|]; [|destruct Hpart as [-> ?]; done].
  destruct Hpart as (_ & Hdk & Hst). destruct (stores !! _) as [ps|]; [done|].
  destruct Hst. destruct Hpart0 as (_ & Hdk0 & _).
  by apply (entry_keys_partition (MkBrokerStore root cfg ∅) o M t p L).
Qed.

(** ** Stopping the broker *)

(** The stores of the partitions whose keys are in [todo] are still open. *)
Record closing (todo : list gostring) (bs : BrokerStore) (o : os) (M : gmap tpart plog) : Prop := {
  cl_root : root_ok (bs_rootDir bs) o M;
  cl_parts : forall t p, nameable t p ->
    match M !! (t, p) with
    | Some L =>
        if decide (partitionKey t p ∈ todo) then
          exists ps, bs_stores bs !! partitionKey t p = Some ps /\
            ps_dir ps = partitionDir bs t p /\ part_ok ps o L
        else disk_ok (partitionDir bs t p) o L
    | None => unused (partitionDir bs t p) o
    end }.

Lemma broker_closing bs o M : broker_ok bs o M -> closing (map_to_list (bs_stores bs)).*1 bs o M.
Proof.
  intros Hbk. constructor; [apply Hbk|]. intros t p Hn.
  pose proof (bk_parts _ _ _ Hbk t p Hn) as Hpart.
  destruct (bs_stores bs !! partitionKey t p) as [ps|] eqn:E, (M !! (t, p)) as [L|]; try done.
  rewrite decide_True; [exists ps; split_and!; apply Hpart || done|].
  apply list_elem_of_fmap. exists (partitionKey t p, ps). split; [done|]. by apply elem_of_map_to_list.
Qed.

Lemma close_partition_spec t p todo bs o M L :
  closing (partitionKey t p :: todo) bs o M -> nameable t p -> M !! (t, p) = Some L ->
  partitionKey t p ∉ todo ->
  exists bs' o', on_partition (partitionKey t p) PartitionStore_Close (bs, o) = (Ok tt, (bs', o')) /\
    bs_rootDir bs' = bs_rootDir bs /\ closing todo bs' o' M.
Proof.
  intros [Hroot Hparts] Hn EM Hnin. pose proof (Hparts t p Hn) as Hpart. rewrite EM in Hpart.
  rewrite decide_True in Hpart by set_solver. destruct Hpart as (ps & E & Hdir & Hok).
  pose proof (rt_dir _ _ _ Hroot) as [Hr _].
  destruct (partitionDir_parent bs t p Hn Hr) as (_ & Hc & Hne & _).
  pose proof (part_ok_dir _ _ _ Hok) as Hind. rewrite Hdir, Hc in Hind. specialize (Hind Hne).
  pose proof (PartitionStore_Close_spec ps o L Hok) as Hcl. unfold wp in Hcl.
  unfold on_partition. rewrite E. destruct (PartitionStore_Close (ps, o)) as [r [ps' o']].
  cbn [fst snd] in Hcl. destruct Hcl as (-> & Hdk & Hw & _). rewrite Hdir in Hdk, Hw.
  assert (Hpv : private (partitionDir bs t p) o o') by (by apply within_private).
  do 2 eexists. split; [done|]. split; [done|]. constructor; simpl.
  - rewrite <- (insert_id M (t, p) L) by done.
    eapply root_ok_private; try done; [by apply (rt_wf _ _ _ Hroot)|apply Hdk].
  - intros t' p' Hn'. destruct (decide ((t, p) = (t', p'))) as [[= <- <-]|Hd].
    + by rewrite EM, decide_False.
    + pose proof (partitionKey_ne _ _ _ _ Hn Hn' Hd).
      pose proof (private_untouched bs o o' t p t' p' Hr Hn Hn' Hd Hpv) as Hu.
      specialize (Hparts t' p' Hn'). rewrite lookup_insert_ne by done.
      destruct (M !! (t', p')) as [L'|];
        [|by apply (private_unused bs o o' t p t' p' Hr Hn Hn' Hd Hpv)].
      destruct (decide (partitionKey t' p' ∈ todo)).
      * rewrite decide_True in Hparts by set_solver. destruct Hparts as (ps2 & ? & Hd2 & ?).
        exists ps2. split_and!; try done. eapply part_ok_frame; [done|]. by rewrite Hd2.
      * rewrite decide_False in Hparts by set_solver. by eapply disk_ok_frame.
Qed.

Lemma close_all_spec keys bs o M :
  closing keys bs o M -> NoDup keys ->
  Forall (fun key => exists t p, nameable t p /\ key = partitionKey t p /\ is_Some (M !! (t, p))) keys ->
  exists bs' o', close_all keys None (bs, o) = (None, (bs', o')) /\
    bs_rootDir bs' = bs_rootDir bs /\ closing [] bs' o' M.
Proof.
  revert bs o. induction keys as [|key keys IH]; intros bs o Hcl Hnd Hkeys; cbn [close_all]; [by do 2 eexists|].
  apply NoDup_cons in Hnd as [Hnin Hnd]. apply Forall_cons in Hkeys as [(t & p & Hn & -> & [L EM]) Hkeys].
  destruct (close_partition_spec t p keys bs o M L Hcl Hn EM Hnin) as (bs1 & o1 & E & Hr1 & Hcl1).
  rewrite E. destruct (IH bs1 o1 Hcl1 Hnd Hkeys) as (bs2 & o2 & E2 & Hr2 & Hcl2).
  exists bs2, o2. rewrite E2. split_and!; [done|congruence|done].
Qed.

(** The keys of the stores are those of the partitions. *)
Lemma broker_keys bs o M key :
  broker_ok bs o M -> is_Some (bs_stores bs !! key) ->
  exists t p, nameable t p /\ key = partitionKey t p /\ is_Some (M !! (t, p)).
Proof.
  intros Hbk [ps E]. destruct (bk_keys _ _ _ Hbk key ps E) as (t & p & Hn & ->).
  exists t, p. split_and!; try done. pose proof (bk_parts _ _ _ Hbk t p Hn) as Hpart.
  rewrite E in Hpart. by destruct (M !! (t, p)).
Qed.

Lemma closing_perm keys keys' bs o M :
  (forall k, k ∈ keys <-> k ∈ keys') -> closing keys bs o M -> closing keys' bs o M.
Proof.
  intros Hk [Hroot Hparts]. constructor; [done|]. intros t p Hn. specialize (Hparts t p Hn).
  destruct (M !! (t, p)); [|done].
  by rewrite (decide_ext (partitionKey t p ∈ keys') (partitionKey t p ∈ keys)) by (by rewrite Hk).
Qed.

Section shutdown.
Context `{MapOrder}.

Lemma BrokerStore_Close_spec bs o M :
  broker_ok bs o M ->
  exists bs' o', BrokerStore_Close (bs, o) = (Ok tt, (bs', o')) /\ bs_rootDir bs' = bs_rootDir bs /\
    closing [] bs' o' M.
Proof.
  intros Hbk. pose proof (map_range_perm (bs_stores bs)) as Hp. unfold BrokerStore_Close. simpl.
  assert (Hk : (map_range (bs_stores bs)).*1 ≡ₚ (map_to_list (bs_stores bs)).*1) by (by rewrite Hp).
  destruct (close_all_spec (map_range (bs_stores bs)).*1 bs o M) as (bs' & o' & E & ? & ?).
  - eapply closing_perm; [|by apply broker_closing]. intros k. by rewrite Hk.
  - rewrite Hk. apply NoDup_fst_map_to_list.
  - rewrite Hk. apply Forall_forall. intros key ([k ps] & -> & Hin)%list_elem_of_fmap.
    apply elem_of_map_to_list in Hin. eapply broker_keys; [done|]. by eexists.
  - rewrite E. by do 2 eexists.
Qed.

(** Closing leaves on disk what the next process resumes from. *)
Lemma BrokerStore_Close_stored bs o M cfg :
  broker_ok bs o M -> map_Forall (fun _ L => pl_base L = 0) M -> max_size cfg < 2 ^ 62 ->
  exists bs1 o1, BrokerStore_Close (bs, o) = (Ok tt, (bs1, o1)) /\ stored (bs_rootDir bs) cfg o1 M.
Proof.
  intros Hbk Hbase Hm. destruct (BrokerStore_Close_spec bs o M Hbk) as (bs1 & o1 & E1 & Hr1 & [Hroot Hparts]).
  rewrite Hr1 in Hroot. exists bs1, o1. split; [done|].
  constructor; simpl; [done|done|apply map_Forall_empty|]. intros t p Hn. rewrite lookup_empty.
  specialize (Hparts t p Hn). unfold partitionDir in *. rewrite Hr1 in Hparts. simpl.
  destruct (M !! (t, p)) as [L|] eqn:EM; [|done].
  rewrite decide_False in Hparts by set_solver. split_and!; [by apply (Hbase _ _ EM)|done|set_solver].
Qed.

Lemma broker_restart bs o M cfg :
  broker_ok bs o M -> map_Forall (fun _ L => pl_base L = 0) M -> max_size cfg < 2 ^ 62 ->
  exists bs1 o1 bs2 o2, BrokerStore_Close (bs, o) = (Ok tt, (bs1, o1)) /\
    OpenBrokerStore (bs_rootDir bs) cfg o1 = (Ok bs2, o2) /\ bs_cfg bs2 = cfg /\ broker_ok bs2 o2 M.
Proof.
  intros Hbk Hbase Hm. destruct (BrokerStore_Close_stored bs o M cfg Hbk Hbase Hm) as (bs1 & o1 & E1 & Hst).
  destruct (OpenBrokerStore_stored _ _ _ _ Hst) as (bs2 & o2 & E2 & _ & ? & Hbk2).
  by exists bs1, o1, bs2, o2.
Qed.

(** A broker that is closed and started again serves every partition
    as before, with all its records, provided no partition has rolled over to a
    second segment. *)
Theorem restart_preserves_broker bs o M cfg :
  broker_ok bs o M -> map_Forall (fun _ L => pl_base L = 0) M -> max_size cfg < 2 ^ 62 ->
  exists bs1 o1 bs2 o2, BrokerStore_Close (bs, o) = (Ok tt, (bs1, o1)) /\
    OpenBrokerStore (bs_rootDir bs) cfg o1 = (Ok bs2, o2) /\ broker_ok bs2 o2 M.
Proof.
  intros Hbk Hbase Hm. destruct (broker_restart bs o M cfg Hbk Hbase Hm) as (bs1 & o1 & bs2 & o2 & ? & ? & _ & ?).
  by exists bs1, o1, bs2, o2.
Qed.

(** ** The catalogue *)

Lemma omap_all {A B} (f : A -> option B) (g : A -> B) l :
  Forall (fun x => f x = Some (g x)) l -> omap f l = g <$> l.
Proof. induction 1 as [|x l Hx _ IH]; [done|]. cbn. rewrite Hx. f_equal. exact IH. Qed.

(** What [Topics] makes of a partition's key. *)
Definition key_topic (key : gostring) : TopicPartition :=
  match FindStringSubmatch key with
  | Some (t, ds) => MkTopicPartition t (default 0 (ParseInt ds 32))
  | None => MkTopicPartition [] 0
  end.

Lemma key_topic_key t p : nameable t p -> key_topic (partitionKey t p) = MkTopicPartition t p.
Proof.
  intros Hn. unfold key_topic. rewrite FindStringSubmatch_key by done.
  by destruct (ParseInt_key t p Hn) as [-> _].
Qed.

Lemma Topics_perm bs o M :
  broker_ok bs o M ->
  Topics bs ≡ₚ (fun '(t, p) => MkTopicPartition t p) <$> (map_to_list M).*1.
Proof.
  intros Hbk. unfold Topics. rewrite map_range_perm.
  rewrite (omap_all _ (key_topic ∘ fst)).
  2:{ apply Forall_forall. intros [key ps] E%elem_of_map_to_list.
      destruct (broker_keys bs o M key Hbk) as (t & p & Hn & -> & _); [by eexists|].
      pose proof (bk_parts _ _ _ Hbk t p Hn) as Hpart. rewrite E in Hpart.
      destruct (M !! (t, p)); [|done]. unfold compose. simpl. rewrite key_topic_key by done.
      by apply topic_of_key with (root := bs_rootDir bs), Hpart. }
  rewrite (list_fmap_compose fst key_topic). apply NoDup_Permutation.
  - apply NoDup_fmap_2_strong; [|apply NoDup_fst_map_to_list].
    intros k1 k2 ([? ps1] & -> & E1%elem_of_map_to_list)%list_elem_of_fmap
      ([? ps2] & -> & E2%elem_of_map_to_list)%list_elem_of_fmap. simpl.
    destruct (broker_keys bs o M _ Hbk (mk_is_Some _ _ E1)) as (t1 & p1 & Hn1 & -> & _).
    destruct (broker_keys bs o M _ Hbk (mk_is_Some _ _ E2)) as (t2 & p2 & Hn2 & -> & _).
    rewrite !key_topic_key by done. by intros [= -> ->].
  - apply NoDup_fmap_2; [intros [] [] [=]; congruence|apply NoDup_fst_map_to_list].
  - intros [t p]. rewrite !list_elem_of_fmap. split.
    + intros (k & E & ([? ps] & -> & Hin%elem_of_map_to_list)%list_elem_of_fmap). simpl in *.
      destruct (broker_keys bs o M _ Hbk (mk_is_Some _ _ Hin)) as (t1 & p1 & Hn1 & -> & [L EM]).
      rewrite key_topic_key in E by done. injection E as -> ->. exists (t1, p1). split; [done|].
      apply list_elem_of_fmap. exists ((t1, p1), L). split; [done|]. by apply elem_of_map_to_list.
    + intros ([t1 p1] & [= -> ->] & ([? L] & [= <-] & EM%elem_of_map_to_list)%list_elem_of_fmap).
      simpl in EM. pose proof (rt_dom _ _ _ (bk_root _ _ _ Hbk) _ _ EM) as Hn. simpl in Hn.
      pose proof (bk_parts _ _ _ Hbk t1 p1 Hn) as Hpart. rewrite EM in Hpart.
      destruct (bs_stores bs !! partitionKey t1 p1) as [ps|] eqn:E; [|done].
      exists (partitionKey t1 p1). rewrite key_topic_key by done. split; [done|].
      apply list_elem_of_fmap. exists (partitionKey t1 p1, ps). split; [done|].
      by apply elem_of_map_to_list.
Qed.
(** [Topics] lists every partition of the broker, each once, and nothing
    else, whatever the order of the map. *)
Theorem Topics_complete bs o M :
  broker_ok bs o M ->
  Topics bs ≡ₚ (fun '(t, p) => MkTopicPartition t p) <$> (map_to_list M).*1.
Proof. apply Topics_perm. Qed.
End shutdown.

(** ** Instances *)

(** A root directory with nothing in it. *)
Definition fresh_root (root : gostring) (o : os) : Prop :=
  root <> [] /\ Clean root ∈ os_dirs o /\ os_wf o /\ os_faults o = [] /\
  map_Forall (fun q _ => parent q ∈ os_dirs o /\ parent q <> Clean root) (os_files o) /\
  set_Forall (fun q => parent q = Clean root -> q = Clean root) (os_dirs o).

#[global] Instance fresh_root_dec root o : Decision (fresh_root root o).
Proof. unfold fresh_root. apply _. Defined.

Lemma fresh_root_stored root cfg o :
  fresh_root root o -> max_size cfg < 2 ^ 62 -> stored root cfg o ∅.
Proof.
  intros (Hr & Hrd & Hwf & Hf & Hfiles & Hdirs) Hm. constructor; simpl; [|done|apply map_Forall_empty|].
  - constructor; [done..|apply map_Forall_empty|]. intros q t ds n Hq Hp Hne _ _. by destruct Hne; apply Hdirs.
  - intros t p Hn. rewrite !lookup_empty. split; [done|].
    set (bs := MkBrokerStore root cfg ∅).
    destruct (partitionDir_parent bs t p Hn Hr) as (Hp & _ & _ & Hne).
    assert (Hnd : partitionDir bs t p ∉ os_dirs o) by (intros Hin; by apply Hne, Hdirs).
    split_and!.
    + destruct (os_files o !! _) eqn:E; [|done]. by destruct (Hfiles _ _ E).
    + intros q f E Hq. destruct (Hfiles _ _ E). congruence.
    + intros q Hin Hq. destruct (Hwf q Hin). congruence.
Qed.

(** A broker over the empty directory [/d]. *)
Definition sample_broker : BrokerStore * os :=
  match OpenBrokerStore (gos "/d") sample_pcfg sample_os with
  | (Ok bs, o) => (bs, o)
  | (_, o) => (MkBrokerStore [] sample_pcfg ∅, o)
  end.

Lemma sample_broker_opened :
  broker_ok sample_broker.1 sample_broker.2 ∅ /\ bs_cfg sample_broker.1 = sample_pcfg /\
  bs_rootDir sample_broker.1 = gos "/d".
Proof.
  destruct (OpenBrokerStore_stored (gos "/d") sample_pcfg sample_os ∅) as (bs & o & E & ? & ? & ?).
  - apply fresh_root_stored; concrete.
  - unfold sample_broker. rewrite E. clear E. by split_and!.
Qed.

(** Two topics and two partitions, one of which rolls over. *)
Definition sample_broker_ops : list broker_op :=
  [((gos "a", 0), PAppend (gos "abcd")); ((gos "a-b", 1), PAppend (gos "x"));
   ((gos "a", 1), PRead 0 10); ((gos "a", 0), PAppend (gos "abcdefgh"));
   ((gos "a", 0), PRead 0 100); ((gos "a-b", 1), PRead 0 100)].

Lemma broker_refines_logs_witness :
  let '(rs, (bs', o')) := run broker_step sample_broker_ops (sample_broker.1, sample_broker.2) in
  let '(rs0, M') := run (logs_step (max_size (bs_cfg sample_broker.1))) sample_broker_ops ∅ in
  rs = rs0 /\ broker_ok bs' o' M'.
Proof.
  destruct sample_broker_opened as (Hbk & Hc & _).
  apply (broker_refines_logs sample_broker.1 sample_broker.2 ∅ sample_broker_ops Hbk).
  - unfold sample_broker_ops. concrete.
  - intros tp. unfold log_of. rewrite lookup_empty. concrete.
Defined.

(** The broker after two appends. *)
Definition sample_topics : BrokerStore * os :=
  (run broker_step (take 2 sample_broker_ops) (sample_broker.1, sample_broker.2)).2.
Definition sample_topics_logs : gmap tpart plog :=
  <[(gos "a-b", 1) := PLog [] 0 (frame (gos "x"))]> {[(gos "a", 0) := PLog [] 0 (frame (gos "abcd"))]}.

Lemma sample_topics_ok : broker_ok sample_topics.1 sample_topics.2 sample_topics_logs.
Proof.
  destruct sample_broker_opened as (Hbk & Hc & _).
  pose proof (broker_step_refines sample_broker.1 sample_broker.2 ∅ ((gos "a", 0), PAppend (gos "abcd")) Hbk
    ltac:(concrete) ltac:(concrete)) as H1. rewrite Hc in H1.
  pose proof (fun x bs o (H : x = (bs, o)) => broker_step_refines bs o
    {[(gos "a", 0) := PLog [] 0 (frame (gos "abcd"))]} ((gos "a-b", 1), PAppend (gos "x"))) as H2.
  unfold sample_topics. cbn [take sample_broker_ops run]. unfold wp in H1, H2.
  destruct (broker_step ((gos "a", 0), _) _) as [r1 [bs1 o1]]. cbn [fst snd] in H1.
  destruct H1 as (_ & Hc1 & Hbk1). specialize (H2 _ bs1 o1 eq_refl). rewrite Hc1 in H2.
  destruct (broker_step ((gos "a-b", 1), _) _) as [r2 [bs2 o2]]. cbn [fst snd] in H2 |- *.
  apply H2; [|concrete..]. exact Hbk1.
Qed.

Lemma restart_preserves_broker_witness :
  exists bs1 o1 bs2 o2,
    BrokerStore_Close (H := insertion_order) (sample_topics.1, sample_topics.2) = (Ok tt, (bs1, o1)) /\
    OpenBrokerStore (bs_rootDir sample_topics.1) sample_pcfg o1 = (Ok bs2, o2) /\
    broker_ok bs2 o2 sample_topics_logs.
Proof.
  apply (restart_preserves_broker (H := insertion_order) sample_topics.1 sample_topics.2
           sample_topics_logs sample_pcfg sample_topics_ok).
  - unfold sample_topics_logs. concrete.
  - concrete.
Defined.

Lemma Topics_complete_witness :
  Topics (H := insertion_order) sample_topics.1 ≡ₚ
  [MkTopicPartition (gos "a") 0; MkTopicPartition (gos "a-b") 1].
Proof.
  etrans; [exact (Topics_complete (H := insertion_order) sample_topics.1 sample_topics.2
                    sample_topics_logs sample_topics_ok)|].
  apply NoDup_Permutation; [apply (bool_decide_unpack _); vm_compute; exact I..|].
  intros x. vm_compute. tauto.
Defined.
