(* ===== verification/BrokerRetention.v ===== *)
(** * The retention sweep of the broker ([runLogCleaner])

    A tick of the cleaner goroutine visits every partition. It leaves the
    broker as it is but for closed segments: every active segment, and with it
    everything a producer or a consumer sees, stays what it was. *)

From stdpp Require Import base tactics list numbers gmap strings sorting.
From Stdlib Require Import ZArith Lia.
From S2P Require Import Prelude GoIO GoStrings OSFile LogIndex LogSegment SegmentSpec LogStore.
From S2P Require Import Retention BrokerStore BrokerSpec.
#[local] Open Scope Z_scope.

(** ** One partition *)

(** [L'] is [L] without some of its closed segments. *)
Definition pruned (L' L : plog) : Prop :=
  pl_base L' = pl_base L /\ pl_active L' = pl_active L /\ pl_closed L' `sublist_of` pl_closed L.

#[global] Instance pruned_preorder : PreOrder pruned.
Proof.
  split; [done|]. intros L1 L2 L3 (? & ? & ?) (? & ? & ?). split_and!; try congruence. by etrans.
Qed.

(** The closed segments whose file is still there. *)
Definition remaining (dir : gostring) (o : os) (L : plog) : plog :=
  PLog (filter (fun '(b, l) => content (segment_name dir b) o = l) (pl_closed L)) (pl_base L) (pl_active L).

Lemma remaining_pruned dir o L : pruned (remaining dir o L) L.
Proof. split_and!; [done..|]. apply sublist_filter. Qed.

Lemma deletes_content del o o' q :
  deletes del o o' -> content q o' = content q o \/ content q o' = [] /\ del q.
Proof. intros D. unfold content. destruct (dl_files _ _ _ D q) as [->|[-> ?]]; auto. Qed.

(** Deleting in the directory of a partition, but not the active files. *)
Lemma part_ok_deletes ps o o' L del :
  part_ok ps o L -> ps_dir ps <> [] -> deletes del o o' ->
  (forall q, del q -> exists name, simple_name name /\ q = Join (ps_dir ps) name) ->
  ~ del (segment_name (ps_dir ps) (pl_base L)) -> ~ del (index_name (ps_dir ps) (pl_base L)) ->
  part_ok ps o' (remaining (ps_dir ps) o' L).
Proof.
  intros Hok Hd D Hdel N1 N2. pose proof Hok as [(Hs & Hx & Hf) Hp Hq Hb Hm Hz Hfiles].
  assert (K1 : os_files o' !! sg_path (ps_active ps) = os_files o !! sg_path (ps_active ps)).
  { destruct (dl_files _ _ _ D (sg_path (ps_active ps))) as [?|[_ ?]]; [done|]. rewrite Hp in *. done. }
  assert (K2 : os_files o' !! ix_path (sg_idx (ps_active ps)) = os_files o !! ix_path (sg_idx (ps_active ps))).
  { destruct (dl_files _ _ _ D (ix_path (sg_idx (ps_active ps)))) as [?|[_ ?]]; [done|]. rewrite Hq in *. done. }
  constructor; try done; simpl.
  - split_and!; [| |by apply (dl_faults _ _ _ D)].
    + destruct Hs as [[] ? ? ? ?]. constructor; try done. constructor; unfold content in *; by rewrite ?K1.
    + destruct Hx as [[[] ? ? ?] ?]. constructor; [|done]. constructor; try done.
      constructor; unfold content in *; by rewrite ?K2.
  - destruct Hfiles as [F1 F2 F3 F4]. constructor; [done| | |].
    + intros b Hb0. destruct (F2 b Hb0) as [[S1 S2] [I1 I2]].
      assert (P : forall name, simple_name name -> parent (Join (ps_dir ps) name) ∈ os_dirs o ->
                  parent (Join (ps_dir ps) name) ∈ os_dirs o').
      { intros name Hn. rewrite parent_Join by done. intros Hin.
        destruct (dl_dirs _ _ _ D (Clean (ps_dir ps))) as [_ [?|Hdd]]; [done|done|].
        destruct (Hdel _ Hdd) as (n' & Hn' & E). symmetry in E. by apply Join_ne_Clean in E. }
      split; split; [intros ?%(dl_dirs _ _ _ D); done| |intros ?%(dl_dirs _ _ _ D); done|];
        apply P; auto using simple_segment_name, simple_index_name.
    + apply Forall_forall. intros [b l] [E Hin]%list_elem_of_filter. split; [|done].
      pose proof (proj1 (Forall_forall _ _) F3 _ Hin) as F. by destruct F.
    + intros b Hb0. destruct (F4 b Hb0) as [E1 E2].
      destruct (deletes_content del o o' (segment_name (ps_dir ps) b) D) as [->|[-> _]];
        destruct (deletes_content del o o' (index_name (ps_dir ps) b) D) as [->|[-> _]]; done.
Qed.

(** ** The others *)

Section sweep.
Context (bs : BrokerStore) (o o' : os) (t : gostring) (p : Z) (del : gostring -> Prop).
Context (Hr : bs_rootDir bs <> []) (Hn : nameable t p) (D : deletes del o o').
Context (Hdel : forall q, del q -> exists name, simple_name name /\ q = Join (partitionDir bs t p) name).

Lemma del_parent q : del q -> parent q = partitionDir bs t p.
Proof using Hr Hn Hdel.
  intros (name & Hs & ->)%Hdel. destruct (partitionDir_parent bs t p Hn Hr) as (_ & Hc & Hne & _).
  by rewrite parent_Join.
Qed.

Lemma root_not_deleted : ~ del (Clean (bs_rootDir bs)).
Proof using Hr Hn Hdel.
  intros (name & Hs & E)%Hdel. apply (f_equal (length ∘ clean_elems)) in E. simpl in E.
  destruct (partitionDir_parent bs t p Hn Hr) as (_ & _ & Hne & _).
  rewrite clean_elems_Clean, clean_elems_Join in E by done. unfold partitionDir in E.
  rewrite clean_elems_Join in E by (done || by apply simple_partitionKey). rewrite !length_app in E. simpl in E. lia.
Qed.

Lemma deletes_untouched t' p' :
  nameable t' p' -> (t, p) <> (t', p') -> untouched (partitionDir bs t' p') o o'.
Proof using Hr Hn D Hdel.
  intros Hn' Hne. pose proof (partitionDir_ne bs _ _ _ _ Hn Hn' Hne) as Hdd.
  destruct (partitionDir_parent bs t p Hn Hr) as (Hp & _ & _ & Hpr).
  destruct (partitionDir_parent bs t' p' Hn' Hr) as (Hp' & _ & _ & Hpr').
  constructor; [| |apply (dl_faults _ _ _ D)].
  - intros b q Hb Hq. destruct (dl_files _ _ _ D q) as [->|[_ ?%del_parent]]; [done|].
    rewrite (partition_names_parent bs t' p' b q) in * by done. congruence.
  - intros b Hb [[S1 S2] [I1 I2]].
    assert (P : forall q, q ∈ names (partitionDir bs t' p') b -> parent q ∈ os_dirs o -> parent q ∈ os_dirs o').
    { intros q Hq. rewrite (partition_names_parent bs t' p' b q) by done. intros Hin.
      destruct (dl_dirs _ _ _ D (partitionDir bs t' p')) as [_ [?|?%del_parent]]; [done|done|congruence]. }
    split; split; [intros ?%(dl_dirs _ _ _ D); done| |intros ?%(dl_dirs _ _ _ D); done|]; apply P; set_solver.
Qed.

Lemma deletes_unused dir : unused dir o -> unused dir o'.
Proof using D.
  intros (U1 & U2 & U3). split_and!.
  - by eapply deletes_gone.
  - intros q f Hq. destruct (dl_files _ _ _ D q) as [E|[E _]]; rewrite E in Hq; [by eapply U2|done].
  - intros q Hq. apply U3. by apply (dl_dirs _ _ _ D).
Qed.

Lemma broker_deletes M ps L :
  broker_ok bs o M -> bs_stores bs !! partitionKey t p = Some ps -> M !! (t, p) = Some L ->
  ~ del (segment_name (ps_dir ps) (pl_base L)) -> ~ del (index_name (ps_dir ps) (pl_base L)) ->
  broker_ok bs o' (<[(t, p) := remaining (ps_dir ps) o' L]> M).
Proof using Hr Hn D Hdel.
  intros [[[_ Hrd] Hwf Hf Hdom Htidy] Hmax Hkeys Hparts] Hps HM N1 N2.
  pose proof (Hparts t p Hn) as Hme. rewrite Hps, HM in Hme. destruct Hme as (Hdir & Hcfg & Hok).
  assert (Hdn : ps_dir ps <> []) by (rewrite Hdir; apply (partitionDir_parent bs t p Hn Hr)).
  constructor; [|done..|].
  - constructor; [|by apply (dl_wf _ _ _ D)|by apply (dl_faults _ _ _ D)| |].
    + split; [done|]. destruct (dl_dirs _ _ _ D (Clean (bs_rootDir bs))) as [_ [?|?]]; [done|done|].
      by destruct root_not_deleted.
    + by apply map_Forall_insert_2.
    + intros q t' ds n Hq Hpar Hne Hs Hi. apply (dl_dirs _ _ _ D) in Hq.
      destruct (Htidy q t' ds n Hq Hpar Hne Hs Hi) as (p' & Hin & HB). exists p'. split; [|done].
      apply lookup_insert_is_Some'. by right.
  - intros t' p' Hn'. destruct (decide ((t, p) = (t', p'))) as [[= <- <-]|Hne].
    + rewrite Hps, lookup_insert_eq. split_and!; [done|done|].
      eapply part_ok_deletes; [done|done|exact D| |done|done]. by rewrite Hdir.
    + rewrite lookup_insert_ne by done. specialize (Hparts t' p' Hn').
      destruct (bs_stores bs !! partitionKey t' p') as [ps'|], (M !! (t', p')) as [L'|]; try done;
        [|by apply deletes_unused].
      destruct Hparts as (Hdir' & Hcfg' & Hok'). split_and!; try done.
      eapply part_ok_frame; [done|]. rewrite Hdir'. by apply deletes_untouched.
Qed.
End sweep.

(** ** A tick *)

(** The logs [M'] are those of [M] without some closed segments. *)
Definition pruned_logs (M' M : gmap tpart plog) : Prop :=
  forall tp, option_Forall2 pruned (M' !! tp) (M !! tp).

#[global] Instance pruned_logs_preorder : PreOrder pruned_logs.
Proof.
  split; [intros M tp; by destruct (M !! tp); constructor|]. intros M1 M2 M3 H1 H2 tp.
  specialize (H1 tp). specialize (H2 tp). destruct H1; inversion H2; subst; constructor. by etrans.
Qed.

Lemma sweep_partition_spec tp bs o M :
  broker_ok bs o M ->
  exists o' M', sweep_partition tp (bs, o) = (bs, o') /\ broker_ok bs o' M' /\ pruned_logs M' M.
Proof.
  intros Hbk. unfold sweep_partition. cbn [fst].
  destruct (bs_stores bs !! partitionKey (tp_Topic tp) (tp_Partition tp)) as [ps|] eqn:E;
    [|by exists o, M].
  destruct (broker_keys bs o M _ Hbk (mk_is_Some _ _ E)) as (t & p & Hn & Ek & [L HM]).
  rewrite Ek in *. pose proof (bk_parts _ _ _ Hbk t p Hn) as Hme. rewrite E, HM in Hme.
  destruct Hme as (Hdir & Hcfg & Hok). unfold on_partition. rewrite E.
  destruct (CleanOldSegments (sc_Retention (bs_cfg bs)) (ps, o)) as [r [ps' o']] eqn:EC.
  apply CleanOldSegments_effect in EC as (-> & D & _). cbn [snd].
  rewrite insert_id by done. exists o', (<[(t, p) := remaining (ps_dir ps) o' L]> M).
  split_and!; [by destruct bs| |].
  - destruct (active_not_deletable ps (sc_Retention (bs_cfg bs)) o) as [N1 N2].
    { unfold Segment_BaseOffset. rewrite (proj1 (po_base _ _ _ Hok)). apply (po_files _ _ _ Hok). }
    unfold Segment_BaseOffset in N1, N2. rewrite (proj1 (po_base _ _ _ Hok)) in N1, N2.
    eapply broker_deletes; [apply (bk_root _ _ _ Hbk)|done|exact D| |done..].
    intros q Hq. apply deletable_path in Hq. by rewrite <- Hdir.
  - intros tp'. destruct (decide (tp' = (t, p))) as [->|Hne].
    + rewrite lookup_insert_eq, HM. constructor. apply remaining_pruned.
    + rewrite lookup_insert_ne by done. by destruct (M !! tp'); constructor.
Qed.

Section tick.
Context `{MapOrder}.

(** A tick of the log cleaner keeps the broker intact: the stores are
    unchanged, every partition keeps its active segment and its base offset,
    and the only records that are gone are those of closed segments. *)
Theorem sweep_preserves_broker bs o M :
  broker_ok bs o M ->
  exists o' M', runLogCleaner_tick (bs, o) = (bs, o') /\ broker_ok bs o' M' /\ pruned_logs M' M.
Proof.
  intros Hbk. unfold runLogCleaner_tick. cbn [fst]. generalize (Topics bs) as tps. intros tps.
  revert o M Hbk. induction tps as [|tp tps IH]; intros o M Hbk; [by exists o, M|].
  destruct (sweep_partition_spec tp bs o M Hbk) as (o1 & M1 & E & Hbk1 & P1). cbn [fold_left]. rewrite E.
  destruct (IH o1 M1 Hbk1) as (o2 & M2 & -> & Hbk2 & P2). exists o2, M2. split_and!; [done|done|by etrans].
Qed.
End tick.

Lemma sweep_preserves_broker_witness :
  exists o' M', runLogCleaner_tick (H := insertion_order) (sample_topics.1, sample_topics.2) =
      (sample_topics.1, o') /\
    broker_ok sample_topics.1 o' M' /\ pruned_logs M' sample_topics_logs.
Proof.
  apply (sweep_preserves_broker (H := insertion_order) sample_topics.1 sample_topics.2 sample_topics_logs
           sample_topics_ok).
Defined.
