(* ===== verification/Metrics.v ===== *)
(** * Metrics ([internal/metrics/metrics.go])

    The Prometheus client is not part of the repository: a metric vector and
    its two operations are parameters, and what the code relies on is the
    documented contract of the client library. The HTTP endpoint that exposes
    the registry is in [MetricsServer]. *)

From stdpp Require Import base tactics list numbers gmap strings.
From Stdlib Require Import ZArith Lia.
From S2P Require Import Prelude GoIO GoStrings OSFile.
#[local] Open Scope Z_scope.

(** ** The client library *)

(** [counter_Add] is [v.WithLabelValues(label).Add(n)], [histogram_Observe] is
    [v.WithLabelValues(label).Observe(d)] with the duration in nanoseconds. *)
Class Prometheus := {
  vec : Type;
  new_vec : vec;
  counter_Add : gostring -> Z -> st vec unit;
  histogram_Observe : gostring -> Z -> st vec unit }.

(** The documented contract: labels that are not valid text are refused, a
    counter cannot decrease, nothing else fails. *)
Class PrometheusOk `{Prometheus} := {
  label_ok : gostring -> Prop;
  counter_Add_ok l n v : label_ok l -> 0 <= n -> (counter_Add l n v).1 = Ok tt;
  counter_Add_negative l n v : n < 0 -> exists p, (counter_Add l n v).1 = Panic p;
  histogram_Observe_ok l d v : label_ok l -> (histogram_Observe l d v).1 = Ok tt }.

(** A counter per label. *)
#[export] Instance counters : Prometheus := {|
  vec := gmap gostring Z;
  new_vec := ∅;
  counter_Add l n v :=
    if n <? 0 then (Panic CounterDecrease, v) else (Ok tt, <[l := default 0 (v !! l) + n]> v);
  histogram_Observe l d v := (Ok tt, <[l := default 0 (v !! l) + 1]> v) |}.

#[export] Program Instance counters_ok : PrometheusOk := {| label_ok _ := True |}.
Next Obligation. intros l n v _ Hn. simpl. by rewrite (proj2 (Z.ltb_ge _ _)) by lia. Qed.
Next Obligation. intros l n v Hn. simpl. rewrite (proj2 (Z.ltb_lt _ _)) by lia. by eexists. Qed.
Next Obligation. done. Qed.

(** ** The broker's metrics *)

Section metrics.
Context `{Prometheus}.

Record Metrics := MkMetrics {
  MessagesProducedTotal : vec;
  MessagesFetchedTotal : vec;
  DiskWriteLatency : vec }.

Definition New : Metrics := MkMetrics new_vec new_vec new_vec.

Definition set_produced (v : vec) (m : Metrics) : Metrics :=
  MkMetrics v (MessagesFetchedTotal m) (DiskWriteLatency m).
Definition set_fetched (v : vec) (m : Metrics) : Metrics :=
  MkMetrics (MessagesProducedTotal m) v (DiskWriteLatency m).
Definition set_latency (v : vec) (m : Metrics) : Metrics :=
  MkMetrics (MessagesProducedTotal m) (MessagesFetchedTotal m) v.

(** A call on one metric. *)
Definition on_metric {A} (get : Metrics -> vec) (put : vec -> Metrics -> Metrics) (op : st vec A)
  : st Metrics A := fun m => let '(r, v) := op (get m) in (r, put v m).

Definition produced_Add (topic : gostring) (n : Z) : st Metrics unit :=
  on_metric MessagesProducedTotal set_produced (counter_Add topic n).

Definition fetched_Inc (topic : gostring) : st Metrics unit :=
  on_metric MessagesFetchedTotal set_fetched (counter_Add topic 1).

(** [time.Since(start)] is taken when the call is made. *)
Definition ObserveDiskWrite (topic : gostring) (start now : Z) : st Metrics unit :=
  on_metric DiskWriteLatency set_latency (histogram_Observe topic (now - start)).
End metrics.

(** The conventional metrics address: the port after the broker's, at the width
    of [int]. *)
Definition MetricsAddr (brokerPort : Z) : gostring :=
  gos "0.0.0.0:" ++ fmt_d (i64 (brokerPort + 1)).
