(* ===== verification/Handler.v ===== *)
(** * The request handler ([internal/server/handler.go])

    The handler of a connection: it parses requests, makes the calls on the
    broker store that they ask for, and writes the responses. The state is the
    handler (the broker store, the cache of committed offsets and the metrics),
    the connection and the operating system; logging is left out. The handlers
    run here one after the other; their only shared state beyond the locked
    broker store is the cache, see [Commits] for its interleavings. *)

From stdpp Require Import base tactics list numbers gmap strings.
From Stdlib Require Import ZArith Lia.
From S2P Require Import Prelude GoIO GoStrings Wire Requests Responses RecordBatch OSFile.
From S2P Require Import LogIndex LogSegment LogStore OffsetRecords FetchPatch BrokerStore Metrics.
#[local] Open Scope Z_scope.

(** ** State *)

Section handler.
Context `{Prometheus} `{MapOrder}.

(** [os.Getenv] *)
Context (Getenv : gostring -> gostring).

Record Handler := MkHandler {
  h_offsetCache : gmap offsetCacheKey Z;
  h_store : BrokerStore;
  h_metrics : Metrics }.

Definition NewHandler (store : BrokerStore) (m : Metrics) : Handler := MkHandler ∅ store m.

Definition set_offsetCache (c : gmap offsetCacheKey Z) (h : Handler) : Handler :=
  MkHandler c (h_store h) (h_metrics h).
Definition set_store (s : BrokerStore) (h : Handler) : Handler :=
  MkHandler (h_offsetCache h) s (h_metrics h).
Definition set_metrics (m : Metrics) (h : Handler) : Handler :=
  MkHandler (h_offsetCache h) (h_store h) m.

Definition on_store {A} (m : stio BrokerStore A) : stio Handler A := zoom h_store set_store m.

Definition on_metrics {A} (m : Z -> st Metrics A) : stio Handler A := fun '(h, o) =>
  let '(r, mt) := m (os_now o) (h_metrics h) in (r, (set_metrics mt h, o)).

(** [time.Now()] *)
Definition Now : stio Handler Z := fun '(h, o) => (Ok (os_now o), (h, o)).

(** ** Produce *)

Definition produce_partition (topicName : gostring) (part : ProducePartitionData)
  : stio Handler ProducePartitionResponse :=
  let partResp := Build_ProducePartitionResponse in
  let batch := ppd_RecordBatch part in
  v ← try_st (lift_result (if 0 <? zlen batch then ValidateRecordBatch batch else Ok 0));
  match v with
  | inr _ => mret (partResp (-1) (ppd_Partition part) ErrCodeCorruptMessage)
  | inl recordCount =>
      ps ← try_st (on_store (GetOrCreatePartition topicName (ppd_Partition part)));
      match ps with
      | inr _ => mret (partResp (-1) (ppd_Partition part) 1)
      | inl ps =>
          start ← Now;
          offset ← try_st (on_store (on_partition ps (PartitionStore_Append batch)));
          _ ← on_metrics (ObserveDiskWrite topicName start);
          match offset with
          | inr _ => mret (partResp (-1) (ppd_Partition part) 1)
          | inl offset =>
              _ ← on_metrics (fun _ => produced_Add topicName recordCount);
              mret (partResp (i64 offset) (ppd_Partition part) 0)
          end
      end
  end.

Definition produce_topic (topic : ProduceTopicData) : stio Handler ProduceTopicResponse :=
  partitions ← mapM (produce_partition (ptd_TopicName topic)) (ptd_Partitions topic);
  mret {| ptr_TopicName := ptd_TopicName topic; ptr_Partitions := partitions |}.

Definition produce (req : ProduceRequest) : stio Handler ProduceResponse :=
  topics ← mapM produce_topic (pr_Topics req);
  mret {| prs_Topics := topics |}.

(** ** Fetch *)

Definition fetch_partition (topicName : gostring) (part : FetchPartitionData) (remaining : Z)
  : stio Handler (FetchPartitionResponse * Z) :=
  let partResp hw code :=
    {| fpr_RecordBatch := None; fpr_HighWatermark := hw; fpr_BatchSize := -1;
       fpr_Partition := fpd_Partition part; fpr_ErrorCode := code |} in
  ps ← try_st (on_store (GetOrCreatePartition topicName (fpd_Partition part)));
  match ps with
  | inr _ => mret (partResp 0 ErrCodeOffsetOutOfRange, remaining)
  | inl ps =>
      hw ← on_store (on_partition ps (get_st PartitionStore_Size));
      if fpd_FetchOffset part =? hw then mret (partResp hw ErrCodeNone, remaining)
      else if hw <? fpd_FetchOffset part then mret (partResp hw ErrCodeOffsetOutOfRange, remaining)
      else
        let cap := fpd_PartitionMaxBytes part in
        let cap := if remaining <? cap then remaining else cap in
        if cap <=? 0 then mret (partResp hw ErrCodeNone, remaining)
        else
          r ← try_st (on_store (on_partition ps
                (PartitionStore_Read (u64 (fpd_FetchOffset part)) (i32 (cap + recHdr)))));
          match r with
          | inr _ => mret (partResp hw ErrCodeOffsetOutOfRange, remaining)
          | inl (w, n) =>
              if n <? 0 then spanic MakeSliceCap
              else
                r ← on_os (section_reader w);
                match (ReadFull n r).1 with
                | Ok raw =>
                    if zlen raw <? recHdr then
                      mret (partResp hw ErrCodeOffsetOutOfRange, remaining)
                    else
                      let payload := patch_payload (fpd_FetchOffset part) (drop (Z.to_nat recHdr) raw) in
                      let payloadLen := i32 (zlen payload) in
                      let remaining := i32 (remaining - payloadLen) in
                      _ ← on_metrics (fun _ => fetched_Inc topicName);
                      mret ({| fpr_RecordBatch := Some (Rd payload EOF); fpr_HighWatermark := hw;
                               fpr_BatchSize := payloadLen; fpr_Partition := fpd_Partition part;
                               fpr_ErrorCode := ErrCodeNone |}, remaining)
                | _ => mret (partResp hw ErrCodeOffsetOutOfRange, remaining)
                end
          end
  end.

(** The loops thread the byte budget of the request. *)
Fixpoint fetch_partitions (topicName : gostring) (parts : list FetchPartitionData) (remaining : Z)
  : stio Handler (list FetchPartitionResponse * Z) :=
  match parts with
  | [] => mret ([], remaining)
  | part :: parts =>
      x ← fetch_partition topicName part remaining;
      let '(p, remaining) := (x : FetchPartitionResponse * Z) in
      y ← fetch_partitions topicName parts remaining;
      let '(ps, remaining) := (y : list FetchPartitionResponse * Z) in
      mret (p :: ps, remaining)
  end.

Fixpoint fetch_topics (topics : list FetchTopicData) (remaining : Z)
  : stio Handler (list FetchTopicResponse * Z) :=
  match topics with
  | [] => mret ([], remaining)
  | topic :: topics =>
      x ← fetch_partitions (ftd_TopicName topic) (ftd_Partitions topic) remaining;
      let '(ps, remaining) := (x : list FetchPartitionResponse * Z) in
      y ← fetch_topics topics remaining;
      let '(ts, remaining) := (y : list FetchTopicResponse * Z) in
      mret ({| ftr_TopicName := ftd_TopicName topic; ftr_Partitions := ps |} :: ts, remaining)
  end.

Definition fetch (req : FetchRequest) : stio Handler FetchResponse :=
  x ← fetch_topics (fr_Topics req) (fr_MaxBytes req);
  let '(topics, _) := (x : list FetchTopicResponse * Z) in
  mret {| frs_Topics := topics; frs_ThrottleTimeMs := 0 |}.

(** ** Metadata *)

Definition group_by_topic (tps : list TopicPartition) : gmap gostring (list Z) :=
  fold_left (fun byTopic tp =>
    <[tp_Topic tp := default [] (byTopic !! tp_Topic tp) ++ [tp_Partition tp]]> byTopic) tps ∅.

Definition topic_metadata (topicName : gostring) (partitions : list Z) : TopicMetadata :=
  {| tm_ErrorCode := 0; tm_Name := topicName; tm_IsInternal := false;
     tm_Partitions := (fun pid =>
       {| pm_ErrorCode := 0; pm_Partition := pid; pm_Leader := 1;
          pm_Replicas := [1]; pm_Isr := [1]; pm_OfflineReplicas := [] |}) <$> partitions |}.

Definition advertisedHost : gostring :=
  let host := Getenv (gos "KAGE_ADVERTISED_HOST") in
  if decide (host = []) then gos "127.0.0.1" else host.

Definition metadata (req : MetadataRequest) : stio Handler MetadataResponse :=
  _ ← range_st (fun t => _ ← try_st (on_store (GetOrCreatePartition t 0)); mret tt) (mr_Topics req);
  tps ← get_st (fun h => Topics (h_store h));
  let byTopic := group_by_topic tps in
  let topicMeta := (fun '(topicName, partitions) => topic_metadata topicName partitions)
                     <$> map_range byTopic in
  mret {| mrs_Brokers := [{| br_NodeID := 1; br_Host := advertisedHost; br_Port := 9092;
                             br_Rack := None |}];
          mrs_ClusterID := None; mrs_ControllerID := 1; mrs_Topics := topicMeta |}.

(** ** Committed offsets *)

(** The record is appended first; only then the cache is updated. *)
Definition commit_partition (groupID topicName : gostring) (part : OffsetCommitPartition)
  : stio Handler OffsetCommitPartitionResponse :=
  let partResp code := {| ocpr_Partition := ocp_Partition part; ocpr_ErrorCode := code |} in
  let cacheKey := MkOffsetCacheKey groupID topicName (ocp_Partition part) in
  let record := offset_record cacheKey (ocp_CommittedOffset part) in
  ps ← try_st (on_store (GetOrCreatePartition ConsumerOffsetsTopic 0));
  match ps with
  | inr _ => mret (partResp 1)
  | inl ps =>
      r ← try_st (on_store (on_partition ps (PartitionStore_Append record)));
      match r with
      | inr _ => mret (partResp 1)
      | inl _ =>
          _ ← put_st (fun h => set_offsetCache (<[cacheKey := ocp_CommittedOffset part]> (h_offsetCache h)) h);
          mret (partResp 0)
      end
  end.

Definition commit_topic (groupID : gostring) (topic : OffsetCommitTopic)
  : stio Handler OffsetCommitTopicResponse :=
  partitions ← mapM (commit_partition groupID (oct_TopicName topic)) (oct_Partitions topic);
  mret {| octr_TopicName := oct_TopicName topic; octr_Partitions := partitions |}.

Definition offset_commit (req : OffsetCommitRequest) : stio Handler OffsetCommitResponse :=
  topics ← mapM (commit_topic (oc_GroupID req)) (oc_Topics req);
  mret {| ocr_Topics := topics |}.

(** Offsets are served from the cache. *)
Definition offset_fetch (req : OffsetFetchRequest) (cache : gmap offsetCacheKey Z)
  : OffsetFetchResponse :=
  {| ofr_Topics := (fun topic =>
       {| oftr_TopicName := oft_TopicName topic;
          oftr_Partitions := (fun part =>
            {| ofpr_Partition := ofp_Partition part;
               ofpr_CommittedOffset :=
                 default OffsetUnknown
                   (cache !! MkOffsetCacheKey (of_GroupID req) (oft_TopicName topic) (ofp_Partition part));
               ofpr_CommittedMetadata := [];
               ofpr_ErrorCode := 0 |}) <$> oft_Partitions topic |}) <$> of_Topics req |}.

(** The loop of [LoadOffsetsCache]; every round reads at least four bytes, so
    the length of the data bounds the number of rounds. The cache keeps what
    was loaded before an error. *)
Fixpoint load_offsets (fuel : nat) (r : reader) (cache : gmap offsetCacheKey Z)
  : result unit * gmap offsetCacheKey Z :=
  match fuel with
  | O => (Ok tt, cache)
  | S k =>
      match ReadFull 4 r with
      | (Ok lenBuf, r) =>
          match ReadFull (be_get lenBuf) r with
          | (Ok rec, r) =>
              match decodeOffsetRecord rec with
              | Ok (cacheKey, offset) => load_offsets k r (<[cacheKey := offset]> cache)
              | Err _ => load_offsets k r cache
              | Panic p => (Panic p, cache)
              end
          | (Err e, _) => (Err (Wrapf "LoadOffsetsCache: read record body: %w" [] e), cache)
          | (Panic p, _) => (Panic p, cache)
          end
      | (Err e, _) =>
          if errors_is e EOF || errors_is e ErrUnexpectedEOF then (Ok tt, cache)
          else (Err (Wrapf "LoadOffsetsCache: read record length: %w" [] e), cache)
      | (Panic p, _) => (Panic p, cache)
      end
  end.

Definition load_cache (r : reader) : stio Handler unit := fun '(h, o) =>
  let '(res, cache) := load_offsets (S (length (rd_data r))) r (h_offsetCache h) in
  (res, (set_offsetCache cache h, o)).

Definition LoadOffsetsCache : stio Handler unit :=
  ps ← wrapf "LoadOffsetsCache: open partition: %w" []
         (on_store (GetOrCreatePartition ConsumerOffsetsTopic 0));
  size ← on_store (on_partition ps (get_st PartitionStore_Size));
  if size =? 0 then mret tt
  else
    let maxBytes := if 2 ^ 31 - 1 <? size then 2 ^ 31 - 1 else i32 size in
    x ← wrapf "LoadOffsetsCache: read partition: %w" []
          (on_store (on_partition ps (PartitionStore_Read 0 maxBytes)));
    r ← on_os (section_reader x.1);
    load_cache r.

(** ** ListOffsets *)

Definition list_offsets_partition (topicName : gostring) (part : ListOffsetsPartitionRequest)
  : stio Handler ListOffsetsPartitionResponse :=
  let partResp code offset :=
    {| lopr_Partition := lop_Partition part; lopr_ErrorCode := code; lopr_Timestamp := -1;
       lopr_Offset := offset |} in
  if lop_Timestamp part =? TimestampEarliest then mret (partResp 0 0)
  else if lop_Timestamp part =? TimestampLatest then
    ps ← try_st (on_store (GetOrCreatePartition topicName (lop_Partition part)));
    match ps with
    | inr _ => mret (partResp ErrCodeUnknownTopicOrPartition 0)
    | inl ps =>
        size ← on_store (on_partition ps (get_st PartitionStore_Size));
        mret (partResp 0 size)
    end
  else mret (partResp 0 0).

Definition list_offsets_topic (topic : ListOffsetsTopicRequest) : stio Handler ListOffsetsTopicResponse :=
  partitions ← mapM (list_offsets_partition (lot_TopicName topic)) (lot_Partitions topic);
  mret {| lotr_TopicName := lot_TopicName topic; lotr_Partitions := partitions |}.

Definition list_offsets (req : ListOffsetsRequest) : stio Handler ListOffsetsResponse :=
  topics ← mapM list_offsets_topic (lo_Topics req);
  mret {| lor_Topics := topics |}.

(** ** Connections *)

(** A connection and the handler it shares with the others. *)
Abbreviation session := (Handler * conn)%type.

Definition on_handler {A} (m : stio Handler A) : stio session A := fun '((h, c), o) =>
  let '(r, (h, o)) := m (h, o) in (r, ((h, c), o)).

Definition on_conn {A} (m : st conn A) : stio session A := fun '((h, c), o) =>
  let '(r, c) := m c in (r, ((h, c), o)).

(** A parser of the decoder, which reads from the connection. *)
Definition parse {A} (d : decoder A) : stio session A :=
  on_conn (fun c => let '(r, rd) := d (c_in c) in (r, Conn rd (c_out c) (c_cap c))).

(** [conn.Write(enc.FullMessage())] *)
Definition send (e : Encoder -> Encoder) : stio session unit :=
  on_conn (conn_Write (FullMessage (e NewEncoder))).

(** ** The handlers *)

Definition handleApiVersions (header : RequestHeader) : stio session unit :=
  wrapf "handleApiVersions: write response: %w" []
    (send (EncodeApiVersionsResponse (rh_CorrelationID header))).

Definition handleProduce (header : RequestHeader) : stio session unit :=
  req ← wrapf "handleProduce: parse: %w" [] (parse (ParseProduceRequest header));
  resp ← on_handler (produce req);
  if pr_Acks req =? AcksNone then mret tt
  else wrapf "handleProduce: write response: %w" []
         (send (EncodeProduceResponse (rh_CorrelationID header) resp)).

Definition handleFetch (header : RequestHeader) : stio session unit :=
  req ← wrapf "handleFetch: parse: %w" [] (parse (ParseFetchRequest header));
  resp ← on_handler (fetch req);
  wrapf "handleFetch: write response: %w" []
    (on_conn (WriteFetchResponse (rh_CorrelationID header) resp)).

Definition handleMetadata (header : RequestHeader) : stio session unit :=
  req ← wrapf "handleMetadata: %w" [] (parse (ParseMetadataRequest header));
  resp ← on_handler (metadata req);
  wrapf "handleMetadata: failed to write response: %w" []
    (send (EncodeMetadataResponse (rh_CorrelationID header) (rh_ApiVersion header) resp)).

Definition handleOffsetCommit (header : RequestHeader) : stio session unit :=
  req ← wrapf "handleOffsetCommit: parse: %w" [] (parse (ParseOffsetCommitRequest header));
  resp ← on_handler (offset_commit req);
  wrapf "handleOffsetCommit: write response: %w" []
    (send (EncodeOffsetCommitResponse (rh_CorrelationID header) resp)).

Definition handleOffsetFetch (header : RequestHeader) : stio session unit :=
  req ← wrapf "handleOffsetFetch: parse: %w" [] (parse (ParseOffsetFetchRequest header));
  cache ← get_st (fun s => h_offsetCache s.1);
  wrapf "handleOffsetFetch: write response: %w" []
    (send (EncodeOffsetFetchResponse (rh_CorrelationID header) (offset_fetch req cache))).

Definition handleListOffsets (header : RequestHeader) : stio session unit :=
  req ← wrapf "handleListOffsets: parse: %w" [] (parse (ParseListOffsetsRequest header));
  resp ← on_handler (list_offsets req);
  wrapf "handleListOffsets: write response: %w" []
    (send (EncodeListOffsetsResponse (rh_CorrelationID header) resp)).

Definition dummyMemberID : gostring := gos "kage-member-1".

Definition handleFindCoordinator (header : RequestHeader) : stio session unit :=
  _ ← wrapf "handleFindCoordinator: parse: %w" [] (parse (ParseFindCoordinatorRequest header));
  wrapf "handleFindCoordinator: write response: %w" []
    (send (EncodeFindCoordinatorResponse (rh_CorrelationID header) 1 advertisedHost 9092)).

Definition join_group_response (correlationID : Z) (req : JoinGroupRequest) : Encoder -> Encoder :=
  let '(protocolName, leaderMetadata) :=
    match jg_Protocols req with
    | [] => ([], [])
    | p :: _ => (jgp_Name p, jgp_Metadata p)
    end in
  let members := [{| jgm_MemberID := dummyMemberID; jgm_Metadata := leaderMetadata |}] in
  EncodeJoinGroupResponse correlationID 1 protocolName dummyMemberID dummyMemberID members.

Definition handleJoinGroup (header : RequestHeader) : stio session unit :=
  req ← wrapf "handleJoinGroup: parse: %w" [] (parse (ParseJoinGroupRequest header));
  wrapf "handleJoinGroup: write response: %w" []
    (send (join_group_response (rh_CorrelationID header) req)).

Definition handleHeartbeat (header : RequestHeader) : stio session unit :=
  _ ← wrapf "handleHeartbeat: parse: %w" [] (parse (ParseHeartbeatRequest header));
  wrapf "handleHeartbeat: write response: %w" []
    (send (EncodeHeartbeatResponse (rh_CorrelationID header))).

Definition handleLeaveGroup (header : RequestHeader) : stio session unit :=
  _ ← wrapf "handleLeaveGroup: parse: %w" [] (parse (ParseLeaveGroupRequest header));
  wrapf "handleLeaveGroup: write response: %w" []
    (send (EncodeLeaveGroupResponse (rh_CorrelationID header))).

(** The first assignment for the dummy member. *)
Fixpoint find_assignment (assignments : list SyncGroupAssignment) : list byte :=
  match assignments with
  | [] => []
  | a :: assignments =>
      if decide (sga_MemberID a = dummyMemberID) then sga_Assignment a
      else find_assignment assignments
  end.

Definition handleSyncGroup (header : RequestHeader) : stio session unit :=
  req ← wrapf "handleSyncGroup: parse: %w" [] (parse (ParseSyncGroupRequest header));
  wrapf "handleSyncGroup: write response: %w" []
    (send (EncodeSyncGroupResponse (rh_CorrelationID header) (find_assignment (sg_Assignments req)))).

Definition dispatch (header : RequestHeader) : stio session unit :=
  let k := rh_ApiKey header in
  if k =? ApiKeyProduce then handleProduce header
  else if k =? ApiKeyFetch then handleFetch header
  else if k =? ApiKeyListOffsets then handleListOffsets header
  else if k =? ApiKeyMetadata then handleMetadata header
  else if k =? ApiKeyOffsetCommit then handleOffsetCommit header
  else if k =? ApiKeyOffsetFetch then handleOffsetFetch header
  else if k =? ApiKeyFindCoordinator then handleFindCoordinator header
  else if k =? ApiKeyJoinGroup then handleJoinGroup header
  else if k =? ApiKeyHeartbeat then handleHeartbeat header
  else if k =? ApiKeyLeaveGroup then handleLeaveGroup header
  else if k =? ApiKeySyncGroup then handleSyncGroup header
  else if k =? ApiKeyApiVersions then handleApiVersions header
  else sfail (Errorf "unsupported api_key: %d" [DInt k]).

(** The loop of [Handle]: requests until one cannot be read or handled, and
    what stopped it. Every round consumes the bytes of a request header. *)
Fixpoint serve (fuel : nat) : stio session goerr :=
  match fuel with
  | O => sfail EOF
  | S k => fun x =>
      match parse ParseRequestHeader x with
      | (Ok header, x) =>
          match dispatch header x with
          | (Ok _, x) => serve k x
          | (Err e, x) => (Ok e, x)
          | (Panic p, x) => (Panic p, x)
          end
      | (Err e, x) => (Ok e, x)
      | (Panic p, x) => (Panic p, x)
      end
  end.

(** [Handle] closes the connection when it leaves the loop, also by a panic. *)
Definition Handle : stio session goerr := fun x =>
  let '(r, ((h, c), o)) := serve (S (length (rd_data (c_in x.1.2)))) x in
  (r, ((h, conn_Close c), o)).
End handler.
