(* ===== verification/ConnSpec.v ===== *)
(** * Connections: from bytes to requests and back

    [Handle] works on a stream of bytes. This file shows that on a connection
    whose peer sends requests in the documented layout it is a server of
    requests: each request is answered in turn, from the handler's state at
    that point, with exactly one frame (none for a produce request that asks
    for no acknowledgement); and that the loop ends whatever the peer sends. *)

From stdpp Require Import base tactics list numbers gmap strings.
From Stdlib Require Import ZArith Lia.
From S2P Require Import Prelude GoIO GoStrings Wire Requests RequestSpec Responses ResponseSpec.
From S2P Require Import RecordBatch OSFile LogIndex LogSegment LogStore OffsetRecords FetchPatch.
From S2P Require Import BrokerStore Metrics Handler.
#[local] Open Scope Z_scope.

Create HintDb shrinking.

Section conn_spec.
Context `{Prometheus} `{MapOrder} (Getenv : gostring -> gostring).

Abbreviation session := (Handler * conn)%type.

(** ** The server of requests *)

Definition frame_of (c : Z) (s : Response) : list byte := FullMessage (encode_response c s NewEncoder).

Definition fetch_frame (c : Z) (r : FetchResponse) : list byte :=
  fetch_size_prefix (fetch_total_payload r) ++ lay_fetch c r.

(** The response to a request as a value. *)
Definition group_response (q : Request) : Response :=
  match q with
  | RJoinGroup q =>
      match jg_Protocols q with
      | [] => SJoinGroup 1 [] dummyMemberID dummyMemberID
                [{| jgm_MemberID := dummyMemberID; jgm_Metadata := [] |}]
      | p :: _ => SJoinGroup 1 (jgp_Name p) dummyMemberID dummyMemberID
                    [{| jgm_MemberID := dummyMemberID; jgm_Metadata := jgp_Metadata p |}]
      end
  | RHeartbeat _ => SHeartbeat
  | RLeaveGroup _ => SLeaveGroup
  | RSyncGroup q => SSyncGroup (find_assignment (sg_Assignments q))
  | RFindCoordinator _ => SFindCoordinator 1 (advertisedHost Getenv) 9092
  | _ => SApiVersions
  end.

(** What the handler sends for a request. *)
Definition reply (h : RequestHeader) (q : Request) : stio Handler (list byte) :=
  let c := rh_CorrelationID h in
  match q with
  | RProduce q =>
      resp ← produce q;
      mret (if pr_Acks q =? AcksNone then [] else frame_of c (SProduce resp))
  | RFetch q => resp ← fetch q; mret (fetch_frame c resp)
  | RListOffsets q => resp ← list_offsets q; mret (frame_of c (SListOffsets resp))
  | RMetadata q => resp ← metadata Getenv q; mret (frame_of c (SMetadata (rh_ApiVersion h) resp))
  | ROffsetCommit q => resp ← offset_commit q; mret (frame_of c (SOffsetCommit resp))
  | ROffsetFetch q =>
      cache ← get_st h_offsetCache;
      mret (frame_of c (SOffsetFetch (offset_fetch q cache)))
  | q => mret (frame_of c (group_response q))
  end.

(** ** Fetch responses are consistent *)

Lemma PartitionStore_Read_width off m x w n x' :
  PartitionStore_Read off m x = (Ok (w, n), x') -> sfits 32 m -> sfits 32 n.
Proof.
  destruct x as [ps o]. unfold PartitionStore_Read, mbind, st_bind, get_st.
  destruct (_ <=? _); [done|]. cbv zeta.
  destruct (on_active _ _) as [[r|e|p] ?]; intros [= <- <- <-] Hm.
  destruct (_ <? m); [apply swrap_fits; lia|done].
Qed.

Lemma ReadFull_length n r raw r' : ReadFull n r = (Ok raw, r') -> zlen raw = Z.max 0 n.
Proof.
  unfold ReadFull. destruct (Z.leb_spec n (zlen (rd_data r))); [|done]. intros [= <- <-].
  pose proof (zlen_nonneg (rd_data r)). unfold zlen in *. rewrite length_take. lia.
Qed.

Lemma fetch_partition_consistent topic part rem x p rem' x' :
  fetch_partition topic part rem x = (Ok (p, rem'), x') -> consistent_partition p.
Proof.
  destruct x as [h o]. unfold fetch_partition, mbind, st_bind, mret, st_ret.
  assert (Hno : forall hw code, consistent_partition
    {| fpr_RecordBatch := None; fpr_HighWatermark := hw; fpr_BatchSize := -1;
       fpr_Partition := fpd_Partition part; fpr_ErrorCode := code |})
    by (intros hw code; unfold consistent_partition; simpl; lia).
  destruct (try_st _ _) as [[[ps|e]|e|pp] x1]; try (by intros [= <- <- <-]).
  destruct (on_store _ _) as [[hw|e|pp] x2]; try done.
  destruct (_ =? hw); [by intros [= <- <- <-]|]. destruct (hw <? _); [by intros [= <- <- <-]|].
  cbv zeta. set (cap := if rem <? _ then _ else _). destruct (cap <=? 0); [by intros [= <- <- <-]|].
  destruct (try_st (on_store (on_partition ps (PartitionStore_Read _ _))) x2)
    as [[[[w n]|e]|e|pp] x3] eqn:Er; try done; try (by intros [= <- <- <-]).
  assert (Hn : sfits 32 n).
  { unfold try_st, on_store, zoom, on_partition in Er. destruct x2 as [h2 o2].
    destruct (bs_stores (h_store h2) !! ps) as [st|]; [|done].
    destruct (PartitionStore_Read _ _ (st, o2)) as [[[w' n']|e|pp] [st' o']] eqn:Ep; try done.
    injection Er as -> -> _. eapply PartitionStore_Read_width; [done|]. apply swrap_fits. lia. }
  destruct (Z.ltb_spec n 0); [done|].
  destruct (on_os _ x3) as [[r|e|pp] x4]; try done.
  destruct (ReadFull n r) as [[raw|e|pp] r'] eqn:Ef; simpl; try (by intros [= <- <- <-]).
  apply ReadFull_length in Ef. unfold recHdr. destruct (Z.ltb_spec (zlen raw) 4); [by intros [= <- <- <-]|].
  destruct (on_metrics _ x4) as [[[]|e|pp] x5]; try done. intros [= <- <- <-].
  intros _. simpl. eexists. split; [done|]. unfold patch_payload.
  rewrite zlen_patch_loop by lia. rewrite zlen_drop by lia.
  unfold i32. rewrite swrap_id; [done|lia|]. fits.
Qed.

Lemma fetch_partitions_consistent topic parts rem x ps rem' x' :
  fetch_partitions topic parts rem x = (Ok (ps, rem'), x') -> Forall consistent_partition ps.
Proof.
  revert rem x ps rem' x'. induction parts as [|part parts IH]; intros rem x ps rem' x'; simpl.
  - intros [= <- <- <-]. constructor.
  - unfold mbind, st_bind. destruct (fetch_partition _ _ _ _) as [[[p r1]|e|pp] x1] eqn:E1; try done.
    destruct (fetch_partitions _ _ _ _) as [[[ps' r2]|e|pp] x2] eqn:E2; try done.
    intros [= <- <- <-]. constructor; [by eapply fetch_partition_consistent|by eapply IH].
Qed.

Lemma fetch_topics_consistent topics rem x ts rem' x' :
  fetch_topics topics rem x = (Ok (ts, rem'), x') ->
  Forall (fun t => Forall consistent_partition (ftr_Partitions t)) ts.
Proof.
  revert rem x ts rem' x'. induction topics as [|topic topics IH]; intros rem x ts rem' x'; simpl.
  - intros [= <- <- <-]. constructor.
  - unfold mbind, st_bind. destruct (fetch_partitions _ _ _ _) as [[[p r1]|e|pp] x1] eqn:E1; try done.
    destruct (fetch_topics _ _ _) as [[[ps' r2]|e|pp] x2] eqn:E2; try done.
    intros [= <- <- <-]. constructor; [by eapply fetch_partitions_consistent|by eapply IH].
Qed.

Lemma fetch_consistent q x resp x' : fetch q x = (Ok resp, x') -> consistent resp.
Proof.
  unfold fetch, mbind, st_bind. destruct (fetch_topics _ _ _) as [[[ts r]|e|pp] x1] eqn:E; [|done..].
  intros [= <- <-]. by eapply fetch_topics_consistent.
Qed.

(** ** One request *)

(** A connection to a peer that reads everything. *)
Abbreviation peer d e out := (Conn (Rd d e) out None).

(** Sending a computed answer. *)
Definition answer (m : stio Handler (list byte)) : stio session unit :=
  p ← on_handler m; on_conn (conn_Write p).

Lemma answer_peer (m : stio Handler (list byte)) h d e out o :
  answer m ((h, peer d e out), o) =
  match m (h, o) with
  | (Ok p, (h', o')) => (Ok tt, ((h', peer d e (out ++ p)), o'))
  | (Err err, (h', o')) => (Err err, ((h', peer d e out), o'))
  | (Panic p, (h', o')) => (Panic p, ((h', peer d e out), o'))
  end.
Proof.
  unfold answer, on_handler, on_conn, mbind, st_bind. by destruct (m (h, o)) as [[] []].
Qed.

Lemma parse_reads {A B} fmt (dec : decoder A) a c (k : A -> stio session B) h d e out o :
  reads dec a c ->
  (x ← wrapf fmt [] (parse dec); k x) ((h, peer (c ++ d) e out), o) = k a ((h, peer d e out), o).
Proof. intros Hr. unfold mbind, st_bind, wrapf, parse, on_conn. simpl. by rewrite Hr. Qed.

Lemma send_peer fmt enc h d e out o :
  wrapf fmt [] (send enc) ((h, peer d e out), o) =
  (Ok tt, ((h, peer d e (out ++ FullMessage (enc NewEncoder))), o)).
Proof. done. Qed.

Lemma join_group_response_eq c q :
  join_group_response c q = encode_response c (group_response (RJoinGroup q)).
Proof. unfold join_group_response. simpl. by destruct (jg_Protocols q). Qed.

(** ** Dispatch *)

(** The shape of the handlers that look at the handler's state: parse, compute,
    send. *)
Lemma handle_request {A B} fmt1 fmt2 (dec : decoder A) a c (m : A -> stio Handler B)
    (enc : B -> Encoder -> Encoder) h d e out o :
  reads dec a c ->
  (x ← wrapf fmt1 [] (parse dec); resp ← on_handler (m x); wrapf fmt2 [] (send (enc resp)))
    ((h, peer (c ++ d) e out), o) =
  answer (resp ← m a; mret (FullMessage (enc resp NewEncoder))) ((h, peer d e out), o).
Proof.
  intros Hr. rewrite (parse_reads _ _ _ _ _ _ _ _ _ _ Hr), answer_peer.
  unfold on_handler, mbind, st_bind, mret, st_ret. by destruct (m a (h, o)) as [[] []].
Qed.

Lemma answer_ret p h d e out o :
  answer (mret p) ((h, peer d e out), o) = (Ok tt, ((h, peer d e (out ++ p)), o)).
Proof. by rewrite answer_peer. Qed.

Ltac pick_handler :=
  cbn [api_key Z.eqb Pos.eqb ApiKeyProduce ApiKeyFetch ApiKeyListOffsets ApiKeyMetadata
       ApiKeyOffsetCommit ApiKeyOffsetFetch ApiKeyFindCoordinator ApiKeyJoinGroup ApiKeyHeartbeat
       ApiKeyLeaveGroup ApiKeySyncGroup ApiKeyApiVersions].

Lemma dispatch_answers header q txn auto h d e out o :
  wf_request header q -> from_option short True txn ->
  dispatch Getenv header ((h, peer (enc_request txn auto q ++ d) e out), o) =
  answer (reply header q) ((h, peer d e out), o).
Proof.
  intros [Hk Hq] Ht. unfold dispatch. rewrite Hk.
  destruct q as [q|q|q|q|q|q|q|q|q|q|q|]; simpl in Hq; destruct_and?; pick_handler; cbn [enc_request reply].
  - unfold handleProduce. rewrite (parse_reads _ _ q) by (by apply reads_produce).
    rewrite answer_peer. unfold on_handler, mbind, st_bind, mret, st_ret.
    destruct (produce q (h, o)) as [[resp|err|p] [h' o']]; try done.
    destruct (pr_Acks q =? AcksNone); [by rewrite app_nil_r|done].
  - unfold handleFetch. rewrite (parse_reads _ _ q) by (by apply reads_fetch).
    rewrite answer_peer. unfold on_handler, mbind, st_bind, mret, st_ret, wrapf, on_conn.
    destruct (fetch q (h, o)) as [[resp|err|p] [h' o']] eqn:E; try done.
    by rewrite (writes_fetch_response _ _ (fetch_consistent _ _ _ _ E)).
  - apply (handle_request _ _ _ q _ _ (fun r => EncodeListOffsetsResponse _ r)), reads_list_offsets; done.
  - apply (handle_request _ _ _ q _ _ (fun r => EncodeMetadataResponse _ _ r)), reads_metadata; done.
  - apply (handle_request _ _ _ q _ _ (fun r => EncodeOffsetCommitResponse _ r)), reads_commit; done.
  - unfold handleOffsetFetch. by rewrite (parse_reads _ _ q) by (by apply reads_offset_fetch).
  - unfold handleFindCoordinator. rewrite (parse_reads _ _ q), answer_ret; [done|].
    unfold ParseFindCoordinatorRequest. destruct q. simpl in *.
    eapply reads_bind_ret; [apply reads_wrapf|reflexivity]. auto with reads.
  - unfold handleJoinGroup. rewrite (parse_reads _ _ q) by (by apply reads_join).
    by rewrite join_group_response_eq, answer_ret.
  - unfold handleHeartbeat. by rewrite (parse_reads _ _ q), answer_ret by (by apply reads_heartbeat).
  - unfold handleLeaveGroup. by rewrite (parse_reads _ _ q), answer_ret by (by apply reads_leave).
  - unfold handleSyncGroup. by rewrite (parse_reads _ _ q), answer_ret by (by apply reads_sync).
  - by rewrite answer_ret.
Qed.

(** ** A stream of requests *)

(** A request as a client sends it. *)
Record sent := Sent { s_header : RequestHeader; s_request : Request; s_txn : option gostring; s_auto : bool }.

Definition enc_sent (s : sent) : list byte :=
  enc_header (s_header s) ++ enc_request (s_txn s) (s_auto s) (s_request s).

Definition wf_sent (s : sent) : Prop :=
  wf_header (s_header s) /\ wf_request (s_header s) (s_request s) /\ from_option short True (s_txn s).

(** C7: On a stream of well-formed requests [Handle]'s loop answers
    them one by one in order, each by one frame computed from the state the
    previous ones left (by none where the producer wants none), and stops at
    the end of the stream. *)
Theorem serve_answers_requests (ss : list sent) fuel h o e out ps h' o' :
  Forall wf_sent ss -> (length ss < fuel)%nat ->
  mapM (fun s => reply (s_header s) (s_request s)) ss (h, o) = (Ok ps, (h', o')) ->
  serve Getenv fuel ((h, peer (concat (enc_sent <$> ss)) e out), o) =
  (Ok e, ((h', peer [] e (out ++ concat ps)), o')).
Proof.
  intros Hss. revert fuel h o out ps.
  induction Hss as [|s ss (Hh & Hq & Ht) _ IH]; intros fuel h o out ps Hf Hm; (destruct fuel as [|fuel]; [simpl in Hf; lia|]).
  - injection Hm as <- <- <-. cbn. by rewrite app_nil_r.
  - cbn [serve]. unfold parse at 1, on_conn at 1. cbn [c_in]. rewrite fmap_cons.
    cbn [concat]. unfold enc_sent at 1. rewrite <- !app_assoc.
    rewrite (reads_header _ Hh). cbn [c_out c_cap]. rewrite (dispatch_answers _ _ _ _ _ _ _ _ _ Hq Ht).
    rewrite answer_peer. cbn [mapM] in Hm. unfold mbind, st_bind in Hm.
    destruct (reply (s_header s) (s_request s) (h, o)) as [[p|err|p] [h1 o1]]; try done.
    destruct (mapM (M := st (Handler * os)) _ ss (h1, o1)) as [[ps'|err|p'] [h2 o2]] eqn:Em; try done.
    injection Hm as <- <- <-. cbn [concat]. rewrite app_assoc.
    apply IH; [simpl in Hf; lia|done].
Qed.

(** ** The loop ends *)

(** What the peer has sent and the handler has not read. *)
Definition unread (x : session * os) : nat := length (rd_data (c_in x.1.2)).

(** A successful call leaves no more to read than there was. *)
Definition shrinking {A} (m : stio session A) : Prop :=
  forall x a x', m x = (Ok a, x') -> (unread x' <= unread x)%nat.

Lemma shrinking_bind {A B} (m : stio session A) (k : A -> stio session B) :
  shrinking m -> (forall a, shrinking (k a)) -> shrinking (m ≫= k).
Proof.
  intros Hm Hk x b x'. unfold mbind, st_bind. destruct (m x) as [[a|e|p] x1] eqn:E; [|done..].
  intros Hb. apply Hm in E. apply Hk in Hb. lia.
Qed.

Lemma shrinking_wrapf {A} fmt args (m : stio session A) : shrinking m -> shrinking (wrapf fmt args m).
Proof. intros Hm x a x'. unfold wrapf. destruct (m x) as [[] ?] eqn:E; intros [= <- <-]. eauto. Qed.

Lemma shrinking_ret {A} (a : A) : shrinking (mret a).
Proof. intros x b x' [= _ <-]. done. Qed.

Lemma shrinking_handler {A} (m : stio Handler A) : shrinking (on_handler m).
Proof.
  intros [[h c] o] a x'. unfold on_handler. destruct (m (h, o)) as [r [h' o']]. by intros [= -> <-].
Qed.

Lemma shrinking_get {A} (f : session -> A) : shrinking (get_st f).
Proof. intros [s o] a x' [= _ <-]. done. Qed.

Lemma shrinking_parse {A} (d : decoder A) : streaming d -> shrinking (parse d).
Proof.
  intros Hd [[h [[data e] out cap]] o] a x'. unfold parse, on_conn. simpl.
  destruct (d (Rd data e)) as [r rd] eqn:E. intros [= -> <-].
  destruct (Hd _ _ _ _ E) as (c & -> & _). unfold unread. simpl. rewrite length_app. lia.
Qed.

(** Writing does not read. *)
Definition keeps_input (m : st conn unit) : Prop := forall c, c_in (m c).2 = c_in c.

Lemma keeps_input_Write p : keeps_input (conn_Write p).
Proof. intros [i out [k|]]; unfold conn_Write; simpl; [by case_decide|done]. Qed.

Lemma keeps_input_bind m (k : unit -> st conn unit) :
  keeps_input m -> keeps_input (k tt) -> keeps_input (m ≫= k).
Proof.
  intros Hm Hk c. unfold mbind, st_bind. specialize (Hm c). destruct (m c) as [[[]|e|p] c1]; [|done..].
  rewrite Hk. apply Hm.
Qed.

Lemma keeps_input_range {A} (body : A -> st conn unit) xs :
  (forall x, keeps_input (body x)) -> keeps_input (range_st body xs).
Proof.
  intros Hb. induction xs as [|x xs IH]; simpl; [done|]. by apply keeps_input_bind.
Qed.

Lemma keeps_input_fetch c r : keeps_input (WriteFetchResponse c r).
Proof.
  unfold WriteFetchResponse. cbv zeta. do 2 (apply keeps_input_bind; [apply keeps_input_Write|]).
  apply keeps_input_range. intros t. unfold write_fetch_topic. cbv zeta.
  apply keeps_input_bind; [apply keeps_input_Write|]. apply keeps_input_range. intros p.
  unfold write_fetch_partition. cbv zeta. apply keeps_input_bind; [apply keeps_input_Write|].
  destruct (fpr_RecordBatch p); [|done]. destruct (0 <? _); [|done]. unfold io_Copy.
  apply keeps_input_bind; [apply keeps_input_Write|]. by case_decide.
Qed.

Lemma shrinking_conn m : keeps_input m -> shrinking (on_conn m).
Proof.
  intros Hm [[h c] o] a x'. unfold on_conn. specialize (Hm c). destruct (m c) as [r c'].
  intros [= -> <-]. unfold unread. simpl in *. by rewrite Hm.
Qed.

Lemma shrinking_send enc : shrinking (send enc).
Proof. apply shrinking_conn, keeps_input_Write. Qed.

Lemma shrinking_if {A} (b : bool) (m1 m2 : stio session A) :
  shrinking m1 -> shrinking m2 -> shrinking (if b then m1 else m2).
Proof. by destruct b. Qed.

#[local] Hint Resolve shrinking_if shrinking_bind shrinking_wrapf shrinking_ret shrinking_handler shrinking_get
  shrinking_parse shrinking_conn shrinking_send keeps_input_fetch : shrinking.

Lemma shrinking_dispatch header : shrinking (dispatch Getenv header).
Proof.
  unfold dispatch, handleProduce, handleFetch, handleListOffsets, handleMetadata, handleOffsetCommit,
    handleOffsetFetch, handleFindCoordinator, handleJoinGroup, handleHeartbeat, handleLeaveGroup,
    handleSyncGroup, handleApiVersions. cbv zeta.
  repeat (case_match; [by auto 10 with shrinking streaming|]). by intros x a x'.
Qed.

Lemma parse_header_consumes x header x' :
  parse ParseRequestHeader x = (Ok header, x') -> (unread x' < unread x)%nat.
Proof.
  destruct x as [[h [[data e] out cap]] o]. unfold parse, on_conn, unread. simpl.
  destruct (ParseRequestHeader (Rd data e)) as [r rd] eqn:E. intros [= -> <-]. simpl.
  destruct (streaming_header _ _ _ _ E) as (c & -> & _ & Hr & _). rewrite length_app.
  destruct c as [|b c]; [|simpl; lia]. specialize (Hr [] EOF). by vm_compute in Hr.
Qed.

Lemma serve_fuel_enough k k' x :
  (unread x < k)%nat -> (unread x < k')%nat -> serve Getenv k x = serve Getenv k' x.
Proof.
  revert k' x. induction k as [|k IH]; intros k' x Hk Hk'; [lia|]. destruct k' as [|k']; [lia|].
  cbn [serve]. destruct (parse ParseRequestHeader x) as [[header|e|p] x1] eqn:E1; [|done..].
  destruct (dispatch Getenv header x1) as [[[]|e|p] x2] eqn:E2; [|done..].
  apply parse_header_consumes in E1. apply shrinking_dispatch in E2. apply IH; lia.
Qed.

(** The outcomes of the loop; running out of fuel would be an [Err]. *)
Lemma serve_outcome k x : (unread x < k)%nat -> forall e, (serve Getenv k x).1 <> Err e.
Proof.
  revert x. induction k as [|k IH]; intros x Hk e; [lia|].
  cbn [serve]. destruct (parse ParseRequestHeader x) as [[header|e1|p] x1] eqn:E1; [|done..].
  destruct (dispatch Getenv header x1) as [[[]|e2|p] x2] eqn:E2; [|done..].
  apply parse_header_consumes in E1. apply shrinking_dispatch in E2. apply IH. lia.
Qed.

(** C37: Whatever the peer sends, [Handle]'s loop ends by its own
    conditions: a request that cannot be read or handled, or a panic, after at
    most as many rounds as there are bytes to read. More fuel changes nothing,
    and afterwards the connection is closed. *)
Theorem Handle_terminates fuel x :
  (unread x < fuel)%nat ->
  (forall e, (Handle Getenv x).1 <> Err e) /\
  Handle Getenv x = (let '(r, ((h, c), o)) := serve Getenv fuel x in (r, ((h, conn_Close c), o))).
Proof.
  intros Hf. unfold Handle. fold (unread x).
  rewrite (serve_fuel_enough _ fuel) by lia. split; [|done].
  pose proof (serve_outcome fuel x Hf). by destruct (serve Getenv fuel x) as [r [[h c] o]].
Qed.
End conn_spec.

(** ** Instances *)

(** A heartbeat and an offset fetch, as a client sends them. *)
Definition sample_head (key corr : Z) : RequestHeader :=
  {| rh_Size := 0; rh_ApiKey := key; rh_ApiVersion := 0; rh_CorrelationID := corr; rh_ClientID := gos "cli" |}.

Definition sample_stream : list sent :=
  [Sent (sample_head ApiKeyHeartbeat 1)
     (RHeartbeat {| hb_GroupID := gos "g"; hb_GenerationID := 1; hb_MemberID := gos "m" |}) None false;
   Sent (sample_head ApiKeyOffsetFetch 2)
     (ROffsetFetch {| of_GroupID := gos "g"; of_Topics :=
        [{| oft_TopicName := gos "t"; oft_Partitions := [{| ofp_Partition := 0 |}] |}] |}) None false].

Definition sample_idle : Handler * os :=
  (NewHandler (MkBrokerStore (gos "/d") (MkSegmentConfig 0 0) ∅) New,
   OS ∅ {[gos "/"; gos "/d"]} (fun _ => 0) 100 []).

Definition sample_env (_ : gostring) : gostring := [].

Lemma serve_answers_requests_witness :
  exists ps,
    serve (H0 := insertion_order) sample_env 3
      ((sample_idle.1, Conn (Rd (concat (enc_sent <$> sample_stream)) EOF) [] None), sample_idle.2) =
    (Ok EOF, ((sample_idle.1, Conn (Rd [] EOF) ([] ++ concat ps) None), sample_idle.2)).
Proof.
  eexists. apply (serve_answers_requests (H0 := insertion_order) sample_env sample_stream 3).
  - unfold sample_stream, wf_sent, wf_header, wf_request, wf_offset_fetch, wf_offset_fetch_topic, counted.
    cbn [s_header s_request s_txn]. concrete.
  - simpl. lia.
  - reflexivity.
Defined.

Definition sample_garbage : (Handler * conn) * os :=
  ((sample_idle.1, Conn (Rd (gos "not a request at all") EOF) [] None), sample_idle.2).

Lemma Handle_terminates_witness :
  (forall e, (Handle (H0 := insertion_order) sample_env sample_garbage).1 <> Err e) /\
  Handle (H0 := insertion_order) sample_env sample_garbage =
  (let '(r, ((h, c), o)) := serve (H0 := insertion_order) sample_env 30 sample_garbage in
   (r, ((h, conn_Close c), o))).
Proof. apply (Handle_terminates (H0 := insertion_order) sample_env 30 sample_garbage). vm_compute. lia. Defined.
