(* ===== verification/HandlerSpec.v ===== *)
(** * The handler against the abstract broker

    The abstract broker is one log per topic-partition together with the
    committed offsets. This file gives each data request its meaning on it and
    proves that the handlers implement it on a file system that does not fail:
    produce, fetch, list offsets, offset commit and offset fetch. *)

From stdpp Require Import base tactics list numbers gmap strings.
From Stdlib Require Import ZArith Lia.
From S2P Require Import Prelude GoIO GoStrings Wire Requests Responses RecordBatch OSFile.
From S2P Require Import LogIndex LogSegment SegmentSpec LogStore OffsetRecords FetchPatch.
From S2P Require Import BrokerStore BrokerSpec Metrics Handler.
#[local] Open Scope Z_scope.

(** ** Calls whose errors are handled *)

Lemma wp_try {S A} (m : st S A) Q s :
  wp m (fun r s' => match r with
                    | Ok a => Q (Ok (inl a)) s'
                    | Err e => Q (Ok (inr e)) s'
                    | Panic p => Q (Panic p) s'
                    end) s ->
  wp (try_st m) Q s.
Proof. unfold wp, try_st. by destruct (m s) as [[] ?]. Qed.

Lemma wp_lift {S A} (r : result A) Q (s : S) : Q r s -> wp (lift_result r) Q s.
Proof. done. Qed.

(** ** The abstract broker *)

Record abroker := ABroker {
  ab_logs : gmap tpart plog;
  ab_offsets : gmap offsetCacheKey Z }.

Definition ab_log (A : abroker) (tp : tpart) : plog := log_of (ab_logs A) tp.

Definition set_ab_log (tp : tpart) (L : plog) (A : abroker) : abroker :=
  ABroker (<[tp := L]> (ab_logs A)) (ab_offsets A).

(** The partition exists from now on. *)
Definition touch (tp : tpart) (A : abroker) : abroker := set_ab_log tp (ab_log A tp) A.

Lemma ab_log_set tp L A : ab_log (set_ab_log tp L A) tp = L.
Proof. apply log_of_insert_eq. Qed.

Lemma ab_log_touch tp A tp' : ab_log (touch tp A) tp' = ab_log A tp'.
Proof. unfold ab_log, touch, set_ab_log. simpl. rewrite log_of_insert. by case_decide; subst. Qed.

Lemma set_ab_log_touch tp L A : set_ab_log tp L (touch tp A) = set_ab_log tp L A.
Proof. unfold set_ab_log, touch. simpl. by rewrite insert_insert_eq. Qed.

Section handler_spec.
Context `{Prometheus} `{!PrometheusOk} `{MapOrder}.

(** The handler holds the abstract broker [A]; segments hold [max] bytes. *)
Record handler_ok (max : Z) (h : Handler) (o : os) (A : abroker) : Prop := {
  ho_broker : broker_ok (h_store h) o (ab_logs A);
  ho_max : max_size (bs_cfg (h_store h)) = max;
  ho_cache : h_offsetCache h = ab_offsets A }.

Lemma wp_on_metrics (m : Z -> st Metrics unit) Q max h o A :
  handler_ok max h o A -> (forall n mt, (m n mt).1 = Ok tt) ->
  (forall h', handler_ok max h' o A -> Q (Ok tt) (h', o)) -> wp (on_metrics m) Q (h, o).
Proof.
  intros [Hb Hm Hc] Hok HQ. unfold wp, on_metrics. specialize (Hok (os_now o) (h_metrics h)).
  destruct (m _ _) as [r mt]. simpl in *. subst r. by apply HQ.
Qed.

Lemma on_metric_ok get put (op : st vec unit) mt :
  (op (get mt)).1 = Ok tt -> (on_metric get put op mt).1 = Ok tt.
Proof. unfold on_metric. by destruct (op (get mt)). Qed.

(** Looking a partition up creates it if need be, and cannot fail. *)
Lemma wp_get_partition max h o A t p Q :
  handler_ok max h o A -> nameable t p ->
  (forall h' o', handler_ok max h' o' (touch (t, p) A) ->
     is_Some (bs_stores (h_store h') !! partitionKey t p) ->
     Q (Ok (inl (partitionKey t p))) (h', o')) ->
  wp (try_st (on_store (GetOrCreatePartition t p))) Q (h, o).
Proof.
  intros [Hb Hm Hc] Hn HQ. apply wp_try, wp_zoom.
  eapply wp_mono; [by apply GetOrCreatePartition_spec|].
  intros r [bs' o'] (-> & _ & Hcfg & Hin & Hb'). apply HQ; [|done].
  constructor; simpl; [done|by rewrite Hcfg|done].
Qed.

(** A call on a partition that exists. *)
Lemma wp_on_log {B} max h o A t p (m : stio PartitionStore B) (R : result B -> plog -> os -> Prop) Q :
  handler_ok max h o A -> nameable t p -> is_Some (bs_stores (h_store h) !! partitionKey t p) ->
  (forall ps, part_ok ps o (ab_log A (t, p)) -> max_size (ps_cfg ps) = max -> max < 2 ^ 62 ->
     wp m (fun r '(ps', o') => exists L', R r L' o' /\ part_ok ps' o' L' /\ ps_dir ps' = ps_dir ps /\
             ps_cfg ps' = ps_cfg ps /\ within (ps_dir ps) o o') (ps, o)) ->
  (forall r L' h' o', R r L' o' -> handler_ok max h' o' (set_ab_log (t, p) L' A) ->
     is_Some (bs_stores (h_store h') !! partitionKey t p) -> Q r (h', o')) ->
  wp (on_store (on_partition (partitionKey t p) m)) Q (h, o).
Proof.
  intros [Hb Hm Hc] Hn Hin Hcall HQ. apply wp_zoom.
  eapply wp_mono; [apply (on_partition_spec _ _ _ _ _ m R Hb Hn Hin)|].
  - intros ps Hok Hcfg _. apply Hcall; [done|by rewrite Hcfg|]. rewrite <- Hm. apply Hb.
  - intros r [bs' o'] (L' & HR & _ & Hcfg & Hin' & Hb'). apply (HQ r L'); [done| |done].
    constructor; simpl; [done|by rewrite Hcfg|done].
Qed.

Lemma set_ab_log_id tp A : set_ab_log tp (ab_log (touch tp A) tp) (touch tp A) = touch tp A.
Proof. rewrite ab_log_touch, set_ab_log_touch. done. Qed.

(** [ps.Size()] and [ps.Read(...)] of a partition that has been looked up. *)
Lemma wp_log_size max h o A t p Q :
  handler_ok max h o (touch (t, p) A) -> nameable t p -> is_Some (bs_stores (h_store h) !! partitionKey t p) ->
  (forall h' o', handler_ok max h' o' (touch (t, p) A) -> is_Some (bs_stores (h_store h') !! partitionKey t p) ->
     zlen (pl_active (ab_log A (t, p))) < 2 ^ 62 -> Q (Ok (zlen (pl_active (ab_log A (t, p))))) (h', o')) ->
  wp (on_store (on_partition (partitionKey t p) (get_st PartitionStore_Size))) Q (h, o).
Proof.
  intros Hok Hn Hin HQ.
  eapply (wp_on_log max h o _ t p _ (fun r L _ =>
    r = Ok (zlen (pl_active L)) /\ L = ab_log A (t, p) /\ zlen (pl_active L) < 2 ^ 62)); [done..| |].
  - intros ps Hps _ _. rewrite ab_log_touch in Hps. apply wp_get_st. destruct (po_active _ _ _ Hps) as (Hs & _).
    eexists. split_and!; try done; [|apply Hs]. unfold PartitionStore_Size, Segment_Size. by rewrite (so_size _ _ _ Hs).
  - intros r L h' o' (-> & -> & Hb) Hok' Hin'. rewrite <- (ab_log_touch (t, p)), set_ab_log_id in Hok'. by apply HQ.
Qed.

Lemma wp_log_read max h o A t p off n Q :
  handler_ok max h o (touch (t, p) A) -> nameable t p -> is_Some (bs_stores (h_store h) !! partitionKey t p) ->
  0 <= off < 2 ^ 62 -> sfits 32 n ->
  (forall r h' o', handler_ok max h' o' (touch (t, p) A) ->
     match plog_read off n (ab_log A (t, p)) with
     | Ok (d, m) => exists w, r = Ok (w, m) /\ section_reader w o' = (Ok (Rd d EOF), o')
     | Err e => r = Err e
     | Panic _ => False
     end -> Q r (h', o')) ->
  wp (on_store (on_partition (partitionKey t p) (PartitionStore_Read off n))) Q (h, o).
Proof.
  intros Hok Hn Hin Hoff Hsz HQ.
  eapply (wp_on_log max h o _ t p _ (fun r L o' => L = ab_log A (t, p) /\
    match plog_read off n L with
    | Ok (d, m) => exists w, r = Ok (w, m) /\ section_reader w o' = (Ok (Rd d EOF), o')
    | Err e => r = Err e
    | Panic _ => False
    end)); [done..| |].
  - intros ps Hps _ _. rewrite ab_log_touch in Hps.
    eapply wp_mono; [by apply (PartitionStore_Read_refines ps o _ off n Hps)|].
    intros r [ps' o'] (? & ? & ? & ? & ?). eexists. by split_and!.
  - intros r L h' o' (-> & Hr) Hok' _. rewrite <- (ab_log_touch (t, p)), set_ab_log_id in Hok'. by apply HQ.
Qed.

(** ** Produce *)

(** The meaning of a produce request for one partition: an invalid batch is
    refused and leaves no trace, a valid one is appended. *)
Definition produce_spec (max : Z) (t : gostring) (part : ProducePartitionData) (A : abroker)
  : ProducePartitionResponse * abroker :=
  let resp off code := Build_ProducePartitionResponse off (ppd_Partition part) code in
  let tp := (t, ppd_Partition part) in
  let batch := ppd_RecordBatch part in
  if (0 <? zlen batch) && negb (is_ok (ValidateRecordBatch batch)) then
    (resp (-1) ErrCodeCorruptMessage, A)
  else
    match plog_append max batch (ab_log A tp) with
    | (Ok off, L) => (resp off 0, set_ab_log tp L A)
    | (_, L) => (resp (-1) 1, set_ab_log tp L A)
    end.

(** The request's record count is not negative; its batch does not make the
    validator panic. *)
Definition countable_batch (batch : list byte) : Prop :=
  0 < zlen batch ->
  match ValidateRecordBatch batch with Ok n => 0 <= n | Err _ => True | Panic _ => False end.

Definition wf_produce_part (t : gostring) (part : ProducePartitionData) : Prop :=
  nameable t (ppd_Partition part) /\ zlen (ppd_RecordBatch part) < 2 ^ 32 /\
  countable_batch (ppd_RecordBatch part) /\ label_ok t.

(** The check of a batch, as the handler makes it. *)
Lemma checked_batch batch :
  countable_batch batch ->
  match (if 0 <? zlen batch then ValidateRecordBatch batch else Ok 0) with
  | Ok n => 0 <= n /\ (0 <? zlen batch) && negb (is_ok (ValidateRecordBatch batch)) = false
  | Err _ => (0 <? zlen batch) && negb (is_ok (ValidateRecordBatch batch)) = true
  | Panic _ => False
  end.
Proof.
  intros Hc. unfold countable_batch in Hc. destruct (Z.ltb_spec 0 (zlen batch)) as [Hpos|]; [|by split].
  specialize (Hc Hpos). by destruct (ValidateRecordBatch batch).
Qed.

Lemma plog_append_offset max p L r L' :
  plog_append max p L = (r, L') -> pl_end L < 2 ^ 62 -> 0 <= pl_base L ->
  match r with Ok off => 0 <= off < 2 ^ 62 /\ i64 off = off | Err _ => True | Panic _ => False end.
Proof.
  unfold plog_append, pl_end. pose proof (zlen_nonneg (pl_active L)). cbv zeta.
  destruct (_ <=? max); [intros [= <- <-] ? ?; rewrite i64_id; lia|].
  destruct (_ <=? max); by intros [= <- <-].
Qed.

Lemma handler_base max h o A t p : handler_ok max h o A -> nameable t p -> 0 <= pl_base (ab_log A (t, p)).
Proof.
  intros [Hb _ _] Hn. pose proof (bk_parts _ _ _ Hb t p Hn) as Hpart. unfold ab_log, log_of.
  destruct (bs_stores _ !! _), (ab_logs A !! _) as [L|]; simpl in *; try done.
  destruct Hpart as (_ & _ & Hok). apply Hok.
Qed.

Lemma produce_partition_refines max h o A t part :
  handler_ok max h o A -> wf_produce_part t part ->
  pl_end (ab_log A (t, ppd_Partition part)) + zlen (frame (ppd_RecordBatch part)) < 2 ^ 62 ->
  wp (produce_partition t part) (fun r '(h', o') =>
    r = Ok (produce_spec max t part A).1 /\ handler_ok max h' o' (produce_spec max t part A).2) (h, o).
Proof.
  destruct part as [batch p]. intros Hok (Hn & Hz & Hc & Hl) Hend. simpl in *.
  unfold produce_partition, produce_spec. cbn [ppd_RecordBatch ppd_Partition].
  apply wp_bind, wp_try, wp_lift. pose proof (checked_batch batch Hc) as Hv.
  destruct (if 0 <? zlen batch then _ else _) as [rc|e|]; [| |done].
  2:{ rewrite Hv. by apply wp_ret. }
  destruct Hv as [Hrc ->]. apply wp_bind. eapply wp_get_partition; [done..|].
  intros h1 o1 Hok1 Hin1. apply wp_bind. unfold wp at 1, Now. cbn [fst snd].
  apply wp_bind, wp_try.
  eapply (wp_on_log max h1 o1 (touch (t, p) A) t p _ (fun r L _ =>
    r = (plog_append max batch (ab_log A (t, p))).1 /\ L = (plog_append max batch (ab_log A (t, p))).2));
    [done..| |].
  { intros ps Hps Hm Hmax. rewrite ab_log_touch in Hps. unfold pl_end in Hend.
    eapply wp_mono; [apply (PartitionStore_Append_refines ps o1 _ batch Hps); [lia..]|].
    rewrite Hm. intros r [ps' o'] (-> & ? & ? & ? & ?). eexists. by split_and!. }
  intros r L' h2 o2 [-> ->] Hok2 Hin2. rewrite set_ab_log_touch in Hok2.
  assert (Hlim : pl_end (ab_log A (t, p)) < 2 ^ 62) by (pose proof (zlen_nonneg (frame batch)); lia).
  pose proof (handler_base _ _ _ _ _ _ Hok Hn) as Hbase.
  destruct (plog_append max batch (ab_log A (t, p))) as [r L] eqn:Ea. cbn [fst snd] in *.
  pose proof (plog_append_offset _ _ _ _ _ Ea Hlim Hbase) as Hoff.
  destruct r as [off|e|]; [| |done]; apply wp_bind;
    (eapply wp_on_metrics; [done|intros; by apply on_metric_ok, histogram_Observe_ok|]);
    intros h3 Hok3; [|by apply wp_ret].
  apply wp_bind. eapply wp_on_metrics; [done|intros; by apply on_metric_ok, counter_Add_ok|].
  intros h4 Hok4. apply wp_ret. simpl. by destruct Hoff as [_ ->].
Qed.

(** ** Fetch *)

(** The meaning of a fetch of one partition with [remaining] bytes of budget
    left: from the end of the log nothing, from past it an error, otherwise at
    most the budget, without the first record's frame header. *)
Definition fetch_spec (t : gostring) (part : FetchPartitionData) (remaining : Z) (A : abroker)
  : FetchPartitionResponse * Z :=
  let log := pl_active (ab_log A (t, fpd_Partition part)) in
  let hw := zlen log in
  let off := fpd_FetchOffset part in
  let resp batch size code :=
    {| fpr_RecordBatch := batch; fpr_HighWatermark := hw; fpr_BatchSize := size;
       fpr_Partition := fpd_Partition part; fpr_ErrorCode := code |} in
  let cap := Z.min remaining (fpd_PartitionMaxBytes part) in
  let n := Z.min (cap + 4) (hw - off) in
  if off =? hw then (resp None (-1) ErrCodeNone, remaining)
  else if hw <? off then (resp None (-1) ErrCodeOffsetOutOfRange, remaining)
  else if cap <=? 0 then (resp None (-1) ErrCodeNone, remaining)
  else if n <? 4 then (resp None (-1) ErrCodeOffsetOutOfRange, remaining)
  else
    let payload := patch_payload off (slice (off + 4) (off + n) log) in
    (resp (Some (Rd payload EOF)) (zlen payload) ErrCodeNone, remaining - zlen payload).

Definition wf_fetch_part (t : gostring) (part : FetchPartitionData) (remaining : Z) : Prop :=
  nameable t (fpd_Partition part) /\ 0 <= fpd_FetchOffset part < 2 ^ 63 /\
  sfits 32 remaining /\ Z.min remaining (fpd_PartitionMaxBytes part) < 2 ^ 31 - 4 /\ label_ok t.

Lemma ReadFull_all d e : ReadFull (zlen d) (Rd d e) = (Ok d, Rd [] e).
Proof.
  unfold ReadFull, zlen. simpl. rewrite Z.leb_refl, Nat2Z.id, firstn_all. by rewrite drop_all.
Qed.

Lemma drop_slice {B} (k lo hi : Z) (l : list B) :
  0 <= k -> 0 <= lo -> drop (Z.to_nat k) (slice lo hi l) = slice (lo + k) hi l.
Proof.
  intros. unfold slice. rewrite skipn_firstn_comm, drop_drop. f_equal; [lia|]. f_equal. lia.
Qed.

Lemma fetch_partition_refines max h o A t part rem :
  handler_ok max h o A -> wf_fetch_part t part rem ->
  wp (fetch_partition t part rem) (fun r '(h', o') =>
    r = Ok (fetch_spec t part rem A) /\ handler_ok max h' o' (touch (t, fpd_Partition part) A)) (h, o).
Proof.
  destruct part as [off p pmax]. intros Hok (Hn & Hoff & Hrem & Hcap & Hl). simpl in *.
  unfold fetch_partition, fetch_spec. cbn [fpd_FetchOffset fpd_Partition fpd_PartitionMaxBytes].
  apply wp_bind. eapply wp_get_partition; [done..|]. intros h1 o1 Hok1 Hin1.
  apply wp_bind. apply (wp_log_size max h1 o1 A t p _ Hok1 Hn Hin1). intros h2 o2 Hok2 Hin2 Hb.
  set (log := pl_active (ab_log A (t, p))) in *. pose proof (zlen_nonneg log).
  destruct (Z.eqb_spec off (zlen log)) as [|Hne]; [by apply wp_ret|].
  destruct (Z.ltb_spec (zlen log) off); [by apply wp_ret|]. cbv zeta.
  replace (if rem <? pmax then rem else pmax) with (Z.min rem pmax)
    by (destruct (Z.ltb_spec rem pmax); lia).
  set (cap := Z.min rem pmax) in *.
  destruct (Z.leb_spec cap 0); [by apply wp_ret|].
  assert (Hcap4 : i32 (cap + recHdr) = cap + 4) by (unfold i32, recHdr; rewrite swrap_id; [lia|lia|fits]).
  assert (Hoff' : u64 off = off) by (apply uwrap_id; fits). rewrite Hcap4, Hoff'.
  apply wp_bind, wp_try. apply (wp_log_read max h2 o2 A t p off (cap + 4) _ Hok2 Hn Hin2); [lia|fits|].
  intros r h3 o3 Hok3 Hr.
  unfold plog_read in Hr. fold log in Hr. cbv zeta in Hr.
  rewrite (proj2 (Z.leb_gt _ _)) in Hr by lia. set (n := Z.min (cap + 4) (zlen log - off)) in *.
  assert (Hn0 : 0 < n \/ n = 0) by lia.
  destruct (Z.leb_spec n 0) as [|Hpos]; [|clear Hn0].
  { subst r. rewrite (proj2 (Z.ltb_lt _ _)) by lia. by apply wp_ret. }
  destruct Hr as (w & -> & Hw). rewrite (proj2 (Z.ltb_ge _ _)) by lia.
  apply wp_bind, wp_on_os. unfold wp at 1. rewrite Hw. cbn [fst snd].
  assert (Hz : zlen (slice off (off + n) log) = n) by (rewrite zlen_slice; lia).
  pose proof (ReadFull_all (slice off (off + n) log) EOF) as Hfull. rewrite Hz in Hfull.
  rewrite Hfull. cbn [fst]. rewrite Hz. unfold recHdr. destruct (n <? 4) eqn:E4; [by apply wp_ret|].
  apply Z.ltb_ge in E4. rewrite drop_slice by lia.
  set (payload := patch_payload off (slice (off + 4) (off + n) log)).
  assert (Hpl : zlen payload = n - 4).
  { unfold payload, patch_payload. rewrite zlen_patch_loop, zlen_slice; lia. }
  apply wp_bind. eapply wp_on_metrics; [done|intros; apply on_metric_ok, counter_Add_ok; [done|lia]|].
  intros h4 Hok4. apply wp_ret. split; [|done].
  assert (E1 : i32 (zlen payload) = zlen payload) by (unfold i32; rewrite swrap_id; [done|lia|fits]).
  assert (E2 : i32 (rem - zlen payload) = rem - zlen payload)
    by (unfold i32; rewrite swrap_id; [done|lia|fits]).
  by rewrite E1, E2.
Qed.

(** ** Whole requests *)

(** Every log has room for [n] more bytes. *)
Definition room (n : Z) (A : abroker) : Prop := forall tp, pl_end (ab_log A tp) + n < 2 ^ 62.

(** An abstract operation on the elements of a list, in order. *)
Fixpoint amap {X Y} (f : X -> abroker -> Y * abroker) (xs : list X) (A : abroker) : list Y * abroker :=
  match xs with
  | [] => ([], A)
  | x :: xs => let '(y, A) := f x A in let '(ys, A) := amap f xs A in (y :: ys, A)
  end.

(** [body] implements [f] for the elements in [wf], which take [need] bytes. *)
Record implements {X Y} (max : Z) (body : X -> stio Handler Y) (f : X -> abroker -> Y * abroker)
    (wf : X -> Prop) (need : X -> Z) : Prop := {
  im_call x h o A : handler_ok max h o A -> wf x -> room (need x) A ->
    wp (body x) (fun r '(h', o') => r = Ok (f x A).1 /\ handler_ok max h' o' (f x A).2) (h, o);
  im_end x A tp : pl_end (ab_log (f x A).2 tp) <= pl_end (ab_log A tp) + need x;
  im_need x : 0 <= need x }.

Definition total {X} (need : X -> Z) (xs : list X) : Z := foldr (fun x n => need x + n) 0 xs.

Lemma total_nonneg {X} (need : X -> Z) xs : (forall x, 0 <= need x) -> 0 <= total need xs.
Proof. intros Hn. induction xs as [|x xs IH]; simpl; [done|]. specialize (Hn x). lia. Qed.

Lemma room_weaken n m A : room n A -> m <= n -> room m A.
Proof. intros Hr Hm tp. specialize (Hr tp). lia. Qed.

Lemma implements_mapM {X Y} max (body : X -> stio Handler Y) f wf need :
  implements max body f wf need ->
  implements max (mapM body) (amap f) (Forall wf) (total need).
Proof.
  intros [Hcall Hend Hneed]. constructor.
  - intros xs h o A Hok Hwf. revert h o A Hok.
    induction Hwf as [|x xs Hx _ IH]; intros h o A Hok Hroom; simpl; [by apply wp_ret|].
    simpl in Hroom. pose proof (total_nonneg need xs Hneed). apply wp_bind.
    eapply wp_mono; [apply (Hcall x); [done|done|eapply room_weaken; [done|lia]]|].
    intros r [h1 o1] [-> Hok1]. apply wp_bind. eapply wp_mono; [apply (IH h1 o1 _ Hok1)|].
    { intros tp. specialize (Hroom tp). specialize (Hend x A tp). lia. }
    intros r [h2 o2] [-> Hok2]. apply wp_ret. destruct (f x A) as [y A1]. simpl in *.
    by destruct (amap f xs A1).
  - intros xs. induction xs as [|x xs IH]; intros A tp; simpl; [lia|].
    specialize (Hend x A tp). destruct (f x A) as [y A1]. specialize (IH A1 tp).
    destruct (amap f xs A1). simpl in *. lia.
  - intros xs. by apply total_nonneg.
Qed.

(** *** Produce *)

Definition produce_part_bytes (part : ProducePartitionData) : Z := zlen (frame (ppd_RecordBatch part)).

Lemma produce_spec_end max t part A tp :
  pl_end (ab_log (produce_spec max t part A).2 tp) <= pl_end (ab_log A tp) + produce_part_bytes part.
Proof.
  unfold produce_spec, produce_part_bytes. cbv zeta.
  pose proof (zlen_nonneg (frame (ppd_RecordBatch part))).
  destruct (_ && _); [simpl; lia|].
  pose proof (plog_step_end max (PAppend (ppd_RecordBatch part)) (ab_log A (t, ppd_Partition part))) as Hs.
  simpl in Hs. destruct (plog_append _ _ _) as [r L]. simpl in Hs.
  assert (Hl : pl_end (ab_log (set_ab_log (t, ppd_Partition part) L A) tp) <=
    pl_end (ab_log A tp) + zlen (frame (ppd_RecordBatch part))).
  { unfold ab_log, set_ab_log in *. simpl. rewrite log_of_insert. case_decide; subst; lia. }
  by destruct r.
Qed.

Lemma produce_partition_implements max t :
  implements max (produce_partition t) (produce_spec max t) (wf_produce_part t) produce_part_bytes.
Proof.
  constructor.
  - intros part h o A Hok Hwf Hroom. by apply produce_partition_refines.
  - intros. apply produce_spec_end.
  - intros. apply zlen_nonneg.
Qed.

Definition produce_topic_spec (max : Z) (topic : ProduceTopicData) (A : abroker)
  : ProduceTopicResponse * abroker :=
  let '(ps, A) := amap (produce_spec max (ptd_TopicName topic)) (ptd_Partitions topic) A in
  ({| ptr_TopicName := ptd_TopicName topic; ptr_Partitions := ps |}, A).

Definition produce_request_spec (max : Z) (req : ProduceRequest) (A : abroker)
  : ProduceResponse * abroker :=
  let '(ts, A) := amap (produce_topic_spec max) (pr_Topics req) A in ({| prs_Topics := ts |}, A).

Definition wf_produce_request (req : ProduceRequest) : Prop :=
  Forall (fun topic => Forall (wf_produce_part (ptd_TopicName topic)) (ptd_Partitions topic)) (pr_Topics req).

Definition produce_bytes (req : ProduceRequest) : Z :=
  total (fun topic => total produce_part_bytes (ptd_Partitions topic)) (pr_Topics req).

Lemma produce_topic_implements max :
  implements max produce_topic (produce_topic_spec max)
    (fun topic => Forall (wf_produce_part (ptd_TopicName topic)) (ptd_Partitions topic))
    (fun topic => total produce_part_bytes (ptd_Partitions topic)).
Proof.
  constructor.
  - intros [name parts] h o A Hok Hwf Hroom. unfold produce_topic, produce_topic_spec. simpl in *.
    apply wp_bind. eapply wp_mono.
    { by apply (im_call _ _ _ _ _ (implements_mapM _ _ _ _ _ (produce_partition_implements max name))). }
    intros r [h1 o1] [-> Hok1]. apply wp_ret. by destruct (amap _ parts A).
  - intros [name parts] A tp. unfold produce_topic_spec. simpl.
    pose proof (im_end _ _ _ _ _ (implements_mapM _ _ _ _ _ (produce_partition_implements max name)) parts A tp).
    by destruct (amap _ parts A).
  - intros topic. apply total_nonneg. intros. apply zlen_nonneg.
Qed.

Lemma produce_implements max :
  implements max produce (produce_request_spec max) wf_produce_request produce_bytes.
Proof.
  pose proof (implements_mapM _ _ _ _ _ (produce_topic_implements max)) as [Hcall Hend Hneed].
  constructor; [|intros req A tp|intros req; apply Hneed].
  - intros req h o A Hok Hwf Hroom. unfold produce, produce_request_spec. apply wp_bind.
    eapply wp_mono; [by apply (Hcall (pr_Topics req))|]. intros r [h1 o1] [-> Hok1]. apply wp_ret.
    by destruct (amap _ (pr_Topics req) A).
  - specialize (Hend (pr_Topics req) A tp). unfold produce_request_spec. by destruct (amap _ (pr_Topics req) A).
Qed.


(** *** Fetch *)

Fixpoint fetch_partitions_spec (t : gostring) (parts : list FetchPartitionData) (rem : Z) (A : abroker)
  : list FetchPartitionResponse * Z * abroker :=
  match parts with
  | [] => ([], rem, A)
  | part :: parts =>
      let '(p, rem) := fetch_spec t part rem A in
      let '(ps, rem, A) := fetch_partitions_spec t parts rem (touch (t, fpd_Partition part) A) in
      (p :: ps, rem, A)
  end.

Fixpoint fetch_topics_spec (topics : list FetchTopicData) (rem : Z) (A : abroker)
  : list FetchTopicResponse * Z * abroker :=
  match topics with
  | [] => ([], rem, A)
  | topic :: topics =>
      let '(ps, rem, A) := fetch_partitions_spec (ftd_TopicName topic) (ftd_Partitions topic) rem A in
      let '(ts, rem, A) := fetch_topics_spec topics rem A in
      ({| ftr_TopicName := ftd_TopicName topic; ftr_Partitions := ps |} :: ts, rem, A)
  end.

Definition fetchable (t : gostring) (part : FetchPartitionData) : Prop :=
  nameable t (fpd_Partition part) /\ 0 <= fpd_FetchOffset part < 2 ^ 63 /\
  fpd_PartitionMaxBytes part < 2 ^ 31 - 4 /\ label_ok t.

Definition wf_fetch_request (req : FetchRequest) : Prop :=
  sfits 32 (fr_MaxBytes req) /\
  Forall (fun topic => Forall (fetchable (ftd_TopicName topic)) (ftd_Partitions topic)) (fr_Topics req).

(** The budget only shrinks, and a fetch does not overdraw it. *)
Lemma fetch_spec_budget t part rem A :
  0 <= fpd_FetchOffset part ->
  (fetch_spec t part rem A).2 = rem \/ 0 <= (fetch_spec t part rem A).2 <= rem.
Proof.
  intros Hoff. unfold fetch_spec. cbv zeta. set (log := pl_active _).
  destruct (Z.eqb_spec (fpd_FetchOffset part) (zlen log)) as [|Hne]; [by left|].
  destruct (Z.ltb_spec (zlen log) (fpd_FetchOffset part)); [by left|].
  destruct (Z.leb_spec (Z.min rem (fpd_PartitionMaxBytes part)) 0); [by left|].
  set (n := Z.min (_ + 4) _). destruct (Z.ltb_spec n 4); [by left|]. right. simpl.
  unfold patch_payload. rewrite zlen_patch_loop by lia. rewrite zlen_slice by lia. lia.
Qed.

Lemma fetch_spec_fits t part rem A :
  0 <= fpd_FetchOffset part -> sfits 32 rem -> sfits 32 (fetch_spec t part rem A).2.
Proof. intros Hoff Hr. destruct (fetch_spec_budget t part rem A Hoff) as [->|]; [done|fits]. Qed.

Lemma fetch_partitions_refines max t parts h o A rem :
  handler_ok max h o A -> Forall (fetchable t) parts -> sfits 32 rem ->
  wp (fetch_partitions t parts rem) (fun r '(h', o') =>
    let '(ps, rem', A') := fetch_partitions_spec t parts rem A in
    r = Ok (ps, rem') /\ sfits 32 rem' /\ handler_ok max h' o' A') (h, o).
Proof.
  intros Hok Hparts. revert h o A rem Hok.
  induction Hparts as [|part parts (Hn & Hoff & Hmax & Hl) _ IH]; intros h o A rem Hok Hrem; simpl;
    [by apply wp_ret|].
  apply wp_bind. eapply wp_mono.
  { apply fetch_partition_refines; [done|]. split_and!; try done; lia. }
  intros r [h1 o1] [-> Hok1]. pose proof (fetch_spec_fits t part rem A (proj1 Hoff) Hrem) as Hrem1.
  destruct (fetch_spec t part rem A) as [p rem1]. simpl in Hrem1.
  apply wp_bind. eapply wp_mono; [by apply (IH h1 o1 _ rem1 Hok1)|]. intros r [h2 o2] H2.
  destruct (fetch_partitions_spec t parts rem1 _) as [[ps rem2] A2].
  destruct H2 as (-> & ? & ?). by apply wp_ret.
Qed.

Lemma fetch_topics_refines max topics h o A rem :
  handler_ok max h o A ->
  Forall (fun topic => Forall (fetchable (ftd_TopicName topic)) (ftd_Partitions topic)) topics ->
  sfits 32 rem ->
  wp (fetch_topics topics rem) (fun r '(h', o') =>
    let '(ts, rem', A') := fetch_topics_spec topics rem A in
    r = Ok (ts, rem') /\ handler_ok max h' o' A') (h, o).
Proof.
  intros Hok Htopics. revert h o A rem Hok.
  induction Htopics as [|topic topics Ht _ IH]; intros h o A rem Hok Hrem; simpl; [by apply wp_ret|].
  apply wp_bind. eapply wp_mono; [by apply fetch_partitions_refines|]. intros r [h1 o1] Hp.
  destruct (fetch_partitions_spec _ _ rem A) as [[ps rem1] A1]. destruct Hp as (-> & Hrem1 & Hok1).
  apply wp_bind. eapply wp_mono; [by apply (IH h1 o1 A1 rem1 Hok1)|]. intros r [h2 o2] H2.
  destruct (fetch_topics_spec topics rem1 A1) as [[ts rem2] A2]. destruct H2 as (-> & ?). by apply wp_ret.
Qed.

(** Fetches leave the logs and the committed offsets as they are. *)
Lemma fetch_partitions_spec_same t parts rem A :
  (forall tp, ab_log (fetch_partitions_spec t parts rem A).2 tp = ab_log A tp) /\
  ab_offsets (fetch_partitions_spec t parts rem A).2 = ab_offsets A.
Proof.
  revert rem A. induction parts as [|part parts IH]; intros rem A; simpl; [done|].
  destruct (fetch_spec _ part rem A) as [p rem1].
  specialize (IH rem1 (touch (t, fpd_Partition part) A)).
  destruct (fetch_partitions_spec _ parts rem1 _) as [[ps rem2] A2]. simpl in *.
  destruct IH as [IH1 ->]. split; [|done]. intros tp. by rewrite IH1, ab_log_touch.
Qed.

Lemma fetch_topics_spec_same topics rem A :
  (forall tp, ab_log (fetch_topics_spec topics rem A).2 tp = ab_log A tp) /\
  ab_offsets (fetch_topics_spec topics rem A).2 = ab_offsets A.
Proof.
  revert rem A. induction topics as [|topic topics IH]; intros rem A; simpl; [done|].
  destruct (fetch_partitions_spec_same (ftd_TopicName topic) (ftd_Partitions topic) rem A) as [Hp Hq].
  destruct (fetch_partitions_spec _ _ rem A) as [[ps rem1] A1]. destruct (IH rem1 A1) as [IH1 IH2].
  destruct (fetch_topics_spec topics rem1 A1) as [[ts rem2] A2]. simpl in *.
  split; [|congruence]. intros tp. by rewrite IH1.
Qed.

Definition fetch_request_spec (req : FetchRequest) (A : abroker) : FetchResponse * abroker :=
  let '(ts, _, A') := fetch_topics_spec (fr_Topics req) (fr_MaxBytes req) A in
  ({| frs_Topics := ts; frs_ThrottleTimeMs := 0 |}, A').

Lemma fetch_implements max : implements max fetch fetch_request_spec wf_fetch_request (fun _ => 0).
Proof.
  constructor; [intros req h o A Hok [Hm Hts] _|intros req A tp|done]; unfold fetch, fetch_request_spec.
  - apply wp_bind. eapply wp_mono; [by apply fetch_topics_refines|]. intros r [h1 o1] Hf.
    destruct (fetch_topics_spec _ _ A) as [[ts rem] A']. destruct Hf as [-> Hok1]. by apply wp_ret.
  - destruct (fetch_topics_spec_same (fr_Topics req) (fr_MaxBytes req) A) as [E _].
    destruct (fetch_topics_spec _ _ A) as [[ts rem] A']. simpl in *. rewrite E. lia.
Qed.


(** ** Produce, then fetch *)

(** A batch that fills its record exactly, as producers send it. *)
Definition whole_batch (batch : list byte) (count : Z) : Prop :=
  ValidateRecordBatch batch = Ok count /\ 0 <= count /\
  rbMinBytes <= zlen batch < 2 ^ 31 - 4 /\ declared_total batch = zlen batch.

(** The last record of a log. *)
Lemma fetch_last_record t p off cap rem batch A log :
  pl_active (ab_log A (t, p)) = log ++ frame batch -> off = zlen log ->
  0 < zlen batch <= Z.min rem cap ->
  fetch_spec t {| fpd_FetchOffset := off; fpd_Partition := p; fpd_PartitionMaxBytes := cap |} rem A =
  ({| fpr_RecordBatch := Some (Rd (patch_payload off batch) EOF);
      fpr_HighWatermark := off + zlen (frame batch); fpr_BatchSize := zlen batch;
      fpr_Partition := p; fpr_ErrorCode := ErrCodeNone |}, rem - zlen batch).
Proof.
  intros HL -> Hb. unfold fetch_spec. cbn [fpd_FetchOffset fpd_Partition fpd_PartitionMaxBytes].
  rewrite HL, zlen_app, zlen_frame. pose proof (zlen_nonneg log).
  rewrite (proj2 (Z.eqb_neq _ _)), (proj2 (Z.ltb_ge _ (zlen log))), (proj2 (Z.leb_gt _ 0)) by lia.
  replace (Z.min _ (zlen log + (4 + zlen batch) - zlen log)) with (4 + zlen batch) by lia.
  rewrite (proj2 (Z.ltb_ge _ 4)) by lia. cbv zeta.
  assert (Hs : slice (zlen log + 4) (zlen log + (4 + zlen batch)) (log ++ frame batch) = batch).
  { pose proof (slice_mid (log ++ be_put 4 (zlen batch)) batch []) as Hm.
    rewrite app_nil_r, <- app_assoc in Hm. unfold frame.
    replace (zlen (log ++ be_put 4 (zlen batch))) with (zlen log + 4) in Hm by zlen_lia.
    by replace (zlen log + (4 + zlen batch)) with (zlen log + 4 + zlen batch) by lia. }
  rewrite Hs. unfold patch_payload. by rewrite zlen_patch_loop by lia.
Qed.

Lemma plog_append_last max p L off L' :
  plog_append max p L = (Ok off, L') ->
  exists log, pl_active L' = log ++ frame p /\ off = zlen log.
Proof.
  unfold plog_append. cbv zeta. destruct (_ <=? max); [intros [= <- <-]; by eexists|].
  destruct (_ <=? max); [intros [= <- <-]; by exists []|done].
Qed.


(** ** Error behaviour *)

(** A batch that does not validate is answered with the corrupt-message code
    before anything happens to the broker, its files or its metrics. *)
Theorem corrupt_batch_leaves_no_trace t part err x :
  0 < zlen (ppd_RecordBatch part) -> ValidateRecordBatch (ppd_RecordBatch part) = Err err ->
  produce_partition t part x =
    (Ok {| ppr_BaseOffset := -1; ppr_Partition := ppd_Partition part;
           ppr_ErrorCode := ErrCodeCorruptMessage |}, x).
Proof.
  intros Hz Hv. unfold produce_partition. rewrite (proj2 (Z.ltb_lt _ _)), Hv by done. done.
Qed.

(** A batch whose checksum is right but whose record count is negative is
    stored, and then brings the whole broker down: the counter of produced
    messages panics. *)
Theorem negative_record_count_panics max h o A t p batch count :
  handler_ok max h o A -> nameable t p -> label_ok t -> zlen batch < 2 ^ 32 ->
  ValidateRecordBatch batch = Ok count -> count < 0 -> 0 < zlen batch ->
  zlen (frame batch) <= max -> room (zlen (frame batch)) A ->
  exists pn h' o', produce_partition t {| ppd_RecordBatch := batch; ppd_Partition := p |} (h, o) =
    (Panic pn, (h', o')) /\
    broker_ok (h_store h') o' (<[(t, p) := (plog_append max batch (ab_log A (t, p))).2]> (ab_logs A)).
Proof.
  intros Hok Hn Hl Hz Hv Hneg Hpos Hfits Hroom.
  assert (Hwp : wp (produce_partition t {| ppd_RecordBatch := batch; ppd_Partition := p |})
    (fun r '(h', o') => (exists pn, r = Panic pn) /\
       broker_ok (h_store h') o' (<[(t, p) := (plog_append max batch (ab_log A (t, p))).2]> (ab_logs A))) (h, o)).
  { unfold produce_partition. cbn [ppd_RecordBatch ppd_Partition].
    rewrite (proj2 (Z.ltb_lt _ _)), Hv by done. apply wp_bind, wp_try, wp_lift, wp_bind.
    eapply wp_get_partition; [done..|]. intros h1 o1 Hok1 Hin1.
    apply wp_bind. unfold wp at 1, Now. cbn [fst snd]. apply wp_bind, wp_try.
    eapply (wp_on_log max h1 o1 (touch (t, p) A) t p _ (fun r L _ => (exists off, r = Ok off) /\
      L = (plog_append max batch (ab_log A (t, p))).2)); [done..| |].
    { intros ps Hps Hm Hmax. rewrite ab_log_touch in Hps. specialize (Hroom (t, p)). unfold pl_end in Hroom.
      eapply wp_mono; [apply (PartitionStore_Append_refines ps o1 _ batch Hps); lia|].
      rewrite Hm. intros r [ps' o'] (-> & ? & ? & ? & ?). eexists. split_and!; try done.
      unfold plog_append. cbv zeta. destruct (_ <=? max); [by eexists|].
      rewrite (proj2 (Z.leb_le _ _)) by done. by eexists. }
    intros r L h2 o2 [[off ->] ->] Hok2 _. rewrite set_ab_log_touch in Hok2. apply wp_bind.
    eapply wp_on_metrics; [done|intros; by apply on_metric_ok, histogram_Observe_ok|].
    intros h3 [Hb3 _ _]. apply wp_bind. unfold wp, on_metrics, produced_Add, on_metric. cbn [fst snd].
    destruct (counter_Add_negative t count (MessagesProducedTotal (h_metrics h3)) Hneg) as [pn Hpn].
    destruct (counter_Add _ _ _) as [r v]. simpl in *. subst r. simpl. split; [by eexists|done]. }
  unfold wp in Hwp. destruct (produce_partition _ _ (h, o)) as [r [h' o']].
  destruct Hwp as [[pn Hr] Hb]. simpl in Hr. subst r. by exists pn, h', o'.
Qed.

(** A client that allows (almost) the largest possible response gets none: four
    bytes are added to the limit at the width of [int32], the sum is negative,
    and the partition is reported out of range although the offset is valid. *)
Theorem fetch_limit_overflow max h o A t p off pmax rem :
  handler_ok max h o A -> nameable t p -> room 0 A ->
  0 <= off < zlen (pl_active (ab_log A (t, p))) ->
  2 ^ 31 - 4 <= Z.min rem pmax < 2 ^ 31 ->
  exists h' o',
    fetch_partition t {| fpd_FetchOffset := off; fpd_Partition := p; fpd_PartitionMaxBytes := pmax |} rem (h, o) =
    (Ok ({| fpr_RecordBatch := None; fpr_HighWatermark := zlen (pl_active (ab_log A (t, p)));
            fpr_BatchSize := -1; fpr_Partition := p; fpr_ErrorCode := ErrCodeOffsetOutOfRange |}, rem), (h', o')).
Proof.
  intros Hok Hn Hroom Hoff Hcap. pose proof (handler_base _ _ _ _ _ _ Hok Hn) as Hbase.
  specialize (Hroom (t, p)). unfold pl_end in Hroom. set (log := pl_active (ab_log A (t, p))) in *.
  set (part := {| fpd_FetchOffset := off; fpd_Partition := p; fpd_PartitionMaxBytes := pmax |}).
  set (resp := {| fpr_RecordBatch := None; fpr_HighWatermark := zlen log; fpr_BatchSize := -1;
                  fpr_Partition := p; fpr_ErrorCode := ErrCodeOffsetOutOfRange |}).
  assert (Hwp : wp (fetch_partition t part rem) (fun r _ => r = Ok (resp, rem)) (h, o)).
  { unfold fetch_partition. cbn [fpd_FetchOffset fpd_Partition fpd_PartitionMaxBytes part].
    apply wp_bind. eapply wp_get_partition; [done..|]. intros h1 o1 Hok1 Hin1. apply wp_bind.
    eapply (wp_on_log max h1 o1 _ t p _ (fun r L _ => r = Ok (zlen log) /\ L = ab_log A (t, p))); [done..| |].
    { intros ps Hps _ _. rewrite ab_log_touch in Hps. apply wp_get_st. eexists. split_and!; try done.
      unfold PartitionStore_Size, Segment_Size.
      destruct (po_active _ _ _ Hps) as (Hs & _). by rewrite (so_size _ _ _ Hs). }
    intros r L h2 o2 (-> & ->) Hok2 Hin2. rewrite <- (ab_log_touch (t, p)), set_ab_log_id in Hok2.
    rewrite (proj2 (Z.eqb_neq _ _)), (proj2 (Z.ltb_ge _ _)) by lia. cbv zeta.
    replace (if rem <? pmax then rem else pmax) with (Z.min rem pmax)
      by (destruct (Z.ltb_spec rem pmax); lia).
    rewrite (proj2 (Z.leb_gt _ _)) by lia. set (cap := Z.min rem pmax) in *.
    assert (Hw : i32 (cap + recHdr) = cap + 4 - 2 ^ 32) by (apply swrap_over; unfold recHdr; lia).
    assert (Ho : u64 off = off) by (apply uwrap_id; fits). rewrite Hw, Ho. apply wp_bind, wp_try.
    eapply (wp_on_log max h2 o2 _ t p _ (fun r L _ => exists e, r = Err e)); [done..| |].
    { intros ps Hps _ _. rewrite ab_log_touch in Hps.
      eapply wp_mono; [apply (PartitionStore_Read_refines ps o2 _ off (cap + 4 - 2 ^ 32) Hps); [lia|fits]|].
      unfold plog_read. fold log. rewrite (proj2 (Z.leb_gt _ _)) by lia. cbv zeta.
      rewrite (proj2 (Z.leb_le _ 0)) by lia. intros r [ps' o'] (-> & ? & ? & ? & ?).
      eexists. split_and!; try done. by eexists. }
    intros r L h3 o3 [e ->] Hok3 _. by apply wp_ret. }
  unfold wp in Hwp. destruct (fetch_partition t part rem (h, o)) as [r [h' o']]. simpl in Hwp.
  subst r. by exists h', o'.
Qed.
End handler_spec.

(** ** Instances *)

Definition sample_hcfg : SegmentConfig := MkSegmentConfig 1000 0.

(** A new broker over the empty directory [/d], with segments of 1000 bytes. *)
Definition sample_handler : Handler * os :=
  match OpenBrokerStore (gos "/d") sample_hcfg sample_os with
  | (Ok bs, o) => (NewHandler bs New, o)
  | (_, o) => (NewHandler (MkBrokerStore [] sample_hcfg ∅) New, o)
  end.

Lemma sample_handler_ok : handler_ok 1000 sample_handler.1 sample_handler.2 (ABroker ∅ ∅).
Proof.
  destruct (OpenBrokerStore_stored (gos "/d") sample_hcfg sample_os ∅) as (bs & o & E & ? & Hc & ?).
  - apply fresh_root_stored; concrete.
  - unfold sample_handler. rewrite E. clear E. constructor; simpl; [done|by rewrite Hc|done].
Qed.

Lemma sample_room n : n < 2 ^ 62 -> room n (ABroker ∅ ∅).
Proof. intros Hn tp. unfold ab_log, log_of, pl_end. cbn [ab_logs]. rewrite lookup_empty. simpl. exact Hn. Qed.

(** A valid batch for one partition and a corrupt one for another. *)
Definition sample_produce_req : ProduceRequest :=
  {| pr_Header := {| rh_Size := 0; rh_ApiKey := 0; rh_ApiVersion := 0; rh_CorrelationID := 1; rh_ClientID := [] |};
     pr_Acks := 1; pr_TimeoutMs := 0;
     pr_Topics := [{| ptd_TopicName := gos "sensors";
       ptd_Partitions := [{| ppd_RecordBatch := sample_batch; ppd_Partition := 0 |};
                          {| ppd_RecordBatch := gos "junk"; ppd_Partition := 1 |}] |}] |}.

Lemma sample_produce_req_wf : wf_produce_request sample_produce_req.
Proof.
  apply Forall_singleton. apply Forall_cons_2; [|apply Forall_singleton];
    (split; [concrete|]); (split; [concrete|]); (split; [|exact I]); intros _.
  - assert (E : ValidateRecordBatch sample_batch = Ok 2) by (vm_compute; reflexivity).
    cbn [ppd_RecordBatch]. rewrite E. lia.
  - vm_compute. exact I.
Qed.


Definition sample_fetch_req : FetchRequest :=
  {| fr_Header := pr_Header sample_produce_req; fr_ReplicaID := -1; fr_MaxWaitMs := 0; fr_MinBytes := 0;
     fr_MaxBytes := 1000; fr_IsolationLevel := 0;
     fr_Topics := [{| ftd_TopicName := gos "sensors";
       ftd_Partitions := [{| fpd_FetchOffset := 0; fpd_Partition := 0; fpd_PartitionMaxBytes := 500 |};
                          {| fpd_FetchOffset := 7; fpd_Partition := 1; fpd_PartitionMaxBytes := 500 |}] |}] |}.



Lemma corrupt_batch_leaves_no_trace_witness :
  produce_partition (gos "t") {| ppd_RecordBatch := gos "junk"; ppd_Partition := 1 |}
    (sample_handler.1, sample_handler.2) =
  (Ok {| ppr_BaseOffset := -1; ppr_Partition := 1; ppr_ErrorCode := ErrCodeCorruptMessage |},
   (sample_handler.1, sample_handler.2)).
Proof.
  eapply (corrupt_batch_leaves_no_trace (gos "t") {| ppd_RecordBatch := gos "junk"; ppd_Partition := 1 |}).
  - concrete.
  - vm_compute. reflexivity.
Defined.

(** A batch with a right checksum and a record count of -1. *)
Definition negative_batch : list byte :=
  make_batch 0 (splice (rbOffsetRecordsCount - rbOffsetCRCBody) (be_put 4 (2 ^ 32 - 1)) sample_body).

Lemma negative_record_count_panics_witness :
  exists pn h' o', produce_partition (gos "t") {| ppd_RecordBatch := negative_batch; ppd_Partition := 0 |}
      (sample_handler.1, sample_handler.2) = (Panic pn, (h', o')) /\
    broker_ok (h_store h') o'
      (<[(gos "t", 0) := (plog_append 1000 negative_batch (ab_log (ABroker ∅ ∅) (gos "t", 0))).2]> ∅).
Proof.
  apply (negative_record_count_panics 1000 sample_handler.1 sample_handler.2 (ABroker ∅ ∅) (gos "t") 0
           negative_batch (-1)).
  - exact sample_handler_ok.
  - concrete.
  - exact I.
  - concrete.
  - vm_compute. reflexivity.
  - lia.
  - concrete.
  - concrete.
  - apply sample_room. vm_compute. reflexivity.
Defined.

(** The broker with one batch stored. *)
Definition sample_stored : Handler * os :=
  (produce_partition (gos "t") {| ppd_RecordBatch := sample_batch; ppd_Partition := 0 |}
    (sample_handler.1, sample_handler.2)).2.
Definition sample_stored_logs : abroker :=
  (produce_spec 1000 (gos "t") {| ppd_RecordBatch := sample_batch; ppd_Partition := 0 |} (ABroker ∅ ∅)).2.

Lemma sample_stored_ok : handler_ok 1000 sample_stored.1 sample_stored.2 sample_stored_logs.
Proof.
  assert (Hwf : wf_produce_part (gos "t") {| ppd_RecordBatch := sample_batch; ppd_Partition := 0 |}).
  { split_and!; [concrete..| |exact I]. intros _. cbn [ppd_RecordBatch].
    assert (E : ValidateRecordBatch sample_batch = Ok 2) by (vm_compute; reflexivity). rewrite E. lia. }
  pose proof (produce_partition_refines 1000 _ _ _ (gos "t") _ sample_handler_ok Hwf) as Hp.
  unfold wp, sample_stored in *. destruct (produce_partition _ _ (sample_handler.1, sample_handler.2)) as [r [h o]].
  apply Hp. vm_compute. reflexivity.
Qed.

Lemma fetch_limit_overflow_witness :
  exists h' o',
    fetch_partition (gos "t") {| fpd_FetchOffset := 0; fpd_Partition := 0; fpd_PartitionMaxBytes := 2147483647 |}
      2147483647 (sample_stored.1, sample_stored.2) =
    (Ok ({| fpr_RecordBatch := None;
            fpr_HighWatermark := zlen (pl_active (ab_log sample_stored_logs (gos "t", 0)));
            fpr_BatchSize := -1; fpr_Partition := 0; fpr_ErrorCode := ErrCodeOffsetOutOfRange |}, 2147483647), (h', o')).
Proof.
  apply (fetch_limit_overflow 1000 sample_stored.1 sample_stored.2 sample_stored_logs (gos "t") 0 0).
  - exact sample_stored_ok.
  - concrete.
  - intros tp. assert (E : sample_stored_logs = set_ab_log (gos "t", 0) (PLog [] 0 (frame sample_batch)) (ABroker ∅ ∅))
      by (vm_compute; reflexivity).
    rewrite E. unfold ab_log, set_ab_log. simpl. rewrite log_of_insert.
    case_decide; [concrete|]. unfold log_of. rewrite lookup_empty. concrete.
  - concrete.
  - concrete.
Defined.
