(* ===== verification/CatalogueSpec.v ===== *)
(** * Metadata and list-offsets requests against the abstract broker *)

From stdpp Require Import base tactics list numbers gmap strings.
From Stdlib Require Import ZArith Lia.
From S2P Require Import Prelude GoIO GoStrings Wire Requests Responses RecordBatch OSFile.
From S2P Require Import LogIndex LogSegment SegmentSpec LogStore.
From S2P Require Import BrokerStore BrokerSpec Metrics Handler HandlerSpec.
#[local] Open Scope Z_scope.

(** ** Grouping by topic *)

(** The topic-partitions of a grouping. *)
Definition flatten_groups (gs : list (gostring * list Z)) : list tpart :=
  gs ≫= fun g => pair g.1 <$> g.2.

#[global] Instance flatten_groups_perm : Proper ((≡ₚ) ==> (≡ₚ)) flatten_groups.
Proof. intros gs gs' E. unfold flatten_groups. by rewrite E. Qed.

Lemma flatten_insert (m : gmap gostring (list Z)) t p :
  flatten_groups (map_to_list (<[t := default [] (m !! t) ++ [p]]> m)) ≡ₚ
  flatten_groups (map_to_list m) ++ [(t, p)].
Proof.
  destruct (m !! t) as [ps|] eqn:E; simpl.
  - rewrite <- (insert_delete_eq m t (ps ++ [p])), map_to_list_insert by apply lookup_delete_eq.
    rewrite <- (insert_delete_id m t ps) at 2 by done.
    rewrite map_to_list_insert by apply lookup_delete_eq. unfold flatten_groups. simpl.
    rewrite fmap_app. simpl. rewrite <- !app_assoc. apply Permutation_app_head.
    by rewrite Permutation_app_comm.
  - rewrite map_to_list_insert by done. unfold flatten_groups. simpl.
    by rewrite (Permutation_app_comm _ [(t, p)]).
Qed.

Lemma flatten_group_by_topic tps :
  flatten_groups (map_to_list (group_by_topic tps)) ≡ₚ (fun tp => (tp_Topic tp, tp_Partition tp)) <$> tps.
Proof.
  unfold group_by_topic.
  assert (Hm : forall (m : gmap gostring (list Z)),
    flatten_groups (map_to_list (fold_left (fun byTopic tp =>
      <[tp_Topic tp := default [] (byTopic !! tp_Topic tp) ++ [tp_Partition tp]]> byTopic) tps m)) ≡ₚ
    flatten_groups (map_to_list m) ++ ((fun tp => (tp_Topic tp, tp_Partition tp)) <$> tps)).
  { induction tps as [|tp tps IH]; intros m; simpl; [by rewrite app_nil_r|].
    rewrite IH, flatten_insert. by rewrite <- app_assoc. }
  rewrite Hm, map_to_list_empty. done.
Qed.

(** The topic-partitions a metadata response lists. *)
Definition listed (resp : MetadataResponse) : list tpart :=
  mrs_Topics resp ≫= fun t => (fun p => (tm_Name t, pm_Partition p)) <$> tm_Partitions t.

Lemma listed_groups (gs : list (gostring * list Z)) :
  ((fun '(t, ps) => topic_metadata t ps) <$> gs) ≫=
    (fun t => (fun p => (tm_Name t, pm_Partition p)) <$> tm_Partitions t) = flatten_groups gs.
Proof.
  unfold flatten_groups. induction gs as [|[t ps] gs IH]; [done|].
  rewrite fmap_cons, !bind_cons, IH. f_equal. simpl. by rewrite <- list_fmap_compose.
Qed.

Section catalogue.
Context `{Prometheus} `{!PrometheusOk} `{MapOrder} (Getenv : gostring -> gostring).

(** ** Metadata *)

Definition touch_all (ts : list gostring) (A : abroker) : abroker :=
  fold_left (fun A t => touch (t, 0) A) ts A.

Lemma create_topics max ts h o A :
  handler_ok max h o A -> Forall (fun t => nameable t 0) ts ->
  wp (range_st (fun t => _ ← try_st (on_store (GetOrCreatePartition t 0)); mret tt) ts)
    (fun r '(h', o') => r = Ok tt /\ handler_ok max h' o' (touch_all ts A)) (h, o).
Proof.
  intros Hok Hts. revert h o A Hok. induction Hts as [|t ts Ht _ IH]; intros h o A Hok; simpl;
    [by apply wp_ret|].
  apply wp_bind, wp_bind. eapply wp_get_partition; [done..|]. intros h1 o1 Hok1 _.
  apply wp_ret. by apply IH.
Qed.

(** A metadata request creates the topics it names, and its response lists
    every partition of the broker exactly once, each topic under one entry,
    whatever the order in which Go ranges over its maps. *)
Theorem metadata_complete max h o A req :
  handler_ok max h o A -> Forall (fun t => nameable t 0) (mr_Topics req) ->
  let '(r, (h', o')) := metadata Getenv req (h, o) in
  let A' := touch_all (mr_Topics req) A in
  exists resp, r = Ok resp /\ handler_ok max h' o' A' /\
    listed resp ≡ₚ (map_to_list (ab_logs A')).*1 /\ NoDup (tm_Name <$> mrs_Topics resp).
Proof.
  intros Hok Hts. pose proof (create_topics max _ h o A Hok Hts) as Hc. unfold wp in Hc.
  unfold metadata, mbind, st_bind. destruct (range_st _ _ (h, o)) as [r [h1 o1]].
  cbn [fst snd] in Hc. destruct Hc as [-> Hok1]. unfold get_st, mret, st_ret. cbv zeta.
  eexists. split; [done|]. split; [done|]. simpl. set (tps := Topics (h_store h1)).
  pose proof (map_range_perm (group_by_topic tps)) as Hp. split.
  - unfold listed. cbn [mrs_Topics]. rewrite listed_groups, Hp, flatten_group_by_topic.
    unfold tps. rewrite (Topics_perm _ _ _ (ho_broker _ _ _ _ Hok1)), <- list_fmap_compose.
    rewrite (list_fmap_ext _ id); [by rewrite list_fmap_id|]. by intros ? [].
  - assert (Hn : tm_Name <$> ((fun '(t, ps) => topic_metadata t ps) <$> map_range (group_by_topic tps)) =
      (map_range (group_by_topic tps)).*1).
    { rewrite <- list_fmap_compose. apply list_fmap_ext. by intros ? []. }
    rewrite Hn, Hp. apply NoDup_fst_map_to_list.
Qed.

(** ** List offsets *)

(** The latest offset is the end of the partition's active segment. *)
Definition list_offsets_spec (t : gostring) (part : ListOffsetsPartitionRequest) (A : abroker)
  : ListOffsetsPartitionResponse * abroker :=
  let resp off := {| lopr_Partition := lop_Partition part; lopr_ErrorCode := 0; lopr_Timestamp := -1;
                     lopr_Offset := off |} in
  let tp := (t, lop_Partition part) in
  if lop_Timestamp part =? TimestampLatest then (resp (zlen (pl_active (ab_log A tp))), touch tp A)
  else (resp 0, A).

Lemma list_offsets_implements max t :
  implements max (list_offsets_partition t) (list_offsets_spec t)
    (fun part => nameable t (lop_Partition part)) (fun _ => 0).
Proof.
  constructor; [|intros part A tp|done].
  - intros part h o A Hok Hn _. unfold list_offsets_partition, list_offsets_spec. cbv zeta.
    destruct (Z.eqb_spec (lop_Timestamp part) TimestampEarliest) as [->|]; [by apply wp_ret|].
    destruct (lop_Timestamp part =? TimestampLatest); [|by apply wp_ret].
    apply wp_bind. eapply wp_get_partition; [done..|]. intros h1 o1 Hok1 Hin1. apply wp_bind.
    set (tp := (t, lop_Partition part)) in *.
    apply (wp_log_size max h1 o1 A t (lop_Partition part) _ Hok1 Hn Hin1). intros h2 o2 Hok2 _ _. by apply wp_ret.
  - unfold list_offsets_spec. cbv zeta. destruct (_ =? _); simpl; rewrite ?ab_log_touch; lia.
Qed.

(** List-offsets answers the latest offset with the partition's high watermark,
    from which a fetch finds nothing yet, and any other timestamp with zero. *)
Theorem latest_offset_is_caught_up max h o A t p cap rem :
  handler_ok max h o A -> nameable t p -> label_ok t -> sfits 32 rem -> cap < 2 ^ 31 - 4 ->
  room 0 A ->
  exists off h1 o1 h2 o2,
    list_offsets_partition t {| lop_Partition := p; lop_Timestamp := TimestampLatest |} (h, o) =
      (Ok {| lopr_Partition := p; lopr_ErrorCode := 0; lopr_Timestamp := -1; lopr_Offset := off |}, (h1, o1)) /\
    fetch_partition t {| fpd_FetchOffset := off; fpd_Partition := p; fpd_PartitionMaxBytes := cap |} rem (h1, o1) =
      (Ok ({| fpr_RecordBatch := None; fpr_HighWatermark := off; fpr_BatchSize := -1;
              fpr_Partition := p; fpr_ErrorCode := ErrCodeNone |}, rem), (h2, o2)).
Proof.
  intros Hok Hn Hl Hrem Hcap Hroom.
  pose proof (im_call _ _ _ _ _ (list_offsets_implements max t)
    {| lop_Partition := p; lop_Timestamp := TimestampLatest |} h o A Hok Hn Hroom) as Hlo.
  unfold wp in Hlo. destruct (list_offsets_partition _ _ (h, o)) as [r [h1 o1]].
  cbn [fst snd] in Hlo. destruct Hlo as [-> Hok1]. unfold list_offsets_spec in *. simpl in *.
  set (off := zlen (pl_active (ab_log A (t, p)))) in *.
  pose proof (handler_base _ _ _ _ _ _ Hok Hn). specialize (Hroom (t, p)). unfold pl_end in Hroom.
  pose proof (zlen_nonneg (pl_active (ab_log A (t, p)))).
  pose proof (fetch_partition_refines max h1 o1 _ t
    {| fpd_FetchOffset := off; fpd_Partition := p; fpd_PartitionMaxBytes := cap |} rem Hok1) as Hf.
  unfold wp in Hf. destruct (fetch_partition _ _ rem (h1, o1)) as [r [h2 o2]] eqn:E.
  destruct Hf as [Hr _]; [split_and!; simpl; try done; lia|]. cbn [fst] in Hr. subst r.
  exists off, h1, o1, h2, o2. split; [done|]. rewrite E. unfold fetch_spec.
  cbn [fpd_FetchOffset fpd_Partition]. rewrite ab_log_touch. fold off. by rewrite Z.eqb_refl.
Qed.
End catalogue.

(** ** Instances *)

Definition no_env (_ : gostring) : gostring := [].

Definition sample_metadata_req : MetadataRequest :=
  {| mr_Header := pr_Header sample_produce_req; mr_Topics := [gos "a"; gos "b"] |}.

Lemma metadata_complete_witness :
  let '(r, (h', o')) := metadata (H0 := insertion_order) no_env sample_metadata_req
                          (sample_handler.1, sample_handler.2) in
  let A' := touch_all [gos "a"; gos "b"] (ABroker ∅ ∅) in
  exists resp, r = Ok resp /\ handler_ok 1000 h' o' A' /\
    listed resp ≡ₚ (map_to_list (ab_logs A')).*1 /\ NoDup (tm_Name <$> mrs_Topics resp).
Proof.
  apply (metadata_complete (H1 := insertion_order) no_env 1000 sample_handler.1 sample_handler.2
           (ABroker ∅ ∅) sample_metadata_req).
  - exact sample_handler_ok.
  - unfold sample_metadata_req. concrete.
Defined.

Lemma latest_offset_is_caught_up_witness :
  exists off h1 o1 h2 o2,
    list_offsets_partition (gos "a") {| lop_Partition := 0; lop_Timestamp := TimestampLatest |}
      (sample_handler.1, sample_handler.2) =
      (Ok {| lopr_Partition := 0; lopr_ErrorCode := 0; lopr_Timestamp := -1; lopr_Offset := off |}, (h1, o1)) /\
    fetch_partition (gos "a") {| fpd_FetchOffset := off; fpd_Partition := 0; fpd_PartitionMaxBytes := 100 |} 100
      (h1, o1) =
      (Ok ({| fpr_RecordBatch := None; fpr_HighWatermark := off; fpr_BatchSize := -1;
              fpr_Partition := 0; fpr_ErrorCode := ErrCodeNone |}, 100), (h2, o2)).
Proof.
  apply (latest_offset_is_caught_up 1000 sample_handler.1 sample_handler.2 (ABroker ∅ ∅) (gos "a") 0 100 100).
  - exact sample_handler_ok.
  - concrete.
  - exact I.
  - concrete.
  - concrete.
  - apply sample_room. lia.
Defined.
