(* ===== verification/CommitSpec.v ===== *)
(** * Committed offsets

    What offset commits and fetches mean for the abstract broker; that requests
    served one after the other keep the cache what a replay of the
    [__consumer_offsets] log gives; and that a restarted broker loads it back
    from there. *)

From stdpp Require Import base tactics list numbers gmap strings.
From Stdlib Require Import ZArith Lia.
From S2P Require Import Prelude GoIO GoStrings Wire Requests Responses RecordBatch OSFile.
From S2P Require Import LogIndex LogSegment SegmentSpec LogStore OffsetRecords FetchPatch.
From S2P Require Import BrokerStore BrokerSpec Metrics Handler HandlerSpec.
#[local] Open Scope Z_scope.

(** The partition that holds the committed offsets. *)
Definition offsets_tp : tpart := (ConsumerOffsetsTopic, 0).

Lemma offsets_nameable : nameable ConsumerOffsetsTopic 0.
Proof. concrete. Qed.

Lemma zlen_offset_record k off :
  zlen (offset_record k off) = 24 + zlen (ck_GroupID k) + zlen (ck_Topic k).
Proof. unfold offset_record, encodeOffsetRecord, encodeOffsetKey. zlen_lia. Qed.

Section commit_spec.
Context `{Prometheus} `{!PrometheusOk} `{MapOrder}.

(** ** Commit *)

(** The meaning of a commit: the record is appended, then the offset counts. *)
Definition commit_spec (max : Z) (g t : gostring) (part : OffsetCommitPartition) (A : abroker)
  : OffsetCommitPartitionResponse * abroker :=
  let resp code := {| ocpr_Partition := ocp_Partition part; ocpr_ErrorCode := code |} in
  let k := MkOffsetCacheKey g t (ocp_Partition part) in
  match plog_append max (offset_record k (ocp_CommittedOffset part)) (ab_log A offsets_tp) with
  | (Ok _, L) =>
      (resp 0, ABroker (<[offsets_tp := L]> (ab_logs A)) (<[k := ocp_CommittedOffset part]> (ab_offsets A)))
  | (_, L) => (resp 1, set_ab_log offsets_tp L A)
  end.

Definition wf_commit_part (g t : gostring) (part : OffsetCommitPartition) : Prop :=
  wf_cache_key (MkOffsetCacheKey g t (ocp_Partition part)) /\ sfits 64 (ocp_CommittedOffset part).

Definition commit_part_bytes (g t : gostring) : Z := 28 + zlen g + zlen t.

Lemma commit_partition_implements max g t :
  implements max (commit_partition g t) (commit_spec max g t) (wf_commit_part g t)
    (fun _ => commit_part_bytes g t).
Proof.
  constructor.
  - intros part h o A Hok [Hwf Hoff] Hroom. specialize (Hroom offsets_tp).
    unfold commit_part_bytes, pl_end in Hroom.
    unfold commit_partition, commit_spec. cbv zeta. set (k := MkOffsetCacheKey _ _ _) in *.
    set (rec := offset_record k (ocp_CommittedOffset part)).
    assert (Hz : zlen rec = 24 + zlen g + zlen t) by (unfold rec; by rewrite zlen_offset_record).
    destruct Hwf as (Hg & Ht & _). simpl in Hg, Ht. pose proof (zlen_frame rec).
    apply wp_bind. eapply wp_get_partition; [done|apply offsets_nameable|].
    intros h1 o1 Hok1 Hin1. apply wp_bind, wp_try.
    eapply (wp_on_log max h1 o1 _ ConsumerOffsetsTopic 0 _ (fun r L _ =>
      r = (plog_append max rec (ab_log A offsets_tp)).1 /\ L = (plog_append max rec (ab_log A offsets_tp)).2));
      [done|apply offsets_nameable|done| |].
    { intros ps Hps Hm Hmax. rewrite ab_log_touch in Hps.
      eapply wp_mono; [apply (PartitionStore_Append_refines ps o1 _ rec Hps); fold offsets_tp; lia|].
      rewrite Hm. intros r [ps' o'] (-> & ? & ? & ? & ?). eexists. by split_and!. }
    intros r L h2 o2 [-> ->] Hok2 _. fold offsets_tp in Hok2. rewrite set_ab_log_touch in Hok2.
    pose proof (handler_base _ _ _ _ _ _ Hok offsets_nameable) as Hbase. fold offsets_tp in Hbase.
    destruct (plog_append max rec (ab_log A offsets_tp)) as [r L] eqn:Ea. cbn [fst snd] in *.
    assert (Hlim : pl_end (ab_log A offsets_tp) < 2 ^ 62)
      by (pose proof (zlen_nonneg g); pose proof (zlen_nonneg t); unfold pl_end; lia).
    pose proof (plog_append_offset _ _ _ _ _ Ea Hlim Hbase) as Hr.
    destruct r as [off|e|]; [| |done]; [|by apply wp_ret].
    apply wp_bind, wp_put_st, wp_ret. split; [done|]. destruct Hok2 as [Hb Hm Hc].
    constructor; simpl in *; [done|done|by rewrite Hc].
  - intros part A tp. unfold commit_spec. cbv zeta. set (k := MkOffsetCacheKey _ _ _) in *.
    set (rec := offset_record k (ocp_CommittedOffset part)).
    pose proof (plog_step_end max (PAppend rec) (ab_log A offsets_tp)) as Hs. simpl in Hs.
    assert (Hz : zlen (frame rec) = commit_part_bytes g t).
    { rewrite zlen_frame. unfold rec, commit_part_bytes. rewrite zlen_offset_record. simpl. lia. }
    pose proof (zlen_nonneg (frame rec)). destruct (plog_append max rec _) as [r L]. simpl in Hs.
    destruct r; unfold ab_log, set_ab_log in *; simpl; rewrite log_of_insert; case_decide; subst; lia.
  - intros _. pose proof (zlen_nonneg g). pose proof (zlen_nonneg t). unfold commit_part_bytes. lia.
Qed.

Definition commit_topic_spec (max : Z) (g : gostring) (topic : OffsetCommitTopic) (A : abroker)
  : OffsetCommitTopicResponse * abroker :=
  let '(ps, A) := amap (commit_spec max g (oct_TopicName topic)) (oct_Partitions topic) A in
  ({| octr_TopicName := oct_TopicName topic; octr_Partitions := ps |}, A).

Definition commit_request_spec (max : Z) (req : OffsetCommitRequest) (A : abroker)
  : OffsetCommitResponse * abroker :=
  let '(ts, A) := amap (commit_topic_spec max (oc_GroupID req)) (oc_Topics req) A in
  ({| ocr_Topics := ts |}, A).

Definition wf_commit_request (req : OffsetCommitRequest) : Prop :=
  Forall (fun topic => Forall (wf_commit_part (oc_GroupID req) (oct_TopicName topic)) (oct_Partitions topic))
    (oc_Topics req).

Definition commit_topic_bytes (g : gostring) (topic : OffsetCommitTopic) : Z :=
  total (fun _ => commit_part_bytes g (oct_TopicName topic)) (oct_Partitions topic).

Definition commit_bytes (req : OffsetCommitRequest) : Z :=
  total (commit_topic_bytes (oc_GroupID req)) (oc_Topics req).

Lemma commit_topic_implements max g :
  implements max (commit_topic g) (commit_topic_spec max g)
    (fun topic => Forall (wf_commit_part g (oct_TopicName topic)) (oct_Partitions topic))
    (commit_topic_bytes g).
Proof.
  constructor.
  - intros [name parts] h o A Hok Hwf Hroom. unfold commit_topic, commit_topic_spec. simpl in *.
    apply wp_bind. eapply wp_mono.
    { by apply (im_call _ _ _ _ _ (implements_mapM _ _ _ _ _ (commit_partition_implements max g name))). }
    intros r [h1 o1] [-> Hok1]. apply wp_ret. by destruct (amap _ parts A).
  - intros [name parts] A tp. unfold commit_topic_spec. simpl.
    pose proof (im_end _ _ _ _ _ (implements_mapM _ _ _ _ _ (commit_partition_implements max g name)) parts A tp).
    by destruct (amap _ parts A).
  - intros topic. apply total_nonneg. apply (commit_partition_implements max g).
Qed.

Lemma offset_commit_implements max :
  implements max offset_commit (commit_request_spec max) wf_commit_request commit_bytes.
Proof.
  constructor; [intros req h o A Hok Hwf Hroom|intros req A tp|intros req];
    pose proof (implements_mapM _ _ _ _ _ (commit_topic_implements max (oc_GroupID req))) as [Hcall Hend Hneed].
  - unfold offset_commit, commit_request_spec. apply wp_bind.
    eapply wp_mono; [by apply (Hcall (oc_Topics req))|].
    intros r [h1 o1] [-> Hok1]. apply wp_ret. by destruct (amap _ (oc_Topics req) A).
  - specialize (Hend (oc_Topics req) A tp). unfold commit_request_spec. by destruct (amap _ (oc_Topics req) A).
  - apply Hneed.
Qed.

(** ** The log and the cache *)

Abbreviation committed := (offsetCacheKey * Z)%type.

Definition wf_committed (c : committed) : Prop := wf_cache_key c.1 /\ sfits 64 c.2.

(** The log of a sequence of commits. *)
Definition offsets_log (cs : list committed) : list byte :=
  concat ((fun c => frame (offset_record c.1 c.2)) <$> cs).

(** Later commits win. *)
Definition replay (cs : list committed) (C : gmap offsetCacheKey Z) : gmap offsetCacheKey Z :=
  fold_left (fun C c => <[c.1 := c.2]> C) cs C.

Lemma replay_snoc cs c C : replay (cs ++ [c]) C = <[c.1 := c.2]> (replay cs C).
Proof. unfold replay. by rewrite fold_left_app. Qed.

Lemma offsets_log_snoc cs c :
  offsets_log (cs ++ [c]) = offsets_log cs ++ frame (offset_record c.1 c.2).
Proof. unfold offsets_log. rewrite fmap_app, concat_app. simpl. by rewrite app_nil_r. Qed.

Lemma offsets_log_nil cs : zlen (offsets_log cs) = 0 -> cs = [].
Proof.
  destruct cs as [|c cs]; [done|]. unfold offsets_log. rewrite fmap_cons. cbn [concat].
  rewrite zlen_app, zlen_frame. pose proof (zlen_nonneg (offset_record c.1 c.2)).
  pose proof (zlen_nonneg (concat ((fun c => frame (offset_record c.1 c.2)) <$> cs))). lia.
Qed.

(** The log of the offsets partition holds the commits [cs], in one segment,
    and the cache is their replay. *)
Record durable (cs : list committed) (A : abroker) : Prop := {
  du_wf : Forall wf_committed cs;
  du_base : pl_base (ab_log A offsets_tp) = 0;
  du_log : pl_active (ab_log A offsets_tp) = offsets_log cs;
  du_cache : ab_offsets A = replay cs ∅ }.

Lemma commit_durable max cs g t part A :
  durable cs A -> wf_commit_part g t part ->
  zlen (offsets_log cs) + commit_part_bytes g t <= max ->
  let A' := (commit_spec max g t part A).2 in
  durable (cs ++ [(MkOffsetCacheKey g t (ocp_Partition part), ocp_CommittedOffset part)]) A' /\
  pl_end (ab_log A' offsets_tp) = pl_end (ab_log A offsets_tp) + commit_part_bytes g t.
Proof.
  intros [Hwf Hb Hl Hc] Hp Hfits. unfold commit_spec. cbv zeta. set (k := MkOffsetCacheKey _ _ _).
  set (rec := offset_record k (ocp_CommittedOffset part)).
  assert (Hz : zlen (frame rec) = commit_part_bytes g t).
  { rewrite zlen_frame. unfold rec, commit_part_bytes. rewrite zlen_offset_record. simpl. lia. }
  unfold plog_append. rewrite Hl, Hz, (proj2 (Z.leb_le _ max)) by done. simpl. split.
  - constructor; simpl.
    + apply Forall_app. split; [done|]. by apply Forall_singleton.
    + unfold ab_log. simpl. by rewrite log_of_insert_eq.
    + unfold ab_log. simpl. rewrite log_of_insert_eq. simpl. by rewrite offsets_log_snoc.
    + by rewrite replay_snoc, Hc.
  - unfold ab_log at 1. simpl. rewrite log_of_insert_eq. unfold pl_end. simpl.
    rewrite zlen_app, Hz, Hl. lia.
Qed.

(** ** What clients can do *)

(** The commits a request asks for, in order. *)
Definition asked_part (g t : gostring) (part : OffsetCommitPartition) : list committed :=
  [(MkOffsetCacheKey g t (ocp_Partition part), ocp_CommittedOffset part)].
Definition asked_topic (g : gostring) (topic : OffsetCommitTopic) : list committed :=
  concat (asked_part g (oct_TopicName topic) <$> oct_Partitions topic).
Definition asked (req : OffsetCommitRequest) : list committed :=
  concat (asked_topic (oc_GroupID req) <$> oc_Topics req).

(** The commits a response acknowledges: those it answers without an error. *)
Definition told_part (g t : gostring) (part : OffsetCommitPartition) (resp : OffsetCommitPartitionResponse)
  : list committed := if ocpr_ErrorCode resp =? 0 then asked_part g t part else [].
Definition told_topic (g : gostring) (topic : OffsetCommitTopic) (resp : OffsetCommitTopicResponse) : list committed :=
  concat (zip_with (told_part g (oct_TopicName topic)) (oct_Partitions topic) (octr_Partitions resp)).
Definition told_commits (req : OffsetCommitRequest) (resp : OffsetCommitResponse) : list committed :=
  concat (zip_with (told_topic (oc_GroupID req)) (oc_Topics req) (ocr_Topics resp)).

(** The requests that read or write logs, and the commits their responses
    acknowledge. *)
Inductive data_request :=
  | DProduce (req : ProduceRequest) | DFetch (req : FetchRequest) | DCommit (req : OffsetCommitRequest).

Definition serve_data (rq : data_request) : stio Handler (list committed) :=
  match rq with
  | DProduce req => _ ← produce req; mret []
  | DFetch req => _ ← fetch req; mret []
  | DCommit req => resp ← offset_commit req; mret (told_commits req resp)
  end.

Definition serve_all (rqs : list data_request) : stio Handler (list committed) :=
  xs ← mapM serve_data rqs; mret (concat xs).

Definition asked_data (rq : data_request) : list committed :=
  match rq with DCommit req => asked req | _ => [] end.

Definition data_spec (max : Z) (rq : data_request) (A : abroker) : list committed * abroker :=
  match rq with
  | DProduce req => ([], (produce_request_spec max req A).2)
  | DFetch req => ([], (fetch_request_spec req A).2)
  | DCommit req => let '(resp, A') := commit_request_spec max req A in (told_commits req resp, A')
  end.

(** The request leaves the partition of the committed offsets alone. *)
Definition spares_offsets (req : ProduceRequest) : Prop :=
  Forall (fun topic => Forall (fun part => (ptd_TopicName topic, ppd_Partition part) <> offsets_tp)
    (ptd_Partitions topic)) (pr_Topics req).

Definition wf_data (rq : data_request) : Prop :=
  match rq with
  | DProduce req => wf_produce_request req /\ spares_offsets req
  | DFetch req => wf_fetch_request req
  | DCommit req => wf_commit_request req
  end.

Definition data_bytes (rq : data_request) : Z :=
  match rq with DProduce req => produce_bytes req | DFetch _ => 0 | DCommit req => commit_bytes req end.

(** The bytes that go to the log of commits. *)
Definition data_commit_bytes (rq : data_request) : Z :=
  match rq with DCommit req => commit_bytes req | _ => 0 end.

Lemma serve_data_implements max : implements max serve_data (data_spec max) wf_data data_bytes.
Proof.
  pose proof (produce_implements max) as [P1 P2 P3]. pose proof (fetch_implements max) as [F1 F2 F3].
  pose proof (offset_commit_implements max) as [C1 C2 C3].
  constructor; [intros [req|req|req] h o A Hok Hwf Hroom|intros [req|req|req] A tp|intros [req|req|req]];
    cbn [serve_data data_spec wf_data data_bytes fst snd] in *; [..|apply P3|apply (F3 req)|apply C3].
  - destruct Hwf. apply wp_bind. eapply wp_mono; [by apply P1|]. intros r [h1 o1] [-> Hok1]. by apply wp_ret.
  - apply wp_bind. eapply wp_mono; [by apply F1|]. intros r [h1 o1] [-> Hok1]. by apply wp_ret.
  - apply wp_bind. eapply wp_mono; [by apply C1|]. intros r [h1 o1] [-> Hok1]. apply wp_ret.
    by destruct (commit_request_spec max req A).
  - apply P2.
  - apply F2.
  - specialize (C2 req A tp). by destruct (commit_request_spec max req A).
Qed.

(** [f] acknowledges and records what is asked of it, for the elements in
    [wf], when the log of commits has room for [need] bytes. *)
Definition commits {X Y} (max : Z) (f : X -> abroker -> Y * abroker) (wf : X -> Prop)
    (told : X -> Y -> list committed) (want : X -> list committed) (need : X -> Z) : Prop :=
  forall x A cs, wf x -> durable cs A -> pl_end (ab_log A offsets_tp) + need x <= max ->
    told x (f x A).1 = want x /\ durable (cs ++ want x) (f x A).2 /\
    pl_end (ab_log (f x A).2 offsets_tp) = pl_end (ab_log A offsets_tp) + need x.

Lemma commits_amap {X Y} max (f : X -> abroker -> Y * abroker) wf told want need :
  commits max f wf told want need -> (forall x, 0 <= need x) ->
  commits max (amap f) (Forall wf) (fun xs ys => concat (zip_with told xs ys))
    (fun xs => concat (want <$> xs)) (total need).
Proof.
  intros Hf Hn xs A cs Hwf. revert A cs.
  induction Hwf as [|x xs Hx _ IH]; intros A cs Hd Hfit; simpl in *; [rewrite app_nil_r; split_and!; [done..|lia]|].
  pose proof (total_nonneg need xs Hn). destruct (Hf x A cs Hx Hd) as (E1 & D1 & L1); [lia|].
  destruct (f x A) as [y A1]. simpl in *. destruct (IH A1 _ D1) as (E2 & D2 & L2); [lia|].
  destruct (amap f xs A1) as [ys A2]. simpl in *. rewrite E1, E2, app_assoc. split_and!; [done..|lia].
Qed.

Lemma commit_spec_commits max g t :
  commits max (commit_spec max g t) (wf_commit_part g t) (told_part g t) (asked_part g t)
    (fun _ => commit_part_bytes g t).
Proof.
  intros part A cs Hwf Hd Hfit. destruct Hd as [D1 D2 D3 D4] eqn:E. clear E.
  assert (Hz : zlen (offsets_log cs) + commit_part_bytes g t <= max)
    by (unfold pl_end in Hfit; rewrite D2, D3 in Hfit; lia).
  destruct (commit_durable max cs g t part A ltac:(by constructor) Hwf Hz) as [Hd' Hend]. split; [|by split].
  unfold commit_spec, told_part. cbv zeta. set (rec := offset_record _ _).
  assert (Hf : zlen (frame rec) = commit_part_bytes g t).
  { rewrite zlen_frame. unfold rec, commit_part_bytes. rewrite zlen_offset_record. simpl. lia. }
  unfold plog_append. by rewrite D3, Hf, (proj2 (Z.leb_le _ max)).
Qed.

Lemma commit_request_commits max :
  commits max (commit_request_spec max) wf_commit_request told_commits asked commit_bytes.
Proof.
  assert (Hpart : forall g t, 0 <= commit_part_bytes g t)
    by (intros g t; pose proof (zlen_nonneg g); pose proof (zlen_nonneg t); unfold commit_part_bytes; lia).
  assert (Htopic : forall g, commits max (commit_topic_spec max g)
    (fun topic => Forall (wf_commit_part g (oct_TopicName topic)) (oct_Partitions topic))
    (told_topic g) (asked_topic g) (commit_topic_bytes g)).
  { intros g [t parts] A cs Hwf Hd Hfit. unfold commit_topic_spec, told_topic, asked_topic, commit_topic_bytes in *.
    simpl in *. destruct (commits_amap _ _ _ _ _ _ (commit_spec_commits max g t) (fun _ => Hpart g t) parts A cs Hwf Hd Hfit)
      as (E1 & D1 & L1). by destruct (amap _ parts A). }
  intros req A cs Hwf Hd Hfit. unfold commit_request_spec, told_commits, asked, commit_bytes, wf_commit_request in *.
  destruct (commits_amap _ _ _ _ _ _ (Htopic (oc_GroupID req)) (fun topic => total_nonneg _ _ (fun _ => Hpart _ _))
    (oc_Topics req) A cs Hwf Hd Hfit) as (E1 & D1 & L1). by destruct (amap _ (oc_Topics req) A).
Qed.

(** What a produce request does to other partitions. *)
Lemma produce_other max t part A tp :
  (t, ppd_Partition part) <> tp ->
  ab_log (produce_spec max t part A).2 tp = ab_log A tp /\
  ab_offsets (produce_spec max t part A).2 = ab_offsets A.
Proof.
  intros Hne. unfold produce_spec. cbv zeta. destruct (_ && _); [done|].
  destruct (plog_append _ _ _) as [[] L]; simpl; unfold ab_log, set_ab_log; simpl;
    rewrite log_of_insert; by rewrite decide_False.
Qed.

Lemma amap_keeps {X Y B} (f : X -> abroker -> Y * abroker) (get : abroker -> B) xs A :
  Forall (fun x => forall A, get (f x A).2 = get A) xs -> get (amap f xs A).2 = get A.
Proof.
  intros Hxs. revert A. induction Hxs as [|x xs Hx _ IH]; intros A; simpl; [done|].
  specialize (Hx A). destruct (f x A) as [y A1]. specialize (IH A1). destruct (amap f xs A1). simpl in *. congruence.
Qed.

Lemma produce_request_other max req A :
  spares_offsets req ->
  let A' := (produce_request_spec max req A).2 in
  ab_log A' offsets_tp = ab_log A offsets_tp /\ ab_offsets A' = ab_offsets A.
Proof.
  intros Hs. set (get A := (ab_log A offsets_tp, ab_offsets A)).
  assert (E : get (amap (produce_topic_spec max) (pr_Topics req) A).2 = get A).
  { apply amap_keeps. eapply Forall_impl; [exact Hs|]. intros [t parts] Ht A1. simpl in Ht.
    unfold produce_topic_spec. simpl.
    assert (E : get (amap (produce_spec max t) parts A1).2 = get A1).
    { apply amap_keeps. eapply Forall_impl; [exact Ht|]. intros part Hp A2. simpl in Hp.
      destruct (produce_other max t part A2 offsets_tp Hp) as [E1 E2]. unfold get. congruence. }
    by destruct (amap (produce_spec max t) parts A1). }
  unfold produce_request_spec, get in *. destruct (amap _ (pr_Topics req) A). simpl in *. by simplify_eq.
Qed.

Lemma durable_other cs A A' :
  ab_log A' offsets_tp = ab_log A offsets_tp -> ab_offsets A' = ab_offsets A -> durable cs A -> durable cs A'.
Proof. intros E1 E2 []. constructor; rewrite ?E1, ?E2; done. Qed.

Lemma data_commit_bytes_nonneg rq : 0 <= data_commit_bytes rq.
Proof. destruct rq; simpl; [done|done|]. apply (im_need _ _ _ _ _ (offset_commit_implements 0)). Qed.

Lemma amap_length {X Y} (f : X -> abroker -> Y * abroker) xs A : length (amap f xs A).1 = length xs.
Proof.
  revert A. induction xs as [|x xs IH]; intros A; simpl; [done|]. destruct (f x A) as [y A1]. specialize (IH A1).
  destruct (amap f xs A1). simpl in *. by rewrite IH.
Qed.

Lemma zip_with_snd {X Y} (xs : list X) (ys : list Y) :
  length ys = length xs -> zip_with (fun _ y => y) xs ys = ys.
Proof. revert ys. induction xs as [|x xs IH]; intros [|y ys] E; simpl in *; [done..|]. by rewrite IH by lia. Qed.

Lemma data_spec_commits max :
  commits max (data_spec max) wf_data (fun _ y => y) asked_data data_commit_bytes.
Proof.
  intros [req|req|req] A cs Hwf Hd Hfit; simpl in *.
  - destruct (produce_request_other max req A (proj2 Hwf)) as [E1 E2]. rewrite app_nil_r, E1, Z.add_0_r.
    split_and!; [done|by apply (durable_other cs A)|done].
  - destruct (fetch_topics_spec_same (fr_Topics req) (fr_MaxBytes req) A) as [E1 E2]. unfold fetch_request_spec.
    destruct (fetch_topics_spec _ _ A) as [[ts rem] A']. simpl in *. rewrite app_nil_r, E1, Z.add_0_r.
    split_and!; [done|apply (durable_other cs A); [apply E1|done..]|done].
  - destruct (commit_request_commits max req A cs Hwf Hd Hfit) as (E1 & D1 & L1).
    by destruct (commit_request_spec max req A).
Qed.

(** ** Loading the cache *)

Lemma load_offsets_app cs tail fuel C :
  Forall wf_committed cs ->
  load_offsets (length cs + fuel) (Rd (offsets_log cs ++ tail) EOF) C =
  load_offsets fuel (Rd tail EOF) (replay cs C).
Proof.
  intros Hcs. revert C. induction Hcs as [|[k off] cs [Hk Ho] _ IH]; intros C; [done|].
  simpl in Hk, Ho. pose proof Hk as (Hg & Ht & _). cbn [length Nat.add load_offsets].
  unfold offsets_log. rewrite fmap_cons. cbn [concat fst snd]. fold (offsets_log cs).
  set (rec := offset_record k off). unfold frame. rewrite <- !app_assoc.
  assert (Hz : zlen rec = 24 + zlen (ck_GroupID k) + zlen (ck_Topic k)) by apply zlen_offset_record.
  pose proof (zlen_nonneg (ck_GroupID k)). pose proof (zlen_nonneg (ck_Topic k)).
  pose proof (reads_ReadFull (be_put 4 (zlen rec)) (rec ++ offsets_log cs ++ tail) EOF) as H4.
  rewrite zlen_be_put in H4. change (Z.of_nat 4) with 4 in H4.
  rewrite H4, be_get_put, Z.mod_small by (simpl; lia).
  rewrite (reads_ReadFull rec (offsets_log cs ++ tail) EOF).
  pose proof (decode_offset_record k off [] Hk Ho) as Hd. rewrite app_nil_r in Hd. fold rec in Hd.
  rewrite Hd. apply IH.
Qed.

Lemma load_offsets_replay cs fuel C :
  Forall wf_committed cs -> (length cs < fuel)%nat ->
  load_offsets fuel (Rd (offsets_log cs) EOF) C = (Ok tt, replay cs C).
Proof.
  intros Hcs Hf. replace fuel with (length cs + (fuel - length cs))%nat by lia.
  rewrite <- (app_nil_r (offsets_log cs)), load_offsets_app by done.
  by destruct (fuel - length cs)%nat eqn:E; [lia|].
Qed.

(** A crash in the middle of a commit leaves a torn record at the end of the
    log. If less than its length field was written the cache loads as before;
    if more was, loading fails, although every complete record is intact and
    has been read. *)
Theorem load_offsets_torn_tail cs rec k fuel C :
  Forall wf_committed cs -> zlen rec < 2 ^ 32 -> (k < length (frame rec))%nat -> (length cs < fuel)%nat ->
  let '(r, C') := load_offsets fuel (Rd (offsets_log cs ++ take k (frame rec)) EOF) C in
  C' = replay cs C /\ (is_ok r = true <-> (k < 4)%nat).
Proof.
  intros Hcs Hz Hk Hf. replace fuel with (length cs + S (fuel - length cs - 1))%nat by lia.
  rewrite load_offsets_app by done. set (C' := replay cs C). cbn [load_offsets].
  assert (Hl4 : length (be_put 4 (zlen rec)) = 4%nat) by apply length_be_put.
  destruct (decide (k < 4)%nat) as [Hlt|Hge].
  - unfold ReadFull. cbn [rd_data rd_err].
    assert (Hs : zlen (take k (frame rec)) = Z.of_nat k) by (unfold zlen; rewrite length_take; lia).
    rewrite Hs, (proj2 (Z.leb_gt _ _)) by lia.
    destruct (take k (frame rec)); rewrite ?decide_True by done; by split.
  - assert (Ht : take k (frame rec) = be_put 4 (zlen rec) ++ take (k - 4) rec).
    { unfold frame. rewrite take_app_ge by lia. by rewrite Hl4. }
    rewrite Ht. pose proof (reads_ReadFull (be_put 4 (zlen rec)) (take (k - 4) rec) EOF) as H4.
    rewrite zlen_be_put in H4. change (Z.of_nat 4) with 4 in H4.
    pose proof (zlen_nonneg rec). rewrite H4, be_get_put, Z.mod_small by (simpl; lia).
    unfold frame in Hk. rewrite length_app, Hl4 in Hk.
    assert (Hs : zlen (take (k - 4) rec) < zlen rec) by (unfold zlen; rewrite length_take; lia).
    unfold ReadFull. cbn [rd_data rd_err]. rewrite (proj2 (Z.leb_gt _ _)) by done.
    split; [done|]. split; [done|lia].
Qed.

Lemma offsets_log_length cs : (length cs <= length (offsets_log cs))%nat.
Proof.
  induction cs as [|c cs IH]; [done|]. unfold offsets_log in *. rewrite fmap_cons. cbn [concat].
  rewrite length_app. cbn [length]. pose proof (zlen_frame (offset_record c.1 c.2)).
  pose proof (zlen_nonneg (offset_record c.1 c.2)). unfold zlen in *. lia.
Qed.

Lemma LoadOffsetsCache_spec max h o A cs :
  handler_ok max h o A -> durable cs (ABroker (ab_logs A) (replay cs ∅)) ->
  zlen (offsets_log cs) < 2 ^ 31 ->
  wp LoadOffsetsCache (fun r '(h', o') =>
    r = Ok tt /\
    handler_ok max h' o' (ABroker (ab_logs (touch offsets_tp A)) (replay cs (ab_offsets A)))) (h, o).
Proof.
  intros Hok [Hwf Hb Hl _] Hsz. change (ab_log (ABroker (ab_logs A) _)) with (ab_log A) in *.
  unfold LoadOffsetsCache. apply wp_bind, wp_wrapf, wp_zoom.
  eapply wp_mono; [apply GetOrCreatePartition_spec; [apply Hok|apply offsets_nameable]|].
  intros r [bs1 o1] (-> & _ & Hcfg & Hin & Hb1). cbn [wrap_result].
  assert (Hok1 : handler_ok max (set_store bs1 h) o1 (touch offsets_tp A)).
  { destruct Hok. constructor; simpl; [done|by rewrite Hcfg|done]. }
  apply wp_bind.
  apply (wp_log_size max _ o1 A ConsumerOffsetsTopic 0 _ Hok1 offsets_nameable Hin). intros h2 o2 Hok2 Hin2 _.
  fold offsets_tp in Hok2 |- *. rewrite Hl.
  pose proof (zlen_nonneg (offsets_log cs)).
  destruct (Z.eqb_spec (zlen (offsets_log cs)) 0) as [Hz|Hz].
  { apply offsets_log_nil in Hz as ->. apply wp_ret. split; [done|]. exact Hok2. }
  rewrite (proj2 (Z.ltb_ge _ _)) by lia. cbv zeta.
  assert (Hi : i32 (zlen (offsets_log cs)) = zlen (offsets_log cs))
    by (unfold i32; rewrite swrap_id; [done|lia|fits]).
  rewrite Hi. apply wp_bind, wp_wrapf.
  apply (wp_log_read max _ o2 A ConsumerOffsetsTopic 0 0 (zlen (offsets_log cs)) _ Hok2 offsets_nameable Hin2); [lia|fits|].
  fold offsets_tp. unfold plog_read. rewrite Hl, (proj2 (Z.leb_gt _ 0)), Z.sub_0_r, Z.min_id by lia. cbv zeta.
  rewrite (proj2 (Z.leb_gt _ 0)), Z.add_0_l, slice_full by lia.
  intros r h3 o3 Hok3 (w & -> & Hw). cbn [wrap_result fst].
  apply wp_bind, wp_on_os. unfold wp at 1. rewrite Hw. cbn [fst snd].
  unfold wp, load_cache. cbn [rd_data]. pose proof (offsets_log_length cs).
  rewrite load_offsets_replay by (done || lia). simpl. split; [done|].
  destruct Hok3 as [B1 B2 B3]. constructor; simpl; [done|done|]. simpl in B3. by rewrite B3.
Qed.


(** When the broker stops and a new process opens the same directory
    and loads its cache, every consumer group finds the offsets it committed,
    and every partition its records, provided the logs have not rolled over. *)
Theorem committed_offsets_survive_restart max h o A cs cfg :
  handler_ok max h o A -> durable cs A -> map_Forall (fun _ L => pl_base L = 0) (ab_logs A) ->
  zlen (offsets_log cs) < 2 ^ 31 -> max_size cfg = max ->
  exists bs1 o1 bs2 o2 h3 o3,
    BrokerStore_Close (h_store h, o) = (Ok tt, (bs1, o1)) /\
    OpenBrokerStore (bs_rootDir (h_store h)) cfg o1 = (Ok bs2, o2) /\
    LoadOffsetsCache (NewHandler bs2 New, o2) = (Ok tt, (h3, o3)) /\
    h_offsetCache h3 = h_offsetCache h /\
    handler_ok max h3 o3 (touch offsets_tp A).
Proof.
  intros [Hb Hm Hc] Hd Hbase Hsz Hcfg.
  destruct (broker_restart (h_store h) o (ab_logs A) cfg Hb Hbase) as (bs1 & o1 & bs2 & o2 & E1 & E2 & Hcfg2 & Hb2).
  { rewrite Hcfg, <- Hm. apply Hb. }
  pose proof (du_cache _ _ Hd) as Hcache.
  assert (Hok2 : handler_ok max (NewHandler bs2 New) o2 (ABroker (ab_logs A) ∅))
    by (constructor; simpl; [done|by rewrite Hcfg2|done]).
  pose proof (LoadOffsetsCache_spec max _ o2 _ cs Hok2) as Hload. unfold wp in Hload.
  destruct (LoadOffsetsCache (NewHandler bs2 New, o2)) as [r [h3 o3]] eqn:E3. cbn [fst snd] in Hload.
  destruct Hload as (-> & Hok3); [|done|].
  { destruct Hd as [D1 D2 D3 _]. by constructor. }
  exists bs1, o1, bs2, o2, h3, o3. split_and!; try done.
  - destruct Hok3 as [_ _ ->]. simpl. by rewrite Hc.
  - unfold touch, set_ab_log in *. simpl in *. by rewrite Hcache.
Qed.

(** ** Commit, then fetch *)

(** A request for the offset of one partition, and its answer. *)
Definition ask_offset (g t : gostring) (p : Z) : OffsetFetchRequest :=
  {| of_GroupID := g;
     of_Topics := [{| oft_TopicName := t; oft_Partitions := [{| ofp_Partition := p |}] |}] |}.

Definition offset_answer (t : gostring) (p off : Z) : OffsetFetchResponse :=
  {| ofr_Topics := [{| oftr_TopicName := t; oftr_Partitions :=
       [{| ofpr_Partition := p; ofpr_CommittedOffset := off; ofpr_CommittedMetadata := [];
           ofpr_ErrorCode := 0 |}] |}] |}.

(** C38: A commit that is acknowledged without an error is what the group reads
    next, and what every other group or partition reads is as before; a commit
    that is refused changes nothing that is read. *)
Theorem commit_then_offset_fetch max h o A g t part :
  handler_ok max h o A -> wf_commit_part g t part -> room (commit_part_bytes g t) A ->
  exists code h' o',
    commit_partition g t part (h, o) =
      (Ok {| ocpr_Partition := ocp_Partition part; ocpr_ErrorCode := code |}, (h', o')) /\
    forall g' t' p',
      offset_fetch (ask_offset g' t' p') (h_offsetCache h') =
      if decide (code = 0 /\ (g', t', p') = (g, t, ocp_Partition part))
      then offset_answer t' p' (ocp_CommittedOffset part)
      else offset_fetch (ask_offset g' t' p') (h_offsetCache h).
Proof.
  intros Hok Hwf Hroom.
  pose proof (im_call _ _ _ _ _ (commit_partition_implements max g t) part h o A Hok Hwf Hroom) as Hc.
  unfold wp in Hc. destruct (commit_partition g t part (h, o)) as [r [h' o']]. cbn [fst snd] in Hc.
  destruct Hc as [-> [_ _ Hcache']]. pose proof (ho_cache _ _ _ _ Hok) as Hcache.
  unfold commit_spec in *. cbv zeta in *. destruct (plog_append _ _ _) as [r L].
  assert (Hsame : forall code, code <> 0 -> h_offsetCache h' = h_offsetCache h ->
    forall g' t' p', offset_fetch (ask_offset g' t' p') (h_offsetCache h') =
      if decide (code = 0 /\ (g', t', p') = (g, t, ocp_Partition part))
      then offset_answer t' p' (ocp_CommittedOffset part)
      else offset_fetch (ask_offset g' t' p') (h_offsetCache h)).
  { intros code Hne -> g' t' p'. by rewrite decide_False by naive_solver. }
  destruct r as [off|e|p]; simpl in Hcache'.
  - exists 0, h', o'. split; [done|]. intros g' t' p'. unfold offset_fetch, ask_offset. simpl.
    rewrite Hcache', <- Hcache. case_decide as Hd.
    + destruct Hd as [_ [= -> -> ->]]. by rewrite lookup_insert_eq.
    + rewrite lookup_insert_ne; [done|]. intros [= <- <- <-]. by destruct Hd.
  - exists 1, h', o'. split; [done|]. apply Hsame; [done|]. by rewrite Hcache', Hcache.
  - exists 1, h', o'. split; [done|]. apply Hsame; [done|]. by rewrite Hcache', Hcache.
Qed.
End commit_spec.

(** ** Instances *)

Definition sample_commit : OffsetCommitPartition :=
  {| ocp_CommittedOffset := 42; ocp_CommittedMetadata := []; ocp_Partition := 3 |}.

Lemma sample_commit_wf : wf_commit_part (gos "group") (gos "sensors") sample_commit.
Proof. split; concrete. Qed.

Lemma sample_durable : durable [] (ABroker ∅ ∅).
Proof. by constructor. Qed.

Lemma commit_then_offset_fetch_witness :
  exists code h' o',
    commit_partition (gos "group") (gos "sensors") sample_commit (sample_handler.1, sample_handler.2) =
      (Ok {| ocpr_Partition := 3; ocpr_ErrorCode := code |}, (h', o')) /\
    forall g' t' p',
      offset_fetch (ask_offset g' t' p') (h_offsetCache h') =
      if decide (code = 0 /\ (g', t', p') = (gos "group", gos "sensors", 3))
      then offset_answer t' p' 42
      else offset_fetch (ask_offset g' t' p') (h_offsetCache sample_handler.1).
Proof.
  apply (commit_then_offset_fetch 1000 sample_handler.1 sample_handler.2 (ABroker ∅ ∅)
           (gos "group") (gos "sensors") sample_commit).
  - exact sample_handler_ok.
  - exact sample_commit_wf.
  - apply sample_room. vm_compute. reflexivity.
Defined.

(** The abstract broker after that commit. *)
Definition sample_committed : abroker :=
  (commit_spec 1000 (gos "group") (gos "sensors") sample_commit (ABroker ∅ ∅)).2.

(** A produce, a commit of two partitions and a fetch. *)
Definition sample_data : list data_request :=
  [DProduce sample_produce_req;
   DCommit {| oc_GroupID := gos "group"; oc_MemberID := []; oc_RetentionTimeMs := -1; oc_GenerationID := 0; oc_Topics :=
     [{| oct_TopicName := gos "sensors"; oct_Partitions := [sample_commit;
         {| ocp_CommittedOffset := 7; ocp_CommittedMetadata := []; ocp_Partition := 1 |}] |}] |};
   DFetch sample_fetch_req].


Definition sample_committed_handler : Handler * os :=
  (commit_partition (gos "group") (gos "sensors") sample_commit (sample_handler.1, sample_handler.2)).2.

Lemma sample_committed_ok :
  handler_ok 1000 sample_committed_handler.1 sample_committed_handler.2 sample_committed.
Proof.
  pose proof (im_call _ _ _ _ _ (commit_partition_implements 1000 (gos "group") (gos "sensors"))
    sample_commit _ _ _ sample_handler_ok sample_commit_wf) as Hc.
  unfold wp, sample_committed_handler in *.
  destruct (commit_partition _ _ _ (sample_handler.1, sample_handler.2)) as [r [h o]].
  apply Hc. apply sample_room. vm_compute. reflexivity.
Qed.

Lemma committed_offsets_survive_restart_witness :
  exists bs1 o1 bs2 o2 h3 o3,
    BrokerStore_Close (H := insertion_order) (h_store sample_committed_handler.1, sample_committed_handler.2) =
      (Ok tt, (bs1, o1)) /\
    OpenBrokerStore (bs_rootDir (h_store sample_committed_handler.1)) sample_hcfg o1 = (Ok bs2, o2) /\
    LoadOffsetsCache (NewHandler bs2 New, o2) = (Ok tt, (h3, o3)) /\
    h_offsetCache h3 = h_offsetCache sample_committed_handler.1 /\
    handler_ok 1000 h3 o3 (touch offsets_tp sample_committed).
Proof.
  apply (committed_offsets_survive_restart (H1 := insertion_order) 1000 sample_committed_handler.1
           sample_committed_handler.2 sample_committed
           [(MkOffsetCacheKey (gos "group") (gos "sensors") 3, 42)] sample_hcfg sample_committed_ok).
  - apply (commit_durable 1000 [] (gos "group") (gos "sensors") sample_commit (ABroker ∅ ∅) sample_durable
             sample_commit_wf). concrete.
  - apply (bool_decide_unpack _). vm_compute. exact I.
  - concrete.
  - reflexivity.
Defined.

Lemma load_offsets_torn_tail_witness :
  let '(r, C') := load_offsets 2 (Rd (offsets_log [(MkOffsetCacheKey (gos "g") (gos "t") 0, 7)] ++
                                       take 9 (frame (gos "a torn record"))) EOF) ∅ in
  C' = replay [(MkOffsetCacheKey (gos "g") (gos "t") 0, 7)] ∅ /\ (is_ok r = true <-> (9 < 4)%nat).
Proof.
  apply (load_offsets_torn_tail [(MkOffsetCacheKey (gos "g") (gos "t") 0, 7)] (gos "a torn record") 9 2).
  - apply Forall_singleton. split; concrete.
  - concrete.
  - concrete.
  - concrete.
Defined.
