(* ===== verification/Commits.v ===== *)
(** * Concurrent offset commits ([handleOffsetCommit])

    Each connection is served by a goroutine of its own. A commit takes two
    steps that are atomic by themselves: the append of the record, under the
    partition's lock, and the update of the cache, under the lock of the cache.
    Between the two the steps of other commits can come. This file is the step
    relation of concurrent commits, what it guarantees and what it does not. *)

From stdpp Require Import base tactics list numbers gmap strings.
From Stdlib Require Import ZArith Lia.
From S2P Require Import Prelude OffsetRecords CommitSpec.
#[local] Open Scope Z_scope.

(** ** Steps *)

Abbreviation committed := (offsetCacheKey * Z)%type.

(** Where a goroutine is: before the append, between the two, after both. *)
Inductive phase := Todo | Appended | Done.

#[global] Instance phase_eq_dec : EqDecision phase.
Proof. solve_decision. Defined.

Record cstate := CState {
  cs_log : list committed;
  cs_cache : gmap offsetCacheKey Z;
  cs_threads : list (phase * committed) }.

Inductive cstep : cstate -> cstate -> Prop :=
  | cstep_append i c log cache ts :
      ts !! i = Some (Todo, c) ->
      cstep (CState log cache ts) (CState (log ++ [c]) cache (<[i := (Appended, c)]> ts))
  | cstep_cache i c log cache ts :
      ts !! i = Some (Appended, c) ->
      cstep (CState log cache ts) (CState log (<[c.1 := c.2]> cache) (<[i := (Done, c)]> ts)).

(** All commits have arrived, none has started. *)
Definition start (log : list committed) (cs : list committed) : cstate :=
  CState log (replay log ∅) ((fun c => (Todo, c)) <$> cs).

Definition finished (s : cstate) : Prop := Forall (fun t => t.1 = Done) (cs_threads s).

(** ** Different keys *)

(** Between its two steps a commit is the last one of its key in the log; for
    every other key the cache is what the log says. *)
Record cinv (cs : list committed) (s : cstate) : Prop := {
  ci_threads : (cs_threads s).*2 = cs;
  ci_pending i c : cs_threads s !! i = Some (Appended, c) -> replay (cs_log s) ∅ !! c.1 = Some c.2;
  ci_cache k : (exists i c, cs_threads s !! i = Some (Appended, c) /\ c.1 = k) \/
               cs_cache s !! k = replay (cs_log s) ∅ !! k }.

Lemma thread_key cs s i ph c : cinv cs s -> cs_threads s !! i = Some (ph, c) -> cs.*1 !! i = Some c.1.
Proof.
  intros Hinv Hi. assert (E : cs !! i = Some c).
  { rewrite <- (ci_threads _ _ Hinv), list_lookup_fmap, Hi. done. }
  by rewrite list_lookup_fmap, E.
Qed.

Lemma insert_phase_threads (ts : list (phase * committed)) i ph ph' c :
  ts !! i = Some (ph, c) -> (<[i := (ph', c)]> ts).*2 = ts.*2.
Proof.
  intros Hi. rewrite list_fmap_insert. simpl. apply list_insert_id. by rewrite list_lookup_fmap, Hi.
Qed.

Lemma cinv_step cs s s' : NoDup cs.*1 -> cinv cs s -> cstep s s' -> cinv cs s'.
Proof.
  intros Hnd Hinv Hstep. pose proof Hinv as [Ht Hp Hc].
  assert (Hkeys : forall i j c c' ph ph', cs_threads s !! i = Some (ph, c) ->
    cs_threads s !! j = Some (ph', c') -> c.1 = c'.1 -> i = j).
  { intros i j c c' ph ph' Hi Hj E. eapply (NoDup_lookup _ _ _ c.1 Hnd); [by eapply thread_key|].
    rewrite E. by eapply thread_key. }
  destruct Hstep as [i c log cache ts Hi|i c log cache ts Hi]; simpl in *; constructor; simpl.
  - by erewrite insert_phase_threads.
  - intros j c' Hj. rewrite replay_snoc. destruct (decide (j = i)) as [->|Hne].
    + rewrite list_lookup_insert_eq in Hj by (by eapply lookup_lt_Some). injection Hj as <-.
      by rewrite lookup_insert_eq.
    + rewrite list_lookup_insert_ne in Hj by done. rewrite lookup_insert_ne; [by eapply Hp|].
      intros E. by apply Hne, eq_sym, (Hkeys i j c c' Todo Appended Hi Hj).
  - intros k. rewrite replay_snoc. destruct (decide (c.1 = k)) as [<-|Hk].
    + left. exists i, c. split; [|done]. apply list_lookup_insert_eq. by eapply lookup_lt_Some.
    + rewrite lookup_insert_ne by done. destruct (Hc k) as [(j & c' & Hj & <-)|]; [left|by right].
      exists j, c'. split; [|done]. rewrite list_lookup_insert_ne; [done|]. intros ->. congruence.
  - by erewrite insert_phase_threads.
  - intros j c' Hj. destruct (decide (j = i)) as [->|Hne].
    + by rewrite list_lookup_insert_eq in Hj by (by eapply lookup_lt_Some).
    + rewrite list_lookup_insert_ne in Hj by done. by eapply Hp.
  - intros k. destruct (decide (c.1 = k)) as [<-|Hk].
    + right. rewrite lookup_insert_eq. symmetry. by eapply Hp.
    + rewrite lookup_insert_ne by done. destruct (Hc k) as [(j & c' & Hj & <-)|]; [left|by right].
      exists j, c'. split; [|done]. rewrite list_lookup_insert_ne; [done|]. intros ->. congruence.
Qed.

(** Commits of different groups or partitions, interleaved in any way,
    leave the cache equal to the replay of the log: what is served is what a
    restart would load. *)
Theorem distinct_commits_agree log cs s :
  NoDup cs.*1 -> rtc cstep (start log cs) s -> finished s -> cs_cache s = replay (cs_log s) ∅.
Proof.
  intros Hnd Hrun Hfin.
  assert (Hinv : cinv cs s).
  { assert (H0 : cinv cs (start log cs)).
    { constructor; simpl.
      - rewrite <- list_fmap_compose. apply list_fmap_id.
      - intros i c Hi. rewrite list_lookup_fmap in Hi. by destruct (cs !! i).
      - by right. }
    induction Hrun as [s|s s1 s2 Hs _ IH]; [done|]. apply IH; [done|]. by eapply cinv_step. }
  apply map_eq. intros k. destruct (ci_cache _ _ Hinv k) as [(i & c & Hi & _)|]; [|done].
  unfold finished in Hfin. rewrite Forall_lookup in Hfin. by specialize (Hfin i _ Hi).
Qed.

(** ** The same key *)

Definition race_key : offsetCacheKey := MkOffsetCacheKey (gos "group") (gos "topic") 0.

(** Two commits of one group for one partition can be appended in one order and
    cached in the other: the broker then serves the older offset until it is
    restarted, and the newer one afterwards. *)
Theorem concurrent_commits_diverge :
  exists s, rtc cstep (start [] [(race_key, 5); (race_key, 9)]) s /\ finished s /\
    cs_cache s !! race_key = Some 5 /\ replay (cs_log s) ∅ !! race_key = Some 9.
Proof.
  eexists. split.
  - eapply rtc_l; [apply (cstep_append 0 (race_key, 5)); done|].
    eapply rtc_l; [apply (cstep_append 1 (race_key, 9)); done|].
    eapply rtc_l; [apply (cstep_cache 1 (race_key, 9)); done|].
    eapply rtc_l; [apply (cstep_cache 0 (race_key, 5)); done|]. apply rtc_refl.
  - split_and!; [by repeat constructor|vm_compute; done|vm_compute; done].
Qed.

(** Two groups that commit at once. *)
Lemma distinct_commits_agree_witness :
  exists s, rtc cstep (start [] [(race_key, 5); (MkOffsetCacheKey (gos "other") (gos "topic") 0, 9)]) s /\
    cs_cache s = replay (cs_log s) ∅ /\ cs_cache s !! race_key = Some 5.
Proof.
  set (c := (MkOffsetCacheKey (gos "other") (gos "topic") 0, 9)).
  assert (Hrun : rtc cstep (start [] [(race_key, 5); c])
    (CState [(race_key, 5); c] (<[race_key := 5]> (<[c.1 := c.2]> ∅)) [(Done, (race_key, 5)); (Done, c)])).
  { eapply rtc_l; [apply (cstep_append 0 (race_key, 5)); done|].
    eapply rtc_l; [apply (cstep_append 1 c); done|].
    eapply rtc_l; [apply (cstep_cache 1 c); done|].
    eapply rtc_l; [apply (cstep_cache 0 (race_key, 5)); done|]. apply rtc_refl. }
  eexists. split; [exact Hrun|]. split; [|vm_compute; done].
  apply (distinct_commits_agree [] [(race_key, 5); c] _).
  - apply (bool_decide_unpack _). vm_compute. exact I.
  - exact Hrun.
  - by repeat constructor.
Defined.
