(* ===== verification/GoText.v ===== *)
(** * Go's text library

    What the configuration loader uses of [strings] ([TrimSpace], [IndexByte],
    [HasPrefix]), of [bufio] (the line [Scanner] with its limit on the length
    of a line) and of [time] ([ParseDuration], with its overflow checks and
    its binary64 arithmetic for fractions). *)

From stdpp Require Import base tactics list numbers gmap strings.
From Stdlib Require Import ZArith Lia SpecFloat.
From S2P Require Import Prelude GoIO GoStrings.
#[local] Open Scope Z_scope.

(** ** [strings] *)

Definition HasPrefix (s prefix : gostring) : bool := bool_decide (prefix `prefix_of` s).

(** [strings.IndexByte]; [None] is -1. *)
Fixpoint IndexByte (s : gostring) (c : byte) : option nat :=
  match s with
  | [] => None
  | b :: s' => if decide (b = c) then Some 0%nat else S <$> IndexByte s' c
  end.

(** The characters with the White_Space property, in UTF-8: those of
    [unicode.IsSpace]. *)
Definition spaces : list gostring :=
  ((fun z => [Zbyte z]) <$> [9; 10; 11; 12; 13; 32]) ++
  ((fun z => [Zbyte 194; Zbyte z]) <$> [133; 160]) ++
  [[Zbyte 225; Zbyte 154; Zbyte 128]] ++
  ((fun z => [Zbyte 226; Zbyte 128; Zbyte z]) <$>
     [128; 129; 130; 131; 132; 133; 134; 135; 136; 137; 138; 168; 169; 175]) ++
  [[Zbyte 226; Zbyte 129; Zbyte 159]; [Zbyte 227; Zbyte 128; Zbyte 128]].

(** The first of [ws] that [s] starts with. *)
Definition leading (ws : list gostring) (s : gostring) : option gostring :=
  snd <$> list_find (fun w => w `prefix_of` s) ws.

(** [s] without the words of [ws] it starts with; each is at least a byte
    long, so the length of [s] is enough fuel. *)
Fixpoint trim (ws : list gostring) (fuel : nat) (s : gostring) : gostring :=
  match fuel with
  | O => s
  | S k => match leading ws s with
           | Some w => trim ws k (drop (length w) s)
           | None => s
           end
  end.

Definition TrimLeft (s : gostring) : gostring := trim spaces (length s) s.
Definition TrimRight (s : gostring) : gostring :=
  reverse (trim (reverse <$> spaces) (length s) (reverse s)).

(** [strings.TrimSpace] *)
Definition TrimSpace (s : gostring) : gostring := TrimRight (TrimLeft s).

(** ** [bufio.Scanner] on lines *)

Definition newline : byte := Byte.x0a.
Definition carriage_return : byte := Byte.x0d.

(** The pieces between the newlines. *)
Fixpoint split_lines (s : list byte) : list gostring :=
  match s with
  | [] => [[]]
  | b :: s' =>
      if decide (b = newline) then [] :: split_lines s'
      else match split_lines s' with
           | l :: ls => (b :: l) :: ls
           | [] => [[b]]
           end
  end.

(** [dropCR] *)
Definition dropCR (l : gostring) : gostring :=
  match last l with
  | Some b => if decide (b = carriage_return) then removelast l else l
  | None => l
  end.

Definition MaxScanTokenSize : Z := 65536.
Definition ErrTooLong : goerr := Errorf "bufio.Scanner: token too long" [].

(** The tokens [Scan] produces before it stops, and [scanner.Err()]. An empty
    piece at the very end is not a line. A line that fills the buffer before
    its newline is seen stops the scanner. *)
Fixpoint scan_tokens (pieces : list gostring) (end_err : option goerr)
  : list gostring * option goerr :=
  match pieces with
  | [] => ([], end_err)
  | [[]] => ([], end_err)
  | p :: ps =>
      if zlen p <? MaxScanTokenSize
      then let '(ts, e) := scan_tokens ps end_err in (dropCR p :: ts, e)
      else ([], Some ErrTooLong)
  end.

Definition Scan (r : reader) : list gostring * option goerr :=
  scan_tokens (split_lines (rd_data r)) (if decide (rd_err r = EOF) then None else Some (rd_err r)).

(** ** [time.ParseDuration] *)

Definition Nanosecond : Z := 1.
Definition Microsecond : Z := 1000.
Definition Millisecond : Z := 1000000.
Definition Second : Z := 1000000000.
Definition Minute : Z := 60 * Second.
Definition Hour : Z := 60 * Minute.

(** [unitMap]; the micro sign is U+00B5 or U+03BC. *)
Definition unitMap : list (gostring * Z) :=
  [(gos "ns", Nanosecond); (gos "us", Microsecond);
   ([Zbyte 194; Zbyte 181; Zbyte 115], Microsecond);
   ([Zbyte 206; Zbyte 188; Zbyte 115], Microsecond);
   (gos "ms", Millisecond); (gos "s", Second); (gos "m", Minute); (gos "h", Hour)].

Definition lookup_unit (u : gostring) : option Z :=
  snd ∘ snd <$> list_find (fun p => p.1 = u) unitMap.

Definition is_dot (b : byte) : bool := byteZ b =? 46.

(** [leadingInt]: the number and the rest; [None] on overflow. *)
Fixpoint leadingInt (s : gostring) (x : Z) : option (Z * gostring) :=
  match s with
  | c :: s' =>
      if is_digit c then
        if 2 ^ 63 / 10 <? x then None
        else let x := x * 10 + (byteZ c - 48) in
             if 2 ^ 63 <? x then None else leadingInt s' x
      else Some (x, s)
  | [] => Some (x, [])
  end.

(** binary64 *)
Definition of_uint64 (z : Z) : spec_float := binary_normalize 53 1024 z 0 false.
Definition fmul : spec_float -> spec_float -> spec_float := SFmul 53 1024.
Definition fdiv : spec_float -> spec_float -> spec_float := SFdiv 53 1024.

(** [uint64(x)] for a non-negative float in range. *)
Definition to_uint64 (x : spec_float) : Z :=
  match x with
  | S754_finite false m e => if e <? 0 then Z.shiftr (Zpos m) (- e) else Z.shiftl (Zpos m) e
  | _ => 0
  end.

(** [leadingFraction]: the digits, the power of ten they are to be divided by,
    and the rest. *)
Fixpoint leadingFraction (s : gostring) (x : Z) (scale : spec_float) (overflow : bool)
  : Z * spec_float * gostring :=
  match s with
  | c :: s' =>
      if is_digit c then
        if overflow then leadingFraction s' x scale true
        else if (2 ^ 63 - 1) / 10 <? x then leadingFraction s' x scale true
        else let y := x * 10 + (byteZ c - 48) in
             if 2 ^ 63 <? y then leadingFraction s' x scale true
             else leadingFraction s' y (fmul scale (of_uint64 10)) false
      else (x, scale, s)
  | [] => (x, scale, [])
  end.

(** The unit: everything up to the next digit or point. *)
Fixpoint span_unit (s : gostring) : gostring * gostring :=
  match s with
  | c :: s' => if is_dot c || is_digit c then ([], s)
               else let '(u, r) := span_unit s' in (c :: u, r)
  | [] => ([], [])
  end.

Section parse_duration.
Context (orig : gostring).

Definition invalid_duration {A} : result A := Err (Errorf "time: invalid duration %q" [DStr orig]).

(** The unit and the value, once the digits before and after the point are
    read. *)
Definition apply_unit (v f : Z) (scale : spec_float) (s : gostring) : result (Z * gostring) :=
  let '(u, s) := span_unit s in
  if decide (u = []) then Err (Errorf "time: missing unit in duration %q" [DStr orig])
  else match lookup_unit u with
  | None => Err (Errorf "time: unknown unit %q in duration %q" [DStr u; DStr orig])
  | Some unit =>
      if 2 ^ 63 / unit <? v then invalid_duration
      else let v := v * unit in
      if 0 <? f then
        let v := uwrap 64 (v + to_uint64 (fmul (of_uint64 f) (fdiv (of_uint64 unit) scale))) in
        if 2 ^ 63 <? v then invalid_duration else Ok (v, s)
      else Ok (v, s)
  end.

(** One number with its unit: its value and the rest of the text. *)
Definition parse_component (s : gostring) : result (Z * gostring) :=
  match s with
  | [] => invalid_duration
  | c :: _ =>
      if negb (is_dot c || is_digit c) then invalid_duration
      else match leadingInt s 0 with
      | None => invalid_duration
      | Some (v, s1) =>
          let pre := negb (zlen s =? zlen s1) in
          let '(f, scale, s2, post) :=
            match s1 with
            | c1 :: s1' =>
                if is_dot c1 then
                  let '(f, scale, s2) := leadingFraction s1' 0 (of_uint64 1) false in
                  (f, scale, s2, negb (zlen s1' =? zlen s2))
                else (0, of_uint64 1, s1, false)
            | [] => (0, of_uint64 1, s1, false)
            end in
          if negb pre && negb post then invalid_duration else apply_unit v f scale s2
      end
  end.

(** Each component consumes at least a byte, so the length is enough fuel. *)
Fixpoint parse_components (fuel : nat) (s : gostring) (d : Z) : result Z :=
  match fuel with
  | O => Ok d
  | S k =>
      match s with
      | [] => Ok d
      | _ => match parse_component s with
             | Ok (v, s') =>
                 let d := uwrap 64 (d + v) in
                 if 2 ^ 63 <? d then invalid_duration else parse_components k s' d
             | Err e => Err e
             | Panic p => Panic p
             end
      end
  end.
End parse_duration.

Definition ParseDuration (orig : gostring) : result Z :=
  let '(neg, s) :=
    match orig with
    | c :: s' => if byteZ c =? 45 then (true, s') else if byteZ c =? 43 then (false, s')
                 else (false, orig)
    | [] => (false, [])
    end in
  if decide (s = gos "0") then Ok 0
  else if decide (s = []) then invalid_duration orig
  else match parse_components orig (length s) s 0 with
       | Ok d => if neg : bool then Ok (swrap 64 (- d))
                 else if 2 ^ 63 - 1 <? d then invalid_duration orig else Ok d
       | Err e => Err e
       | Panic p => Panic p
       end.

Example duration_samples :
  ParseDuration (gos "10s") = Ok (10 * Second) /\ ParseDuration (gos "168h") = Ok (168 * Hour) /\
  ParseDuration (gos "1.5h") = Ok (90 * Minute) /\ ParseDuration (gos "1h15m30.918273645s") =
    Ok (Hour + 15 * Minute + 30918273645) /\
  ParseDuration (gos "0.100000000000000000000h") = Ok (6 * Minute) /\
  ParseDuration (gos "0.3333333333333333333h") = Ok (20 * Minute) /\
  ParseDuration (gos "-.5m") = Ok (-30 * Second) /\ is_ok (ParseDuration (gos "5")) = false /\
  ParseDuration (gos "9223372036854775807ns") = Ok (2 ^ 63 - 1) /\
  ParseDuration (gos "-9223372036854775808ns") = Ok (- 2 ^ 63) /\
  is_ok (ParseDuration (gos "9223372036854775808ns")) = false /\
  is_ok (ParseDuration (gos "3000000h")) = false /\ is_ok (ParseDuration (gos ".s")) = false.
Proof. by vm_compute. Qed.

Example text_samples :
  TrimSpace (gos "  a b  ") = gos "a b" /\ TrimSpace [Zbyte 194; Zbyte 160; Zbyte 97; Zbyte 13] = gos "a" /\
  TrimSpace (gos "   ") = [] /\ IndexByte (gos "a:b:c") Byte.x3a = Some 1%nat /\
  Scan (Rd (gos "a" ++ [carriage_return; newline; newline] ++ gos "b") EOF) = ([gos "a"; []; gos "b"], None) /\
  Scan (Rd (gos "a" ++ [newline]) ErrOS) = ([gos "a"], Some ErrOS).
Proof. by vm_compute. Qed.

(** ** Trimming *)

(** A printable ASCII character other than the space. *)
Definition solid (b : byte) : bool := (33 <=? byteZ b) && (byteZ b <=? 126).

Definition head_solid (s : gostring) : bool :=
  match s with b :: _ => solid b | [] => false end.

(** The first and the last character are solid. *)
Definition framed (s : gostring) : bool := head_solid s && head_solid (reverse s).

Lemma trim_solid ws fuel s :
  forallb (fun w => match w with b :: _ => negb (solid b) | [] => false end) ws = true ->
  head_solid s = true -> trim ws fuel s = s.
Proof.
  intros Hws Hs. destruct fuel as [|k]; [done|]. cbn [trim]. unfold leading.
  destruct (list_find _ ws) as [[i w]|] eqn:E; [|done].
  apply list_find_Some in E as (Hi & [t ->] & _). apply Is_true_true, forallb_True in Hws.
  eapply Forall_lookup_1 in Hws; [|done]. destruct w as [|b w]; [done|].
  simpl in Hws, Hs. by rewrite Hs in Hws.
Qed.

Lemma TrimSpace_framed s : framed s = true -> TrimSpace s = s.
Proof.
  intros [H1 H2]%andb_prop. unfold TrimSpace, TrimLeft. rewrite trim_solid by done.
  unfold TrimRight. rewrite trim_solid by done. apply reverse_involutive.
Qed.

Lemma TrimLeft_blank s : TrimLeft (Zbyte 32 :: s) = TrimLeft s.
Proof. done. Qed.

Lemma framed_app a m z : head_solid a = true -> head_solid (reverse z) = true -> framed (a ++ m ++ z) = true.
Proof.
  intros Ha Hz. unfold framed. rewrite !reverse_app. destruct a as [|b a]; [done|].
  destruct (reverse z) as [|c r]; [done|]. simpl in *. by rewrite Ha, Hz.
Qed.

Lemma digit_solid b : is_digit b = true -> solid b = true.
Proof.
  unfold is_digit, solid. intros [H1 H2]%andb_prop. apply Z.leb_le in H1, H2.
  apply andb_true_intro. split; apply Z.leb_le; lia.
Qed.

Lemma digits_head_solid n : 0 <= n -> head_solid (digits n) = true /\ head_solid (reverse (digits n)) = true.
Proof.
  intros Hn. destruct (digits_spec n Hn) as (_ & D & N). apply Is_true_true, forallb_True in D.
  assert (K : forall s : gostring, s <> [] -> Forall is_digit s -> head_solid s = true).
  { intros [|b s] ? F; [done|]. apply Forall_cons in F as [F _]. apply digit_solid. by destruct (is_digit b). }
  split; apply K; [done..| |by apply Forall_reverse].
  intros E. apply N. by rewrite <- (reverse_involutive (digits n)), E.
Qed.

Lemma TrimSpace_digits n : 0 <= n -> TrimSpace (digits n) = digits n.
Proof. intros Hn. destruct (digits_head_solid n Hn) as [H1 H2]. apply TrimSpace_framed. unfold framed. by rewrite H1, H2. Qed.

(** ** Durations *)

Lemma leadingInt_length s x v r : leadingInt s x = Some (v, r) -> (length r <= length s)%nat.
Proof.
  revert x. induction s as [|c s IH]; intros x; cbn [leadingInt]; [intros; simplify_eq; done|].
  destruct (is_digit c); [|intros; by simplify_eq].
  case_match; [done|]. case_match; [done|]. intros ?%IH. simpl. lia.
Qed.

Lemma leadingFraction_length s x sc ov f sc' r :
  leadingFraction s x sc ov = (f, sc', r) -> (length r <= length s)%nat.
Proof.
  revert x sc ov. induction s as [|c s IH]; intros x sc ov; cbn [leadingFraction];
    [intros; by simplify_eq|].
  destruct (is_digit c); [|intros; by simplify_eq].
  intros H. cbn [length]. enough (length r <= length s)%nat by lia.
  destruct ov; [by eapply IH|]. case_match; [by eapply IH|]. cbv zeta in H.
  case_match; by eapply IH.
Qed.

Lemma span_unit_length s u r : span_unit s = (u, r) -> length s = (length u + length r)%nat.
Proof.
  revert u. induction s as [|c s IH]; intros u; cbn [span_unit]; [intros; by simplify_eq|].
  case_match; [intros; by simplify_eq|]. destruct (span_unit s) as [u' r'] eqn:E.
  intros ?; simplify_eq/=. by rewrite (IH u').
Qed.

Lemma apply_unit_length orig v f sc s w r :
  apply_unit orig v f sc s = Ok (w, r) -> (length r < length s)%nat.
Proof.
  unfold apply_unit, invalid_duration. destruct (span_unit s) as [u s3] eqn:E.
  apply span_unit_length in E. case_decide; [done|]. destruct u; [done|]. simpl in E.
  intros Q. assert (s3 = r) as -> by (repeat case_match; by simplify_eq). lia.
Qed.

(** A component is not empty. *)
Lemma parse_component_length orig s v r :
  parse_component orig s = Ok (v, r) -> (length r < length s)%nat.
Proof.
  unfold parse_component, invalid_duration. destruct s as [|c s0]; [done|].
  set (s := c :: s0). case_match; [done|]. destruct (leadingInt s 0) as [[v0 s1]|] eqn:E1; [|done].
  apply leadingInt_length in E1. destruct s1 as [|c1 s1'].
  - case_match; [done|]. intros ?%apply_unit_length. simpl in *; lia.
  - destruct (is_dot c1).
    + destruct (leadingFraction s1' 0 (of_uint64 1) false) as [[f sc] s2] eqn:E2.
      apply leadingFraction_length in E2. case_match; [done|].
      intros ?%apply_unit_length. simpl in *; lia.
    + case_match; [done|]. intros ?%apply_unit_length. lia.
Qed.

(** More fuel than the length of the text changes nothing. *)
Lemma parse_components_fuel orig k k' s d :
  (length s <= k)%nat -> (length s <= k')%nat ->
  parse_components orig k s d = parse_components orig k' s d.
Proof.
  revert k' s d. induction k as [|k IH]; intros k' s d Hk Hk'.
  - destruct s; [|simpl in Hk; lia]. by destruct k'.
  - destruct s as [|c s]; [by destruct k'|]. destruct k' as [|k']; [simpl in Hk'; lia|].
    cbn [parse_components]. destruct (parse_component orig (c :: s)) as [[v r]| |] eqn:E; [|done..].
    apply parse_component_length in E. case_match; [done|]. simpl in *. apply IH; lia.
Qed.

Lemma parse_components_range orig k s d v :
  0 <= d <= 2 ^ 63 -> parse_components orig k s d = Ok v -> 0 <= v <= 2 ^ 63.
Proof.
  revert s d. induction k as [|k IH]; intros s d Hd; cbn [parse_components]; [intros; by simplify_eq|].
  destruct s; [intros; by simplify_eq|]. destruct (parse_component _ _) as [[w r]| |]; [|done..].
  destruct (Z.ltb_spec (2 ^ 63) (uwrap 64 (d + w))); [done|]. apply IH.
  pose proof (uwrap_fits 64 (d + w)). fits.
Qed.

(** A duration that parses is an [int64]. *)
Lemma ParseDuration_range s d : ParseDuration s = Ok d -> sfits 64 d.
Proof.
  unfold ParseDuration. destruct (match s with [] => _ | _ => _ end) as [neg t].
  case_decide; [intros; simplify_eq; fits|]. case_decide; [done|].
  destruct (parse_components s (length t) t 0) as [v| |] eqn:E; [|done..].
  apply parse_components_range in E; [|lia].
  destruct neg; [intros; simplify_eq; by apply swrap_fits|].
  destruct (Z.ltb_spec (2 ^ 63 - 1) v); [done|]. intros; simplify_eq. fits.
Qed.

Lemma parse_component_no_panic orig s p : parse_component orig s <> Panic p.
Proof.
  unfold parse_component, apply_unit, invalid_duration.
  repeat (case_match; simplify_eq; try done).
Qed.

Lemma ParseDuration_no_panic s p : ParseDuration s <> Panic p.
Proof.
  unfold ParseDuration. destruct (match s with [] => _ | _ => _ end) as [neg t].
  case_decide; [done|]. case_decide; [done|]. generalize 0 as d. generalize (length t) as k. intros k d.
  assert (N : parse_components s k t d <> Panic p).
  { clear. revert t d.  induction k as [|k IH]; intros t d; [done|]. cbn [parse_components].
    destruct t; [done|]. destruct (parse_component _ _) as [[v r]| |] eqn:E; [|done|].
    - case_match; [done|]. apply IH.
    - by apply parse_component_no_panic in E. }
  destruct (parse_components s k t d); [|done|congruence]. by repeat case_match.
Qed.

(** The head of the text, when there is one, is not a digit. *)
Definition no_digit (s : gostring) : bool :=
  match s with b :: _ => negb (is_digit b) | [] => true end.

Lemma undigits_nonneg ds : forallb is_digit ds = true -> 0 <= undigits ds.
Proof.
  induction ds as [|c ds IH]; [done|]. cbn [forallb]. intros [Hc D]%andb_prop. rewrite undigits_cons.
  unfold is_digit in Hc. apply andb_prop in Hc as [H1 _]. apply Z.leb_le in H1. specialize (IH D).
  pose proof (Z.pow_nonneg 10 (Z.of_nat (length ds))). nia.
Qed.

Lemma leadingInt_digits ds rest x :
  forallb is_digit ds = true -> no_digit rest = true -> 0 <= x ->
  x * 10 ^ Z.of_nat (length ds) + undigits ds <= 2 ^ 63 ->
  leadingInt (ds ++ rest) x = Some (x * 10 ^ Z.of_nat (length ds) + undigits ds, rest).
Proof.
  revert x. induction ds as [|c ds IH]; intros x D R Hx Hb.
  - unfold undigits. simpl. rewrite Z.mul_1_r, Z.add_0_r. destruct rest as [|b r]; [done|].
    simpl in R. cbn [leadingInt]. by destruct (is_digit b).
  - cbn [app leadingInt]. cbn [forallb] in D. apply andb_prop in D as [Hc D]. rewrite Hc.
    unfold is_digit in Hc. apply andb_prop in Hc as [H1 H2]. apply Z.leb_le in H1, H2.
    rewrite undigits_cons in *. cbn [length] in *.
    rewrite Nat2Z.inj_succ, Z.pow_succ_r in * by lia.
    pose proof (undigits_nonneg ds D). set (q := 10 ^ Z.of_nat (length ds)) in *.
    assert (1 <= q) by (pose proof (Z.pow_pos_nonneg 10 (Z.of_nat (length ds))); lia).
    assert (x * 10 + (byteZ c - 48) <= (x * 10 + (byteZ c - 48)) * q) by nia.
    rewrite (proj2 (Z.ltb_ge _ _)) by (apply Z.div_le_lower_bound; nia).
    rewrite (proj2 (Z.ltb_ge _ _)) by nia.
    rewrite IH; [|done..|lia|]; [do 2 f_equal|]; fold q; nia.
Qed.

Lemma lookup_unit_spec u unit :
  lookup_unit u = Some unit -> span_unit u = (u, []) /\ no_digit u = true /\ u <> [] /\ 0 < unit /\
  match u with b :: _ => is_dot b = false | [] => False end.
Proof.
  unfold lookup_unit. destruct (list_find _ unitMap) as [[i [u' n']]|] eqn:E; [|done].
  apply list_find_Some in E as (Hi & Hu & _). simpl in Hu. intros ?; simplify_eq/=.
  apply list_elem_of_lookup_2 in Hi. unfold unitMap in Hi.
  repeat (apply elem_of_cons in Hi as [?|Hi]; [simplify_eq; by vm_compute|]).
  by apply elem_of_nil in Hi.
Qed.

Lemma parse_component_digits orig n u unit :
  lookup_unit u = Some unit -> 0 <= n -> n * unit < 2 ^ 63 ->
  parse_component orig (digits n ++ u) = Ok (n * unit, []).
Proof.
  intros Hu Hn Hb. pose proof (lookup_unit_spec u unit Hu) as (Hs & Hd & Hne & Hp & Hdot).
  destruct (digits_spec n Hn) as (U & D & N). unfold parse_component.
  assert (L : leadingInt (digits n ++ u) 0 = Some (n, u)).
  { rewrite leadingInt_digits; rewrite ?U; [done|done|done|lia|nia]. }
  destruct (digits n) as [|c ds] eqn:E; [done|]. cbn [app forallb] in *.
  apply andb_prop in D as [Hc _]. rewrite Hc, orb_true_r, L. cbn [negb].
  assert (Hpre : (zlen (c :: ds ++ u) =? zlen u) = false).
  { apply Z.eqb_neq. autorewrite with zlen. pose proof (zlen_nonneg ds). lia. }
  rewrite Hpre. destruct u as [|b u']; [done|]. rewrite Hdot. cbn [negb andb].
  unfold apply_unit. rewrite Hs, decide_False by done. rewrite Hu.
  rewrite (proj2 (Z.ltb_ge _ _)) by (apply Z.div_le_lower_bound; lia). done.
Qed.

(** A whole number with a unit is read back exactly. *)
Lemma ParseDuration_digits n u unit :
  lookup_unit u = Some unit -> 0 <= n -> n * unit < 2 ^ 63 ->
  ParseDuration (digits n ++ u) = Ok (n * unit).
Proof.
  intros Hu Hn Hb. pose proof (parse_component_digits (digits n ++ u) n u unit Hu Hn Hb) as C.
  pose proof (lookup_unit_spec u unit Hu) as (_ & Hd & Hne & Hp & _).
  destruct (digits_spec n Hn) as (_ & D & N). unfold ParseDuration.
  set (s := digits n ++ u) in *.
  assert (Hz : s <> gos "0").
  { unfold s. intros E. destruct u as [|b u] using rev_ind; [done|]. rewrite app_assoc in E.
    apply (app_inj_2 _ [] _ (gos "0")) in E as [E _]; [|done]. by apply app_nil in E as [? _]. }
  assert (E : match s with
    | c :: s' => if byteZ c =? 45 then (true, s') else if byteZ c =? 43 then (false, s') else (false, s)
    | [] => (false, [])
    end = (false, s)).
  { unfold s. destruct (digits n) as [|c ds] eqn:Ed; [done|].
    destruct (digits_head_not_sign n c ds Hn Ed) as [H1 H2]. cbn [app].
    by rewrite (proj2 (Z.eqb_neq _ _) H1), (proj2 (Z.eqb_neq _ _) H2). }
  rewrite E, decide_False by done. rewrite decide_False by (unfold s; by intros [? _]%app_nil).
  destruct s as [|c t]; [done|]. cbn [length parse_components]. rewrite C, Z.add_0_l.
  rewrite uwrap_id by (unfold ufits; nia). rewrite (proj2 (Z.ltb_ge _ _)) by lia.
  destruct (length t); cbn [parse_components]; by rewrite (proj2 (Z.ltb_ge _ _)) by lia.
Qed.

(** ** Lines *)

(** A text line the scanner gives back as it is. *)
Definition scannable (l : gostring) : Prop :=
  (newline ∉ l) /\ last l <> Some carriage_return /\ zlen l < MaxScanTokenSize.

#[global] Instance scannable_dec l : Decision (scannable l).
Proof. unfold scannable. apply _. Defined.

Definition unlines (ls : list gostring) : list byte := concat ((fun l => l ++ [newline]) <$> ls).

Lemma split_lines_nonempty s : split_lines s <> [].
Proof. destruct s; cbn [split_lines]; [done|]. case_decide; [done|]. by case_match. Qed.

Lemma split_lines_app l s : newline ∉ l -> split_lines (l ++ newline :: s) = l :: split_lines s.
Proof.
  induction l as [|b l IH]; intros Hl; [done|]. apply not_elem_of_cons in Hl as [Hb Hl].
  cbn [app split_lines]. rewrite decide_False by done. by rewrite (IH Hl).
Qed.

Lemma Scan_unlines ls : Forall scannable ls -> Scan (Rd (unlines ls) EOF) = (ls, None).
Proof.
  unfold Scan. cbn [rd_data rd_err]. induction ls as [|l ls IH]; intros F; [done|].
  apply Forall_cons in F as [(Hn & Hc & Hz) F]. unfold unlines. cbn [fmap list_fmap concat].
  rewrite <- app_assoc. cbn [app]. rewrite split_lines_app by done. cbn [scan_tokens].
  pose proof (split_lines_nonempty (concat ((fun l => l ++ [newline]) <$> ls))) as Hne.
  destruct (split_lines (concat _)) as [|p ps] eqn:E; [done|]. fold (unlines ls) in E.
  rewrite E in IH. rewrite (IH F), (proj2 (Z.ltb_lt _ _) Hz). unfold dropCR.
  destruct (last l); [|by destruct l]. rewrite decide_False by congruence. by destruct l.
Qed.
