(* ===== verification/Config.v ===== *)
(** * The configuration ([internal/config/config.go])

    The configuration of the broker: built-in defaults, overlaid with the flat
    file [kage.yaml] and then with the [KAGE_*] environment variables, and
    validated. [Load_layers] says which source decides each field. *)

From stdpp Require Import base tactics list numbers gmap strings.
From Stdlib Require Import ZArith Lia.
From S2P Require Import Prelude GoIO GoStrings GoText OSFile BrokerStore.
#[local] Open Scope Z_scope.

(** ** Data *)

Definition DefaultConfigFile : gostring := gos "kage.yaml".

(** Durations are in nanoseconds. *)
Record Config := MkConfig {
  Port : Z;
  LogDirectory : gostring;
  MaxSegmentSize : Z;
  WorkerPoolSize : Z;
  ShutdownTimeout : Z;
  LogRetention : Z }.

#[global] Instance Config_eq_dec : EqDecision Config.
Proof. solve_decision. Defined.

Definition defaults : Config :=
  {| Port := 9092; LogDirectory := gos "/data"; MaxSegmentSize := Z.shiftl 1 30;
     WorkerPoolSize := 10000; ShutdownTimeout := 10 * Second; LogRetention := 168 * Hour |}.

Definition set_Port (v : Z) (c : Config) : Config :=
  MkConfig v (LogDirectory c) (MaxSegmentSize c) (WorkerPoolSize c) (ShutdownTimeout c) (LogRetention c).
Definition set_LogDirectory (v : gostring) (c : Config) : Config :=
  MkConfig (Port c) v (MaxSegmentSize c) (WorkerPoolSize c) (ShutdownTimeout c) (LogRetention c).
Definition set_MaxSegmentSize (v : Z) (c : Config) : Config :=
  MkConfig (Port c) (LogDirectory c) v (WorkerPoolSize c) (ShutdownTimeout c) (LogRetention c).
Definition set_WorkerPoolSize (v : Z) (c : Config) : Config :=
  MkConfig (Port c) (LogDirectory c) (MaxSegmentSize c) v (ShutdownTimeout c) (LogRetention c).
Definition set_ShutdownTimeout (v : Z) (c : Config) : Config :=
  MkConfig (Port c) (LogDirectory c) (MaxSegmentSize c) (WorkerPoolSize c) v (LogRetention c).
Definition set_LogRetention (v : Z) (c : Config) : Config :=
  MkConfig (Port c) (LogDirectory c) (MaxSegmentSize c) (WorkerPoolSize c) (ShutdownTimeout c) v.

(** An assignment to a field of the configuration. *)
Definition assign (f : Config -> Config) : st Config unit := fun c => (Ok tt, f c).

(** ** Fields *)

Definition parseInt (s : gostring) (min max : Z) : result Z :=
  match ParseInt s 64 with
  | None => Err (Errorf "not a valid integer: %q" [DStr s])
  | Some n =>
      if (n <? min) || (max <? n)
      then Err (Errorf "value %d out of range [%d, %d]" [DInt n; DInt min; DInt max])
      else Ok n
  end.

Definition k_port : gostring := gos "port".
Definition k_log_directory : gostring := gos "log_directory".
Definition k_max_segment_size : gostring := gos "max_segment_size".
Definition k_worker_pool_size : gostring := gos "worker_pool_size".
Definition k_shutdown_timeout : gostring := gos "shutdown_timeout".
Definition k_log_retention : gostring := gos "log_retention".

Definition applyField (key val : gostring) : st Config unit :=
  if decide (key = k_port) then
    n ← lift_result (parseInt val 1 65535);
    assign (set_Port n)
  else if decide (key = k_log_directory) then
    if decide (val = []) then sfail (Errorf "must not be empty" [])
    else assign (set_LogDirectory val)
  else if decide (key = k_max_segment_size) then
    n ← lift_result (parseInt val 1 (Z.shiftl 1 40));
    assign (set_MaxSegmentSize n)
  else if decide (key = k_worker_pool_size) then
    n ← lift_result (parseInt val 1 (Z.shiftl 1 20));
    assign (set_WorkerPoolSize n)
  else if decide (key = k_shutdown_timeout) then
    d ← wrapf "invalid duration %q: %w" [DStr val] (lift_result (ParseDuration val));
    if d <? 0 then sfail (Errorf "shutdown_timeout must be non-negative" [])
    else assign (set_ShutdownTimeout d)
  else if decide (key = k_log_retention) then
    d ← wrapf "invalid duration %q: %w" [DStr val] (lift_result (ParseDuration val));
    if d <? 0 then sfail (Errorf "log_retention must be non-negative" [])
    else assign (set_LogRetention d)
  else mret tt.

(** ** The file *)

Definition hash : byte := Byte.x23.
Definition colon : byte := Byte.x3a.
Definition double_quote : byte := Byte.x22.
Definition single_quote : byte := Byte.x27.

(** Strip surrounding quotes. *)
Definition unquote (val : gostring) : gostring :=
  match head val, last val with
  | Some a, Some z =>
      if (2 <=? zlen val) &&
         (bool_decide (a = double_quote /\ z = double_quote) ||
          bool_decide (a = single_quote /\ z = single_quote))
      then slice 1 (zlen val - 1) val
      else val
  | _, _ => val
  end.

(** Strip an inline comment. *)
Definition uncomment (val : gostring) : gostring :=
  match IndexByte val hash with
  | Some ci => TrimSpace (take ci val)
  | None => val
  end.

(** The key and the value of a line; [None] for a line that is ignored. *)
Definition line_setting (text : gostring) : option (gostring * gostring) :=
  let line := TrimSpace text in
  if bool_decide (line = []) || HasPrefix line [hash] then None
  else match IndexByte line colon with
       | None => None
       | Some idx =>
           let key := TrimSpace (take idx line) in
           let val := TrimSpace (drop (S idx) line) in
           Some (key, uncomment (unquote val))
       end.

Fixpoint parse_lines (lineNo : Z) (lines : list gostring) : st Config unit :=
  match lines with
  | [] => mret tt
  | text :: lines =>
      let lineNo := lineNo + 1 in
      _ ← match line_setting text with
          | None => mret tt
          | Some (key, val) =>
              wrapf "line %d (%q): %w" [DInt lineNo; DStr key] (applyField key val)
          end;
      parse_lines lineNo lines
  end.

Definition parseYAML (r : reader) : st Config unit :=
  let '(lines, err) := Scan r in
  _ ← parse_lines 0 lines;
  match err with None => mret tt | Some e => sfail e end.

(** ** The environment *)

Section load.
Context `{MapOrder} (Getenv : gostring -> gostring).

(** [strings.ToUpper] on the letters and underscores of a key. *)
Definition ToUpper (s : gostring) : gostring :=
  (fun b => if (97 <=? byteZ b) && (byteZ b <=? 122) then Zbyte (byteZ b - 32) else b) <$> s.

Definition env_vars : gmap gostring gostring :=
  list_to_map [(k_port, Getenv (gos "KAGE_PORT"));
               (k_log_directory, Getenv (gos "KAGE_LOG_DIRECTORY"));
               (k_max_segment_size, Getenv (gos "KAGE_MAX_SEGMENT_SIZE"));
               (k_worker_pool_size, Getenv (gos "KAGE_WORKER_POOL_SIZE"));
               (k_shutdown_timeout, Getenv (gos "KAGE_SHUTDOWN_TIMEOUT"));
               (k_log_retention, Getenv (gos "KAGE_LOG_RETENTION"))].

Definition apply_var (kv : gostring * gostring) : st Config unit :=
  if decide (kv.2 = []) then mret tt
  else wrapf "KAGE_%s=%q: %w" [DStr (ToUpper kv.1); DStr kv.2] (applyField kv.1 kv.2).

Definition applyEnv : st Config unit := range_st apply_var (map_range env_vars).

(** ** Validation *)

Definition validate (c : Config) : option goerr :=
  if (Port c <? 1) || (65535 <? Port c) then Some (Errorf "port %d out of range [1, 65535]" [DInt (Port c)])
  else if decide (LogDirectory c = []) then Some (Errorf "log_directory must not be empty" [])
  else if MaxSegmentSize c <? 1 then Some (Errorf "max_segment_size must be at least 1" [])
  else if WorkerPoolSize c <? 1 then Some (Errorf "worker_pool_size must be at least 1" [])
  else if ShutdownTimeout c <? 0 then Some (Errorf "shutdown_timeout must be non-negative" [])
  else None.

(** ** Loading *)

(** [os.Open(path)], for a file or a directory. *)
Definition os_Open (path : gostring) : st os handle := fun o =>
  let '(f, o) := sys o in
  match f with
  | Some _ => (Err ErrOS, o)
  | None =>
      if decide (path ∈ os_dirs o) then (Ok (OSFile.Handle path true), o)
      else match os_files o !! path with
           | Some _ => (Ok (OSFile.Handle path true), o)
           | None => (Err ErrNotExist, o)
           end
  end.

(** What reading an opened path delivers; reading a directory fails. *)
Definition open_reader (h : handle) : st os reader := fun o =>
  if decide (h_path h ∈ os_dirs o) then (Ok (Rd [] ErrOS), (sys o).2) else file_reader h o.

(** The file, when it can be opened, on top of [cfg]. *)
Definition load_file (configFile : gostring) (cfg : Config) : st os Config :=
  f ← try_st (os_Open configFile);
  match f with
  | inr _ => mret cfg
  | inl h =>
      r ← open_reader h;
      let '(res, cfg) := parseYAML r cfg in
      _ ← (fun o => (Ok tt, (file_Close (h, o)).2.2));
      match res with
      | Ok _ => mret cfg
      | Err e => sfail (Wrapf "config: parse %s: %w" [DStr configFile] e)
      | Panic p => spanic p
      end
  end.

Definition Load (configFile : gostring) : st os Config :=
  cfg ← load_file configFile defaults;
  let '(res, cfg) := applyEnv cfg in
  _ ← wrapf "config: env: %w" [] (lift_result res);
  match validate cfg with
  | Some e => sfail (Wrapf "config: invalid: %w" [] e)
  | None => mret cfg
  end.
End load.

Definition Addr (c : Config) : gostring := gos "0.0.0.0:" ++ fmt_d (Port c).
