(* ===== verification/ConfigSpec.v ===== *)
(** * What the configuration loader promises

    Which of the three sources decides each field of the configuration, that a
    configuration which loads is within its bounds, and that a configuration
    written as a file loads again. *)

From stdpp Require Import base tactics list numbers gmap strings.
From Stdlib Require Import ZArith Lia.
From S2P Require Import Prelude GoIO GoStrings GoText OSFile BrokerStore Config.
#[local] Open Scope Z_scope.

(** ** Fields and their values *)

Inductive field := FPort | FLogDirectory | FMaxSegmentSize | FWorkerPoolSize | FShutdownTimeout | FLogRetention.

#[global] Instance field_eq_dec : EqDecision field.
Proof. solve_decision. Defined.

Definition key_of (f : field) : gostring :=
  match f with
  | FPort => gos "port"
  | FLogDirectory => gos "log_directory"
  | FMaxSegmentSize => gos "max_segment_size"
  | FWorkerPoolSize => gos "worker_pool_size"
  | FShutdownTimeout => gos "shutdown_timeout"
  | FLogRetention => gos "log_retention"
  end.

Definition fields : list field :=
  [FPort; FLogDirectory; FMaxSegmentSize; FWorkerPoolSize; FShutdownTimeout; FLogRetention].

Definition field_of (key : gostring) : option field :=
  snd <$> list_find (fun f => key_of f = key) fields.

Lemma field_of_key f : field_of (key_of f) = Some f.
Proof. by destruct f. Qed.

Lemma field_of_Some key f : field_of key = Some f -> key = key_of f.
Proof.
  unfold field_of. destruct (list_find _ fields) as [[i f']|] eqn:E; [|done].
  apply list_find_Some in E as (_ & <- & _). intros; by simplify_eq/=.
Qed.

Inductive fval := VInt (z : Z) | VStr (s : gostring).

Definition field_value (f : field) (c : Config) : fval :=
  match f with
  | FPort => VInt (Port c)
  | FLogDirectory => VStr (LogDirectory c)
  | FMaxSegmentSize => VInt (MaxSegmentSize c)
  | FWorkerPoolSize => VInt (WorkerPoolSize c)
  | FShutdownTimeout => VInt (ShutdownTimeout c)
  | FLogRetention => VInt (LogRetention c)
  end.

Lemma config_ext c c' : (forall f, field_value f c = field_value f c') -> c = c'.
Proof.
  intros E. destruct c, c'.
  pose proof (E FPort); pose proof (E FLogDirectory); pose proof (E FMaxSegmentSize);
    pose proof (E FWorkerPoolSize); pose proof (E FShutdownTimeout); pose proof (E FLogRetention).
  by simplify_eq/=.
Qed.

(** The values a field can have. *)
Definition in_bounds (f : field) (v : fval) : Prop :=
  match f, v with
  | FPort, VInt z => 1 <= z <= 65535
  | FLogDirectory, VStr s => s <> []
  | FMaxSegmentSize, VInt z => 1 <= z <= 2 ^ 40
  | FWorkerPoolSize, VInt z => 1 <= z <= 2 ^ 20
  | (FShutdownTimeout | FLogRetention), VInt z => 0 <= z < 2 ^ 63
  | _, _ => False
  end.

#[global] Instance in_bounds_dec f v : Decision (in_bounds f v).
Proof. destruct f, v; simpl; apply _. Defined.

(** What a text means as the value of a field: a decimal number, a duration or
    the text itself, when it is in bounds. *)
Definition read_value (f : field) (s : gostring) : option fval :=
  let v := match f with
           | FLogDirectory => Some (VStr s)
           | FShutdownTimeout | FLogRetention =>
               match ParseDuration s with Ok d => Some (VInt d) | _ => None end
           | _ => VInt <$> ParseInt s 64
           end in
  match v with
  | Some v => if decide (in_bounds f v) then Some v else None
  | None => None
  end.

Lemma read_in_bounds f s v : read_value f s = Some v -> in_bounds f v.
Proof. unfold read_value. case_match; [|done]. case_decide; [|done]. intros; by simplify_eq. Qed.

(** ** Settings *)

Abbreviation setting := (gostring * gostring)%type.

(** A setting of a field has a text that means a value; others are ignored. *)
Definition valid (kv : setting) : Prop :=
  match field_of kv.1 with Some f => is_Some (read_value f kv.2) | None => True end.

#[global] Instance valid_dec kv : Decision (valid kv).
Proof. unfold valid. destruct (field_of kv.1); apply _. Defined.

(** The value of a field after a setting. *)
Definition overlay (f : field) (v : fval) (kv : setting) : fval :=
  if decide (field_of kv.1 = Some f) then default v (read_value f kv.2) else v.

(** [m] performs the settings [kvs] one after the other: it succeeds when all
    are valid, and then each field has the value they give it. *)
Definition performs (kvs : list setting) (m : st Config unit) : Prop := forall c,
  (Forall valid kvs /\ exists c', m c = (Ok tt, c') /\
     forall f, field_value f c' = foldl (overlay f) (field_value f c) kvs) \/
  (~ Forall valid kvs /\ exists e c', m c = (Err e, c')).

Lemma performs_nil : performs [] (mret tt).
Proof. intros c. left. split; [done|]. by exists c. Qed.

Lemma performs_bind kvs kvs' m m' :
  performs kvs m -> performs kvs' m' -> performs (kvs ++ kvs') (_ ← m; m').
Proof.
  intros H1 H2 c. rewrite Forall_app. unfold mbind, st_bind.
  destruct (H1 c) as [(F & c1 & E & V)|(F & e & c1 & E)]; rewrite E; [|right; naive_solver].
  destruct (H2 c1) as [(F' & c2 & E' & V')|(F' & e & c2 & E')]; rewrite E'; [left|right; naive_solver].
  split; [done|]. exists c2. split; [done|]. intros f. by rewrite foldl_app, V', V.
Qed.

Lemma performs_wrapf kvs fmt args m : performs kvs m -> performs kvs (wrapf fmt args m).
Proof.
  intros H c. unfold wrapf. destruct (H c) as [(F & c1 & E & V)|(F & e & c1 & E)]; rewrite E; eauto 10.
Qed.

(** ** One setting *)

Lemma parseInt_spec s lo hi :
  (exists n, ParseInt s 64 = Some n /\ lo <= n <= hi /\ parseInt s lo hi = Ok n) \/
  (exists e, parseInt s lo hi = Err e /\ forall n, ParseInt s 64 = Some n -> ~ (lo <= n <= hi)).
Proof.
  unfold parseInt. destruct (ParseInt s 64) as [n|]; [|right; by eexists].
  destruct (Z.ltb_spec n lo), (Z.ltb_spec hi n); simpl; [right..|left; eauto];
    eexists; (split; [done|]); intros; simplify_eq; lia.
Qed.

(** A call that sets the field [f] to the value [val] means, or fails when it
    means none. *)
Lemma performs_set f val m :
  (forall c, (exists v c', read_value f val = Some v /\ m c = (Ok tt, c') /\
                forall g, field_value g c' = if decide (g = f) then v else field_value g c) \/
             (read_value f val = None /\ exists e c', m c = (Err e, c'))) ->
  performs [(key_of f, val)] m.
Proof.
  intros H c. rewrite Forall_singleton. unfold valid. cbn [fst snd]. rewrite field_of_key.
  destruct (H c) as [(v & c' & R & -> & V)|(-> & e & c' & ->)]; [left|right; split; [by intros []|eauto]].
  split; [by rewrite R|]. exists c'. split; [done|]. intros g. cbn [foldl]. unfold overlay. cbn [fst snd].
  rewrite field_of_key, V. repeat case_decide; simplify_eq; [by rewrite R|done..].
Qed.

Lemma performs_int f val lo hi (set : Z -> Config -> Config) :
  (forall s, read_value f s = match VInt <$> ParseInt s 64 with
                              | Some v => if decide (in_bounds f v) then Some v else None
                              | None => None
                              end) ->
  (forall z, in_bounds f (VInt z) <-> lo <= z <= hi) ->
  (forall z c g, field_value g (set z c) = if decide (g = f) then VInt z else field_value g c) ->
  performs [(key_of f, val)] (n ← lift_result (parseInt val lo hi); assign (set n)).
Proof.
  intros Hr Hb Hs. apply performs_set. intros c. rewrite Hr. unfold mbind, st_bind, lift_result.
  destruct (parseInt_spec val lo hi) as [(n & -> & B & ->)|(e & -> & B)].
  - left. exists (VInt n), (set n c). simpl. rewrite decide_True by by apply Hb. done.
  - right. split; [|eauto]. destruct (ParseInt val 64) as [n|]; [|done]. simpl.
    rewrite decide_False; [done|]. rewrite Hb. by apply B.
Qed.

Lemma performs_duration f val fmt args e (set : Z -> Config -> Config) :
  (forall s, read_value f s = match (match ParseDuration s with Ok d => Some (VInt d) | _ => None end) with
                              | Some v => if decide (in_bounds f v) then Some v else None
                              | None => None
                              end) ->
  (forall z, in_bounds f (VInt z) <-> 0 <= z < 2 ^ 63) ->
  (forall z c g, field_value g (set z c) = if decide (g = f) then VInt z else field_value g c) ->
  performs [(key_of f, val)]
    (d ← wrapf fmt args (lift_result (ParseDuration val)); if d <? 0 then sfail e else assign (set d)).
Proof.
  intros Hr Hb Hs. apply performs_set. intros c. rewrite Hr. unfold mbind, st_bind, wrapf, lift_result.
  destruct (ParseDuration val) as [d|e'|p] eqn:E; [|right; by eauto|by apply ParseDuration_no_panic in E].
  apply ParseDuration_range in E. unfold sfits in E. simpl in E. destruct (Z.ltb_spec d 0).
  - right. split; [|by eexists _, _]. rewrite decide_False; [done|]. rewrite Hb. lia.
  - left. exists (VInt d), (set d c). rewrite decide_True by (apply Hb; lia). done.
Qed.

Lemma performs_field key val : performs [(key, val)] (applyField key val).
Proof.
  unfold applyField.
  case_decide; [subst; apply (performs_int FPort); [done|done|by intros ?? []]|].
  case_decide; [subst; apply (performs_set FLogDirectory); intros c; case_decide|].
  { right. subst. by eauto. }
  { left. exists (VStr val), (set_LogDirectory val c). split; [|by split; [|intros []]].
    unfold read_value. by rewrite decide_True. }
  case_decide; [subst; apply (performs_int FMaxSegmentSize); [done|done|by intros ?? []]|].
  case_decide; [subst; apply (performs_int FWorkerPoolSize); [done|done|by intros ?? []]|].
  case_decide; [subst; apply (performs_duration FShutdownTimeout); [done|done|by intros ?? []]|].
  case_decide; [subst; apply (performs_duration FLogRetention); [done|done|by intros ?? []]|].
  assert (E : field_of key = None).
  { destruct (field_of key) as [[]|] eqn:E; [apply field_of_Some in E; contradiction..|done]. }
  intros c. left. unfold valid. rewrite Forall_singleton. cbn [fst]. rewrite E. split; [done|].
  exists c. split; [done|]. intros f. cbn [foldl]. unfold overlay. cbn [fst]. by rewrite E.
Qed.

(** ** The file *)

Lemma performs_lines n lines : performs (omap line_setting lines) (parse_lines n lines).
Proof.
  revert n. induction lines as [|l ls IH]; intros n; [apply performs_nil|]. cbn [omap list_omap parse_lines].
  specialize (IH (n + 1)). destruct (line_setting l) as [[k v]|].
  - apply (performs_bind [(k, v)]); [|done]. apply performs_wrapf, performs_field.
  - apply (performs_bind []); [apply performs_nil|done].
Qed.

(** ** The environment *)

Section env.
Context `{MapOrder} (Getenv : gostring -> gostring).

Definition env_value (f : field) : gostring := Getenv (gos "KAGE_" ++ ToUpper (key_of f)).

(** The variables that are set, in the order [range] visits them. *)
Definition env_settings : list setting := filter (fun kv => kv.2 <> []) (map_range (env_vars Getenv)).

Lemma performs_env : performs env_settings (applyEnv Getenv).
Proof.
  unfold env_settings, applyEnv. induction (map_range (env_vars Getenv)) as [|[k v] kvs IH];
    [apply performs_nil|]. cbn [range_st].
  destruct (decide (v = [])) as [->|Hv];
    [rewrite filter_cons_False by (simpl; tauto)|rewrite filter_cons_True by done].
  - apply (performs_bind []); [apply performs_nil|done].
  - apply (performs_bind [(k, v)]); [|done]. unfold apply_var. cbn [fst snd]. rewrite decide_False by done.
    apply performs_wrapf, performs_field.
Qed.

Lemma env_vars_lookup k v : env_vars Getenv !! k = Some v <-> exists f, k = key_of f /\ v = env_value f.
Proof.
  unfold env_vars. rewrite <- elem_of_list_to_map by (apply (bool_decide_unpack _); by vm_compute).
  split.
  - intros Hin. repeat (apply elem_of_cons in Hin as [?|Hin]; [simplify_eq|]); [| | | | | |by apply elem_of_nil in Hin].
    + by exists FPort. + by exists FLogDirectory. + by exists FMaxSegmentSize.
    + by exists FWorkerPoolSize. + by exists FShutdownTimeout. + by exists FLogRetention.
  - intros (f & -> & ->). destruct f; repeat first [by apply elem_of_cons; left|apply elem_of_cons; right].
Qed.

(** Whatever the order, a field has at most one variable. *)
Lemma env_settings_of f :
  filter (fun kv => field_of kv.1 = Some f) env_settings =
  if decide (env_value f = []) then [] else [(key_of f, env_value f)].
Proof.
  assert (P : filter (fun kv => field_of kv.1 = Some f) env_settings ≡ₚ
              if decide (env_value f = []) then [] else [(key_of f, env_value f)]).
  { apply NoDup_Permutation.
    - unfold env_settings. do 2 apply NoDup_filter. rewrite map_range_perm. apply NoDup_map_to_list.
    - case_decide; [constructor|apply NoDup_singleton].
    - intros [k v]. unfold env_settings. rewrite !list_elem_of_filter, map_range_perm, elem_of_map_to_list.
      rewrite env_vars_lookup. cbn [fst snd]. split.
      + intros (Hk & Hv & f' & -> & ->). rewrite field_of_key in Hk. simplify_eq.
        rewrite decide_False by done. by apply list_elem_of_singleton.
      + case_decide; [by intros ?%elem_of_nil|]. intros ?%list_elem_of_singleton. simplify_eq.
        rewrite field_of_key. eauto. }
  case_decide; [by apply Permutation_nil_r|by apply Permutation_singleton_r].
Qed.

Lemma env_settings_valid :
  Forall valid env_settings <-> forall f, env_value f <> [] -> is_Some (read_value f (env_value f)).
Proof.
  rewrite Forall_forall. split.
  - intros Hv f Hf. specialize (Hv (key_of f, env_value f)). unfold valid in Hv. cbn [fst snd] in Hv.
    rewrite field_of_key in Hv. apply Hv.
    apply (list_elem_of_filter (fun kv => field_of kv.1 = Some f)). rewrite env_settings_of, decide_False by done.
    by apply list_elem_of_singleton.
  - intros Hv [k v] Hin. unfold valid. cbn [fst snd]. destruct (field_of k) as [f|] eqn:E; [|done].
    assert (K : (k, v) ∈ filter (fun kv => field_of kv.1 = Some f) env_settings) by (by apply list_elem_of_filter).
    rewrite env_settings_of in K. case_decide; [by apply elem_of_nil in K|].
    apply list_elem_of_singleton in K. simplify_eq. by apply Hv.
Qed.
End env.

(** ** Loading *)

(** What the scanner makes of the configuration file; a missing file is an
    empty one. *)
Definition config_lines (file : gostring) (o : os) : list gostring * option goerr :=
  match os_files o !! file with
  | Some fl => Scan (Rd (f_data fl) EOF)
  | None => ([], None)
  end.

Definition file_settings (file : gostring) (o : os) : list setting :=
  omap line_setting (config_lines file o).1.

(** A result [r] of overlaying [c] with the settings of some lines. *)
Definition overlaid (c : Config) (sc : list gostring * option goerr) (r : result Config) : Prop :=
  let kvs := omap line_setting sc.1 in
  match r with
  | Ok c' => Forall valid kvs /\ sc.2 = None /\
             forall f, field_value f c' = foldl (overlay f) (field_value f c) kvs
  | Err _ => ~ Forall valid kvs \/ sc.2 <> None
  | Panic _ => False
  end.

Lemma parseYAML_overlaid r c :
  overlaid c (Scan r) (match parseYAML r c with (Ok _, c') => Ok c' | (Err e, _) => Err e | (Panic p, _) => Panic p end).
Proof.
  unfold parseYAML, overlaid. destruct (Scan r) as [lines err]. cbn [fst snd].
  unfold mbind, st_bind. destruct (performs_lines 0 lines c) as [(F & c' & E & V)|(F & e & c' & E)];
    rewrite E; [|by left]. destruct err; cbn; [by right|done].
Qed.

Lemma load_file_overlaid file c o :
  exists sc, overlaid c sc (load_file file c o).1 /\
             (os_faults o = [] -> (file ∉ os_dirs o) -> sc = config_lines file o).
Proof.
  unfold load_file, mbind, st_bind, try_st. unfold os_Open at 1.
  destruct (sys o) as [[k|] o1] eqn:E.
  { exists ([], None). split; [by cbn|]. intros Hf. unfold sys in E. by rewrite Hf in E. }
  assert (Ho : os_dirs o1 = os_dirs o /\ os_files o1 = os_files o /\ (os_faults o = [] -> os_faults o1 = [])).
  { unfold sys in E. destruct (os_faults o) eqn:Q; simplify_eq/=; split_and!; try done; by intros. }
  destruct Ho as (Hd & Hfl & Hno). unfold config_lines. rewrite <- Hd, <- Hfl.
  assert (K : forall r o2, overlaid c (Scan r) ((let '(res, cfg) := parseYAML r c in
      _ ← (fun o => (Ok tt, (file_Close (OSFile.Handle file true, o)).2.2));
      match res with
      | Ok _ => mret cfg
      | Err e => sfail (Wrapf "config: parse %s: %w" [DStr file] e)
      | Panic p => spanic p
      end) o2).1).
  { intros r o2. pose proof (parseYAML_overlaid r c) as P. destruct (parseYAML r c) as [[[]|e|p] c']; by cbn. }
  case_decide as Hin.
  - unfold open_reader. cbn [h_path]. rewrite decide_True by done. eexists. split; [apply K|done].
  - destruct (os_files o1 !! file) as [fl|] eqn:Hf; [|by exists ([], None)].
    unfold open_reader, file_reader. cbn [h_path h_open negb]. rewrite decide_False by done.
    destruct (sys o1) as [[k|] o2] eqn:E2; eexists; (split; [apply K|]); intros Hn _.
    + unfold sys in E2. by rewrite (Hno Hn) in E2.
    + unfold sys in E2. rewrite (Hno Hn) in E2. simplify_eq. unfold content. by rewrite Hf.
Qed.

(** The texts a list of settings gives to a field. *)
Definition texts_of (f : field) (kvs : list setting) : list gostring :=
  (filter (fun kv => field_of kv.1 = Some f) kvs).*2.

(** The last one decides. *)
Lemma overlay_last f v kvs :
  Forall valid kvs ->
  Some (foldl (overlay f) v kvs) =
  match last (texts_of f kvs) with Some s => read_value f s | None => Some v end.
Proof.
  induction kvs as [|[k s] kvs IH] using rev_ind; [done|]. intros [F F']%Forall_app.
  rewrite Forall_singleton in F'. unfold texts_of. rewrite foldl_app, filter_app. cbn [foldl].
  unfold overlay at 1. unfold valid in F'. cbn [fst snd] in *. case_decide as E.
  - rewrite filter_cons_True by done. rewrite filter_nil, fmap_app, last_app. cbn. rewrite E in F'.
    destruct F' as [w ->]. done.
  - rewrite filter_cons_False, filter_nil, app_nil_r by done. by apply IH.
Qed.

Lemma overlay_bounds f v kvs : in_bounds f v -> in_bounds f (foldl (overlay f) v kvs).
Proof.
  revert v. induction kvs as [|kv kvs IH]; intros v Hv; [done|]. cbn [foldl]. apply IH.
  unfold overlay. case_decide; [|done]. destruct (read_value f kv.2) eqn:E; [|done].
  by eapply read_in_bounds.
Qed.

Lemma defaults_bounds f : in_bounds f (field_value f defaults).
Proof. destruct f; concrete. Qed.

Lemma validate_in_bounds c : (forall f, in_bounds f (field_value f c)) -> validate c = None.
Proof.
  intros B. pose proof (B FPort) as B1. pose proof (B FLogDirectory) as B2.
  pose proof (B FMaxSegmentSize) as B3. pose proof (B FWorkerPoolSize) as B4.
  pose proof (B FShutdownTimeout) as B5. simpl in *. unfold validate.
  rewrite (proj2 (Z.ltb_ge _ _)), (proj2 (Z.ltb_ge _ _)) by lia. cbn [orb]. rewrite decide_False by done.
  by rewrite !(proj2 (Z.ltb_ge _ _)) by lia.
Qed.

Section load.
Context `{MapOrder} (Getenv : gostring -> gostring).

(** Everything there is to know about a call of [Load]. *)
Lemma Load_outcome file o :
  exists sc, (os_faults o = [] -> (file ∉ os_dirs o) -> sc = config_lines file o) /\
  let kvs := omap line_setting sc.1 in
  match (Load Getenv file o).1 with
  | Ok c => Forall valid kvs /\ sc.2 = None /\ Forall valid (env_settings Getenv) /\
            (forall f, in_bounds f (field_value f c)) /\
            forall f, field_value f c = foldl (overlay f) (field_value f defaults) (kvs ++ env_settings Getenv)
  | Err _ => ~ Forall valid kvs \/ sc.2 <> None \/ ~ Forall valid (env_settings Getenv)
  | Panic _ => False
  end.
Proof.
  destruct (load_file_overlaid file defaults o) as (sc & P & Hsc). exists sc. split; [done|].
  cbv zeta. unfold Load, mbind, st_bind. destruct (load_file file defaults o) as [[c1|e|p] o1];
    cbn [fst] in P; [|cbn in *; tauto|done].
  destruct P as (F & N & V).
  destruct (performs_env Getenv c1) as [(F' & c & E & V')|(F' & e & c & E)]; rewrite E; [|by right; right].
  assert (D : forall f, field_value f c =
      foldl (overlay f) (field_value f defaults) (omap line_setting sc.1 ++ env_settings Getenv)).
  { intros f. by rewrite foldl_app, V', V. }
  assert (B : forall f, in_bounds f (field_value f c)).
  { intros f. rewrite D. apply overlay_bounds, defaults_bounds. }
  unfold wrapf, lift_result. rewrite (validate_in_bounds c B). by cbn.
Qed.

(** The text that decides a field: the environment variable when it is set,
    else the last line of the file for it, if there is one. *)
Definition deciding_text (f : field) (file : gostring) (o : os) : option gostring :=
  if decide (env_value Getenv f = []) then last (texts_of f (file_settings file o))
  else Some (env_value Getenv f).

Lemma Load_decided file o :
  os_faults o = [] -> (file ∉ os_dirs o) ->
  let good := Forall valid (file_settings file o) /\ (config_lines file o).2 = None /\
              forall f, env_value Getenv f <> [] -> is_Some (read_value f (env_value Getenv f)) in
  match (Load Getenv file o).1 with
  | Ok c => good /\ forall f, Some (field_value f c) =
      match deciding_text f file o with Some s => read_value f s | None => Some (field_value f defaults) end
  | Err _ => ~ good
  | Panic _ => False
  end.
Proof.
  intros Hf Hd. destruct (Load_outcome file o) as (sc & Hsc & P). rewrite (Hsc Hf Hd) in P.
  fold (file_settings file o) in P. cbv zeta in *.
  pose proof (env_settings_valid Getenv) as W.
  destruct (Load Getenv file o).1 as [c|e|p]; [|tauto|done].
  destruct P as (F & N & F' & _ & V). split; [tauto|]. intros f.
  rewrite V, overlay_last by (by apply Forall_app). unfold texts_of, deciding_text.
  rewrite filter_app, env_settings_of, fmap_app. case_decide; [by rewrite app_nil_r|].
  by rewrite last_app.
Qed.

(** C40: A configuration that loads has every field within its bounds,
    whatever the file, the environment, the order in which the environment is
    visited and the failures of system calls; [Load] never panics. *)
Theorem Load_in_bounds file o :
  match (Load Getenv file o).1 with
  | Ok c => 1 <= Port c <= 65535 /\ LogDirectory c <> [] /\ 1 <= MaxSegmentSize c <= 2 ^ 40 /\
            1 <= WorkerPoolSize c <= 2 ^ 20 /\ 0 <= ShutdownTimeout c < 2 ^ 63 /\ 0 <= LogRetention c < 2 ^ 63
  | Err _ => True
  | Panic _ => False
  end.
Proof.
  destruct (Load_outcome file o) as (sc & _ & P). destruct (Load Getenv file o).1 as [c|e|p]; [|done..].
  destruct P as (_ & _ & _ & B & _).
  exact (conj (B FPort) (conj (B FLogDirectory) (conj (B FMaxSegmentSize) (conj (B FWorkerPoolSize)
    (conj (B FShutdownTimeout) (B FLogRetention)))))).
Qed.

(** [Load] succeeds exactly when every setting of the file and of the
    environment has a meaningful value and the file can be scanned; then each
    field is decided by its environment variable if that is set, else by the
    last line of the file for it, else by the default. The order in which the
    environment map is visited does not matter. The package comment and the
    comment of [Load] rank the file above the environment. *)
Theorem Load_layers file o :
  os_faults o = [] -> (file ∉ os_dirs o) ->
  let good := Forall valid (file_settings file o) /\ (config_lines file o).2 = None /\
              forall f, env_value Getenv f <> [] -> is_Some (read_value f (env_value Getenv f)) in
  match (Load Getenv file o).1 with
  | Ok c => good /\ forall f, Some (field_value f c) =
      match deciding_text f file o with Some s => read_value f s | None => Some (field_value f defaults) end
  | Err _ => ~ good
  | Panic _ => False
  end.
Proof. apply Load_decided. Qed.

(** C28: [Load] succeeds exactly when every setting of the file and of the
    environment has a meaningful value and the file can be scanned. Then a field
    that only the file sets has the value of its last line there, a field that
    only the environment sets has the value of its variable, and a field that
    neither sets has its default. System calls do not fail, the file is not a
    directory; which of the two wins when both set a field is not stated here
    (the comments disagree). *)
Theorem Load_sources file o :
  os_faults o = [] -> (file ∉ os_dirs o) ->
  let in_file f := last (texts_of f (file_settings file o)) in
  let in_env f := if decide (env_value Getenv f = []) then None else Some (env_value Getenv f) in
  let good := Forall valid (file_settings file o) /\ (config_lines file o).2 = None /\
              forall f, env_value Getenv f <> [] -> is_Some (read_value f (env_value Getenv f)) in
  match (Load Getenv file o).1 with
  | Ok c => good /\ forall f,
      match in_file f, in_env f with
      | Some s, None | None, Some s => read_value f s = Some (field_value f c)
      | None, None => field_value f c = field_value f defaults
      | Some _, Some _ => True
      end
  | Err _ => ~ good
  | Panic _ => False
  end.
Proof.
  intros Hf Hd. pose proof (Load_decided file o Hf Hd) as L. cbv zeta in *.
  destruct (Load Getenv file o).1 as [c|e|p]; [|done..]. destruct L as [Hg L]. split; [done|]. intros f.
  specialize (L f). unfold deciding_text in L. case_decide; destruct (last _); by (congruence || done).
Qed.
End load.

(** ** Writing a configuration as a file *)

Definition text_of (f : field) (c : Config) : gostring :=
  match f with
  | FPort => digits (Port c)
  | FLogDirectory => LogDirectory c
  | FMaxSegmentSize => digits (MaxSegmentSize c)
  | FWorkerPoolSize => digits (WorkerPoolSize c)
  | FShutdownTimeout => digits (ShutdownTimeout c) ++ gos "ns"
  | FLogRetention => digits (LogRetention c) ++ gos "ns"
  end.

Definition line_of (kv : setting) : gostring := kv.1 ++ gos ": " ++ kv.2.

Definition written_settings (c : Config) : list setting := (fun f => (key_of f, text_of f c)) <$> fields.

Definition print_config (c : Config) : list byte := unlines (line_of <$> written_settings c).

(** A text that is its own value: printable at both ends, not quoted, without
    a comment sign or a newline, and not too long for a line. *)
Definition plain_text (s : gostring) : Prop :=
  framed s = true /\ (hash ∉ s) /\ (newline ∉ s) /\ head s <> Some double_quote /\
  head s <> Some single_quote /\ zlen s < 65000.

#[global] Instance plain_text_dec s : Decision (plain_text s).
Proof. unfold plain_text. apply _. Defined.

Lemma IndexByte_app k b rest : b ∉ k -> IndexByte (k ++ b :: rest) b = Some (length k).
Proof.
  induction k as [|a k IH]; intros Hk; cbn [app IndexByte]; [by rewrite decide_True|].
  apply not_elem_of_cons in Hk as [Ha Hk]. rewrite decide_False by done. by rewrite (IH Hk).
Qed.

Lemma IndexByte_None s b : b ∉ s -> IndexByte s b = None.
Proof.
  induction s as [|a s IH]; intros Hs; cbn [IndexByte]; [done|].
  apply not_elem_of_cons in Hs as [Ha Hs]. rewrite decide_False by done. by rewrite (IH Hs).
Qed.

Lemma unquote_plain s : plain_text s -> unquote s = s.
Proof.
  intros (_ & _ & _ & H1 & H2 & _). unfold unquote. destruct (head s) as [a|]; [|done].
  destruct (last s); [|done]. rewrite !bool_decide_eq_false_2 by naive_solver. by rewrite andb_false_r.
Qed.

Lemma TrimSpace_blank s : framed s = true -> TrimSpace (gos " " ++ s) = s.
Proof. intros Hs. unfold TrimSpace. change (gos " " ++ s) with (Zbyte 32 :: s). rewrite TrimLeft_blank. by apply TrimSpace_framed. Qed.

Lemma line_setting_written k v :
  framed k = true -> (colon ∉ k) -> (hash ∉ k) -> plain_text v -> line_setting (line_of (k, v)) = Some (k, v).
Proof.
  intros Fk Ck Hk Hv. pose proof Hv as (Fv & Hh & _). unfold line_setting, line_of. cbn [fst snd].
  pose proof (andb_prop _ _ Fk) as [Fk1 _]. pose proof (andb_prop _ _ Fv) as [_ Fv2].
  rewrite (TrimSpace_framed (k ++ _)) by by apply framed_app.
  destruct k as [|b k]; [done|]. rewrite bool_decide_eq_false_2 by done.
  assert (HasPrefix ((b :: k) ++ gos ": " ++ v) [hash] = false) as ->.
  { apply bool_decide_eq_false_2. intros [t E]. cbn in E. simplify_eq. apply Hk. by left. }
  cbn [orb]. change (gos ": " ++ v) with (colon :: (gos " " ++ v)). rewrite IndexByte_app by done.
  rewrite take_app_length, TrimSpace_framed by done.
  replace (S (length (b :: k))) with (length ((b :: k) ++ [colon])) by (rewrite length_app; simpl; lia).
  change (colon :: gos " " ++ v) with ([colon] ++ (gos " " ++ v)). rewrite (app_assoc (b :: k)), drop_app_length.
  rewrite TrimSpace_blank, unquote_plain by done. unfold uncomment. by rewrite IndexByte_None.
Qed.

Lemma length_digits_aux fuel n acc : (length (digits_aux fuel n acc) <= fuel + length acc)%nat.
Proof.
  revert n acc. induction fuel as [|k IH]; intros n acc; cbn [digits_aux]; [done|].
  case_match; simpl; [lia|]. etrans; [apply IH|]. simpl. lia.
Qed.

Lemma zlen_digits n : 0 <= n < 2 ^ 63 -> zlen (digits n) <= 64.
Proof.
  intros Hn. unfold digits, zlen. pose proof (length_digits_aux (S (Z.to_nat (Z.log2 n))) n []).
  assert (Z.log2 n < 63) by (destruct (decide (n = 0)) as [->|]; [done|apply Z.log2_lt_pow2; lia]).
  simpl in *. pose proof (Z.log2_nonneg n). lia.
Qed.

(** A number with an optional unit is plain. *)
Lemma plain_digits n u :
  0 <= n < 2 ^ 63 -> u = [] \/ u = gos "ns" -> plain_text (digits n ++ u).
Proof.
  intros Hn Hu. destruct (digits_spec n) as (_ & D & N); [lia|].
  pose proof (zlen_digits n Hn) as L. destruct (digits_head_solid n) as [H1 H2]; [lia|].
  apply Is_true_true, forallb_True in D.
  assert (K : Forall (fun b => is_digit b = true \/ b ∈ gos "ns") (digits n ++ u)).
  { apply Forall_app. split; [eapply Forall_impl; [exact D|]; intros b; by left; apply Is_true_true|].
    apply Forall_forall. intros b Hb. right. destruct Hu as [->| ->]; [by apply elem_of_nil in Hb|done]. }
  assert (G : forall b, (is_digit b || bool_decide (b ∈ gos "ns")) = false -> b ∉ digits n ++ u).
  { intros b [Hb1 Hb2%bool_decide_eq_false]%orb_false_iff Hin. eapply Forall_forall in K as [K|K]; [|done|exact Hin];
      congruence. }
  assert (Hh : forall b, is_digit b = false -> head (digits n ++ u) <> Some b).
  { intros b Hb. destruct (digits n) as [|c ds]; [done|]. apply Forall_cons in D as [D _]. cbn.
    intros ?. simplify_eq. by rewrite Hb in D. }
  split_and!; [|by apply G..|by apply Hh|by apply Hh|].
  - destruct Hu as [->| ->]; [rewrite app_nil_r; unfold framed; by rewrite H1, H2|].
    by apply (framed_app _ []).
  - rewrite zlen_app. destruct Hu as [->| ->]; [rewrite zlen_nil|change (zlen (gos "ns")) with 2]; lia.
Qed.

(** What a text written for a field means is the value of the field. *)
Lemma read_text_of f c : in_bounds f (field_value f c) -> read_value f (text_of f c) = Some (field_value f c).
Proof.
  assert (I : forall z, 0 <= z < 2 ^ 63 -> ParseInt (digits z) 64 = Some z) by (intros; by apply ParseInt_digits).
  assert (T : forall z, 0 <= z < 2 ^ 63 -> ParseDuration (digits z ++ gos "ns") = Ok z).
  { intros z Hz. rewrite (ParseDuration_digits z _ 1) by (done || lia). f_equal. lia. }
  intros B. destruct f; unfold read_value; cbn [text_of field_value in_bounds] in *;
    rewrite ?I, ?T by lia; cbn [fmap option_fmap option_map in_bounds]; by rewrite decide_True.
Qed.

Lemma plain_text_of f c :
  in_bounds f (field_value f c) -> plain_text (LogDirectory c) -> plain_text (text_of f c).
Proof.
  intros B P. destruct f; cbn [text_of field_value in_bounds] in *; [|done|..];
    first [by apply plain_digits; [lia|right]|rewrite <- (app_nil_r (digits _)); by apply plain_digits; [lia|left]].
Qed.

Lemma line_of_scannable f c :
  plain_text (text_of f c) -> scannable (line_of (key_of f, text_of f c)).
Proof.
  intros (F & _ & Hn & _ & _ & Hl). unfold line_of, scannable. cbn [fst snd]. set (v := text_of f c) in *.
  clearbody v. split_and!.
  - rewrite !not_elem_of_app. split_and!; [destruct f; concrete|concrete|done].
  - apply andb_prop in F as [_ F]. destruct v as [|b v] using rev_ind; [done|]. rewrite !app_assoc, last_snoc.
    rewrite reverse_app in F. cbn in F. intros ?. simplify_eq.
  - rewrite !zlen_app. unfold MaxScanTokenSize. change (zlen (gos ": ")) with 2.
    assert (zlen (key_of f) <= 16) by (destruct f; by vm_compute). lia.
Qed.

Lemma written_lines c :
  (forall f, in_bounds f (field_value f c)) -> plain_text (LogDirectory c) ->
  Scan (Rd (print_config c) EOF) = (line_of <$> written_settings c, None) /\
  omap line_setting (line_of <$> written_settings c) = written_settings c.
Proof.
  intros B P. split.
  - apply Scan_unlines. apply Forall_fmap, Forall_fmap. apply Forall_forall. intros f _.
    by apply line_of_scannable, plain_text_of.
  - unfold written_settings. induction fields as [|f fs IH]; [done|].
    cbn [fmap list_fmap omap list_omap]. rewrite line_setting_written; [by rewrite IH|..].
    + by destruct f.
    + destruct f; concrete.
    + destruct f; concrete.
    + by apply plain_text_of.
Qed.

Section roundtrip.
Context `{MapOrder} (Getenv : gostring -> gostring).

(** C18: A configuration within its bounds, with a log directory that is a
    plain text, is loaded back from the file that lists its fields, when no
    environment variable is set. *)
Theorem config_roundtrip c file t o :
  (forall f, in_bounds f (field_value f c)) -> plain_text (LogDirectory c) ->
  os_faults o = [] -> (file ∉ os_dirs o) -> os_files o !! file = Some (File (print_config c) t) ->
  (forall f, env_value Getenv f = []) ->
  (Load Getenv file o).1 = Ok c.
Proof.
  intros B P Hf Hd Hfile He. pose proof (Load_decided Getenv file o Hf Hd) as D. cbv zeta in D.
  destruct (written_lines c B P) as [Hs Ho].
  assert (L : config_lines file o = (line_of <$> written_settings c, None))
    by (unfold config_lines; rewrite Hfile; apply Hs).
  assert (S : file_settings file o = written_settings c) by (unfold file_settings; by rewrite L).
  destruct (Load Getenv file o).1 as [c'|e|p]; [|exfalso; apply D|done].
  - destruct D as [_ D]. f_equal. apply config_ext. intros f. specialize (D f).
    unfold deciding_text in D. rewrite decide_True, S in D by done.
    assert (texts_of f (written_settings c) = [text_of f c]) as E by by destruct f.
    rewrite E in D. cbn [last] in D. rewrite read_text_of in D by done. congruence.
  - rewrite S, L. split_and!; [|done|intros f Hne; by destruct Hne].
    unfold written_settings. apply Forall_fmap, Forall_forall. intros f _.
    change (valid (key_of f, text_of f c)). unfold valid. cbn [fst snd].
    rewrite field_of_key, read_text_of by done. by eexists.
Qed.
End roundtrip.

(** ** Concrete configurations *)

Definition sample_config : Config := MkConfig 9094 (gos "/var/lib/kage") 4096 16 (3 * Second) 0.

(** The environment sets the port and the file sets everything. *)
Definition sample_config_env (name : gostring) : gostring :=
  if decide (name = gos "KAGE_PORT") then gos "7000" else [].

Definition sample_config_os : os :=
  OS {[DefaultConfigFile := File (print_config sample_config) 0]} {[gos "/"]} (fun _ => 0) 100 [].

Lemma sample_config_in_bounds f : in_bounds f (field_value f sample_config).
Proof. destruct f; concrete. Qed.

(** The file sets the size of the pool, the environment the port. *)
Definition sample_layers_os : os :=
  OS {[DefaultConfigFile := File (unlines [gos "# the pool"; gos "worker_pool_size: 8"; gos "worker_pool_size: 16"]) 0]}
     {[gos "/"]} (fun _ => 0) 100 [].

Lemma Load_sources_witness :
  match (Load (H := insertion_order) sample_config_env DefaultConfigFile sample_layers_os).1 with
  | Ok c => Port c = 7000 /\ WorkerPoolSize c = 16 /\ LogDirectory c = gos "/data"
  | _ => False
  end.
Proof.
  pose proof (Load_sources (H := insertion_order) sample_config_env DefaultConfigFile sample_layers_os
    eq_refl ltac:(concrete)) as L. cbv zeta in L.
  destruct (Load sample_config_env DefaultConfigFile sample_layers_os).1 as [c|e|p] eqn:E.
  - destruct L as [_ L]. pose proof (L FPort) as L1. pose proof (L FWorkerPoolSize) as L2. pose proof (L FLogDirectory) as L3.
    clear E L.
    destruct c as [port dir size pool timeout retention]. vm_compute in L1, L2, L3. by simplify_eq.
  - clear L. vm_compute in E. discriminate E.
  - done.
Defined.

Lemma config_roundtrip_witness :
  (Load (H := insertion_order) (fun _ => []) DefaultConfigFile sample_config_os).1 = Ok sample_config.
Proof.
  apply (config_roundtrip (H := insertion_order) (fun _ => []) sample_config DefaultConfigFile 0 sample_config_os).
  - apply sample_config_in_bounds.
  - concrete.
  - reflexivity.
  - concrete.
  - reflexivity.
  - reflexivity.
Defined.

(** Quotes are stripped before the inline comment: a comment sign inside
    quotes still starts a comment, and quotes before a comment stay part of
    the value. *)
Theorem quotes_and_comments :
  let quoted s := [double_quote] ++ gos s ++ [double_quote] in
  line_setting (gos "log_directory: " ++ quoted "/data#1") = Some (gos "log_directory", gos "/data") /\
  line_setting (gos "log_directory: " ++ quoted "/data" ++ gos " # disk") =
    Some (gos "log_directory", quoted "/data").
Proof. by vm_compute. Qed.
