(* ===== verification/Daemon.v ===== *)
(** * The daemon ([cmd/kaged/main.go])

    The start-up sequence of the process, as one call on the operating system,
    and its life after that: the accept loop, the pool of connection handlers
    and the shutdown, whose goroutines run concurrently, as a transition
    system. Logging is left out; the metrics endpoint is in [MetricsServer]. *)

From stdpp Require Import base tactics list numbers gmap strings.
From Stdlib Require Import ZArith Lia.
From S2P Require Import Prelude GoIO GoStrings GoText OSFile LogSegment BrokerStore Metrics Handler Config.
#[local] Open Scope Z_scope.

(** ** Start-up *)

Section startup.
Context `{Prometheus} `{MapOrder} (Getenv : gostring -> gostring).

(** [lc.Listen(ctx, "tcp", addr)]: a system call that can fail. *)
Definition net_Listen (addr : gostring) : st os unit := fun o =>
  let '(f, o) := sys o in (match f with Some _ => Err ErrOS | None => Ok tt end, o).

Definition segment_config (cfg : Config) : SegmentConfig :=
  {| sc_MaxSize := MaxSegmentSize cfg; sc_Retention := LogRetention cfg |}.

(** A new handler with its offset cache loaded. *)
Definition hydrate (store : BrokerStore) (m : Metrics) : st os Handler := fun o =>
  let '(r, (handler, o)) := LoadOffsetsCache (NewHandler store m, o) in
  (match r with Ok _ => Ok handler | Err e => Err e | Panic p => Panic p end, o).

(** [main] up to the accept loop. An error is the one it logs before
    [os.Exit(1)], which runs no deferred call. *)
Definition startup (configFile : gostring) : st os (Config * Handler) :=
  cfg ← Load Getenv configFile;
  let m := New in
  _ ← os_MkdirAll (LogDirectory cfg);
  store ← OpenBrokerStore (LogDirectory cfg) (segment_config cfg);
  _ ← net_Listen (Addr cfg);
  handler ← hydrate store m;
  mret (cfg, handler).
End startup.

(** ** Serving *)

(** Where the accept loop is: in [Accept], with a connection, with a slot of
    the semaphore for it, with the wait group incremented for it, or gone. *)
Inductive acceptor := Accepting | Got (c : nat) | Slotted (c : nat) | Counted (c : nat) | Left.

(** Where the goroutine of a connection is: in [Handle], out of it, past the
    release of its slot; and whether [Handle] panicked, in which case the
    deferred calls run all the same and the panic goes on after the last of
    them, [wg.Done()]. *)
Inductive worker := Serving | Returned (panicked : bool) | Released (panicked : bool) | Dying.

(** Where [main] is: waiting for the signal, past it, waiting for the
    connections to drain, past the [select] (and whether on its first branch),
    past the deferred [store.Close()]; or dead of a panic. *)
Inductive main_pc := Waiting | Signalled | Draining | Exiting (clean : bool) | Exited | Crashed.

#[global] Instance acceptor_eq_dec : EqDecision acceptor.
Proof. solve_decision. Defined.
#[global] Instance worker_eq_dec : EqDecision worker.
Proof. solve_decision. Defined.
#[global] Instance main_pc_eq_dec : EqDecision main_pc.
Proof. solve_decision. Defined.

(** [d_pool] is the capacity of the channel [sem] and [d_sem] its length;
    [d_wg] is the counter of the wait group; [d_drained] says that
    [shutdownDone] is closed. Connections are numbered; [d_accepted] and
    [d_closed] are those that [Accept] returned and those that are closed. *)
Record daemon := Daemon {
  d_pool : Z;
  d_main : main_pc;
  d_cancelled : bool;
  d_listening : bool;
  d_drained : bool;
  d_acceptor : acceptor;
  d_sem : Z;
  d_wg : Z;
  d_workers : list (nat * worker);
  d_accepted : list nat;
  d_closed : list nat }.

Definition boot (cfg : Config) : daemon :=
  Daemon (WorkerPoolSize cfg) Waiting false true false Accepting 0 0 [] [] [].

Definition set_main (m : main_pc) (s : daemon) : daemon :=
  Daemon (d_pool s) m (d_cancelled s) (d_listening s) (d_drained s) (d_acceptor s) (d_sem s) (d_wg s)
         (d_workers s) (d_accepted s) (d_closed s).
Definition set_cancelled (s : daemon) : daemon :=
  Daemon (d_pool s) (d_main s) true (d_listening s) (d_drained s) (d_acceptor s) (d_sem s) (d_wg s)
         (d_workers s) (d_accepted s) (d_closed s).
Definition stop_listening (s : daemon) : daemon :=
  Daemon (d_pool s) (d_main s) (d_cancelled s) false (d_drained s) (d_acceptor s) (d_sem s) (d_wg s)
         (d_workers s) (d_accepted s) (d_closed s).
Definition set_drained (s : daemon) : daemon :=
  Daemon (d_pool s) (d_main s) (d_cancelled s) (d_listening s) true (d_acceptor s) (d_sem s) (d_wg s)
         (d_workers s) (d_accepted s) (d_closed s).
Definition set_acceptor (a : acceptor) (s : daemon) : daemon :=
  Daemon (d_pool s) (d_main s) (d_cancelled s) (d_listening s) (d_drained s) a (d_sem s) (d_wg s)
         (d_workers s) (d_accepted s) (d_closed s).
Definition add_sem (n : Z) (s : daemon) : daemon :=
  Daemon (d_pool s) (d_main s) (d_cancelled s) (d_listening s) (d_drained s) (d_acceptor s) (d_sem s + n)
         (d_wg s) (d_workers s) (d_accepted s) (d_closed s).
Definition add_wg (n : Z) (s : daemon) : daemon :=
  Daemon (d_pool s) (d_main s) (d_cancelled s) (d_listening s) (d_drained s) (d_acceptor s) (d_sem s)
         (d_wg s + n) (d_workers s) (d_accepted s) (d_closed s).
Definition set_workers (ws : list (nat * worker)) (s : daemon) : daemon :=
  Daemon (d_pool s) (d_main s) (d_cancelled s) (d_listening s) (d_drained s) (d_acceptor s) (d_sem s) (d_wg s)
         ws (d_accepted s) (d_closed s).
Definition add_accepted (c : nat) (s : daemon) : daemon :=
  Daemon (d_pool s) (d_main s) (d_cancelled s) (d_listening s) (d_drained s) (d_acceptor s) (d_sem s) (d_wg s)
         (d_workers s) (c :: d_accepted s) (d_closed s).
Definition add_closed (c : nat) (s : daemon) : daemon :=
  Daemon (d_pool s) (d_main s) (d_cancelled s) (d_listening s) (d_drained s) (d_acceptor s) (d_sem s) (d_wg s)
         (d_workers s) (d_accepted s) (c :: d_closed s).

(** What can happen next. The number of a worker event is the position of the
    goroutine in [d_workers]. *)
Inductive event :=
  | Signal                 (* SIGTERM or SIGINT cancels the context *)
  | Accept (c : nat)       (* listener.Accept() returns a connection *)
  | AcceptError            (* listener.Accept() returns an error *)
  | Admit                  (* sem <- struct{}{} *)
  | Reject                 (* the default branch: conn.Close() *)
  | Count                  (* wg.Add(1) *)
  | Spawn                  (* go func(c net.Conn) *)
  | HandlerReturn (i : nat)
  | HandlerPanic (i : nat)
  | Release (i : nat)      (* <-sem *)
  | WgDone (i : nat)       (* wg.Done() *)
  | Unrecovered (i : nat)  (* a panic that leaves its goroutine ends the process *)
  | CtxDone                (* <-ctx.Done() *)
  | CloseListener          (* listener.Close(), and the waiter starts *)
  | WaitReturn             (* wg.Wait() returns, close(shutdownDone) *)
  | ExitClean              (* <-shutdownDone *)
  | ExitTimeout            (* <-time.After(cfg.ShutdownTimeout) *)
  | StoreClose.            (* the deferred store.Close() *)

Definition alive (m : main_pc) : bool :=
  match m with Exited | Crashed => false | _ => true end.

Definition guard_d (b : bool) (s : daemon) : option daemon := if b then Some s else None.

(** [main] goes on by itself, without an event of the network or of a handler. *)
Definition main_event (ev : event) : bool :=
  match ev with CtxDone | CloseListener | ExitClean | ExitTimeout | StoreClose => true | _ => false end.

(** The goroutine at position [i] goes on to [w]. *)
Definition set_worker (i : nat) (c : nat) (w : worker) (s : daemon) : daemon :=
  set_workers (<[i := (c, w)]> (d_workers s)) s.

(** The state after an event; [None] when it cannot happen. A receive from
    [sem] and the decrement of the wait group are by the goroutine that did
    the matching send and increment, so neither blocks nor underflows. *)
Definition dstep (ev : event) (s : daemon) : option daemon :=
  if negb (alive (d_main s)) then None
  else match ev with
  | Signal => guard_d (negb (d_cancelled s)) (set_cancelled s)
  | Accept c =>
      guard_d (bool_decide (d_acceptor s = Accepting) && d_listening s && bool_decide (c ∉ d_accepted s))
        (set_acceptor (Got c) (add_accepted c s))
  | AcceptError => guard_d (bool_decide (d_acceptor s = Accepting)) (set_acceptor Left s)
  | Admit =>
      match d_acceptor s with
      | Got c => guard_d (d_sem s <? d_pool s) (set_acceptor (Slotted c) (add_sem 1 s))
      | _ => None
      end
  | Reject =>
      match d_acceptor s with
      | Got c => guard_d (negb (d_sem s <? d_pool s)) (set_acceptor Accepting (add_closed c s))
      | _ => None
      end
  | Count =>
      match d_acceptor s with
      | Slotted c => Some (set_acceptor (Counted c) (add_wg 1 s))
      | _ => None
      end
  | Spawn =>
      match d_acceptor s with
      | Counted c => Some (set_acceptor Accepting (set_workers (d_workers s ++ [(c, Serving)]) s))
      | _ => None
      end
  | HandlerReturn i =>
      match d_workers s !! i with
      | Some (c, Serving) => Some (add_closed c (set_worker i c (Returned false) s))
      | _ => None
      end
  | HandlerPanic i =>
      match d_workers s !! i with
      | Some (c, Serving) => Some (add_closed c (set_worker i c (Returned true) s))
      | _ => None
      end
  | Release i =>
      match d_workers s !! i with
      | Some (c, Returned p) => Some (add_sem (-1) (set_worker i c (Released p) s))
      | _ => None
      end
  | WgDone i =>
      match d_workers s !! i with
      | Some (c, Released true) => Some (add_wg (-1) (set_worker i c Dying s))
      | Some (_, Released false) => Some (add_wg (-1) (set_workers (delete i (d_workers s)) s))
      | _ => None
      end
  | Unrecovered i =>
      match d_workers s !! i with
      | Some (_, Dying) => Some (set_main Crashed s)
      | _ => None
      end
  | CtxDone => guard_d (bool_decide (d_main s = Waiting) && d_cancelled s) (set_main Signalled s)
  | CloseListener => guard_d (bool_decide (d_main s = Signalled)) (set_main Draining (stop_listening s))
  | WaitReturn =>
      guard_d (negb (d_listening s) && negb (d_drained s) && (d_wg s =? 0)) (set_drained s)
  | ExitClean => guard_d (bool_decide (d_main s = Draining) && d_drained s) (set_main (Exiting true) s)
  | ExitTimeout => guard_d (bool_decide (d_main s = Draining)) (set_main (Exiting false) s)
  | StoreClose =>
      match d_main s with Exiting _ => Some (set_main Exited s) | _ => None end
  end.

Definition dsteps (s s' : daemon) : Prop := exists ev, dstep ev s = Some s'.

Fixpoint drun (evs : list event) (s : daemon) : option daemon :=
  match evs with
  | [] => Some s
  | ev :: evs => s ← dstep ev s; drun evs s
  end.
