(* ===== verification/DaemonSpec.v ===== *)
(** * What the daemon guarantees

    Invariants of the accept loop and its pool by induction on the steps of
    the process, the end of every shutdown, and the composition of a stop with
    the next start: what consumers committed and producers stored is there
    again. *)

From stdpp Require Import base tactics list numbers gmap strings relations.
From Stdlib Require Import ZArith Lia.
From S2P Require Import Prelude GoIO GoStrings GoText OSFile LogIndex LogSegment SegmentSpec LogStore.
From S2P Require Import BrokerStore BrokerSpec Metrics OffsetRecords Handler HandlerSpec CommitSpec.
From S2P Require Import Requests Config ConfigSpec Daemon.
#[local] Open Scope Z_scope.

(** ** Connections *)

(** The connection the accept loop holds. *)
Definition hand (a : acceptor) : list nat :=
  match a with Got c | Slotted c | Counted c => [c] | _ => [] end.

(** The connections being served. *)
Definition serving (ws : list (nat * worker)) : list nat := (filter (fun w => w.2 = Serving) ws).*1.

(** Goroutines that hold a slot of the semaphore: they are in [Handle] or out
    of it and not yet past the receive from [sem]. *)
Definition holds_slot (w : nat * worker) : bool :=
  match w.2 with Serving | Returned _ => true | Released _ | Dying => false end.
Definition holders (ws : list (nat * worker)) : Z := zlen (filter holds_slot ws).

(** Goroutines that have not come to [wg.Done()]. *)
Definition unfinished (ws : list (nat * worker)) : Z := zlen (filter (fun w => w.2 <> Dying) ws).

Definition slot (a : acceptor) : Z := match a with Slotted _ | Counted _ => 1 | _ => 0 end.
Definition counted (a : acceptor) : Z := match a with Counted _ => 1 | _ => 0 end.

Lemma serving_app ws ws' : serving (ws ++ ws') = serving ws ++ serving ws'.
Proof. unfold serving. by rewrite filter_app, fmap_app. Qed.

Lemma holders_app ws ws' : holders (ws ++ ws') = holders ws + holders ws'.
Proof. unfold holders. by rewrite filter_app, zlen_app. Qed.

Lemma unfinished_app ws ws' : unfinished (ws ++ ws') = unfinished ws + unfinished ws'.
Proof. unfold unfinished. by rewrite filter_app, zlen_app. Qed.

Lemma serving_one c w : serving [(c, w)] = if decide (w = Serving) then [c] else [].
Proof. by destruct w. Qed.

Lemma holders_one c w : holders [(c, w)] = if holds_slot (c, w) then 1 else 0.
Proof. by destruct w. Qed.

Lemma unfinished_one c w : unfinished [(c, w)] = if decide (w = Dying) then 0 else 1.
Proof. by destruct w. Qed.

Lemma serving_cons c w ws : serving ((c, w) :: ws) = (if decide (w = Serving) then [c] else []) ++ serving ws.
Proof. rewrite <- (serving_one c w). apply (serving_app [(c, w)]). Qed.

Lemma holders_cons c w ws : holders ((c, w) :: ws) = (if holds_slot (c, w) then 1 else 0) + holders ws.
Proof. rewrite <- (holders_one c w). apply (holders_app [(c, w)]). Qed.

Lemma unfinished_cons c w ws : unfinished ((c, w) :: ws) = (if decide (w = Dying) then 0 else 1) + unfinished ws.
Proof. rewrite <- (unfinished_one c w). apply (unfinished_app [(c, w)]). Qed.

Lemma zlen_hand a : zlen (hand a) <= 1.
Proof. by destruct a. Qed.

Lemma serving_holders ws : zlen (serving ws) <= holders ws.
Proof.
  induction ws as [|[c w] ws IH]; [done|]. rewrite serving_cons, holders_cons, zlen_app.
  destruct w; simpl; rewrite ?zlen_cons, ?zlen_nil; lia.
Qed.

Lemma unfinished_nonneg ws : 0 <= unfinished ws.
Proof. apply zlen_nonneg. Qed.

(** A goroutine and the others. *)
Lemma worker_split i c w s :
  d_workers s !! i = Some (c, w) -> exists ws1 ws2, d_workers s = ws1 ++ [(c, w)] ++ ws2 /\
    delete i (d_workers s) = ws1 ++ ws2 /\ forall x, <[i := x]> (d_workers s) = ws1 ++ [x] ++ ws2.
Proof.
  intros E. exists (take i (d_workers s)), (drop (S i) (d_workers s)).
  pose proof (lookup_lt_Some _ _ _ E). split_and!.
  - symmetry. by apply take_drop_middle.
  - by apply delete_take_drop.
  - intros x. rewrite insert_take_drop by done. done.
Qed.

(** ** Invariant *)

Record dinv (pool : Z) (s : daemon) : Prop := {
  di_pool : d_pool s = pool;
  di_sem : d_sem s = holders (d_workers s) + slot (d_acceptor s);
  di_max : d_sem s <= pool;
  di_wg : d_wg s = unfinished (d_workers s) + counted (d_acceptor s);
  di_fate : d_accepted s ≡ₚ d_closed s ++ serving (d_workers s) ++ hand (d_acceptor s);
  di_nodup : NoDup (d_accepted s);
  di_listening : match d_main s with
                 | Waiting | Signalled => d_listening s = true
                 | Draining | Exiting _ | Exited => d_listening s = false
                 | Crashed => True
                 end;
  di_drained : d_drained s = true ->
               d_listening s = false /\ unfinished (d_workers s) + zlen (hand (d_acceptor s)) <= 1;
  di_clean : d_main s = Exiting true -> d_drained s = true }.

Ltac split_worker H :=
  let ws1 := fresh "ws1" in let ws2 := fresh "ws2" in
  let E := fresh "Ews" in let D := fresh "Dws" in let I := fresh "Iws" in
  apply worker_split in H as (ws1 & ws2 & E & D & I); unfold set_worker; rewrite ?D, ?I; clear D I; rewrite ?E in *.

Ltac counts :=
  repeat match goal with H : d_workers ?s = _ |- context [d_workers ?s] => rewrite H end;
  rewrite ?serving_app, ?holders_app, ?unfinished_app, ?serving_cons, ?holders_cons, ?unfinished_cons, ?zlen_app, ?zlen_cons, ?zlen_nil in *;
  simpl in *; change (holders []) with 0 in *; change (unfinished []) with 0 in *;
  rewrite ?zlen_cons, ?zlen_nil, ?app_nil_r in *.

(** Reads the guards of a step. *)
Ltac guards E :=
  unfold guard_d in E; simpl in E;
  repeat match type of E with
         | (if ?b then _ else _) = _ => let Q := fresh "Q" in destruct b eqn:Q; [|discriminate E]
         | match d_acceptor ?s with _ => _ end = _ =>
             let Q := fresh "Ha" in destruct (d_acceptor s) eqn:Q; try discriminate E
         | match d_main ?s with _ => _ end = _ =>
             let Q := fresh "Hm" in destruct (d_main s) eqn:Q; try discriminate E
         | match d_workers ?s !! ?i with _ => _ end = _ =>
             let Q := fresh "Hw" in let w := fresh "w" in
             destruct (d_workers s !! i) as [[? w]|] eqn:Q; [|discriminate E]; destruct w; try discriminate E
         | match ?p with true => _ | false => _ end = _ => destruct p; try discriminate E
         end;
  injection E as <-;
  repeat match goal with
         | Q : _ && _ = true |- _ => apply andb_prop in Q as [? ?]
         | Q : bool_decide _ = true |- _ => apply bool_decide_eq_true in Q
         | Q : negb _ = true |- _ => apply negb_true_iff in Q
         | Q : (_ <? _) = true |- _ => apply Z.ltb_lt in Q
         | Q : (_ =? _) = true |- _ => apply Z.eqb_eq in Q
         | Q : d_workers _ !! _ = Some _ |- _ => split_worker Q
         | Q : context [d_acceptor ?s], Ha : d_acceptor ?s = _ |- _ =>
             lazymatch Q with Ha => fail | _ => rewrite Ha in Q end
         | Q : context [d_main ?s], Hm : d_main ?s = _ |- _ =>
             lazymatch Q with Hm => fail | _ => rewrite Hm in Q end
         end.

(** A connection that was served is closed. *)
Lemma fate_close (accepted closed l1 l2 l3 : list nat) c :
  accepted ≡ₚ closed ++ (l1 ++ c :: l2) ++ l3 -> accepted ≡ₚ c :: closed ++ (l1 ++ l2) ++ l3.
Proof.
  intros ->. rewrite <- !app_assoc. cbn [app]. rewrite (app_assoc closed), <- Permutation_middle.
  by rewrite <- app_assoc.
Qed.

Lemma dinv_step pool ev s s' : dinv pool s -> dstep ev s = Some s' -> dinv pool s'.
Proof.
  intros [I1 I2 I3 I4 I5 I6 I7 I8 I9] E. unfold dstep in E.
  destruct (alive (d_main s)) eqn:Hal; [|done]. cbn [negb] in E.
  destruct ev; guards E.
  all: constructor; simpl; try done; counts; try done; try lia.
  all: try (intros Hd; destruct (I8 Hd) as [? ?]; split; [done|lia]).
  - rewrite I5, app_assoc. apply Permutation_cons_append.
  - by apply NoDup_cons.
  - intros Hd. destruct (I8 Hd). congruence.
  - rewrite I5, app_assoc. symmetry. apply Permutation_cons_append.
  - intros Hd. destruct (I8 Hd). split; [done|]. change (zlen (@nil nat)) with 0. lia.
  - by apply fate_close.
  - by apply fate_close.
  - intros _. split; [done|]. pose proof (unfinished_nonneg (d_workers s)). pose proof (zlen_hand (d_acceptor s)).
    destruct (d_acceptor s); simpl in *; lia.
Qed.

Lemma dinv_boot cfg : 0 <= WorkerPoolSize cfg -> dinv (WorkerPoolSize cfg) (boot cfg).
Proof. intros Hp. constructor; try done. constructor. Qed.

Lemma dinv_reachable cfg s :
  0 <= WorkerPoolSize cfg -> rtc dsteps (boot cfg) s -> dinv (WorkerPoolSize cfg) s.
Proof.
  intros Hp Hr. eapply (rtc_ind_r (dinv (WorkerPoolSize cfg))); [by apply dinv_boot| |exact Hr].
  intros s1 s2 _ [ev E] Hi. by eapply dinv_step.
Qed.

(** C21: The semaphore and the wait group count exactly what is in progress: in
    any reachable state [sem] holds one element for every goroutine that has
    not received from it yet and one for the accept loop between its send and
    the start of the goroutine, and never more than [WorkerPoolSize]; the wait
    group counts the goroutines that have not come to [wg.Done()] and the one
    the accept loop is about to start. So at most [WorkerPoolSize] connections
    are served at a time. *)
Theorem pool_is_bounded cfg s :
  0 <= WorkerPoolSize cfg -> rtc dsteps (boot cfg) s ->
  d_sem s = holders (d_workers s) + slot (d_acceptor s) /\
  d_wg s = unfinished (d_workers s) + counted (d_acceptor s) /\
  d_sem s <= WorkerPoolSize cfg /\ zlen (serving (d_workers s)) <= WorkerPoolSize cfg.
Proof.
  intros Hp Hr. destruct (dinv_reachable cfg s Hp Hr) as [_ I2 I3 I4 _ _ _ _ _].
  pose proof (serving_holders (d_workers s)).
  assert (0 <= slot (d_acceptor s)) by (destruct (d_acceptor s); simpl; lia).
  split_and!; [done..|lia].
Qed.

(** C32: No connection is lost: each one that was accepted is closed, or being
    served, or in the hands of the accept loop, and only one of these. *)
Theorem no_connection_leaks cfg s :
  0 <= WorkerPoolSize cfg -> rtc dsteps (boot cfg) s ->
  d_accepted s ≡ₚ d_closed s ++ serving (d_workers s) ++ hand (d_acceptor s) /\ NoDup (d_accepted s).
Proof. intros Hp Hr. by destruct (dinv_reachable cfg s Hp Hr). Qed.

(** When [main] reports that all connections are drained, the listener is
    closed and at most one connection is left: the one that the accept loop
    was holding when the wait group was found empty. (A goroutine whose panic
    is past [wg.Done()] has no connection either.) *)
Theorem clean_stop_leaves_at_most_one cfg s :
  0 <= WorkerPoolSize cfg -> rtc dsteps (boot cfg) s -> d_main s = Exiting true ->
  d_listening s = false /\ unfinished (d_workers s) + zlen (hand (d_acceptor s)) <= 1.
Proof. intros Hp Hr Hm. destruct (dinv_reachable cfg s Hp Hr) as [_ _ _ _ _ _ _ I8 I9]. by apply I8, I9. Qed.

(** ** Shutdown *)

Definition main_weight (m : main_pc) : Z :=
  match m with Waiting => 4 | Signalled => 3 | Draining => 2 | Exiting _ => 1 | Exited | Crashed => 0 end.
Definition acceptor_weight (a : acceptor) : Z :=
  match a with Got _ => 8 | Slotted _ => 7 | Counted _ => 6 | Accepting => 1 | Left => 0 end.
Definition worker_weight (w : nat * worker) : Z :=
  match w.2 with Serving => 4 | Returned _ => 3 | Released _ => 2 | Dying => 1 end.
Definition workers_weight (ws : list (nat * worker)) : Z := foldr (fun w n => worker_weight w + n) 0 ws.

(** How many more steps a shutdown can take. *)
Definition work_left (s : daemon) : Z :=
  main_weight (d_main s) + acceptor_weight (d_acceptor s) + workers_weight (d_workers s) +
  (if d_drained s then 0 else 1) + (if d_cancelled s then 0 else 1).

Lemma workers_weight_app ws ws' : workers_weight (ws ++ ws') = workers_weight ws + workers_weight ws'.
Proof. induction ws as [|w ws IH]; simpl; lia. Qed.

Lemma workers_weight_nonneg ws : 0 <= workers_weight ws.
Proof. induction ws as [|[c w] ws IH]; [done|]; destruct w; cbn [workers_weight foldr] in *; fold (workers_weight ws); unfold worker_weight; simpl; lia. Qed.

Lemma work_left_nonneg s : 0 <= work_left s.
Proof.
  unfold work_left. pose proof (workers_weight_nonneg (d_workers s)).
  destruct (d_main s), (d_acceptor s), (d_drained s), (d_cancelled s); simpl; lia.
Qed.

(** Once the listener is closed every step brings the end nearer. *)
Lemma closed_step ev s s' :
  d_listening s = false -> dstep ev s = Some s' -> d_listening s' = false /\ work_left s' < work_left s.
Proof.
  intros Hl E. unfold dstep in E. destruct (alive (d_main s)) eqn:Hal; [|done]. cbn [negb] in E.
  destruct ev; guards E; try congruence; (split; [done|]); unfold work_left; simpl;
    repeat match goal with
           | H : d_workers ?s = _ |- context [d_workers ?s] => rewrite H
           | H : d_acceptor ?s = _ |- context [d_acceptor ?s] => rewrite H
           | H : d_main ?s = _ |- context [d_main ?s] => rewrite H
           | H : d_drained ?s = _ |- context [d_drained ?s] => rewrite H
           | H : d_cancelled ?s = _ |- context [d_cancelled ?s] => rewrite H
           end;
    rewrite ?workers_weight_app; simpl; unfold worker_weight; simpl; try lia.
  destruct (d_main s); simpl in *; (done || lia).
Qed.

Lemma closed_runs s s' n :
  d_listening s = false -> nsteps dsteps n s s' -> d_listening s' = false /\ Z.of_nat n <= work_left s - work_left s'.
Proof.
  intros Hl Hn. induction Hn as [s|n s1 s2 s3 [ev E] _ IH]; [split; [done|lia]|].
  destruct (closed_step ev s1 s2 Hl E) as [Hl2 Hw]. destruct (IH Hl2). split; [done|lia].
Qed.

(** Once the signal is there [main] comes to its end by its own steps. *)
Lemma main_ends s :
  d_cancelled s = true -> d_main s <> Crashed ->
  exists evs s', forallb main_event evs = true /\ drun evs s = Some s' /\ d_main s' = Exited.
Proof.
  intros Hc Hm. destruct s as [pool m can lis dr acc sem wg ws ac cl]. simpl in *. subst can.
  destruct m; [exists [CtxDone; CloseListener; ExitTimeout; StoreClose]|exists [CloseListener; ExitTimeout; StoreClose]
    |exists [ExitTimeout; StoreClose]|exists [StoreClose]|exists []|done]; eexists; done.
Qed.

(** In a shutdown [main] is never blocked. *)
Lemma main_unblocked cfg s :
  0 <= WorkerPoolSize cfg -> rtc dsteps (boot cfg) s -> d_listening s = false ->
  (forall ev, main_event ev = true -> dstep ev s = None) -> d_main s = Exited \/ d_main s = Crashed.
Proof.
  intros Hp Hr Hl Hs. pose proof (di_listening _ _ (dinv_reachable cfg s Hp Hr)) as Hm.
  pose proof (Hs ExitTimeout eq_refl) as H1. pose proof (Hs StoreClose eq_refl) as H2. unfold dstep in H1, H2.
  destruct (d_main s); simpl in *; (congruence || (by left) || (by right)).
Qed.

(** C22: After the signal the process ends, whatever the connection handlers
    do, also when none of them ever returns: unless a panic has ended it, [main]
    can come to its end by its own steps alone; and once the listener is closed
    no run is longer than the work left, and in every state of such a run in
    which [main] itself cannot go on it has returned or a panic has ended the
    process. *)
Theorem shutdown_terminates cfg s :
  0 <= WorkerPoolSize cfg -> rtc dsteps (boot cfg) s -> d_cancelled s = true ->
  (d_main s = Crashed \/
   exists evs s', forallb main_event evs = true /\ drun evs s = Some s' /\ d_main s' = Exited) /\
  (d_listening s = false -> forall n s', nsteps dsteps n s s' -> Z.of_nat n <= work_left s /\
     ((forall ev, main_event ev = true -> dstep ev s' = None) -> d_main s' = Exited \/ d_main s' = Crashed)).
Proof.
  intros Hp Hr Hc. split.
  - destruct (decide (d_main s = Crashed)); [by left|right]. by apply main_ends.
  - intros Hl n s' Hn. destruct (closed_runs s s' n Hl Hn) as [Hl' Hw]. pose proof (work_left_nonneg s').
    split; [lia|]. apply (main_unblocked cfg); [done| |done].
    etrans; [exact Hr|]. apply rtc_nsteps. by exists n.
Qed.

Lemma drun_reaches evs s s' : drun evs s = Some s' -> rtc dsteps s s'.
Proof.
  revert s. induction evs as [|ev evs IH]; intros s; cbn [drun]; [intros; simplify_eq; apply rtc_refl|].
  destruct (dstep ev s) as [s1|] eqn:E; [|done]. intros Hr. eapply rtc_l; [by exists ev|by apply IH].
Qed.

(** Any error of [Accept] ends the accept loop for good: the process stays up
    and never accepts another connection. *)
Theorem accept_error_is_final s s' :
  d_acceptor s = Left -> rtc dsteps s s' -> d_acceptor s' = Left /\ d_accepted s' = d_accepted s.
Proof.
  intros Ha Hr. induction Hr as [s|s1 s2 s3 [ev E] _ IH]; [done|].
  assert (d_acceptor s2 = Left /\ d_accepted s2 = d_accepted s1) as [H1 H2].
  { unfold dstep in E. destruct (alive (d_main s1)) eqn:Hal; [|done]. cbn [negb] in E.
    destruct ev; guards E; simpl; by (congruence || split). }
  destruct (IH H1) as [? ->]. done.
Qed.

(** [main] can report a clean stop and close the store while a
    connection is still served: the accept loop may take a slot for it after
    the wait group was found empty. *)
Theorem clean_stop_with_live_connection :
  let cfg := defaults in
  exists s, rtc dsteps (boot cfg) s /\ d_main s = Exited /\ serving (d_workers s) = [7%nat].
Proof.
  eexists. split; [|split].
  - apply (drun_reaches [Accept 7; Signal; CtxDone; CloseListener; WaitReturn; ExitClean;
                         Admit; Count; Spawn; StoreClose]). vm_compute. reflexivity.
  - reflexivity.
  - reflexivity.
Qed.

(** ** Stop and start *)

Section startup.
Context `{Prometheus} `{!PrometheusOk} `{MapOrder} (Getenv : gostring -> gostring).

Lemma os_MkdirAll_existing path o :
  os_wf o -> os_faults o = [] -> Clean path ∈ os_dirs o -> os_MkdirAll path o = (Ok tt, o).
Proof.
  intros Hwf Hf Hp. unfold os_MkdirAll. rewrite sys_no_faults by done.
  rewrite <- (app_nil_r (ancestors _ _)), mkdirs_known; [done|done|by apply ancestors_known].
Qed.

(** A call that changes nothing when system calls do not fail. *)
Definition still {A} (m : st os A) : Prop := forall o, os_faults o = [] -> (m o).2 = o.

Lemma still_bind {A B} (m : st os A) (k : A -> st os B) : still m -> (forall a, still (k a)) -> still (m ≫= k).
Proof.
  intros Hm Hk o Hf. unfold mbind, st_bind. specialize (Hm o Hf). destruct (m o) as [[a|e|p] o1];
    simpl in *; subst; [by apply Hk|done..].
Qed.

Lemma still_Load file : still (Load Getenv file).
Proof.
  unfold Load. apply still_bind.
  - unfold load_file. apply still_bind.
    + intros o Hf. unfold try_st, os_Open. rewrite sys_no_faults by done.
      repeat (case_match; simplify_eq; try done).
    + intros [h|e]; [|done]. apply still_bind.
      * intros o Hf. unfold open_reader, file_reader. rewrite !sys_no_faults by done.
        repeat (case_match; simplify_eq; try done).
      * intros r. destruct (parseYAML r defaults) as [res cfg]. apply still_bind.
        -- intros o Hf. unfold file_Close. rewrite sys_no_faults by done. by case_match.
        -- intros []. by destruct res.
  - intros cfg. destruct (applyEnv Getenv cfg) as [res cfg']. apply still_bind.
    + intros o Hf. unfold wrapf, lift_result. by destruct res.
    + intros []. by destruct (validate cfg').
Qed.

Lemma still_Listen addr : still (net_Listen addr).
Proof. intros o Hf. unfold net_Listen. by rewrite sys_no_faults. Qed.

(** The broker on disk, as a handler serves it once it is loaded: the
    partitions [M], with [cs] the commits recorded in [__consumer_offsets]. *)
Lemma startup_stored file o cfg M cs :
  (Load Getenv file o).1 = Ok cfg -> stored (LogDirectory cfg) (segment_config cfg) o M ->
  durable cs (ABroker M (replay cs ∅)) -> zlen (offsets_log cs) < 2 ^ 31 ->
  exists h o', startup Getenv file o = (Ok (cfg, h), o') /\
    handler_ok (MaxSegmentSize cfg) h o' (touch offsets_tp (ABroker M (replay cs ∅))).
Proof.
  intros HL Hst Hd Hsz. destruct (ld_root _ _ _ _ Hst) as [[_ Hdir] Hwf Hf _ _]. simpl in Hdir.
  pose proof (still_Load file o Hf) as HS. pose proof (Load_in_bounds Getenv file o) as HB. rewrite HL in HB.
  destruct (OpenBrokerStore_stored _ _ _ _ Hst) as (bs & o1 & EO & _ & Hcfg & Hbk).
  assert (Hok : handler_ok (MaxSegmentSize cfg) (NewHandler bs New) o1 (ABroker M ∅)).
  { constructor; simpl; [done| |done]. rewrite Hcfg. unfold max_size, segment_config. simpl.
    by rewrite (proj2 (Z.leb_gt _ _)) by lia. }
  pose proof (LoadOffsetsCache_spec _ _ _ _ cs Hok Hd Hsz) as HLC. unfold wp in HLC.
  destruct (LoadOffsetsCache (NewHandler bs New, o1)) as [r [h o2]] eqn:EL. simpl in HLC.
  destruct HLC as (-> & Hok2). exists h, o2. split; [|exact Hok2].
  unfold startup, mbind, st_bind. destruct (Load Getenv file o) as [r o0]. simpl in HL, HS. subst r o0.
  rewrite os_MkdirAll_existing, EO by done. unfold net_Listen.
  rewrite sys_no_faults by apply (bk_root _ _ _ Hbk). unfold hydrate. by rewrite EL.
Qed.

(** C14: A stop followed by a start: when the cache of the old handler is what
    its log of commits replays to, the process closes its store, a new one loads
    the same directory, and the new handler has every record of every partition
    and the same committed offsets, provided no log has rolled over, the log of
    commits is below 2 GiB and no system call fails. (Requests served one after
    the other keep the cache equal to the replay; two commits of one group for
    one partition served at the same time need not.) *)
Theorem stop_then_start max h o A cs file cfg r bs1 o1 :
  handler_ok max h o A -> durable cs A -> map_Forall (fun _ L => pl_base L = 0) (ab_logs A) ->
  zlen (offsets_log cs) < 2 ^ 31 ->
  BrokerStore_Close (h_store h, o) = (r, (bs1, o1)) -> (Load Getenv file o1).1 = Ok cfg ->
  LogDirectory cfg = bs_rootDir (h_store h) -> MaxSegmentSize cfg = max ->
  r = Ok tt /\ exists h2 o2, startup Getenv file o1 = (Ok (cfg, h2), o2) /\
    h_offsetCache h2 = h_offsetCache h /\ handler_ok max h2 o2 (touch offsets_tp A).
Proof.
  intros [Hb Hm Hc] [D1 D2 D3 D4] Hbase Hsz HC HL Hroot Hmax.
  pose proof (Load_in_bounds Getenv file o1) as HB. rewrite HL in HB.
  destruct (BrokerStore_Close_stored (h_store h) o (ab_logs A) (segment_config cfg) Hb Hbase)
    as (bs & o1' & E & Hst).
  { unfold max_size, segment_config. simpl. rewrite (proj2 (Z.leb_gt _ _)) by lia. lia. }
  rewrite HC in E. simplify_eq. split; [done|]. rewrite <- Hroot in Hst.
  destruct (startup_stored file o1' cfg (ab_logs A) cs HL Hst) as (h2 & o2 & ES & Hok2); [|done|].
  { by constructor. }
  exists h2, o2. split; [done|]. rewrite <- D4 in Hok2. destruct A as [logs offs]. simpl in *. rewrite <- Hmax.
  split; [|done]. rewrite (ho_cache _ _ _ _ Hok2). by rewrite Hc.
Qed.

(** The first start, with a log directory that exists and is empty: the
    handler serves a broker without records and without commits. *)
Theorem first_start file o cfg :
  (Load Getenv file o).1 = Ok cfg -> fresh_root (LogDirectory cfg) o ->
  exists h o', startup Getenv file o = (Ok (cfg, h), o') /\
    handler_ok (MaxSegmentSize cfg) h o' (touch offsets_tp (ABroker ∅ ∅)).
Proof.
  intros HL Hfr. pose proof (Load_in_bounds Getenv file o) as HB. rewrite HL in HB.
  apply (startup_stored file o cfg ∅ []); [done| |constructor; try done; constructor|done].
  apply fresh_root_stored; [done|]. unfold max_size, segment_config. simpl.
  rewrite (proj2 (Z.leb_gt _ _)) by lia. lia.
Qed.
End startup.

(** ** Concrete runs *)

(** The environment of the samples: the directory [/d], segments of 1000
    bytes and a pool of one. *)
Definition sample_daemon_env (name : gostring) : gostring :=
  if decide (name = gos "KAGE_LOG_DIRECTORY") then gos "/d"
  else if decide (name = gos "KAGE_MAX_SEGMENT_SIZE") then gos "1000"
  else if decide (name = gos "KAGE_WORKER_POOL_SIZE") then gos "1"
  else [].

Definition sample_daemon_cfg : Config := MkConfig 9092 (gos "/d") 1000 1 (10 * Second) (168 * Hour).

(** A run with a pool of one: the second connection is rejected, the first is
    drained. *)
Definition sample_run : list event :=
  [Accept 1; Admit; Count; Spawn; Accept 2; Reject; Signal; CtxDone; CloseListener; AcceptError;
   HandlerReturn 0; Release 0; WgDone 0; WaitReturn; ExitClean].

Definition sample_end : daemon := default (boot sample_daemon_cfg) (drun sample_run (boot sample_daemon_cfg)).

(** The same run, stopped while the first connection is served and the signal
    is there. *)
Definition sample_busy : daemon := default (boot sample_daemon_cfg) (drun (take 7 sample_run) (boot sample_daemon_cfg)).

Lemma sample_busy_reached : rtc dsteps (boot sample_daemon_cfg) sample_busy.
Proof. apply (drun_reaches (take 7 sample_run)). vm_compute. reflexivity. Qed.

Lemma sample_end_reached : rtc dsteps (boot sample_daemon_cfg) sample_end.
Proof. apply (drun_reaches sample_run). vm_compute. reflexivity. Qed.

Lemma pool_is_bounded_witness :
  d_sem sample_busy = 1 /\ d_wg sample_busy = 1 /\ d_sem sample_busy <= 1 /\ zlen (serving (d_workers sample_busy)) <= 1.
Proof. apply (pool_is_bounded sample_daemon_cfg sample_busy); [concrete|exact sample_busy_reached]. Defined.

Lemma no_connection_leaks_witness :
  d_accepted sample_end ≡ₚ [1%nat; 2%nat] /\ NoDup (d_accepted sample_end).
Proof.
  destruct (no_connection_leaks sample_daemon_cfg sample_end) as [P N]; [concrete|exact sample_end_reached|].
  split; [exact P|exact N].
Defined.

Lemma clean_stop_leaves_at_most_one_witness :
  d_listening sample_end = false /\ unfinished (d_workers sample_end) + zlen (hand (d_acceptor sample_end)) <= 1.
Proof.
  apply (clean_stop_leaves_at_most_one sample_daemon_cfg sample_end);
    [concrete|exact sample_end_reached|reflexivity].
Defined.

Lemma shutdown_terminates_witness :
  exists evs s', forallb main_event evs = true /\ drun evs sample_busy = Some s' /\ d_main s' = Exited.
Proof.
  destruct (shutdown_terminates sample_daemon_cfg sample_busy) as [[Hc|He] _];
    [concrete|exact sample_busy_reached|reflexivity|discriminate Hc|exact He].
Defined.

(** A panic of a handler: the slot and the wait group are released before it
    ends the process. *)
Example sample_panic :
  drun [Accept 1; Admit; Count; Spawn; HandlerPanic 0; Release 0; WgDone 0; Unrecovered 0] (boot sample_daemon_cfg)
  = Some (Daemon 1 Crashed false true false Accepting 0 0 [(1%nat, Dying)] [1%nat] [1%nat]).
Proof. reflexivity. Qed.

Lemma accept_error_is_final_witness :
  d_acceptor sample_end = Left /\ d_accepted sample_end = d_accepted sample_end.
Proof. apply (accept_error_is_final sample_end sample_end); [reflexivity|apply rtc_refl]. Defined.

Lemma first_start_witness :
  exists h o', startup (H0 := insertion_order) sample_daemon_env DefaultConfigFile sample_os =
      (Ok (sample_daemon_cfg, h), o') /\
    handler_ok 1000 h o' (touch offsets_tp (ABroker ∅ ∅)).
Proof.
  apply (first_start (H1 := insertion_order) sample_daemon_env DefaultConfigFile sample_os sample_daemon_cfg).
  - vm_compute. reflexivity.
  - concrete.
Defined.

Definition sample_closed : BrokerStore * os :=
  (BrokerStore_Close (H := insertion_order) (h_store sample_committed_handler.1, sample_committed_handler.2)).2.

Lemma stop_then_start_witness :
  (BrokerStore_Close (H := insertion_order) (h_store sample_committed_handler.1, sample_committed_handler.2)).1 = Ok tt /\
  exists h2 o2, startup (H0 := insertion_order) sample_daemon_env DefaultConfigFile sample_closed.2 =
      (Ok (sample_daemon_cfg, h2), o2) /\
    h_offsetCache h2 = h_offsetCache sample_committed_handler.1 /\
    handler_ok 1000 h2 o2 (touch offsets_tp sample_committed).
Proof.
  apply (stop_then_start (H1 := insertion_order) sample_daemon_env 1000 sample_committed_handler.1
    sample_committed_handler.2 sample_committed [(MkOffsetCacheKey (gos "group") (gos "sensors") 3, 42)]
    DefaultConfigFile sample_daemon_cfg _ sample_closed.1 sample_closed.2 sample_committed_ok).
  - apply (commit_durable 1000 [] (gos "group") (gos "sensors") sample_commit (ABroker ∅ ∅) sample_durable
             sample_commit_wf). concrete.
  - apply (bool_decide_unpack _). vm_compute. exact I.
  - concrete.
  - unfold sample_closed. by destruct (BrokerStore_Close _) as [? []].
  - vm_compute. reflexivity.
  - vm_compute. reflexivity.
  - reflexivity.
Defined.

(** A crash in the middle of writing a commit leaves a torn record at the end
    of the log of commits; the next start fails on it, and so does every
    later one. *)
Definition torn_os : os :=
  let dir := Join (gos "/d") (partitionKey ConsumerOffsetsTopic 0) in
  OS {[segment_name dir 0 := File (take 10 (frame (gos "a record of a commit"))) 0]}
     {[gos "/"; gos "/d"; dir]} (fun _ => 0) 100 [].

Theorem torn_commit_stops_startup :
  match (startup (H0 := insertion_order) sample_daemon_env DefaultConfigFile torn_os) with
  | (Err e, o) => e = Wrapf "LoadOffsetsCache: read record body: %w" [] ErrUnexpectedEOF /\
                  is_ok (startup (H0 := insertion_order) sample_daemon_env DefaultConfigFile o).1 = false
  | _ => False
  end.
Proof. by vm_compute. Qed.
