(* ===== verification/AppendOnly.v ===== *)
(** * Files only grow

    No request changes a byte that is in a file: whatever fails and whatever
    state the structures are in, the calls that the handlers make only append
    to files or create empty ones. The one operation that takes bytes away is
    the retention sweep, which is not a request. *)

From stdpp Require Import base tactics list numbers gmap strings.
From Stdlib Require Import ZArith Lia.
From S2P Require Import Prelude GoIO GoStrings Wire Requests Responses RecordBatch OSFile.
From S2P Require Import LogIndex LogSegment LogStore OffsetRecords FetchPatch BrokerStore Metrics Handler.
#[local] Open Scope Z_scope.

(** ** Calls that respect a preorder on states *)

Definition respects {S A} (R : relation S) (m : st S A) : Prop := forall s, R s (m s).2.

Section respects.
Context {S : Type} (R : relation S) `{!PreOrder R}.

Lemma respects_ret {A} (a : A) : respects R (mret a).
Proof. by intros s. Qed.

Lemma respects_fail {A} e : respects R (sfail (A := A) e).
Proof. by intros s. Qed.

Lemma respects_panic {A} e : respects R (spanic (A := A) e).
Proof. by intros s. Qed.

Lemma respects_lift {A} (r : result A) : respects R (lift_result r).
Proof. by intros s. Qed.

Lemma respects_bind {A B} (m : st S A) (k : A -> st S B) :
  respects R m -> (forall a, respects R (k a)) -> respects R (m ≫= k).
Proof.
  intros Hm Hk s. specialize (Hm s). unfold mbind, st_bind. destruct (m s) as [[a|e|e] s']; [|done..].
  etrans; [exact Hm|apply Hk].
Qed.

Lemma respects_wrapf {A} fmt args (m : st S A) : respects R m -> respects R (wrapf fmt args m).
Proof. intros Hm s. specialize (Hm s). unfold wrapf. by destruct (m s) as [[a|e|e] s']. Qed.

Lemma respects_try {A} (m : st S A) : respects R m -> respects R (try_st m).
Proof. intros Hm s. specialize (Hm s). unfold try_st. by destruct (m s) as [[a|e|e] s']. Qed.

Lemma respects_mapM {A B} (body : A -> st S B) xs : (forall x, respects R (body x)) -> respects R (mapM body xs).
Proof.
  intros Hb. induction xs as [|x xs IH]; [apply respects_ret|].
  apply respects_bind; [apply Hb|]. intros y. apply respects_bind; [exact IH|]. intros ys. apply respects_ret.
Qed.

Lemma respects_range {A} (body : A -> st S unit) xs : (forall x, respects R (body x)) -> respects R (range_st body xs).
Proof. intros Hb. induction xs as [|x xs IH]; [apply respects_ret|]. apply respects_bind; [apply Hb|by intros []]. Qed.
End respects.

(** ** Growing files *)

(** Contents are extended, files stay, and a file that is new or was written to
    carries the time of day; the calls take no time. *)
Record grows (o o' : os) : Prop := {
  gr_content q : content q o `prefix_of` content q o';
  gr_exists q : is_Some (os_files o !! q) -> is_Some (os_files o' !! q);
  gr_mtime q f' : os_files o' !! q = Some f' ->
    f_mtime f' = os_now o \/ exists f, os_files o !! q = Some f /\ f_mtime f = f_mtime f';
  gr_now : os_now o' = os_now o }.

#[global] Instance grows_preorder : PreOrder grows.
Proof.
  split; [constructor; eauto|]. intros o1 o2 o3 [C1 E1 M1 N1] [C2 E2 M2 N2]. constructor; [| |intros q f3 H3|congruence].
  - intros q. etrans; [apply C1|apply C2].
  - auto.
  - destruct (M2 q f3 H3) as [->|(f2 & H2 & <-)]; [by left; congruence|by apply M1].
Qed.

(** With a struct beside the operating system. *)
Definition growing {S} (x y : S * os) : Prop := grows x.2 y.2.

#[global] Instance growing_preorder {S} : PreOrder (@growing S).
Proof. split; [intros x; apply grows_preorder|]. intros x y z H1 H2. unfold growing in *. etrans; [exact H1|exact H2]. Qed.

Create HintDb grows discriminated.
#[export] Hint Resolve respects_ret respects_fail respects_panic respects_lift respects_wrapf respects_try : grows.
#[export] Hint Resolve grows_preorder growing_preorder : grows.
#[export] Hint Constants Opaque : grows.

(** Takes a call apart down to the calls the hints know. *)
Ltac grow :=
  repeat first
    [ progress intros
    | apply respects_bind; [typeclasses eauto| |]
    | apply respects_mapM; [typeclasses eauto|]
    | apply respects_range; [typeclasses eauto|]
    | apply respects_wrapf
    | apply respects_try
    | solve [auto with grows]
    | match goal with |- respects _ (if ?b then _ else _) => destruct b end
    | match goal with |- respects _ (match ?x with _ => _ end) => destruct x end
    | progress cbv zeta ].

Lemma same_files_grows o o' : os_files o' = os_files o -> os_now o' = os_now o -> grows o o'.
Proof. intros Hf Hn. constructor; unfold content; rewrite ?Hf; eauto. Qed.

Lemma sys_grows o : grows o (sys o).2.
Proof. destruct (sys o) as [f o'] eqn:E. apply sys_effect in E as (? & _ & ? & _). by apply same_files_grows. Qed.

Lemma set_file_grows p l o : grows o (set_file p (content p o ++ l) o).
Proof.
  pose proof (set_file_appends p l o) as Ha. constructor; [| |intros q f'|done].
  - intros q. destruct (decide (q = p)) as [->|Hq]; [apply Ha|]. by rewrite (content_others _ _ _ _ Ha Hq).
  - intros q. cbn. destruct (decide (p = q)) as [->|Hq]; [rewrite lookup_insert_eq|rewrite lookup_insert_ne by done]; eauto.
  - cbn. rewrite lookup_insert_Some. intros [[<- <-]|[_ ?]]; [by left|right; eauto].
Qed.

(** ** The operating system's calls *)

Ltac os_call o :=
  intros o; pose proof (sys_grows o); destruct (sys o) as [f o1]; cbn [snd] in *.

Lemma os_OpenFile_grows path : respects grows (os_OpenFile path).
Proof.
  unfold os_OpenFile. os_call o. destruct f; [done|]. destruct (decide (path ∈ os_dirs o1)); [done|].
  destruct (os_files o1 !! path) eqn:E; [done|]. destruct (decide _); [|done]. cbn [snd]. etrans; [done|].
  pose proof (set_file_grows path [] o1) as Hg. unfold content in Hg at 1. by rewrite E in Hg.
Qed.

Lemma file_Stat_grows h : respects grows (file_Stat h).
Proof. unfold file_Stat. os_call o. by destruct (negb _), f. Qed.

Lemma file_SeekStart_grows h : respects grows (file_SeekStart h).
Proof. unfold file_SeekStart. os_call o. by destruct (negb _), f. Qed.

Lemma file_Sync_grows h : respects grows (file_Sync h).
Proof. apply file_SeekStart_grows. Qed.

Lemma file_reader_grows h : respects grows (file_reader h).
Proof. unfold file_reader. os_call o. by destruct (negb _), f. Qed.

Lemma file_ReadAt_grows h off n : respects grows (file_ReadAt h off n).
Proof. unfold file_ReadAt. os_call o. destruct (negb _), (off <? 0), f; try done. by destruct (_ <=? _). Qed.

Lemma file_Close_grows : respects growing file_Close.
Proof. intros [h o]. unfold file_Close. revert o. os_call o. by destruct (negb _). Qed.

Lemma file_Write_grows h p o : grows o (file_Write h p o).2.
Proof.
  unfold file_Write. revert o. os_call o. destruct (negb _); [done|].
  destruct f; cbn [snd]; (etrans; [done|apply set_file_grows]).
Qed.

Lemma closing_grows {A} h (m : st os A) : respects grows m -> respects grows (closing h m).
Proof.
  intros Hm o. specialize (Hm o). unfold closing. destruct (m o) as [[a|e|e] o1]; [done| |done].
  pose proof (file_Close_grows (h, o1)) as Hc. destruct (file_Close (h, o1)) as [r [h' o2]]. by etrans.
Qed.

Lemma section_reader_grows w : respects grows (section_reader w).
Proof. unfold section_reader. os_call o. destruct (negb _), (sr_off w <? 0), f; done. Qed.

Lemma mkdirs_grows ps o : grows o (mkdirs ps o).2.
Proof.
  revert o. induction ps as [|p ps IH]; intros o; cbn [mkdirs]; [done|]. destruct (os_files o !! p); [done|].
  etrans; [|apply IH]. by apply same_files_grows.
Qed.

Lemma os_MkdirAll_grows path : respects grows (os_MkdirAll path).
Proof. unfold os_MkdirAll. os_call o. destruct f; [done|]. etrans; [done|apply mkdirs_grows]. Qed.

#[export] Hint Resolve os_OpenFile_grows file_Stat_grows file_SeekStart_grows file_Sync_grows file_reader_grows file_ReadAt_grows
  file_Close_grows closing_grows section_reader_grows os_MkdirAll_grows : grows.

(** ** Structures *)

Lemma growing_zoom {S T A} (get : S -> T) put (m : stio T A) : respects growing m -> respects growing (zoom get put m).
Proof.
  intros Hm [s o]. specialize (Hm (get s, o)). unfold zoom. by destruct (m (get s, o)) as [r [t o']].
Qed.

Lemma growing_on_os {S A} (m : st os A) : respects grows m -> respects (@growing S) (on_os m).
Proof. intros Hm [s o]. specialize (Hm o). unfold on_os. by destruct (m o). Qed.

Lemma growing_get {S A} (f : S -> A) : respects growing (get_st f).
Proof. intros [s o]. apply grows_preorder. Qed.

Lemma growing_put {S} (f : S -> S) : respects growing (put_st f).
Proof. intros [s o]. apply grows_preorder. Qed.

#[export] Hint Resolve growing_zoom growing_on_os growing_get growing_put : grows.

Lemma bufio_Flush_grows h : respects growing (bufio_Flush h).
Proof.
  intros [b o]. unfold bufio_Flush. destruct (bw_err b); [done|]. destruct (bw_buf b) as [|c buf]; [done|].
  pose proof (file_Write_grows h (c :: buf) o) as Hw. by destruct (file_Write h _ o) as [[n [e|]] o'].
Qed.

Lemma bufio_fill_grows k h p b o : grows o (bufio_fill k h p b o).2.
Proof.
  revert p b o. induction k as [|k IH]; intros p b o; cbn [bufio_fill]; [done|]. cbv zeta. destruct (_ && _); [|done].
  destruct (bool_decide _).
  - pose proof (file_Write_grows h p o) as Hw. destruct (file_Write h p o) as [[n e] o'].
    etrans; [exact Hw|apply IH].
  - set (b' := Bufw _ _ _). pose proof (bufio_Flush_grows h (b', o)) as Hf.
    destruct (bufio_Flush h (b', o)) as [r [b1 o1]]. etrans; [exact Hf|apply IH].
Qed.

Lemma bufio_Write_grows h p : respects growing (bufio_Write h p).
Proof.
  intros [b o]. unfold bufio_Write. pose proof (bufio_fill_grows 3 h p b o) as Hf.
  destruct (bufio_fill 3 h p b o) as [[p' b'] o']. by destruct (bw_err b').
Qed.

#[export] Hint Resolve bufio_Flush_grows bufio_Write_grows : grows.

#[local] Transparent maybeAppend Index_Flush Index_Close openIndex sg_flush.
#[local] Transparent Segment_Append Segment_Flush Segment_ReadAt Segment_Read Segment_Close OpenSegment.

Lemma openIndex_grows dir base : respects grows (openIndex dir base).
Proof. unfold openIndex, loadEntries. grow. apply closing_grows. grow. Qed.

Lemma maybeAppend_grows off pos n : respects growing (maybeAppend off pos n).
Proof. unfold maybeAppend, ix_write. grow. Qed.

Lemma Index_Close_grows : respects growing Index_Close.
Proof. unfold Index_Close, ix_flush. grow. Qed.

Lemma Index_Flush_grows : respects growing Index_Flush.
Proof. unfold Index_Flush, ix_flush. grow. Qed.

#[export] Hint Resolve openIndex_grows maybeAppend_grows Index_Close_grows Index_Flush_grows : grows.

Lemma OpenSegment_grows dir base cfg : respects grows (OpenSegment dir base cfg).
Proof. unfold OpenSegment. grow. Qed.

Lemma sg_flush_grows : respects growing sg_flush.
Proof. unfold sg_flush. grow. Qed.

#[export] Hint Resolve OpenSegment_grows sg_flush_grows : grows.

Lemma Segment_Append_grows p : respects growing (Segment_Append p).
Proof. unfold Segment_Append, sg_write. grow. Qed.

Lemma Segment_Read_grows off n : respects growing (Segment_Read off n).
Proof. unfold Segment_Read. grow. Qed.

Lemma Segment_Flush_grows : respects growing Segment_Flush.
Proof. unfold Segment_Flush. grow. Qed.

Lemma Segment_Close_grows : respects growing Segment_Close.
Proof. unfold Segment_Close. grow. Qed.

#[export] Hint Resolve Segment_Append_grows Segment_Read_grows Segment_Flush_grows Segment_Close_grows : grows.

Lemma on_active_grows {A} (m : stio Segment A) : respects growing m -> respects growing (on_active m).
Proof. apply growing_zoom. Qed.
#[export] Hint Resolve on_active_grows : grows.

Lemma rollover_grows : respects growing rollover.
Proof. unfold rollover. grow. Qed.
#[export] Hint Resolve rollover_grows : grows.

Lemma PartitionStore_Append_grows p : respects growing (PartitionStore_Append p).
Proof.
  intros x. unfold PartitionStore_Append. pose proof (on_active_grows _ (Segment_Append_grows p) x) as Ha.
  destruct (on_active (Segment_Append p) x) as [r y].
  assert (Hr : respects growing (_ ← rollover; wrapf "storage: partition store append: %w" []
                 (on_active (Segment_Append p)))) by grow.
  destruct r as [off|[]|]; try done. etrans; [exact Ha|apply Hr].
Qed.

Lemma PartitionStore_Read_grows off n : respects growing (PartitionStore_Read off n).
Proof. unfold PartitionStore_Read. grow. Qed.

Lemma OpenPartitionStore_grows dir cfg : respects grows (OpenPartitionStore dir cfg).
Proof. unfold OpenPartitionStore. grow. Qed.

#[export] Hint Resolve PartitionStore_Append_grows PartitionStore_Read_grows OpenPartitionStore_grows : grows.

Lemma part_step_grows op ps o : grows o (part_step op (ps, o)).2.2.
Proof.
  destruct op as [p|off n|]; cbn [part_step].
  - pose proof (PartitionStore_Append_grows p (ps, o)) as Hg. by destruct (PartitionStore_Append p (ps, o)).
  - assert (Hr : respects growing (store_read_all off n)) by (unfold store_read_all; grow).
    specialize (Hr (ps, o)). by destruct (store_read_all off n (ps, o)).
  - assert (Hr : respects growing PartitionStore_Flush) by (unfold PartitionStore_Flush; grow).
    specialize (Hr (ps, o)). by destruct (PartitionStore_Flush (ps, o)).
Qed.

Lemma GetOrCreatePartition_grows t p : respects growing (GetOrCreatePartition t p).
Proof. unfold GetOrCreatePartition. grow. Qed.

Lemma on_partition_grows {A} key (m : stio PartitionStore A) : respects growing m -> respects growing (on_partition key m).
Proof.
  intros Hm [bs o]. unfold on_partition. destruct (bs_stores bs !! key) as [ps|]; [|done].
  specialize (Hm (ps, o)). by destruct (m (ps, o)) as [r [ps' o']].
Qed.

#[export] Hint Resolve GetOrCreatePartition_grows on_partition_grows : grows.

(** ** The handlers *)

Section handlers.
Context `{Prometheus} `{MapOrder} (Getenv : gostring -> gostring).

Lemma on_store_grows {A} (m : stio BrokerStore A) : respects growing m -> respects growing (on_store m).
Proof. apply growing_zoom. Qed.

Lemma on_metrics_grows {A} (m : Z -> st Metrics A) : respects growing (on_metrics m).
Proof. intros [h o]. unfold on_metrics. destruct (m _ _). apply grows_preorder. Qed.

Lemma Now_grows : respects growing Now.
Proof. intros [h o]. apply grows_preorder. Qed.

Hint Resolve on_store_grows on_metrics_grows Now_grows : grows.

Lemma produce_partition_grows t part : respects growing (produce_partition t part).
Proof. unfold produce_partition. grow. Qed.

Lemma fetch_partition_grows t part rem : respects growing (fetch_partition t part rem).
Proof. unfold fetch_partition. grow. Qed.

Lemma commit_partition_grows g t part : respects growing (commit_partition g t part).
Proof. unfold commit_partition. grow. Qed.

Lemma list_offsets_partition_grows t part : respects growing (list_offsets_partition t part).
Proof. unfold list_offsets_partition. grow. Qed.

Hint Resolve produce_partition_grows fetch_partition_grows commit_partition_grows list_offsets_partition_grows : grows.

Lemma fetch_partitions_grows t parts rem : respects growing (fetch_partitions t parts rem).
Proof. revert rem. induction parts as [|part parts IH]; intros rem; cbn [fetch_partitions]; grow. Qed.
Hint Resolve fetch_partitions_grows : grows.

Lemma fetch_topics_grows topics rem : respects growing (fetch_topics topics rem).
Proof. revert rem. induction topics as [|topic topics IH]; intros rem; cbn [fetch_topics]; grow. Qed.
Hint Resolve fetch_topics_grows : grows.

(** ** Connections *)

Lemma on_handler_grows {A} (m : stio Handler A) : respects growing m -> respects growing (on_handler m).
Proof. intros Hm [[h c] o]. specialize (Hm (h, o)). unfold on_handler. by destruct (m (h, o)) as [r [h' o']]. Qed.

Lemma on_conn_grows {A} (m : st conn A) : respects growing (on_conn m).
Proof. intros [[h c] o]. unfold on_conn. destruct (m c). apply grows_preorder. Qed.

Lemma parse_grows {A} (d : decoder A) : respects growing (parse d).
Proof. apply on_conn_grows. Qed.

Lemma send_grows e : respects growing (send e).
Proof. apply on_conn_grows. Qed.

Hint Resolve on_handler_grows on_conn_grows parse_grows send_grows : grows.

Lemma dispatch_grows header : respects growing (dispatch Getenv header).
Proof.
  unfold dispatch, handleProduce, handleFetch, handleListOffsets, handleMetadata, handleOffsetCommit, handleOffsetFetch,
    handleFindCoordinator, handleJoinGroup, handleHeartbeat, handleLeaveGroup, handleSyncGroup, handleApiVersions.
  grow; apply on_handler_grows; unfold produce, produce_topic, fetch, list_offsets, list_offsets_topic, metadata,
    offset_commit, commit_topic; grow.
Qed.

Lemma serve_grows k : respects growing (serve Getenv k).
Proof.
  induction k as [|k IH]; cbn [serve]; [grow|]. intros x. pose proof (parse_grows ParseRequestHeader x) as Hp.
  destruct (parse ParseRequestHeader x) as [[header|e|e] y]; [|done..].
  pose proof (dispatch_grows header y) as Hd. destruct (dispatch Getenv header y) as [[u|e|e] z]; [|by etrans..].
  etrans; [exact Hp|]. etrans; [exact Hd|apply IH].
Qed.

(** C24: Whatever a client sends on its connection, whichever system calls fail and whatever state the broker is in,
    serving the connection leaves every file with the bytes it had, followed by new ones: stored records are never
    overwritten, truncated or deleted by a request. *)
Theorem connections_only_append h c o q :
  content q o `prefix_of` content q (Handle Getenv ((h, c), o)).2.2.
Proof.
  unfold Handle. cbn [fst snd]. pose proof (serve_grows (S (length (rd_data (c_in c)))) ((h, c), o)) as Hs.
  destruct (serve Getenv _ ((h, c), o)) as [r [[h' c'] o']]. apply Hs.
Qed.
End handlers.
