(* ===== verification/Prog.v ===== *)
(** * Concurrent programs over a shared state

    A goroutine is a program: a tree of calls, each atomic because the code
    makes it under a lock, with what it does next as a function of the result.
    A pool of programs runs by interleaving their calls. The same semantics
    serves the code, over its real state, and specifications, over an abstract
    one; [pool_simulation] relates the two thread by thread, with what a thread
    knows between its calls required to be stable under the others'. *)

From stdpp Require Import base tactics list numbers gmap strings relations.
From Stdlib Require Import ZArith Lia.
From S2P Require Import Prelude GoIO.
#[local] Open Scope Z_scope.
#[local] Set Warnings "-register-all".

(** ** Programs *)

Inductive prog (S R : Type) : Type :=
  | PRet (r : R)
  | PFail (e : goerr)
  | PPanic (p : panic)
  | PCall (X : Type) (m : st S X) (k : X + goerr -> prog S R).
Arguments PRet {S R} r.
Arguments PFail {S R} e.
Arguments PPanic {S R} p.
Arguments PCall {S R X} m k.

(** The program run alone. *)
Fixpoint exec {S R} (p : prog S R) : st S R :=
  match p with
  | PRet r => mret r
  | PFail e => sfail e
  | PPanic e => spanic e
  | PCall m k => y ← try_st m; exec (k y)
  end.

Fixpoint pbind {S R R'} (p : prog S R) (k : R -> prog S R') : prog S R' :=
  match p with
  | PRet r => k r
  | PFail e => PFail e
  | PPanic e => PPanic e
  | PCall m k' => PCall m (fun y => pbind (k' y) k)
  end.

(** A call whose error the program returns. *)
Definition pcall {S R X} (m : st S X) (k : X -> prog S R) : prog S R :=
  PCall m (fun y => match y with inl x => k x | inr e => PFail e end).

(** [for _, x := range xs { ... }] with the results collected. *)
Fixpoint pmap {S X R} (body : X -> prog S R) (xs : list X) : prog S (list R) :=
  match xs with
  | [] => PRet []
  | x :: xs => pbind (body x) (fun r => pbind (pmap body xs) (fun rs => PRet (r :: rs)))
  end.

(** An error of a program as a value. *)
Fixpoint pcatch {S R} (p : prog S R) : prog S (result R) :=
  match p with
  | PRet r => PRet (Ok r)
  | PFail e => PRet (Err e)
  | PPanic e => PPanic e
  | PCall m k => PCall m (fun y => pcatch (k y))
  end.

Lemma exec_pbind {S R R'} (p : prog S R) (k : R -> prog S R') s :
  exec (pbind p k) s = (r ← exec p; exec (k r)) s.
Proof.
  revert s. induction p as [r|e|e|X m k' IH]; intros s; cbn [exec pbind]; [done..|].
  unfold mbind, st_bind. destruct (try_st m s) as [[y|e|e] s']; [|done..]. rewrite IH. done.
Qed.

Lemma exec_pcall {S R X} (m : st S X) (k : X -> prog S R) s :
  exec (pcall m k) s = (x ← m; exec (k x)) s.
Proof.
  cbn [pcall exec]. unfold mbind, st_bind, try_st. by destruct (m s) as [[x|e|e] s'].
Qed.

Lemma exec_pmap {S X R} (body : X -> prog S R) (call : X -> st S R) xs s :
  (forall x s, exec (body x) s = call x s) -> exec (pmap body xs) s = mapM call xs s.
Proof.
  intros Hb. revert s. induction xs as [|x xs IH]; intros s; [done|]. cbn [pmap mapM].
  rewrite exec_pbind. unfold mbind, st_bind. rewrite Hb. destruct (call x s) as [[r|e|e] s']; [|done..].
  rewrite exec_pbind. unfold mbind, st_bind. rewrite IH. by destruct (mapM call xs s') as [[rs|e|e] s''].
Qed.

Lemma exec_pcatch {S R} (p : prog S R) s :
  exec (pcatch p) s =
  match exec p s with (Ok r, s) => (Ok (Ok r), s) | (Err e, s) => (Ok (Err e), s) | (Panic e, s) => (Panic e, s) end.
Proof.
  revert s. induction p as [r|e|e|X m k IH]; intros s; cbn [exec pcatch]; [done..|].
  unfold mbind, st_bind, try_st. by destruct (m s) as [[y|e|e] s'].
Qed.

(** ** Pools *)

Definition panicked {S R} (p : prog S R) : bool := match p with PPanic _ => true | _ => false end.

(** The call of thread [i]. A panic that no goroutine recovers stops the
    whole process: nothing runs after it. *)
Definition pnext {S R} (i : nat) (x : list (prog S R) * S) : option (list (prog S R) * S) :=
  let '(ts, s) := x in
  if existsb panicked ts then None
  else match ts !! i with
       | Some (PCall m k) =>
           match try_st m s with
           | (Ok y, s') => Some (<[i := k y]> ts, s')
           | (Panic e, s') => Some (<[i := PPanic e]> ts, s')
           | (Err _, _) => None
           end
       | _ => None
       end.

Definition psteps {S R} (x x' : list (prog S R) * S) : Prop := exists i, pnext i x = Some x'.

(** A schedule: whose turn it is. *)
Fixpoint prun {S R} (schedule : list nat) (x : list (prog S R) * S) : option (list (prog S R) * S) :=
  match schedule with
  | [] => Some x
  | i :: schedule => x ← pnext i x; prun schedule x
  end.

Lemma prun_reaches {S R} schedule (x x' : list (prog S R) * S) :
  prun schedule x = Some x' -> rtc psteps x x'.
Proof.
  revert x. induction schedule as [|i schedule IH]; intros x; cbn [prun]; [intros [= ->]; apply rtc_refl|].
  destruct (pnext i x) as [x1|] eqn:E; [|done]. intros Hr. eapply rtc_l; [by exists i|by apply IH].
Qed.

Lemma list_insert_middle {T} (l1 l2 : list T) x y n :
  n = length l1 -> <[n := x]> (l1 ++ y :: l2) = l1 ++ x :: l2.
Proof. intros ->. induction l1 as [|z l1 IH]; [done|]. cbn. f_equal. exact IH. Qed.

(** ** Termination *)

(** What a call can leave to do. *)
Definition residue {S R} (p' p : prog S R) : Prop :=
  match p with
  | PCall m k => (exists y, p' = k y) \/ (exists e, p' = PPanic e)
  | _ => False
  end.

Lemma residue_wf {S R} (p : prog S R) : Acc residue p.
Proof.
  assert (Hp : forall e, Acc residue (PPanic (S := S) (R := R) e)) by by constructor.
  induction p as [r|e|e|X m k IH]; constructor; [done..|]. intros p' [[y ->]|[e ->]]; [apply IH|apply Hp].
Qed.

(** One of several programs takes a step. *)
Definition residues {S R} (ts' ts : list (prog S R)) : Prop :=
  exists i p p', ts !! i = Some p /\ residue p' p /\ ts' = <[i := p']> ts.

Lemma residues_wf {S R} (ts : list (prog S R)) : Acc residues ts.
Proof.
  induction ts as [|p ts IH]; [by constructor; intros ? (i & p & p' & Hi & _)|].
  revert ts IH. induction (residue_wf p) as [p _ IHp]. intros ts Hts.
  induction Hts as [ts Hacc IHts]. constructor. intros ts' (i & q & q' & Hi & Hr & ->). destruct i as [|i].
  - injection Hi as <-. apply IHp; [done|by constructor].
  - apply IHts. by exists i, q, q'.
Qed.

(** No schedule runs forever. *)
Lemma pools_terminate {S R} (x : list (prog S R) * S) : sn psteps x.
Proof.
  destruct x as [ts s]. revert s. induction (residues_wf ts) as [ts _ IH]. intros s. constructor.
  intros [ts' s'] [i E]. unfold pnext in E. destruct (existsb panicked ts); [done|].
  destruct (ts !! i) as [[r|e|e|X m k]|] eqn:Hi; [done..| |done].
  apply IH. exists i, (PCall m k).
  destruct (try_st m s) as [[y|e|e] s1]; simplify_eq; eexists; (split; [done|]); cbn [residue]; eauto.
Qed.

(** ** Simulation *)

Section simulation.
Context {C S R R' : Type}.
(** The abstraction, what every call respects, how much more a program may
    use, and which results agree. *)
Context (ok : C -> S -> Prop) (evolves : relation C) (fits : Z -> S -> Prop) (agree : R -> R' -> Prop).
Context (fits_weaken : forall n m A, n <= m -> fits m A -> fits n A).

(** What a thread may rely on between its calls. *)
Definition stable (I : C -> Prop) : Prop := forall c c', evolves c c' -> I c -> I c'.

(** A step of a specification that still needs [n], then [n'], or none. *)
Definition spec_moves (x y : prog S R' * Z * S) : Prop :=
  y = x \/
  exists Y (f : st S Y) g z d n', x.1.1 = PCall f g /\ x.1.2 = d + n' /\ 0 <= d /\
    try_st f x.2 = (Ok z, y.2) /\ y.1 = (g z, n') /\
    forall N, 0 <= N -> fits (d + N) x.2 -> fits N y.2.

(** [sim I n p q]: in states with [I], the program [p] does what [q] does,
    with [n] the resources [q] still needs. A call of [p] is either invisible
    or one call of [q]. *)
Fixpoint sim (I : C -> Prop) (n : Z) (p : prog C R) (q : prog S R') : Prop :=
  0 <= n /\
  match p with
  | PRet r => exists r', q = PRet r' /\ agree r r'
  | PFail _ | PPanic _ => False
  | PCall m k =>
      forall c A, ok c A -> I c -> fits n A ->
      exists y c' q' n' A' (I' : C -> Prop), try_st m c = (Ok y, c') /\ spec_moves (q, n, A) (q', n', A') /\
        ok c' A' /\ evolves c c' /\ stable I' /\ I' c' /\ sim I' n' (k y) q'
  end.

Lemma sim_need I n p q : sim I n p q -> 0 <= n.
Proof. by destruct p; intros [? _]. Qed.

Lemma sim_ret I n r r' : 0 <= n -> agree r r' -> sim I n (PRet r) (PRet r').
Proof. intros Hn Ha. split; [done|]. by exists r'. Qed.

(** A call that the specification does not see. *)
Lemma sim_quiet (I : C -> Prop) n X (m : st C X) k q :
  0 <= n ->
  (forall c A, ok c A -> I c -> fits n A ->
     exists y c' (I' : C -> Prop), try_st m c = (Ok y, c') /\ ok c' A /\ evolves c c' /\
       stable I' /\ I' c' /\ sim I' n (k y) q) ->
  sim I n (PCall m k) q.
Proof.
  intros Hn Hc. split; [done|]. intros c A Hok HI Hf.
  destruct (Hc c A Hok HI Hf) as (y & c' & I' & Em & Hok' & He & Hs & HI' & Hk).
  exists y, c', q, n, A, I'. split_and!; try done. by left.
Qed.

(** A call that is one call of the specification. *)
Lemma sim_atomic (I : C -> Prop) d n X (m : st C X) k Y (f : st S Y) g :
  0 <= d -> 0 <= n ->
  (forall c A, ok c A -> I c -> fits (d + n) A ->
     exists y c' z A' (I' : C -> Prop), try_st m c = (Ok y, c') /\ try_st f A = (Ok z, A') /\
       ok c' A' /\ (forall N, 0 <= N -> fits (d + N) A -> fits N A') /\ evolves c c' /\
       stable I' /\ I' c' /\ sim I' n (k y) (g z)) ->
  sim I (d + n) (PCall m k) (PCall f g).
Proof.
  intros Hd Hn Hc. split; [lia|]. intros c A Hok HI Hf.
  destruct (Hc c A Hok HI Hf) as (y & c' & z & A' & I' & Em & Ef & Hok' & Hfit & He & Hs & HI' & Hk).
  exists y, c', (g z), n, A', I'. split_and!; try done. right. exists Y, f, g, z, d, n. by split_and!.
Qed.

(** A thread and its specification in the current state. *)
Definition thread_sim (c : C) (p : prog C R) (qn : prog S R' * Z) : Prop :=
  exists I, stable I /\ I c /\ sim I qn.2 p qn.1.

Definition needs (qs : list (prog S R' * Z)) : Z := foldr (fun qn n => qn.2 + n) 0 qs.

(** The pools agree. *)
Definition pool_sim (x : list (prog C R) * C) (y : list (prog S R') * S) : Prop :=
  exists qs, y.1 = qs.*1 /\ Forall2 (thread_sim x.2) x.1 qs /\ ok x.2 y.2 /\ fits (needs qs) y.2.

Lemma thread_sim_evolves c c' p qn : evolves c c' -> thread_sim c p qn -> thread_sim c' p qn.
Proof. intros He (I & Hs & HI & Hp). exists I. split_and!; [done|by eapply Hs|done]. Qed.

Lemma needs_app qs qs' : needs (qs ++ qs') = needs qs + needs qs'.
Proof. unfold needs. induction qs as [|qn qs IH]; cbn [app foldr]; lia. Qed.

Lemma needs_nonneg c ps qs : Forall2 (thread_sim c) ps qs -> 0 <= needs qs.
Proof.
  induction 1 as [|p qn ps qs (I & _ & _ & Hs) _ IH]; [done|]. apply sim_need in Hs.
  unfold needs in *. cbn [foldr]. lia.
Qed.

(** The other threads do not notice a call of one. *)
Lemma pool_frame c c' ps1 p ps2 qs1 qn qs2 :
  evolves c c' -> Forall2 (thread_sim c) ps1 qs1 -> Forall2 (thread_sim c) ps2 qs2 -> thread_sim c' p qn ->
  Forall2 (thread_sim c') (ps1 ++ p :: ps2) (qs1 ++ qn :: qs2).
Proof.
  intros He F1 F2 Hp. apply Forall2_app; [|constructor; [done|]];
    (eapply Forall2_impl; [done|]); intros; by eapply thread_sim_evolves.
Qed.

(** The specification of a thread that can still run has not panicked. *)
Lemma sim_spec_running p : forall I n q c A,
  sim I n p q -> ok c A -> I c -> fits n A -> panicked q = false.
Proof.
  induction p as [r|e|e|X m k IH]; intros I n q c A [_ Hs] Hok HI Hf; [by destruct Hs as (? & -> & _)|done..|].
  destruct (Hs c A Hok HI Hf) as (y & c' & q' & n' & A' & I' & _ & Hm & Hok' & _ & _ & HI' & Hs').
  destruct Hm as [[= -> -> ->]|(Y & f & g & z & d & n1 & Hq & _)]; [by eapply IH|]. cbn [fst] in Hq. by subst q.
Qed.

Lemma none_panicked {T U} (l : list (prog T U)) : Forall (fun p => panicked p = false) l -> existsb panicked l = false.
Proof. induction 1 as [|p l Hp _ IH]; cbn [existsb]; [done|]. by rewrite Hp, IH. Qed.

Lemma specs_running c A ps qs :
  Forall2 (thread_sim c) ps qs -> ok c A -> fits (needs qs) A -> Forall (fun q => panicked q = false) qs.*1.
Proof.
  intros F Hok. induction F as [|p qn ps qs (I & _ & HI & Hs) F IH]; intros Hf; cbn; constructor.
  - eapply sim_spec_running; [done..|]. eapply fits_weaken; [|done].
    pose proof (needs_nonneg _ _ _ F). unfold needs in *. cbn [foldr]. lia.
  - apply IH. eapply fits_weaken; [|done]. apply sim_need in Hs. unfold needs. cbn [foldr]. lia.
Qed.

(** No thread has failed or panicked. *)
Lemma threads_running c ps qs : Forall2 (thread_sim c) ps qs -> Forall (fun p => panicked p = false) ps.
Proof.
  induction 1 as [|p qn ps qs (I & _ & _ & Hs) _ IH]; constructor; [|done].
  destruct p; [done..| |done]. by destruct Hs.
Qed.

(** The specifications when thread [length qs1] moves. *)
Lemma specs_step qs1 q n q' n' qs2 A A' :
  spec_moves (q, n, A) (q', n', A') -> Forall (fun q => panicked q = false) (qs1 ++ (q, n) :: qs2).*1 ->
  0 <= needs qs1 + (n' + needs qs2) -> fits (needs qs1 + (n + needs qs2)) A ->
  rtc psteps ((qs1 ++ (q, n) :: qs2).*1, A) ((qs1 ++ (q', n') :: qs2).*1, A') /\
  fits (needs qs1 + (n' + needs qs2)) A'.
Proof.
  intros [[= -> -> ->]|(Y & f & g & z & d & n1 & Hq & Hn & Hd & Ef & Hy & Hfit)] Hrun Hnn Hf; [by split|].
  cbn [fst snd] in *. simplify_eq. split.
  - apply rtc_once. exists (length qs1). unfold pnext. rewrite none_panicked by done.
    rewrite fmap_app. cbn [fmap list_fmap fst].
    rewrite <- (length_fmap fst qs1), list_lookup_middle by done.
    rewrite Ef, list_insert_middle by done. by rewrite fmap_app.
  - apply Hfit; [done|]. eapply fits_weaken; [|exact Hf]. lia.
Qed.

Lemma pool_step x x' y :
  pool_sim x y -> psteps x x' -> exists y', rtc psteps y y' /\ pool_sim x' y'.
Proof.
  destruct x as [ts c], y as [us A]. intros (qs & Hus & F & Hok & Hf) [i E]. cbn [fst snd] in *. subst us.
  unfold pnext in E. destruct (existsb panicked ts); [done|].
  destruct (ts !! i) as [p|] eqn:Ei; [|done].
  pose proof (specs_running _ _ _ _ F Hok Hf) as Hrun.
  apply list_elem_of_split_length in Ei as (ts1 & ts2 & -> & Hi).
  apply Forall2_app_inv_l in F as (qs1 & qs2' & F1 & F2 & ->).
  inversion F2 as [|? [q n] ? qs2 (I & HsI & HI & Hs) F2']; simplify_eq.
  pose proof (needs_nonneg _ _ _ F1). pose proof (needs_nonneg _ _ _ F2').
  rewrite needs_app in Hf. cbn [needs foldr snd] in Hf. fold (needs qs2) in Hf. cbn [fst snd] in Hs.
  pose proof (sim_need _ _ _ _ Hs). destruct p as [r|e|e|X m k]; [done..|]. destruct Hs as [_ Hs].
  destruct (Hs c A Hok HI) as (y & c' & q' & n' & A' & I' & Em & Hm & Hok' & He & HsI' & HI' & Hs').
  { eapply fits_weaken; [|exact Hf]. lia. }
  rewrite Em in E. simplify_eq. pose proof (sim_need _ _ _ _ Hs').
  destruct (specs_step qs1 q n q' n' qs2 A A' Hm Hrun) as [Hr Hf']; [lia|done|].
  exists ((qs1 ++ (q', n') :: qs2).*1, A'). split; [done|].
  exists (qs1 ++ (q', n') :: qs2). cbn [fst snd]. split_and!; [done| |done|].
  - rewrite list_insert_middle by done. apply (pool_frame c); [done..|]. by exists I'.
  - by rewrite needs_app.
Qed.

(** Every run of the pool is a run of the pool of specifications. *)
Lemma pool_simulation x x' y :
  pool_sim x y -> rtc psteps x x' -> exists y', rtc psteps y y' /\ pool_sim x' y'.
Proof.
  intros Hs Hr. revert y Hs. induction Hr as [x|x1 x2 x3 Hstep _ IH]; intros y Hs; [by exists y|].
  destruct (pool_step _ _ _ Hs Hstep) as (y1 & Hr1 & Hs1). destruct (IH y1 Hs1) as (y2 & Hr2 & Hs2).
  exists y2. split; [by etrans|done].
Qed.

(** A thread that has returned agrees with its specification, which has. *)
Lemma pool_results ts c us A i r :
  pool_sim (ts, c) (us, A) -> ts !! i = Some (PRet r) -> exists r', us !! i = Some (PRet r') /\ agree r r'.
Proof.
  intros (qs & Hus & F & _ & _) Hi. cbn [fst snd] in *. subst us.
  destruct (Forall2_lookup_l _ _ _ _ _ F Hi) as ([q n] & Eq & (I & _ & _ & [_ Hs])).
  destruct Hs as (r' & Hq & Ha). cbn [fst] in Hq. subst q. exists r'. split; [|done].
  by rewrite list_lookup_fmap, Eq.
Qed.

Lemma sim_weaken p : forall (I J : C -> Prop) n m q,
  sim I n p q -> (forall c, J c -> I c) -> n <= m -> sim J m p q.
Proof.
  induction p as [r|e|e|X call k IH]; intros I J n m q [Hn Hs] HJ Hm; (split; [lia|]); [done..|].
  intros c A Hok HI Hf.
  destruct (Hs c A Hok (HJ _ HI)) as (y & c' & q' & n' & A' & I' & Em & Hmv & Hok' & He & HsI & HI' & Hs');
    [by eapply fits_weaken|].
  destruct Hmv as [[= -> -> ->]|(Y & f & g & z & d & n1 & Hq & Hd & Hd0 & Ef & Hy & Hfit)].
  - exists y, c', q, m, A, I'. split_and!; try done; [by left|]. by eapply IH.
  - cbn [fst snd] in *. simplify_eq. exists y, c', (g z), (m - d), A', I'. split_and!; try done.
    + right. exists Y, f, g, z, d, (m - d). split_and!; try done; cbn; lia.
    + eapply IH; [done|done|lia].
Qed.

(** Where no thread can take a step, all have returned. *)
Lemma pool_progress ts c y :
  pool_sim (ts, c) y -> nf psteps (ts, c) -> Forall (fun p => exists r, p = PRet r) ts.
Proof.
  destruct y as [us A]. intros (qs & _ & F & Hok & Hf) Hnf. cbn [fst snd] in *. apply Forall_lookup. intros i p Hi.
  destruct (Forall2_lookup_l _ _ _ _ _ F Hi) as ([q n] & Eq & (I & _ & HI & Hs)).
  destruct p as [r|e|e|X m k]; [by exists r|by destruct Hs..|]. destruct Hs as [_ Hs]. destruct Hnf.
  destruct (Hs c A Hok HI) as (y & c' & _ & _ & _ & _ & Em & _).
  { apply list_elem_of_split_length in Eq as (qs1 & qs2 & -> & _). eapply fits_weaken; [|exact Hf].
    apply Forall2_app_inv_r in F as (ps1 & ps2 & F1 & F2 & _). inversion F2 as [|? ? ? ? _ F3]; simplify_eq.
    pose proof (needs_nonneg _ _ _ F1). pose proof (needs_nonneg _ _ _ F3).
    rewrite needs_app. cbn [needs foldr snd]. fold (needs qs2). lia. }
  exists (<[i := k y]> ts, c'). exists i. unfold pnext. rewrite none_panicked by by eapply threads_running.
  by rewrite Hi, Em.
Qed.
End simulation.

Section compose.
Context {C S : Type} (ok : C -> S -> Prop) (evolves : relation C) (fits : Z -> S -> Prop).
Context (fits_weaken : forall n m A, n <= m -> fits m A -> fits n A).
Abbreviation sim := (sim ok evolves fits).

(** Sequencing; what others keep is still known after the first program. *)
Lemma sim_bind_frame {R R' T T'} (agree : R -> R' -> Prop) (agree' : T -> T' -> Prop) (F : C -> Prop) p : forall I n n' q k k',
  sim agree I n p q -> 0 <= n' -> stable evolves F ->
  (forall r r', agree r r' -> sim agree' F n' (k r) (k' r')) ->
  sim agree' (fun c => I c /\ F c) (n + n') (pbind p k) (pbind q k').
Proof using fits_weaken.
  induction p as [r|e|e|X m k0 IH]; intros I n n' q k k' [Hn Hs] Hn' HF Hk; [|done..|].
  - destruct Hs as (r' & -> & Ha). cbn [pbind]. eapply sim_weaken; [done|by apply Hk|by intros c [_ ?]|lia].
  - cbn [pbind]. split; [lia|]. intros c A Hok [HI HFc] Hf.
    destruct (Hs c A Hok HI) as (y & c' & q' & n1 & A' & I' & Em & Hmv & Hok' & He & HsI & HI' & Hs');
      [eapply fits_weaken; [|done]; lia|].
    exists y, c', (pbind q' k'), (n1 + n'), A', (fun c => I' c /\ F c).
    split_and!; [done| |done|done| |done|by eapply HF|by apply IH].
    + destruct Hmv as [[= -> -> ->]|(Y & f & g & z & d & n2 & Hq & Hd & Hd0 & Ef & Hy & Hfit)]; [by left|right].
      cbn [fst snd] in *. simplify_eq. exists Y, f, (fun z => pbind (g z) k'), z, d, (n2 + n').
      split_and!; try done. cbn [fst snd]. lia.
    + intros c1 c2 H12 [? ?]. split; [by eapply HsI|by eapply HF].
Qed.

Lemma sim_bind {R R' T T'} (agree : R -> R' -> Prop) (agree' : T -> T' -> Prop) p I n n' q k k' :
  sim agree I n p q -> 0 <= n' ->
  (forall r r', agree r r' -> sim agree' (fun _ => True) n' (k r) (k' r')) ->
  sim agree' I (n + n') (pbind p k) (pbind q k').
Proof using fits_weaken.
  intros Hp Hn' Hk. eapply sim_weaken; [done|by eapply (sim_bind_frame agree agree' (fun _ => True))|done|done].
Qed.

(** What one side alone does to its result. *)
Lemma sim_after {R R' T} (agree : R -> R' -> Prop) (agree' : T -> R' -> Prop) p k : forall I n q,
  sim agree I n p q -> (forall r r', agree r r' -> exists t, k r = PRet t /\ agree' t r') ->
  sim agree' I n (pbind p k) q.
Proof.
  induction p as [r|e|e|X m k0 IH]; intros I n q [Hn Hs] Hk; [|done..|].
  - destruct Hs as (r' & -> & Ha). destruct (Hk r r' Ha) as (t & E & Ha'). cbn [pbind]. rewrite E. by apply sim_ret.
  - split; [done|]. intros c A Hok HI Hf.
    destruct (Hs c A Hok HI Hf) as (y & c' & q' & n1 & A' & I' & Em & Hmv & Hok' & He & HsI & HI' & Hs').
    exists y, c', q', n1, A', I'. split_and!; try done. by apply IH.
Qed.

Lemma sim_post {R R' T'} (agree : R -> R' -> Prop) (agree' : R -> T' -> Prop) p (f : R' -> T') : forall I n q,
  sim agree I n p q -> (forall r r', agree r r' -> agree' r (f r')) ->
  sim agree' I n p (pbind q (fun r' => PRet (f r'))).
Proof.
  induction p as [r|e|e|X m k0 IH]; intros I n q [Hn Hs] Hk; [|done..|].
  - destruct Hs as (r' & -> & Ha). cbn [pbind]. apply sim_ret; [done|by apply Hk].
  - split; [done|]. intros c A Hok HI Hf.
    destruct (Hs c A Hok HI Hf) as (y & c' & q' & n1 & A' & I' & Em & Hmv & Hok' & He & HsI & HI' & Hs').
    exists y, c', (pbind q' (fun r' => PRet (f r'))), n1, A', I'. split_and!; try done; [|by apply IH].
    destruct Hmv as [[= -> -> ->]|(Y & g & k & z & d & n2 & Hq & Hd & Hd0 & Ef & Hy & Hfit)]; [by left|right].
    cbn [fst snd] in *. simplify_eq. exists Y, g, (fun z => pbind (k z) (fun r' => PRet (f r'))), z, d, n2. by split_and!.
Qed.

(** A program that does what its specification does has no error to catch. *)
Lemma sim_pcatch {R R'} (agree : R -> R' -> Prop) p : forall I n (q : prog S R'),
  sim agree I n p q -> sim (fun r r' => exists x, r = Ok x /\ agree x r') I n (pcatch p) q.
Proof.
  induction p as [r|e|e|X m k0 IH]; intros I n q [Hn Hs]; [|done..|].
  - destruct Hs as (r' & -> & Ha). apply sim_ret; [done|by exists r].
  - split; [done|]. intros c A Hok HI Hf.
    destruct (Hs c A Hok HI Hf) as (y & c' & q' & n1 & A' & I' & Em & Hmv & Hok' & He & HsI & HI' & Hs').
    exists y, c', q', n1, A', I'. split_and!; try done. by apply IH.
Qed.

(** A loop over a list, element by element. *)
Lemma sim_pmap {X R R'} (agree : R -> R' -> Prop) (body : X -> prog C R) (spec : X -> prog S R') (need : X -> Z) xs :
  Forall (fun x => sim agree (fun _ => True) (need x) (body x) (spec x)) xs ->
  sim (Forall2 agree) (fun _ => True) (foldr (fun x n => need x + n) 0 xs) (pmap body xs) (pmap spec xs).
Proof using fits_weaken.
  induction 1 as [|x xs Hx Hxs IH]; [by apply sim_ret|]. cbn [pmap foldr].
  eapply sim_bind; [exact Hx|by eapply sim_need|]. intros r r' Ha.
  rewrite <- (Z.add_0_r (foldr _ _ _)). eapply sim_bind; [exact IH|done|]. intros rs rs' Hrs.
  apply sim_ret; [done|by constructor].
Qed.
End compose.

(** ** What threads establish

    Every call of every thread respects [G]; [safe post I p]: in states with
    [I], the program [p] respects it too and its result satisfies [post], now
    and, when [G] keeps [post], in all later states. *)

Section rely.
Context {S : Type} (G : relation S).

Definition kept (I : S -> Prop) : Prop := forall s s', G s s' -> I s -> I s'.

Fixpoint safe {R} (post : R -> S -> Prop) (I : S -> Prop) (p : prog S R) : Prop :=
  match p with
  | PRet r => forall s, I s -> post r s
  | PFail _ | PPanic _ => True
  | PCall m k => forall s, I s ->
      G s (try_st m s).2 /\
      match (try_st m s).1 with
      | Ok y => exists I' : S -> Prop, kept I' /\ I' (try_st m s).2 /\ safe post I' (k y)
      | _ => True
      end
  end.

Lemma safe_weaken {R} (post post' : R -> S -> Prop) p : forall I J : S -> Prop,
  safe post I p -> (forall s, J s -> I s) -> (forall r s, post r s -> post' r s) -> safe post' J p.
Proof.
  induction p as [r|e|e|X m k IH]; intros I J Hs HJ Hp; cbn [safe] in *; [by eauto|done..|].
  intros s HJs. destruct (Hs s (HJ _ HJs)) as [Hg Hk]. split; [done|].
  destruct (try_st m s).1 as [y|e|e]; [|done..]. destruct Hk as (I' & ? & ? & ?). exists I'. split_and!; [done..|].
  by eapply IH.
Qed.

(** What others keep can be carried along. *)
Lemma safe_frame {R} (post : R -> S -> Prop) (F : S -> Prop) p : forall I : S -> Prop,
  kept F -> safe post I p -> safe (fun r s => post r s /\ F s) (fun s => I s /\ F s) p.
Proof.
  induction p as [r|e|e|X m k IH]; intros I HF Hs; cbn [safe] in *; [intros s [? ?]; by eauto|done..|].
  intros s [HI HFs]. destruct (Hs s HI) as [Hg Hk]. split; [done|].
  destruct (try_st m s).1 as [y|e|e]; [|done..]. destruct Hk as (I' & HkI & HI' & Hs').
  exists (fun s => I' s /\ F s). split_and!; [|done|by eapply HF|by apply IH].
  intros s1 s2 H12 [? ?]. split; [by eapply HkI|by eapply HF].
Qed.

Lemma safe_bind {R R'} (post : R -> S -> Prop) (post' : R' -> S -> Prop) p k : forall I : S -> Prop,
  safe post I p -> (forall r, safe post' (post r) (k r)) -> safe post' I (pbind p k).
Proof.
  induction p as [r|e|e|X m k0 IH]; intros I Hs Hk; cbn [safe pbind] in *; [|done..|].
  - eapply safe_weaken; [apply Hk|done|done].
  - intros s HI. destruct (Hs s HI) as [Hg Hk0]. split; [done|].
    destruct (try_st m s).1 as [y|e|e]; [|done..]. destruct Hk0 as (I' & ? & ? & ?). exists I'. split_and!; [done..|].
    by apply IH.
Qed.

Lemma safe_pmap {X R} (post : X -> R -> S -> Prop) (body : X -> prog S R) xs :
  (forall x r, kept (post x r)) -> Forall (fun x => safe (post x) (fun _ => True) (body x)) xs ->
  safe (fun rs s => Forall2 (fun x r => post x r s) xs rs) (fun _ => True) (pmap body xs).
Proof.
  intros Hk. induction 1 as [|x xs Hx _ IH]; cbn [pmap]; [by constructor|].
  eapply safe_bind; [exact Hx|]. intros r. eapply safe_bind.
  - eapply safe_weaken; [apply (safe_frame _ (post x r) _ _ (Hk x r) IH)|done|by intros rs s Hs; apply Hs].
  - intros rs s [? ?]. by constructor.
Qed.

Definition thread_safe {R} (s : S) (post : R -> S -> Prop) (p : prog S R) : Prop :=
  exists I, kept I /\ I s /\ safe post I p.

Lemma pool_safe {R} (posts : list (R -> S -> Prop)) ts s ts' s' :
  rtc psteps (ts, s) (ts', s') -> Forall2 (thread_safe s) posts ts -> Forall2 (thread_safe s') posts ts' /\ rtc G s s'.
Proof.
  remember (ts, s) as x eqn:Ex. remember (ts', s') as y eqn:Ey. intros Hr. revert ts s ts' s' Ex Ey.
  induction Hr as [x|x1 x2 x3 [i E] _ IH]; intros ts s ts' s' -> Ey F; [by simplify_eq|].
  destruct x2 as [ts2 s2]. assert (Hstep : Forall2 (thread_safe s2) posts ts2 /\ G s s2).
  2:{ destruct Hstep as [F2 Hg]. destruct (IH ts2 s2 ts' s' eq_refl Ey F2) as [F3 Hgs]. split; [done|by eapply rtc_l]. }
  clear IH Ey. unfold pnext in E.
  destruct (existsb panicked ts); [done|]. destruct (ts !! i) as [p|] eqn:Ei; [|done].
  destruct (Forall2_lookup_r _ _ _ _ _ F Ei) as (post & Epost & (I & HkI & HI & Hs)).
  destruct p as [r|e|e|X m k]; [done..|]. destruct (Hs s HI) as [Hg Hk].
  destruct (try_st m s) as [res s1]. cbn [fst snd] in *.
  assert (Hothers : Forall2 (thread_safe s1) posts ts).
  { eapply Forall2_impl; [exact F|]. intros post' p' (I' & HkI' & HI' & Hs'). exists I'. split_and!; [done|by eapply HkI'|done]. }
  destruct res as [z|e|e]; simplify_eq; (split; [|done]).
  - rewrite <- (list_insert_id posts i post) by done. apply Forall2_insert; [done|exact Hk].
  - rewrite <- (list_insert_id posts i post) by done. apply Forall2_insert; [done|]. by exists (fun _ => True).
Qed.

(** A thread that has returned keeps its promise from then on. *)
Lemma pool_posts {R} (posts : list (R -> S -> Prop)) ts s i r post :
  Forall2 (thread_safe s) posts ts -> posts !! i = Some post -> ts !! i = Some (PRet r) -> post r s.
Proof.
  intros F Hp Hi. destruct (Forall2_lookup_lr _ _ _ _ _ _ F Hp Hi) as (I & _ & HI & Hs). by apply Hs.
Qed.
End rely.
