(* ===== verification/Concurrent.v ===== *)
(** * Requests that run concurrently ([internal/server/handler.go])

    Every connection has a goroutine of its own. Here a handler is the sequence
    of its calls on shared state: each is atomic, made under the lock of the
    broker store, of the partition or of the offset cache, and the calls of
    other goroutines can come between any two. The double-checked lookup of
    [GetOrCreatePartition] is two calls: one under the read lock, and on a miss
    the rest of the method under the write lock. The bytes of a fetch are read
    after the partition's lock is given up, from the file that the partition
    still shares: a roll-over that comes in between has closed it. Run alone,
    each program is the handler's own definition. *)

From stdpp Require Import base tactics list numbers gmap strings relations.
From Stdlib Require Import ZArith Lia.
From S2P Require Import Prelude GoIO GoStrings Requests Responses RecordBatch OSFile.
From S2P Require Import LogIndex LogSegment LogStore OffsetRecords FetchPatch BrokerStore Metrics Handler Prog.
#[local] Open Scope Z_scope.

Section programs.
Context `{Prometheus} `{MapOrder} (Getenv : gostring -> gostring).

Abbreviation shared := (Handler * os)%type.

(** ** Looking a partition up *)

(** The lookup under the read lock. *)
Definition lookup_partition (key : gostring) : stio Handler (option PartitionStore) :=
  on_store (get_st (fun bs => bs_stores bs !! key)).

Definition get_partition {R} (t : gostring) (p : Z) (k : gostring + goerr -> prog shared R) : prog shared R :=
  pcall (lookup_partition (partitionKey t p)) (fun ps =>
    match ps with
    | Some _ => k (inl (partitionKey t p))
    | None => PCall (on_store (GetOrCreatePartition t p)) k
    end).

(** ** Produce *)

Definition produce_program (topicName : gostring) (part : ProducePartitionData)
  : prog shared ProducePartitionResponse :=
  let partResp := Build_ProducePartitionResponse in
  let batch := ppd_RecordBatch part in
  match (if 0 <? zlen batch then ValidateRecordBatch batch else Ok 0) with
  | Panic e => PPanic e
  | Err _ => PRet (partResp (-1) (ppd_Partition part) ErrCodeCorruptMessage)
  | Ok recordCount =>
      get_partition topicName (ppd_Partition part) (fun ps =>
        match ps with
        | inr _ => PRet (partResp (-1) (ppd_Partition part) 1)
        | inl ps =>
            pcall Now (fun start =>
            PCall (on_store (on_partition ps (PartitionStore_Append batch))) (fun offset =>
            pcall (on_metrics (ObserveDiskWrite topicName start)) (fun _ =>
            match offset with
            | inr _ => PRet (partResp (-1) (ppd_Partition part) 1)
            | inl offset =>
                pcall (on_metrics (fun _ => produced_Add topicName recordCount)) (fun _ =>
                PRet (partResp (i64 offset) (ppd_Partition part) 0))
            end)))
        end)
  end.

Definition produce_topic_program (topic : ProduceTopicData) : prog shared ProduceTopicResponse :=
  pbind (pmap (produce_program (ptd_TopicName topic)) (ptd_Partitions topic)) (fun partitions =>
    PRet {| ptr_TopicName := ptd_TopicName topic; ptr_Partitions := partitions |}).

Definition produce_request_program (req : ProduceRequest) : prog shared ProduceResponse :=
  pbind (pmap produce_topic_program (pr_Topics req)) (fun topics => PRet {| prs_Topics := topics |}).

(** ** Fetch *)

(** The bytes of a section reader, from the file it shares with the segment:
    the segment that is active now, or one that a roll-over has closed. *)
Definition shared_section (key : gostring) (w : section) : stio Handler reader := fun '(h, o) =>
  let f := match bs_stores (h_store h) !! key with
           | Some ps =>
               let f := sg_file (ps_active ps) in
               if decide (h_path f = h_path (sr_file w)) then f else OSFile.Handle (h_path (sr_file w)) false
           | None => OSFile.Handle (h_path (sr_file w)) false
           end in
  on_os (section_reader (MkSection f (sr_off w) (sr_n w))) (h, o).

Definition fetch_program (topicName : gostring) (part : FetchPartitionData) (remaining : Z)
  : prog shared (FetchPartitionResponse * Z) :=
  let partResp hw code :=
    {| fpr_RecordBatch := None; fpr_HighWatermark := hw; fpr_BatchSize := -1;
       fpr_Partition := fpd_Partition part; fpr_ErrorCode := code |} in
  get_partition topicName (fpd_Partition part) (fun ps =>
    match ps with
    | inr _ => PRet (partResp 0 ErrCodeOffsetOutOfRange, remaining)
    | inl ps =>
        pcall (on_store (on_partition ps (get_st PartitionStore_Size))) (fun hw =>
        if fpd_FetchOffset part =? hw then PRet (partResp hw ErrCodeNone, remaining)
        else if hw <? fpd_FetchOffset part then PRet (partResp hw ErrCodeOffsetOutOfRange, remaining)
        else
          let cap := fpd_PartitionMaxBytes part in
          let cap := if remaining <? cap then remaining else cap in
          if cap <=? 0 then PRet (partResp hw ErrCodeNone, remaining)
          else
            PCall (on_store (on_partition ps
                     (PartitionStore_Read (u64 (fpd_FetchOffset part)) (i32 (cap + recHdr))))) (fun r =>
            match r with
            | inr _ => PRet (partResp hw ErrCodeOffsetOutOfRange, remaining)
            | inl (w, n) =>
                if n <? 0 then PPanic MakeSliceCap
                else
                  pcall (shared_section ps w) (fun r =>
                  match (ReadFull n r).1 with
                  | Ok raw =>
                      if zlen raw <? recHdr then PRet (partResp hw ErrCodeOffsetOutOfRange, remaining)
                      else
                        let payload := patch_payload (fpd_FetchOffset part) (drop (Z.to_nat recHdr) raw) in
                        let payloadLen := i32 (zlen payload) in
                        let remaining := i32 (remaining - payloadLen) in
                        pcall (on_metrics (fun _ => fetched_Inc topicName)) (fun _ =>
                        PRet ({| fpr_RecordBatch := Some (Rd payload EOF); fpr_HighWatermark := hw;
                                 fpr_BatchSize := payloadLen; fpr_Partition := fpd_Partition part;
                                 fpr_ErrorCode := ErrCodeNone |}, remaining))
                  | _ => PRet (partResp hw ErrCodeOffsetOutOfRange, remaining)
                  end)
            end))
    end).

Fixpoint fetch_partitions_program (topicName : gostring) (parts : list FetchPartitionData) (remaining : Z)
  : prog shared (list FetchPartitionResponse * Z) :=
  match parts with
  | [] => PRet ([], remaining)
  | part :: parts =>
      pbind (fetch_program topicName part remaining) (fun '(p, remaining) =>
      pbind (fetch_partitions_program topicName parts remaining) (fun '(ps, remaining) =>
      PRet (p :: ps, remaining)))
  end.

Fixpoint fetch_topics_program (topics : list FetchTopicData) (remaining : Z)
  : prog shared (list FetchTopicResponse * Z) :=
  match topics with
  | [] => PRet ([], remaining)
  | topic :: topics =>
      pbind (fetch_partitions_program (ftd_TopicName topic) (ftd_Partitions topic) remaining) (fun '(ps, remaining) =>
      pbind (fetch_topics_program topics remaining) (fun '(ts, remaining) =>
      PRet ({| ftr_TopicName := ftd_TopicName topic; ftr_Partitions := ps |} :: ts, remaining)))
  end.

Definition fetch_request_program (req : FetchRequest) : prog shared FetchResponse :=
  pbind (fetch_topics_program (fr_Topics req) (fr_MaxBytes req)) (fun '(topics, _) =>
  PRet {| frs_Topics := topics; frs_ThrottleTimeMs := 0 |}).

(** ** Committed offsets *)

(** A commit: the append, then the cache, each under its own lock. *)
Definition commit_program (groupID topicName : gostring) (part : OffsetCommitPartition)
  : prog shared OffsetCommitPartitionResponse :=
  let partResp code := {| ocpr_Partition := ocp_Partition part; ocpr_ErrorCode := code |} in
  let cacheKey := MkOffsetCacheKey groupID topicName (ocp_Partition part) in
  let record := offset_record cacheKey (ocp_CommittedOffset part) in
  get_partition ConsumerOffsetsTopic 0 (fun ps =>
    match ps with
    | inr _ => PRet (partResp 1)
    | inl ps =>
        PCall (on_store (on_partition ps (PartitionStore_Append record))) (fun r =>
        match r with
        | inr _ => PRet (partResp 1)
        | inl _ =>
            pcall (put_st (fun h =>
              set_offsetCache (<[cacheKey := ocp_CommittedOffset part]> (h_offsetCache h)) h)) (fun _ =>
            PRet (partResp 0))
        end)
    end).

Definition commit_topic_program (groupID : gostring) (topic : OffsetCommitTopic)
  : prog shared OffsetCommitTopicResponse :=
  pbind (pmap (commit_program groupID (oct_TopicName topic)) (oct_Partitions topic)) (fun partitions =>
    PRet {| octr_TopicName := oct_TopicName topic; octr_Partitions := partitions |}).

Definition commit_request_program (req : OffsetCommitRequest) : prog shared OffsetCommitResponse :=
  pbind (pmap (commit_topic_program (oc_GroupID req)) (oc_Topics req)) (fun topics =>
    PRet {| ocr_Topics := topics |}).

(** An offset fetch holds the read lock of the cache for all its lookups. *)
Definition offset_fetch_program (req : OffsetFetchRequest) : prog shared OffsetFetchResponse :=
  pcall (get_st h_offsetCache) (fun cache => PRet (offset_fetch req cache)).

(** ** List offsets and metadata *)

Definition list_offsets_program (topicName : gostring) (part : ListOffsetsPartitionRequest)
  : prog shared ListOffsetsPartitionResponse :=
  let partResp code offset :=
    {| lopr_Partition := lop_Partition part; lopr_ErrorCode := code; lopr_Timestamp := -1;
       lopr_Offset := offset |} in
  if lop_Timestamp part =? TimestampEarliest then PRet (partResp 0 0)
  else if lop_Timestamp part =? TimestampLatest then
    get_partition topicName (lop_Partition part) (fun ps =>
      match ps with
      | inr _ => PRet (partResp ErrCodeUnknownTopicOrPartition 0)
      | inl ps =>
          pcall (on_store (on_partition ps (get_st PartitionStore_Size))) (fun size => PRet (partResp 0 size))
      end)
  else PRet (partResp 0 0).

Definition list_offsets_topic_program (topic : ListOffsetsTopicRequest) : prog shared ListOffsetsTopicResponse :=
  pbind (pmap (list_offsets_program (lot_TopicName topic)) (lot_Partitions topic)) (fun partitions =>
    PRet {| lotr_TopicName := lot_TopicName topic; lotr_Partitions := partitions |}).

Definition list_offsets_request_program (req : ListOffsetsRequest) : prog shared ListOffsetsResponse :=
  pbind (pmap list_offsets_topic_program (lo_Topics req)) (fun topics => PRet {| lor_Topics := topics |}).

Definition metadata_program (req : MetadataRequest) : prog shared MetadataResponse :=
  pbind (pmap (fun t => get_partition t 0 (fun _ => PRet tt)) (mr_Topics req)) (fun _ =>
  pcall (get_st (fun h => Topics (h_store h))) (fun tps =>
  let topicMeta := (fun '(topicName, partitions) => topic_metadata topicName partitions)
                     <$> map_range (group_by_topic tps) in
  PRet {| mrs_Brokers := [{| br_NodeID := 1; br_Host := advertisedHost Getenv; br_Port := 9092;
                             br_Rack := None |}];
          mrs_ClusterID := None; mrs_ControllerID := 1; mrs_Topics := topicMeta |})).

(** ** Requests *)

Inductive request :=
  | RqProduce (req : ProduceRequest)
  | RqFetch (req : FetchRequest)
  | RqListOffsets (req : ListOffsetsRequest)
  | RqMetadata (req : MetadataRequest)
  | RqOffsetCommit (req : OffsetCommitRequest)
  | RqOffsetFetch (req : OffsetFetchRequest).

Inductive response :=
  | RsProduce (resp : ProduceResponse)
  | RsFetch (resp : FetchResponse)
  | RsListOffsets (resp : ListOffsetsResponse)
  | RsMetadata (resp : MetadataResponse)
  | RsOffsetCommit (resp : OffsetCommitResponse)
  | RsOffsetFetch (resp : OffsetFetchResponse).

Definition pfmap {S R R'} (f : R -> R') (p : prog S R) : prog S R' := pbind p (fun r => PRet (f r)).

Definition request_program (rq : request) : prog shared response :=
  match rq with
  | RqProduce req => pfmap RsProduce (produce_request_program req)
  | RqFetch req => pfmap RsFetch (fetch_request_program req)
  | RqListOffsets req => pfmap RsListOffsets (list_offsets_request_program req)
  | RqMetadata req => pfmap RsMetadata (metadata_program req)
  | RqOffsetCommit req => pfmap RsOffsetCommit (commit_request_program req)
  | RqOffsetFetch req => pfmap RsOffsetFetch (offset_fetch_program req)
  end.

(** The handlers one after the other, as [Handler] has them. *)
Definition serve_request (rq : request) : stio Handler response :=
  match rq with
  | RqProduce req => r ← produce req; mret (RsProduce r)
  | RqFetch req => r ← fetch req; mret (RsFetch r)
  | RqListOffsets req => r ← list_offsets req; mret (RsListOffsets r)
  | RqMetadata req => r ← metadata Getenv req; mret (RsMetadata r)
  | RqOffsetCommit req => r ← offset_commit req; mret (RsOffsetCommit r)
  | RqOffsetFetch req => cache ← get_st h_offsetCache; mret (RsOffsetFetch (offset_fetch req cache))
  end.

(** ** Run alone *)

Lemma try_bind {S A B} (m : st S A) (k : A + goerr -> st S B) s :
  (y ← try_st m; k y) s =
  match m s with (Ok a, s) => k (inl a) s | (Err e, s) => k (inr e) s | (Panic p, s) => (Panic p, s) end.
Proof. unfold mbind, st_bind, try_st. by destruct (m s) as [[] ?]. Qed.

Lemma exec_PCall {S R X} (m : st S X) (k : X + goerr -> prog S R) s :
  exec (PCall m k) s = (y ← try_st m; exec (k y)) s.
Proof. done. Qed.

Lemma bind_ext {S A B} (m : st S A) (k k' : A -> st S B) s :
  (forall a s, k a s = k' a s) -> (x ← m; k x) s = (x ← m; k' x) s.
Proof. intros Hk. unfold mbind, st_bind. destruct (m s) as [[] ?]; auto. Qed.

Lemma exec_get_partition {R} t p (k : gostring + goerr -> prog shared R) x :
  exec (get_partition t p k) x = (ps ← try_st (on_store (GetOrCreatePartition t p)); exec (k ps)) x.
Proof.
  unfold get_partition. rewrite exec_pcall. destruct x as [h o]. unfold lookup_partition, on_store, zoom, get_st.
  unfold mbind at 1, st_bind at 1. cbn [fst snd]. destruct (bs_stores (h_store h) !! partitionKey t p) as [ps|] eqn:E; [|by destruct h].
  rewrite try_bind. unfold GetOrCreatePartition, get_st, mbind, st_bind. rewrite E. simpl. by destruct h.
Qed.

Lemma exec_produce_program t part x : exec (produce_program t part) x = produce_partition t part x.
Proof.
  unfold produce_program, produce_partition. set (v := if _ <? _ then _ else _). rewrite try_bind. unfold lift_result.
  destruct v as [n|e|e]; [|done..]. rewrite exec_get_partition. apply bind_ext. intros [ps|e] y; [|done].
  rewrite exec_pcall. apply bind_ext. intros start y1. rewrite exec_PCall. apply bind_ext. intros off y2.
  rewrite exec_pcall. apply bind_ext. intros _ y3. destruct off as [off|]; [|done].
  rewrite exec_pcall. by apply bind_ext.
Qed.

Lemma exec_commit_program g t part x : exec (commit_program g t part) x = commit_partition g t part x.
Proof.
  unfold commit_program, commit_partition. rewrite exec_get_partition. apply bind_ext. intros [ps|e] y; [|done].
  rewrite exec_PCall. apply bind_ext. intros [off|e] y1; [|done]. rewrite exec_pcall. by apply bind_ext.
Qed.

Lemma exec_list_offsets_program t part x : exec (list_offsets_program t part) x = list_offsets_partition t part x.
Proof.
  unfold list_offsets_program, list_offsets_partition. destruct (_ =? _); [done|]. destruct (_ =? _); [|done].
  rewrite exec_get_partition. apply bind_ext. intros [ps|e] y; [|done]. rewrite exec_pcall. by apply bind_ext.
Qed.

#[local] Transparent Segment_Read sg_flush.

(** [Read] returns a window on the file of the active segment, after writing
    out what was buffered. *)
Lemma PartitionStore_Read_shares off n ps o w m ps' o' :
  PartitionStore_Read off n (ps, o) = (Ok (w, m), (ps', o')) ->
  sr_file w = sg_file (ps_active ps') /\ sr_n w = m /\ bw_buf (sg_bw (ps_active ps')) = [].
Proof.
  unfold PartitionStore_Read, get_st, mbind, st_bind. cbn [fst snd]. destruct (_ <=? _); [done|].
  set (n' := if _ <? _ then _ else _). unfold on_active, zoom, Segment_Read. destruct (n' <=? 0); [done|].
  unfold get_st, mbind, st_bind. cbn [fst snd]. destruct (_ <=? i64 off); [done|].
  destruct (_ <? i64 (i64 off + n')); [done|]. unfold wrapf, sg_flush, get_st, mbind, st_bind, zoom.
  destruct (bufio_Flush _ _) as [[[]|e|e] [b o1]] eqn:E; [|done..]. unfold mret, st_ret. intros [= <- <- <- <-].
  split_and!; [done..|]. cbn. unfold bufio_Flush in E. destruct (bw_err _); [done|].
  destruct (bw_buf (sg_bw (ps_active ps))) as [|x buf] eqn:Eb; [by injection E as <- _|].
  destruct (file_Write _ _ _) as [[k [e|]] o2]; [done|]. by injection E as <- _.
Qed.

Lemma shared_section_active key off n h o w m h' o' :
  on_store (on_partition key (PartitionStore_Read off n)) (h, o) = (Ok (w, m), (h', o')) ->
  shared_section key w (h', o') = on_os (section_reader w) (h', o').
Proof.
  unfold on_store, zoom, on_partition. destruct (bs_stores (h_store h) !! key) as [ps|]; [|done].
  destruct (PartitionStore_Read off n (ps, o)) as [r [ps' o1]] eqn:E. intros [= -> <- <-].
  unfold shared_section. cbn [h_store set_store bs_stores set_bs_stores]. rewrite lookup_insert_eq.
  apply PartitionStore_Read_shares in E as (E & _). rewrite <- E, decide_True by done. by destruct w.
Qed.

Lemma exec_fetch_program t part rem x : exec (fetch_program t part rem) x = fetch_partition t part rem x.
Proof.
  unfold fetch_program, fetch_partition. rewrite exec_get_partition. apply bind_ext. intros [ps|e] y; [|done].
  rewrite exec_pcall. apply bind_ext. intros hw y1. destruct (_ =? _); [done|]. destruct (_ <? _); [done|].
  cbv zeta. destruct (_ <=? 0); [done|]. rewrite exec_PCall, !try_bind.
  destruct (on_store _ y1) as [[[w n]|e|e] [h o]] eqn:E; [|done..]. destruct (n <? 0); [done|]. rewrite exec_pcall.
  destruct y1 as [h1 o1]. apply shared_section_active in E. unfold mbind, st_bind. rewrite E.
  destruct (on_os (section_reader w) (h, o)) as [[r|e|e] y2]; [|done..].
  destruct (ReadFull n r).1 as [raw|e|e]; [|done..]. destruct (_ <? _); [done|]. cbv zeta. rewrite exec_pcall.
  by apply bind_ext.
Qed.

Lemma exec_fetch_partitions_program t parts rem x :
  exec (fetch_partitions_program t parts rem) x = fetch_partitions t parts rem x.
Proof.
  revert rem x. induction parts as [|part parts IH]; intros rem x; [done|]. cbn [fetch_partitions_program fetch_partitions].
  rewrite exec_pbind. unfold mbind, st_bind. rewrite exec_fetch_program.
  destruct (fetch_partition t part rem x) as [[[p rem1]|e|e] y]; [|done..].
  rewrite exec_pbind. unfold mbind, st_bind. rewrite IH.
  by destruct (fetch_partitions t parts rem1 y) as [[[ps rem2]|e|e] z].
Qed.

Lemma exec_fetch_topics_program topics rem x : exec (fetch_topics_program topics rem) x = fetch_topics topics rem x.
Proof.
  revert rem x. induction topics as [|topic topics IH]; intros rem x; [done|]. cbn [fetch_topics_program fetch_topics].
  rewrite exec_pbind. unfold mbind, st_bind. rewrite exec_fetch_partitions_program.
  destruct (fetch_partitions _ _ rem x) as [[[ps rem1]|e|e] y]; [|done..].
  rewrite exec_pbind. unfold mbind, st_bind. rewrite IH.
  by destruct (fetch_topics topics rem1 y) as [[[ts rem2]|e|e] z].
Qed.

Lemma exec_ret {S R R'} (p : prog S R) (m : st S R) (f : R -> R') s :
  exec p s = m s -> exec (pbind p (fun r => PRet (f r))) s = (r ← m; mret (f r)) s.
Proof. intros E. rewrite exec_pbind. unfold mbind, st_bind. rewrite E. by destruct (m s) as [[]]. Qed.

(** The loop of [handleMetadata] ignores the errors. *)
Lemma exec_create_topics ts x :
  (y ← exec (pmap (fun t => get_partition t 0 (fun _ => PRet tt)) ts); mret tt) x =
  range_st (fun t => _ ← try_st (on_store (GetOrCreatePartition t 0)); mret tt) ts x.
Proof.
  rewrite <- (exec_ret _ _ (fun _ => tt) _ eq_refl). revert x. induction ts as [|t ts IH]; intros x; [done|].
  cbn [pmap range_st]. rewrite exec_pbind. unfold mbind at 1 2, st_bind at 1 2. rewrite exec_pbind.
  unfold mbind at 1, st_bind at 1. rewrite exec_get_partition.
  destruct ((ps ← try_st (on_store (GetOrCreatePartition t 0)); exec (PRet tt)) x) as [[[]|e|e] y] eqn:E;
    unfold mbind, st_bind in E |- *; cbn [exec] in E; rewrite E; [|done..].
  specialize (IH y). rewrite exec_pbind in IH. unfold mbind, st_bind in IH. cbn [exec] in IH.
  rewrite exec_pbind. unfold mbind, st_bind. cbn [exec].
  destruct (exec (pmap _ ts) y) as [[us|e|e] z]; cbn [exec]; unfold mret, st_ret in *; exact IH.
Qed.

(** A goroutine that is not interrupted does what the handler does. *)
Lemma exec_produce_request req x : exec (produce_request_program req) x = produce req x.
Proof. apply exec_ret, exec_pmap. intros topic y. apply exec_ret, exec_pmap. apply exec_produce_program. Qed.

Lemma exec_fetch_request req x : exec (fetch_request_program req) x = fetch req x.
Proof.
  unfold fetch_request_program, fetch. rewrite exec_pbind. unfold mbind, st_bind. rewrite exec_fetch_topics_program.
  by destruct (fetch_topics _ _ x) as [[[ts rem]|e|e] y].
Qed.

Lemma exec_list_offsets_request req x : exec (list_offsets_request_program req) x = list_offsets req x.
Proof. apply exec_ret, exec_pmap. intros topic y. apply exec_ret, exec_pmap. apply exec_list_offsets_program. Qed.

Lemma exec_metadata_request req x : exec (metadata_program req) x = metadata Getenv req x.
Proof.
  unfold metadata_program, metadata. rewrite exec_pbind.
  pose proof (exec_create_topics (mr_Topics req) x) as E. set (loop := range_st _ _) in *. clearbody loop.
  unfold mbind, st_bind in E |- *. rewrite <- E.
  destruct (exec (pmap _ _) x) as [[us|e|e] y]; [|done..]. cbn [mret st_ret]. by rewrite exec_pcall.
Qed.

Lemma exec_commit_request req x : exec (commit_request_program req) x = offset_commit req x.
Proof. apply exec_ret, exec_pmap. intros topic y. apply exec_ret, exec_pmap. apply exec_commit_program. Qed.

Lemma exec_offset_fetch_request req x :
  exec (offset_fetch_program req) x = (cache ← get_st h_offsetCache; mret (offset_fetch req cache)) x.
Proof. unfold offset_fetch_program. by rewrite exec_pcall. Qed.

Lemma exec_request_program rq x : exec (request_program rq) x = serve_request rq x.
Proof.
  destruct rq as [req|req|req|req|req|req]; cbn [request_program serve_request]; unfold pfmap.
  - apply exec_ret, exec_produce_request.
  - apply exec_ret, exec_fetch_request.
  - apply exec_ret, exec_list_offsets_request.
  - apply exec_ret, exec_metadata_request.
  - apply exec_ret, exec_commit_request.
  - rewrite exec_pbind. unfold mbind, st_bind. rewrite exec_offset_fetch_request. by destruct x.
Qed.
End programs.
