(* ===== verification/ConcurrentSpec.v ===== *)
(** * Concurrent requests against the abstract broker

    The abstract broker makes each operation on a partition in one step. A
    request is a short program of such steps: the partition exists from now on,
    the batch is appended, the offset is cached. Every interleaving of the
    code's calls, for any number of concurrent requests, is an interleaving of
    these steps with the same responses. *)

From stdpp Require Import base tactics list numbers gmap strings relations.
From Stdlib Require Import ZArith Lia.
From S2P Require Import Prelude GoIO GoStrings Requests Responses ResponseSpec RecordBatch OSFile.
From S2P Require Import LogIndex LogSegment SegmentSpec LogStore OffsetRecords FetchPatch.
From S2P Require Import BrokerStore BrokerSpec Metrics Handler HandlerSpec CatalogueSpec CommitSpec.
From S2P Require Import AppendOnly Prog Concurrent.
#[local] Open Scope Z_scope.

Lemma touch_known tp A : is_Some (ab_logs A !! tp) -> touch tp A = A.
Proof.
  intros [L HL]. unfold touch, set_ab_log, ab_log, log_of. rewrite HL. simpl. rewrite insert_id by done. by destruct A.
Qed.

Lemma plog_append_total max p L : match (plog_append max p L).1 with Panic _ => False | _ => True end.
Proof. unfold plog_append. cbv zeta. destruct (_ <=? max); [done|]. by destruct (_ <=? max). Qed.

(** ** The steps of the abstract broker *)

Definition a_get {X} (f : abroker -> X) : st abroker X := fun A => (Ok (f A), A).

(** The partition exists from now on. *)
Definition a_touch (tp : tpart) : st abroker unit := fun A => (Ok tt, touch tp A).

Definition a_append (max : Z) (tp : tpart) (p : list byte) : st abroker Z := fun A =>
  let '(r, L) := plog_append max p (ab_log A tp) in (r, set_ab_log tp L A).

Definition a_size (tp : tpart) : st abroker Z := a_get (fun A => zlen (pl_active (ab_log A tp))).

(** The bytes from [off] on, and the segment they are in. *)
Definition a_read (tp : tpart) (off n : Z) : st abroker (list byte * Z * Z) := fun A =>
  (match plog_read off n (ab_log A tp) with
   | Ok (d, m) => Ok (d, m, pl_base (ab_log A tp))
   | Err e => Err e
   | Panic p => Panic p
   end, A).

(** The segment is still the active one. *)
Definition a_current (tp : tpart) (base : Z) : st abroker bool := a_get (fun A => pl_base (ab_log A tp) =? base).

Definition a_cache (k : offsetCacheKey) (off : Z) : st abroker unit := fun A =>
  (Ok tt, ABroker (ab_logs A) (<[k := off]> (ab_offsets A))).

(** ** Requests as steps *)

Definition produce_steps (max : Z) (t : gostring) (part : ProducePartitionData)
  : prog abroker ProducePartitionResponse :=
  let resp off code := Build_ProducePartitionResponse off (ppd_Partition part) code in
  let tp := (t, ppd_Partition part) in
  let batch := ppd_RecordBatch part in
  if (0 <? zlen batch) && negb (is_ok (ValidateRecordBatch batch)) then PRet (resp (-1) ErrCodeCorruptMessage)
  else
    pcall (a_touch tp) (fun _ =>
    PCall (a_append max tp batch) (fun r =>
    PRet (match r with inl off => resp off 0 | inr _ => resp (-1) 1 end))).

(** The high watermark, the bytes and the check that their file is still open
    are three steps: a fetch can lose its file to a roll-over. *)
Definition fetch_steps (t : gostring) (part : FetchPartitionData) (remaining : Z)
  : prog abroker (FetchPartitionResponse * Z) :=
  let tp := (t, fpd_Partition part) in
  let off := fpd_FetchOffset part in
  let resp hw batch size code :=
    {| fpr_RecordBatch := batch; fpr_HighWatermark := hw; fpr_BatchSize := size;
       fpr_Partition := fpd_Partition part; fpr_ErrorCode := code |} in
  let none hw code := PRet (resp hw None (-1) code, remaining) in
  let cap := Z.min remaining (fpd_PartitionMaxBytes part) in
  pcall (a_touch tp) (fun _ =>
  pcall (a_size tp) (fun hw =>
  if off =? hw then none hw ErrCodeNone
  else if hw <? off then none hw ErrCodeOffsetOutOfRange
  else if cap <=? 0 then none hw ErrCodeNone
  else
    PCall (a_read tp off (cap + 4)) (fun r =>
    match r with
    | inr _ => none hw ErrCodeOffsetOutOfRange
    | inl (d, n, base) =>
        pcall (a_current tp base) (fun current =>
        if negb current || (n <? 4) then none hw ErrCodeOffsetOutOfRange
        else
          let payload := patch_payload off (drop 4 d) in
          PRet (resp hw (Some (Rd payload EOF)) (zlen payload) ErrCodeNone, remaining - zlen payload))
    end))).

Definition commit_steps (max : Z) (g t : gostring) (part : OffsetCommitPartition)
  : prog abroker OffsetCommitPartitionResponse :=
  let resp code := {| ocpr_Partition := ocp_Partition part; ocpr_ErrorCode := code |} in
  let k := MkOffsetCacheKey g t (ocp_Partition part) in
  pcall (a_touch offsets_tp) (fun _ =>
  PCall (a_append max offsets_tp (offset_record k (ocp_CommittedOffset part))) (fun r =>
  match r with
  | inr _ => PRet (resp 1)
  | inl _ => pcall (a_cache k (ocp_CommittedOffset part)) (fun _ => PRet (resp 0))
  end)).

Definition list_offsets_steps (t : gostring) (part : ListOffsetsPartitionRequest)
  : prog abroker ListOffsetsPartitionResponse :=
  let resp off := {| lopr_Partition := lop_Partition part; lopr_ErrorCode := 0; lopr_Timestamp := -1;
                     lopr_Offset := off |} in
  let tp := (t, lop_Partition part) in
  if lop_Timestamp part =? TimestampLatest then
    pcall (a_touch tp) (fun _ => pcall (a_size tp) (fun size => PRet (resp size)))
  else PRet (resp 0).

(** Taken together, the steps of a request are its meaning in [HandlerSpec],
    [CommitSpec] and [CatalogueSpec]. *)
Lemma exec_produce_steps max t part A :
  exec (produce_steps max t part) A = (Ok (produce_spec max t part A).1, (produce_spec max t part A).2).
Proof.
  unfold produce_steps, produce_spec. cbv zeta. destruct (_ && _); [done|].
  rewrite exec_pcall. unfold mbind, st_bind, a_touch. rewrite exec_PCall. unfold mbind, st_bind, try_st, a_append.
  rewrite ab_log_touch. pose proof (plog_append_total max (ppd_RecordBatch part) (ab_log A (t, ppd_Partition part))) as Hp.
  destruct (plog_append _ _ _) as [[off|e|e] L]; cbn; rewrite ?set_ab_log_touch; done.
Qed.

Lemma exec_commit_steps max g t part A :
  exec (commit_steps max g t part) A = (Ok (commit_spec max g t part A).1, (commit_spec max g t part A).2).
Proof.
  unfold commit_steps, commit_spec. cbv zeta. rewrite exec_pcall. unfold mbind, st_bind, a_touch.
  rewrite exec_PCall. unfold mbind, st_bind, try_st, a_append. rewrite ab_log_touch.
  set (rec := offset_record _ _). pose proof (plog_append_total max rec (ab_log A offsets_tp)) as Hp.
  destruct (plog_append _ _ _) as [[off|e|e] L]; cbn; by rewrite ?set_ab_log_touch.
Qed.

Lemma exec_list_offsets_steps t part A :
  exec (list_offsets_steps t part) A = (Ok (list_offsets_spec t part A).1, (list_offsets_spec t part A).2).
Proof.
  unfold list_offsets_steps, list_offsets_spec. cbv zeta. destruct (_ =? _); [|done].
  rewrite exec_pcall. unfold mbind, st_bind, a_touch. rewrite exec_pcall. unfold mbind, st_bind, a_size, a_get.
  by rewrite ab_log_touch.
Qed.

Lemma exec_fetch_steps t part rem A :
  0 <= fpd_FetchOffset part ->
  exec (fetch_steps t part rem) A = (Ok (fetch_spec t part rem A), touch (t, fpd_Partition part) A).
Proof.
  destruct part as [off p pmax]. intros Hoff. unfold fetch_steps, fetch_spec.
  cbn [fpd_FetchOffset fpd_Partition fpd_PartitionMaxBytes] in *. cbv zeta.
  rewrite exec_pcall. unfold mbind at 1, st_bind at 1, a_touch. rewrite exec_pcall. unfold mbind at 1, st_bind at 1, a_size, a_get.
  rewrite ab_log_touch. set (log := pl_active (ab_log A (t, p))). set (cap := Z.min rem pmax).
  destruct (Z.eqb_spec off (zlen log)) as [|Hne]; [done|]. destruct (Z.ltb_spec (zlen log) off); [done|].
  destruct (Z.leb_spec cap 0); [done|]. rewrite exec_PCall, try_bind. unfold a_read. rewrite ab_log_touch.
  unfold plog_read. fold log. rewrite (proj2 (Z.leb_gt _ off)) by lia. cbv zeta.
  set (n := Z.min (cap + 4) (zlen log - off)). rewrite (proj2 (Z.leb_gt n 0)) by lia.
  rewrite exec_pcall. unfold mbind, st_bind, a_current, a_get. rewrite ab_log_touch, Z.eqb_refl. cbn [negb orb].
  destruct (n <? 4) eqn:E4; [done|]. apply Z.ltb_ge in E4.
  change 4%nat with (Z.to_nat 4). by rewrite drop_slice by lia.
Qed.

Section concurrent.
Context `{Prometheus} `{!PrometheusOk} `{MapOrder} (Getenv : gostring -> gostring) (max : Z).

Abbreviation shared := (Handler * os)%type.

(** The state of the broker shows [A]: the files of closed segments hold their
    bytes, those of the active segments hold theirs with what is buffered. *)
Definition shows (c : shared) (A : abroker) : Prop := handler_ok max c.1 c.2 A.

(** ** What other goroutines may do *)

(** Partitions stay; their active segment moves on only to later ones, and
    while it is the same its file only grows. *)
Definition part_evolves (x y : PartitionStore * os) : Prop :=
  ps_dir y.1 = ps_dir x.1 /\ ps_nextBase x.1 <= ps_nextBase y.1 /\
  (ps_nextBase y.1 = ps_nextBase x.1 ->
   let file := segment_name (ps_dir x.1) (ps_nextBase x.1) in content file x.2 `prefix_of` content file y.2).

Definition evolves (c c' : shared) : Prop :=
  forall key ps, bs_stores (h_store c.1) !! key = Some ps ->
    exists ps', bs_stores (h_store c'.1) !! key = Some ps' /\ part_evolves (ps, c.2) (ps', c'.2).

Lemma evolves_refl c h' : h_store h' = h_store c.1 -> evolves c (h', c.2).
Proof. intros E key ps Hk. exists ps. cbn. rewrite E. by split_and!. Qed.

(** The part of an abstract broker that only moves on. *)
Definition advances (A A' : abroker) : Prop := forall tp,
  (is_Some (ab_logs A !! tp) -> is_Some (ab_logs A' !! tp)) /\ pl_base (ab_log A tp) <= pl_base (ab_log A' tp).

Lemma handler_part h o A t p ps :
  handler_ok max h o A -> nameable t p -> bs_stores (h_store h) !! partitionKey t p = Some ps ->
  is_Some (ab_logs A !! (t, p)) /\ ps_dir ps = partitionDir (h_store h) t p /\ part_ok ps o (ab_log A (t, p)).
Proof.
  intros [Hb _ _] Hn Hps. pose proof (bk_parts _ _ _ Hb t p Hn) as Hpart. rewrite Hps in Hpart.
  unfold ab_log, log_of. destruct (ab_logs A !! (t, p)) as [L|]; [|done]. destruct Hpart as (? & _ & ?). by eauto.
Qed.

Lemma handler_known h o A t p :
  handler_ok max h o A -> nameable t p ->
  is_Some (bs_stores (h_store h) !! partitionKey t p) <-> is_Some (ab_logs A !! (t, p)).
Proof.
  intros [Hb _ _] Hn. pose proof (bk_parts _ _ _ Hb t p Hn) as Hpart.
  destruct (bs_stores _ !! _), (ab_logs A !! _); try done; split; intros []; eauto; done.
Qed.

Lemma evolves_intro h o A h' o' A' :
  handler_ok max h o A -> handler_ok max h' o' A' -> bs_rootDir (h_store h') = bs_rootDir (h_store h) ->
  advances A A' -> grows o o' -> evolves (h, o) (h', o').
Proof.
  intros Hok Hok' Hroot Hadv Hg key ps Hk. cbn [fst snd] in *.
  destruct (bk_keys _ _ _ (ho_broker _ _ _ _ Hok) key ps Hk) as (t & p & Hn & ->).
  destruct (handler_part _ _ _ _ _ _ Hok Hn Hk) as (Hin & Hd & Hp). destruct (Hadv (t, p)) as [Hin' Hb].
  destruct (proj2 (handler_known _ _ _ _ _ Hok' Hn) (Hin' Hin)) as [ps' Hk'].
  destruct (handler_part _ _ _ _ _ _ Hok' Hn Hk') as (_ & Hd' & Hp').
  exists ps'. split; [done|]. unfold part_evolves. cbn [fst snd].
  destruct (po_base _ _ _ Hp) as [_ ->]. destruct (po_base _ _ _ Hp') as [_ ->].
  split_and!; [|done|intros _; apply Hg]. rewrite Hd, Hd'. unfold partitionDir. by rewrite Hroot.
Qed.

(** ** The code's calls *)

Definition has_key (key : gostring) (c : shared) : Prop := is_Some (bs_stores (h_store c.1) !! key).

Lemma advances_touch tp A : advances A (touch tp A).
Proof.
  intros tp'. rewrite ab_log_touch. split; [|done]. unfold touch, set_ab_log. cbn [ab_logs].
  destruct (decide (tp = tp')) as [->|Hne]; [rewrite lookup_insert_eq|rewrite lookup_insert_ne by done]; eauto.
Qed.

Lemma advances_set tp L A : pl_base (ab_log A tp) <= pl_base L -> advances A (set_ab_log tp L A).
Proof.
  intros Hb tp'. unfold set_ab_log, ab_log in *. cbn [ab_logs]. rewrite log_of_insert.
  destruct (decide (tp = tp')) as [->|Hne]; [rewrite lookup_insert_eq|rewrite lookup_insert_ne by done]; eauto with lia.
Qed.

(** Looking a partition up under the write lock. *)
Lemma step_touch h o A t p :
  handler_ok max h o A -> nameable t p ->
  exists h' o', try_st (on_store (GetOrCreatePartition t p)) (h, o) = (Ok (inl (partitionKey t p)), (h', o')) /\
    handler_ok max h' o' (touch (t, p) A) /\ evolves (h, o) (h', o') /\ has_key (partitionKey t p) (h', o').
Proof.
  intros Hok Hn. pose proof (GetOrCreatePartition_spec _ _ _ t p (ho_broker _ _ _ _ Hok) Hn) as Hs.
  pose proof (GetOrCreatePartition_grows t p (h_store h, o)) as Hg. unfold wp, growing in *.
  unfold try_st, on_store, zoom. destruct (GetOrCreatePartition t p (h_store h, o)) as [r [bs' o']].
  cbn [fst snd] in *. destruct Hs as (-> & Hroot & Hcfg & Hin & Hb). eexists _, _. split; [done|].
  assert (Hok' : handler_ok max (set_store bs' h) o' (touch (t, p) A)).
  { destruct Hok. constructor; simpl; [done|by rewrite Hcfg|done]. }
  split_and!; [done| |done]. eapply evolves_intro; [done..|apply advances_touch|done].
Qed.

(** A call on a partition that exists. *)
Lemma step_log {B} h o A t p (m : stio PartitionStore B) (Q : result B -> plog -> PartitionStore -> os -> Prop) :
  handler_ok max h o A -> nameable t p -> has_key (partitionKey t p) (h, o) -> respects growing m ->
  (forall ps, part_ok ps o (ab_log A (t, p)) -> max_size (ps_cfg ps) = max -> max < 2 ^ 62 ->
     wp m (fun r '(ps', o') => exists L', Q r L' ps' o' /\ pl_base (ab_log A (t, p)) <= pl_base L' /\
             part_ok ps' o' L' /\ ps_dir ps' = ps_dir ps /\ ps_cfg ps' = ps_cfg ps /\ within (ps_dir ps) o o') (ps, o)) ->
  exists r L' h' o' ps', on_store (on_partition (partitionKey t p) m) (h, o) = (r, (h', o')) /\ Q r L' ps' o' /\
    bs_stores (h_store h') !! partitionKey t p = Some ps' /\
    handler_ok max h' o' (set_ab_log (t, p) L' A) /\ evolves (h, o) (h', o').
Proof.
  intros Hok Hn [ps Hps] Hgm Hm. cbn [fst snd] in *.
  destruct (handler_part _ _ _ _ _ _ Hok Hn Hps) as (_ & Hd & Hp). pose proof (ho_broker _ _ _ _ Hok) as Hbk.
  pose proof (bk_parts _ _ _ Hbk t p Hn) as Hpart. rewrite Hps in Hpart.
  assert (Hc : ps_cfg ps = bs_cfg (h_store h)) by (destruct (ab_logs A !! (t, p)); [apply Hpart|done]).
  pose proof (rt_dir _ _ _ (bk_root _ _ _ Hbk)) as [Hr _].
  destruct (partitionDir_parent (h_store h) t p Hn Hr) as (_ & Hcl & Hne & _).
  specialize (Hgm (ps, o)). unfold wp, growing in *.
  specialize (Hm ps Hp). rewrite Hc, (ho_max _ _ _ _ Hok) in Hm. specialize (Hm eq_refl).
  unfold on_store, zoom, on_partition. rewrite Hps. destruct (m (ps, o)) as [r [ps' o']]. cbn [fst snd] in *.
  destruct Hm as (L' & HQ & Hb & Hp' & Hd' & Hc' & Hw); [rewrite <- (ho_max _ _ _ _ Hok); apply Hbk|].
  set (bs' := set_bs_stores _ _). exists r, L', (set_store bs' h), o', ps'. split; [done|]. split; [done|].
  assert (Hok' : handler_ok max (set_store bs' h) o' (set_ab_log (t, p) L' A)).
  { destruct Hok. constructor; simpl; [|done|done]. eapply broker_ok_update; try done; [|congruence..].
    rewrite Hd in Hw. apply within_private; [|done]. rewrite <- Hcl, <- Hd. eapply part_ok_dir; [done|congruence]. }
  split_and!; [by apply lookup_insert_eq|done|].
  eapply evolves_intro; [done..|by apply advances_set|done].
Qed.

(** ** Simulation of the calls *)

Lemma fits_weaken n m A : n <= m -> room m A -> room n A.
Proof. intros. by eapply room_weaken. Qed.

Abbreviation sim := (sim shows evolves room).
Abbreviation stable := (stable evolves).

Lemma has_key_stable key : stable (has_key key).
Proof. intros c c' He [ps Hk]. destruct (He key ps Hk) as (ps' & Hk' & _). by exists ps'. Qed.

Lemma anywhere_stable : stable (fun _ => True).
Proof. done. Qed.

Section sims.
Context {R R' : Type} (agree : R -> R' -> Prop).

Lemma sim_get_partition t p n (k : gostring + goerr -> prog shared R) (q : prog abroker R') :
  nameable t p -> sim agree (has_key (partitionKey t p)) n (k (inl (partitionKey t p))) q ->
  sim agree (fun _ => True) n (get_partition t p k) (pcall (a_touch (t, p)) (fun _ => q)).
Proof.
  intros Hn Hk. pose proof (sim_need _ _ _ _ _ _ _ _ Hk) as Hnn. set (spec := pcall _ _).
  assert (Hmove : forall A, spec_moves room (spec, n, A) (q, n, touch (t, p) A)).
  { intros A. right. exists unit, (a_touch (t, p)). do 2 eexists. exists 0, n. split_and!; try done.
    intros N _ Hr tp. cbn [snd]. rewrite ab_log_touch. by specialize (Hr tp). }
  split; [done|]. intros [h o] A Hok _ Hf. unfold lookup_partition, on_store, zoom, get_st, try_st.
  cbn [fst snd] in *.
  assert (Eh : set_store (h_store h) h = h) by by destruct h. rewrite Eh.
  destruct (bs_stores (h_store h) !! partitionKey t p) as [ps|] eqn:Hps.
  - eexists _, (h, o), q, n, (touch (t, p) A), (has_key (partitionKey t p)). split; [done|].
    split_and!; [apply Hmove| |by apply evolves_refl|apply has_key_stable|by eexists|exact Hk].
    rewrite touch_known; [done|].
    by destruct (handler_part _ _ _ _ _ _ Hok Hn Hps) as (? & _).
  - eexists _, (h, o), spec, n, A, (fun _ => True). split; [done|].
    split_and!; [by left|done|by apply evolves_refl|done|done|].
    split; [done|]. clear dependent h o A. intros [h o] A Hok _ Hf.
    destruct (step_touch h o A t p Hok Hn) as (h' & o' & Et & Hok' & He & Hin).
    eexists _, (h', o'), q, n, (touch (t, p) A), (has_key (partitionKey t p)). split; [exact Et|].
    split_and!; [apply Hmove| |done|apply has_key_stable|done|exact Hk].
    done.
Qed.

(** Calls that change nothing an abstract broker has. *)
Lemma sim_metrics (I : shared -> Prop) n (m : Z -> st Metrics unit) (k : unit -> prog shared R) (q : prog abroker R') :
  (forall now mt, (m now mt).1 = Ok tt) -> stable I ->
  sim agree I n (k tt) q -> sim agree I n (pcall (on_metrics m) k) q.
Proof.
  intros Hm HI Hk. apply sim_quiet; [by eapply sim_need|]. intros [h o] A Hok HIc Hf.
  unfold try_st, on_metrics. cbn [fst snd] in *. specialize (Hm (os_now o) (h_metrics h)).
  destruct (m _ _) as [r mt]. cbn [fst] in Hm. subst r.
  assert (He : evolves (h, o) (set_metrics mt h, o)) by by apply (evolves_refl (h, o)).
  eexists _, _, I. split; [done|]. split_and!; [|done|done|by eapply HI|exact Hk].
  by destruct Hok.
Qed.

Lemma sim_now (I : shared -> Prop) n (k : Z -> prog shared R) (q : prog abroker R') :
  stable I -> 0 <= n -> (forall now, sim agree I n (k now) q) -> sim agree I n (pcall Now k) q.
Proof.
  intros HI Hn Hk. apply sim_quiet; [done|]. intros [h o] A Hok HIc Hf. unfold try_st, Now.
  eexists _, _, I. split; [done|]. split_and!; [done|by apply (evolves_refl (h, o))|done|done|apply Hk].
Qed.

Lemma ab_log_set_ne tp tp' L A : tp <> tp' -> ab_log (set_ab_log tp L A) tp' = ab_log A tp'.
Proof. intros Hne. unfold ab_log, set_ab_log. cbn [ab_logs]. rewrite log_of_insert. by rewrite decide_False. Qed.

Lemma plog_append_end p L : pl_end (plog_append max p L).2 <= pl_end L + zlen (frame p).
Proof.
  pose proof (plog_step_end max (PAppend p) L) as Hs. simpl in Hs. pose proof (zlen_nonneg (frame p)).
  destruct (plog_append max p L). simpl in *. lia.
Qed.

Lemma plog_append_base p L : pl_base L <= pl_base (plog_append max p L).2.
Proof.
  unfold plog_append. cbv zeta. pose proof (plog_roll_base L). pose proof (zlen_nonneg (pl_active L)).
  destruct (_ <=? max); [cbn; lia|]. destruct (_ <=? max); cbn; lia.
Qed.

(** An append, as one step. *)
Lemma sim_append t p batch n (k : Z + goerr -> prog shared R) (g : Z + goerr -> prog abroker R') :
  nameable t p -> zlen batch < 2 ^ 32 -> 0 <= n ->
  (forall r, match r with inl off => 0 <= off < 2 ^ 62 | inr _ => True end ->
     sim agree (has_key (partitionKey t p)) n (k r) (g r)) ->
  sim agree (has_key (partitionKey t p)) (zlen (frame batch) + n)
    (PCall (on_store (on_partition (partitionKey t p) (PartitionStore_Append batch))) k)
    (PCall (a_append max (t, p) batch) g).
Proof.
  intros Hn Hz Hnn Hk. pose proof (zlen_nonneg (frame batch)). apply sim_atomic; [lia|lia|].
  intros [h o] A Hok HI Hf. cbn [fst snd] in *.
  assert (Hlim : pl_end (ab_log A (t, p)) + zlen (frame batch) < 2 ^ 62) by (specialize (Hf (t, p)); lia).
  destruct (step_log h o A t p (PartitionStore_Append batch) (fun r L _ _ =>
    r = (plog_append max batch (ab_log A (t, p))).1 /\ L = (plog_append max batch (ab_log A (t, p))).2))
    as (r & L' & h' & o' & ps' & Em & [-> ->] & Hps' & Hok' & He); [done..|auto with grows| |].
  { intros ps Hps Hm Hmax. unfold pl_end in Hlim.
    eapply wp_mono; [apply (PartitionStore_Append_refines ps o _ batch Hps); lia|].
    rewrite Hm. intros r [ps' o'] (-> & ? & ? & ? & ?). eexists. split_and!; try done. apply plog_append_base. }
  pose proof (plog_append_offset max batch (ab_log A (t, p))) as Hoff.
  pose proof (plog_append_end batch (ab_log A (t, p))) as Hend.
  unfold try_st. rewrite Em. unfold a_append at 1.
  destruct (plog_append max batch (ab_log A (t, p))) as [r L].
  cbn [fst snd] in *. specialize (Hoff r L eq_refl ltac:(lia) (handler_base _ _ _ _ _ _ Hok Hn)).
  assert (Hrest : exists I' : shared -> Prop, shows (h', o') (set_ab_log (t, p) L A) /\
    (forall N, 0 <= N -> room (zlen (frame batch) + N) A -> room N (set_ab_log (t, p) L A)) /\
    stable I' /\ I' (h', o') /\ I' = has_key (partitionKey t p)).
  { eexists. split_and!; [|intros N _ HN tp|apply has_key_stable|by exists ps'|done].
    - done.
    - destruct (decide ((t, p) = tp)) as [<-|Hne].
      + rewrite ab_log_set. specialize (HN (t, p)). lia.
      + rewrite ab_log_set_ne by done. specialize (HN tp). lia. }
  destruct Hrest as (I' & Hsh & Hfit & HsI & HI' & ->).
  destruct r as [off|e|]; [| |done]; eexists _, (h', o'), _, _, _; (split; [done|]); (split; [done|]);
    (split_and!; [done|exact Hfit|done|exact HsI|done|]); apply Hk; naive_solver.
Qed.

Lemma set_ab_log_same tp A : is_Some (ab_logs A !! tp) -> set_ab_log tp (ab_log A tp) A = A.
Proof. apply touch_known. Qed.

(** The size of the active segment. *)
Lemma sim_size t p n (k : Z -> prog shared R) (g : Z -> prog abroker R') :
  nameable t p -> 0 <= n ->
  (forall size, 0 <= size < 2 ^ 62 -> sim agree (has_key (partitionKey t p)) n (k size) (g size)) ->
  sim agree (has_key (partitionKey t p)) n
    (pcall (on_store (on_partition (partitionKey t p) (get_st PartitionStore_Size))) k)
    (pcall (a_size (t, p)) g).
Proof.
  intros Hn Hnn Hk. change n with (0 + n). apply sim_atomic; [done..|].
  intros [h o] A Hok HI Hf. cbn [fst snd] in *.
  destruct (step_log h o A t p (get_st PartitionStore_Size) (fun r L _ _ =>
    r = Ok (zlen (pl_active L)) /\ L = ab_log A (t, p) /\ zlen (pl_active L) < 2 ^ 62))
    as (r & L' & h' & o' & ps' & Em & (-> & -> & Hz) & Hps' & Hok' & He); [done..|auto with grows| |].
  { intros ps Hps _ _. apply wp_get_st. destruct (po_active _ _ _ Hps) as (Hs & _). eexists.
    split_and!; try done; [|apply Hs]. unfold PartitionStore_Size, Segment_Size. by rewrite (so_size _ _ _ Hs). }
  destruct HI as [ps Hps]. destruct (handler_part _ _ _ _ _ _ Hok Hn Hps) as (Hin & _).
  unfold try_st. rewrite Em. unfold a_size, a_get.
  eexists _, (h', o'), _, A, (has_key (partitionKey t p)). split; [done|]. split; [done|].
  split_and!; [|by intros N _|done|apply has_key_stable|by exists ps'|].
  - unfold shows. by rewrite set_ab_log_same in Hok'.
  - apply Hk. pose proof (zlen_nonneg (pl_active (ab_log A (t, p)))). lia.
Qed.

(** ** Reading without the lock *)

(** The window [w] shows [d] for as long as segment [base] is the active one. *)
Definition reads_as (key : gostring) (w : section) (d : list byte) (base : Z) (c : shared) : Prop :=
  exists ps, bs_stores (h_store c.1) !! key = Some ps /\ 0 <= base <= ps_nextBase ps /\
    h_path (sr_file w) = segment_name (ps_dir ps) base /\ 0 <= sr_off w /\ zlen d = sr_n w /\
    (ps_nextBase ps = base ->
      slice (sr_off w) (sr_off w + sr_n w) (content (segment_name (ps_dir ps) base) c.2) = d).

Lemma slice_prefix {B} (lo n : Z) (l l' d : list B) :
  0 <= lo -> slice lo (lo + n) l = d -> zlen d = n -> l `prefix_of` l' -> slice lo (lo + n) l' = d.
Proof.
  intros Hlo Hs Hd [l2 ->]. unfold slice, zlen in *. rewrite <- Hs in Hd |- *.
  rewrite length_take, length_drop in Hd. rewrite drop_app. rewrite take_app_le; [done|]. rewrite length_drop. lia.
Qed.

Lemma reads_as_stable key w d base : stable (reads_as key w d base).
Proof.
  intros c c' He (ps & Hk & Hb & Hp & Ho & Hz & Hd). destruct (He key ps Hk) as (ps' & Hk' & Hdir & Hle & Hgrow).
  cbn [fst snd] in *. exists ps'. rewrite Hdir. split_and!; [done|lia|lia|done..|]. intros E.
  assert (E' : ps_nextBase ps = base) by lia. eapply slice_prefix; [done|by apply Hd|done|].
  rewrite <- E'. apply Hgrow. lia.
Qed.

Lemma section_reader_inv w o d o' :
  section_reader w o = (Ok (Rd d EOF), o') -> h_open (sr_file w) = true /\ 0 <= sr_off w /\
  slice (sr_off w) (sr_off w + sr_n w) (content (h_path (sr_file w)) o) = d.
Proof.
  unfold section_reader. destruct (sys o) as [f o1] eqn:E. apply sys_effect in E as (Hf & _).
  unfold content. rewrite <- Hf. destruct (h_open (sr_file w)); [|done]. simpl.
  destruct (Z.ltb_spec (sr_off w) 0); [done|]. destruct f; [done|]. by intros [= <- <-].
Qed.

(** A read gives a window on the active segment. *)
Lemma sim_read t p off len n (k : section * Z + goerr -> prog shared R) (g : list byte * Z * Z + goerr -> prog abroker R') :
  nameable t p -> 0 <= off < 2 ^ 62 -> sfits 32 len -> 0 <= n ->
  (forall e, sim agree (has_key (partitionKey t p)) n (k (inr e)) (g (inr e))) ->
  (forall w d base, 0 < zlen d <= len ->
     sim agree (reads_as (partitionKey t p) w d base) n (k (inl (w, zlen d))) (g (inl (d, zlen d, base)))) ->
  sim agree (has_key (partitionKey t p)) n
    (PCall (on_store (on_partition (partitionKey t p) (PartitionStore_Read off len))) k)
    (PCall (a_read (t, p) off len) g).
Proof.
  intros Hn Hoff Hlen Hnn Hke Hk. change n with (0 + n). apply sim_atomic; [done..|].
  intros [h o] A Hok HI Hf. cbn [fst snd] in *. set (L0 := ab_log A (t, p)).
  destruct (step_log h o A t p (PartitionStore_Read off len) (fun r L ps' o' => L = L0 /\ part_ok ps' o' L0 /\
    match plog_read off len L with
    | Ok (d, m) => exists w, r = Ok (w, m) /\ section_reader w o' = (Ok (Rd d EOF), o') /\
        sr_file w = sg_file (ps_active ps') /\ sr_n w = m
    | Err e => r = Err e
    | Panic _ => False
    end)) as (r & L' & h' & o' & ps' & Em & (-> & Hp' & Hr) & Hps' & Hok' & He); [done..|auto with grows| |].
  { intros ps Hps _ _. pose proof (PartitionStore_Read_refines ps o _ off len Hps Hoff Hlen) as Hs. unfold wp in *.
    destruct (PartitionStore_Read off len (ps, o)) as [r [ps' o']] eqn:E. cbn [fst snd] in *.
    destruct Hs as (Hr & ? & ? & ? & ?). exists L0. split_and!; try done. fold L0 in Hr.
    destruct (plog_read off len L0) as [[d m]|e|]; [|done..]. destruct Hr as (w & -> & Hw).
    exists w. apply PartitionStore_Read_shares in E as (? & ? & _). by split_and!. }
  destruct HI as [ps Hps]. destruct (handler_part _ _ _ _ _ _ Hok Hn Hps) as (Hin & _).
  assert (Hsh : shows (h', o') A) by (unfold shows; unfold L0 in Hok'; by rewrite set_ab_log_same in Hok').
  unfold try_st. rewrite Em. unfold a_read.
  fold L0. destruct (plog_read off len L0) as [[d m]|e|] eqn:E; [| |done].
  - destruct Hr as (w & -> & Hw & Hfile & Hsn). apply section_reader_inv in Hw as (_ & Ho & Hd).
    assert (Hm : zlen d = m /\ 0 < m <= len).
    { unfold plog_read in E. destruct (Z.leb_spec (zlen (pl_active L0)) off); [done|]. cbv zeta in E.
      destruct (Z.leb_spec (Z.min len (zlen (pl_active L0) - off)) 0); [done|].
      injection E as <- <-. rewrite zlen_slice; lia. }
    destruct Hm as [<- Hpos]. eexists _, (h', o'), _, A, (reads_as (partitionKey t p) w d (pl_base L0)).
    split; [done|]. split; [done|]. split_and!; [done|by intros N _|done|apply reads_as_stable| |by apply Hk].
    exists ps'. pose proof (pf_base _ _ _ _ (po_files _ _ _ Hp')). destruct (po_base _ _ _ Hp') as [_ Hnb].
    rewrite Hfile, (po_seg _ _ _ Hp') in *. cbn [fst snd]. split_and!; try done; lia.
  - subst r. eexists _, (h', o'), _, A, (has_key (partitionKey t p)). split; [done|]. split; [done|].
    split_and!; [done|by intros N _|done|apply has_key_stable|by exists ps'|apply Hke].
Qed.

(** Using the window: its bytes, unless the segment was closed meanwhile. *)
Lemma sim_section t p w d base n (k : reader -> prog shared R) (g : bool -> prog abroker R') :
  nameable t p ->
  sim agree (has_key (partitionKey t p)) n (k (Rd d EOF)) (g true) ->
  sim agree (has_key (partitionKey t p)) n (k (Rd [] ErrFileClosed)) (g false) ->
  sim agree (reads_as (partitionKey t p) w d base) n (pcall (shared_section (partitionKey t p) w) k)
    (pcall (a_current (t, p) base) g).
Proof.
  intros Hn Hk1 Hk2. pose proof (sim_need _ _ _ _ _ _ _ _ Hk1). change n with (0 + n). apply sim_atomic; [done..|].
  intros [h o] A Hok (ps & Hps & Hb & Hw & Ho & Hz & Hd) Hf. cbn [fst snd] in *.
  destruct (handler_part _ _ _ _ _ _ Hok Hn Hps) as (_ & _ & Hp). destruct (po_base _ _ _ Hp) as [_ Hnb].
  destruct (po_active _ _ _ Hp) as (Hs & _ & Hq). pose proof (bo_open _ _ _ _ (so_bw _ _ _ Hs)) as Hopen.
  assert (Hr : shared_section (partitionKey t p) w (h, o) =
    (Ok (if pl_base (ab_log A (t, p)) =? base then Rd d EOF else Rd [] ErrFileClosed), (h, o))).
  { unfold shared_section, on_os, section_reader. rewrite Hps, <- Hnb, sys_no_faults by done.
    cbn [sr_file sr_off sr_n]. rewrite (po_seg _ _ _ Hp), Hw, <- Hnb.
    destruct (Z.eqb_spec (ps_nextBase ps) base) as [E|E].
    - rewrite decide_True by congruence. rewrite Hopen, (po_seg _ _ _ Hp), <- Hnb, E. simpl.
      rewrite (proj2 (Z.ltb_ge _ _)), Hd by done. done.
    - rewrite decide_False; [done|]. intros Eq. apply E. eapply segment_name_inj; [..|exact Eq]; lia. }
  unfold try_st. rewrite Hr. unfold a_current, a_get.
  eexists _, (h, o), _, A, (has_key (partitionKey t p)). split; [done|]. split; [done|].
  split_and!; [done|by intros N _|by apply (evolves_refl (h, o))|apply has_key_stable|by exists ps|].
  by destruct (_ =? base).
Qed.

(** ** The cache and the catalogue *)

Lemma sim_cache_put (I : shared -> Prop) key off n (k : unit -> prog shared R) (g : unit -> prog abroker R') :
  stable I -> sim agree I n (k tt) (g tt) ->
  sim agree I n (pcall (put_st (fun h => set_offsetCache (<[key := off]> (h_offsetCache h)) h)) k)
    (pcall (a_cache key off) g).
Proof.
  intros HI Hk. pose proof (sim_need _ _ _ _ _ _ _ _ Hk). change n with (0 + n). apply sim_atomic; [done..|].
  intros [h o] A Hok HIc Hf. cbn [fst snd] in *. unfold try_st, put_st, a_cache.
  set (h' := set_offsetCache _ h). assert (He : evolves (h, o) (h', o)) by by apply (evolves_refl (h, o)).
  eexists _, (h', o), _, _, I. split; [done|]. split; [done|]. split_and!; [|by intros N _|done|done|by eapply HI|done].
  destruct Hok as [Hb Hm Hc]. cbn [fst snd] in *. constructor; simpl; [done|done|by rewrite Hc].
Qed.

Lemma sim_cache_get n (k : gmap offsetCacheKey Z -> prog shared R) (g : gmap offsetCacheKey Z -> prog abroker R') :
  0 <= n -> (forall cache, sim agree (fun _ => True) n (k cache) (g cache)) ->
  sim agree (fun _ => True) n (pcall (get_st h_offsetCache) k) (pcall (a_get ab_offsets) g).
Proof.
  intros Hn Hk. change n with (0 + n). apply sim_atomic; [done..|].
  intros [h o] A Hok _ Hf. cbn [fst snd] in *. unfold try_st, get_st, a_get.
  pose proof (ho_cache _ _ _ _ Hok) as Hc. cbn [fst snd] in Hc. rewrite Hc.
  eexists _, (h, o), _, A, (fun _ => True). split; [done|]. split; [done|].
  split_and!; [done|by intros N _|by apply (evolves_refl (h, o))|done|done|apply Hk].
Qed.

Definition catalogue (A : abroker) : list tpart := (map_to_list (ab_logs A)).*1.

Lemma sim_topics n (k : list TopicPartition -> prog shared R) (g : list tpart -> prog abroker R') :
  0 <= n ->
  (forall tps l, (fun tp => (tp_Topic tp, tp_Partition tp)) <$> tps ≡ₚ l -> sim agree (fun _ => True) n (k tps) (g l)) ->
  sim agree (fun _ => True) n (pcall (get_st (fun h => Topics (h_store h))) k) (pcall (a_get catalogue) g).
Proof.
  intros Hn Hk. change n with (0 + n). apply sim_atomic; [done..|].
  intros [h o] A Hok _ Hf. cbn [fst snd] in *. unfold try_st, get_st, a_get.
  eexists _, (h, o), _, A, (fun _ => True). split; [done|]. split; [done|].
  split_and!; [done|by intros N _|by apply (evolves_refl (h, o))|done|done|]. apply Hk.
  rewrite (Topics_perm _ _ _ (ho_broker _ _ _ _ Hok)), <- list_fmap_compose.
  unfold catalogue. rewrite (list_fmap_ext _ id); [by rewrite list_fmap_id|]. by intros ? [].
Qed.
End sims.

(** ** Simulation of the requests *)

Abbreviation anywhere := (fun _ : shared => True).

Lemma sim_produce t part :
  wf_produce_part t part ->
  sim eq anywhere (produce_part_bytes part) (produce_program t part) (produce_steps max t part).
Proof.
  destruct part as [batch p]. intros (Hn & Hz & Hc & Hl). unfold produce_program, produce_steps, produce_part_bytes.
  cbn [ppd_RecordBatch ppd_Partition] in *. pose proof (zlen_nonneg (frame batch)) as Hpos.
  pose proof (checked_batch batch Hc) as Hv. destruct (if 0 <? zlen batch then _ else _) as [rc|e|]; [| |done];
    [destruct Hv as [Hrc ->]|rewrite Hv; by apply sim_ret].
  cbv iota zeta. apply sim_get_partition; [done|]. apply sim_now; [apply has_key_stable|lia|]. intros start.
  rewrite <- (Z.add_0_r (zlen (frame batch))). apply sim_append; [done..|]. intros r Hr.
  apply sim_metrics; [intros; by apply on_metric_ok, histogram_Observe_ok|apply has_key_stable|].
  destruct r as [off|e]; [|by apply sim_ret].
  apply sim_metrics; [intros; by apply on_metric_ok, counter_Add_ok|apply has_key_stable|].
  apply sim_ret; [done|]. rewrite i64_id by lia. done.
Qed.

Lemma sim_commit g t part :
  wf_commit_part g t part ->
  sim eq anywhere (commit_part_bytes g t) (commit_program g t part) (commit_steps max g t part).
Proof.
  intros [(Hg & Ht & _) Hoff]. cbn [ck_GroupID ck_Topic ck_Partition] in *. unfold commit_program, commit_steps. cbv zeta.
  set (key := MkOffsetCacheKey _ _ _). set (rec := offset_record key _).
  assert (Hz : zlen rec = 24 + zlen g + zlen t) by (unfold rec; by rewrite zlen_offset_record).
  assert (Hb : commit_part_bytes g t = zlen (frame rec) + 0) by (rewrite zlen_frame; unfold commit_part_bytes; lia).
  apply sim_get_partition; [apply offsets_nameable|]. rewrite Hb. apply sim_append; [apply offsets_nameable|lia|done|].
  intros [off|e] _; [|by apply sim_ret]. apply sim_cache_put; [apply has_key_stable|by apply sim_ret].
Qed.

Lemma sim_list_offsets t part :
  nameable t (lop_Partition part) ->
  sim eq anywhere 0 (list_offsets_program t part) (list_offsets_steps t part).
Proof.
  intros Hn. unfold list_offsets_program, list_offsets_steps. cbv zeta.
  destruct (Z.eqb_spec (lop_Timestamp part) TimestampEarliest) as [->|]; [by apply sim_ret|].
  destruct (lop_Timestamp part =? TimestampLatest); [|by apply sim_ret].
  apply sim_get_partition; [done|]. apply sim_size; [done..|]. intros size _. by apply sim_ret.
Qed.

(** The budget stays in the range of [int32], and the response is one that can be
    written. *)
Definition same_budget {B} (fine : B -> Prop) (x y : B * Z) : Prop := x = y /\ sfits 32 y.2 /\ fine y.1.

Lemma no_batch_consistent hw code p :
  consistent_partition {| fpr_RecordBatch := None; fpr_HighWatermark := hw; fpr_BatchSize := -1;
    fpr_Partition := p; fpr_ErrorCode := code |}.
Proof. unfold consistent_partition. cbn. lia. Qed.

#[local] Hint Resolve no_batch_consistent : core.

Lemma sim_fetch t part rem :
  fetchable t part -> sfits 32 rem ->
  sim (same_budget consistent_partition) anywhere 0 (fetch_program t part rem) (fetch_steps t part rem).
Proof.
  destruct part as [off p pmax]. intros (Hn & Hoff & Hmax & Hl) Hrem. unfold fetch_program, fetch_steps.
  cbn [fpd_FetchOffset fpd_Partition fpd_PartitionMaxBytes] in *. cbv zeta.
  replace (if rem <? pmax then rem else pmax) with (Z.min rem pmax) by (destruct (Z.ltb_spec rem pmax); lia).
  apply sim_get_partition; [done|]. apply sim_size; [done..|]. intros hw Hhw.
  destruct (Z.eqb_spec off hw); [by apply sim_ret|]. destruct (Z.ltb_spec hw off); [by apply sim_ret|].
  set (cap := Z.min rem pmax). assert (Hcap : cap < 2 ^ 31 - 4 /\ cap <= rem) by (unfold cap; lia).
  clearbody cap. destruct (Z.leb_spec cap 0); [by apply sim_ret|].
  assert (Hcap4 : i32 (cap + recHdr) = cap + 4) by (unfold i32, recHdr; rewrite swrap_id; [lia|lia|fits]).
  assert (Hoff' : u64 off = off) by (apply uwrap_id; fits). rewrite Hcap4, Hoff'.
  apply sim_read; [done|lia|fits|done|intros e; by apply sim_ret|]. intros w d base Hd.
  rewrite (proj2 (Z.ltb_ge (zlen d) 0)) by lia. apply sim_section; [done| |].
  - rewrite ReadFull_all. cbn [fst negb orb]. change recHdr with 4. destruct (Z.ltb_spec (zlen d) 4); [by apply sim_ret|].
    change (drop (Z.to_nat 4) d) with (drop 4 d). set (payload := patch_payload off (drop 4 d)).
    assert (Hp : zlen payload = zlen d - 4).
    { unfold payload, patch_payload. rewrite zlen_patch_loop by lia. unfold zlen in *. rewrite length_drop. lia. }
    apply sim_metrics; [intros; apply on_metric_ok, counter_Add_ok; [done|lia]|apply has_key_stable|].
    assert (E1 : i32 (zlen payload) = zlen payload) by (unfold i32; rewrite swrap_id; [done|lia|fits]).
    assert (E2 : i32 (rem - zlen payload) = rem - zlen payload) by (unfold i32; rewrite swrap_id; [done|lia|fits]).
    rewrite E1, E2. apply sim_ret; [done|]. split_and!; [done|cbn [snd]; fits|]. intros _. by eexists.
  - assert (E : exists e, (ReadFull (zlen d) (Rd [] ErrFileClosed)).1 = Err e).
    { unfold ReadFull. cbn [rd_data]. rewrite zlen_nil, (proj2 (Z.leb_gt _ _)) by lia. by eexists. }
    destruct E as [e ->]. by apply sim_ret.
Qed.

(** ** Whole requests *)

Definition produce_request_steps (req : ProduceRequest) : prog abroker ProduceResponse :=
  pbind (pmap (fun topic =>
    pbind (pmap (produce_steps max (ptd_TopicName topic)) (ptd_Partitions topic)) (fun ps =>
    PRet {| ptr_TopicName := ptd_TopicName topic; ptr_Partitions := ps |})) (pr_Topics req)) (fun ts =>
  PRet {| prs_Topics := ts |}).

Fixpoint fetch_partitions_steps (t : gostring) (parts : list FetchPartitionData) (rem : Z)
  : prog abroker (list FetchPartitionResponse * Z) :=
  match parts with
  | [] => PRet ([], rem)
  | part :: parts =>
      pbind (fetch_steps t part rem) (fun '(p, rem) =>
      pbind (fetch_partitions_steps t parts rem) (fun '(ps, rem) => PRet (p :: ps, rem)))
  end.

Fixpoint fetch_topics_steps (topics : list FetchTopicData) (rem : Z) : prog abroker (list FetchTopicResponse * Z) :=
  match topics with
  | [] => PRet ([], rem)
  | topic :: topics =>
      pbind (fetch_partitions_steps (ftd_TopicName topic) (ftd_Partitions topic) rem) (fun '(ps, rem) =>
      pbind (fetch_topics_steps topics rem) (fun '(ts, rem) =>
      PRet ({| ftr_TopicName := ftd_TopicName topic; ftr_Partitions := ps |} :: ts, rem)))
  end.

Definition fetch_request_steps (req : FetchRequest) : prog abroker FetchResponse :=
  pbind (fetch_topics_steps (fr_Topics req) (fr_MaxBytes req)) (fun '(topics, _) =>
  PRet {| frs_Topics := topics; frs_ThrottleTimeMs := 0 |}).

Definition commit_request_steps (req : OffsetCommitRequest) : prog abroker OffsetCommitResponse :=
  pbind (pmap (fun topic =>
    pbind (pmap (commit_steps max (oc_GroupID req) (oct_TopicName topic)) (oct_Partitions topic)) (fun ps =>
    PRet {| octr_TopicName := oct_TopicName topic; octr_Partitions := ps |})) (oc_Topics req)) (fun ts =>
  PRet {| ocr_Topics := ts |}).

Definition list_offsets_request_steps (req : ListOffsetsRequest) : prog abroker ListOffsetsResponse :=
  pbind (pmap (fun topic =>
    pbind (pmap (list_offsets_steps (lot_TopicName topic)) (lot_Partitions topic)) (fun ps =>
    PRet {| lotr_TopicName := lot_TopicName topic; lotr_Partitions := ps |})) (lo_Topics req)) (fun ts =>
  PRet {| lor_Topics := ts |}).

Definition metadata_steps (req : MetadataRequest) : prog abroker (list tpart) :=
  pbind (pmap (fun t => pcall (a_touch (t, 0)) (fun _ => PRet tt)) (mr_Topics req)) (fun _ =>
  pcall (a_get catalogue) (fun tps => PRet tps)).

(** What the abstract broker answers: a response, or for metadata the
    partitions to list, in any order. *)
Inductive answer :=
  | Answer (resp : response)
  | Catalogue (tps : list tpart).

Definition request_steps (rq : request) : prog abroker answer :=
  match rq with
  | RqProduce req => pfmap (Answer ∘ RsProduce) (produce_request_steps req)
  | RqFetch req => pfmap (Answer ∘ RsFetch) (fetch_request_steps req)
  | RqListOffsets req => pfmap (Answer ∘ RsListOffsets) (list_offsets_request_steps req)
  | RqMetadata req => pfmap Catalogue (metadata_steps req)
  | RqOffsetCommit req => pfmap (Answer ∘ RsOffsetCommit) (commit_request_steps req)
  | RqOffsetFetch req =>
      pfmap (Answer ∘ RsOffsetFetch) (pcall (a_get ab_offsets) (fun cache => PRet (offset_fetch req cache)))
  end.

(** Every partition once, each topic under one entry. *)
Definition lists (m : MetadataResponse) (tps : list tpart) : Prop :=
  listed m ≡ₚ tps /\ NoDup (tm_Name <$> mrs_Topics m).

Definition answers (resp : response) (a : answer) : Prop :=
  match a with
  | Answer resp' => resp = resp'
  | Catalogue tps => exists m, resp = RsMetadata m /\ lists m tps
  end.

Definition wf_request (rq : request) : Prop :=
  match rq with
  | RqProduce req => wf_produce_request req
  | RqFetch req => wf_fetch_request req
  | RqListOffsets req =>
      Forall (fun topic => Forall (fun part => nameable (lot_TopicName topic) (lop_Partition part)) (lot_Partitions topic))
        (lo_Topics req)
  | RqMetadata req => Forall (fun t => nameable t 0) (mr_Topics req)
  | RqOffsetCommit req => wf_commit_request req
  | RqOffsetFetch _ => True
  end.

(** How many bytes a request can add to the logs. *)
Definition request_bytes (rq : request) : Z :=
  match rq with
  | RqProduce req => produce_bytes req
  | RqOffsetCommit req => commit_bytes req
  | _ => 0
  end.

Lemma Forall2_eq {X} (l l' : list X) : Forall2 eq l l' -> l = l'.
Proof. by intros ?%list_eq_Forall2. Qed.

(** Wrapping the result of a program. *)
Lemma sim_wrap {B B' D D'} (agree : B -> B' -> Prop) (agree' : D -> D' -> Prop) I n p q (f : B -> D) (f' : B' -> D') :
  sim agree I n p q -> (forall r r', agree r r' -> agree' (f r) (f' r')) ->
  sim agree' I n (pbind p (fun r => PRet (f r))) (pbind q (fun r => PRet (f' r))).
Proof.
  intros Hs Hf. rewrite <- (Z.add_0_r n). eapply sim_bind; [apply fits_weaken|exact Hs|done|].
  intros r r' Ha. apply sim_ret; [done|by apply Hf].
Qed.

(** A loop over partitions or topics, with its results in a structure. *)
Lemma sim_loop {X B D} (body : X -> prog shared B) (spec : X -> prog abroker B) (need : X -> Z) (wf : X -> Prop) xs
    (f : list B -> D) :
  (forall x, wf x -> sim eq anywhere (need x) (body x) (spec x)) -> Forall wf xs ->
  sim eq anywhere (total need xs) (pbind (pmap body xs) (fun rs => PRet (f rs))) (pbind (pmap spec xs) (fun rs => PRet (f rs))).
Proof.
  intros Hb Hwf. apply (sim_wrap (Forall2 eq)); [|intros rs rs' ->%Forall2_eq; done].
  apply (sim_pmap _ _ _ fits_weaken eq body spec need). eapply Forall_impl; [exact Hwf|done].
Qed.

Lemma sim_fetch_partitions t parts rem :
  Forall (fetchable t) parts -> sfits 32 rem ->
  sim (same_budget (Forall consistent_partition)) anywhere 0 (fetch_partitions_program t parts rem) (fetch_partitions_steps t parts rem).
Proof.
  intros Hp. revert rem. induction Hp as [|part parts Hpart _ IH]; intros rem Hrem; [by apply sim_ret|].
  cbn [fetch_partitions_program fetch_partitions_steps]. change 0 with (0 + 0) at 1.
  eapply sim_bind; [apply fits_weaken|by apply sim_fetch|done|]. intros [x rem1] [? ?] ([= <- <-] & Hrem1 & Hx).
  change 0 with (0 + 0) at 1. eapply sim_bind; [apply fits_weaken|by apply IH|done|].
  intros [ps rem2] [? ?] ([= <- <-] & Hrem2 & Hps). apply sim_ret; [done|]. split_and!; [done..|by constructor].
Qed.

Lemma sim_fetch_topics topics rem :
  Forall (fun topic => Forall (fetchable (ftd_TopicName topic)) (ftd_Partitions topic)) topics -> sfits 32 rem ->
  sim (same_budget (Forall (fun t => Forall consistent_partition (ftr_Partitions t)))) anywhere 0
    (fetch_topics_program topics rem) (fetch_topics_steps topics rem).
Proof.
  intros Hp. revert rem. induction Hp as [|topic topics Ht _ IH]; intros rem Hrem; [by apply sim_ret|].
  cbn [fetch_topics_program fetch_topics_steps]. change 0 with (0 + 0) at 1.
  eapply sim_bind; [apply fits_weaken|by apply sim_fetch_partitions|done|]. intros [x rem1] [? ?] ([= <- <-] & Hrem1 & Hx).
  change 0 with (0 + 0) at 1. eapply sim_bind; [apply fits_weaken|by apply IH|done|].
  intros [ps rem2] [? ?] ([= <- <-] & Hrem2 & Hps). apply sim_ret; [done|]. split_and!; [done..|by constructor].
Qed.

Lemma total_zero {X} (xs : list X) : total (fun _ => 0) xs = 0.
Proof. unfold total. induction xs as [|x xs IH]; cbn [foldr]; lia. Qed.

Lemma sim_metadata req :
  Forall (fun t => nameable t 0) (mr_Topics req) ->
  sim lists anywhere 0 (metadata_program Getenv req) (metadata_steps req).
Proof.
  intros Hts. unfold metadata_program, metadata_steps. rewrite <- (Z.add_0_r 0).
  eapply (sim_bind _ _ _ fits_weaken (Forall2 eq)); [|done|].
  - eapply sim_weaken; [apply fits_weaken|apply (sim_pmap _ _ _ fits_weaken eq _ _ (fun _ => 0))|done|].
    + eapply Forall_impl; [exact Hts|]. intros t Ht. apply sim_get_partition; [done|by apply sim_ret].
    + change (total (fun _ => 0) (mr_Topics req) <= 0). by rewrite total_zero.
  - intros _ _ _. apply sim_topics; [done|]. intros tps l Hl. apply sim_ret; [done|].
    pose proof (map_range_perm (group_by_topic tps)) as Hp. split.
    + unfold listed. cbn [mrs_Topics]. by rewrite listed_groups, Hp, flatten_group_by_topic.
    + cbn [mrs_Topics]. set (gs := map_range _) in *.
      assert (E : tm_Name <$> ((fun '(t, ps) => topic_metadata t ps) <$> gs) = gs.*1).
      { rewrite <- list_fmap_compose. apply list_fmap_ext. by intros ? []. }
      rewrite E, Hp. apply NoDup_fst_map_to_list.
Qed.

Lemma sim_produce_request req :
  wf_produce_request req ->
  sim eq anywhere (produce_bytes req) (produce_request_program req) (produce_request_steps req).
Proof.
  intros Hwf. refine (sim_loop _ _ _ _ _ _ _ Hwf). intros topic Ht.
  refine (sim_loop _ _ _ _ _ _ _ Ht). intros part. apply sim_produce.
Qed.

Lemma sim_fetch_request req :
  wf_fetch_request req ->
  sim (fun r r' => r = r' /\ consistent r) anywhere 0 (fetch_request_program req) (fetch_request_steps req).
Proof.
  intros [Hm Hts]. rewrite <- (Z.add_0_r 0). eapply sim_bind; [apply fits_weaken|by apply sim_fetch_topics|done|].
  intros [ts rem] [? ?] ([= <- <-] & _ & Hc). by apply sim_ret.
Qed.

Lemma sim_list_offsets_request req :
  Forall (fun topic => Forall (fun part => nameable (lot_TopicName topic) (lop_Partition part)) (lot_Partitions topic))
    (lo_Topics req) ->
  sim eq anywhere 0 (list_offsets_request_program req) (list_offsets_request_steps req).
Proof.
  intros Hwf. rewrite <- (total_zero (lo_Topics req)).
  refine (sim_loop _ _ _ _ _ _ _ Hwf). intros topic Ht. rewrite <- (total_zero (lot_Partitions topic)).
  refine (sim_loop _ _ _ _ _ _ _ Ht). intros part. apply sim_list_offsets.
Qed.

Lemma sim_commit_request req :
  wf_commit_request req ->
  sim eq anywhere (commit_bytes req) (commit_request_program req) (commit_request_steps req).
Proof.
  intros Hwf. refine (sim_loop _ _ _ _ _ _ _ Hwf). intros topic Ht.
  refine (sim_loop _ _ _ _ _ _ _ Ht). intros part. apply sim_commit.
Qed.

Lemma sim_offset_fetch_request req :
  sim eq anywhere 0 (offset_fetch_program req)
    (pcall (a_get ab_offsets) (fun cache => PRet (offset_fetch req cache))).
Proof. apply sim_cache_get; [done|]. intros cache. by apply sim_ret. Qed.

Lemma sim_request rq :
  wf_request rq -> sim answers anywhere (request_bytes rq) (request_program Getenv rq) (request_steps rq).
Proof.
  destruct rq as [req|req|req|req|req|req]; intros Hwf;
    cbn [request_program request_steps request_bytes wf_request] in *; unfold pfmap.
  - apply (sim_wrap eq); [by apply sim_produce_request|by intros ? ? ->].
  - eapply sim_wrap; [by apply sim_fetch_request|by intros ? ? [-> _]].
  - apply (sim_wrap eq); [by apply sim_list_offsets_request|by intros ? ? ->].
  - apply (sim_wrap lists); [by apply sim_metadata|]. intros m tps Hl. by exists m.
  - apply (sim_wrap eq); [by apply sim_commit_request|by intros ? ? ->].
  - apply (sim_wrap eq); [by apply sim_offset_fetch_request|by intros ? ? ->].
Qed.

(** ** The pool of requests *)

Lemma requests_pool h o A rqs :
  handler_ok max h o A -> Forall wf_request rqs -> room (total request_bytes rqs) A ->
  pool_sim shows evolves room answers (request_program Getenv <$> rqs, (h, o)) (request_steps <$> rqs, A).
Proof.
  intros Hok Hwf Hroom. exists ((fun rq => (request_steps rq, request_bytes rq)) <$> rqs). cbn [fst snd]. split_and!.
  - rewrite <- list_fmap_compose. by apply list_fmap_ext.
  - clear Hroom. induction Hwf as [|rq rqs Hrq _ IH]; [constructor|]. rewrite !fmap_cons. constructor; [|exact IH].
    exists anywhere. split_and!; [done|done|by apply sim_request].
  - done.
  - unfold needs. rewrite foldr_fmap. exact Hroom.
Qed.

(** Concurrent requests. Any number of produce, fetch, list-offsets, metadata, offset-commit and offset-fetch
    requests run at the same time, their calls interleaved in any way. At every moment the broker is in a state, and
    the finished requests have responses, that the abstract broker reaches by interleaving its own steps. *)
Theorem concurrent_requests_refine h o A rqs ts c' :
  handler_ok max h o A -> Forall wf_request rqs -> room (total request_bytes rqs) A ->
  rtc psteps (request_program Getenv <$> rqs, (h, o)) (ts, c') ->
  exists us A', rtc psteps (request_steps <$> rqs, A) (us, A') /\ shows c' A' /\
    forall i resp, ts !! i = Some (PRet resp) -> exists a, us !! i = Some (PRet a) /\ answers resp a.
Proof.
  intros Hok Hwf Hroom Hrun. pose proof (requests_pool h o A rqs Hok Hwf Hroom) as Hpool.
  destruct (pool_simulation _ _ _ _ fits_weaken _ _ _ Hpool Hrun) as ([us A'] & Hr & Hs).
  exists us, A'. split_and!; [done| |]; [by destruct Hs as (? & _ & _ & ? & _)|].
  intros i resp Hi. by eapply pool_results.
Qed.

(** Concurrent requests finish, whatever the scheduler does: there is no infinite run, no request panics or gets
    stuck, and where no request can take a step every one of them has its response. *)
Theorem concurrent_requests_finish h o A rqs ts c' :
  handler_ok max h o A -> Forall wf_request rqs -> room (total request_bytes rqs) A ->
  rtc psteps (request_program Getenv <$> rqs, (h, o)) (ts, c') ->
  sn psteps (ts, c') /\ Forall (fun p => panicked p = false) ts /\
  (nf psteps (ts, c') -> Forall (fun p => exists resp, p = PRet resp) ts).
Proof.
  intros Hok Hwf Hroom Hrun. pose proof (requests_pool h o A rqs Hok Hwf Hroom) as Hpool.
  destruct (pool_simulation _ _ _ _ fits_weaken _ _ _ Hpool Hrun) as (y & _ & Hs).
  split_and!; [apply pools_terminate| |].
  - destruct Hs as (qs & _ & F & _). by eapply threads_running.
  - by eapply pool_progress, Hs; apply fits_weaken.
Qed.
End concurrent.

(** ** Instances *)

Definition sample_requests : list request :=
  [RqProduce sample_produce_req; RqFetch sample_fetch_req;
   RqOffsetFetch (ask_offset (gos "group") (gos "sensors") 0)].

(** The producer and the consumer create the partition at the same time; the
    consumer then reads what the producer has just appended. *)
Definition sample_schedule : list nat := [0; 1; 1; 0; 0; 0; 2; 0; 0; 1; 1; 1; 1; 1; 1; 1]%nat.

Definition no_env : gostring -> gostring := fun _ => [].

Definition sample_run : list (prog (Handler * os) response) * (Handler * os) :=
  default ([], sample_handler)
    (prun sample_schedule (request_program (H0 := insertion_order) no_env <$> sample_requests, sample_handler)).

Lemma sample_run_reached :
  rtc psteps (request_program (H0 := insertion_order) no_env <$> sample_requests, sample_handler) sample_run.
Proof.
  apply (prun_reaches sample_schedule). unfold sample_run.
  assert (E : is_Some (prun sample_schedule
    (request_program (H0 := insertion_order) no_env <$> sample_requests, sample_handler))).
  { apply (bool_decide_unpack _). vm_compute. exact I. }
  destruct E as [x E]. rewrite E. done.
Qed.

Lemma sample_requests_wf : Forall wf_request sample_requests.
Proof.
  apply Forall_cons_2; [exact sample_produce_req_wf|]. apply Forall_cons_2; [|by apply Forall_singleton].
  split; [concrete|]. apply Forall_singleton. apply Forall_cons_2; [|apply Forall_singleton];
    (split; [concrete|]); (split; [concrete|]); (split; [concrete|exact I]).
Qed.

Lemma concurrent_requests_refine_witness :
  exists us A', rtc psteps (request_steps 1000 <$> sample_requests, ABroker ∅ ∅) (us, A') /\
    shows 1000 sample_run.2 A' /\
    forall i resp, sample_run.1 !! i = Some (PRet resp) -> exists a, us !! i = Some (PRet a) /\ answers resp a.
Proof.
  apply (concurrent_requests_refine (H1 := insertion_order) no_env 1000 sample_handler.1 sample_handler.2 (ABroker ∅ ∅)
    sample_requests sample_run.1 sample_run.2).
  - exact sample_handler_ok.
  - exact sample_requests_wf.
  - apply sample_room. vm_compute. reflexivity.
  - rewrite <- !surjective_pairing. exact sample_run_reached.
Defined.

Lemma concurrent_requests_finish_witness :
  sn psteps (sample_run.1, sample_run.2) /\ Forall (fun p => panicked p = false) sample_run.1 /\
  (nf psteps (sample_run.1, sample_run.2) -> Forall (fun p => exists resp, p = PRet resp) sample_run.1).
Proof.
  apply (concurrent_requests_finish (H1 := insertion_order) no_env 1000 sample_handler.1 sample_handler.2 (ABroker ∅ ∅)
    sample_requests sample_run.1 sample_run.2).
  - exact sample_handler_ok.
  - exact sample_requests_wf.
  - apply sample_room. vm_compute. reflexivity.
  - rewrite <- !surjective_pairing. exact sample_run_reached.
Defined.

(** ** A fetch that loses its file *)

(** A broker whose segments hold one batch, with one stored. *)
Definition tight_handler : Handler * os :=
  let h := match OpenBrokerStore (gos "/d") (MkSegmentConfig (zlen (frame sample_batch)) 0) sample_os with
           | (Ok bs, o) => (NewHandler bs New, o)
           | (_, o) => (NewHandler (MkBrokerStore [] sample_hcfg ∅) New, o)
           end in
  (produce_partition (gos "t") {| ppd_RecordBatch := sample_batch; ppd_Partition := 0 |} h).2.

Definition first_record : FetchPartitionData :=
  {| fpd_FetchOffset := 0; fpd_Partition := 0; fpd_PartitionMaxBytes := 500 |}.

(** The fetch of the first record and, with it, a produce. *)
Definition reader_and_writer : list (prog (Handler * os) (FetchPartitionResponse + ProducePartitionResponse)) :=
  [pfmap (fun r => inl r.1) (fetch_program (gos "t") first_record 1000);
   pfmap inr (produce_program (gos "t") {| ppd_RecordBatch := sample_batch; ppd_Partition := 0 |})].

(** What the fetch answers under a schedule. *)
Definition fetched (schedule : list nat) : option FetchPartitionResponse :=
  match prun schedule (reader_and_writer, tight_handler) with
  | Some (PRet (inl r) :: _, _) => Some r
  | _ => None
  end.

(** A produce that comes between [Read] and the copy of its bytes, and for which
    the segment is full, closes the file that the fetch is about to read: the
    fetch of a stored record, below the high watermark it reports itself, is
    answered with an out-of-range error. A moment earlier it would have been
    served. *)
Theorem rollover_closes_reader :
  (exists r, fetched [0; 0; 0; 1; 1; 1; 1; 1; 0]%nat = Some r /\ fpr_ErrorCode r = ErrCodeOffsetOutOfRange /\
     fpr_HighWatermark r = zlen (frame sample_batch)) /\
  (exists r, fetched [0; 0; 0; 0; 0; 1; 1; 1; 1; 1]%nat = Some r /\ fpr_ErrorCode r = ErrCodeNone /\
     fpr_BatchSize r = zlen sample_batch).
Proof. split; eexists; (split; [vm_compute; reflexivity|]); split; vm_compute; reflexivity. Qed.
