(* ===== verification/Acknowledged.v ===== *)
(** * What concurrent producers are told

    Acknowledgements under concurrency: when a producer or a committer has
    been told that its record is stored, the record is in the log, and stays
    there whatever the other requests do. The argument is made on the abstract
    steps: every step only extends the logs, and what a request was told is a
    fact that extending the logs preserves. *)

From stdpp Require Import base tactics list numbers gmap strings relations.
From Stdlib Require Import ZArith Lia.
From S2P Require Import Prelude GoIO GoStrings Requests Responses RecordBatch OSFile.
From S2P Require Import LogIndex LogSegment SegmentSpec LogStore OffsetRecords FetchPatch.
From S2P Require Import BrokerStore BrokerSpec Metrics Handler HandlerSpec CatalogueSpec CommitSpec.
From S2P Require Import Prog Concurrent ConcurrentSpec.
#[local] Open Scope Z_scope.

(** ** Records in a log *)

Definition record_at (off : Z) (p seg : list byte) : Prop :=
  exists pre post, seg = pre ++ frame p ++ post /\ off = zlen pre.

(** The record [p] is in the segment that starts at [base], at [off]. *)
Definition stored_at (base off : Z) (p : list byte) (L : plog) : Prop :=
  (pl_base L = base /\ record_at off p (pl_active L)) \/
  (exists seg, (base, seg) ∈ pl_closed L /\ record_at off p seg).

(** Every record stays where it is. *)
Definition keeps (L L' : plog) : Prop := forall base off p, stored_at base off p L -> stored_at base off p L'.

#[global] Instance keeps_preorder : PreOrder keeps.
Proof. split; [by intros L b o p|]. intros L1 L2 L3 H1 H2 b o p ?. by apply H2, H1. Qed.

Lemma record_at_app off p seg more : record_at off p seg -> record_at off p (seg ++ more).
Proof. intros (pre & post & -> & ->). exists pre, (post ++ more). by rewrite <- !app_assoc. Qed.

Lemma keeps_roll L : keeps L (plog_roll L).
Proof.
  unfold plog_roll. destruct (Z.eqb_spec (zlen (pl_active L)) 0) as [|Hz]; [done|]. intros base off p [[Hb Hr]|(seg & Hin & Hr)].
  - right. exists (pl_active L). cbn. split; [|done]. apply elem_of_app. right. rewrite <- Hb. set_solver.
  - right. exists seg. cbn. split; [|done]. apply elem_of_app. by left.
Qed.

Lemma keeps_append_active L more : keeps L (PLog (pl_closed L) (pl_base L) (pl_active L ++ more)).
Proof. intros base off p [[Hb Hr]|Hc]; [left|by right]. split; [done|by apply record_at_app]. Qed.

Lemma keeps_append max p L : keeps L (plog_append max p L).2.
Proof.
  unfold plog_append. cbv zeta. destruct (_ <=? max); [apply keeps_append_active|].
  etrans; [apply keeps_roll|]. destruct (_ <=? max); [|done]. cbn [snd].
  pose proof (keeps_append_active (plog_roll L) (frame p)) as Hk. by rewrite plog_roll_active in Hk.
Qed.

(** The append's own record. *)
Lemma append_stored max p L off L' :
  plog_append max p L = (Ok off, L') -> stored_at (pl_base L') off p L'.
Proof.
  intros E. left. split; [done|]. apply plog_append_last in E as (log & -> & ->).
  exists log, []. by rewrite app_nil_r.
Qed.

(** ** What every step preserves *)

Definition logs_kept (A A' : abroker) : Prop := forall tp, keeps (ab_log A tp) (ab_log A' tp).

#[global] Instance logs_kept_preorder : PreOrder logs_kept.
Proof. split; [by intros A tp|]. intros A1 A2 A3 H1 H2 tp. etrans; [apply H1|apply H2]. Qed.

Lemma rtc_kept A A' : rtc logs_kept A A' -> logs_kept A A'.
Proof. induction 1; [done|by etrans]. Qed.

Lemma logs_kept_touch tp A : logs_kept A (touch tp A).
Proof. intros tp'. by rewrite ab_log_touch. Qed.

Lemma logs_kept_set tp L A : keeps (ab_log A tp) L -> logs_kept A (set_ab_log tp L A).
Proof.
  intros Hk tp'. destruct (decide (tp = tp')) as [<-|Hne]; [by rewrite ab_log_set|by rewrite ab_log_set_ne].
Qed.

Abbreviation safe := (safe logs_kept).
Abbreviation kept := (kept logs_kept).

Lemma kept_anywhere : kept (fun _ => True).
Proof. done. Qed.

Section steps.
Context {R : Type} (post : R -> abroker -> Prop).

Lemma safe_touch tp k : safe post (fun _ => True) (k tt) -> safe post (fun _ => True) (pcall (a_touch tp) k).
Proof. intros Hk A _. split; [apply logs_kept_touch|]. cbn. by exists (fun _ => True). Qed.

Lemma safe_get {X} (f : abroker -> X) k :
  (forall x, safe post (fun _ => True) (k x)) -> safe post (fun _ => True) (pcall (a_get f) k).
Proof. intros Hk A _. split; [done|]. cbn. exists (fun _ => True). by split_and!. Qed.

Lemma safe_read tp off n (k : list byte * Z * Z + goerr -> prog abroker R) :
  (forall r, safe post (fun _ => True) (k r)) -> safe post (fun _ => True) (PCall (a_read tp off n) k).
Proof.
  intros Hk A _. unfold try_st, a_read. destruct (plog_read off n _) as [[d m]|e|e]; cbn; (split; [done|]);
    [|by exists (fun _ => True)|done]. exists (fun _ => True). by split_and!.
Qed.

Lemma safe_cache key off k (I : abroker -> Prop) :
  kept I -> (forall A, I A -> I (a_cache key off A).2) -> safe post I (k tt) -> safe post I (pcall (a_cache key off) k).
Proof. intros HI Hc Hk A HA. split; [by intros tp|]. cbn. exists I. split_and!; [done|by apply (Hc A)|done]. Qed.

(** After an append the record is known to be stored. *)
Lemma safe_append max tp p (k : Z + goerr -> prog abroker R) :
  (forall base off, safe post (fun A => stored_at base off p (ab_log A tp)) (k (inl off))) ->
  (forall e, safe post (fun _ => True) (k (inr e))) ->
  safe post (fun _ => True) (PCall (a_append max tp p) k).
Proof.
  intros Hok Herr A _. unfold try_st, a_append. pose proof (keeps_append max p (ab_log A tp)) as Hk.
  pose proof (append_stored max p (ab_log A tp)) as Hs.
  destruct (plog_append max p (ab_log A tp)) as [r L]. apply logs_kept_set in Hk. cbn [snd] in Hk.
  destruct r as [off|e|e]; (split; [done|]); cbn; [|exists (fun _ => True); by split_and!|done].
  exists (fun A => stored_at (pl_base L) off p (ab_log A tp)). split_and!; [|by rewrite ab_log_set; apply Hs|apply Hok].
  intros A1 A2 H12. apply H12.
Qed.
End steps.

(** ** Records in the files *)

(** The bytes of the segment [base] of a partition: its file and, for the active
    segment, what is buffered for it. *)
Definition segment_bytes `{Prometheus} (c : Handler * os) (tp : tpart) (base : Z) : list byte :=
  content (segment_name (partitionDir (h_store c.1) tp.1 tp.2) base) c.2 ++
  match bs_stores (h_store c.1) !! partitionKey tp.1 tp.2 with
  | Some ps => if ps_nextBase ps =? base then bw_buf (sg_bw (ps_active ps)) else []
  | None => []
  end.

(** The record [p] is at [off] in one of the segments of a partition. *)
Definition recorded `{Prometheus} (c : Handler * os) (tp : tpart) (off : Z) (p : list byte) : Prop :=
  exists base, 0 <= base /\ record_at off p (segment_bytes c tp base).

Lemma record_at_nil off p : ~ record_at off p [].
Proof.
  intros (pre & post & E & _). apply (f_equal zlen) in E. rewrite !zlen_app, zlen_frame, zlen_nil in E.
  pose proof (zlen_nonneg pre). pose proof (zlen_nonneg post). pose proof (zlen_nonneg p). lia.
Qed.

(** What the logs of a broker say is in its files. *)
Lemma stored_recorded `{Prometheus} max h o A tp base off p :
  handler_ok max h o A -> stored_at base off p (ab_log A tp) ->
  0 <= base /\ record_at off p (segment_bytes (h, o) tp base).
Proof.
  intros [Hb _ _] Hs. destruct tp as [t q]. unfold ab_log, log_of in Hs. destruct (ab_logs A !! (t, q)) as [L|] eqn:EL.
  2:{ destruct Hs as [[_ []%record_at_nil]|(seg & []%elem_of_nil & _)]. }
  pose proof (rt_dom _ _ _ (bk_root _ _ _ Hb) _ _ EL) as Hn. cbn beta iota in Hn.
  pose proof (bk_parts _ _ _ Hb t q Hn) as Hp. rewrite EL in Hp. unfold segment_bytes. cbn [fst snd]. change (default _ (Some L)) with L in Hs.
  destruct (bs_stores (h_store h) !! partitionKey t q) as [ps|]; [|done]. destruct Hp as (Hd & _ & Hp).
  pose proof (po_files _ _ _ Hp) as Hf. destruct (po_base _ _ _ Hp) as [_ Hnb]. rewrite Hnb.
  pose proof (po_active _ _ _ Hp) as (Ha & _). pose proof (bo_log _ _ _ _ (so_bw _ _ _ Ha)) as Hl.
  rewrite (po_seg _ _ _ Hp), Hd in Hl. rewrite Hd in Hf. destruct Hs as [[<- Hr]|(seg & Hin & Hr)].
  - rewrite Z.eqb_refl, Hl. split; [apply Hf|done].
  - pose proof (pf_closed _ _ _ _ Hf) as Hc. rewrite Forall_forall in Hc. destruct (Hc _ Hin) as [Hlt Hseg].
    rewrite Hseg, (proj2 (Z.eqb_neq _ _)), app_nil_r by lia. split; [lia|done].
Qed.

(** ** What a request was told *)

(** What a response acknowledges is stored, for a notion of being stored. *)
Section told.
Context (stored : tpart -> Z -> list byte -> Prop).

Definition produce_kept (t : gostring) (part : ProducePartitionData) (resp : ProducePartitionResponse) : Prop :=
  ppr_ErrorCode resp = 0 -> stored (t, ppd_Partition part) (ppr_BaseOffset resp) (ppd_RecordBatch part).

Definition commit_kept (g t : gostring) (part : OffsetCommitPartition) (resp : OffsetCommitPartitionResponse) : Prop :=
  ocpr_ErrorCode resp = 0 ->
  exists off, stored offsets_tp off
    (offset_record (MkOffsetCacheKey g t (ocp_Partition part)) (ocp_CommittedOffset part)).

Definition acknowledged (rq : request) (resp : response) : Prop :=
  match rq, resp with
  | RqProduce req, RsProduce resp =>
      Forall2 (fun topic tr => Forall2 (produce_kept (ptd_TopicName topic)) (ptd_Partitions topic) (ptr_Partitions tr))
        (pr_Topics req) (prs_Topics resp)
  | RqOffsetCommit req, RsOffsetCommit resp =>
      Forall2 (fun topic tr => Forall2 (commit_kept (oc_GroupID req) (oct_TopicName topic))
                 (oct_Partitions topic) (octr_Partitions tr)) (oc_Topics req) (ocr_Topics resp)
  | _, _ => True
  end.
End told.

Lemma acknowledged_mono (P Q : tpart -> Z -> list byte -> Prop) rq resp :
  (forall tp off p, P tp off p -> Q tp off p) -> acknowledged P rq resp -> acknowledged Q rq resp.
Proof.
  intros HPQ. destruct rq, resp; cbn [acknowledged]; try done; intros F; (eapply Forall2_impl; [exact F|]); intros topic tr F';
    (eapply Forall2_impl; [exact F'|]); intros part pr Hk E; [by apply HPQ, Hk|].
  destruct (Hk E) as [off Hoff]. exists off. by apply HPQ.
Qed.

(** In the logs of the abstract broker. *)
Definition in_logs (A : abroker) (tp : tpart) (off : Z) (p : list byte) : Prop :=
  exists base, stored_at base off p (ab_log A tp).

Definition told (rq : request) (a : answer) (A : abroker) : Prop :=
  match a with Answer resp => acknowledged (in_logs A) rq resp | Catalogue _ => True end.

Lemma in_logs_kept A A' tp off p : logs_kept A A' -> in_logs A tp off p -> in_logs A' tp off p.
Proof. intros Hk [base Hs]. exists base. by apply Hk. Qed.

Lemma produce_kept_kept t part resp : kept (fun A => produce_kept (in_logs A) t part resp).
Proof. intros A A' Hk Hp E. eapply in_logs_kept; [done|by apply Hp]. Qed.

Lemma commit_kept_kept g t part resp : kept (fun A => commit_kept (in_logs A) g t part resp).
Proof. intros A A' Hk Hp E. destruct (Hp E) as [off Hs]. exists off. by eapply in_logs_kept. Qed.

Lemma told_kept rq a : kept (told rq a).
Proof.
  intros A A' HA. destruct a as [resp|]; [|done]. apply acknowledged_mono. intros tp off p. by apply in_logs_kept.
Qed.

(** What has been told is in the files. *)
Lemma told_recorded `{Prometheus} max h o A rq resp a :
  handler_ok max h o A -> answers resp a -> told rq a A -> acknowledged (recorded (h, o)) rq resp.
Proof.
  intros Hok Ha Ht. destruct a as [resp'|tps]; cbn [answers told] in *.
  - subst resp'. eapply acknowledged_mono; [|exact Ht]. intros tp off p [base Hs]. exists base. by eapply stored_recorded.
  - destruct Ha as (m & -> & _). by destruct rq.
Qed.

Lemma safe_produce max t part : safe (fun resp A => produce_kept (in_logs A) t part resp) (fun _ => True) (produce_steps max t part).
Proof.
  unfold produce_steps. cbv zeta. destruct (_ && _); [by intros A _|]. apply safe_touch, safe_append.
  - intros base off A Hs _. by exists base.
  - by intros e A _.
Qed.

Lemma safe_commit max g t part : safe (fun resp A => commit_kept (in_logs A) g t part resp) (fun _ => True) (commit_steps max g t part).
Proof.
  unfold commit_steps. cbv zeta. apply safe_touch, safe_append; [|by intros e A _].
  intros base off. apply safe_cache; [intros A A' Hk; apply Hk|done|]. intros A Hs _. by exists off, base.
Qed.

(** Loops over the partitions of a topic, or over topics. *)
Lemma safe_loop {X B D} (post : X -> B -> abroker -> Prop) (post' : D -> abroker -> Prop) (body : X -> prog abroker B) xs
    (f : list B -> D) :
  (forall x r, kept (post x r)) -> (forall x, safe (post x) (fun _ => True) (body x)) ->
  (forall rs A, Forall2 (fun x r => post x r A) xs rs -> post' (f rs) A) ->
  safe post' (fun _ => True) (pbind (pmap body xs) (fun rs => PRet (f rs))).
Proof.
  intros Hk Hb Hf. eapply safe_bind; [apply (safe_pmap logs_kept post); [done|by apply Forall_true]|].
  intros rs A. apply Hf.
Qed.

Lemma kept_Forall2 {X Y} (post : X -> Y -> abroker -> Prop) xs ys :
  (forall x y, kept (post x y)) -> kept (fun A => Forall2 (fun x y => post x y A) xs ys).
Proof. intros Hk A A' H12 F. eapply Forall2_impl; [exact F|]. intros x y. by apply Hk. Qed.

Lemma safe_fetch t part rem : safe (fun _ _ => True) (fun _ => True) (fetch_steps t part rem).
Proof.
  unfold fetch_steps. cbv zeta. apply safe_touch, safe_get. intros hw. destruct (_ =? _); [done|].
  destruct (_ <? _); [done|]. destruct (_ <=? _); [done|]. apply safe_read. intros [[[d m] base]|e]; [|done].
  apply safe_get. intros cur. by destruct (_ || _).
Qed.

Lemma safe_fetch_partitions t parts rem : safe (fun _ _ => True) (fun _ => True) (fetch_partitions_steps t parts rem).
Proof.
  revert rem. induction parts as [|part parts IH]; intros rem; cbn [fetch_partitions_steps]; [done|].
  eapply safe_bind; [apply safe_fetch|]. intros [x rem1]. eapply safe_bind; [apply IH|]. by intros [].
Qed.

Lemma safe_fetch_topics topics rem : safe (fun _ _ => True) (fun _ => True) (fetch_topics_steps topics rem).
Proof.
  revert rem. induction topics as [|topic topics IH]; intros rem; cbn [fetch_topics_steps]; [done|].
  eapply safe_bind; [apply safe_fetch_partitions|]. intros [x rem1]. eapply safe_bind; [apply IH|]. by intros [].
Qed.

Lemma safe_request max rq : safe (told rq) (fun _ => True) (request_steps max rq).
Proof.
  destruct rq as [req|req|req|req|req|req]; cbn [request_steps]; unfold pfmap.
  - eapply (safe_bind logs_kept (fun resp => told (RqProduce req) (Answer (RsProduce resp)))); [|by intros r A].
    eapply (safe_loop (fun topic tr A => Forall2 (produce_kept (in_logs A) (ptd_TopicName topic)) (ptd_Partitions topic) (ptr_Partitions tr))).
    + intros. apply kept_Forall2. intros. apply produce_kept_kept.
    + intros topic. eapply (safe_loop (fun part pr A => produce_kept (in_logs A) (ptd_TopicName topic) part pr)); [apply produce_kept_kept|apply safe_produce|done].
    + done.
  - eapply (safe_bind logs_kept (fun _ _ => True)); [|by intros r A].
    eapply safe_bind; [apply safe_fetch_topics|by intros []].
  - eapply (safe_bind logs_kept (fun _ _ => True)); [|by intros r A].
    eapply (safe_loop (fun _ _ _ => True)); [done| |done]. intros topic. eapply (safe_loop (fun _ _ _ => True)); [done| |done].
    intros part. unfold list_offsets_steps. cbv zeta. destruct (_ =? _); [|done]. apply safe_touch, safe_get. done.
  - eapply (safe_bind logs_kept (fun _ _ => True)); [|by intros r A]. eapply safe_bind.
    + apply (safe_pmap logs_kept (fun _ _ _ => True)); [done|]. apply Forall_true. intros t. by apply safe_touch.
    + intros us. eapply safe_weaken; [by apply (safe_get (fun _ _ => True))|done|done].
  - eapply (safe_bind logs_kept (fun resp => told (RqOffsetCommit req) (Answer (RsOffsetCommit resp))));
      [|by intros r A].
    eapply (safe_loop (fun topic tr A => Forall2 (commit_kept (in_logs A) (oc_GroupID req) (oct_TopicName topic))
      (oct_Partitions topic) (octr_Partitions tr))).
    + intros. apply kept_Forall2. intros. apply commit_kept_kept.
    + intros topic. eapply (safe_loop (fun part pr A => commit_kept (in_logs A) (oc_GroupID req) (oct_TopicName topic) part pr));
        [apply commit_kept_kept|apply safe_commit|done].
    + done.
  - eapply (safe_bind logs_kept (fun _ _ => True)); [|by intros r A]. by apply safe_get.
Qed.

(** ** Under any interleaving *)

Section acknowledged.
Context `{Prometheus} `{!PrometheusOk} `{MapOrder} (Getenv : gostring -> gostring) (max : Z).

(** C9: No acknowledged record is lost to concurrency. While any number of requests run, interleaved in any way (without
    failing system calls, for requests whose partitions can be named and whose batches do not make the handler panic),
    every record that a producer or a committing consumer has been told is stored is in a segment of its partition, in the
    file or in what is buffered for it, a produced one at the position that the producer was given; and so is every record
    that was in the logs before. *)
Theorem acknowledged_records_are_stored h o A rqs ts c' :
  handler_ok max h o A -> Forall wf_request rqs -> room (total request_bytes rqs) A ->
  rtc psteps (request_program Getenv <$> rqs, (h, o)) (ts, c') ->
  (forall tp base off p, stored_at base off p (ab_log A tp) -> record_at off p (segment_bytes c' tp base)) /\
  (forall i rq resp, rqs !! i = Some rq -> ts !! i = Some (PRet resp) -> acknowledged (recorded c') rq resp).
Proof.
  intros Hok Hwf Hroom Hrun. pose proof (requests_pool Getenv max h o A rqs Hok Hwf Hroom) as Hpool.
  destruct (pool_simulation _ _ _ _ fits_weaken _ _ _ Hpool Hrun) as ([us A'] & Hr & Hs).
  assert (F : Forall2 (thread_safe logs_kept A) (told <$> rqs) (request_steps max <$> rqs)).
  { apply Forall2_fmap, Forall_Forall2_diag, Forall_true. intros rq. exists (fun _ => True).
    split_and!; [done|done|apply safe_request]. }
  destruct (pool_safe _ _ _ _ _ _ Hr F) as [F' Hg]. destruct c' as [h' o'].
  assert (Hok' : handler_ok max h' o' A') by by destruct Hs as (? & _ & _ & ? & _). split.
  - intros tp base off p Hst. eapply stored_recorded; [done|]. by apply (rtc_kept _ _ Hg).
  - intros i rq resp Hi Hti. destruct (pool_results _ _ _ _ _ _ _ _ _ _ Hs Hti) as (a & Ha & Hans).
    eapply told_recorded; [done..|]. eapply (pool_posts _ _ _ _ i a _ F'); [by rewrite list_lookup_fmap, Hi|done].
Qed.
End acknowledged.

(** The run of [ConcurrentSpec]: the producer has its answer. *)
Lemma acknowledged_records_are_stored_witness :
  (forall tp base off p, stored_at base off p (ab_log (ABroker ∅ ∅) tp) -> record_at off p (segment_bytes sample_run.2 tp base)) /\
  (forall i rq resp, sample_requests !! i = Some rq -> sample_run.1 !! i = Some (PRet resp) ->
      acknowledged (recorded sample_run.2) rq resp).
Proof.
  apply (acknowledged_records_are_stored (H1 := insertion_order) no_env 1000 sample_handler.1 sample_handler.2
    (ABroker ∅ ∅) sample_requests sample_run.1 sample_run.2).
  - exact sample_handler_ok.
  - exact sample_requests_wf.
  - apply sample_room. vm_compute. reflexivity.
  - rewrite <- !surjective_pairing. exact sample_run_reached.
Defined.
