(* ===== verification/Crash.v ===== *)
(** * Crashes

    A crash of the process loses its memory, the buffers of the writers with
    it; the files stay as they are. The next process finds, for every
    partition, what had been written out: a prefix of its log. Appends only
    fill the buffer, so an acknowledged record can be lost; a fetch writes the
    buffer out before it reads, so what a consumer has seen is not. *)

From stdpp Require Import base tactics list numbers gmap strings sorting.
From Stdlib Require Import ZArith Lia.
From S2P Require Import Prelude GoIO GoStrings Requests Responses RecordBatch OSFile.
From S2P Require Import LogIndex LogSegment SegmentSpec LogStore FetchPatch.
From S2P Require Import BrokerStore BrokerSpec Metrics Handler HandlerSpec AppendOnly Concurrent ConcurrentSpec.
#[local] Open Scope Z_scope.

(** ** What is left of a log *)

(** The log without what was still buffered. *)
Definition written (dir : gostring) (o : os) (L : plog) : plog :=
  PLog (pl_closed L) (pl_base L) (content (segment_name dir (pl_base L)) o).

(** The index file holds whole entries, for records that the log file has. *)
Definition index_behind (dir : gostring) (o : os) (base : Z) : Prop :=
  exists es, content (index_name dir base) o = enc_entries es /\ Forall wf_entry es /\ StronglySorted entry_lt es /\
    Forall (fun e => e_offset e < zlen (content (segment_name dir base) o) /\ e_position e = u32 (e_offset e)) es.

Lemma written_prefix ps o L :
  part_ok ps o L -> pl_active (written (ps_dir ps) o L) `prefix_of` pl_active L.
Proof.
  intros Hok. cbn. destruct (po_active _ _ _ Hok) as (Hs & _). rewrite <- (po_seg _ _ _ Hok).
  exists (bw_buf (sg_bw (ps_active ps))). by rewrite (bo_log _ _ _ _ (so_bw _ _ _ Hs)).
Qed.

Lemma written_disk ps o L :
  part_ok ps o L -> index_behind (ps_dir ps) o (pl_base L) -> disk_ok (ps_dir ps) o (written (ps_dir ps) o L).
Proof.
  intros Hok Hix. pose proof (written_prefix _ _ _ Hok) as [buf Hb]. pose proof (po_bound _ _ _ Hok) as Hz.
  constructor; cbn [written pl_closed pl_base pl_active] in *; [apply Hok|done| |exact Hix].
  rewrite Hb, zlen_app in Hz. pose proof (zlen_nonneg buf). lia.
Qed.

(** ** Starting again *)

Section crash.
Context `{Prometheus} `{!PrometheusOk} `{MapOrder}.

(** The process is gone: the operating system is all there is. *)
Definition crash (x : Handler * os) : os := x.2.

(** What every partition of a broker comes back with. *)
Definition recovered (h : Handler) (o : os) (A : abroker) : gmap tpart plog :=
  map_imap (fun tp L => Some (written (partitionDir (h_store h) tp.1 tp.2) o L)) (ab_logs A).

Definition indexes_behind (h : Handler) (o : os) (A : abroker) : Prop :=
  map_Forall (fun tp L => index_behind (partitionDir (h_store h) tp.1 tp.2) o (pl_base L)) (ab_logs A).

Lemma crash_stored max h o A cfg :
  handler_ok max h o A -> map_Forall (fun _ L => pl_base L = 0) (ab_logs A) -> indexes_behind h o A ->
  max_size cfg < 2 ^ 62 -> stored (bs_rootDir (h_store h)) cfg o (recovered h o A).
Proof.
  intros [[Hroot _ Hkeys Hparts] _ _] Hbase Hix Hm. set (bs := h_store h) in *.
  assert (Hdom : forall tp, is_Some (recovered h o A !! tp) <-> is_Some (ab_logs A !! tp)).
  { intros tp. unfold recovered. rewrite map_lookup_imap. by destruct (ab_logs A !! tp). }
  constructor; cbn [bs_rootDir bs_cfg bs_stores]; [|done|apply map_Forall_empty|].
  - destruct Hroot as [R1 R2 R3 R4 R5]. constructor; [done|done|done| |].
    + intros [t p] L HL. destruct (proj1 (Hdom (t, p))) as [L' HL']; [by eexists|]. by apply (R4 _ _ HL').
    + intros q t ds n Hq Hpq Hne Hf Hp. destruct (R5 q t ds n Hq Hpq Hne Hf Hp) as (p & Hin & E).
      exists p. split; [by apply Hdom|done].
  - intros t p Hn. specialize (Hparts t p Hn). rewrite lookup_empty. unfold recovered. rewrite map_lookup_imap.
    destruct (ab_logs A !! (t, p)) as [L|] eqn:EL; cbn.
    + destruct (bs_stores bs !! partitionKey t p) as [ps|]; [|done]. destruct Hparts as (Hd & _ & Hok).
      specialize (Hix _ _ EL). cbn [fst snd] in Hix. fold bs in Hix |- *.
      change (partitionDir (MkBrokerStore _ _ _) t p) with (partitionDir bs t p). rewrite <- Hd in *.
      split_and!; [by apply (Hbase _ _ EL)|by apply written_disk|set_solver].
    + split; [done|]. by destruct (bs_stores bs !! partitionKey t p).
Qed.

Lemma recovered_prefix max h o A tp :
  handler_ok max h o A -> pl_active (log_of (recovered h o A) tp) `prefix_of` pl_active (ab_log A tp).
Proof.
  destruct tp as [t p]. intros Hok. unfold ab_log, log_of, recovered. rewrite map_lookup_imap.
  destruct (ab_logs A !! (t, p)) as [L|] eqn:EL; [|done]. cbn [mbind option_bind default fst snd].
  pose proof (ho_broker _ _ _ _ Hok) as Hbk. assert (Hn : nameable t p) by apply (rt_dom _ _ _ (bk_root _ _ _ Hbk) _ _ EL).
  pose proof (bk_parts _ _ _ Hbk t p Hn) as Hpart. rewrite EL in Hpart.
  destruct (bs_stores _ !! _) as [ps|]; [|done]. destruct Hpart as (<- & _ & Hp). by apply written_prefix.
Qed.

(** The files of a partition with one segment, found again. *)
Lemma recovered_content max h o A t p :
  handler_ok max h o A -> nameable t p -> map_Forall (fun _ L => pl_base L = 0) (ab_logs A) ->
  pl_active (log_of (recovered h o A) (t, p)) = content (segment_name (partitionDir (h_store h) t p) 0) o.
Proof.
  intros Hok Hn Hbase. pose proof (ho_broker _ _ _ _ Hok) as Hbk. pose proof (bk_parts _ _ _ Hbk t p Hn) as Hpart.
  unfold log_of, recovered. rewrite map_lookup_imap. destruct (ab_logs A !! (t, p)) as [L|] eqn:EL; cbn.
  - by rewrite (Hbase _ _ EL).
  - destruct (bs_stores _ !! _) as [ps|]; [done|]. destruct Hpart as (_ & Hfiles & _). symmetry. unfold content.
    destruct (os_files o !! _) as [f|] eqn:Ef; [|done]. destruct (Hfiles _ _ Ef).
    apply (partition_names_parent _ t p 0); [done|apply (rt_dir _ _ _ (bk_root _ _ _ Hbk))|done|set_solver].
Qed.

(** What the writer of a partition has not written out. *)
Definition buffered (h : Handler) (t : gostring) (p : Z) : list byte :=
  match bs_stores (h_store h) !! partitionKey t p with Some ps => bw_buf (sg_bw (ps_active ps)) | None => [] end.

Lemma log_is_file_and_buffer max h o A t p :
  handler_ok max h o A -> nameable t p -> map_Forall (fun _ L => pl_base L = 0) (ab_logs A) ->
  pl_active (ab_log A (t, p)) = content (segment_name (partitionDir (h_store h) t p) 0) o ++ buffered h t p.
Proof.
  intros Hok Hn Hbase. rewrite <- (recovered_content max h o A) by done.
  pose proof (bk_parts _ _ _ (ho_broker _ _ _ _ Hok) t p Hn) as Hpart.
  unfold ab_log, log_of, recovered, buffered. rewrite map_lookup_imap.
  destruct (ab_logs A !! (t, p)) as [L|] eqn:EL, (bs_stores _ !! _) as [ps|]; cbn; try done.
  destruct Hpart as (Hd & _ & Hp). destruct (po_active _ _ _ Hp) as (Hs & _).
  by rewrite <- (bo_log _ _ _ _ (so_bw _ _ _ Hs)), <- Hd, <- (po_seg _ _ _ Hp).
Qed.

(** C10: Crash consistency of the store. When the process dies at any moment between requests, the next
    [OpenBrokerStore] of the directory succeeds and finds the same partitions, the log of each one exactly what its
    file held at the crash; what is lost of the log is exactly the buffer of its writer, from the end. This is for
    partitions with one segment whose index file is not ahead of the log file. (The start of the process also loads
    the offset cache, which refuses a torn record at the end of the log of commits.) *)
Theorem crash_recovers_prefix max h o A cfg :
  handler_ok max h o A -> map_Forall (fun _ L => pl_base L = 0) (ab_logs A) -> indexes_behind h o A ->
  max_size cfg < 2 ^ 62 ->
  exists bs o' M, OpenBrokerStore (bs_rootDir (h_store h)) cfg (crash (h, o)) = (Ok bs, o') /\ broker_ok bs o' M /\
    (forall tp, is_Some (M !! tp) <-> is_Some (ab_logs A !! tp)) /\
    forall t p, nameable t p ->
      pl_active (log_of M (t, p)) = content (segment_name (partitionDir (h_store h) t p) 0) o /\
      pl_active (ab_log A (t, p)) = pl_active (log_of M (t, p)) ++ buffered h t p.
Proof.
  intros Hok Hbase Hix Hm. destruct (OpenBrokerStore_stored _ _ _ _ (crash_stored max h o A cfg Hok Hbase Hix Hm))
    as (bs & o' & E & _ & _ & Hbk).
  exists bs, o', (recovered h o A). split_and!; [done|done| |].
  - intros tp. unfold recovered. rewrite map_lookup_imap. by destruct (ab_logs A !! tp).
  - intros t p Hn. rewrite (recovered_content max) by done. split; [done|]. by eapply log_is_file_and_buffer.
Qed.

(** ** What a consumer has seen *)

(** A read that succeeds leaves nothing of the log in the buffer. *)
Lemma read_writes_out max h o A t p off n w m h1 o1 :
  handler_ok max h o A -> nameable t p -> 0 <= off < 2 ^ 62 -> sfits 32 n ->
  on_store (on_partition (partitionKey t p) (PartitionStore_Read off n)) (h, o) = (Ok (w, m), (h1, o1)) ->
  bs_rootDir (h_store h1) = bs_rootDir (h_store h) /\
  content (segment_name (partitionDir (h_store h) t p) (pl_base (ab_log A (t, p)))) o1 = pl_active (ab_log A (t, p)).
Proof.
  intros Hok Hn Hoff Hlen. unfold on_store, zoom, on_partition.
  destruct (bs_stores (h_store h) !! partitionKey t p) as [ps|] eqn:Hps; [|done].
  destruct (handler_part _ _ _ _ _ _ _ Hok Hn Hps) as (_ & Hd & Hp).
  pose proof (PartitionStore_Read_refines ps o _ off n Hp Hoff Hlen) as Hr. unfold wp in Hr.
  destruct (PartitionStore_Read off n (ps, o)) as [r [ps1 o']] eqn:E. intros [= -> <- <-]. cbn [fst snd] in Hr.
  destruct Hr as (_ & Hd1 & _ & _ & Hp1). apply PartitionStore_Read_shares in E as (_ & _ & Hbuf). split; [done|].
  rewrite <- Hd, <- Hd1, <- (po_seg _ _ _ Hp1). destruct (po_active _ _ _ Hp1) as (Hs & _).
  by rewrite <- (bo_log _ _ _ _ (so_bw _ _ _ Hs)), Hbuf, app_nil_r.
Qed.

(** C15: What a consumer has been served survives a crash. After a successful read of a partition any other requests may
    run, which only append to files; when the process then dies, [OpenBrokerStore] brings the partition back with
    everything that was in its log at the time of the read, and nothing but what its log had at the time of the crash.
    This is for brokers in which no log has rolled over, neither at the read nor at the crash, and no index file is
    ahead of its log file at the crash (after a roll-over a start serves the oldest segment). *)
Theorem served_records_survive_crash max h o A t p off n w m h1 o1 h2 o2 A2 cfg :
  handler_ok max h o A -> nameable t p -> 0 <= off < 2 ^ 62 -> sfits 32 n ->
  on_store (on_partition (partitionKey t p) (PartitionStore_Read off n)) (h, o) = (Ok (w, m), (h1, o1)) ->
  (forall q, content q o1 `prefix_of` content q o2) -> handler_ok max h2 o2 A2 -> bs_rootDir (h_store h2) = bs_rootDir (h_store h1) ->
  map_Forall (fun _ L => pl_base L = 0) (ab_logs A) -> map_Forall (fun _ L => pl_base L = 0) (ab_logs A2) ->
  indexes_behind h2 o2 A2 -> max_size cfg < 2 ^ 62 ->
  exists bs o' M, OpenBrokerStore (bs_rootDir (h_store h2)) cfg (crash (h2, o2)) = (Ok bs, o') /\ broker_ok bs o' M /\
    pl_active (ab_log A (t, p)) `prefix_of` pl_active (log_of M (t, p)) /\
    pl_active (log_of M (t, p)) `prefix_of` pl_active (ab_log A2 (t, p)).
Proof.
  intros Hok Hn Hoff Hlen Hread Hg Hok2 Hroot HA HA2 Hix Hm.
  destruct (read_writes_out max h o A t p off n w m h1 o1 Hok Hn Hoff Hlen Hread) as [Hroot1 Hw].
  destruct (OpenBrokerStore_stored _ _ _ _ (crash_stored max h2 o2 A2 cfg Hok2 HA2 Hix Hm)) as (bs & o' & E & _ & _ & Hbk).
  exists bs, o', (recovered h2 o2 A2). split_and!; [done|done| |by eapply recovered_prefix].
  rewrite (recovered_content max) by done.
  assert (Hb : pl_base (ab_log A (t, p)) = 0).
  { unfold ab_log, log_of. destruct (ab_logs A !! (t, p)) eqn:EL; [by apply (HA _ _ EL)|done]. }
  rewrite Hb in Hw. rewrite <- Hw. unfold partitionDir. rewrite Hroot, Hroot1. apply Hg.
Qed.
End crash.

(** ** Instances *)

Lemma sample_stored_eq : sample_stored_logs = set_ab_log (gos "t", 0) (PLog [] 0 (frame sample_batch)) (ABroker ∅ ∅).
Proof. vm_compute. reflexivity. Qed.

Lemma sample_stored_lookup tp L :
  ab_logs sample_stored_logs !! tp = Some L -> tp = (gos "t", 0) /\ L = PLog [] 0 (frame sample_batch).
Proof.
  rewrite sample_stored_eq. cbn [ab_logs set_ab_log]. intros HL. apply lookup_insert_Some in HL as [[<- <-]|[_ HL]]; [done|].
  by rewrite lookup_empty in HL.
Qed.

Lemma sample_stored_based : map_Forall (fun _ L => pl_base L = 0) (ab_logs sample_stored_logs).
Proof. intros tp L HL. apply sample_stored_lookup in HL as [_ ->]. done. Qed.

(** No index entry has been written out yet. *)
Lemma sample_indexes_behind x :
  content (index_name (partitionDir (h_store x.1) (gos "t") 0) 0) x.2 = [] -> indexes_behind x.1 x.2 sample_stored_logs.
Proof.
  intros E tp L HL. apply sample_stored_lookup in HL as [-> ->]. exists []. cbn [fst snd pl_base]. rewrite E.
  split_and!; [done|constructor..].
Qed.

Lemma crash_recovers_prefix_witness :
  exists bs o' M, OpenBrokerStore (bs_rootDir (h_store sample_stored.1)) sample_hcfg
      (crash (sample_stored.1, sample_stored.2)) = (Ok bs, o') /\ broker_ok bs o' M /\
    (forall tp, is_Some (M !! tp) <-> is_Some (ab_logs sample_stored_logs !! tp)) /\
    forall t p, nameable t p ->
      pl_active (log_of M (t, p)) = content (segment_name (partitionDir (h_store sample_stored.1) t p) 0) sample_stored.2 /\
      pl_active (ab_log sample_stored_logs (t, p)) = pl_active (log_of M (t, p)) ++ buffered sample_stored.1 t p.
Proof.
  apply (crash_recovers_prefix 1000 sample_stored.1 sample_stored.2 sample_stored_logs sample_hcfg).
  - exact sample_stored_ok.
  - exact sample_stored_based.
  - apply sample_indexes_behind. vm_compute. reflexivity.
  - concrete.
Defined.

(** The stored batch, read by a consumer. *)
Definition sample_read : result (section * Z) * (Handler * os) :=
  on_store (on_partition (partitionKey (gos "t") 0) (PartitionStore_Read 0 50)) (sample_stored.1, sample_stored.2).

Lemma sample_read_ok : handler_ok 1000 sample_read.2.1 sample_read.2.2 sample_stored_logs.
Proof.
  assert (Hn : nameable (gos "t") 0) by concrete.
  assert (Hk : has_key (partitionKey (gos "t") 0) (sample_stored.1, sample_stored.2)).
  { apply (bool_decide_unpack _). vm_compute. exact I. }
  destruct (step_log 1000 _ _ _ (gos "t") 0 (PartitionStore_Read 0 50)
    (fun _ L _ _ => L = ab_log sample_stored_logs (gos "t", 0)) sample_stored_ok Hn Hk)
    as (r & L & h & o & ps & E & -> & _ & Hok & _); [auto with grows| |].
  - intros ps Hps _ _. eapply wp_mono; [apply (PartitionStore_Read_refines ps _ _ 0 50 Hps); concrete|].
    intros r [ps' o'] (_ & ? & ? & ? & ?). eexists. by split_and!.
  - unfold sample_read. rewrite E. clear E. cbn [fst snd]. change (handler_ok 1000 h o (touch (gos "t", 0) sample_stored_logs)) in Hok.
    rewrite touch_known in Hok; [done|]. rewrite sample_stored_eq. cbn [ab_logs set_ab_log]. rewrite lookup_insert_eq. by eexists.
Qed.

Lemma ok_result {B D S T} (x : result (B * D) * (S * T)) : is_ok x.1 = true -> exists w m, x = (Ok (w, m), (x.2.1, x.2.2)).
Proof. destruct x as [[[w m]|e|e] [s t]]; [|done..]. intros _. by exists w, m. Qed.

Lemma served_records_survive_crash_witness :
  exists bs o' M, OpenBrokerStore (bs_rootDir (h_store sample_read.2.1)) sample_hcfg
      (crash (sample_read.2.1, sample_read.2.2)) = (Ok bs, o') /\ broker_ok bs o' M /\
    pl_active (ab_log sample_stored_logs (gos "t", 0)) `prefix_of` pl_active (log_of M (gos "t", 0)) /\
    pl_active (log_of M (gos "t", 0)) `prefix_of` pl_active (ab_log sample_stored_logs (gos "t", 0)).
Proof.
  assert (E : exists w m, sample_read = (Ok (w, m), (sample_read.2.1, sample_read.2.2))).
  { apply ok_result. vm_compute. reflexivity. }
  destruct E as (w & m & E).
  apply (served_records_survive_crash 1000 sample_stored.1 sample_stored.2 sample_stored_logs (gos "t") 0 0 50 w m
    sample_read.2.1 sample_read.2.2 sample_read.2.1 sample_read.2.2 sample_stored_logs sample_hcfg).
  - exact sample_stored_ok.
  - concrete.
  - concrete.
  - concrete.
  - exact E.
  - done.
  - exact sample_read_ok.
  - done.
  - exact sample_stored_based.
  - exact sample_stored_based.
  - apply sample_indexes_behind. vm_compute. reflexivity.
  - concrete.
Defined.

(** ** An acknowledgement is no promise *)

(** The broker that a start after a crash gives. *)
Definition after_crash (x : Handler * os) : Handler * os :=
  match OpenBrokerStore (bs_rootDir (h_store x.1)) sample_hcfg (crash x) with
  | (Ok bs, o) => (NewHandler bs New, o)
  | (_, o) => (NewHandler (MkBrokerStore [] sample_hcfg ∅) New, o)
  end.

(** A batch is stored and acknowledged with its offset, but it is in the buffer of the writer only: after a crash of
    the process, with no failure of the operating system or the disk, its partition is empty. The same holds for a
    committed offset. *)
Theorem acknowledged_lost_in_crash :
  let '(r, x) := produce_partition (gos "t") {| ppd_RecordBatch := sample_batch; ppd_Partition := 0 |} sample_handler in
  r = Ok {| ppr_BaseOffset := 0; ppr_Partition := 0; ppr_ErrorCode := 0 |} /\
  PartitionStore_Size <$> (bs_stores (h_store x.1) !! partitionKey (gos "t") 0) = Some (zlen (frame sample_batch)) /\
  PartitionStore_Size <$> (bs_stores (h_store (after_crash x).1) !! partitionKey (gos "t") 0) = Some 0.
Proof. vm_compute. split_and!; reflexivity. Qed.
