(* ===== verification/CleanerRace.v ===== *)
(** * The cleaner against concurrent appends ([CleanOldSegments])

    [CleanOldSegments] takes the partition's lock only to learn the base offset
    of the active segment, and then works on the directory without it. Here it
    is the sequence of its calls, interleaved in any way with appends, reads
    and flushes of the same partition, with other sweeps and with the passing of
    time. A roll-over can make a segment active that the sweep does not know of.
    What saves its file is its age: it was created after the sweep began. *)

From stdpp Require Import base tactics list numbers gmap strings sorting relations.
From Stdlib Require Import ZArith Lia.
From S2P Require Import Prelude GoIO GoStrings OSFile LogIndex LogSegment SegmentSpec LogStore.
From S2P Require Import Retention BrokerSpec BrokerRetention AppendOnly Prog Concurrent ConcurrentSpec.
#[local] Open Scope Z_scope.

(** ** Programs *)

Abbreviation part := (PartitionStore * os)%type.

(** [e.Info()]: from the directory read or, as its documentation allows too,
    from the time of the call. *)
Definition lstat (path : gostring) : st os Z := fun o =>
  let '(f, o) := sys o in
  match f with
  | Some _ => (Err ErrOS, o)
  | None =>
      match os_files o !! path with
      | Some f => (Ok (f_mtime f), o)
      | None => if decide (path ∈ os_dirs o) then (Ok (os_dirtime o path), o) else (Err ErrNotExist, o)
      end
  end.

Definition entry_Info (late : bool) (dir : gostring) (e : dirent) : st os Z :=
  if late then lstat (Join dir (de_name e)) else dirent_Info e.

Definition gone (r : unit + goerr) : bool :=
  match r with inl _ => true | inr e => bool_decide (e = ErrNotExist) end.

Definition clean_entry_program (late : bool) (dir activeLogName : gostring) (cutoff : Z) (e : dirent) : prog part bool :=
  let name := de_name e in
  if negb (HasSuffix name (gos ".log")) || bool_decide (name = activeLogName) then PRet false
  else
    PCall (on_os (entry_Info late dir e)) (fun r =>
    match r with
    | inr _ => PRet false
    | inl mtime =>
        if cutoff <? mtime then PRet false
        else
          PCall (on_os (os_Remove (Join dir name))) (fun r =>
          if negb (gone r) then PRet false
          else
            let stem := TrimSuffix name (gos ".log") in
            PCall (on_os (os_Remove (Join dir (stem ++ gos ".index")))) (fun r => PRet (gone r)))
    end).

Fixpoint clean_entries_program (late : bool) (dir activeLogName : gostring) (cutoff : Z) (es : list dirent) (deleted : Z)
  : prog part Z :=
  match es with
  | [] => PRet deleted
  | e :: es =>
      pbind (clean_entry_program late dir activeLogName cutoff e) (fun d =>
      clean_entries_program late dir activeLogName cutoff es (if d then deleted + 1 else deleted))
  end.

(** The snapshot is taken under the lock; the rest is not. *)
Definition clean_program (late : bool) (retention : Z) : prog part Z :=
  pcall (get_st (fun ps => ps)) (fun ps =>
  let activeLogName := fmt_020d (Segment_BaseOffset (ps_active ps)) ++ gos ".log" in
  pcall (fun '(ps, o) => (Ok (os_now o), (ps, o))) (fun now =>
  let cutoff := now - retention in
  PCall (on_os (os_ReadDir (ps_dir ps))) (fun r =>
  match r with
  | inr e => PFail (Wrapf "storage: cleaner read dir %q: %w" [DStr (ps_dir ps)] e)
  | inl entries => clean_entries_program late (ps_dir ps) activeLogName cutoff entries 0
  end))).

(** Run alone, it is [CleanOldSegments]. *)
Lemma exec_clean_entry dir active cutoff e ps o :
  exec (clean_entry_program false dir active cutoff e) (ps, o) =
  (let '(d, o) := clean_entry dir active cutoff e o in (Ok d, (ps, o))).
Proof.
  assert (Hg : forall r : result unit, match r with Panic _ => False | _ => True end ->
    gone (match r with Ok a => inl a | Err e => inr e | Panic _ => inr EOF end) = removed r) by by intros [].
  assert (Hrm : forall path o, match (os_Remove path o).1 with Panic _ => False | _ => True end).
  { intros path o1. unfold os_Remove. destruct (sys o1) as [[k|] o2]; [done|]. destruct (os_files o2 !! path); [done|].
    case_decide; [|done]. by case_decide. }
  unfold clean_entry_program, clean_entry, entry_Info. cbv zeta. destruct (_ || _); [done|].
  rewrite exec_PCall, try_bind. unfold on_os. unfold dirent_Info. destruct (sys o) as [[k|] o1]; [done|].
  destruct (_ <? _); [done|]. rewrite exec_PCall, try_bind. pose proof (Hrm (Join dir (de_name e)) o1) as H1.
  destruct (os_Remove (Join dir (de_name e)) o1) as [r1 o2].
  specialize (Hg r1 H1) as G1. destruct r1 as [[]|e1|]; [| |done]; cbn [fst] in *; rewrite G1; clear G1;
    (destruct (negb (removed _)); [done|]); cbv zeta; rewrite exec_PCall, try_bind;
    pose proof (Hrm (Join dir (TrimSuffix (de_name e) (gos ".log") ++ gos ".index")) o2) as H2;
    destruct (os_Remove _ o2) as [r2 o3]; specialize (Hg r2 H2) as G2; by destruct r2 as [[]|e2|]; [| |done]; cbn [exec]; rewrite G2.
Qed.

Lemma exec_clean_entries dir active cutoff es n ps o :
  exec (clean_entries_program false dir active cutoff es n) (ps, o) =
  (let '(n, o) := clean_entries dir active cutoff es n o in (Ok n, (ps, o))).
Proof.
  revert n o. induction es as [|e es IH]; intros n o; [done|]. cbn [clean_entries_program clean_entries].
  rewrite exec_pbind. unfold mbind, st_bind. rewrite exec_clean_entry. destruct (clean_entry dir active cutoff e o) as [d o1].
  apply IH.
Qed.

Lemma exec_clean_program retention x : exec (clean_program false retention) x = CleanOldSegments retention x.
Proof.
  destruct x as [ps o]. unfold clean_program, CleanOldSegments. rewrite exec_pcall. unfold mbind, st_bind, get_st.
  rewrite exec_pcall. unfold mbind, st_bind. cbv zeta. rewrite exec_PCall, try_bind. unfold on_os.
  destruct (os_ReadDir (ps_dir ps) o) as [[es|e|e] o1]; [|done..]. apply exec_clean_entries.
Qed.

(** ** Which files an operation touches *)

(** From [o] to [o'] at most the files of segments from [lo] to [hi] changed. *)
Definition confined (dir : gostring) (lo hi : Z) (o o' : os) : Prop :=
  forall q, (forall b, lo <= b <= hi -> q ∉ names dir b) -> os_files o' !! q = os_files o !! q.

Lemma confined_touches dir b lo hi o o' : lo <= b <= hi -> touches (names dir b) o o' -> confined dir lo hi o o'.
Proof. intros Hb Ht q Hq. apply (to_others _ _ _ Ht). by apply Hq. Qed.

Lemma confined_trans dir lo mid hi o1 o2 o3 :
  lo <= mid <= hi -> confined dir lo mid o1 o2 -> confined dir mid hi o2 o3 -> confined dir lo hi o1 o3.
Proof.
  intros Hb C1 C2 q Hq. rewrite C2 by (intros; apply Hq; lia). apply C1. intros. apply Hq. lia.
Qed.

(** A call on the active segment. *)
Lemma active_touches {A} ps o L (m : stio Segment A) :
  part_ok ps o L -> wp m (fun _ '(s', o') => touches (sg_paths (ps_active ps)) o o') (ps_active ps, o) ->
  wp (on_active m) (fun _ '(ps', o') => ps_nextBase ps' = ps_nextBase ps /\ touches (names (ps_dir ps) (ps_nextBase ps)) o o') (ps, o).
Proof.
  intros Hok Hm. pose proof (sg_paths_names _ _ _ Hok) as Hn. destruct (po_base _ _ _ Hok) as [_ Hb]. rewrite <- Hb in Hn.
  rewrite <- Hn. unfold wp, on_active, zoom in *. by destruct (m (ps_active ps, o)) as [r [s' o']].
Qed.

Lemma rollover_confined ps o L :
  part_ok ps o L -> max_size (ps_cfg ps) < 2 ^ 62 ->
  wp rollover (fun _ '(ps', o') => ps_nextBase ps <= ps_nextBase ps' /\
    confined (ps_dir ps) (ps_nextBase ps) (ps_nextBase ps') o o') (ps, o).
Proof.
  intros Hok Hm. pose proof Hok as [(Hs & Hx & Hf) _ _ [_ Hnb] _ Hbb Hfiles].
  pose proof (zlen_nonneg (pl_active L)). pose proof (pf_base _ _ _ _ Hfiles).
  unfold rollover. fold PartitionStore_Close. apply wp_bind, wp_get_st, wp_bind, wp_wrapf.
  eapply wp_mono; [apply wp_and; [by apply PartitionStore_Close_spec|]|].
  { apply (active_touches ps o L); [done|]. eapply wp_mono; [by apply Segment_Close_spec|]. by intros r [s' o'] [? _]. }
  intros r [ps1 o1] [(-> & Hd & Hw & s1 & ->) [_ Ht]]. simpl.
  unfold Segment_Size. rewrite (so_size _ _ _ Hs), (u64_id (zlen _)) by lia.
  wp_steps. simpl. rewrite Hnb, u64_id by lia. rewrite <- plog_roll_base.
  destruct (open_active _ (ps_cfg ps) o1 _ (disk_ok_roll _ _ _ Hd)) as (s & o2 & Ho & Hok2 & _ & _ & Ht2);
    [done|by apply (wi_faults _ _ _ Hw)|].
  unfold wp. rewrite Ho. simpl. rewrite Hnb in Ht. rewrite plog_roll_base in *. split; [lia|].
  eapply (confined_trans _ _ (pl_base L)); [|eapply confined_touches, Ht|eapply confined_touches, Ht2]; lia.
Qed.

Lemma append_confined ps o L p :
  part_ok ps o L -> max_size (ps_cfg ps) < 2 ^ 62 -> zlen p < 2 ^ 32 ->
  pl_base L + zlen (pl_active L) + zlen (frame p) < 2 ^ 62 ->
  wp (PartitionStore_Append p) (fun _ '(ps', o') => ps_nextBase ps <= ps_nextBase ps' /\
    confined (ps_dir ps) (ps_nextBase ps) (ps_nextBase ps') o o') (ps, o).
Proof.
  intros Hok Hm Hp Hz. pose proof (zlen_nonneg (frame p)).
  assert (Hact : forall ps o L, part_ok ps o L ->
    wp (on_active (Segment_Append p)) (fun _ '(ps', o') => ps_nextBase ps' = ps_nextBase ps /\
      touches (names (ps_dir ps) (ps_nextBase ps)) o o') (ps, o)).
  { intros ps0 o0 L0 Hok0. apply (active_touches ps0 o0 L0); [done|].
    destruct (po_active _ _ _ Hok0) as (Hs & Hx & _). eapply wp_mono; [by apply Segment_Append_spec|].
    by intros r [s' o'] (_ & ? & _). }
  pose proof (active_append_refines ps o L p Hok Hp Hz) as Ha. pose proof (Hact ps o L Hok) as Ht. unfold wp in Ha, Ht.
  destruct (on_active (Segment_Append p) (ps, o)) as [r [ps1 o1]] eqn:E. cbn [fst snd] in *. destruct (_ <=? _).
  { destruct Ha as (-> & _). destruct Ht as [Hnb Ht]. unfold wp, PartitionStore_Append. rewrite E. cbn [fst snd].
    rewrite Hnb. split; [lia|]. eapply confined_touches, Ht. lia. }
  destruct Ha as (-> & -> & ->). apply (wp_Append_full _ _ _ _ _ E), wp_bind.
  eapply wp_mono; [apply wp_and; [by apply rollover_refines|by eapply rollover_confined]|].
  intros r [ps2 o2] [(-> & Hok2 & Hd & _) [Hle Hc]]. apply wp_wrapf.
  eapply wp_mono; [by apply (Hact ps2 o2 (plog_roll L))|]. intros r [ps3 o3] [Hnb3 Ht3]. rewrite Hd in Ht3.
  rewrite Hnb3. split; [done|]. eapply confined_trans; [|exact Hc|eapply confined_touches, Ht3]; lia.
Qed.

Lemma section_reader_quiet w o : quiet o (section_reader w o).2.
Proof.
  unfold section_reader. destruct (sys o) as [f o1] eqn:E. apply sys_quiet in E as [Hq _].
  destruct (negb _); [done|]. destruct (sr_off w <? 0); [done|]. by destruct f.
Qed.

Lemma read_touches ps o L off n :
  part_ok ps o L -> 0 <= off < 2 ^ 62 -> sfits 32 n ->
  wp (PartitionStore_Read off n) (fun _ '(ps', o') => ps_nextBase ps' = ps_nextBase ps /\
    touches (names (ps_dir ps) (ps_nextBase ps)) o o') (ps, o).
Proof.
  intros Hok Hoff Hn. destruct (po_active _ _ _ Hok) as (Hs & Hx & Hf). pose proof (so_bound _ _ _ Hs).
  unfold PartitionStore_Read. apply wp_bind, wp_get_st. destruct (_ <=? _); [by split|]. cbv zeta.
  set (n' := if _ <? n then _ else n). assert (Hn' : n' < 2 ^ 31).
  { unfold n'. destruct (_ <? n); [|fits]. unfold i32. pose proof (swrap_fits 32 (i64 (Segment_Size (ps_active ps) - i64 off))). fits. }
  apply wp_bind. eapply wp_mono; [apply (active_touches ps o L); [done|]|].
  { eapply wp_mono; [by apply Segment_Read_spec|]. by intros r [s' o'] (_ & ? & _). }
  intros r [ps' o'] [? ?]. by destruct r.
Qed.

Lemma part_step_confined ps o L op :
  part_ok ps o L -> max_size (ps_cfg ps) < 2 ^ 62 -> wf_part_op op -> pl_end L + op_bytes op < 2 ^ 62 ->
  let '(_, (ps', o')) := part_step op (ps, o) in
  ps_nextBase ps <= ps_nextBase ps' /\ confined (ps_dir ps) (ps_nextBase ps) (ps_nextBase ps') o o'.
Proof.
  unfold pl_end. intros Hok Hm Hop Hz. destruct (po_active _ _ _ Hok) as (Hs & Hx & Hf).
  destruct op as [p|off n|]; cbn [part_step op_bytes wf_part_op] in *.
  - pose proof (append_confined ps o L p Hok Hm Hop Hz) as Ha. unfold wp in Ha.
    by destruct (PartitionStore_Append p (ps, o)) as [r [ps' o']].
  - assert (Hr : wp (store_read_all off n) (fun _ '(ps', o') => ps_nextBase ps' = ps_nextBase ps /\
      touches (names (ps_dir ps) (ps_nextBase ps)) o o') (ps, o)).
    { destruct Hop as [Hoff Hn]. unfold store_read_all. apply wp_bind. eapply wp_mono; [by eapply read_touches|].
      intros r [ps' o'] [Hnb Ht]. destruct r as [[w m]|e|e]; [|done..]. apply wp_bind, wp_on_os. unfold wp.
      pose proof (section_reader_quiet w o') as Hq. destruct (section_reader w o') as [[rd|e|e] o1]; cbn [fst snd] in *;
        (split; [done|]); (etrans; [exact Ht|by apply quiet_touches]). }
    unfold wp in Hr. destruct (store_read_all off n (ps, o)) as [r [ps' o']]. cbn [fst snd] in Hr.
    destruct Hr as [-> Ht]. split; [lia|]. eapply confined_touches, Ht. lia.
  - assert (Hfl : wp PartitionStore_Flush (fun _ '(ps', o') => ps_nextBase ps' = ps_nextBase ps /\
      touches (names (ps_dir ps) (ps_nextBase ps)) o o') (ps, o)).
    { apply (active_touches ps o L); [done|]. eapply wp_mono; [by apply Segment_Flush_spec|]. by intros r [s' o'] (_ & ? & _). }
    unfold wp in Hfl. destruct (PartitionStore_Flush (ps, o)) as [r [ps' o']]. cbn [fst snd] in Hfl.
    destruct Hfl as [-> Ht]. split; [lia|]. eapply confined_touches, Ht. lia.
Qed.

(** ** The partition under interleaving *)

Definition active_file (ps : PartitionStore) : gostring := segment_name (ps_dir ps) (ps_nextBase ps).

(** Segment files beyond the active one do not exist yet, and those that do
    are listed under their own path. *)
Definition no_later (ps : PartitionStore) (o : os) : Prop :=
  forall q f b, os_files o !! q = Some f -> parent q = Clean (ps_dir ps) -> 0 <= b -> Base q = fmt_020d b ++ gos ".log" ->
    b <= ps_nextBase ps /\ q = segment_name (ps_dir ps) b.

(** No subdirectory is named like a segment. *)
Definition no_segment_dirs (ps : PartitionStore) (o : os) : Prop :=
  forall q b, q ∈ os_dirs o -> parent q = Clean (ps_dir ps) -> Base q <> fmt_020d b ++ gos ".log".

(** ** What a partition shows *)

(** Two logs that answer every request alike: they may differ in closed segments,
    which no request reads and the cleaner deletes. *)
#[global] Instance plog_equiv : Equiv plog := fun L L' => pl_base L = pl_base L' /\ pl_active L = pl_active L'.

#[global] Instance plog_equivalence : Equivalence (≡@{plog}).
Proof.
  split; [done|by intros L L' [? ?]|]. intros L1 L2 L3 [? ?] [? ?]. split; congruence.
Qed.

Lemma plog_append_equiv max p L L' :
  L ≡ L' -> (plog_append max p L).1 = (plog_append max p L').1 /\ (plog_append max p L).2 ≡ (plog_append max p L').2.
Proof.
  intros [Hb Ha]. unfold plog_append, plog_roll. rewrite <- Ha. cbv zeta. destruct (_ <=? max); [done|].
  destruct (zlen (pl_active L) =? 0) eqn:E; destruct (zlen (frame p) <=? max); cbn; (split; [done|]); split; cbn; congruence.
Qed.

#[global] Instance pl_end_proper : Proper ((≡) ==> (=)) pl_end.
Proof. intros L L' [Hb Ha]. unfold pl_end. by rewrite Hb, Ha. Qed.

Section race.
Context (late : bool) (retention start max : Z).

(** The partition shows the log [L]. The run is shorter than the retention
    period. *)
Record part_shows (c : part) (L : plog) : Prop := {
  sh_ok : exists L0, part_ok c.1 c.2 L0 /\ L0 ≡ L;
  sh_max : max_size (ps_cfg c.1) = max /\ max < 2 ^ 62;
  sh_dir : ps_dir c.1 <> [];
  sh_later : no_later c.1 c.2;
  sh_dirs : no_segment_dirs c.1 c.2;
  sh_time : start <= os_now c.2 < start + retention }.

(** Time passes, the active segment moves on; a new one is as young as the
    moment, and writing does not make a file older. *)
Record part_moves (c c' : part) : Prop := {
  mv_dir : ps_dir c'.1 = ps_dir c.1;
  mv_base : ps_nextBase c.1 <= ps_nextBase c'.1;
  mv_now : os_now c.2 <= os_now c'.2;
  mv_new : ps_nextBase c.1 < ps_nextBase c'.1 ->
    exists f, os_files c'.2 !! active_file c'.1 = Some f /\ os_now c.2 <= f_mtime f;
  mv_same : ps_nextBase c'.1 = ps_nextBase c.1 ->
    forall f, os_files c.2 !! active_file c.1 = Some f ->
    exists f', os_files c'.2 !! active_file c'.1 = Some f' /\ (f_mtime f <= f_mtime f' \/ os_now c.2 <= f_mtime f') }.

Lemma shows_active c L : part_shows c L -> is_Some (os_files c.2 !! active_file c.1) /\ 0 <= ps_nextBase c.1.
Proof.
  intros [(L0 & Hok & _) _ _ _ _ _]. destruct (po_active _ _ _ Hok) as (Hs & _). unfold active_file.
  destruct (po_base _ _ _ Hok) as [_ ->]. rewrite <- (po_seg _ _ _ Hok).
  split; [apply (bo_file _ _ _ _ (so_bw _ _ _ Hs))|apply Hok].
Qed.

(** *** Appends, reads and flushes *)

Definition part_call (op : part_op) : stio PartitionStore part_res := fun x =>
  let '(r, x) := part_step op x in (Ok r, x).

Definition plog_call (op : part_op) : st plog part_res := fun L =>
  let '(r, L) := plog_step max op L in (Ok r, L).

Lemma no_later_confined ps o ps' o' :
  no_later ps o -> ps_dir ps' = ps_dir ps -> ps_dir ps <> [] -> 0 <= ps_nextBase ps <= ps_nextBase ps' ->
  confined (ps_dir ps) (ps_nextBase ps) (ps_nextBase ps') o o' -> no_later ps' o'.
Proof.
  intros Hn Hd Hne Hb Hc q f b Hq Hpar Hb0 Hbase. rewrite Hd in *.
  destruct (decide (ps_nextBase ps <= b <= ps_nextBase ps' /\ q = segment_name (ps_dir ps) b)) as [[? ->]|Hno]; [split; [lia|done]|].
  rewrite Hc in Hq; [destruct (Hn q f b Hq Hpar Hb0 Hbase); split; [lia|done]|].
  intros b' Hb' [->|[->|[]%elem_of_nil]%elem_of_cons]%elem_of_cons.
  - unfold segment_name in Hbase. rewrite Base_Join in Hbase by (apply simple_segment_name; lia).
    apply app_inv_tail, fmt_020d_inj in Hbase; [|lia..]. subst b'. by apply Hno.
  - unfold index_name in Hbase. rewrite Base_Join in Hbase by (apply simple_index_name; lia). by apply log_index_suffix in Hbase.
Qed.

(** A call on the partition, as the log has it. *)
Lemma step_call ps o L op :
  part_shows (ps, o) L -> wf_part_op op -> pl_end L + op_bytes op < 2 ^ 62 ->
  exists ps' o', part_call op (ps, o) = (Ok (plog_step max op L).1, (ps', o')) /\
    part_shows (ps', o') (plog_step max op L).2 /\ part_moves (ps, o) (ps', o').
Proof.
  intros Hsh Hop Hz. pose proof (shows_active _ _ Hsh) as [_ Hb0].
  destruct Hsh as [(L0 & Hok & Heq) [Hm Hmax] Hdir Hlater Hdirs Htime]. cbn [fst snd] in *. rewrite <- Heq in Hz.
  pose proof (part_step_refines ps o L0 op Hok ltac:(by rewrite Hm) Hop Hz) as Hr.
  pose proof (part_step_confined ps o L0 op Hok ltac:(by rewrite Hm) Hop Hz) as Hc.
  pose proof (part_step_grows op ps o) as Hg. unfold part_call.
  destruct (part_step op (ps, o)) as [r [ps' o']]. cbn [fst snd] in *. rewrite Hm in Hr.
  destruct Hr as (-> & Hcfg & Hd & Hw & Hok'). destruct Hc as [Hle Hc].
  assert (Hstep : (plog_step max op L0).1 = (plog_step max op L).1 /\ (plog_step max op L0).2 ≡ (plog_step max op L).2).
  { destruct op as [p|off n|]; cbn [plog_step].
    - destruct (plog_append_equiv max p L0 L Heq) as [E1 E2].
      destruct (plog_append max p L0), (plog_append max p L). cbn [fst snd] in *. by subst.
    - pose proof Heq as [_ Ha]. unfold plog_read. cbn [fst snd]. by rewrite Ha.
    - done. }
  destruct Hstep as [-> HL]. eexists ps', o'. split; [done|].
  assert (Hlater' : no_later ps' o') by by eapply no_later_confined.
  assert (Hsh' : part_shows (ps', o') (plog_step max op L).2).
  { constructor; cbn [fst snd]; [by exists (plog_step max op L0).2|by rewrite Hcfg|by rewrite Hd|done| |by rewrite (gr_now _ _ Hg)].
    unfold no_segment_dirs. by rewrite Hd, (wi_dirs _ _ _ Hw). }
  split; [done|]. destruct (shows_active _ _ Hsh') as [[f' Hf'] _]. cbn [fst snd] in *.
  constructor; cbn [fst snd]; [done|done|by rewrite (gr_now _ _ Hg)|intros Hlt|intros E f Hf].
  - exists f'. split; [done|]. destruct (gr_mtime _ _ Hg _ _ Hf') as [->|(f & Hf & _)]; [lia|].
    destruct (Hlater _ f (ps_nextBase ps') Hf) as [? _]; [..|lia]; unfold active_file, segment_name; rewrite ?Hd.
    + by apply parent_Join; [apply simple_segment_name; lia|].
    + lia.
    + apply Base_Join, simple_segment_name. lia.
  - exists f'. split; [done|]. assert (Ea : active_file ps' = active_file ps) by (unfold active_file; by rewrite Hd, E).
    destruct (gr_mtime _ _ Hg _ _ Hf') as [->|(f2 & Hf2 & Hmt)]; [right; lia|]. left. rewrite Ea in Hf2. simplify_eq. lia.
Qed.

(** *** Calls that remove or look *)

(** Files of the directory go that are not the active segment's. *)
Lemma step_deletes ps o L del o' :
  part_shows (ps, o) L -> deletes del o o' ->
  (forall q, del q -> exists name, simple_name name /\ q = Join (ps_dir ps) name) ->
  ~ del (active_file ps) -> ~ del (index_name (ps_dir ps) (ps_nextBase ps)) ->
  part_shows (ps, o') L /\ part_moves (ps, o) (ps, o').
Proof.
  intros [(L0 & Hok & Heq) Hm Hdir Hlater Hdirs Htime] D Hdel Na Ni. cbn [fst snd] in *.
  destruct (po_base _ _ _ Hok) as [_ Hnb]. unfold active_file in Na. rewrite Hnb in *.
  pose proof (part_ok_deletes _ _ _ _ _ Hok Hdir D Hdel Na Ni) as Hok'.
  split; constructor; cbn [fst snd]; try done.
  - eexists. split; [exact Hok'|]. etrans; [|exact Heq]. by split.
  - intros q f b Hq. destruct (dl_files _ _ _ D q) as [Eq|[Eq _]]; rewrite Eq in Hq; [by apply Hlater with f|done].
  - intros q b Hq. by apply Hdirs, (dl_dirs _ _ _ D).
  - by rewrite (dl_now _ _ _ D).
  - by rewrite (dl_now _ _ _ D).
  - lia.
  - intros _ f Hf. exists f. split; [|by left]. destruct (dl_files _ _ _ D (active_file ps)) as [->|[_ E']]; [done|].
    unfold active_file in E'. by rewrite Hnb in E'.
Qed.

Lemma step_quiet ps o L o' : part_shows (ps, o) L -> quiet o o' -> part_shows (ps, o') L /\ part_moves (ps, o) (ps, o').
Proof. intros Hsh Hq. by apply (step_deletes ps o L (fun _ => False)); [|apply quiet_deletes| |auto..]. Qed.

Lemma os_Remove_outcome path o : exists y o', try_st (os_Remove path) o = (Ok y, o') /\ deletes (fun q => q = path) o o'.
Proof.
  unfold try_st. destruct (os_Remove path o) as [r o'] eqn:E. pose proof E as [D _]%os_Remove_effect.
  unfold os_Remove in E. destruct (sys o) as [[k|] o1]; [simplify_eq; by do 2 eexists|].
  destruct (os_files o1 !! path); [simplify_eq; by do 2 eexists|].
  case_decide; [case_decide|]; simplify_eq; by do 2 eexists.
Qed.

Lemma try_on_os {S A} (m : st os A) (s : S) o y o' :
  try_st m o = (Ok y, o') -> try_st (on_os m) (s, o) = (Ok y, (s, o')).
Proof. unfold try_st, on_os. destruct (m o) as [[a|e|e] o1]; [| |done]; by intros [= <- <-]. Qed.

Lemma step_remove ps o L dir name :
  part_shows (ps, o) L -> ps_dir ps = dir -> simple_name name ->
  Join dir name <> active_file ps -> Join dir name <> index_name dir (ps_nextBase ps) ->
  exists y o', try_st (on_os (os_Remove (Join dir name))) (ps, o) = (Ok y, (ps, o')) /\
    part_shows (ps, o') L /\ part_moves (ps, o) (ps, o').
Proof.
  intros Hsh <- Hs Na Ni. destruct (os_Remove_outcome (Join (ps_dir ps) name) o) as (y & o' & E & D). exists y, o'.
  split; [by apply try_on_os|]. eapply step_deletes; [done|exact D|intros q ->; by exists name|by intros ?..].
Qed.

(** *** The sweep *)

Definition log_fits (n : Z) (L : plog) : Prop := pl_end L + n < 2 ^ 62.

Lemma log_fits_weaken n m L : n <= m -> log_fits m L -> log_fits n L.
Proof. unfold log_fits. lia. Qed.

(** A program that the log does not see. *)
Definition unseen {R} (I : part -> Prop) (p : prog part R) : Prop :=
  sim part_shows part_moves log_fits (fun _ _ => True) I 0 p (PRet tt).

Lemma unseen_weaken {R} (I J : part -> Prop) (p : prog part R) : unseen I p -> (forall c, J c -> I c) -> unseen J p.
Proof. intros Hp HJ. by apply (sim_weaken _ _ _ _ log_fits_weaken _ I J 0 0). Qed.

Lemma unseen_bind {R T} (I F : part -> Prop) (p : prog part R) (k : R -> prog part T) :
  unseen I p -> stable part_moves F -> (forall r, unseen F (k r)) -> unseen (fun c => I c /\ F c) (pbind p k).
Proof.
  intros Hp HF Hk. apply (sim_bind_frame _ _ _ log_fits_weaken _ _ F _ I 0 0 (PRet tt) k (fun _ => PRet tt) Hp); [done..|].
  intros r r' _. apply Hk.
Qed.

(** A sweep that saw [base0] active: a segment that has become active since
    has a file that is younger than the run. *)
Record since (base0 : Z) (dir : gostring) (c : part) : Prop := {
  sc_dir : ps_dir c.1 = dir;
  sc_base : base0 <= ps_nextBase c.1;
  sc_now : start <= os_now c.2;
  sc_new : base0 < ps_nextBase c.1 -> exists f, os_files c.2 !! active_file c.1 = Some f /\ start <= f_mtime f }.

(** The entry was not listed from a later segment, and is not the active
    segment's unless the sweep knows it or finds it young. *)
Definition spares (base0 cutoff : Z) (e : dirent) (c : part) : Prop :=
  forall b, 0 <= b -> de_name e = fmt_020d b ++ gos ".log" ->
    b <= ps_nextBase c.1 /\ (b = ps_nextBase c.1 -> b = base0 \/ cutoff < de_mtime e).

(** The entry is not the active segment's, nor of one to come. *)
Definition doomed (dir : gostring) (e : dirent) (c : part) : Prop :=
  ps_dir c.1 = dir /\ forall b, 0 <= b -> de_name e = fmt_020d b ++ gos ".log" -> b < ps_nextBase c.1.

Lemma since_stable base0 dir : stable part_moves (since base0 dir).
Proof.
  intros c c' [Hd Hb Hn Hnew Hsame] [Sd Sb Sn Snew]. constructor; [congruence|lia|lia|]. intros Hlt.
  destruct (decide (ps_nextBase c'.1 = ps_nextBase c.1)) as [E|Hne].
  - destruct Snew as (f & Hf & Hm); [lia|]. destruct (Hsame E f Hf) as (f' & Hf' & Hm'). exists f'. split; [done|lia].
  - destruct Hnew as (f & Hf & Hm); [lia|]. exists f. split; [done|lia].
Qed.

Lemma spares_stable base0 cutoff e : stable part_moves (spares base0 cutoff e).
Proof.
  intros c c' [_ Hb _ _ _] Hs b Hb0 Hn. destruct (Hs b Hb0 Hn) as [? Hy]. split; [lia|]. intros ->. apply Hy. lia.
Qed.

Lemma spared_stable base0 dir cutoff es :
  stable part_moves (fun c => since base0 dir c /\ Forall (fun e => spares base0 cutoff e c) es).
Proof.
  intros c c' Hmv [Hs Hes]. split; [by eapply since_stable|]. eapply Forall_impl; [exact Hes|]. intros e ?.
  by eapply spares_stable.
Qed.

Lemma doomed_stable dir e : stable part_moves (doomed dir e).
Proof. intros c c' [Hd Hb _ _ _] [? Hy]. split; [congruence|]. intros b Hb0 Hn. specialize (Hy b Hb0 Hn). lia. Qed.

(** [e.Info()]: an entry that is expired is not the active segment's. *)
Lemma step_info base0 cutoff dir e ps o L :
  part_shows (ps, o) L -> cutoff < start -> since base0 dir (ps, o) -> spares base0 cutoff e (ps, o) ->
  exists y o', try_st (on_os (entry_Info late dir e)) (ps, o) = (Ok y, (ps, o')) /\ quiet o o' /\
    forall mtime, y = inl mtime -> mtime <= cutoff -> de_name e <> fmt_020d base0 ++ gos ".log" -> doomed dir e (ps, o').
Proof.
  intros Hsh Hcut [Sd Sb Sn Snew] Hsp. apply shows_active in Hsh as [_ Hpos]. cbn [fst snd] in *.
  assert (Hkey : forall mtime o', mtime <= cutoff -> de_name e <> fmt_020d base0 ++ gos ".log" ->
    (base0 < ps_nextBase ps -> de_name e = fmt_020d (ps_nextBase ps) ++ gos ".log" -> cutoff < mtime) -> doomed dir e (ps, o')).
  { intros mtime o' Hm Hne Hy. split; [done|]. intros b Hb Hn. destruct (Hsp b Hb Hn) as [Hle _]. cbn [fst] in *.
    destruct (decide (b = ps_nextBase ps)) as [->|]; [|lia]. assert (ps_nextBase ps <> base0) by congruence.
    specialize (Hy ltac:(lia) Hn). lia. }
  assert (Hfile : forall o1, quiet o o1 -> base0 < ps_nextBase ps -> de_name e = fmt_020d (ps_nextBase ps) ++ gos ".log" ->
    exists f, os_files o1 !! Join dir (de_name e) = Some f /\ cutoff < f_mtime f).
  { intros o1 Hq Hlt ->. destruct (Snew Hlt) as (f0 & Hf0 & Hm0). exists f0. rewrite (q_files _ _ Hq), <- Sd. split; [done|lia]. }
  unfold entry_Info, try_st, on_os. destruct late; unfold lstat, dirent_Info;
    (destruct (sys o) as [f o1] eqn:E; apply sys_quiet in E as [Hq _]; specialize (Hfile o1 Hq); destruct f as [k|]; [by do 2 eexists|]).
  - destruct (os_files o1 !! Join dir (de_name e)) as [f|] eqn:Ef; [|case_decide]; (do 2 eexists; split; [done|]); (split; [done|]);
      intros ? [= <-] Hm Hne; (eapply Hkey; [done..|]); intros Hlt Hn; destruct (Hfile Hlt Hn) as (? & ? & ?); by simplify_eq.
  - do 2 eexists. split; [done|]. split; [done|]. intros ? [= <-] Hm Hne. eapply Hkey; [done..|]. intros Hlt Hn.
    destruct (Hsp _ Hpos Hn) as [_ [?|?]]; [done|lia|done].
Qed.

Lemma doomed_paths dir e ps o L :
  part_shows (ps, o) L -> doomed dir e (ps, o) -> simple_name (de_name e) -> HasSuffix (de_name e) (gos ".log") = true ->
  let index := TrimSuffix (de_name e) (gos ".log") ++ gos ".index" in
  simple_name index /\
  Join dir (de_name e) <> active_file ps /\ Join dir (de_name e) <> index_name dir (ps_nextBase ps) /\
  Join dir index <> active_file ps /\ Join dir index <> index_name dir (ps_nextBase ps).
Proof.
  intros Hsh [Hd Hlt] Hs Hsuf index. apply shows_active in Hsh as [_ Hpos]. cbn [fst] in *.
  pose proof (TrimSuffix_app _ _ Hsuf) as Et. set (stem := TrimSuffix (de_name e) (gos ".log")) in *.
  assert (Hne : stem <> fmt_020d (ps_nextBase ps)).
  { intros E. specialize (Hlt (ps_nextBase ps) Hpos). rewrite <- E, Et in Hlt. by specialize (Hlt eq_refl); lia. }
  rewrite <- Et in Hs |- *. pose proof (simple_log_index _ Hs) as Hi. unfold index, active_file, segment_name, index_name. rewrite Hd.
  pose proof (simple_segment_name _ Hpos) as Hsn. pose proof (simple_index_name _ Hpos) as Hin.
  split_and!; [done|..]; intros E%Join_inj; try done.
  - by apply app_inv_tail in E.
  - symmetry in E. by apply log_index_suffix in E.
  - by apply log_index_suffix in E.
  - by apply app_inv_tail in E.
Qed.

Lemma sweep_entry base0 dir cutoff e :
  cutoff < start -> (exists p, de_name e = Base p) ->
  unseen (fun c => since base0 dir c /\ spares base0 cutoff e c)
    (clean_entry_program late dir (fmt_020d base0 ++ gos ".log") cutoff e).
Proof.
  intros Hcut [p Hp]. unfold unseen, clean_entry_program. cbv zeta.
  destruct (HasSuffix (de_name e) (gos ".log")) eqn:Hsuf; cbn [negb orb]; [|by apply sim_ret].
  case_bool_decide as Hne; [by apply sim_ret|].
  assert (Hs : simple_name (de_name e)) by (rewrite Hp in *; eapply simple_Base; [exact Hsuf|simpl; lia]).
  apply sim_quiet; [done|]. intros [ps o] L Hsh [Hsince Hsp] _.
  destruct (step_info _ _ _ _ _ _ _ Hsh Hcut Hsince Hsp) as (y & o1 & E & Hq & Hdoom).
  destruct (step_quiet _ _ _ _ Hsh Hq) as [Hsh1 Hmv1].
  exists y, (ps, o1). destruct y as [mtime|err]; [|exists (fun _ => True); split_and!; try done; by apply sim_ret].
  destruct (Z.ltb_spec cutoff mtime) as [?|Hm]; [exists (fun _ => True); split_and!; try done; by apply sim_ret|].
  exists (doomed dir e). split_and!; [done..|apply doomed_stable|by eapply Hdoom|].
  apply sim_quiet; [done|]. intros [ps2 o2] L2 Hsh2 Hd2 _. pose proof Hd2 as [Ed _].
  destruct (doomed_paths _ _ _ _ _ Hsh2 Hd2 Hs Hsuf) as (_ & N1 & N2 & _).
  destruct (step_remove _ _ _ _ _ Hsh2 Ed Hs N1 N2) as (y2 & o3 & E2 & Hsh3 & Hmv3).
  exists y2, (ps2, o3), (doomed dir e). split_and!; [done..|apply doomed_stable|by eapply doomed_stable|].
  destruct (negb (gone y2)); [by apply sim_ret|]. cbv zeta.
  apply sim_quiet; [done|]. intros [ps4 o4] L4 Hsh4 Hd4 _. pose proof Hd4 as [Ed' _].
  destruct (doomed_paths _ _ _ _ _ Hsh4 Hd4 Hs Hsuf) as (Hsi & _ & _ & N3 & N4).
  destruct (step_remove _ _ _ _ _ Hsh4 Ed' Hsi N3 N4) as (y5 & o5 & E5 & Hsh5 & Hmv5).
  exists y5, (ps4, o5), (fun _ => True). split_and!; try done. by apply sim_ret.
Qed.

Lemma sweep_entries base0 dir cutoff es n :
  cutoff < start -> Forall (fun e => exists p, de_name e = Base p) es ->
  unseen (fun c => since base0 dir c /\ Forall (fun e => spares base0 cutoff e c) es)
    (clean_entries_program late dir (fmt_020d base0 ++ gos ".log") cutoff es n).
Proof.
  intros Hcut Hes. revert n. induction Hes as [|e es He _ IH]; intros n; [by apply sim_ret|].
  cbn [clean_entries_program]. eapply unseen_weaken.
  - eapply (unseen_bind _ (fun c => since base0 dir c /\ Forall (fun e => spares base0 cutoff e c) es));
      [by apply sweep_entry| |intros d; apply IH].
    apply spared_stable.
  - intros c [? Hall]. by inversion Hall.
Qed.

(** [os.ReadDir]: what the directory lists of the active segment. *)
Lemma dir_entries_spared base0 cutoff ps o L :
  part_shows (ps, o) L -> cutoff < start -> since base0 (ps_dir ps) (ps, o) ->
  Forall (fun e => (exists p, de_name e = Base p) /\ spares base0 cutoff e (ps, o)) (dir_entries (Clean (ps_dir ps)) o).
Proof.
  intros Hsh Hcut [_ Sb _ Snew]. destruct Hsh as [_ _ Hne Hlater Hdirs _]. cbn [fst snd] in *.
  apply Forall_forall. intros e He. split; [by eapply dir_entry_Base|]. intros b Hb Hn. cbn [fst].
  unfold dir_entries in He. apply elem_of_app in He as [He|He]; apply list_elem_of_fmap in He as (x & -> & Hx).
  - destruct x as [q f]. apply list_elem_of_filter in Hx as [Hpar Hx%elem_of_map_to_list]. cbn [de_name de_mtime fst snd] in *.
    destruct (Hlater q f b Hx Hpar Hb Hn) as [Hle ->]. split; [done|]. intros ->.
    destruct (decide (ps_nextBase ps = base0)); [by left|]. right.
    destruct Snew as (f' & Hf' & Hm); [lia|]. unfold active_file in Hf'. simplify_eq. lia.
  - apply list_elem_of_filter in Hx as [[Hpar _] Hx%elem_of_elements]. by destruct (Hdirs x b Hx Hpar).
Qed.

Lemma moves_refl c L : part_shows c L -> part_moves c c.
Proof. intros Hsh. constructor; [done|lia|lia|lia|]. intros _ f Hf. exists f. split; [done|by left]. Qed.

Lemma step_readdir base0 cutoff dir ps o L :
  part_shows (ps, o) L -> cutoff < start -> since base0 dir (ps, o) ->
  exists es o', try_st (on_os (os_ReadDir dir)) (ps, o) = (Ok (inl es), (ps, o')) /\ quiet o o' /\
    Forall (fun e => exists p, de_name e = Base p) es /\ Forall (fun e => spares base0 cutoff e (ps, o')) es.
Proof.
  intros Hsh Hcut Hs. pose proof (sc_dir _ _ _ Hs) as Hd. cbn [fst] in Hd. subst dir.
  pose proof (dir_entries_spared _ _ _ _ _ Hsh Hcut Hs) as [H1 H2]%Forall_and.
  destruct (sh_ok _ _ Hsh) as (L0 & Hok & _). cbn [fst snd] in Hok.
  pose proof (part_ok_dir _ _ _ Hok (sh_dir _ _ Hsh)) as Hdir. destruct (po_active _ _ _ Hok) as (_ & _ & Hf).
  unfold try_st, on_os, os_ReadDir. sys_case o f o1 Hq Hn. destruct f as [k|]; [by destruct Hn|].
  cbv zeta. rewrite decide_True by by rewrite (q_dirs _ _ Hq).
  assert (Ee : dir_entries (Clean (ps_dir ps)) o1 = dir_entries (Clean (ps_dir ps)) o).
  { unfold dir_entries. destruct Hq as [-> -> Et _ _]. by rewrite Et. }
  rewrite Ee. do 2 eexists. split; [done|]. by rewrite !merge_sort_Permutation.
Qed.

Lemma sweep_sim : unseen (fun _ => True) (clean_program late retention).
Proof.
  unfold unseen, clean_program. apply sim_quiet; [done|]. intros [ps o] L Hsh _ _.
  pose proof (sh_time _ _ Hsh) as Ht. destruct (sh_ok _ _ Hsh) as (L0 & Hok & _). cbn [fst snd] in *.
  assert (Hbase : Segment_BaseOffset (ps_active ps) = ps_nextBase ps) by (destruct (po_base _ _ _ Hok) as [? ->]; done).
  exists (inl ps), (ps, o), (since (ps_nextBase ps) (ps_dir ps)).
  split_and!; [done|done|by eapply moves_refl|apply since_stable|by constructor; cbn [fst snd]; try lia|].
  cbv zeta. rewrite Hbase. apply sim_quiet; [done|]. intros [ps1 o1] L1 Hsh1 Hs1 _.
  exists (inl (os_now o1)), (ps1, o1), (since (ps_nextBase ps) (ps_dir ps)).
  split_and!; [done|done|by eapply moves_refl|apply since_stable|done|]. cbv zeta.
  pose proof (sh_time _ _ Hsh1) as Ht1. cbn [snd] in Ht1.
  apply sim_quiet; [done|]. intros [ps2 o2] L2 Hsh2 Hs2 _.
  destruct (step_readdir _ (os_now o1 - retention) _ _ _ _ Hsh2 ltac:(lia) Hs2) as (es & o3 & E & Hq & Hes & Hsp).
  destruct (step_quiet _ _ _ _ Hsh2 Hq) as [Hsh3 Hmv3].
  exists (inl es), (ps2, o3), (fun c => since (ps_nextBase ps) (ps_dir ps) c /\ Forall (fun e => spares (ps_nextBase ps) (os_now o1 - retention) e c) es).
  split_and!; [done|done|done|apply spared_stable|by eapply since_stable|done|by apply sweep_entries; [lia|]].
Qed.

(** *** Threads *)

Inductive thread := Client (ops : list part_op) | Sweep | Clock (times : list Z).

(** The clock reads [t], or later already. *)
Definition advance (t : Z) : stio PartitionStore unit := fun '(ps, o) =>
  (Ok tt, (ps, OS (os_files o) (os_dirs o) (os_dirtime o) (Z.max (os_now o) t) (os_faults o))).

Definition thread_program (t : thread) : prog part (list part_res) :=
  match t with
  | Client ops => pmap (fun op => pcall (part_call op) PRet) ops
  | Sweep => pbind (clean_program late retention) (fun _ => PRet [])
  | Clock times => pbind (pmap (fun t => pcall (advance t) PRet) times) (fun _ => PRet [])
  end.

(** On the log only the clients' calls happen. *)
Definition thread_spec (t : thread) : prog plog (list part_res) :=
  match t with Client ops => pmap (fun op => pcall (plog_call op) PRet) ops | _ => PRet [] end.

Definition wf_thread (t : thread) : Prop :=
  match t with
  | Client ops => Forall wf_part_op ops
  | Sweep => True
  | Clock times => Forall (fun t => t < start + retention) times
  end.

Definition thread_bytes (t : thread) : Z :=
  match t with Client ops => foldr (fun op n => op_bytes op + n) 0 ops | _ => 0 end.

Definition total_bytes (threads : list thread) : Z := foldr (fun t n => thread_bytes t + n) 0 threads.

Lemma step_advance ps o L t :
  part_shows (ps, o) L -> t < start + retention ->
  exists o', advance t (ps, o) = (Ok tt, (ps, o')) /\ part_shows (ps, o') L /\ part_moves (ps, o) (ps, o').
Proof.
  intros [(L0 & Hok & Heq) Hm Hdir Hlater Hdirs Htime] Ht. cbn [fst snd] in *. eexists. split; [done|].
  split; constructor; cbn [fst snd os_now os_files os_dirs]; try done; try lia.
  - exists L0. split; [|done]. by apply (part_ok_frame ps o).
  - intros _ f Hf. exists f. split; [done|by left].
Qed.

Lemma thread_sims t :
  wf_thread t -> sim part_shows part_moves log_fits (Forall2 eq) (fun _ => True) (thread_bytes t) (thread_program t) (thread_spec t).
Proof.
  assert (Hquiet : forall R (p : prog part R), unseen (fun _ => True) p ->
    sim part_shows part_moves log_fits (Forall2 eq) (fun _ => True) 0 (pbind p (fun _ => PRet [])) (PRet (@nil part_res))).
  { intros R p Hp. apply (sim_bind _ _ _ log_fits_weaken _ _ _ _ 0 0 _ _ (fun _ => PRet []) Hp); [done|].
    intros _ _ _. by apply sim_ret. }
  destruct t as [ops| |times]; intros Hwf; cbn [wf_thread thread_bytes thread_program thread_spec] in *.
  - apply (sim_pmap _ _ _ log_fits_weaken). eapply Forall_impl; [exact Hwf|]. intros op Hop.
    rewrite <- (Z.add_0_r (op_bytes op)). apply sim_atomic; [destruct op; cbn; lia || apply zlen_nonneg|done|].
    intros [ps o] L Hsh _ Hf. unfold log_fits in Hf. rewrite Z.add_0_r in Hf.
    destruct (step_call ps o L op Hsh Hop Hf) as (ps' & o' & E & Hsh' & Hmv).
    exists (inl (plog_step max op L).1), (ps', o'), (inl (plog_step max op L).1), (plog_step max op L).2, (fun _ => True).
    split_and!; try done.
    + unfold try_st. by rewrite E.
    + unfold try_st, plog_call. by destruct (plog_step max op L).
    + unfold log_fits. intros N _ HN. pose proof (plog_step_end max op L). lia.
    + by apply sim_ret.
  - apply Hquiet, sweep_sim.
  - apply Hquiet. induction Hwf as [|t times Ht _ IH]; [by apply sim_ret|]. cbn [pmap].
    apply sim_quiet; [done|]. intros [ps o] L Hsh _ _. destruct (step_advance _ _ _ _ Hsh Ht) as (o' & E & Hsh' & Hmv).
    exists (inl tt), (ps, o'), (fun _ => True). split_and!; try done; [unfold try_st; by rewrite E|].
    cbn [pbind]. eapply unseen_weaken; [eapply (unseen_bind _ (fun _ => True)); [exact IH|done|]|done]. intros. by apply sim_ret.
Qed.

(** The pools agree at the start. *)
Lemma threads_sim threads c L :
  part_shows c L -> Forall wf_thread threads -> log_fits (total_bytes threads) L ->
  pool_sim part_shows part_moves log_fits (Forall2 eq) (thread_program <$> threads, c) (thread_spec <$> threads, L).
Proof.
  intros Hsh Hwf Hf. exists ((fun t => (thread_spec t, thread_bytes t)) <$> threads). cbn [fst snd]. split_and!; [|clear Hf|done|].
  - rewrite <- list_fmap_compose. done.
  - induction Hwf as [|t threads Ht _ IH]; cbn; constructor; [|done]. exists (fun _ => True). split_and!; [done..|]. by apply thread_sims.
  - replace (needs _) with (total_bytes threads); [done|]. clear. unfold needs, total_bytes.
    induction threads as [|t threads IH]; cbn [fmap list_fmap foldr]; [done|]. by rewrite IH.
Qed.
End race.

(** ** The theorem *)

(** C16: In any interleaving of the calls of appending, reading and flushing
    clients with the unlocked steps of sweeps of the cleaner, during less than
    a retention period, every client gets what the log alone would have given
    it in some order of the same calls, the active segment stays intact, and no
    thread fails: where no step is possible all have returned. *)
Theorem sweeps_spare_rollover late retention start max threads c L ts c' :
  part_shows retention start max c L -> Forall (wf_thread retention start) threads ->
  pl_end L + total_bytes threads < 2 ^ 62 ->
  rtc psteps (thread_program late retention <$> threads, c) (ts, c') ->
  (exists us L', rtc psteps (thread_spec max <$> threads, L) (us, L') /\ part_shows retention start max c' L' /\
    forall i r, ts !! i = Some (PRet r) -> us !! i = Some (PRet r)) /\
  (nf psteps (ts, c') -> Forall (fun p => exists r, p = PRet r) ts).
Proof.
  intros Hsh Hwf Hf Hr. pose proof (threads_sim late retention start max threads c L Hsh Hwf Hf) as Hs.
  destruct (pool_simulation _ _ _ _ (log_fits_weaken) _ _ _ Hs Hr) as ([us L'] & Hr' & Hs').
  split; [|by eapply pool_progress; [apply log_fits_weaken|exact Hs']].
  exists us, L'. split_and!; [done|by destruct Hs' as (? & _ & _ & ? & _)|]. intros i r Hi.
  destruct (pool_results _ _ _ _ _ _ _ _ _ _ Hs' Hi) as (r' & Hu & Ha). apply Forall2_eq in Ha. by subst.
Qed.

(** ** Instances *)

Definition race_threads : list thread := [Client [PAppend (gos "abcdefgh"); PAppend (gos "ijklmnop"); PRead 0 12]; Sweep; Clock [150]].

(** The sweep learns the active segment, the client's second append rolls
    over, and the sweep goes on. *)
Definition race_run : option (list (prog part (list part_res)) * part) :=
  prun [1; 0; 0; 2; 1; 1; 1; 0]%nat (thread_program true 1000 <$> race_threads, sample_part).

Lemma sample_part_shows : part_shows 1000 100 16 sample_part (PLog [] 0 []).
Proof.
  destruct sample_part_opened as (Hok & Hc & Hd). constructor.
  - by exists (PLog [] 0 []).
  - by rewrite Hc.
  - by rewrite Hd.
  - intros q f b Hq%elem_of_dom_2 _ Hb Hbase. revert Hq Hbase.
    replace (dom (os_files sample_part.2)) with ({[segment_name (gos "/d") 0; index_name (gos "/d") 0]} : gset gostring) by concrete.
    rewrite Hd, elem_of_union, !elem_of_singleton. intros [->| ->].
    + unfold segment_name. rewrite Base_Join by by apply simple_segment_name. intros E%app_inv_tail%fmt_020d_inj; [|done..].
      by subst.
    + unfold index_name. rewrite Base_Join by by apply simple_index_name. by intros E%log_index_suffix.
  - intros q b Hq Hpar. revert Hq Hpar. rewrite Hd.
    replace (os_dirs sample_part.2) with ({[gos "/d"; gos "/"]} : gset gostring) by concrete. set_unfold.
    intros [->| ->]; [|]; vm_compute; congruence.
  - split; concrete.
Qed.

Lemma sweeps_spare_rollover_witness :
  exists ts c', race_run = Some (ts, c') /\
    (exists us L', rtc psteps (thread_spec 16 <$> race_threads, PLog [] 0 []) (us, L') /\
      part_shows 1000 100 16 c' L' /\ forall i r, ts !! i = Some (PRet r) -> us !! i = Some (PRet r)) /\
    (nf psteps (ts, c') -> Forall (fun p => exists r, p = PRet r) ts).
Proof.
  assert (is_Some race_run) as [[ts c'] E] by concrete. exists ts, c'. split; [done|].
  apply (sweeps_spare_rollover true 1000 100 16 race_threads sample_part (PLog [] 0 []) ts c' sample_part_shows);
    [repeat constructor; concrete|concrete|by eapply prun_reaches].
Defined.

(** When a retention period passes between the snapshot and [time.Now()], the
    sweep deletes the file of the segment that became active in between,
    although the comment says that the active segment is never touched. *)
Theorem stale_snapshot_deletes_active :
  match prun [1; 0; 0; 2; 1; 1; 1; 1; 1]%nat (thread_program false 1000 <$> [Client [PAppend (gos "abcdefgh"); PAppend (gos "ijklmnop")]; Sweep; Clock [1100]], sample_part) with
  | Some (_, (ps, o)) => os_files o !! active_file ps = None /\ ps_nextBase ps = 12
  | None => False
  end.
Proof. vm_compute. by split. Qed.
