(* ===== verification/LogCleaner.v ===== *)
(** * The cleaner goroutine beside the store ([runLogCleaner])

    [OpenBrokerStore] starts the goroutine when a retention period is set; its
    loop waits in a [select] for a tick or for the end of the context. Here it
    lives beside the clients of the store and the clock, as a transition
    system. A sweep is one step; its own steps are in [CleanerRace]. *)

From stdpp Require Import base tactics list numbers gmap strings sorting.
From Stdlib Require Import ZArith Lia.
From S2P Require Import Prelude GoIO GoStrings GoText OSFile LogIndex LogSegment SegmentSpec LogStore.
From S2P Require Import Retention BrokerStore BrokerSpec BrokerRetention AppendOnly.
#[local] Open Scope Z_scope.

(** ** The goroutine *)

Definition cleanerInterval : Z := 5 * Minute.

(** [time.Ticker]: when it fires next, and whether its channel, of capacity
    one, holds a tick. *)
Record ticker := Ticker { tk_next : Z; tk_C : bool }.

Definition NewTicker (now d : Z) : ticker := Ticker (now + d) false.

(** The clock reads [now]: the ticks due are sent, those that find the channel
    full are dropped. *)
Definition tick_at (now d : Z) (t : ticker) : ticker :=
  if now <? tk_next t then t else Ticker (tk_next t + ((now - tk_next t) / d + 1) * d) true.

Definition received (t : ticker) : ticker := Ticker (tk_next t) false.

(** The store with its context and, once started, the goroutine: the ticker
    while it runs, [None] when it was not started or has returned. *)
Record service := Service {
  sv_store : BrokerStore;
  sv_os : os;
  sv_cancelled : bool;
  sv_cleaner : option ticker }.

Definition set_now (now : Z) (o : os) : os :=
  OS (os_files o) (os_dirs o) (os_dirtime o) now (os_faults o).

(** The end of [OpenBrokerStore]: [if cfg.Retention > 0 { go ... }]. *)
Definition start_cleaner (x : BrokerStore * os) : service :=
  let '(bs, o) := x in
  Service bs o false (if 0 <? sc_Retention (bs_cfg bs) then Some (NewTicker (os_now o) cleanerInterval) else None).

Inductive sv_event :=
  | Call (bop : broker_op)   (* a client's call on a partition *)
  | Clock (now : Z)          (* time passes *)
  | Cancel                   (* the context is cancelled *)
  | SelectDone               (* case <-ctx.Done() *)
  | SelectTick.              (* case <-ticker.C *)

Section service.
Context `{MapOrder}.

(** The state after an event and what the client got; [None] when the event
    cannot happen. *)
Definition sv_step (ev : sv_event) (s : service) : option (list (result part_res) * service) :=
  let 'Service bs o cancelled cl := s in
  match ev with
  | Call bop => let '(r, (bs, o)) := broker_step bop (bs, o) in Some ([r], Service bs o cancelled cl)
  | Clock now =>
      if now <? os_now o then None
      else Some ([], Service bs (set_now now o) cancelled (tick_at now cleanerInterval <$> cl))
  | Cancel => Some ([], Service bs o true cl)
  | SelectDone =>
      match cl with
      | Some _ => if cancelled then Some ([], Service bs o cancelled None) else None
      | None => None
      end
  | SelectTick =>
      match cl with
      | Some t =>
          if tk_C t then let '(bs, o) := runLogCleaner_tick (bs, o) in Some ([], Service bs o cancelled (Some (received t)))
          else None
      | None => None
      end
  end.

Fixpoint sv_run (evs : list sv_event) (s : service) : option (list (result part_res) * service) :=
  match evs with
  | [] => Some ([], s)
  | ev :: evs =>
      match sv_step ev s with
      | Some (rs, s) => match sv_run evs s with Some (rs', s) => Some (rs ++ rs', s) | None => None end
      | None => None
      end
  end.
End service.

(** The calls of the clients. *)
Definition calls (evs : list sv_event) : list broker_op :=
  omap (fun ev => match ev with Call bop => Some bop | _ => None end) evs.

(** What they add to the logs at most. *)
Definition bytes_of (bops : list broker_op) : Z := foldr Z.add 0 (op_bytes <$> bops.*2).

Lemma bytes_of_nonneg bops : 0 <= bytes_of bops.
Proof. apply ops_bytes_nonneg. Qed.

Lemma bytes_of_app bops bops' : bytes_of (bops ++ bops') = bytes_of bops + bytes_of bops'.
Proof.
  unfold bytes_of. rewrite !fmap_app, foldr_app. generalize (foldr Z.add 0 (op_bytes <$> bops'.*2)) as z. intros z.
  induction bops as [|bop bops IH]; cbn; lia.
Qed.

(** ** Pruned logs serve the same *)

Lemma pruned_append max p L' L :
  pruned L' L ->
  (plog_append max p L').1 = (plog_append max p L).1 /\ pruned (plog_append max p L').2 (plog_append max p L).2.
Proof.
  intros (Eb & Ea & Hs). unfold plog_append, plog_roll. rewrite Eb, Ea.
  assert (Hs' : pl_closed L' ++ [(pl_base L, pl_active L)] `sublist_of` pl_closed L ++ [(pl_base L, pl_active L)])
    by by apply sublist_app.
  destruct (_ <=? max); [by split_and!|]. destruct (_ =? 0), (_ <=? max); by split_and!.
Qed.

Lemma pruned_step max op L' L :
  pruned L' L ->
  (plog_step max op L').1 = (plog_step max op L).1 /\ pruned (plog_step max op L').2 (plog_step max op L).2.
Proof.
  intros Hp. destruct op as [p|off n|]; cbn [plog_step].
  - destruct (pruned_append max p L' L Hp) as [E P].
    destruct (plog_append max p L'), (plog_append max p L). cbn [fst snd] in *. by subst.
  - split; [|done]. destruct Hp as (_ & Ea & _). unfold plog_read. cbn [fst]. by rewrite Ea.
  - done.
Qed.

Lemma pruned_log_of M' M tp : pruned_logs M' M -> pruned (log_of M' tp) (log_of M tp).
Proof. intros Hp. specialize (Hp tp). unfold log_of. by destruct Hp. Qed.

Lemma pruned_logs_step max bop M' M :
  pruned_logs M' M ->
  (logs_step max bop M').1 = (logs_step max bop M).1 /\ pruned_logs (logs_step max bop M').2 (logs_step max bop M).2.
Proof.
  intros Hp. destruct bop as [tp op]. cbn [logs_step].
  destruct (pruned_step max op _ _ (pruned_log_of M' M tp Hp)) as [E P].
  destruct (plog_step max op (log_of M' tp)) as [r' L'], (plog_step max op (log_of M tp)) as [r L]. cbn [fst snd] in *.
  subst. split; [done|]. intros tp'. destruct (decide (tp = tp')) as [<-|Hne];
    [rewrite !lookup_insert_eq; by constructor|rewrite !lookup_insert_ne by done; apply Hp].
Qed.

(** The broker does not look at the clock. *)
Lemma broker_ok_now bs o M now : broker_ok bs o M -> broker_ok bs (set_now now o) M.
Proof.
  intros [[] ? ? Hp]. constructor; [by constructor|done|done|]. intros t p Hn. specialize (Hp t p Hn).
  unfold partition_ok in *. destruct (bs_stores bs !! _), (M !! _); try done. destruct Hp as (? & ? & ?).
  split_and!; [done..|]. by eapply part_ok_frame.
Qed.

(** ** What clients see *)

Section clients.
Context `{MapOrder}.

Lemma calls_cons ev evs : calls (ev :: evs) = calls [ev] ++ calls evs.
Proof. by destruct ev. Qed.

(** One event, with the logs the clients would see without the cleaner. *)
Lemma sv_step_refines ev s rs s' M' M :
  broker_ok (sv_store s) (sv_os s) M' -> pruned_logs M' M ->
  Forall wf_broker_op (calls [ev]) -> (forall tp, pl_end (log_of M tp) + bytes_of (calls [ev]) < 2 ^ 62) ->
  sv_step ev s = Some (rs, s') ->
  let '(rs0, M1) := run (logs_step (max_size (bs_cfg (sv_store s)))) (calls [ev]) M in
  rs = rs0 /\ bs_cfg (sv_store s') = bs_cfg (sv_store s) /\
  exists M1', broker_ok (sv_store s') (sv_os s') M1' /\ pruned_logs M1' M1.
Proof.
  intros Hbk Hp Hwf Hz. destruct s as [bs o cancelled cl]. cbn [sv_store sv_os] in *.
  destruct ev as [bop|now| | |]; cbn [calls omap list_omap] in *; cbn [sv_step run].
  - apply (Forall_singleton wf_broker_op) in Hwf. cbn in Hz. pose proof (broker_step_refines bs o M' bop Hbk Hwf) as Hst.
    destruct (pruned_logs_step (max_size (bs_cfg bs)) bop M' M Hp) as [E P]. unfold wp in Hst.
    destruct (broker_step bop (bs, o)) as [r [bs1 o1]]. intros [= <- <-].
    destruct (logs_step _ bop M) as [r0 M1]. cbn [fst snd] in *. destruct Hst as (-> & Hc & Hbk1).
    { specialize (Hz bop.1). destruct (pruned_log_of _ _ bop.1 Hp) as (Eb & Ea & _). unfold pl_end in *. rewrite Eb, Ea. lia. }
    subst r0. split_and!; [done|done|]. by eexists.
  - destruct (now <? os_now o); [done|]. intros [= <- <-]. split_and!; [done..|]. exists M'. split; [|done]. by apply broker_ok_now.
  - intros [= <- <-]. split_and!; [done..|]. by exists M'.
  - destruct cl; [|done]. destruct cancelled; [|done]. intros [= <- <-]. split_and!; [done..|]. by exists M'.
  - destruct cl as [t|]; [|done]. destruct (tk_C t); [|done].
    destruct (sweep_preserves_broker bs o M' Hbk) as (o1 & M1' & -> & Hbk1 & P1). intros [= <- <-].
    split_and!; [done..|]. exists M1'. split; [done|by etrans].
Qed.

Lemma run_app {op res S} (step : op -> S -> res * S) ops ops' x :
  run step (ops ++ ops') x =
  (let '(rs, x) := run step ops x in let '(rs', x) := run step ops' x in (rs ++ rs', x)).
Proof.
  revert x. induction ops as [|o ops IH]; intros x; cbn [app run]; [by destruct (run step ops' x)|].
  destruct (step o x) as [r x1]. rewrite IH. destruct (run step ops x1) as [rs x2]. by destruct (run step ops' x2).
Qed.

Lemma run_logs_end max bops M tp :
  pl_end (log_of (run (logs_step max) bops M).2 tp) <= pl_end (log_of M tp) + bytes_of bops.
Proof.
  unfold bytes_of. revert M. induction bops as [|bop bops IH]; intros M; cbn; [lia|].
  pose proof (logs_step_end max bop M tp). destruct (logs_step max bop M) as [r M1]. specialize (IH M1).
  destruct (run (logs_step max) bops M1) as [rs M2]. cbn [fst snd] in *. lia.
Qed.

(** And a run of them. *)
Lemma sv_run_refines evs : forall s rs s' M' M,
  broker_ok (sv_store s) (sv_os s) M' -> pruned_logs M' M -> Forall wf_broker_op (calls evs) ->
  (forall tp, pl_end (log_of M tp) + bytes_of (calls evs) < 2 ^ 62) -> sv_run evs s = Some (rs, s') ->
  let '(rs0, M0) := run (logs_step (max_size (bs_cfg (sv_store s)))) (calls evs) M in
  rs = rs0 /\ exists M', broker_ok (sv_store s') (sv_os s') M' /\ pruned_logs M' M0.
Proof.
  induction evs as [|ev evs IH]; intros s rs s' M' M Hbk Hp Hwf Hz Hr; cbn [sv_run] in Hr.
  { simplify_eq. cbn. split; [done|]. by exists M'. }
  rewrite calls_cons in *. setoid_rewrite bytes_of_app in Hz. apply Forall_app in Hwf as [Hw1 Hw2]. rewrite run_app.
  pose proof (bytes_of_nonneg (calls evs)). pose proof (bytes_of_nonneg (calls [ev])).
  destruct (sv_step ev s) as [[rs1 s1]|] eqn:E1; [|done]. destruct (sv_run evs s1) as [[rs2 s2]|] eqn:E2; [|done]. simplify_eq.
  pose proof (sv_step_refines ev s rs1 s1 M' M Hbk Hp Hw1) as Hst.
  pose proof (run_logs_end (max_size (bs_cfg (sv_store s))) (calls [ev]) M) as Hend.
  destruct (run (logs_step _) (calls [ev]) M) as [rs0 M1]. cbn [snd] in Hend.
  destruct Hst as (-> & Hc & M1' & Hbk1 & P1); [intros tp; specialize (Hz tp); lia|done|].
  specialize (IH s1 rs2 s' M1' M1 Hbk1 P1 Hw2). rewrite Hc in IH. destruct (run (logs_step _) (calls evs) M1) as [rs00 M2].
  destruct IH as (-> & ?); [intros tp; specialize (Hz tp); specialize (Hend tp); lia|done|]. by split.
Qed.

(** C17: Whatever the interleaving of clients' calls, the clock, ticks of the
    log cleaner and the end of its context, the clients get what one
    independent log per topic-partition would give them with no cleaner at
    all, and the store holds these logs but for deleted closed segments. *)
Theorem cleaner_is_invisible bs o M evs rs s :
  broker_ok bs o M -> Forall wf_broker_op (calls evs) ->
  (forall tp, pl_end (log_of M tp) + bytes_of (calls evs) < 2 ^ 62) ->
  sv_run evs (start_cleaner (bs, o)) = Some (rs, s) ->
  let '(rs0, M0) := run (logs_step (max_size (bs_cfg bs))) (calls evs) M in
  rs = rs0 /\ exists M', broker_ok (sv_store s) (sv_os s) M' /\ pruned_logs M' M0.
Proof. intros Hbk Hwf Hz Hr. by apply (sv_run_refines evs (start_cleaner (bs, o)) rs s M M). Qed.
End clients.

(** ** What a tick deletes *)

Section sweeps.
Context `{MapOrder}.

Lemma sweep_partition_deletes tp bs o M :
  broker_ok bs o M -> exists o' M', sweep_partition tp (bs, o) = (bs, o') /\ broker_ok bs o' M' /\ deletes (fun _ => True) o o'.
Proof.
  intros Hbk. destruct (sweep_partition_spec tp bs o M Hbk) as (o' & M' & E & Hbk' & _). exists o', M'. split_and!; [done..|].
  unfold sweep_partition in E. cbn [fst] in E. destruct (bs_stores bs !! _) as [ps|] eqn:Ek; [|by simplify_eq].
  unfold on_partition in E. rewrite Ek in E.
  destruct (CleanOldSegments _ (ps, o)) as [r [ps' o1]] eqn:EC. apply CleanOldSegments_effect in EC as (_ & D & _).
  injection E as _ <-. by eapply deletes_weaken; [|exact D].
Qed.

(** The file of an expired closed segment, once its partition is swept. *)
Lemma sweep_partition_expired t p bs o M ps b f :
  broker_ok bs o M -> nameable t p -> bs_stores bs !! partitionKey t p = Some ps -> 0 <= b -> b <> ps_nextBase ps ->
  os_files o !! segment_name (ps_dir ps) b = Some f -> f_mtime f <= os_now o - sc_Retention (bs_cfg bs) ->
  os_files (sweep_partition (MkTopicPartition t p) (bs, o)).2 !! segment_name (ps_dir ps) b = None.
Proof.
  intros Hbk Hn Ek Hb Hne Hf Hm. pose proof (bk_parts _ _ _ Hbk t p Hn) as Hme. rewrite Ek in Hme.
  destruct (M !! (t, p)) as [L|]; [|done]. destruct Hme as (Hdir & Hcfg & Hok).
  unfold sweep_partition, on_partition. cbn [fst tp_Topic tp_Partition]. rewrite Ek.
  destruct (CleanOldSegments _ (ps, o)) as [r [ps' o1]] eqn:EC. cbn [snd].
  eapply (cleaner_deletes_expired ps o L); [done| |exact EC|done| |exact Hf|done].
  - rewrite Hdir. apply (partitionDir_parent bs t p Hn), (rt_dir _ _ _ (bk_root _ _ _ Hbk)).
  - destruct (po_base _ _ _ Hok) as [_ <-]. done.
Qed.

Lemma sweeps_expired tps : forall t p bs o M ps b f,
  MkTopicPartition t p ∈ tps ->
  broker_ok bs o M -> nameable t p -> bs_stores bs !! partitionKey t p = Some ps -> 0 <= b -> b <> ps_nextBase ps ->
  (os_files o !! segment_name (ps_dir ps) b = Some f \/ os_files o !! segment_name (ps_dir ps) b = None) ->
  f_mtime f <= os_now o - sc_Retention (bs_cfg bs) ->
  os_files (fold_left (fun x tp => sweep_partition tp x) tps (bs, o)).2 !! segment_name (ps_dir ps) b = None.
Proof.
  assert (Hgone : forall tps bs o M q, broker_ok bs o M -> os_files o !! q = None ->
    os_files (fold_left (fun x tp => sweep_partition tp x) tps (bs, o)).2 !! q = None).
  { clear. intros tps. induction tps as [|tp tps IH]; intros bs o M q Hbk Hq; [done|]. cbn [fold_left].
    destruct (sweep_partition_deletes tp bs o M Hbk) as (o1 & M1 & -> & Hbk1 & D). eapply IH; [done|].
    by eapply deletes_gone. }
  induction tps as [|tp tps IH]; intros t p bs o M ps b f Hin Hbk Hn Ek Hb Hne [Hf|Hf] Hm;
    [by apply elem_of_nil in Hin..| |by eapply Hgone].
  destruct (decide (tp = MkTopicPartition t p)) as [->|Hother]; cbn [fold_left].
  - pose proof (sweep_partition_expired _ _ _ _ _ _ _ _ Hbk Hn Ek Hb Hne Hf Hm) as Hdel.
    destruct (sweep_partition_deletes (MkTopicPartition t p) bs o M Hbk) as (o1 & M1 & E & Hbk1 & _). rewrite E in *.
    by eapply Hgone.
  - apply elem_of_cons in Hin as [?|Hin]; [congruence|].
    destruct (sweep_partition_deletes tp bs o M Hbk) as (o1 & M1 & -> & Hbk1 & D).
    eapply IH; [done..| |by rewrite (dl_now _ _ _ D)]. destruct (dl_files _ _ _ D (segment_name (ps_dir ps) b)) as [->|[-> _]]; auto.
Qed.

Lemma tick_ahead now next d : 0 < d -> next <= now -> now < next + ((now - next) / d + 1) * d <= now + d.
Proof.
  intros Hd Hn. pose proof (Z.mod_pos_bound (now - next) d Hd). pose proof (Z.div_mod (now - next) d ltac:(lia)). lia.
Qed.

(** C25: While the cleaner runs, a tick is pending as soon as the clock passes
    the ticker's time, which is never more than five minutes ahead; and the
    sweep it triggers deletes the file of every closed segment of every
    partition that is older than the retention period by then. *)
Theorem expired_segments_go s M tk now :
  broker_ok (sv_store s) (sv_os s) M -> sv_cleaner s = Some tk -> os_now (sv_os s) <= now -> tk_next tk <= now ->
  exists s' tk', sv_run [Clock now; SelectTick] s = Some ([], s') /\ sv_store s' = sv_store s /\
    sv_cleaner s' = Some tk' /\ now < tk_next tk' <= now + cleanerInterval /\
    forall t p ps b f, nameable t p -> bs_stores (sv_store s) !! partitionKey t p = Some ps ->
      0 <= b -> b <> ps_nextBase ps -> os_files (sv_os s) !! segment_name (ps_dir ps) b = Some f ->
      f_mtime f <= now - sc_Retention (bs_cfg (sv_store s)) -> os_files (sv_os s') !! segment_name (ps_dir ps) b = None.
Proof.
  destruct s as [bs o cancelled cl]. cbn [sv_store sv_os sv_cleaner]. intros Hbk -> Hnow Hnext. cbn [sv_run sv_step].
  rewrite (proj2 (Z.ltb_ge _ _) Hnow). cbn [fmap option_fmap option_map]. unfold tick_at. rewrite (proj2 (Z.ltb_ge _ _) Hnext).
  cbn [sv_run sv_step tk_C]. pose proof (broker_ok_now bs o M now Hbk) as Hbk'. set (o1 := set_now now o) in *.
  destruct (sweep_preserves_broker bs o1 M Hbk') as (o2 & M2 & E & _). rewrite E.
  do 2 eexists. split_and!; [done..| | |]; cbn [sv_os tk_next received].
  - by apply tick_ahead.
  - by apply tick_ahead.
  - intros t p ps b f Hn Ek Hb Hne Hf Hm. unfold runLogCleaner_tick in E. cbn [fst] in E.
    change o2 with (bs, o2).2. rewrite <- E. eapply (sweeps_expired _ t p bs o1 M ps b f); [|done..|by left|done].
    rewrite (Topics_perm bs o1 M Hbk'). apply list_elem_of_fmap. exists (t, p). split; [done|].
    pose proof (bk_parts _ _ _ Hbk' t p Hn) as Hme. rewrite Ek in Hme. destruct (M !! (t, p)) as [L|] eqn:EM; [|done].
    apply list_elem_of_fmap. exists ((t, p), L). split; [done|]. by apply elem_of_map_to_list.
Qed.

(** ** No retention *)

Lemma broker_step_grows bop : respects growing (broker_step bop).
Proof.
  destruct bop as [[t p] op]. unfold broker_step. grow. apply on_partition_grows. intros [ps o].
  pose proof (part_step_grows op ps o). by destruct (part_step op (ps, o)).
Qed.
End sweeps.

Section off.
Context `{MapOrder}.

(** Without a retention period no cleaner is started, and nothing the
    clients do removes or shortens a file: each keeps its bytes as a prefix. *)
Theorem no_retention_keeps_files bs o evs rs s :
  sc_Retention (bs_cfg bs) <= 0 -> sv_run evs (start_cleaner (bs, o)) = Some (rs, s) ->
  sv_cleaner s = None /\
  forall q, (is_Some (os_files o !! q) -> is_Some (os_files (sv_os s) !! q)) /\ content q o `prefix_of` content q (sv_os s).
Proof.
  intros Hr. unfold start_cleaner. rewrite (proj2 (Z.ltb_ge _ _) Hr). clear Hr. generalize false as cancelled. intros cancelled.
  revert bs o cancelled rs. induction evs as [|ev evs IH]; intros bs o cancelled rs; cbn [sv_run]; [by intros [= <- <-]|].
  destruct ev as [bop|now| | |]; cbn [sv_step].
  - pose proof (broker_step_grows bop (bs, o)) as Hg. destruct (broker_step bop (bs, o)) as [r [bs1 o1]].
    destruct (sv_run evs _) as [[rs1 s1]|] eqn:E; [|done]. intros [= <- <-]. destruct (IH _ _ _ _ E) as [? Hq]. split; [done|].
    intros q. destruct (Hq q) as [He Hc]. split; [intros ?; by apply He, Hg|]. etrans; [apply Hg|done].
  - destruct (now <? os_now o); [done|]. destruct (sv_run evs _) as [[rs1 s1]|] eqn:E; [|done]. intros [= <- <-].
    apply (IH _ _ _ _ E).
  - destruct (sv_run evs _) as [[rs1 s1]|] eqn:E; [|done]. intros [= <- <-]. apply (IH _ _ _ _ E).
  - done.
  - done.
Qed.
End off.

(** ** Instances *)

(** A store that keeps closed segments for an hour. *)
Definition hourly : BrokerStore * os :=
  match OpenBrokerStore (gos "/d") (MkSegmentConfig 16 Hour) sample_os with
  | (Ok bs, o) => (bs, o)
  | (_, o) => (sample_broker.1, o)
  end.

Lemma hourly_ok : broker_ok hourly.1 hourly.2 ∅.
Proof.
  destruct (OpenBrokerStore_stored (gos "/d") (MkSegmentConfig 16 Hour) sample_os ∅) as (bs & o & E & ? & ? & ?);
    [apply fresh_root_stored; concrete|]. unfold hourly. by rewrite E.
Qed.

(** A segment is closed, expires, and is swept away between the calls; then
    the goroutine ends. *)
Definition sample_events : list sv_event :=
  [Call ((gos "a", 0), PAppend (gos "abcd")); Call ((gos "a", 0), PAppend (gos "abcdefgh")); Clock (2 * Hour); SelectTick;
   Call ((gos "a", 0), PRead 0 100); Cancel; SelectDone; Call ((gos "a", 0), PAppend (gos "z"))].

Definition sample_service : service := (default ([], start_cleaner hourly) (sv_run (H := insertion_order) sample_events (start_cleaner hourly))).2.

Example sample_swept_away :
  os_files (sv_os sample_service) !! segment_name (partitionDir hourly.1 (gos "a") 0) 0 = None /\ sv_cleaner sample_service = None.
Proof. vm_compute. by split. Qed.

Lemma sample_calls_fit evs : bytes_of (calls evs) < 2 ^ 62 -> forall tp, pl_end (log_of ∅ tp) + bytes_of (calls evs) < 2 ^ 62.
Proof. intros He tp. unfold log_of. by rewrite lookup_empty. Qed.

Lemma cleaner_is_invisible_witness :
  exists rs s, sv_run (H := insertion_order) sample_events (start_cleaner (hourly.1, hourly.2)) = Some (rs, s) /\
    let '(rs0, M0) := run (logs_step (max_size (bs_cfg hourly.1))) (calls sample_events) ∅ in
    rs = rs0 /\ exists M', broker_ok (sv_store s) (sv_os s) M' /\ pruned_logs M' M0.
Proof.
  assert (is_Some (sv_run (H := insertion_order) sample_events (start_cleaner (hourly.1, hourly.2)))) as [[rs s] E] by concrete.
  exists rs, s. split; [done|].
  apply (cleaner_is_invisible (H := insertion_order) hourly.1 hourly.2 ∅ sample_events rs s hourly_ok ltac:(concrete)
           (sample_calls_fit sample_events ltac:(concrete)) E).
Defined.

(** The store with a closed segment. *)
Definition expiring : service :=
  (default ([], start_cleaner hourly) (sv_run (H := insertion_order) (take 2 sample_events) (start_cleaner hourly))).2.

Lemma expiring_ok : exists M, broker_ok (sv_store expiring) (sv_os expiring) M.
Proof.
  pose proof (sv_run_refines (H := insertion_order) (take 2 sample_events) (start_cleaner hourly)) as Hr. unfold expiring.
  assert (is_Some (sv_run (H := insertion_order) (take 2 sample_events) (start_cleaner hourly))) as [[rs s] E] by concrete. rewrite E.
  specialize (Hr rs s ∅ ∅ hourly_ok ltac:(done) ltac:(concrete) (sample_calls_fit (take 2 sample_events) ltac:(concrete)) E).
  destruct (run _ _ _) as [rs0 M0]. destruct Hr as (_ & M' & ? & _). by exists M'.
Qed.

Lemma expired_segments_go_witness :
  exists s' tk', sv_run (H := insertion_order) [Clock (2 * Hour); SelectTick] expiring = Some ([], s') /\
    sv_store s' = sv_store expiring /\ sv_cleaner s' = Some tk' /\ 2 * Hour < tk_next tk' <= 2 * Hour + cleanerInterval /\
    forall t p ps b f, nameable t p -> bs_stores (sv_store expiring) !! partitionKey t p = Some ps ->
      0 <= b -> b <> ps_nextBase ps -> os_files (sv_os expiring) !! segment_name (ps_dir ps) b = Some f ->
      f_mtime f <= 2 * Hour - sc_Retention (bs_cfg (sv_store expiring)) -> os_files (sv_os s') !! segment_name (ps_dir ps) b = None.
Proof.
  destruct expiring_ok as [M Hok].
  apply (expired_segments_go (H := insertion_order) expiring M (NewTicker (os_now hourly.2) cleanerInterval) (2 * Hour) Hok);
    [vm_compute; reflexivity|concrete..].
Defined.

Lemma no_retention_keeps_files_witness :
  exists rs s, sv_run (H := insertion_order) [Call ((gos "a", 0), PAppend (gos "abcd"))] (start_cleaner (sample_topics.1, sample_topics.2)) = Some (rs, s) /\
    sv_cleaner s = None /\
    forall q, (is_Some (os_files sample_topics.2 !! q) -> is_Some (os_files (sv_os s) !! q)) /\
      content q sample_topics.2 `prefix_of` content q (sv_os s).
Proof.
  assert (is_Some (sv_run (H := insertion_order) [Call ((gos "a", 0), PAppend (gos "abcd"))] (start_cleaner (sample_topics.1, sample_topics.2)))) as [[rs s] E] by concrete.
  exists rs, s. split; [done|].
  apply (no_retention_keeps_files (H := insertion_order) sample_topics.1 sample_topics.2 [Call ((gos "a", 0), PAppend (gos "abcd"))] rs s);
    [concrete|done].
Defined.
