(* ===== verification/MetricsServer.v ===== *)
(** * The metrics endpoint ([ServeHTTP] in [internal/metrics/metrics.go])

    The routes of the HTTP server, with the matching rules of [http.ServeMux],
    and its life: the goroutine in [ListenAndServe], the connections with the
    states of [http.ConnState] and their requests, and [serveHTTP] itself, which
    waits for the end of the context and shuts the server down within a time
    limit. [net/http] is modelled by its documented behaviour: requests arrive on
    new and on idle connections, also after the listener is closed; what the
    handlers write is not modelled. *)

From stdpp Require Import base tactics list numbers gmap strings relations.
From Stdlib Require Import ZArith Lia.
From S2P Require Import Prelude GoIO GoStrings GoText Config Daemon DaemonSpec.
#[local] Open Scope Z_scope.

(** ** Routes *)

Inductive route := PromHandler | PprofIndex | PprofCmdline | PprofProfile | PprofSymbol | PprofTrace.

#[global] Instance route_eq_dec : EqDecision route.
Proof. solve_decision. Defined.

(** The registrations of [serveHTTP], in order. *)
Definition mux_routes : list (gostring * route) :=
  [(gos "/metrics", PromHandler);
   (gos "/debug/pprof/", PprofIndex);
   (gos "/debug/pprof/cmdline", PprofCmdline);
   (gos "/debug/pprof/profile", PprofProfile);
   (gos "/debug/pprof/symbol", PprofSymbol);
   (gos "/debug/pprof/trace", PprofTrace)].

(** A pattern that ends in a slash names a subtree. *)
Definition pattern_matches (pattern path : gostring) : bool :=
  if HasSuffix pattern (gos "/") then bool_decide (pattern `prefix_of` path) else bool_decide (pattern = path).

(** The longest pattern wins. *)
Fixpoint mux_match (routes : list (gostring * route)) (path : gostring) : option (gostring * route) :=
  match routes with
  | [] => None
  | (pattern, r) :: routes =>
      let best := mux_match routes path in
      if pattern_matches pattern path
      then match best with
           | Some (p, r') => if (length p <=? length pattern)%nat then Some (pattern, r) else Some (p, r')
           | None => Some (pattern, r)
           end
      else best
  end.

(** [cleanPath] of [net/http]. *)
Definition cleanPath (p : gostring) : gostring :=
  match p with
  | [] => gos "/"
  | _ =>
      let p := if is_rooted p then p else slash :: p in
      let np := Clean p in
      if HasSuffix p (gos "/") && bool_decide (np <> gos "/") then np ++ gos "/" else np
  end.

Inductive served := Handled (r : route) | Redirected (path : gostring) | NotFound.

(** A request for [path]: a missing slash at the root of a subtree and a path
    that is not clean are redirected. *)
Definition mux_serve (path : gostring) : served :=
  let p := cleanPath path in
  let found := mux_match mux_routes p in
  let exact := match found with Some (pattern, _) => bool_decide (pattern = p) | None => false end in
  let with_slash := p ++ gos "/" in
  if negb exact && negb (HasSuffix p (gos "/")) && bool_decide (with_slash ∈ mux_routes.*1) then Redirected with_slash
  else if decide (p <> path) then Redirected p
  else match found with Some (_, r) => Handled r | None => NotFound end.

(** ** The server *)

Inductive http_err := ErrServerClosed | ErrListen | ErrAccept.

#[global] Instance http_err_eq_dec : EqDecision http_err.
Proof. solve_decision. Defined.

Inductive log_line := LogListening | LogServerError (e : http_err) | LogShutdownError.

#[global] Instance log_line_eq_dec : EqDecision log_line.
Proof. solve_decision. Defined.

(** Where the goroutine is: before [ListenAndServe], with a listener it has
    not registered with the server yet, in [Accept], with a connection it has
    not registered yet, or gone. *)
Inductive listener_pc := Starting | Bound | Looping | Accepted (c : nat) | Stopped.

(** Where [serveHTTP] is: in [<-ctx.Done()]; in [Shutdown] until the deadline,
    waiting for the accept loop to leave or for the connections to become idle,
    and whether the listener's [Close] failed; or past it. *)
Inductive serve_pc := AwaitCtx | AwaitListener (deadline : Z) (lnerr : bool) | Polling (deadline : Z) (lnerr : bool) | Finished.

(** [http.ConnState]: no request yet, since a time; in a request; between two. *)
Inductive conn_state := StateNew (since : Z) | StateActive | StateIdle.

#[global] Instance listener_pc_eq_dec : EqDecision listener_pc.
Proof. solve_decision. Defined.
#[global] Instance serve_pc_eq_dec : EqDecision serve_pc.
Proof. solve_decision. Defined.
#[global] Instance conn_state_eq_dec : EqDecision conn_state.
Proof. solve_decision. Defined.

(** [ms_conns] are the open connections. *)
Record mserver := MServer {
  ms_now : Z;
  ms_cancelled : bool;
  ms_goroutine : listener_pc;
  ms_main : serve_pc;
  ms_conns : gmap nat conn_state;
  ms_log : list log_line }.

Definition ms_start (now : Z) : mserver := MServer now false Starting AwaitCtx ∅ [].

(** [ListenAndServe] returned [e]: logged unless it is [ErrServerClosed]. *)
Definition listener_ends (e : http_err) (s : mserver) : mserver :=
  MServer (ms_now s) (ms_cancelled s) Stopped (ms_main s) (ms_conns s)
    (if decide (e = ErrServerClosed) then ms_log s else ms_log s ++ [LogServerError e]).

Definition set_goroutine (g : listener_pc) (s : mserver) : mserver :=
  MServer (ms_now s) (ms_cancelled s) g (ms_main s) (ms_conns s) (ms_log s).
Definition set_serve (m : serve_pc) (s : mserver) : mserver :=
  MServer (ms_now s) (ms_cancelled s) (ms_goroutine s) m (ms_conns s) (ms_log s).
Definition set_conns (cs : gmap nat conn_state) (s : mserver) : mserver :=
  MServer (ms_now s) (ms_cancelled s) (ms_goroutine s) (ms_main s) cs (ms_log s).
Definition log_ms (l : log_line) (s : mserver) : mserver :=
  MServer (ms_now s) (ms_cancelled s) (ms_goroutine s) (ms_main s) (ms_conns s) (ms_log s ++ [l]).

(** [Shutdown] returned, with or without an error. *)
Definition shutdown_returns (err : bool) (s : mserver) : mserver :=
  MServer (ms_now s) (ms_cancelled s) (ms_goroutine s) Finished (ms_conns s)
    (if err then ms_log s ++ [LogShutdownError] else ms_log s).

Inductive ms_event :=
  | MSClock (now : Z)          (* time passes *)
  | MSCancel                   (* the context is cancelled *)
  | MSListen (ok : bool)       (* net.Listen in ListenAndServe *)
  | MSTrack                    (* Serve registers the listener *)
  | MSAccept (c : nat)         (* Accept returns a connection *)
  | MSTrackConn                (* Serve registers it and starts its goroutine *)
  | MSAcceptError              (* Accept fails for good; temporary errors are retried *)
  | MSAcceptClosed             (* Accept returns because the listener is closed *)
  | MSRequest (c : nat)        (* a request arrives on a connection *)
  | MSRequestDone (c : nat) (keep : bool)  (* its handler returns *)
  | MSDrop (c : nat)           (* the client goes away, or a read times out *)
  | MSCtxDone (lnerr : bool)   (* <-ctx.Done(), Shutdown closes the listener *)
  | MSListenerGone             (* the accept loop has left *)
  | MSCloseIdle (c : nat)      (* Shutdown closes an idle connection *)
  | MSShutdownDone             (* no connection is left *)
  | MSShutdownTimeout.         (* shutdownCtx expires first *)

(** [srv.Shutdown] has been called. *)
Definition shutting (s : mserver) : bool := match ms_main s with AwaitCtx => false | _ => true end.

(** A connection without a request that [Shutdown] closes: an idle one, or one
    that has sent no request for more than five seconds. *)
Definition closable (now : Z) (st : conn_state) : bool :=
  match st with StateIdle => true | StateNew since => since / Second <? now / Second - 5 | StateActive => false end.

Definition ms_guard (b : bool) (s : mserver) : option mserver := if b then Some s else None.

Section server.
Context (shutdownTimeout : Z).

Definition ms_step (ev : ms_event) (s : mserver) : option mserver :=
  match ev with
  | MSClock now => ms_guard (ms_now s <=? now) (MServer now (ms_cancelled s) (ms_goroutine s) (ms_main s) (ms_conns s) (ms_log s))
  | MSCancel => ms_guard (negb (ms_cancelled s)) (MServer (ms_now s) true (ms_goroutine s) (ms_main s) (ms_conns s) (ms_log s))
  | MSListen ok =>
      ms_guard (bool_decide (ms_goroutine s = Starting))
        (let s := log_ms LogListening s in
         if shutting s then listener_ends ErrServerClosed s
         else if ok then set_goroutine Bound s
         else listener_ends ErrListen s)
  | MSTrack =>
      ms_guard (bool_decide (ms_goroutine s = Bound))
        (if shutting s then listener_ends ErrServerClosed s else set_goroutine Looping s)
  | MSAccept c =>
      ms_guard (bool_decide (ms_goroutine s = Looping) && negb (shutting s) && bool_decide (ms_conns s !! c = None))
        (set_goroutine (Accepted c) s)
  | MSTrackConn =>
      match ms_goroutine s with
      | Accepted c => Some (set_goroutine Looping (set_conns (<[c := StateNew (ms_now s)]> (ms_conns s)) s))
      | _ => None
      end
  | MSAcceptError =>
      ms_guard (bool_decide (ms_goroutine s = Looping))
        (listener_ends (if shutting s then ErrServerClosed else ErrAccept) s)
  | MSAcceptClosed =>
      ms_guard (bool_decide (ms_goroutine s = Looping) && shutting s) (listener_ends ErrServerClosed s)
  | MSRequest c =>
      match ms_conns s !! c with
      | Some (StateNew _ | StateIdle) => Some (set_conns (<[c := StateActive]> (ms_conns s)) s)
      | _ => None
      end
  | MSRequestDone c keep =>
      match ms_conns s !! c with
      | Some StateActive =>
          Some (set_conns (if keep && negb (shutting s) then <[c := StateIdle]> (ms_conns s) else delete c (ms_conns s)) s)
      | _ => None
      end
  | MSDrop c =>
      match ms_conns s !! c with
      | Some (StateNew _ | StateIdle) => Some (set_conns (delete c (ms_conns s)) s)
      | _ => None
      end
  | MSCtxDone lnerr =>
      ms_guard (ms_cancelled s && bool_decide (ms_main s = AwaitCtx))
        (set_serve (AwaitListener (ms_now s + shutdownTimeout) lnerr) s)
  | MSListenerGone =>
      match ms_main s, ms_goroutine s with
      | AwaitListener deadline lnerr, (Starting | Bound | Stopped) => Some (set_serve (Polling deadline lnerr) s)
      | _, _ => None
      end
  | MSCloseIdle c =>
      match ms_main s, ms_conns s !! c with
      | Polling _ _, Some st => ms_guard (closable (ms_now s) st) (set_conns (delete c (ms_conns s)) s)
      | _, _ => None
      end
  | MSShutdownDone =>
      match ms_main s with
      | Polling _ lnerr => ms_guard (bool_decide (ms_conns s = ∅)) (shutdown_returns lnerr s)
      | _ => None
      end
  | MSShutdownTimeout =>
      match ms_main s with
      | Polling deadline _ => ms_guard (deadline <=? ms_now s) (shutdown_returns true s)
      | _ => None
      end
  end.

Fixpoint ms_run (evs : list ms_event) (s : mserver) : option mserver :=
  match evs with
  | [] => Some s
  | ev :: evs => match ms_step ev s with Some s => ms_run evs s | None => None end
  end.

Definition ms_steps (s s' : mserver) : Prop := exists ev, ms_step ev s = Some s'.
End server.

(** The steps of [serveHTTP] and its goroutine themselves: none of a client, of
    a handler, or of the network. *)
Definition ms_own (ev : ms_event) : bool :=
  match ev with
  | MSListen _ | MSTrack | MSTrackConn | MSAcceptClosed | MSCtxDone _ | MSListenerGone | MSCloseIdle _ | MSShutdownDone
  | MSShutdownTimeout => true
  | _ => false
  end.

(** [ServeHTTP]: five seconds. *)
Definition ServeHTTP_timeout : Z := 5 * Second.

(** ** Routing *)

Lemma HasSuffix_slash s : HasSuffix s (gos "/") = true <-> exists k, s = k ++ [slash].
Proof. unfold HasSuffix. rewrite bool_decide_eq_true. done. Qed.

Lemma join_slash_last cs c : exists k, slash :: join_slash (cs ++ [c]) = k ++ slash :: c.
Proof.
  destruct cs as [|c0 cs]; [exists []; cbn; by rewrite app_nil_r|]. cbn [app join_slash]. rewrite fmap_app, concat_app. cbn. rewrite app_nil_r.
  by eexists (slash :: c0 ++ _); cbn; rewrite <- app_assoc.
Qed.

(** A clean path ends in a slash only if it is the root. *)
Lemma Clean_no_slash p : is_rooted p = true -> Clean p <> gos "/" -> HasSuffix (Clean p) (gos "/") = false.
Proof.
  intros Hr Hne. apply not_true_iff_false. rewrite HasSuffix_slash. intros [k Hk]. apply Hne. clear Hne.
  assert (Hp : p <> []) by by destruct p. unfold Clean in *. rewrite decide_False, Hr in * by done.
  pose proof (clean_elems_elems p) as He. destruct (clean_elems p) as [|c cs _] using rev_ind; [done|].
  exfalso. apply Forall_app in He as [_ Hc]. apply (Forall_singleton elem) in Hc. destruct Hc as [Hc Hs].
  destruct (join_slash_last cs c) as [k' E]. rewrite E in Hk. clear E.
  destruct c as [|b c _] using rev_ind; [done|]. rewrite app_comm_cons, app_assoc in Hk. apply app_inj_2 in Hk as [_ [= ->]]; [|done].
  apply Hs, elem_of_app. right. by apply list_elem_of_singleton.
Qed.

Lemma Clean_slash p : is_rooted p = true -> Clean (p ++ gos "/") = Clean p.
Proof.
  intros Hr. destruct p as [|b p]; [done|]. unfold Clean, clean_elems. rewrite !decide_False by by destruct p.
  change (is_rooted ((b :: p) ++ gos "/")) with (is_rooted (b :: p)). rewrite Hr.
  change (gos "/") with (slash :: @nil byte). by rewrite split_slash_app, fold_left_app.
Qed.

Lemma cleanPath_rooted p : p <> [] -> exists q, q <> [] /\ is_rooted q = true /\
  cleanPath p = (if HasSuffix q (gos "/") && bool_decide (Clean q <> gos "/") then Clean q ++ gos "/" else Clean q).
Proof.
  intros Hp. destruct p as [|b p]; [done|]. unfold cleanPath. destruct (is_rooted (b :: p)) eqn:E.
  - by exists (b :: p).
  - exists (slash :: b :: p). split_and!; [done|by apply bool_decide_true|done].
Qed.

Lemma cleanPath_idempotent p : cleanPath (cleanPath p) = cleanPath p.
Proof.
  destruct (decide (p = [])) as [->|Hp]; [by vm_compute|]. destruct (cleanPath_rooted p Hp) as (q & Hq & Hr & ->).
  assert (Hc : forall q, is_rooted q = true -> cleanPath q =
    (if HasSuffix q (gos "/") && bool_decide (Clean q <> gos "/") then Clean q ++ gos "/" else Clean q)).
  { clear. intros [|b q] Hr; [done|]. unfold cleanPath. by rewrite Hr. }
  assert (Hrc : is_rooted (Clean q) = true) by by rewrite is_rooted_Clean.
  destruct (HasSuffix q (gos "/") && bool_decide (Clean q <> gos "/")) eqn:E.
  - apply andb_prop in E as [_ E]. rewrite Hc by by destruct (Clean q). rewrite Clean_slash, Clean_idempotent by done.
    rewrite E, (proj2 (HasSuffix_slash _)) by by eexists. done.
  - rewrite Hc by done. rewrite Clean_idempotent. case_bool_decide as Hne; [|by rewrite andb_false_r].
    by rewrite Clean_no_slash by done.
Qed.

Lemma slash_route_iff p : (p ++ gos "/" ∈ mux_routes.*1) <-> p = gos "/debug/pprof".
Proof.
  split; [|intros ->; concrete]. cbn [mux_routes fmap list_fmap fst].
  intros Hin. change (gos "/debug/pprof/") with (gos "/debug/pprof" ++ gos "/") in Hin.
  repeat (apply elem_of_cons in Hin as [E|Hin]; [|]); [..|by apply elem_of_nil in Hin];
    try (by apply app_inv_tail in E); change (gos "/") with [slash] in E;
    apply (f_equal last) in E; rewrite last_snoc in E; vm_compute in E; discriminate.
Qed.

Lemma slash_route p : bool_decide (p ++ gos "/" ∈ mux_routes.*1) = bool_decide (p = gos "/debug/pprof").
Proof. apply bool_decide_ext, slash_route_iff. Qed.

(** Requests for clean paths. *)
Lemma mux_serve_clean p :
  cleanPath p = p ->
  mux_serve p =
    if decide (p = gos "/metrics") then Handled PromHandler
    else if decide (p = gos "/debug/pprof/cmdline") then Handled PprofCmdline
    else if decide (p = gos "/debug/pprof/profile") then Handled PprofProfile
    else if decide (p = gos "/debug/pprof/symbol") then Handled PprofSymbol
    else if decide (p = gos "/debug/pprof/trace") then Handled PprofTrace
    else if decide (gos "/debug/pprof/" `prefix_of` p) then Handled PprofIndex
    else if decide (p = gos "/debug/pprof") then Redirected (gos "/debug/pprof/")
    else NotFound.
Proof.
  intros Hp.
  destruct (decide (p = gos "/metrics")) as [->|N1]; [by vm_compute|].
  destruct (decide (p = gos "/debug/pprof/cmdline")) as [->|N2]; [by vm_compute|].
  destruct (decide (p = gos "/debug/pprof/profile")) as [->|N3]; [by vm_compute|].
  destruct (decide (p = gos "/debug/pprof/symbol")) as [->|N4]; [by vm_compute|].
  destruct (decide (p = gos "/debug/pprof/trace")) as [->|N5]; [by vm_compute|].
  assert (Hno : forall pat, HasSuffix pat (gos "/") = false -> p <> pat -> pattern_matches pat p = false).
  { intros pat E Hne. unfold pattern_matches. rewrite E. apply bool_decide_false. congruence. }
  assert (Em : mux_match mux_routes p = if decide (gos "/debug/pprof/" `prefix_of` p) then Some (gos "/debug/pprof/", PprofIndex) else None).
  { cbn [mux_match mux_routes].
    rewrite (Hno (gos "/metrics")), (Hno (gos "/debug/pprof/cmdline")), (Hno (gos "/debug/pprof/profile")),
      (Hno (gos "/debug/pprof/symbol")), (Hno (gos "/debug/pprof/trace")) by (done || by vm_compute).
    change (pattern_matches (gos "/debug/pprof/") p) with (bool_decide (gos "/debug/pprof/" `prefix_of` p)).
    by case_bool_decide; case_decide. }
  unfold mux_serve. rewrite Hp, Em. cbv zeta. rewrite (decide_False (P := p <> p)) by auto.
  rewrite slash_route. destruct (decide (gos "/debug/pprof/" `prefix_of` p)) as [Hpre|Hpre].
  - rewrite (bool_decide_false (p = gos "/debug/pprof")) by (intros ->; revert Hpre; concrete). by rewrite andb_false_r.
  - case_bool_decide as E; [|by rewrite andb_false_r, decide_False]. rewrite decide_True by done. subst p. by vm_compute.
Qed.

(** One redirection leads to an answer. *)
Theorem one_redirect p q : mux_serve p = Redirected q -> forall q', mux_serve q <> Redirected q'.
Proof.
  intros E q' E'. unfold mux_serve in E. cbv zeta in E. pose proof (cleanPath_idempotent p) as Hi.
  destruct (negb _ && _ && _) eqn:Ec.
  - apply andb_prop in Ec as [_ Ec%bool_decide_eq_true]. simplify_eq.
    assert (Hq : cleanPath p ++ gos "/" = gos "/debug/pprof/"). 
    { rewrite slash_route_iff in Ec. by rewrite Ec. }
    rewrite Hq in E'. by vm_compute in E'.
  - case_decide; [|by destruct (mux_match mux_routes (cleanPath p)) as [[]|]]. simplify_eq.
    unfold mux_serve in E'. cbv zeta in E'. rewrite Hi, Ec, decide_False in E' by auto.
    by destruct (mux_match mux_routes (cleanPath p)) as [[]|].
Qed.

(** ** The life of the server *)

Section life.
Context (shutdownTimeout : Z).

Abbreviation step := (ms_step shutdownTimeout).

(** Takes a step apart, event by event. *)
Ltac ms_cases E :=
  unfold ms_step, ms_guard, shutting in E; cbn in E;
  repeat match type of E with
         | (if ?b then _ else _) = _ => let Q := fresh "Q" in destruct b eqn:Q; try discriminate E
         | match ms_main ?s with _ => _ end = _ => let Q := fresh "Hm" in destruct (ms_main s) eqn:Q; try discriminate E
         | match ms_goroutine ?s with _ => _ end = _ => let Q := fresh "Hg" in destruct (ms_goroutine s) eqn:Q; try discriminate E
         | match ms_conns ?s !! ?c with _ => _ end = _ =>
             let Q := fresh "Hc" in destruct (ms_conns s !! c) as [[]|] eqn:Q; try discriminate E
         | Some (match ms_main ?s with _ => _ end) = _ => let Q := fresh "Hm" in destruct (ms_main s) eqn:Q
         | Some (if ?b then _ else _) = _ => let Q := fresh "Q" in destruct b eqn:Q
         end;
  injection E as <-; unfold shutdown_returns; cbn;
  repeat match goal with
         | Q : _ && _ = true |- _ => apply andb_prop in Q as [? ?]
         | Q : bool_decide _ = true |- _ => apply bool_decide_eq_true in Q
         | Q : (_ <=? _) = true |- _ => apply Z.leb_le in Q
         end.

(** The connection that [Accept] has returned. *)
Definition pending (g : listener_pc) : gset nat := match g with Accepted c => {[c]} | _ => ∅ end.

Definition in_loop (g : listener_pc) : bool := match g with Looping | Accepted _ => true | _ => false end.

Record ms_inv (s : mserver) : Prop := {
  mi_main : ms_main s <> AwaitCtx -> ms_cancelled s = true;
  mi_closed : LogServerError ErrServerClosed ∉ ms_log s;
  mi_left : match ms_main s with Polling _ _ | Finished => in_loop (ms_goroutine s) = false | _ => True end;
  mi_timeout : LogShutdownError ∈ ms_log s -> ms_main s = Finished;
  mi_drained : ms_main s = Finished -> LogShutdownError ∉ ms_log s -> ms_conns s = ∅ }.

Lemma ms_inv_step ev s s' : ms_inv s -> step ev s = Some s' -> ms_inv s'.
Proof.
  intros [Hc Hl Hi Ht Hd] E.
  destruct ev; ms_cases E; unfold listener_ends; repeat case_decide; constructor; cbn; intros; try done;
    rewrite ?elem_of_app, ?list_elem_of_singleton in *; try done;
    repeat match goal with
           | Q : ms_goroutine _ = _ |- _ => rewrite Q in *
           | Q : ms_main _ = _ |- _ => rewrite Q in *
           end; try (congruence || tauto);
    try match goal with Q : ms_conns _ !! _ = Some _ |- _ => rewrite Hd in Q by done; by rewrite lookup_empty in Q end;
    try destruct lnerr; rewrite ?elem_of_app, ?list_elem_of_singleton in *; try tauto; destruct (ms_main s); naive_solver.
Qed.

Lemma ms_inv_reachable now s : rtc (ms_steps shutdownTimeout) (ms_start now) s -> ms_inv s.
Proof.
  assert (H0 : ms_inv (ms_start now)) by (constructor; cbn; [done|set_solver|done|set_solver|done]).
  revert H0. generalize (ms_start now). intros s0 H0 Hr. induction Hr as [s|s1 s2 s3 [ev E] _ IH]; [done|].
  by eapply IH, ms_inv_step.
Qed.

(** Once [Shutdown] is called no connection comes in. *)
Definition known (s : mserver) : gset nat := dom (ms_conns s) ∪ pending (ms_goroutine s).

Lemma shutting_step ev s s' :
  shutting s = true -> step ev s = Some s' -> shutting s' = true /\ known s' ⊆ known s.
Proof.
  unfold shutting, known. intros Hs E. destruct ev; ms_cases E; unfold listener_ends; cbn; rewrite ?Hs in *; try done;
    repeat match goal with Q : ms_goroutine _ = _ |- _ => rewrite Q in *; clear Q end;
    repeat match goal with Q : ms_conns _ !! _ = Some _ |- _ => apply elem_of_dom_2 in Q end;
    (split; [try done; by destruct (ms_main s)|]); cbn; rewrite ?andb_false_r; repeat case_match; set_solver.
Qed.

Lemma shutting_steps s s' :
  shutting s = true -> rtc (ms_steps shutdownTimeout) s s' -> known s' ⊆ known s.
Proof.
  intros Hs Hr. induction Hr as [s|s1 s2 s3 [ev E] _ IH]; [done|].
  destruct (shutting_step _ _ _ Hs E) as [Hs2 ?]. etrans; [by apply IH|done].
Qed.

(** C26: The metrics server stops gracefully. From the moment it is shut down
    the only connections are those it had and the one that [Accept] had
    returned; when [serveHTTP] has returned without logging a shutdown error no
    connection is open or ever will be, so no request is or will be in
    progress; and the closing of the server is never logged as an error. *)
Theorem graceful_shutdown now s s' :
  rtc (ms_steps shutdownTimeout) (ms_start now) s -> shutting s = true -> rtc (ms_steps shutdownTimeout) s s' ->
  ms_cancelled s = true /\ dom (ms_conns s') ⊆ dom (ms_conns s) ∪ pending (ms_goroutine s) /\
  (LogServerError ErrServerClosed ∉ ms_log s') /\
  (ms_main s = Finished -> (LogShutdownError ∉ ms_log s) -> ms_conns s' = ∅).
Proof.
  intros Hr Hs Hr'. pose proof (ms_inv_reachable now s Hr) as I. pose proof (ms_inv_reachable now s' ltac:(by etrans)) as I'.
  pose proof (shutting_steps s s' Hs Hr') as Hk. unfold known in Hk. split_and!.
  - apply (mi_main _ I). intros E. unfold shutting in Hs. by rewrite E in Hs.
  - set_solver.
  - apply I'.
  - intros Hf Hl. pose proof (mi_left _ I) as Hg. rewrite Hf in Hg. rewrite (mi_drained _ I Hf Hl) in Hk.
    apply dom_empty_inv_L. destruct (ms_goroutine s); cbn in *; try done; set_solver.
Qed.

(** When [serveHTTP] is to have returned at the latest. *)
Definition ms_due (s : mserver) : Z :=
  match ms_main s with
  | AwaitCtx => ms_now s + shutdownTimeout
  | AwaitListener deadline _ | Polling deadline _ => Z.max deadline (ms_now s)
  | Finished => ms_now s
  end.

(** What the goroutine still has to do once the server is shut down. *)
Definition goroutine_rest (g : listener_pc) : list ms_event :=
  match g with
  | Starting => [MSListen true]
  | Bound => [MSTrack]
  | Looping => [MSAcceptClosed]
  | Accepted _ => [MSTrackConn; MSAcceptClosed]
  | Stopped => []
  end.

(** What [serveHTTP] still has to do when no connection becomes idle. *)
Definition serve_rest (s : mserver) : list ms_event :=
  let wait := [MSClock (ms_due s); MSShutdownTimeout] in
  match ms_main s with
  | AwaitCtx => MSCtxDone false :: goroutine_rest (ms_goroutine s) ++ MSListenerGone :: wait
  | AwaitListener _ _ => goroutine_rest (ms_goroutine s) ++ MSListenerGone :: wait
  | Polling _ _ => goroutine_rest (ms_goroutine s) ++ wait
  | Finished => goroutine_rest (ms_goroutine s)
  end.

Lemma serve_rest_ends s :
  0 <= shutdownTimeout -> ms_cancelled s = true ->
  exists s', ms_run shutdownTimeout (serve_rest s) s = Some s' /\ ms_main s' = Finished /\ ms_goroutine s' = Stopped /\
    ms_now s' = ms_due s.
Proof.
  intros Ht Hc. destruct s as [now can g m conns log]. cbn in Hc. subst can. unfold serve_rest, ms_due. cbn.
  assert (H1 : (now <=? now + shutdownTimeout) = true) by (apply Z.leb_le; lia).
  assert (H2 : forall d, (now <=? Z.max d now) = true) by (intros; apply Z.leb_le; lia).
  assert (H3 : forall d, (d <=? Z.max d now) = true) by (intros; apply Z.leb_le; lia).
  destruct m, g; unfold ms_guard; repeat (rewrite ?bool_decide_true, ?H1, ?H2, ?H3, ?Z.leb_refl by done; cbn; unfold ms_guard);
    by eexists.
Qed.

(** Where the server can be when none of its own steps is possible. *)
Lemma ms_blocked s :
  ms_inv s -> ms_cancelled s = true -> (forall ev, ms_own ev = true -> step ev s = None) ->
  ms_goroutine s = Stopped /\
  (ms_main s = Finished \/
   exists deadline e, ms_main s = Polling deadline e /\ ms_now s < deadline /\
     exists c st, ms_conns s !! c = Some st /\ closable (ms_now s) st = false).
Proof.
  intros [_ _ Hi _ _] Hc Hb. destruct s as [now can g m conns log]. cbn in *. subst can.
  destruct m as [|d e|d e|].
  - specialize (Hb (MSCtxDone false) eq_refl). done.
  - destruct g; [specialize (Hb (MSListen true) eq_refl)|specialize (Hb MSTrack eq_refl)|specialize (Hb MSAcceptClosed eq_refl)
      |specialize (Hb MSTrackConn eq_refl)|specialize (Hb MSListenerGone eq_refl)]; done.
  - split; [destruct g; [specialize (Hb (MSListen true) eq_refl)|specialize (Hb MSTrack eq_refl)|..]; done|].
    right. exists d, e. split; [done|]. pose proof (Hb MSShutdownTimeout eq_refl) as H1. pose proof (Hb MSShutdownDone eq_refl) as H2.
    cbn in H1, H2. unfold ms_guard in H1, H2. destruct (Z.leb_spec d now); [done|]. case_bool_decide as Hne; [done|].
    split; [lia|]. apply map_choose in Hne as (c & st & Hst). exists c, st. split; [done|].
    specialize (Hb (MSCloseIdle c) eq_refl). cbn in Hb. rewrite Hst in Hb. unfold ms_guard in Hb. by destruct (closable now st).
  - split; [destruct g; [specialize (Hb (MSListen true) eq_refl)|specialize (Hb MSTrack eq_refl)|..]; done|by left].
Qed.

(** C27: Once the context has ended, [serveHTTP] and its goroutine come to an
    end: by their own steps and the clock alone, whatever clients and handlers
    do, both can end, no later than [shutdownTimeout] after the end of the
    context is seen; and when none of their own steps is possible the goroutine
    has ended, and so has [serveHTTP] unless its deadline is still ahead and a
    connection is in a request or has just been opened. *)
Theorem metrics_server_stops now s :
  0 <= shutdownTimeout -> rtc (ms_steps shutdownTimeout) (ms_start now) s -> ms_cancelled s = true ->
  (exists evs s', Forall (fun ev => ms_own ev = true \/ exists t, ev = MSClock t) evs /\
     ms_run shutdownTimeout evs s = Some s' /\ ms_main s' = Finished /\ ms_goroutine s' = Stopped /\ ms_now s' = ms_due s) /\
  ((forall ev, ms_own ev = true -> step ev s = None) -> ms_goroutine s = Stopped /\
     (ms_main s = Finished \/
      exists deadline e, ms_main s = Polling deadline e /\ ms_now s < deadline /\
        exists c st, ms_conns s !! c = Some st /\ closable (ms_now s) st = false)).
Proof.
  intros Ht Hr Hc. split; [|apply ms_blocked; [by eapply ms_inv_reachable|done]].
  destruct (serve_rest_ends s Ht Hc) as (s' & Hrun & ?). exists (serve_rest s), s'. split; [|by split].
  unfold serve_rest. generalize (ms_due s). intros due. cbv zeta.
  destruct (ms_main s), (ms_goroutine s); cbn [goroutine_rest app];
    repeat (apply Forall_cons_2; [first [left; reflexivity | right; eexists; reflexivity]|]); apply Forall_nil_2.
Qed.
End life.

Lemma ms_run_reaches shutdownTimeout evs s s' : ms_run shutdownTimeout evs s = Some s' -> rtc (ms_steps shutdownTimeout) s s'.
Proof.
  revert s. induction evs as [|ev evs IH]; intros s; cbn [ms_run]; [intros [= ->]; apply rtc_refl|].
  destruct (ms_step shutdownTimeout ev s) as [s1|] eqn:E; [|done]. intros Hr. eapply rtc_l; [by exists ev|by apply IH].
Qed.

(** ** In the process *)

(** The broker's [main] and the metrics server: one signal ends the context of
    both, and the process ends with [main]. *)
Inductive process_event := Broker (ev : event) | Endpoint (ev : ms_event).

Definition process_step (ev : process_event) (x : daemon * mserver) : option (daemon * mserver) :=
  let '(d, m) := x in
  if negb (alive (d_main d)) then None
  else match ev with
  | Broker Signal =>
      match dstep Signal d, ms_step ServeHTTP_timeout MSCancel m with Some d, Some m => Some (d, m) | _, _ => None end
  | Broker ev => match dstep ev d with Some d => Some (d, m) | None => None end
  | Endpoint MSCancel => None
  | Endpoint ev => match ms_step ServeHTTP_timeout ev m with Some m => Some (d, m) | None => None end
  end.

Fixpoint process_run (evs : list process_event) (x : daemon * mserver) : option (daemon * mserver) :=
  match evs with
  | [] => Some x
  | ev :: evs => match process_step ev x with Some x => process_run evs x | None => None end
  end.

(** [main] does not wait for [ServeHTTP]: it can stop cleanly, and end the
    process, while the graceful shutdown of the metrics server, whose time has
    not run out, still waits for a request. *)
Theorem main_cuts_metrics_shutdown :
  match process_run [Endpoint (MSListen true); Endpoint MSTrack; Endpoint (MSAccept 1); Endpoint MSTrackConn;
                     Endpoint (MSRequest 1); Broker Signal; Endpoint (MSCtxDone false);
                     Broker CtxDone; Broker CloseListener; Broker AcceptError; Broker WaitReturn; Broker ExitClean; Broker StoreClose]
          (boot defaults, ms_start 0) with
  | Some (d, m) => d_main d = Exited /\ ms_main m = AwaitListener (5 * Second) false /\ ms_now m = 0 /\
                   ms_conns m = {[1%nat := StateActive]}
  | None => False
  end.
Proof. vm_compute. by split_and!. Qed.

(** ** Instances *)

Example sample_routes :
  mux_serve (gos "/metrics") = Handled PromHandler /\ mux_serve (gos "/debug/pprof/heap") = Handled PprofIndex /\
  mux_serve (gos "/debug/pprof/trace") = Handled PprofTrace /\ mux_serve (gos "/debug/pprof") = Redirected (gos "/debug/pprof/") /\
  mux_serve (gos "//metrics") = Redirected (gos "/metrics") /\ mux_serve (gos "/") = NotFound.
Proof. vm_compute. by split_and!. Qed.

(** Two connections are open when the shutdown begins, one of them in a
    request; the other then sends its first. *)
Definition stopping_events : list ms_event :=
  [MSListen true; MSTrack; MSAccept 1; MSTrackConn; MSRequest 1; MSAccept 2; MSCancel; MSCtxDone false].
Definition stopped_events : list ms_event :=
  [MSTrackConn; MSAcceptClosed; MSRequest 2; MSListenerGone; MSRequestDone 1 true; MSRequestDone 2 true; MSShutdownDone].
Definition sample_stopping : mserver := default (ms_start 0) (ms_run ServeHTTP_timeout stopping_events (ms_start 0)).
Definition sample_stopped : mserver := default (ms_start 0) (ms_run ServeHTTP_timeout stopped_events sample_stopping).

Lemma sample_stopping_reached : rtc (ms_steps ServeHTTP_timeout) (ms_start 0) sample_stopping.
Proof. apply (ms_run_reaches _ stopping_events). vm_compute. reflexivity. Qed.

Lemma sample_stopped_reached : rtc (ms_steps ServeHTTP_timeout) sample_stopping sample_stopped.
Proof. apply (ms_run_reaches _ stopped_events). vm_compute. reflexivity. Qed.

Example sample_stopped_state : sample_stopped = MServer 0 true Stopped Finished ∅ [LogListening].
Proof. vm_compute. reflexivity. Qed.

Lemma graceful_shutdown_witness :
  ms_cancelled sample_stopping = true /\ dom (ms_conns sample_stopped) ⊆ dom (ms_conns sample_stopping) ∪ {[2%nat]} /\
  (LogServerError ErrServerClosed ∉ ms_log sample_stopped) /\
  (ms_main sample_stopping = Finished -> (LogShutdownError ∉ ms_log sample_stopping) -> ms_conns sample_stopped = ∅).
Proof.
  apply (graceful_shutdown ServeHTTP_timeout 0 sample_stopping sample_stopped sample_stopping_reached);
    [by vm_compute|exact sample_stopped_reached].
Defined.

Lemma metrics_server_stops_witness :
  exists evs s', Forall (fun ev => ms_own ev = true \/ exists t, ev = MSClock t) evs /\
    ms_run ServeHTTP_timeout evs sample_stopping = Some s' /\ ms_main s' = Finished /\ ms_goroutine s' = Stopped /\
    ms_now s' = 5 * Second.
Proof.
  apply (metrics_server_stops ServeHTTP_timeout 0 sample_stopping); [concrete|exact sample_stopping_reached|by vm_compute].
Defined.
