(* ===== verification/Connections.v ===== *)
(** * Connections that run concurrently ([Handle] in [internal/server/handler.go])

    The goroutine of a connection as a program. Reading a request and writing
    its response touch the connection only, which no other goroutine sees; what
    a handler does to shared state is the program of its request, whose calls
    the other connections' calls can come between. Run alone, the program is
    [Handle]. *)

From stdpp Require Import base tactics list numbers gmap strings relations.
From Stdlib Require Import ZArith Lia.
From S2P Require Import Prelude GoIO GoStrings Wire Requests Responses RecordBatch OSFile.
From S2P Require Import LogIndex LogSegment LogStore OffsetRecords FetchPatch BrokerStore Metrics Handler Prog Concurrent.
#[local] Open Scope Z_scope.

(** ** Session programs *)

Section sessions.
Context `{Prometheus} `{MapOrder} (Getenv : gostring -> gostring).

Abbreviation shared := (Handler * os)%type.

(** A program that also works on its connection. *)
Definition sprog (A : Type) : Type := conn -> prog shared (result A * conn).

#[export] Instance sprog_ret : MRet sprog := fun A a c => PRet (Ok a, c).
#[export] Instance sprog_bind : MBind sprog := fun A B k m c =>
  pbind (m c) (fun '(r, c) =>
    match r with Ok a => k a c | Err e => PRet (Err e, c) | Panic p => PPanic p end).

(** The connection's own. *)
Definition local {A} (m : st conn A) : sprog A := fun c =>
  match m c with (Panic p, _) => PPanic p | (r, c) => PRet (r, c) end.

(** Calls on shared state. *)
Definition remote {A} (p : prog shared A) : sprog A := fun c => pbind (pcatch p) (fun r => PRet (r, c)).

Definition swrapf {A} (fmt : string) (args : list farg) (m : sprog A) : sprog A := fun c =>
  pbind (m c) (fun '(r, c) => PRet (wrap_result fmt args r, c)).

Definition sparse {A} (d : decoder A) : sprog A :=
  local (fun c => let '(r, rd) := d (c_in c) in (r, Conn rd (c_out c) (c_cap c))).

Definition ssend (e : Encoder -> Encoder) : sprog unit := local (conn_Write (FullMessage (e NewEncoder))).

(** ** The handlers *)

Definition handleProduce_program (header : RequestHeader) : sprog unit :=
  req ← swrapf "handleProduce: parse: %w" [] (sparse (ParseProduceRequest header));
  resp ← remote (produce_request_program req);
  if pr_Acks req =? AcksNone then mret tt
  else swrapf "handleProduce: write response: %w" [] (ssend (EncodeProduceResponse (rh_CorrelationID header) resp)).

Definition handleFetch_program (header : RequestHeader) : sprog unit :=
  req ← swrapf "handleFetch: parse: %w" [] (sparse (ParseFetchRequest header));
  resp ← remote (fetch_request_program req);
  swrapf "handleFetch: write response: %w" [] (local (WriteFetchResponse (rh_CorrelationID header) resp)).

Definition handleMetadata_program (header : RequestHeader) : sprog unit :=
  req ← swrapf "handleMetadata: %w" [] (sparse (ParseMetadataRequest header));
  resp ← remote (metadata_program Getenv req);
  swrapf "handleMetadata: failed to write response: %w" []
    (ssend (EncodeMetadataResponse (rh_CorrelationID header) (rh_ApiVersion header) resp)).

Definition handleOffsetCommit_program (header : RequestHeader) : sprog unit :=
  req ← swrapf "handleOffsetCommit: parse: %w" [] (sparse (ParseOffsetCommitRequest header));
  resp ← remote (commit_request_program req);
  swrapf "handleOffsetCommit: write response: %w" [] (ssend (EncodeOffsetCommitResponse (rh_CorrelationID header) resp)).

Definition handleOffsetFetch_program (header : RequestHeader) : sprog unit :=
  req ← swrapf "handleOffsetFetch: parse: %w" [] (sparse (ParseOffsetFetchRequest header));
  resp ← remote (offset_fetch_program req);
  swrapf "handleOffsetFetch: write response: %w" [] (ssend (EncodeOffsetFetchResponse (rh_CorrelationID header) resp)).

Definition handleListOffsets_program (header : RequestHeader) : sprog unit :=
  req ← swrapf "handleListOffsets: parse: %w" [] (sparse (ParseListOffsetsRequest header));
  resp ← remote (list_offsets_request_program req);
  swrapf "handleListOffsets: write response: %w" [] (ssend (EncodeListOffsetsResponse (rh_CorrelationID header) resp)).

Definition handleFindCoordinator_program (header : RequestHeader) : sprog unit :=
  _ ← swrapf "handleFindCoordinator: parse: %w" [] (sparse (ParseFindCoordinatorRequest header));
  swrapf "handleFindCoordinator: write response: %w" []
    (ssend (EncodeFindCoordinatorResponse (rh_CorrelationID header) 1 (advertisedHost Getenv) 9092)).

Definition handleJoinGroup_program (header : RequestHeader) : sprog unit :=
  req ← swrapf "handleJoinGroup: parse: %w" [] (sparse (ParseJoinGroupRequest header));
  swrapf "handleJoinGroup: write response: %w" [] (ssend (join_group_response (rh_CorrelationID header) req)).

Definition handleHeartbeat_program (header : RequestHeader) : sprog unit :=
  _ ← swrapf "handleHeartbeat: parse: %w" [] (sparse (ParseHeartbeatRequest header));
  swrapf "handleHeartbeat: write response: %w" [] (ssend (EncodeHeartbeatResponse (rh_CorrelationID header))).

Definition handleLeaveGroup_program (header : RequestHeader) : sprog unit :=
  _ ← swrapf "handleLeaveGroup: parse: %w" [] (sparse (ParseLeaveGroupRequest header));
  swrapf "handleLeaveGroup: write response: %w" [] (ssend (EncodeLeaveGroupResponse (rh_CorrelationID header))).

Definition handleSyncGroup_program (header : RequestHeader) : sprog unit :=
  req ← swrapf "handleSyncGroup: parse: %w" [] (sparse (ParseSyncGroupRequest header));
  swrapf "handleSyncGroup: write response: %w" []
    (ssend (EncodeSyncGroupResponse (rh_CorrelationID header) (find_assignment (sg_Assignments req)))).

Definition handleApiVersions_program (header : RequestHeader) : sprog unit :=
  swrapf "handleApiVersions: write response: %w" [] (ssend (EncodeApiVersionsResponse (rh_CorrelationID header))).

Definition dispatch_program (header : RequestHeader) : sprog unit :=
  let k := rh_ApiKey header in
  if k =? ApiKeyProduce then handleProduce_program header
  else if k =? ApiKeyFetch then handleFetch_program header
  else if k =? ApiKeyListOffsets then handleListOffsets_program header
  else if k =? ApiKeyMetadata then handleMetadata_program header
  else if k =? ApiKeyOffsetCommit then handleOffsetCommit_program header
  else if k =? ApiKeyOffsetFetch then handleOffsetFetch_program header
  else if k =? ApiKeyFindCoordinator then handleFindCoordinator_program header
  else if k =? ApiKeyJoinGroup then handleJoinGroup_program header
  else if k =? ApiKeyHeartbeat then handleHeartbeat_program header
  else if k =? ApiKeyLeaveGroup then handleLeaveGroup_program header
  else if k =? ApiKeySyncGroup then handleSyncGroup_program header
  else if k =? ApiKeyApiVersions then handleApiVersions_program header
  else fun c => PRet (Err (Errorf "unsupported api_key: %d" [DInt k]), c).

(** The loop, with what stopped it. *)
Fixpoint serve_program (fuel : nat) (c : conn) : prog shared (result goerr * conn) :=
  match fuel with
  | O => PRet (Err EOF, c)
  | S k =>
      pbind (sparse ParseRequestHeader c) (fun '(r, c) =>
      match r with
      | Ok header =>
          pbind (dispatch_program header c) (fun '(r, c) =>
          match r with
          | Ok _ => serve_program k c
          | Err e => PRet (Ok e, c)
          | Panic p => PPanic p
          end)
      | Err e => PRet (Ok e, c)
      | Panic p => PPanic p
      end)
  end.

Definition Handle_program (c : conn) : prog shared (result goerr * conn) :=
  pbind (serve_program (S (length (rd_data (c_in c)))) c) (fun '(r, c) => PRet (r, conn_Close c)).

(** ** Run alone *)

(** The program does what the session's function does; after a panic nobody
    looks at the connection. *)
Definition runs {A} (p : sprog A) (m : stio (Handler * conn) A) : Prop := forall h c o,
  exec (p c) (h, o) =
  match m ((h, c), o) with
  | (Panic e, ((h, _), o)) => (Panic e, (h, o))
  | (r, ((h, c), o)) => (Ok (r, c), (h, o))
  end.

Lemma runs_bind {A B} p m (k : A -> sprog B) k' :
  runs p m -> (forall a, runs (k a) (k' a)) -> runs (x ← p; k x) (x ← m; k' x).
Proof.
  intros Hp Hk h c o. unfold mbind at 1, sprog_bind. rewrite exec_pbind. unfold mbind, st_bind. rewrite Hp.
  destruct (m ((h, c), o)) as [[a|e|e] [[h1 c1] o1]]; [apply Hk|done..].
Qed.

Lemma runs_wrapf {A} fmt args (p : sprog A) m : runs p m -> runs (swrapf fmt args p) (wrapf fmt args m).
Proof.
  intros Hp h c o. unfold swrapf, wrapf. rewrite exec_pbind. unfold mbind, st_bind. rewrite Hp.
  by destruct (m ((h, c), o)) as [[a|e|e] [[h1 c1] o1]].
Qed.

Lemma runs_local {A} (m : st conn A) : runs (local m) (on_conn m).
Proof. intros h c o. unfold local, on_conn. by destruct (m c) as [[a|e|e] c1]. Qed.

Lemma runs_remote {A} (p : prog shared A) (m : stio Handler A) :
  (forall x, exec p x = m x) -> runs (remote p) (on_handler m).
Proof.
  intros Hp h c o. unfold remote, on_handler. rewrite exec_pbind. unfold mbind, st_bind. rewrite exec_pcatch, Hp.
  by destruct (m (h, o)) as [[a|e|e] [h1 o1]].
Qed.

Lemma runs_ret {A} (a : A) : runs (mret a) (mret a).
Proof. by intros h c o. Qed.

Lemma runs_if {A} (b : bool) (p p' : sprog A) m m' : runs p m -> runs p' m' -> runs (if b then p else p') (if b then m else m').
Proof. by destruct b. Qed.

#[local] Hint Resolve runs_bind runs_wrapf runs_local runs_remote runs_ret runs_if : core.
#[local] Hint Resolve exec_produce_request exec_fetch_request exec_list_offsets_request exec_metadata_request
  exec_commit_request : core.

Lemma runs_handleOffsetFetch header : runs (handleOffsetFetch_program header) (handleOffsetFetch header).
Proof.
  apply runs_bind; [by apply runs_wrapf, runs_local|]. intros req h c o.
  unfold remote, mbind at 1, sprog_bind. rewrite exec_pbind. unfold mbind at 1, st_bind at 1.
  rewrite exec_pbind. unfold mbind at 1, st_bind at 1. rewrite exec_pcatch, exec_offset_fetch_request.
  apply (runs_wrapf _ _ (ssend _) (send _)), runs_local.
Qed.

Lemma runs_dispatch header : runs (dispatch_program header) (dispatch Getenv header).
Proof.
  unfold dispatch_program, dispatch. cbv zeta.
  repeat apply runs_if; try apply runs_handleOffsetFetch; try (by intros h c o);
    unfold handleProduce_program, handleProduce, handleFetch_program, handleFetch, handleListOffsets_program, handleListOffsets,
      handleMetadata_program, handleMetadata, handleOffsetCommit_program, handleOffsetCommit,
      handleFindCoordinator_program, handleFindCoordinator, handleJoinGroup_program, handleJoinGroup,
      handleHeartbeat_program, handleHeartbeat, handleLeaveGroup_program, handleLeaveGroup,
      handleSyncGroup_program, handleSyncGroup, handleApiVersions_program, handleApiVersions, sparse, parse, ssend, send; auto 10.
Qed.

Lemma runs_serve fuel : runs (serve_program fuel) (serve Getenv fuel).
Proof.
  induction fuel as [|k IH]; [by intros h c o|]. intros h c o. cbn [serve_program serve]. rewrite exec_pbind.
  unfold mbind, st_bind, sparse. rewrite (runs_local _ h c o). fold (parse ParseRequestHeader).
  destruct (parse ParseRequestHeader ((h, c), o)) as [[header|e|e] [[h1 c1] o1]]; [|done..].
  rewrite exec_pbind. unfold mbind, st_bind. rewrite (runs_dispatch header h1 c1 o1).
  destruct (dispatch Getenv header ((h1, c1), o1)) as [[u|e|e] [[h2 c2] o2]]; [|done..]. apply IH.
Qed.

(** The program of a connection, run alone, is [Handle]. *)
Lemma exec_Handle_program c h o :
  exec (Handle_program c) (h, o) =
  match Handle Getenv ((h, c), o) with
  | (Panic e, ((h, _), o)) => (Panic e, (h, o))
  | (r, ((h, c), o)) => (Ok (r, c), (h, o))
  end.
Proof.
  unfold Handle_program, Handle. rewrite exec_pbind. unfold mbind, st_bind. rewrite (runs_serve _ h c o).
  by destruct (serve Getenv _ ((h, c), o)) as [[r|e|e] [[h1 c1] o1]].
Qed.
End sessions.
