(* ===== verification/ConnectionsSpec.v ===== *)
(** * Concurrent connections against the abstract broker

    The whole server side at once: any number of clients, each on a connection
    of its own, send streams of requests of any of the twelve APIs, and the
    goroutines that serve them run interleaved. What the clients read on their
    connections is what the abstract broker answered, in the documented
    layouts, one frame per request and in the order of the requests. *)

From stdpp Require Import base tactics list numbers gmap strings relations.
From Stdlib Require Import ZArith Lia.
From S2P Require Import Prelude GoIO GoStrings Wire Requests RequestSpec Responses ResponseSpec RecordBatch OSFile.
From S2P Require Import LogIndex LogSegment SegmentSpec LogStore OffsetRecords FetchPatch BrokerStore BrokerSpec Metrics.
From S2P Require Import Handler ConnSpec HandlerSpec CatalogueSpec CommitSpec AppendOnly Prog Concurrent ConcurrentSpec Acknowledged.
From S2P Require Import Connections.
#[local] Open Scope Z_scope.

(** ** What a request is to the broker *)

(** The requests that touch shared state; the others are answered from the
    request alone. *)
Definition data_request (q : Request) : option request :=
  match q with
  | RProduce q => Some (RqProduce q)
  | RFetch q => Some (RqFetch q)
  | RListOffsets q => Some (RqListOffsets q)
  | RMetadata q => Some (RqMetadata q)
  | ROffsetCommit q => Some (RqOffsetCommit q)
  | ROffsetFetch q => Some (RqOffsetFetch q)
  | _ => None
  end.

(** A client: the requests it sends, what it sends after them that is not a
    request, and how its stream ends. *)
Record client := Client { cl_sent : list sent; cl_rest : list byte; cl_end : goerr }.

Definition connect (cl : client) : conn :=
  Conn (Rd (concat (enc_sent <$> cl_sent cl) ++ cl_rest cl) (cl_end cl)) [] None.

(** No request: a header that cannot be read, an API key that is not supported
    or a body that cannot be read. The end of the stream is one case. *)
Definition malformed (rd : reader) : bool :=
  match ParseRequestHeader rd with
  | (Ok header, rd) =>
      match parse_body header with
      | Some dec => match dec rd with (Err _, _) => true | _ => false end
      | None => true
      end
  | (Err _, _) => true
  | (Panic _, _) => false
  end.

(** The frame of a response. *)
Definition response_frame (s : sent) (resp : response) : list byte :=
  let c := rh_CorrelationID (s_header s) in
  match resp with
  | RsProduce r => match s_request s with
                   | RProduce q => if pr_Acks q =? AcksNone then [] else frame_of c (SProduce r)
                   | _ => frame_of c (SProduce r)
                   end
  | RsFetch r => fetch_frame c r
  | RsListOffsets r => frame_of c (SListOffsets r)
  | RsMetadata r => frame_of c (SMetadata (rh_ApiVersion (s_header s)) r)
  | RsOffsetCommit r => frame_of c (SOffsetCommit r)
  | RsOffsetFetch r => frame_of c (SOffsetFetch r)
  end.

Section connections.
Context `{Prometheus} `{!PrometheusOk} `{MapOrder} (Getenv : gostring -> gostring) (max : Z).

Abbreviation shared := (Handler * os)%type.
Abbreviation sim := (Prog.sim (shows max) evolves room).
Abbreviation anywhere := (fun _ : shared => True).
Abbreviation peer d e out := (Conn (Rd d e) out None).

Definition sent_ok (s : sent) : Prop :=
  wf_sent s /\ from_option ConcurrentSpec.wf_request True (data_request (s_request s)).

Definition client_ok (cl : client) : Prop :=
  Forall sent_ok (cl_sent cl) /\ malformed (Rd (cl_rest cl) (cl_end cl)) = true.

Definition sent_bytes (s : sent) : Z := from_option request_bytes 0 (data_request (s_request s)).

Definition client_bytes (cl : client) : Z := total sent_bytes (cl_sent cl).

(** The abstract broker at the service of a client. *)
Definition sent_steps (s : sent) : prog abroker (option ConcurrentSpec.answer) :=
  match data_request (s_request s) with
  | Some rq => pfmap Some (request_steps max rq)
  | None => PRet None
  end.

Definition client_steps (cl : client) : prog abroker (client * list (option ConcurrentSpec.answer)) :=
  pbind (pmap sent_steps (cl_sent cl)) (fun answers => PRet (cl, answers)).

(** The frame [p] carries the abstract broker's answer to [s]. *)
Definition replies (s : sent) (a : option ConcurrentSpec.answer) (p : list byte) : Prop :=
  match a with
  | Some a => exists resp, answers resp a /\ p = response_frame s resp
  | None => p = frame_of (rh_CorrelationID (s_header s)) (group_response Getenv (s_request s))
  end.

(** ** One request *)

(** A request served: its answer has been added to the output. *)
Definition served (s : sent) (d : list byte) (e : goerr) (out : list byte)
    (x : result unit * conn) (a : option ConcurrentSpec.answer) : Prop :=
  exists p, x = (Ok tt, peer d e (out ++ p)) /\ replies s a p.

Lemma sparse_reads {A B} fmt (dec : decoder A) a bytes (k : A -> sprog B) d e out :
  reads dec a bytes -> (x ← swrapf fmt [] (sparse dec); k x) (peer (bytes ++ d) e out) = k a (peer d e out).
Proof. intros Hr. unfold mbind, sprog_bind, swrapf, sparse, local. cbn [c_in]. by rewrite Hr. Qed.

(** The shape of the handlers that touch shared state: parse, run the program of
    the request, send. *)
Lemma sim_handle {A B} fmt (dec : decoder A) a bytes s d e out (agree : B -> ConcurrentSpec.answer -> Prop)
    n (p : A -> prog shared B) q (k : A -> B -> sprog unit) :
  reads dec a bytes -> sim agree anywhere n (p a) q ->
  (forall r r', agree r r' -> exists frame, k a r (peer d e out) = PRet (Ok tt, peer d e (out ++ frame)) /\
     replies s (Some r') frame) ->
  sim (served s d e out) anywhere n
    ((x ← swrapf fmt [] (sparse dec); r ← remote (p x); k x r) (peer (bytes ++ d) e out)) (pfmap Some q).
Proof.
  intros Hr Hp Hk. rewrite (sparse_reads _ _ _ _ _ _ _ _ Hr). unfold mbind, sprog_bind, remote, pfmap.
  apply (sim_post _ _ _ (fun x r' => served s d e out x (Some r'))); [|done].
  eapply sim_after; [eapply sim_after; [by apply sim_pcatch|]|].
  - intros ? r' (x & -> & Ha). eexists. split; [done|].
    instantiate (1 := fun y r' => exists x, y = (Ok x, _) /\ agree x r'). by exists x.
  - intros [? ?] r' (x & [= -> ->] & Ha). destruct (Hk _ _ Ha) as (frame & E & Hf). exists (Ok tt, peer d e (out ++ frame)).
    split; [done|by exists frame].
Qed.

(** The handlers that answer from the request alone. *)
Lemma sim_alone {A} fmt (dec : decoder A) a bytes s d e out (k : A -> sprog unit) frame :
  reads dec a bytes -> k a (peer d e out) = PRet (Ok tt, peer d e (out ++ frame)) -> replies s None frame ->
  sim (served s d e out) anywhere 0 ((x ← swrapf fmt [] (sparse dec); k x) (peer (bytes ++ d) e out)) (PRet None).
Proof. intros Hr E Hf. rewrite (sparse_reads _ _ _ _ _ _ _ _ Hr), E. apply sim_ret; [done|by exists frame]. Qed.

(** The agreement of a program with its specification, for its response as a
    response. *)
Lemma sim_answers {B B'} (agree : B -> B' -> Prop) n (p : prog shared B) q (f : B' -> ConcurrentSpec.answer) (g : B -> response) :
  sim agree anywhere n p q -> (forall r r', agree r r' -> answers (g r) (f r')) ->
  sim (fun r a => answers (g r) a) anywhere n p (pfmap f q).
Proof. intros Hp Ha. by eapply sim_post. Qed.

Ltac pick_handler :=
  cbn [api_key Z.eqb Pos.eqb ApiKeyProduce ApiKeyFetch ApiKeyListOffsets ApiKeyMetadata ApiKeyOffsetCommit ApiKeyOffsetFetch
       ApiKeyFindCoordinator ApiKeyJoinGroup ApiKeyHeartbeat ApiKeyLeaveGroup ApiKeySyncGroup ApiKeyApiVersions].

(** A handler whose response is one frame. *)
Ltac one_frame :=
  let Ha := fresh in intros ? ? Ha; eexists; split; [reflexivity|eexists; split; [exact Ha|reflexivity]].

Lemma sim_dispatch header q txn auto d e out :
  sent_ok (Sent header q txn auto) ->
  sim (served (Sent header q txn auto) d e out) anywhere (sent_bytes (Sent header q txn auto))
    (dispatch_program Getenv header (peer (enc_request txn auto q ++ d) e out)) (sent_steps (Sent header q txn auto)).
Proof.
  intros [(_ & [Hk Hq] & Ht) Hrq]. unfold dispatch_program, sent_steps, sent_bytes. cbn [s_header s_request s_txn] in *.
  rewrite Hk. destruct q as [q|q|q|q|q|q|q|q|q|q|q|]; simpl in Hq; destruct_and?; pick_handler;
    cbn [enc_request data_request from_option ConcurrentSpec.wf_request request_bytes] in *.
  - apply (sim_handle _ _ q _ _ _ _ _ (fun r a => answers (RsProduce r) a)); [by apply reads_produce| |].
    + eapply sim_answers; [by apply sim_produce_request|by intros ? ? ->].
    + intros r a Ha. eexists. split; [|by exists (RsProduce r)].
      unfold response_frame. cbn [s_request]. destruct (pr_Acks q =? AcksNone); [by rewrite app_nil_r|done].
  - apply (sim_handle _ _ q _ _ _ _ _ (fun r a => answers (RsFetch r) a /\ consistent r)); [by apply reads_fetch| |].
    + eapply sim_post; [by apply sim_fetch_request|by intros ? ? [-> ?]].
    + intros r a [Ha Hc]. eexists. split; [|by exists (RsFetch r)].
      unfold swrapf, local. by rewrite (writes_fetch_response _ _ Hc).
  - apply (sim_handle _ _ q _ _ _ _ _ (fun r a => answers (RsListOffsets r) a)); [by apply reads_list_offsets| |one_frame].
    eapply sim_answers; [by apply sim_list_offsets_request|by intros ? ? ->].
  - apply (sim_handle _ _ q _ _ _ _ _ (fun r a => answers (RsMetadata r) a)); [by apply reads_metadata| |one_frame].
    eapply sim_answers; [by apply sim_metadata|]. intros m tps Hl. by exists m.
  - apply (sim_handle _ _ q _ _ _ _ _ (fun r a => answers (RsOffsetCommit r) a)); [by apply reads_commit| |one_frame].
    eapply sim_answers; [by apply sim_commit_request|by intros ? ? ->].
  - apply (sim_handle _ _ q _ _ _ _ _ (fun r a => answers (RsOffsetFetch r) a)); [by apply reads_offset_fetch| |one_frame].
    eapply sim_answers; [by apply sim_offset_fetch_request|by intros ? ? ->].
  - eapply (sim_alone _ _ q); [|done..]. unfold ParseFindCoordinatorRequest. destruct q. simpl in *.
    eapply reads_bind_ret; [apply reads_wrapf|reflexivity]. auto with reads.
  - eapply (sim_alone _ _ q); [by apply reads_join|by rewrite (join_group_response_eq Getenv)|done].
  - eapply (sim_alone _ _ q); [by apply reads_heartbeat|done..].
  - eapply (sim_alone _ _ q); [by apply reads_leave|done..].
  - eapply (sim_alone _ _ q); [by apply reads_sync|done..].
  - apply sim_ret; [done|by eexists].
Qed.

(** ** What is not a request *)

Lemma sparse_fails {A B C} fmt (dec : decoder A) (f : A -> C) (k : A -> sprog B) rd e rd' out :
  (q ← dec; mret (f q)) rd = (Err e, rd') ->
  exists e', (x ← swrapf fmt [] (sparse dec); k x) (Conn rd out None) = PRet (Err e', Conn rd' out None).
Proof.
  unfold mbind, st_bind, sprog_bind, swrapf, sparse, local. cbn [c_in]. intros E.
  destruct (dec rd) as [[a|e1|p] rd1]; [done| |done]. injection E as -> ->. by eexists.
Qed.

Lemma dispatch_refuses header dec rd e rd' out :
  parse_body header = Some dec -> dec rd = (Err e, rd') ->
  exists e', dispatch_program Getenv header (Conn rd out None) = PRet (Err e', Conn rd' out None).
Proof.
  unfold parse_body, dispatch_program. cbv zeta.
  repeat (case_match; [intros [= <-] E; first [done|by eapply sparse_fails]|]). done.
Qed.

Lemma dispatch_unsupported header c :
  parse_body header = None -> exists e, dispatch_program Getenv header c = PRet (Err e, c).
Proof. unfold parse_body, dispatch_program. cbv zeta. repeat (case_match; [done|]). by eexists. Qed.

Lemma serve_malformed fuel rest e out :
  malformed (Rd rest e) = true ->
  exists err rd, serve_program Getenv (S fuel) (peer rest e out) = PRet (Ok err, Conn rd out None) /\ (rest = [] -> err = e).
Proof.
  intros Hm. destruct (decide (rest = [])) as [->|Hne]; [by exists e, (Rd [] e)|].
  cbn [serve_program]. unfold sparse at 1, local at 1. cbn [c_in]. unfold malformed in Hm.
  destruct (ParseRequestHeader (Rd rest e)) as [[header|e1|p] rd1]; [|by exists e1, rd1|done]. cbn [pbind c_out c_cap].
  destruct (parse_body header) as [dec|] eqn:Ep.
  - destruct (dec rd1) as [[q|e1|p] rd2] eqn:Ed; [done| |done].
    destruct (dispatch_refuses _ _ _ _ _ out Ep Ed) as [e' ->]. by exists e', rd2.
  - destruct (dispatch_unsupported header (Conn rd1 out None) Ep) as [e' ->]. by exists e', rd1.
Qed.

(** ** A connection *)

(** A stream served, with one answer per request, up to what is not one. *)
Definition stream_served (ss : list sent) (rest : list byte) (e : goerr) (out : list byte)
    (x : result goerr * conn) (answers : list (option ConcurrentSpec.answer)) : Prop :=
  exists ps err rd, x = (Ok err, Conn rd (out ++ concat ps) None) /\ (rest = [] -> err = e) /\ Forall3 replies ss answers ps.

Lemma sim_serve ss rest fuel e out :
  Forall sent_ok ss -> malformed (Rd rest e) = true -> (length ss < fuel)%nat ->
  sim (stream_served ss rest e out) anywhere (total sent_bytes ss)
    (serve_program Getenv fuel (peer (concat (enc_sent <$> ss) ++ rest) e out)) (pmap sent_steps ss).
Proof.
  intros Hss Hm. revert fuel out. induction Hss as [|s ss Hs _ IH]; intros fuel out Hf; (destruct fuel as [|fuel]; [cbn in Hf; lia|]).
  - cbn [fmap list_fmap concat app]. destruct (serve_malformed fuel rest e out Hm) as (err & rd & -> & He).
    apply sim_ret; [done|]. exists [], err, rd. rewrite app_nil_r. split_and!; [done..|constructor].
  - destruct s as [header q txn auto]. cbn [serve_program]. unfold sparse at 1, local at 1. cbn [c_in]. rewrite fmap_cons. cbn [concat].
    unfold enc_sent at 1. rewrite <- !app_assoc. pose proof Hs as [(Hh & _) _]. rewrite (reads_header _ Hh).
    cbn [pbind c_out c_cap]. cbn [pmap]. change (total sent_bytes (?s :: ss)) with (sent_bytes s + total sent_bytes ss).
    assert (Hk : (length ss < fuel)%nat) by (cbn in Hf; lia).
    eapply sim_bind; [apply fits_weaken|by apply sim_dispatch|by eapply sim_need, (IH fuel [])|].
    intros ? a (p & -> & Hp). eapply sim_post; [by apply IH|].
    intros ? l (ps & err & rd & -> & He & Hps). exists (p :: ps), err, rd. cbn [concat]. rewrite app_assoc.
    split_and!; [done..|by constructor].
Qed.

Lemma enc_sent_length ss : (length ss <= length (concat (enc_sent <$> ss)))%nat.
Proof.
  induction ss as [|s ss IH]; [done|]. rewrite fmap_cons. cbn [concat]. unfold enc_sent at 1, enc_header, enc_i32 at 1.
  rewrite !length_app, length_be_put. cbn [length]. lia.
Qed.

(** A connection that has been handled: every request answered in its turn, and
    the connection closed. *)
Definition handled (x : result goerr * conn) (r : client * list (option ConcurrentSpec.answer)) : Prop :=
  exists ps err, x = (Ok err, conn_Close (peer [] err (concat ps))) /\ (cl_rest r.1 = [] -> err = cl_end r.1) /\
    Forall3 replies (cl_sent r.1) r.2 ps.

Lemma sim_Handle cl :
  client_ok cl -> sim handled anywhere (client_bytes cl) (Handle_program Getenv (connect cl)) (client_steps cl).
Proof.
  intros [Hss Hm]. unfold Handle_program, client_steps.
  eapply (sim_post _ _ _ (fun x answers => handled x (cl, answers))); [|done].
  eapply sim_after; [apply sim_serve; [done..|]|].
  - cbn [connect c_in rd_data]. rewrite length_app. pose proof (enc_sent_length (cl_sent cl)). lia.
  - intros ? answers (ps & err & rd & -> & He & Hps). eexists. split; [done|]. by exists ps, err.
Qed.

(** ** The pool of connections *)

Lemma connections_pool h o A cls :
  handler_ok max h o A -> Forall client_ok cls -> room (total client_bytes cls) A ->
  pool_sim (shows max) evolves room handled ((fun cl => Handle_program Getenv (connect cl)) <$> cls, (h, o))
    (client_steps <$> cls, A).
Proof.
  intros Hok Hwf Hroom. exists ((fun cl => (client_steps cl, client_bytes cl)) <$> cls). cbn [fst snd]. split_and!.
  - rewrite <- list_fmap_compose. by apply list_fmap_ext.
  - clear Hroom. induction Hwf as [|cl cls Hcl _ IH]; [constructor|]. rewrite !fmap_cons. constructor; [|exact IH].
    exists anywhere. split_and!; [done|done|by apply sim_Handle].
  - done.
  - unfold needs. rewrite foldr_fmap. exact Hroom.
Qed.

(** The frame [p] carries the abstract broker's answer to [s], and what it
    acknowledges is in the files of the broker or buffered for them. *)
Definition delivers (c : shared) (s : sent) (a : option ConcurrentSpec.answer) (p : list byte) : Prop :=
  match a with
  | Some a => exists resp, answers resp a /\ p = response_frame s resp /\
      from_option (fun rq => acknowledged (recorded c) rq resp) True (data_request (s_request s))
  | None => p = frame_of (rh_CorrelationID (s_header s)) (group_response Getenv (s_request s))
  end.

Definition sent_told (A : abroker) (s : sent) (a : option ConcurrentSpec.answer) : Prop :=
  match data_request (s_request s), a with
  | Some rq, Some a => told rq a A
  | _, _ => True
  end.

Definition client_told (cl : client) (r : client * list (option ConcurrentSpec.answer)) (A : abroker) : Prop :=
  r.1 = cl /\ Forall2 (sent_told A) (cl_sent cl) r.2.

Lemma replies_deliver h o A s a p :
  handler_ok max h o A -> replies s a p -> sent_told A s a -> delivers (h, o) s a p.
Proof.
  intros Hok Hr Ht. destruct a as [a|]; [|done]. destruct Hr as (resp & Ha & ->). exists resp. split_and!; [done..|].
  unfold sent_told in Ht. destruct (data_request (s_request s)); [|done]. by eapply told_recorded.
Qed.

Lemma all_deliver h o A ss answers ps :
  handler_ok max h o A -> Forall3 replies ss answers ps -> Forall2 (sent_told A) ss answers ->
  Forall3 (delivers (h, o)) ss answers ps.
Proof.
  intros Hok. induction 1 as [|s a p ss answers ps Hr _ IH]; intros F; [constructor|].
  apply Forall2_cons in F as [Ht F]. constructor; [by eapply replies_deliver|by apply IH].
Qed.

Lemma safe_client cl : safe (client_told cl) (fun _ => True) (client_steps cl).
Proof.
  eapply safe_bind; [apply (safe_pmap _ (fun s a A => sent_told A s a))|].
  - intros s a A A' HA. unfold sent_told. destruct (data_request _), a; try done. by apply told_kept.
  - apply Forall_true. intros s. unfold sent_steps, sent_told. destruct (data_request _) as [rq|]; [|done].
    eapply safe_bind; [apply safe_request|]. by intros a A.
  - intros answers A HF. by split.
Qed.

(** C8: The server as its clients see it. Any number of clients send streams of requests of all twelve APIs, each on its own
    connection, and the goroutines that serve the connections run interleaved in any way; no system call fails. The requests
    are well formed: partitions can be named, fetch offsets are not negative and limits below 2^31 - 4, batches are not
    among those that make the handler panic. What a client may send after them is anything that is refused with an error,
    not with a panic. At every moment the broker is in a state that the abstract broker reaches by interleaving its own
    steps for the clients' requests, with the files of closed segments intact. On a connection that has been handled the
    client has received, in the order of its requests, exactly one frame each (none where it wants no acknowledgement) that
    carries the abstract broker's answer, the connection is closed, and every record acknowledged on it is in a segment
    file of its partition or in what is buffered for it. What is refused ends its own connection and does nothing else. *)
Theorem concurrent_connections_refine h o A cls ts c' :
  handler_ok max h o A -> Forall client_ok cls -> room (total client_bytes cls) A ->
  rtc psteps ((fun cl => Handle_program Getenv (connect cl)) <$> cls, (h, o)) (ts, c') ->
  exists us A', rtc psteps (client_steps <$> cls, A) (us, A') /\ shows max c' A' /\
    forall i cl x, cls !! i = Some cl -> ts !! i = Some (PRet x) ->
      exists answers ps err, us !! i = Some (PRet (cl, answers)) /\
        x = (Ok err, conn_Close (peer [] err (concat ps))) /\ (cl_rest cl = [] -> err = cl_end cl) /\
        Forall3 (delivers c') (cl_sent cl) answers ps.
Proof.
  intros Hok Hwf Hroom Hrun. pose proof (connections_pool h o A cls Hok Hwf Hroom) as Hpool.
  destruct (pool_simulation _ _ _ _ fits_weaken _ _ _ Hpool Hrun) as ([us A'] & Hr & Hs).
  assert (F : Forall2 (thread_safe logs_kept A) (client_told <$> cls) (client_steps <$> cls)).
  { apply Forall2_fmap, Forall_Forall2_diag, Forall_true. intros cl. exists (fun _ => True).
    split_and!; [done|done|apply safe_client]. }
  destruct (pool_safe _ _ _ _ _ _ Hr F) as [F' Hg]. exists us, A'.
  assert (Hok' : shows max c' A') by by destruct Hs as (? & _ & _ & ? & _).
  split_and!; [done..|].
  intros i cl x Hi Hti. destruct (pool_results _ _ _ _ _ _ _ _ _ _ Hs Hti) as ([cl' answers] & Ha & ps & err & -> & He & Hps).
  assert (Hp : client_told cl (cl', answers) A').
  { eapply (pool_posts _ _ _ _ i _ _ F'); [by rewrite list_lookup_fmap, Hi|done]. }
  cbn [fst snd] in *. destruct Hp as [E Hk]. cbn [fst snd] in *. subst cl'. exists answers, ps, err.
  destruct c' as [h' o']. split_and!; [done..|by eapply all_deliver].
Qed.

End connections.

(** ** Instances *)

(** A producer that asks for the versions first, and a consumer with a
    heartbeat, a fetch of what the producer sends and its committed offset. *)
Definition sample_clients : list client :=
  let fetch_head := sample_head ApiKeyFetch 5 in
  [Client [Sent (sample_head ApiKeyApiVersions 1) RApiVersions None false;
           Sent (pr_Header sample_produce_req) (RProduce sample_produce_req) None false] [] EOF;
   Client [Sent (sample_head ApiKeyHeartbeat 4)
             (RHeartbeat {| hb_GroupID := gos "g"; hb_GenerationID := 1; hb_MemberID := gos "m" |}) None false;
           Sent fetch_head
             (RFetch {| fr_Header := fetch_head; fr_ReplicaID := -1; fr_MaxWaitMs := 0; fr_MinBytes := 0; fr_MaxBytes := 1000;
                        fr_IsolationLevel := 0; fr_Topics := fr_Topics sample_fetch_req |}) None false;
           Sent (sample_head ApiKeyOffsetFetch 6) (ROffsetFetch (ask_offset (gos "group") (gos "sensors") 0)) None false] (gos "garbage") EOF].

Definition sample_turns : list nat := [0; 1; 1; 0; 0; 0; 0; 0; 1; 1; 1; 1; 1; 1; 1; 1]%nat.

Definition sample_connections : list (prog (Handler * os) (result goerr * conn)) * (Handler * os) :=
  ((fun cl => Handle_program (H0 := insertion_order) no_env (connect cl)) <$> sample_clients, sample_handler).

Definition sample_served : list (prog (Handler * os) (result goerr * conn)) * (Handler * os) :=
  default ([], sample_handler) (prun sample_turns sample_connections).

Lemma sample_served_reached : rtc psteps sample_connections sample_served.
Proof.
  apply (prun_reaches sample_turns). unfold sample_served.
  assert (E : is_Some (prun sample_turns sample_connections)) by concrete.
  destruct E as [x E]. by rewrite E.
Qed.

Lemma sample_clients_wf : Forall (fun cl => Forall wf_sent (cl_sent cl)) sample_clients.
Proof.
  repeat (apply Forall_cons_2 || apply Forall_nil_2); unfold wf_sent; cbn [s_header s_request s_txn];
    unfold wf_header, RequestSpec.wf_request, wf_produce, wf_produce_topic, wf_produce_partition, wf_fetch, wf_fetch_topic,
      wf_fetch_partition, wf_offset_fetch, wf_offset_fetch_topic, counted; concrete.
Qed.

Lemma sample_clients_ok : Forall client_ok sample_clients.
Proof.
  pose proof sample_clients_wf as Hs. pose proof sample_requests_wf as Hr.
  unfold sample_requests in Hr. rewrite !Forall_cons in Hr. destruct Hr as (Hp & Hf & Ho & _).
  unfold sample_clients in *. rewrite !Forall_cons in Hs. cbn [cl_sent] in Hs. rewrite !Forall_cons in Hs.
  destruct Hs as ((? & ? & _) & (? & ? & ? & _) & _).
  apply Forall_cons_2; [|apply Forall_singleton]; (split; [|vm_compute; reflexivity]);
    repeat (apply Forall_cons_2 || apply Forall_nil_2); by split.
Qed.

Lemma concurrent_connections_refine_witness :
  exists us A', rtc psteps (client_steps 1000 <$> sample_clients, ABroker ∅ ∅) (us, A') /\
    shows 1000 sample_served.2 A' /\
    forall i cl x, sample_clients !! i = Some cl -> sample_served.1 !! i = Some (PRet x) ->
      exists answers ps err, us !! i = Some (PRet (cl, answers)) /\
        x = (Ok err, conn_Close (Conn (Rd [] err) (concat ps) None)) /\ (cl_rest cl = [] -> err = cl_end cl) /\
        Forall3 (delivers no_env sample_served.2) (cl_sent cl) answers ps.
Proof.
  apply (concurrent_connections_refine (H1 := insertion_order) no_env 1000 sample_handler.1 sample_handler.2 (ABroker ∅ ∅)
    sample_clients sample_served.1 sample_served.2).
  - exact sample_handler_ok.
  - exact sample_clients_ok.
  - apply sample_room. vm_compute. reflexivity.
  - rewrite <- !surjective_pairing. exact sample_served_reached.
Defined.

